(* ===== verification/_CoqProject ===== *)
-Q . S2P
Prelude.v
Memory.v
CLib.v
CLibProofs.v
BPTree.v
Index.v
BTree.v
BTreeTheory.v
BPTreeRep.v
BPTreeOps.v
BPTreeProofs.v
BPTreeIndex.v
BPTreeInstance.v
Table.v
TableMem.v
TableRep.v
TableCollect.v
TableQueries.v
TableUpdate.v
TableLife.v
TableSpec.v
Actions.v
TableActs.v
TableActsAlone.v
TableActsInv.v
TableActsSteps.v
TableActsInsert.v
TableActsArrays.v
TableActsLookups.v
TableActsCollect.v
TableActsSpec.v
TableActsRuns.v
TableActsEnds.v
Sql.v
SqlLex.v
SqlGrammar.v
SqlErrors.v
SqlSpec.v
RowTypes.v
Quiet.v
Repl.v
Bytes.v
Json.v
JsonProofs.v
JsonValue.v
Api.v
ApiSpec.v
ApiActs.v
ApiActsSpec.v
Http.v
HttpSpec.v
HttpText.v
ThreadPool.v
ThreadPoolInv.v
ThreadPoolSafe.v
ThreadPoolRuns.v
ThreadPoolLive.v
ThreadPoolTheorems.v
Server.v
ServerPool.v
ServerSpec.v
ServerActs.v
ServerActsInv.v
ServerActsSpec.v
ServerAlive.v
ServerHandlers.v
ServerRuns.v
ServerLive.v
BPTreeTheorems.v
TableTheorems.v
TableActsTheorems.v
SqlTheorems.v
ApiTheorems.v
HttpTheorems.v
ServerTheorems.v
