(* ===== verification/Prelude.v ===== *)
(** * A verification of the week8 SQL server

    The program under src/ is a small SQL database in C and the HTTP server in
    front of it.  Its parts, from the bottom up:

    - [sql_processor/bptree.c], a B+ tree of order 4 from ids to records;
    - [sql_processor/table.c], the users table: sixteen buckets, each with a
      read-write lock, an array of rows and a B+ tree; a mutex for the next id;
    - [sql_processor/sql.c], the parser of INSERT, SELECT and EXIT/QUIT
      statements and their execution against the table;
    - [sql_processor/main.c], the interactive program over these three;
    - [server/json_util.c], a growing text buffer, and [server/api.c], which
      executes the body of a request and writes the reply as JSON;
    - [server/http.c], reading requests from and writing responses to a socket;
    - [server/thread_pool.c], a bounded queue of descriptors and the workers
      that take from it;
    - [server/server.c] and [server_main.c]: the accept loop, which gives
      connections to the pool, the handler the workers run, signals, start and
      stop.

    ** How C is modelled

    Sequential code is a [prog], a state-passing function whose outcome is a
    value, undefined behaviour, a wait (for a lock, or for a peer on a socket
    without a timeout), the end of the process by a signal, or a loop whose bound
    ran out (Prelude.v).  Theorems use [wp], the weakest precondition of total
    correctness: [wp c Q m] says that [c] run in [m] returns, without undefined
    behaviour and within its bounds, a value and a state in [Q]; and
    [wpx K B c Q m] that it does unless a signal ends the process, and then [K],
    or it waits for ever, and then [B].

    The memory (Memory.v, Bytes.v) has one heap for each kind of structure;
    pointers are addresses or null, and addresses are never used twice, so a
    use after [free], a second [free], a null pointer or an index out of bounds
    is undefined behaviour in the model, too.  Library calls that can fail
    ([malloc], [realloc], [pthread_*_init], locking) take their outcome from the
    list [m_env], whose values are arbitrary; after it they succeed.  CLib.v has
    what the code uses of the C library's text functions: character classes,
    [strtol] and [strtoul] with their clamping, conversions to [int], [%d].
    A [size_t] that can wrap is a number modulo 2^64.

    A loop over lists of known length is a recursion.  Other loops get a bound;
    running out of it is an outcome of its own, which [wp] excludes, so every
    theorem also says that the bounds are enough: a walk in the B+ tree, the number of nodes in memory plus one
    ([walk_bound]); the doubling of a capacity, 65 turns, as a [size_t] is zero
    after 64 doublings; receiving, the number of bytes and events to come
    ([recv_turns]); sending, the number of events plus two; reading lines, the
    length of the input.

    Threads are transition systems.  The thread pool interleaves at each access
    to the mutex, the condition or the queue, with wake-ups for no reason.
    Threads that use the table (TableActs.v) interleave at each call of a lock
    and between them, a thread running on alone only while it uses what its lock
    protects or what is its own; the proofs are in a logic of rely and guarantee
    (Actions.v), the theorem that no two threads use the same data justifies the
    size of the pieces.  In the process (Server.v) the steps of the pool, of the
    main thread and of the handlers that run in the workers interleave in any
    order, the handlers at each call of a lock of the table and between, and
    signals come at any time.  [SIGINT] and [SIGTERM] set the flag of the
    handler that [main] installs; [SIGPIPE], which nothing in the program handles
    or holds back, ends the process, which then has no more steps ([killed]).

    ** The files

    - B+ tree: BPTree.v is the code.  BTree.v and BTreeTheory.v are functional
      trees labelled with addresses and their theory; BPTreeRep.v says how the
      heap holds such a tree; BPTreeOps.v and BPTreeProofs.v refine the code to
      them; BPTreeIndex.v gives the four functions of bptree.h in terms of
      finite maps.  Index.v is the class [KeyIndex] of what the table needs of an
      index, and BPTreeInstance.v its instance.
    - Users table: Table.v is the code.  TableMem.v has the rules of its building
      blocks, TableRep.v the abstract state and the relation to memory,
      TableCollect.v and TableQueries.v the lookups, TableUpdate.v insertion,
      TableLife.v creation and destruction, TableSpec.v the contract for whole
      client programs.  All of these are proved over [KeyIndex].
    - Users table, threads: Actions.v has programs cut into actions and their
      logic; TableActs.v is the code again, cut at the locks, and the threads
      that run it.  TableActsAlone.v shows that one thread does what Table.v
      does.  TableActsInv.v has the ghost state (who holds which lock, took
      which id, owns which array; the rows in the order of storing) and the
      protocol of the threads; TableActsSteps.v, TableActsInsert.v,
      TableActsArrays.v, TableActsLookups.v and TableActsCollect.v go through
      the operations; TableActsSpec.v says what a call may reply;
      TableActsRuns.v and TableActsEnds.v carry it through runs.
      ApiActs.v cuts the execution of a request in the same way, and
      ApiActsSpec.v says what it replies when others are executed meanwhile.
    - SQL: Sql.v is the code.  SqlLex.v characterises the token parsers,
      SqlGrammar.v the accepted statements, SqlErrors.v the refused ones,
      SqlSpec.v execution; RowTypes.v types the stored data; Quiet.v shows that
      execution prints nothing and touches no character arrays.  Repl.v is
      [main.c], code and proofs.
    - JSON and API: Json.v and Api.v are the code.  JsonProofs.v shows what the
      buffer holds, JsonValue.v has JSON values, their text and a reader of it,
      ApiSpec.v the contract of api.h.
    - HTTP: Http.v is the code, over a connection that is the list of what [recv]
      and [send] will meet, with its two timeouts: a peer that neither sends nor
      reads nor closes is waited for until the timeout, or for ever if none was
      set, and sending to a peer that has closed raises [SIGPIPE].  HttpSpec.v makes reading a function of the bytes
      received, HttpText.v writes requests and reads responses.
    - Thread pool: ThreadPool.v is the code as a transition system.
      ThreadPoolInv.v has its steps as a relation and mutual exclusion,
      ThreadPoolSafe.v the queue and definedness, ThreadPoolRuns.v the account of
      every descriptor and of every wake-up, ThreadPoolLive.v progress and the
      bound on runs.
    - Server: Server.v is the code: the handler, the handler cut into actions,
      and the process as a transition system that contains the pool's and runs
      the actions of the handlers.  ServerPool.v says what the pool holds for the
      server, ServerSpec.v what a client gets who is alone.  ServerActs.v shows
      that a handler alone does what the sequential one does, and touches no
      connection but its own; ServerActsInv.v has the protocol of handlers (the
      table is shared as before, connections and texts have owners),
      ServerActsSpec.v the response to a request among others.  ServerAlive.v
      says what is true while the server exists and that the main thread and the
      pool keep it, ServerHandlers.v that the handlers do, ServerRuns.v carries
      it from the start to the end of the process; ServerLive.v shows that
      handlers exclude each other and return.

    The files *Theorems.v have the results, each with an instance.

    ** What is proved

    - BPTreeTheorems.v: on a fresh tree any sequence of insertions and lookups
      is a finite map that keeps the first value of a key; an insertion keeps
      order, balance, parents and the leaf chain; a lookup visits logarithmically
      many nodes; after any insertions a walk along the leaf chain lists the
      map in order; what a failed allocation in the middle of a split loses.
    - TableTheorems.v: any sequence of calls is that of an append-only list of
      records with consecutive ids; insertion and creation under every failure
      of a library call; nothing leaks; the lookups agree with each other.
    - TableActsTheorems.v: threads that share a table, in any interleaving: one
      order of the insertions explains all replies, each search at moments
      between its begin and its end; at the end every insertion has its record
      and its id; no deadlock, no infinite run, no race; what was inserted
      before a call is seen by it; and a scan that is no snapshot.
    - SqlTheorems.v: the parser accepts exactly the grammar and refuses the rest
      with one of two reports; printed statements are read back; execution does
      what the statement says; the output of whole interactive sessions.
    - ApiTheorems.v: the body of a response is JSON that reads back as the reply;
      the buffer under failing allocations; stored rows keep their types.
    - HttpTheorems.v: reading a request depends on the bytes only, however they
      are cut; requests and responses survive writing and reading back; every
      refusal has its status.
    - ThreadPoolTheorems.v: mutual exclusion, a first-in first-out queue, every
      accepted descriptor handled once and closed once, no deadlock, bounded
      runs; how a failed [pthread_create] can block [thread_pool_init].
    - ServerTheorems.v: in any run of the process nothing undefined happens, one
      order of the stored records explains every response, each at moments
      between the begin and the return of its handler; what was sent on a closed
      connection is its response or a part of it; every open connection has one
      owner; no two handlers race, and every handler returns, whatever clients
      withhold, thanks to the timeouts of the sockets, unless [SIGPIPE] ends the
      process; when [main] returns no connection is open, nor the listening
      socket, and nothing is allocated; what a client gets who is alone; that a
      client which closes early ends the server; what is taken from the command
      line.

    The theorems also record where the code does not do what it means to: they
    state what it does.

    ** Not modelled

    - Failing library calls in handlers that share a table: the theorems about
      threads assume that none fails (for one thread, every failure is modelled),
      and [table_print_all] there, which only the interactive program could use.
    - What [sql_parse_string] has copied when it fails: the model leaves the
      field empty, and nobody reads it then.
    - Other signals than [SIGINT], [SIGTERM] and [SIGPIPE].
    - Messages on stderr and on the server's terminal, and the log of the thread
      pool under [DEBUG_QUEUE].
    - The tests of null arguments that no caller in the program can fail
      ([pool] and the handler in thread_pool.c, [server] and the configuration in
      server.c), and the address that the listening socket is bound to.
    - [pool->workers] after a failed [thread_pool_init]: it dangles, and nobody
      uses it.
    - Tests and benchmarks (unit_test.c, perf_test.c, perf10.c, cond10.c,
      condition_perf_test.c), which are no part of the program. *)
From stdpp Require Import base list gmap strings sorting.
From Stdlib Require Import ZArith Lia.

(** ** Outcomes of a C computation *)

Inductive outcome (A : Type) : Type :=
  | Ok (a : A)          (* the call returned *)
  | UB                  (* undefined behaviour: bad pointer, bad index, overflow *)
  | Blocked             (* the thread waits for what will not come *)
  | Killed              (* a signal ended the process during the call *)
  | NoFuel.             (* the bound given to a loop was not enough *)
Arguments Ok {A} a.
Arguments UB {A}.
Arguments Blocked {A}.
Arguments Killed {A}.
Arguments NoFuel {A}.

(** A computation over states [St] that returns an [A]. *)
Definition prog (St A : Type) : Type := St → outcome (A * St).

#[export] Instance prog_ret {St} : MRet (prog St) := λ A a s, Ok (a, s).
#[export] Instance prog_bind {St} : MBind (prog St) := λ A B k c s,
  match c s with
  | Ok (a, s') => k a s'
  | UB => UB
  | Blocked => Blocked
  | Killed => Killed
  | NoFuel => NoFuel
  end.

Definition ub {St A} : prog St A := λ _, UB.
Definition blocked {St A} : prog St A := λ _, Blocked.
Definition gets {St A} (f : St → A) : prog St A := λ s, Ok (f s, s).
Definition modify {St} (f : St → St) : prog St unit := λ s, Ok (tt, f s).

(** ** Loops *)

(** [while_loop fuel step l] runs [step] on the loop variables until it says
    [inr]; [fuel] bounds the number of tests of the loop condition. *)
Fixpoint while_loop {St L R} (fuel : nat) (step : L → prog St (L + R)) (l : L) : prog St R :=
  match fuel with
  | O => λ _, NoFuel
  | S fuel' =>
      r ← step l;
      match r with
      | inl l' => while_loop fuel' step l'
      | inr x => mret x
      end
  end.

Fixpoint count_up {St L} (n i : nat) (body : nat → L → prog St L) (l : L) : prog St L :=
  match n with
  | O => mret l
  | S n' => l' ← body i l; count_up n' (S i) body l'
  end.

Fixpoint count_down {St L} (n i : nat) (body : nat → L → prog St L) (l : L) : prog St L :=
  match n with
  | O => mret l
  | S n' => l' ← body i l; count_down n' (i - 1) body l'
  end.

(** [for (i = lo; i < hi; i++)] and [for (i = hi; i > lo; i--)]. *)
Definition for_up {St L} (lo hi : nat) (body : nat → L → prog St L) (l : L) : prog St L :=
  count_up (hi - lo) lo body l.
Definition for_down {St L} (hi lo : nat) (body : nat → L → prog St L) (l : L) : prog St L :=
  count_down (hi - lo) hi body l.

(** [for (i = lo; i < hi; i++)] whose body may leave the loop with a result. *)
Fixpoint count_until {St L R} (n i : nat) (body : nat → L → prog St (L + R)) (l : L) :
    prog St (L + R) :=
  match n with
  | O => mret (inl l)
  | S n' =>
      r ← body i l;
      match r with
      | inl l' => count_until n' (S i) body l'
      | inr x => mret (inr x)
      end
  end.
Definition for_until {St L R} (lo hi : nat) (body : nat → L → prog St (L + R)) (l : L) :
    prog St (L + R) := count_until (hi - lo) lo body l.

(** ** Arrays *)

(** An initialised array is a list; an array some of whose slots were never
    written is a list of options.  Access out of range, and reading a slot that
    was never written, is undefined behaviour. *)
Definition aget {St A} (a : list A) (i : nat) : prog St A :=
  match a !! i with Some x => mret x | None => ub end.
Definition aset {St A} (a : list A) (i : nat) (x : A) : prog St (list A) :=
  if decide (i < length a) then mret (<[i := x]> a) else ub.
Definition tget {St A} (a : list (option A)) (i : nat) : prog St A :=
  match a !! i with Some (Some x) => mret x | _ => ub end.
Definition tset {St A} (a : list (option A)) (i : nat) (x : A) : prog St (list (option A)) :=
  aset a i (Some x).

(** ** Total-correctness weakest preconditions *)

(** [wpx K B c Q s]: from [s], [c] returns (no undefined behaviour, no exhausted
    bound) with a value and a state in [Q], unless a signal ends the process,
    and then [K], or it waits for ever, and then [B].  [wp c Q s]: it returns. *)
Definition wpx (K B : Prop) {St A} (c : prog St A) (Q : A → St → Prop) (s : St) : Prop :=
  match c s with Ok (a, s') => Q a s' | Killed => K | Blocked => B | _ => False end.
Abbreviation wp := (wpx False False).

Section wp_rules.
Context {K B : Prop} {St : Type}.
Implicit Types s : St.

Lemma wp_ok {A} (c : prog St A) (Q : A → St → Prop) s :
  wp c Q s ↔ ∃ a s', c s = Ok (a, s') ∧ Q a s'.
Proof.
  unfold wpx. destruct (c s) as [[a s']| | | |]; split; try done.
  - eauto.
  - by intros (?&?&[= <- <-]&?).
  - by intros (?&?&?&?).
  - by intros (?&?&?&?).
  - by intros (?&?&?&?).
  - by intros (?&?&?&?).
Qed.

Lemma wp_run {A} (c : prog St A) (Q : A → St → Prop) s a s' :
  c s = Ok (a, s') → Q a s' → wpx K B c Q s.
Proof. unfold wpx. by intros ->. Qed.

Lemma wp_inv {A} (c : prog St A) (Q : A → St → Prop) s a s' :
  c s = Ok (a, s') → wpx K B c Q s → Q a s'.
Proof. unfold wpx. by intros ->. Qed.

Lemma wp_mono {A} (c : prog St A) (P Q : A → St → Prop) s :
  (∀ a s', P a s' → Q a s') → wpx K B c P s → wpx K B c Q s.
Proof. unfold wpx. destruct (c s) as [[]| | | |]; auto. Qed.

Lemma wp_ret {A} (a : A) (Q : A → St → Prop) s : Q a s → wpx K B (mret a) Q s.
Proof. done. Qed.

Lemma wp_bind {A R} (c : prog St A) (k : A → prog St R) (Q : R → St → Prop) s :
  wpx K B c (λ a, wpx K B (k a) Q) s → wpx K B (c ≫= k) Q s.
Proof. unfold wpx, mbind, prog_bind. destruct (c s) as [[]| | | |]; auto. Qed.

Lemma wp_gets {A} (f : St → A) (Q : A → St → Prop) s : Q (f s) s → wpx K B (gets f) Q s.
Proof. done. Qed.

Lemma wp_modify (f : St → St) (Q : unit → St → Prop) s : Q tt (f s) → wpx K B (modify f) Q s.
Proof. done. Qed.

Lemma wp_aget {A} (a : list A) i x (Q : A → St → Prop) s :
  a !! i = Some x → Q x s → wpx K B (aget a i) Q s.
Proof. unfold aget. by intros ->. Qed.

Lemma wp_aset {A} (a : list A) i x (Q : list A → St → Prop) s :
  i < length a → Q (<[i := x]> a) s → wpx K B (aset a i x) Q s.
Proof. intros ??. unfold aset. by rewrite decide_True. Qed.

Lemma wp_tget {A} (a : list (option A)) i x (Q : A → St → Prop) s :
  a !! i = Some (Some x) → Q x s → wpx K B (tget a i) Q s.
Proof. unfold tget. by intros ->. Qed.

(** Loop rules: an invariant indexed by the loop counter, and for [while_loop]
    a measure that the body decreases and the fuel exceeds. *)
Lemma wp_for_up {L} lo hi (body : nat → L → prog St L) (Inv : nat → L → St → Prop) l s :
  lo ≤ hi → Inv lo l s →
  (∀ i l s, lo ≤ i < hi → Inv i l s → wpx K B (body i l) (Inv (S i)) s) →
  wpx K B (for_up lo hi body l) (Inv hi) s.
Proof.
  intros Hle Hinit Hstep. unfold for_up.
  cut (∀ n i l s, i + n = hi → lo ≤ i → Inv i l s → wpx K B (count_up n i body l) (Inv hi) s).
  { intros H. apply H; auto. lia. }
  intros n. induction n as [|n IH]; intros i l' s' Heq Hlo HI; simpl.
  - replace i with hi in HI by lia. done.
  - apply wp_bind. eapply wp_mono; [|apply Hstep; [lia|done]].
    intros l2 s2 H2. apply IH; [lia|lia|done].
Qed.

Lemma wp_for_until {L R} lo hi (body : nat → L → prog St (L + R))
    (Inv : nat → L → St → Prop) (Q : R → St → Prop) l s :
  lo ≤ hi → Inv lo l s →
  (∀ i l s, lo ≤ i < hi → Inv i l s →
     wpx K B (body i l) (λ r s', match r with inl l' => Inv (S i) l' s' | inr x => Q x s' end) s) →
  wpx K B (for_until lo hi body l)
    (λ r s', match r with inl l' => Inv hi l' s' | inr x => Q x s' end) s.
Proof.
  intros Hle Hinit Hstep. unfold for_until.
  cut (∀ n i l s, i + n = hi → lo ≤ i → Inv i l s → wpx K B (count_until n i body l)
    (λ r s', match r with inl l' => Inv hi l' s' | inr x => Q x s' end) s).
  { intros H. apply H; auto. lia. }
  intros n. induction n as [|n IH]; intros i l' s' Heq Hlo HI; simpl.
  - replace i with hi in HI by lia. done.
  - apply wp_bind. eapply wp_mono; [|apply Hstep; [lia|done]].
    intros [l2|x] s2 H2; [apply IH; [lia|lia|done]|done].
Qed.

Lemma wp_while {L R} fuel (step : L → prog St (L + R)) (Inv : L → St → Prop)
    (measure : L → St → nat) (Q : R → St → Prop) l s :
  Inv l s → measure l s < fuel →
  (∀ l s, Inv l s →
     wpx K B (step l) (λ r s', match r with
                          | inl l' => Inv l' s' ∧ measure l' s' < measure l s
                          | inr x => Q x s'
                          end) s) →
  wpx K B (while_loop fuel step l) Q s.
Proof.
  intros HI Hm Hstep. revert l s HI Hm.
  induction fuel as [|fuel IH]; intros l s HI Hm; [lia|].
  simpl. apply wp_bind. eapply wp_mono; [|by apply Hstep].
  intros [l'|x] s'; [|done]. intros [HI' Hm']. apply IH; [done|lia].
Qed.
End wp_rules.

Section wp_outcomes.
Context {St A : Type}.
Implicit Types (c : prog St A) (Q : A → St → Prop).

Lemma wp_weaken (K B K' B' : Prop) c Q s : (K → K') → (B → B') → wpx K B c Q s → wpx K' B' c Q s.
Proof. unfold wpx. destruct (c s) as [[]| | | |]; auto. Qed.

Lemma wp_allow (K B : Prop) c Q s : wp c Q s → wpx K B c Q s.
Proof. by apply wp_weaken. Qed.

Lemma wp_total (K B : Prop) c Q s : wpx K B c Q s → ¬ K → ¬ B → wp c Q s.
Proof. intros H HK HB. by eapply wp_weaken; [..|exact H]. Qed.
End wp_outcomes.

(** [wp_call (tac)] takes the next call of a sequence, whose postcondition [tac]
    proves. *)
Tactic Notation "wp_call" tactic3(tac) := apply wp_bind; eapply wp_mono; [|tac].

(** Runs one step of a [prog] whose result is known. *)
Lemma bind_ok {St A B} (c : prog St A) (k : A → prog St B) s a s' :
  c s = Ok (a, s') → (c ≫= k) s = k a s'.
Proof. unfold mbind, prog_bind. by intros ->. Qed.

(** ** Lists *)

Lemma elem_of_concat_map {A B} (f : A → list B) (l : list A) (y : B) :
  y ∈ concat (map f l) ↔ ∃ x, x ∈ l ∧ y ∈ f x.
Proof.
  induction l as [|x l IH]; simpl; [set_solver|].
  rewrite elem_of_app, IH. set_solver.
Qed.

(** Two blocks of a list without duplicates share no element. *)
Lemma NoDup_concat_disjoint {A} (bs : list (list A)) : NoDup (concat bs) →
  ∀ i j a b x, bs !! i = Some a → bs !! j = Some b → i ≠ j → x ∈ a → x ∉ b.
Proof.
  induction bs as [|c bs IH]; intros Hnd i j a b x Hi Hj Hij Ha Hb; [done|].
  simpl in Hnd. apply NoDup_app in Hnd as (_ & Hdis & Hnd).
  assert (∀ k d, bs !! k = Some d → x ∈ d → x ∈ concat bs) as Hin.
  { intros k d Hk Hd. rewrite <- (map_id bs). apply elem_of_concat_map.
    exists d. split; [by eapply list_elem_of_lookup_2|done]. }
  destruct i as [|i], j as [|j]; simpl in *; simplify_eq.
  - by eapply Hdis, Hin.
  - by eapply Hdis, Hin.
  - by eapply (IH Hnd i j); [..|lia| |].
Qed.
