(* ===== verification/Memory.v ===== *)
(** The C memory of the program: the structures of [bptree.h] and [table.h],
    the heap they live in, pointers, allocation, locks, and the proof rules of
    these operations. *)
From stdpp Require Import base list gmap strings.
From Stdlib Require Import Ascii ZArith Lia.
From S2P Require Import Prelude.

(** ** Pointers and structures *)

(** An address; [None] is the null pointer. *)
Abbreviation loc := positive.
Abbreviation ptr := (option loc).

(** The bytes of a C string before its terminating NUL. *)
Abbreviation cstr := (list ascii).

Definition BPTREE_ORDER : nat := 4.
Definition BPTREE_MAX_KEYS : nat := BPTREE_ORDER - 1.
Definition RECORD_NAME_SIZE : nat := 64.
Definition TABLE_BUCKET_COUNT : nat := 16.

Record BPTreeNode := MkNode {
  is_leaf : bool;
  num_keys : nat;
  keys : list Z;
  values : list ptr;
  children : list ptr;
  parent : ptr;
  next : ptr
}.

Record BPTree := MkBPTree { root : ptr }.

(** [struct Record]; the word itself is reserved. *)
Record record := MkRecord { rec_id : Z; rec_name : cstr; rec_age : Z }.

(** A [pthread_rwlock_t] that was initialised: how many threads read under it,
    and whether one writes. *)
Record rwlock := MkRWLock { readers : nat; writer : bool }.

(** A heap array of [Record *]; [None] is a slot that was never written. *)
Abbreviation rec_array := (list (option ptr)).

(** A heap array of [char]. *)
Abbreviation byte_block := (list (option ascii)).

(** A lock is [None] before it is initialised and after it is destroyed; a
    mutex is [Some] of whether it is held. *)
Record TableBucket := MkBucket {
  bkt_lock : option rwlock;
  rows : ptr;
  bkt_size : nat;
  capacity : nat;
  pk_index : ptr
}.

Record Table := MkTable {
  next_id : Z;
  next_id_lock : option bool;
  next_id_lock_initialized : bool;
  initialized_buckets : nat;
  buckets : list TableBucket
}.

#[export] Instance BPTreeNode_eq_dec : EqDecision BPTreeNode.
Proof. solve_decision. Defined.
#[export] Instance BPTree_eq_dec : EqDecision BPTree.
Proof. solve_decision. Defined.
#[export] Instance record_eq_dec : EqDecision record.
Proof. solve_decision. Defined.
#[export] Instance rwlock_eq_dec : EqDecision rwlock.
Proof. solve_decision. Defined.
#[export] Instance TableBucket_eq_dec : EqDecision TableBucket.
Proof. solve_decision. Defined.
#[export] Instance Table_eq_dec : EqDecision Table.
Proof. solve_decision. Defined.

(** ** The memory *)

(** Every kind of structure has its own map from addresses, so pointers to
    different structures never alias; addresses of all kinds come from one
    counter and are never reused.  [m_bytes] holds the character arrays of the
    server.  [m_out] is the standard output.  [m_env] decides, in order, which of
    the coming fallible library calls (malloc, calloc, realloc,
    pthread_..._init, ..._lock) succeed; when it is exhausted they all do. *)
Record Mem := MkMem {
  m_nodes : gmap loc BPTreeNode;
  m_trees : gmap loc BPTree;
  m_recs : gmap loc record;
  m_tables : gmap loc Table;
  m_arrays : gmap loc rec_array;
  m_next : loc;
  m_env : list bool;
  m_out : cstr;
  m_bytes : gmap loc byte_block
}.

Definition mem_init (env : list bool) : Mem := MkMem ∅ ∅ ∅ ∅ ∅ 1%positive env [] ∅.

Definition set_nodes (h : gmap loc BPTreeNode) (m : Mem) : Mem :=
  MkMem h (m_trees m) (m_recs m) (m_tables m) (m_arrays m) (m_next m) (m_env m) (m_out m) (m_bytes m).
Definition set_trees (h : gmap loc BPTree) (m : Mem) : Mem :=
  MkMem (m_nodes m) h (m_recs m) (m_tables m) (m_arrays m) (m_next m) (m_env m) (m_out m) (m_bytes m).
Definition set_recs (h : gmap loc record) (m : Mem) : Mem :=
  MkMem (m_nodes m) (m_trees m) h (m_tables m) (m_arrays m) (m_next m) (m_env m) (m_out m) (m_bytes m).
Definition set_tables (h : gmap loc Table) (m : Mem) : Mem :=
  MkMem (m_nodes m) (m_trees m) (m_recs m) h (m_arrays m) (m_next m) (m_env m) (m_out m) (m_bytes m).
Definition set_arrays (h : gmap loc rec_array) (m : Mem) : Mem :=
  MkMem (m_nodes m) (m_trees m) (m_recs m) (m_tables m) h (m_next m) (m_env m) (m_out m) (m_bytes m).
Definition set_next (l : loc) (m : Mem) : Mem :=
  MkMem (m_nodes m) (m_trees m) (m_recs m) (m_tables m) (m_arrays m) l (m_env m) (m_out m) (m_bytes m).
Definition set_env (e : list bool) (m : Mem) : Mem :=
  MkMem (m_nodes m) (m_trees m) (m_recs m) (m_tables m) (m_arrays m) (m_next m) e (m_out m) (m_bytes m).
Definition set_out (o : cstr) (m : Mem) : Mem :=
  MkMem (m_nodes m) (m_trees m) (m_recs m) (m_tables m) (m_arrays m) (m_next m) (m_env m) o (m_bytes m).
Definition set_bytes (h : gmap loc byte_block) (m : Mem) : Mem :=
  MkMem (m_nodes m) (m_trees m) (m_recs m) (m_tables m) (m_arrays m) (m_next m) (m_env m) (m_out m) h.

(** A kind of structure the heap holds. *)
Class HeapOf (T : Type) := {
  hget : Mem → gmap loc T;
  hset : gmap loc T → Mem → Mem;
  hget_hset : ∀ h m, hget (hset h m) = h;
  hset_hset : ∀ h h' m, hset h (hset h' m) = hset h m;
  hset_hget : ∀ m, hset (hget m) m = m;
  hget_set_next : ∀ l m, hget (set_next l m) = hget m;
  hget_set_env : ∀ e m, hget (set_env e m) = hget m;
  m_next_hset : ∀ h m, m_next (hset h m) = m_next m;
  m_env_hset : ∀ h m, m_env (hset h m) = m_env m;
  m_out_hset : ∀ h m, m_out (hset h m) = m_out m;
}.

#[export] Program Instance heap_nodes : HeapOf BPTreeNode := {| hget := m_nodes; hset := set_nodes |}.
Solve All Obligations with by intros; repeat match goal with x : Mem |- _ => destruct x end.
#[export] Program Instance heap_trees : HeapOf BPTree := {| hget := m_trees; hset := set_trees |}.
Solve All Obligations with by intros; repeat match goal with x : Mem |- _ => destruct x end.
#[export] Program Instance heap_recs : HeapOf record := {| hget := m_recs; hset := set_recs |}.
Solve All Obligations with by intros; repeat match goal with x : Mem |- _ => destruct x end.
#[export] Program Instance heap_tables : HeapOf Table := {| hget := m_tables; hset := set_tables |}.
Solve All Obligations with by intros; repeat match goal with x : Mem |- _ => destruct x end.
#[export] Program Instance heap_arrays : HeapOf rec_array := {| hget := m_arrays; hset := set_arrays |}.
Solve All Obligations with by intros; repeat match goal with x : Mem |- _ => destruct x end.

#[export] Program Instance heap_bytes : HeapOf byte_block := {| hget := m_bytes; hset := set_bytes |}.
Solve All Obligations with by intros; repeat match goal with x : Mem |- _ => destruct x end.

(** ** Operations *)

Section operations.
Context {T : Type} `{!HeapOf T}.

(** [*p] *)
Definition load (p : ptr) : prog Mem T := λ m,
  match p with
  | Some l => match hget m !! l with Some x => Ok (x, m) | None => UB end
  | None => UB
  end.

(** [*p = x] *)
Definition store (p : ptr) (x : T) : prog Mem unit := λ m,
  match p with
  | Some l =>
      match hget m !! l with
      | Some _ => Ok (tt, hset (<[l := x]> (hget m)) m)
      | None => UB
      end
  | None => UB
  end.

(** A read-modify-write of one structure. *)
Definition update (p : ptr) (f : T → T) : prog Mem unit :=
  x ← load p; store p (f x).

(** [free(p)]: freeing null does nothing, freeing twice is undefined. *)
Definition free (p : ptr) : prog Mem unit := λ m,
  match p with
  | Some l =>
      match hget m !! l with
      | Some _ => Ok (tt, hset (delete l (hget m)) m)
      | None => UB
      end
  | None => Ok (tt, m)
  end.
End operations.

(** Whether the next fallible library call succeeds. *)
Definition lib_call : prog Mem bool := λ m,
  match m_env m with
  | [] => Ok (true, m)
  | b :: e => Ok (b, set_env e m)
  end.

(** [calloc]: a fresh structure holding [x], or null. *)
Definition fresh_block {T} `{!HeapOf T} (x : T) : prog Mem ptr := λ m,
  let l := m_next m in
  Ok (Some l, set_next (Pos.succ l) (hset (<[l := x]> (hget m)) m)).
Definition calloc {T} `{!HeapOf T} (x : T) : prog Mem ptr :=
  ok ← lib_call;
  if (ok : bool) then fresh_block x else mret None.

(** ** Proof rules *)

Lemma wp_load {T} `{!HeapOf T} l (x : T) (Q : T → Mem → Prop) m :
  hget m !! l = Some x → Q x m → wp (load (Some l)) Q m.
Proof. unfold wpx, load. by intros ->. Qed.

Lemma wp_store {T} `{!HeapOf T} l (x0 x : T) (Q : unit → Mem → Prop) m :
  hget m !! l = Some x0 → Q tt (hset (<[l := x]> (hget m)) m) → wp (store (Some l) x) Q m.
Proof. unfold wpx, store. by intros ->. Qed.

Lemma wp_update {T} `{!HeapOf T} l (x : T) f (Q : unit → Mem → Prop) m :
  hget m !! l = Some x → Q tt (hset (<[l := f x]> (hget m)) m) → wp (update (Some l) f) Q m.
Proof. intros H HQ. apply wp_bind, (wp_load _ x); [done|]. by apply (wp_store _ x). Qed.

Lemma wp_free {T} `{!HeapOf T} l (x : T) (Q : unit → Mem → Prop) m :
  hget m !! l = Some x → Q tt (hset (delete l (hget m)) m) → wp (free (T:=T) (Some l)) Q m.
Proof. unfold wpx, free. by intros ->. Qed.

Lemma wp_free_null {T} `{!HeapOf T} (Q : unit → Mem → Prop) m :
  Q tt m → wp (free (T:=T) None) Q m.
Proof. done. Qed.

(** The memory after a fallible library call. *)
Definition env_tail (m : Mem) : Mem := set_env (tail (m_env m)) m.

Lemma wp_lib_call (Q : bool → Mem → Prop) m :
  Q (match m_env m with b :: _ => b | [] => true end) (env_tail m) → wp lib_call Q m.
Proof. unfold wpx, lib_call, env_tail. destruct m as [?????? [|b e] ??]; done. Qed.

(** Whether the next library call succeeds. *)
Definition next_call (m : Mem) : bool := match m_env m with b :: _ => b | [] => true end.

(** [no_failure m]: no coming library call fails. *)
Definition no_failure (m : Mem) : Prop := m_env m = [].

Lemma wp_lib_call_ok (Q : bool → Mem → Prop) m :
  no_failure m → Q true m → wp lib_call Q m.
Proof. unfold wpx, lib_call, no_failure. by intros ->. Qed.

Lemma wp_calloc {T} `{!HeapOf T} (x : T) (Q : ptr → Mem → Prop) m :
  no_failure m →
  Q (Some (m_next m)) (set_next (Pos.succ (m_next m)) (hset (<[m_next m := x]> (hget m)) m)) →
  wp (calloc x) Q m.
Proof. intros Hm HQ. apply wp_bind, wp_lib_call_ok; done. Qed.

Lemma wp_calloc_null {T} `{!HeapOf T} (x : T) (Q : ptr → Mem → Prop) m e :
  m_env m = false :: e → Q None (set_env e m) → wp (calloc x) Q m.
Proof. intros Hm HQ. apply wp_bind, wp_lib_call. unfold env_tail. by rewrite Hm. Qed.

(** ** Node heaps as a whole *)

(** Every node lies below the allocation counter. *)
Definition nodes_bounded (m : Mem) : Prop :=
  ∀ l, is_Some (m_nodes m !! l) → (l < m_next m)%positive.

(** Nothing but nodes, trees and the counter has changed. *)
Definition nodes_only (m m' : Mem) : Prop :=
  m_recs m' = m_recs m ∧ m_tables m' = m_tables m ∧ m_arrays m' = m_arrays m ∧
  m_env m' = m_env m ∧ m_out m' = m_out m.

(** A heap without the addresses [ls]. *)
Definition drop_heap {T} (ls : list loc) (h : gmap loc T) : gmap loc T := filter (λ p, p.1 ∉ ls) h.

Section drop_heap.
Context {T : Type}.
Implicit Types h : gmap loc T.

Lemma lookup_drop_heap ls h x : drop_heap ls h !! x = if decide (x ∈ ls) then None else h !! x.
Proof.
  unfold drop_heap. case_decide as Hx.
  - apply map_lookup_filter_None. right. intros y _. simpl. tauto.
  - destruct (h !! x) as [y|] eqn:Hy.
    + by apply map_lookup_filter_Some.
    + apply map_lookup_filter_None. by left.
Qed.

Lemma drop_heap_nil h : drop_heap [] h = h.
Proof. apply map_filter_id. intros. simpl. apply not_elem_of_nil. Qed.

Lemma drop_heap_app ls ls' h : drop_heap ls' (drop_heap ls h) = drop_heap (ls ++ ls') h.
Proof.
  unfold drop_heap. rewrite map_filter_filter. apply map_filter_ext. intros x y _. simpl. set_solver.
Qed.

Lemma delete_drop_heap l ls h : delete l (drop_heap ls h) = drop_heap (l :: ls) h.
Proof.
  apply map_eq. intros x. rewrite lookup_delete, !lookup_drop_heap.
  repeat case_decide; set_solver.
Qed.

Lemma drop_heap_perm ls ls' h : ls ≡ₚ ls' → drop_heap ls h = drop_heap ls' h.
Proof. intros H. apply map_filter_ext. intros x y _. simpl. by rewrite H. Qed.
End drop_heap.

(** The memory without the nodes [ls]. *)
Definition drop_nodes (ls : list loc) (m : Mem) : Mem := set_nodes (drop_heap ls (m_nodes m)) m.

Lemma drop_lookup ls m x :
  m_nodes (drop_nodes ls m) !! x = if decide (x ∈ ls) then None else m_nodes m !! x.
Proof. apply lookup_drop_heap. Qed.

Lemma drop_nodes_nil m : drop_nodes [] m = m.
Proof. unfold drop_nodes. rewrite drop_heap_nil. by destruct m. Qed.

Lemma drop_nodes_app ls ls' m : drop_nodes ls' (drop_nodes ls m) = drop_nodes (ls ++ ls') m.
Proof. unfold drop_nodes, set_nodes. simpl. by rewrite drop_heap_app. Qed.

Lemma delete_drop l ls m :
  set_nodes (delete l (m_nodes (drop_nodes ls m))) (drop_nodes ls m) = drop_nodes (l :: ls) m.
Proof. unfold drop_nodes, set_nodes. simpl. by rewrite delete_drop_heap. Qed.
