(* ===== verification/CLib.v ===== *)
(** The parts of the C standard library the program uses: integer limits and
    conversions, decimal output, character classes. *)
From stdpp Require Import base list strings.
From Stdlib Require Import Ascii ZArith Lia.
From S2P Require Import Prelude Memory.

(** ** Integers *)

Definition INT_MIN : Z := -2147483648.
Definition INT_MAX : Z := 2147483647.
Definition is_int (z : Z) : Prop := (INT_MIN ≤ z ≤ INT_MAX)%Z.
#[export] Instance is_int_dec z : Decision (is_int z) := _.

(** The conversion of a wider integer to [int]: the low 32 bits, in two's
    complement. *)
Definition to_int (z : Z) : Z := ((z + 2147483648) mod 4294967296 - 2147483648)%Z.

(** C's [%] truncates towards zero. *)
Definition c_rem (a b : Z) : Z := Z.rem a b.

(** ** Strings *)

(** A string literal. *)
Definition lit (s : String.string) : cstr := String.list_ascii_of_string s.

Definition code (c : ascii) : Z := Z.of_N (N_of_ascii c).
Definition newline : ascii := ascii_of_N 10.
Definition carriage_return : ascii := ascii_of_N 13.

(** The digits [printf] writes for [%d], [%zu] and [%ld]. *)
Definition digit (d : Z) : ascii := ascii_of_N (Z.to_N (48 + d)).

Fixpoint dec_digits (fuel : nat) (n : Z) (acc : cstr) : cstr :=
  match fuel with
  | O => acc
  | S fuel' =>
      let acc' := digit (n mod 10) :: acc in
      if decide (n / 10 = 0)%Z then acc' else dec_digits fuel' (n / 10)%Z acc'
  end.

Definition print_dec (z : Z) : cstr :=
  if decide (z < 0)%Z then "-"%char :: dec_digits 20 (- z) [] else dec_digits 20 z [].

(** ** Characters (the "C" locale) *)

Definition NUL : ascii := Ascii.zero.

Definition isspace (c : ascii) : bool :=
  bool_decide (code c = 32 ∨ 9 ≤ code c ≤ 13)%Z.
Definition isdigit (c : ascii) : bool := bool_decide (48 ≤ code c ≤ 57)%Z.
Definition isalpha (c : ascii) : bool :=
  bool_decide (65 ≤ code c ≤ 90 ∨ 97 ≤ code c ≤ 122)%Z.
Definition isalnum (c : ascii) : bool := isalpha c || isdigit c.
Definition tolower (c : ascii) : ascii :=
  if decide (65 ≤ code c ≤ 90)%Z then ascii_of_N (N_of_ascii c + 32) else c.

(** [*p] for a pointer into a C string: the terminating NUL at its end. *)
Definition cur (s : cstr) : ascii := match s with [] => NUL | c :: _ => c end.

(** ** Comparison and formatting *)

(** [strcasecmp(a, b) == 0] *)
Definition strcaseeq (a b : cstr) : bool := bool_decide (tolower <$> a = tolower <$> b).

(** [snprintf(buffer, n, "%s", s)] *)
Definition snprintf (n : nat) (s : cstr) : cstr := take (n - 1) s.

(** ** Numbers *)

Definition LONG_MIN : Z := -9223372036854775808.
Definition LONG_MAX : Z := 9223372036854775807.
Definition ULONG_MAX : Z := 18446744073709551615.

Definition digit_value (c : ascii) : Z := (code c - 48)%Z.

(** The digits at the head of a string, their value, and the rest; [seen] says
    whether a digit was met. *)
Fixpoint scan_digits (s : cstr) (acc : Z) (seen : bool) : Z * bool * cstr :=
  match s with
  | c :: s' =>
      if isdigit c then scan_digits s' (10 * acc + digit_value c)%Z true else (acc, seen, s)
  | [] => (acc, seen, [])
  end.

Fixpoint skip_space (s : cstr) : cstr :=
  match s with c :: s' => if isspace c then skip_space s' else s | [] => [] end.

(** An optional sign: whether it is a minus, and the rest. *)
Definition scan_sign (s : cstr) : bool * cstr :=
  match s with
  | c :: s' =>
      if decide (c = "-"%char) then (true, s')
      else if decide (c = "+"%char) then (false, s') else (false, s)
  | [] => (false, [])
  end.

Definition clamp (lo hi z : Z) : Z := Z.max lo (Z.min hi z).

(** [strtol(s, &end, 10)]: the value, clamped to [long], and [end]; without
    digits the end is the start. *)
Definition strtol (s : cstr) : Z * cstr :=
  let '(neg, s1) := scan_sign (skip_space s) in
  let '(v, seen, rest) := scan_digits s1 0 false in
  if seen then (clamp LONG_MIN LONG_MAX (if neg then - v else v)%Z, rest) else (0%Z, s).

(** [strtoul(s, &end, 10)]: a value over the range gives [ULONG_MAX], a minus
    negates in [unsigned long]. *)
Definition strtoul (s : cstr) : Z * cstr :=
  let '(neg, s1) := scan_sign (skip_space s) in
  let '(v, seen, rest) := scan_digits s1 0 false in
  if seen then
    (if decide (ULONG_MAX < v)%Z then ULONG_MAX
     else if neg then ((- v) mod (ULONG_MAX + 1))%Z else v, rest)
  else (0%Z, s).
