(* ===== verification/CLibProofs.v ===== *)
(** Numbers as text: what the digit scanners read, what [%d] writes, and that
    the one undoes the other. *)
From stdpp Require Import base list strings.
From Stdlib Require Import Ascii ZArith Lia.
From S2P Require Import Prelude Memory CLib.

(** ** Reading *)

Definition is_digits (ds : cstr) : Prop := Forall (λ c, isdigit c = true) ds.
Definition num_value (ds : cstr) : Z := fold_left (λ a c, 10 * a + digit_value c)%Z ds 0%Z.

Lemma scan_digits_app ds c acc seen :
  is_digits ds → isdigit (cur c) = false →
  scan_digits (ds ++ c) acc seen =
    (fold_left (λ a c, 10 * a + digit_value c)%Z ds acc, seen || bool_decide (ds ≠ []), c).
Proof.
  intros Hds Hc. revert acc seen. induction Hds as [|x ds Hx Hds IH]; intros acc seen; simpl.
  - rewrite orb_false_r. destruct c as [|y c]; [done|]. simpl in *. by rewrite Hc.
  - rewrite Hx, IH. by rewrite orb_true_r.
Qed.

Lemma scan_digits_split s : ∃ ds c, s = ds ++ c ∧ is_digits ds ∧ isdigit (cur c) = false.
Proof.
  induction s as [|x s IH].
  - exists [], []. by split_and!; [|constructor|].
  - destruct (isdigit x) eqn:Hx.
    + destruct IH as (ds & c & -> & Hds & Hc). exists (x :: ds), c. by split_and!; [|constructor|].
    + exists [], (x :: s). by split_and!; [|constructor|].
Qed.

(** [d] is a decimal integer with value [z], possibly with a minus. *)
Definition is_numeral (d : cstr) (z : Z) : Prop :=
  ∃ ds, ds ≠ [] ∧ is_digits ds ∧
    (d = ds ∧ z = num_value ds ∨ d = "-"%char :: ds ∧ z = (- num_value ds)%Z).

Lemma digit_not_space c : isdigit c = true → isspace c = false.
Proof.
  unfold isdigit, isspace. rewrite bool_decide_eq_true, bool_decide_eq_false. lia.
Qed.

Lemma digit_not_sign c : isdigit c = true → c ≠ "-"%char ∧ c ≠ "+"%char.
Proof. intros H. split; intros ->; by vm_compute in H. Qed.

Lemma strtol_numeral d z c :
  is_numeral d z → isdigit (cur c) = false → strtol (d ++ c) = (clamp LONG_MIN LONG_MAX z, c).
Proof.
  intros (ds & Hne & Hds & Hd) Hc. unfold strtol.
  destruct ds as [|x ds]; [done|]. pose proof Hds as Hds'. apply Forall_cons in Hds' as [Hx Hxs].
  destruct (digit_not_sign x Hx) as [Hm Hp]. pose proof (digit_not_space x Hx) as Hsp.
  destruct Hd as [[-> ->]|[-> ->]]; simpl.
  - rewrite Hsp. simpl. rewrite decide_False, decide_False by done.
    change (x :: ds ++ c) with ((x :: ds) ++ c). by rewrite scan_digits_app.
  - change (isspace "-"%char) with false. simpl.
    by rewrite Hx, scan_digits_app by done.
Qed.

(** ** Writing *)

Lemma code_digit d : (0 ≤ d < 10)%Z → code (digit d) = (48 + d)%Z.
Proof.
  intros Hd. unfold code, digit. rewrite N_ascii_embedding by lia. rewrite Z2N.id; lia.
Qed.

Lemma isdigit_digit d : (0 ≤ d < 10)%Z → isdigit (digit d) = true.
Proof. intros Hd. unfold isdigit. rewrite code_digit by done. apply bool_decide_eq_true. lia. Qed.

Lemma num_value_snoc ds x : num_value (ds ++ [x]) = (10 * num_value ds + digit_value x)%Z.
Proof. unfold num_value. by rewrite fold_left_app. Qed.

Lemma dec_digits_spec f : ∀ n acc, (0 ≤ n < 10 ^ Z.of_nat f)%Z → f ≠ 0 →
  ∃ ds, dec_digits f n acc = ds ++ acc ∧ ds ≠ [] ∧ is_digits ds ∧ num_value ds = n ∧ length ds ≤ f.
Proof.
  induction f as [|f IH]; intros n acc Hn Hf; [done|]. cbn [dec_digits].
  pose proof (Z.mod_pos_bound n 10 ltac:(lia)) as Hmod. pose proof (Z.div_mod n 10 ltac:(lia)) as Hdiv.
  assert (num_value [digit (n mod 10)] = n mod 10)%Z as Hlast.
  { unfold num_value, digit_value. simpl. rewrite code_digit by done. lia. }
  case_decide as Hq.
  - exists [digit (n mod 10)]. split_and!; [done|done|by repeat constructor; apply isdigit_digit|lia|simpl; lia].
  - destruct f as [|f].
    { exfalso. apply Hq. apply Z.div_small. simpl in Hn. lia. }
    destruct (IH (n / 10)%Z (digit (n mod 10) :: acc)) as (ds & -> & Hne & Hds & Hv & Hl); [|done|].
    + replace (Z.of_nat (S (S f))) with (Z.of_nat (S f) + 1)%Z in Hn by lia.
      rewrite Z.pow_add_r in Hn by lia. split; [apply Z.div_pos; lia|]. apply Z.div_lt_upper_bound; lia.
    + exists (ds ++ [digit (n mod 10)]). rewrite <- (assoc_L (++)). split_and!.
      * done.
      * by destruct ds.
      * apply Forall_app. split; [done|]. by repeat constructor; apply isdigit_digit.
      * rewrite num_value_snoc, Hv. unfold digit_value. rewrite code_digit by done. lia.
      * rewrite length_app. simpl. lia.
Qed.

Lemma print_dec_numeral z : (- 10 ^ 20 < z < 10 ^ 20)%Z → is_numeral (print_dec z) z.
Proof.
  intros Hz. unfold print_dec. case_decide as Hneg.
  - destruct (dec_digits_spec 20 (- z) []) as (ds & -> & Hne & Hds & Hv & _); [simpl Z.of_nat; lia|done|].
    rewrite app_nil_r. exists ds. split_and!; [done|done|right]. split; [done|lia].
  - destruct (dec_digits_spec 20 z []) as (ds & -> & Hne & Hds & Hv & _); [simpl Z.of_nat; lia|done|].
    rewrite app_nil_r. exists ds. split_and!; [done|done|left]. done.
Qed.

Lemma to_int_id z : is_int z → to_int z = z.
Proof. unfold is_int, to_int, INT_MIN, INT_MAX. intros H. rewrite Z.mod_small by lia. lia. Qed.

Lemma to_int_is_int z : is_int (to_int z).
Proof.
  unfold is_int, to_int, INT_MIN, INT_MAX.
  pose proof (Z.mod_pos_bound (z + 2147483648) 4294967296 ltac:(lia)). lia.
Qed.

Lemma clamp_long z : is_int z → clamp LONG_MIN LONG_MAX z = z.
Proof. unfold is_int, INT_MIN, INT_MAX, clamp, LONG_MIN, LONG_MAX. lia. Qed.
