(* ===== verification/BPTree.v ===== *)
(** The B+ tree of [sql_processor/bptree.c], as programs over the C memory:
    nodes with parent pointers, fixed arrays and a leaf chain, one definition
    per function.  Every array access, pointer dereference and loop is the
    code's; the bound given to a loop over the tree is the number of nodes. *)
From stdpp Require Import base list gmap.
From Stdlib Require Import ZArith Lia.
From S2P Require Import Prelude Memory.

(** ** Field assignments *)

Definition with_is_leaf (b : bool) (n : BPTreeNode) : BPTreeNode :=
  MkNode b (num_keys n) (keys n) (values n) (children n) (parent n) (next n).
Definition with_num_keys (k : nat) (n : BPTreeNode) : BPTreeNode :=
  MkNode (is_leaf n) k (keys n) (values n) (children n) (parent n) (next n).
Definition with_keys (ks : list Z) (n : BPTreeNode) : BPTreeNode :=
  MkNode (is_leaf n) (num_keys n) ks (values n) (children n) (parent n) (next n).
Definition with_values (vs : list ptr) (n : BPTreeNode) : BPTreeNode :=
  MkNode (is_leaf n) (num_keys n) (keys n) vs (children n) (parent n) (next n).
Definition with_children (cs : list ptr) (n : BPTreeNode) : BPTreeNode :=
  MkNode (is_leaf n) (num_keys n) (keys n) (values n) cs (parent n) (next n).
Definition with_parent (p : ptr) (n : BPTreeNode) : BPTreeNode :=
  MkNode (is_leaf n) (num_keys n) (keys n) (values n) (children n) p (next n).
Definition with_next (p : ptr) (n : BPTreeNode) : BPTreeNode :=
  MkNode (is_leaf n) (num_keys n) (keys n) (values n) (children n) (parent n) p.

Definition load_node (p : ptr) : prog Mem BPTreeNode := load p.
Definition load_tree (p : ptr) : prog Mem BPTree := load p.

Definition set_key (p : ptr) (i : nat) (k : Z) : prog Mem unit :=
  n ← load_node p; ks ← aset (keys n) i k; store p (with_keys ks n).
Definition set_value (p : ptr) (i : nat) (v : ptr) : prog Mem unit :=
  n ← load_node p; vs ← aset (values n) i v; store p (with_values vs n).
Definition set_child (p : ptr) (i : nat) (c : ptr) : prog Mem unit :=
  n ← load_node p; cs ← aset (children n) i c; store p (with_children cs n).
Definition get_key (p : ptr) (i : nat) : prog Mem Z :=
  n ← load_node p; aget (keys n) i.
Definition get_value (p : ptr) (i : nat) : prog Mem ptr :=
  n ← load_node p; aget (values n) i.
Definition get_child (p : ptr) (i : nat) : prog Mem ptr :=
  n ← load_node p; aget (children n) i.
Definition get_num_keys (p : ptr) : prog Mem nat :=
  n ← load_node p; mret (num_keys n).

(** [p->num_keys++] *)
Definition incr_num_keys (p : ptr) : prog Mem unit :=
  update p (λ n, with_num_keys (S (num_keys n)) n).

(** [if (c != NULL) c->parent = p] *)
Definition adopt (c p : ptr) : prog Mem unit :=
  match c with None => mret tt | Some _ => update c (with_parent p) end.

(** ** Nodes *)

(** What [calloc] zeroes. *)
Definition zero_node : BPTreeNode :=
  MkNode false 0 (replicate BPTREE_MAX_KEYS 0%Z) (replicate BPTREE_MAX_KEYS None)
    (replicate BPTREE_ORDER None) None None.

Definition bptree_create_node (leaf : bool) : prog Mem ptr :=
  node ← calloc zero_node;
  match node with
  | None => mret None
  | Some _ => update node (with_is_leaf leaf);; mret node
  end.

Definition bptree_find_insert_index (ks : list Z) (n : nat) (key : Z) : prog Mem nat :=
  while_loop (S n) (λ index,
    if decide (index < n) then
      k ← aget ks index;
      if decide (k < key)%Z then mret (inl (S index)) else mret (inr index)
    else mret (inr index)) 0.

(** The inner loop of [bptree_find_leaf]: which child to descend into. *)
Definition child_index (n : BPTreeNode) (key : Z) : prog Mem nat :=
  while_loop (S (num_keys n)) (λ index,
    if decide (index < num_keys n) then
      k ← aget (keys n) index;
      if decide (k ≤ key)%Z then mret (inl (S index)) else mret (inr index)
    else mret (inr index)) 0.

(** A bound on the nodes a walk along children or parents can meet. *)
Definition walk_bound (m : Mem) : nat := S (size (m_nodes m)).

(** One turn of its outer loop. *)
Definition find_leaf_step (key : Z) (current : ptr) : prog Mem (ptr + ptr) :=
  n ← load_node current;
  if is_leaf n then mret (inr current)
  else
    index ← child_index n key;
    c ← aget (children n) index;
    mret (inl c).

Definition bptree_find_leaf (tree : ptr) (key : Z) : prog Mem ptr :=
  match tree with
  | None => mret None
  | Some _ =>
      t ← load_tree tree;
      match root t with
      | None => mret None
      | Some _ =>
          fuel ← gets walk_bound;
          while_loop fuel (find_leaf_step key) (root t)
      end
  end.

Fixpoint bptree_destroy_node (fuel : nat) (node : ptr) : prog Mem unit :=
  match fuel with
  | O => λ _, NoFuel
  | S fuel' =>
      match node with
      | None => mret tt
      | Some _ =>
          n ← load_node node;
          (if is_leaf n then mret tt
           else for_up 0 (S (num_keys n)) (λ index _,
                  c ← get_child node index;
                  bptree_destroy_node fuel' c) tt);;
          free (T:=BPTreeNode) node
      end
  end.

(** ** Insertion *)

Definition bptree_insert_into_leaf (leaf : ptr) (key : Z) (value : ptr) : prog Mem unit :=
  n ← load_node leaf;
  position ← bptree_find_insert_index (keys n) (num_keys n) key;
  for_down (num_keys n) position (λ index _,
    k ← get_key leaf (index - 1);
    set_key leaf index k;;
    v ← get_value leaf (index - 1);
    set_value leaf index v) tt;;
  set_key leaf position key;;
  set_value leaf position value;;
  incr_num_keys leaf.

Definition bptree_create_new_root (tree left : ptr) (key : Z) (right : ptr) : prog Mem bool :=
  r ← bptree_create_node false;
  match r with
  | None => mret false
  | Some _ =>
      set_key r 0 key;;
      set_child r 0 left;;
      set_child r 1 right;;
      update r (with_num_keys 1);;
      update left (with_parent r);;
      update right (with_parent r);;
      store tree (MkBPTree r);;
      mret true
  end.

Definition bptree_insert_into_internal (p : ptr) (insert_index : nat) (key : Z) (right_child : ptr) :
    prog Mem unit :=
  n ← get_num_keys p;
  for_down n insert_index (λ index _,
    k ← get_key p (index - 1);
    set_key p index k) tt;;
  for_down (n + 1) (insert_index + 1) (λ index _,
    c ← get_child p (index - 1);
    set_child p index c) tt;;
  set_key p insert_index key;;
  set_child p (insert_index + 1) right_child;;
  update right_child (with_parent p);;
  incr_num_keys p.

(** The split of a full internal node; [insert_into_parent] is the mutually
    recursive [bptree_insert_into_parent], called one level up. *)
Definition bptree_split_internal_and_insert
    (insert_into_parent : ptr → ptr → Z → ptr → prog Mem bool)
    (tree p : ptr) (insert_index : nat) (key : Z) (right_child : ptr) : prog Mem bool :=
  let promote_index := BPTREE_ORDER / 2 in
  right_parent ← bptree_create_node false;
  match right_parent with
  | None => mret false
  | Some _ =>
      n ← get_num_keys p;
      temp_keys ← for_up 0 n (λ index t, k ← get_key p index; tset t index k)
        (replicate BPTREE_ORDER None);
      temp_children ← for_up 0 (S n) (λ index t, c ← get_child p index; tset t index c)
        (replicate (BPTREE_ORDER + 1) None);
      temp_keys ← for_down n insert_index (λ index t,
        k ← tget t (index - 1); tset t index k) temp_keys;
      temp_keys ← tset temp_keys insert_index key;
      temp_children ← for_down (n + 1) (insert_index + 1) (λ index t,
        c ← tget t (index - 1); tset t index c) temp_children;
      temp_children ← tset temp_children (insert_index + 1) right_child;
      (* the left half stays in the original node *)
      update p (with_num_keys 0);;
      for_up 0 promote_index (λ index _,
        k ← tget temp_keys index;
        set_key p index k;;
        c ← tget temp_children index;
        set_child p index c;;
        c ← get_child p index;
        adopt c p;;
        incr_num_keys p) tt;;
      c ← tget temp_children promote_index;
      set_child p promote_index c;;
      c ← get_child p promote_index;
      adopt c p;;
      promote_key ← tget temp_keys promote_index;
      (* the right half goes to the new sibling *)
      n ← load_node p;
      update right_parent (with_parent (parent n));;
      for_up (promote_index + 1) BPTREE_ORDER (λ index _,
        k ← tget temp_keys index;
        j ← get_num_keys right_parent;
        set_key right_parent j k;;
        c ← tget temp_children index;
        set_child right_parent j c;;
        c ← get_child right_parent j;
        adopt c right_parent;;
        incr_num_keys right_parent) tt;;
      j ← get_num_keys right_parent;
      c ← tget temp_children BPTREE_ORDER;
      set_child right_parent j c;;
      c ← get_child right_parent j;
      adopt c right_parent;;
      insert_into_parent tree p promote_key right_parent
  end.

Fixpoint bptree_insert_into_parent (fuel : nat) (tree left : ptr) (key : Z) (right : ptr) :
    prog Mem bool :=
  match fuel with
  | O => λ _, NoFuel
  | S fuel' =>
      l ← load_node left;
      match parent l with
      | None => bptree_create_new_root tree left key right
      | Some _ =>
          p ← load_node (parent l);
          insert_index ← while_loop (S (S (num_keys p))) (λ i,
            if decide (i ≤ num_keys p) then
              c ← aget (children p) i;
              if decide (c ≠ left) then mret (inl (S i)) else mret (inr i)
            else mret (inr i)) 0;
          if decide (num_keys p < BPTREE_MAX_KEYS) then
            bptree_insert_into_internal (parent l) insert_index key right;;
            mret true
          else
            bptree_split_internal_and_insert (bptree_insert_into_parent fuel')
              tree (parent l) insert_index key right
      end
  end.

Definition bptree_split_leaf_and_insert (tree leaf : ptr) (key : Z) (value : ptr) : prog Mem bool :=
  n ← load_node leaf;
  insert_index ← bptree_find_insert_index (keys n) (num_keys n) key;
  let left_count := BPTREE_ORDER / 2 in
  right_leaf ← bptree_create_node true;
  match right_leaf with
  | None => mret false
  | Some _ =>
      (* merge the existing entries with the new one *)
      temp ← for_up 0 (num_keys n) (λ index '(tk, tv, ti),
        '(tk, tv, ti) ←
          (if decide (ti = insert_index) then
             tk ← tset tk ti key; tv ← tset tv ti value; mret (tk, tv, S ti)
           else mret (tk, tv, ti));
        k ← get_key leaf index;
        tk ← tset tk ti k;
        v ← get_value leaf index;
        tv ← tset tv ti v;
        mret (tk, tv, S ti))
        (replicate BPTREE_ORDER None, replicate BPTREE_ORDER None, 0);
      temp ←
        (let '(tk, tv, ti) := temp in
         if decide (ti = insert_index) then
           tk ← tset tk ti key; tv ← tset tv ti value; mret (tk, tv)
         else mret (tk, tv));
      let '(temp_keys, temp_values) := temp in
      (* the left half stays in the original leaf *)
      update leaf (with_num_keys 0);;
      for_up 0 left_count (λ index _,
        k ← tget temp_keys index;
        set_key leaf index k;;
        v ← tget temp_values index;
        set_value leaf index v;;
        incr_num_keys leaf) tt;;
      (* the right half moves to the new sibling *)
      n ← load_node leaf;
      update right_leaf (with_parent (parent n));;
      for_up left_count BPTREE_ORDER (λ index _,
        k ← tget temp_keys index;
        j ← get_num_keys right_leaf;
        set_key right_leaf j k;;
        v ← tget temp_values index;
        set_value right_leaf j v;;
        incr_num_keys right_leaf) tt;;
      (* keep the leaf chain *)
      n ← load_node leaf;
      update right_leaf (with_next (next n));;
      update leaf (with_next right_leaf);;
      k ← get_key right_leaf 0;
      fuel ← gets walk_bound;
      bptree_insert_into_parent fuel tree leaf k right_leaf
  end.

(** ** The interface *)

Definition bptree_create : prog Mem ptr := calloc (MkBPTree None).

Definition bptree_destroy (tree : ptr) : prog Mem unit :=
  match tree with
  | None => mret tt
  | Some _ =>
      t ← load_tree tree;
      fuel ← gets walk_bound;
      bptree_destroy_node (S fuel) (root t);;
      free (T:=BPTree) tree
  end.

(** Whether one of the first [num_keys] keys of a leaf is [key]. *)
Definition leaf_has_key (n : BPTreeNode) (key : Z) : prog Mem bool :=
  while_loop (S (num_keys n)) (λ index,
    if decide (index < num_keys n) then
      k ← aget (keys n) index;
      if decide (k = key) then mret (inr true) else mret (inl (S index))
    else mret (inr false)) 0.

Definition bptree_insert (tree : ptr) (key : Z) (value : ptr) : prog Mem bool :=
  match tree with
  | None => mret false
  | Some _ =>
      t ← load_tree tree;
      match root t with
      | None =>
          r ← bptree_create_node true;
          store tree (MkBPTree r);;
          match r with
          | None => mret false
          | Some _ =>
              set_key r 0 key;;
              set_value r 0 value;;
              update r (with_num_keys 1);;
              mret true
          end
      | Some _ =>
          leaf ← bptree_find_leaf tree key;
          n ← load_node leaf;
          dup ← leaf_has_key n key;
          if (dup : bool) then mret false
          else if decide (num_keys n < BPTREE_MAX_KEYS) then
            bptree_insert_into_leaf leaf key value;;
            mret true
          else bptree_split_leaf_and_insert tree leaf key value
      end
  end.

Definition bptree_search (tree : ptr) (key : Z) : prog Mem ptr :=
  leaf ← bptree_find_leaf tree key;
  match leaf with
  | None => mret None
  | Some _ =>
      n ← load_node leaf;
      while_loop (S (num_keys n)) (λ index,
        if decide (index < num_keys n) then
          k ← aget (keys n) index;
          if decide (k = key) then
            v ← aget (values n) index; mret (inr v)
          else mret (inl (S index))
        else mret (inr None)) 0
  end.
