(* ===== verification/Index.v ===== *)
(** What the table is promised by its primary-key index: an abstract relation
    between a [BPTree] in memory and a finite map from keys to record pointers,
    and the behaviour of the four functions of bptree.h in terms of that map.
    The theorems about the table are proved against this class; BPTreeInstance.v
    discharges it with the pointer code of BPTree.v. *)
From stdpp Require Import base list gmap.
From Stdlib Require Import ZArith Lia.
From S2P Require Import Prelude Memory BPTree.

Class KeyIndex := {
  (** [index_at tr mp F m]: in [m], [tr] is an index holding [mp], made of the nodes [F]. *)
  index_at : loc → gmap Z ptr → list loc → Mem → Prop;

  index_live tr mp F m :
    index_at tr mp F m → is_Some (m_trees m !! tr) ∧ ∀ x, x ∈ F → is_Some (m_nodes m !! x);

  index_frame tr mp F m m' :
    index_at tr mp F m → m_trees m' !! tr = m_trees m !! tr →
    (∀ x, x ∈ F → m_nodes m' !! x = m_nodes m !! x) → index_at tr mp F m';

  index_create m :
    wp bptree_create (λ p m',
      if next_call m then
        p = Some (m_next m) ∧
        m' = set_next (Pos.succ (m_next m))
               (set_trees (<[m_next m := MkBPTree None]> (m_trees m)) (env_tail m)) ∧
        index_at (m_next m) ∅ [] m'
      else p = None ∧ m' = env_tail m) m;

  index_search tr mp F k m :
    index_at tr mp F m →
    wp (bptree_search (Some tr) k) (λ p m', m' = m ∧ p = default None (mp !! k)) m;

  index_insert tr mp F k v m :
    index_at tr mp F m → nodes_bounded m → no_failure m →
    wp (bptree_insert (Some tr) k v) (λ b m',
      match mp !! k with
      | Some _ => b = false ∧ m' = m
      | None =>
          b = true ∧ nodes_only m m' ∧ nodes_bounded m' ∧ (m_next m ≤ m_next m')%positive ∧
          (∀ x, x ≠ tr → m_trees m' !! x = m_trees m !! x) ∧
          ∃ F', index_at tr (<[k := v]> mp) F' m' ∧ (∀ x, x ∈ F → x ∈ F') ∧
            (∀ x, x ∈ F' → x ∈ F ∨ (m_next m ≤ x)%positive) ∧
            (∀ x, x ∉ F' → m_nodes m' !! x = m_nodes m !! x)
      end) m;

  index_destroy tr mp F m :
    index_at tr mp F m →
    wp (bptree_destroy (Some tr))
      (λ _ m', m' = set_trees (delete tr (m_trees m)) (drop_nodes F m)) m
}.
