(* ===== verification/BTree.v ===== *)
(** A functional B+ tree of order 4, the specification the pointer code of
    BPTree.v is refined to: trees labelled with node addresses, insertion by a
    zipper, and the invariants of a search tree.  Everything about the order of
    keys is one statement, that the list of separators and entries met from
    left to right is sorted. *)
From stdpp Require Import base list gmap sorting.
From Stdlib Require Import ZArith Lia.
From S2P Require Import Prelude Memory.

(** ** Trees *)

Inductive tree :=
  | Leaf (l : loc) (kvs : list (Z * ptr))
  | Node (l : loc) (ks : list Z) (ts : list tree).

(** Induction with the hypothesis for every child. *)
Lemma tree_ind' (P : tree → Prop) :
  (∀ l kvs, P (Leaf l kvs)) → (∀ l ks ts, Forall P ts → P (Node l ks ts)) → ∀ t, P t.
Proof.
  intros Hleaf Hnode. fix IH 1. intros [l kvs|l ks ts]; [apply Hleaf|]. apply Hnode.
  induction ts as [|t ts IHts]; constructor; [apply IH|apply IHts].
Qed.

Definition root_loc (t : tree) : loc := match t with Leaf l _ => l | Node l _ _ => l end.

Fixpoint first_leaf (t : tree) : loc :=
  match t with
  | Leaf l _ => l
  | Node l _ ts => match ts with [] => l | t' :: _ => first_leaf t' end
  end.

Fixpoint locs (t : tree) : list loc :=
  match t with
  | Leaf l _ => [l]
  | Node l _ ts => l :: concat (map locs ts)
  end.

(** What a left-to-right traversal meets. *)
Inductive item := Sep (k : Z) | Entry (k : Z) (v : ptr).

(** An entry with the key of a separator belongs to its right. *)
Definition rank (i : item) : Z := match i with Sep k => 2 * k | Entry k _ => 2 * k + 1 end.

Definition entry (kv : Z * ptr) : item := Entry kv.1 kv.2.

Fixpoint inter (ks : list Z) (fs : list (list item)) : list item :=
  match fs with
  | [] => []
  | f :: fs' => f ++ match ks with k :: ks' => Sep k :: inter ks' fs' | [] => inter [] fs' end
  end.

Fixpoint flat (t : tree) : list item :=
  match t with
  | Leaf _ kvs => entry <$> kvs
  | Node _ ks ts => inter ks (map flat ts)
  end.

Definition entries (its : list item) : list (Z * ptr) :=
  omap (λ i, match i with Entry k v => Some (k, v) | Sep _ => None end) its.

Definition tree_map (t : tree) : gmap Z ptr := list_to_map (entries (flat t)).

Definition ranks_sorted (its : list item) : Prop := StronglySorted Z.lt (rank <$> its).
Definition sorted_tree (t : tree) : Prop := ranks_sorted (flat t).

(** Every leaf is [h] levels down, every node holds 1 to 3 keys. *)
Fixpoint bal (h : nat) (t : tree) : Prop :=
  match h, t with
  | O, Leaf _ kvs => 1 ≤ length kvs ≤ BPTREE_MAX_KEYS
  | S h', Node _ ks ts =>
      1 ≤ length ks ≤ BPTREE_MAX_KEYS ∧ length ts = S (length ks) ∧ Forall (bal h') ts
  | _, _ => False
  end.

(** ** Contexts *)

(** A path from the root: each frame is a node with a hole among its children. *)
Record frame := MkFrame {
  f_loc : loc;
  f_lks : list Z;
  f_lts : list tree;
  f_rks : list Z;
  f_rts : list tree
}.
Abbreviation context := (list frame).

Definition plug1 (f : frame) (t : tree) : tree :=
  Node (f_loc f) (f_lks f ++ f_rks f) (f_lts f ++ t :: f_rts f).

Fixpoint plug (c : context) (t : tree) : tree :=
  match c with [] => t | f :: c' => plug c' (plug1 f t) end.

Fixpoint ctx_ok (h : nat) (c : context) : Prop :=
  match c with
  | [] => True
  | f :: c' =>
      (1 ≤ length (f_lks f) + length (f_rks f) ≤ BPTREE_MAX_KEYS ∧
       length (f_lts f) = length (f_lks f) ∧ length (f_rts f) = length (f_rks f) ∧
       Forall (bal h) (f_lts f) ∧ Forall (bal h) (f_rts f)) ∧ ctx_ok (S h) c'
  end.

(** The descent for key [k] takes this path. *)
Definition frame_on_path (k : Z) (f : frame) : Prop :=
  Forall (λ k', k' ≤ k)%Z (f_lks f) ∧ match f_rks f with [] => True | k' :: _ => k < k' end%Z.
Definition on_path (k : Z) (c : context) : Prop := Forall (frame_on_path k) c.

Definition inter_l (ks : list Z) (ts : list tree) : list item :=
  concat (zip_with (λ k t, flat t ++ [Sep k]) ks ts).
Definition inter_r (ks : list Z) (ts : list tree) : list item :=
  concat (zip_with (λ k t, Sep k :: flat t) ks ts).

Fixpoint flat_l (c : context) : list item :=
  match c with [] => [] | f :: c' => flat_l c' ++ inter_l (f_lks f) (f_lts f) end.
Fixpoint flat_r (c : context) : list item :=
  match c with [] => [] | f :: c' => inter_r (f_rks f) (f_rts f) ++ flat_r c' end.

Definition frame_locs (f : frame) : list loc :=
  f_loc f :: concat (map locs (f_lts f)) ++ concat (map locs (f_rts f)).
Definition ctx_locs (c : context) : list loc := concat (map frame_locs c).

(** ** Descent and insertion *)

(** The leaf the descent for [k] ends in, and the path to it. *)
Fixpoint descend (k : Z) (t : tree) (c : context) {struct t} : context * loc * list (Z * ptr) :=
  match t with
  | Leaf l kvs => (c, l, kvs)
  | Node l ks ts =>
      (fix go lks lts rks rts {struct rts} :=
         match rts with
         | [] => (c, l, [])
         | t' :: rts' =>
             match rks with
             | k' :: rks' =>
                 if decide (k' ≤ k)%Z then go (lks ++ [k']) (lts ++ [t']) rks' rts'
                 else descend k t' (MkFrame l lks lts rks rts' :: c)
             | [] => descend k t' (MkFrame l lks lts [] rts' :: c)
             end
         end) [] [] ks ts
  end.

Fixpoint kv_insert (k : Z) (v : ptr) (kvs : list (Z * ptr)) : list (Z * ptr) :=
  match kvs with
  | [] => [(k, v)]
  | (k', v') :: r => if decide (k' < k)%Z then (k', v') :: kv_insert k v r else (k, v) :: (k', v') :: r
  end.

(** A split node has become [left] and [right], separated by [k]; [fresh] is
    the next unused address.  Returns the tree and the next unused address. *)
Fixpoint split_up (c : context) (left : tree) (k : Z) (right : tree) (fresh : loc) : tree * loc :=
  match c with
  | [] => (Node fresh [k] [left; right], Pos.succ fresh)
  | f :: c' =>
      let ks := f_lks f ++ k :: f_rks f in
      let ts := f_lts f ++ left :: right :: f_rts f in
      if decide (length (f_lks f ++ f_rks f) < BPTREE_MAX_KEYS) then
        (plug c' (Node (f_loc f) ks ts), fresh)
      else
        split_up c' (Node (f_loc f) (take 2 ks) (take 3 ts)) (ks !!! 2)
          (Node fresh (drop 3 ks) (drop 3 ts)) (Pos.succ fresh)
  end.

(** Insertion of a new key; [None] for a key already there. *)
Definition tree_insert (k : Z) (v : ptr) (t : tree) (fresh : loc) : option (tree * loc) :=
  let '(c, l, kvs) := descend k t [] in
  if decide (k ∈ kvs.*1) then None
  else
    let kvs' := kv_insert k v kvs in
    Some (if decide (length kvs < BPTREE_MAX_KEYS) then (plug c (Leaf l kvs'), fresh)
          else split_up c (Leaf l (take 2 kvs')) ((kvs'.*1) !!! 2)
                 (Leaf fresh (drop 2 kvs')) (Pos.succ fresh)).

Definition tree_search (k : Z) (t : tree) : ptr :=
  let '(_, _, kvs) := descend k t [] in
  match list_find (λ kv, kv.1 = k) kvs with Some (_, kv) => kv.2 | None => None end.

(** ** Traversals of plugged trees *)

Lemma inter_split lks lfs rks f rfs :
  length lks = length lfs →
  inter (lks ++ rks) (lfs ++ f :: rfs) =
    concat (zip_with (λ k f, f ++ [Sep k]) lks lfs) ++ inter rks (f :: rfs).
Proof.
  revert lfs. induction lks as [|k lks IH]; intros [|f' lfs] Hlen; try done; simpl.
  rewrite IH by (simpl in Hlen; lia). simpl. by rewrite <- !(assoc_L (++)).
Qed.

Lemma inter_right rks f rfs :
  length rks = length rfs →
  inter rks (f :: rfs) = f ++ concat (zip_with (λ k f, Sep k :: f) rks rfs).
Proof.
  revert f rfs. induction rks as [|k rks IH]; intros f [|f' rfs] Hlen; try done.
  simpl in *. f_equal. rewrite <- IH by lia. done.
Qed.

Lemma zip_with_map_r {A B C D} (f : A → C → D) (g : B → C) (l : list A) (k : list B) :
  zip_with f l (map g k) = zip_with (λ x y, f x (g y)) l k.
Proof. revert k. induction l as [|x l IH]; intros [|y k]; simpl; f_equal; auto. Qed.

Lemma flat_node_split l lks lts rks t rts :
  length lts = length lks → length rts = length rks →
  flat (Node l (lks ++ rks) (lts ++ t :: rts)) = inter_l lks lts ++ flat t ++ inter_r rks rts.
Proof.
  intros Hl Hr. cbn [flat]. rewrite map_app. cbn [map].
  rewrite inter_split by (by rewrite length_map). f_equal.
  - unfold inter_l. by rewrite zip_with_map_r.
  - rewrite inter_right by (by rewrite length_map). unfold inter_r. by rewrite zip_with_map_r.
Qed.

Lemma inter_l_app ks ks' ts ts' :
  length ts = length ks → inter_l (ks ++ ks') (ts ++ ts') = inter_l ks ts ++ inter_l ks' ts'.
Proof. intros H. unfold inter_l. by rewrite zip_with_app, concat_app by done. Qed.

Lemma inter_r_app ks ks' ts ts' :
  length ts = length ks → inter_r (ks ++ ks') (ts ++ ts') = inter_r ks ts ++ inter_r ks' ts'.
Proof. intros H. unfold inter_r. by rewrite zip_with_app, concat_app by done. Qed.

Lemma flat_plug h c t : ctx_ok h c → flat (plug c t) = flat_l c ++ flat t ++ flat_r c.
Proof.
  revert h t. induction c as [|f c IH]; intros h t Hc; simpl.
  - by rewrite app_nil_r.
  - destruct Hc as [(?&?&?&?&?) Hc]. rewrite (IH _ _ Hc). unfold plug1.
    rewrite flat_node_split by done. by rewrite <- !(assoc_L (++)).
Qed.

Lemma locs_plug1 f t : locs (plug1 f t) ≡ₚ frame_locs f ++ locs t.
Proof.
  unfold plug1, frame_locs; simpl. rewrite map_app, concat_app. simpl.
  solve_Permutation.
Qed.

Lemma locs_plug c t : locs (plug c t) ≡ₚ ctx_locs c ++ locs t.
Proof.
  revert t. induction c as [|f c IH]; intros t; [done|].
  cbn [plug]. rewrite IH, locs_plug1.
  change (ctx_locs (f :: c)) with (frame_locs f ++ ctx_locs c). solve_Permutation.
Qed.

Lemma bal_plug1 h f t c : ctx_ok h (f :: c) → bal h t → bal (S h) (plug1 f t).
Proof.
  intros [(?&?&?&?&?) _] Ht. simpl. rewrite !length_app. simpl.
  split_and!; try lia. apply Forall_app. split; [done|]. by constructor.
Qed.

Lemma bal_plug h c t : ctx_ok h c → bal h t → bal (length c + h) (plug c t).
Proof.
  revert h t. induction c as [|f c IH]; intros h t Hc Ht; [done|].
  cbn [plug length]. replace (S (length c) + h) with (length c + S h) by lia.
  apply IH; [apply Hc|by eapply bal_plug1].
Qed.

Lemma root_loc_plug1 c t t' : root_loc t = root_loc t' → root_loc (plug c t) = root_loc (plug c t').
Proof.
  revert t t'. induction c as [|f c IH]; intros t t' H; [done|]. cbn [plug]. by apply IH.
Qed.
