(* ===== verification/BTreeTheory.v ===== *)
(** The theory of the functional B+ tree of BTree.v: the descent finds the one
    leaf that can hold a key, insertion keeps order and balance and adds exactly
    one entry, and the height is logarithmic in the number of entries. *)
From stdpp Require Import base list gmap sorting.
From Stdlib Require Import ZArith Lia.
From S2P Require Import Prelude Memory BTree.

(** ** The descent *)

(** How many leading keys satisfy [P]. *)
Fixpoint prefix_count (P : Z → Prop) `{∀ k, Decision (P k)} (ks : list Z) : nat :=
  match ks with
  | [] => 0
  | k :: ks' => if decide (P k) then S (prefix_count P ks') else 0
  end.

Lemma prefix_count_le P `{∀ k, Decision (P k)} ks : prefix_count P ks ≤ length ks.
Proof. induction ks; simpl; [lia|]. case_decide; lia. Qed.

(** One step of the descent: into the child after the keys that are at most [k]. *)
Lemma descend_node k h l ks ts c :
  bal (S h) (Node l ks ts) →
  ∃ lks rks lts t rts, ks = lks ++ rks ∧ ts = lts ++ t :: rts ∧
    length lts = length lks ∧ length rts = length rks ∧
    length lks = prefix_count (λ k', k' ≤ k)%Z ks ∧
    frame_on_path k (MkFrame l lks lts rks rts) ∧
    descend k (Node l ks ts) c = descend k t (MkFrame l lks lts rks rts :: c).
Proof.
  intros (_ & Hlen & _). cbn [descend].
  cut (∀ rts rks lks lts, ks = lks ++ rks → ts = lts ++ rts → length lts = length lks →
    length rts = S (length rks) → Forall (λ k', k' ≤ k)%Z lks →
    prefix_count (λ k', k' ≤ k)%Z ks = length lks + prefix_count (λ k', k' ≤ k)%Z rks →
    ∃ lks' rks' lts' t rts', ks = lks' ++ rks' ∧ ts = lts' ++ t :: rts' ∧
      length lts' = length lks' ∧ length rts' = length rks' ∧
      length lks' = prefix_count (λ k', k' ≤ k)%Z ks ∧
      frame_on_path k (MkFrame l lks' lts' rks' rts') ∧
      (fix go lks lts rks rts {struct rts} :=
         match rts with
         | [] => (c, l, [])
         | t' :: rts' =>
             match rks with
             | k' :: rks' =>
                 if decide (k' ≤ k)%Z then go (lks ++ [k']) (lts ++ [t']) rks' rts'
                 else descend k t' (MkFrame l lks lts rks rts' :: c)
             | [] => descend k t' (MkFrame l lks lts [] rts' :: c)
             end
         end) lks lts rks rts = descend k t (MkFrame l lks' lts' rks' rts' :: c)).
  { intros H. by apply (H ts ks [] []). }
  induction rts as [|t' rts IHr]; intros rks lks lts Hks Hts Hl Hr Hle Hcount; [done|].
  destruct rks as [|k' rks]; simpl in *; [|case_decide as Hk].
  - exists lks, [], lts, t', rts. split_and!; try done; simpl; lia.
  - apply (IHr rks (lks ++ [k']) (lts ++ [t'])); rewrite ?length_app; simpl; try lia.
    + by rewrite <- (assoc_L (++)).
    + by rewrite <- (assoc_L (++)).
    + by apply Forall_app; split; [|constructor].
  - exists lks, (k' :: rks), lts, t', rts.
    split_and!; try done; simpl; try lia. split; [done|simpl; lia].
Qed.

Lemma ctx_ok_child h l lks lts rks t rts c :
  bal (S h) (Node l (lks ++ rks) (lts ++ t :: rts)) → ctx_ok (S h) c →
  length lts = length lks → bal h t ∧ ctx_ok h (MkFrame l lks lts rks rts :: c).
Proof.
  intros (Hks & Hts & Hall) Hc Hlen.
  rewrite !length_app in *. simpl in *. apply Forall_app in Hall as [? Hall].
  apply Forall_cons in Hall as [? ?]. split_and!; try done; lia.
Qed.

Lemma descend_spec k h t c :
  bal h t → ctx_ok h c → on_path k c →
  ∃ c' l kvs, descend k t c = (c', l, kvs) ∧ plug c' (Leaf l kvs) = plug c t ∧
    ctx_ok 0 c' ∧ on_path k c' ∧ bal 0 (Leaf l kvs).
Proof.
  revert t c. induction h as [|h IH]; intros [l kvs|l ks ts] c Hb Hc Hp; try done.
  { by exists c, l, kvs. }
  destruct (descend_node k h l ks ts c Hb) as (lks&rks&lts&t&rts&->&->&Hlen&_&_&Hf&->).
  destruct (ctx_ok_child h l lks lts rks t rts c Hb Hc Hlen) as [Hbt Hct].
  apply (IH t (MkFrame l lks lts rks rts :: c) Hbt Hct). by constructor.
Qed.

(** ** Order *)

Lemma ranks_sorted_app l1 l2 :
  ranks_sorted (l1 ++ l2) ↔
    (∀ i j, i ∈ l1 → j ∈ l2 → (rank i < rank j)%Z) ∧ ranks_sorted l1 ∧ ranks_sorted l2.
Proof.
  unfold ranks_sorted. rewrite fmap_app, StronglySorted_app. set_solver.
Qed.

Lemma elem_of_entries k v its : (k, v) ∈ entries its ↔ Entry k v ∈ its.
Proof.
  unfold entries. rewrite list_elem_of_omap. split.
  - intros ([k'|k' v']&?&?); simplify_eq; done.
  - intros ?. exists (Entry k v). done.
Qed.

Lemma sorted_entries_NoDup its : ranks_sorted its → NoDup (entries its).*1.
Proof.
  induction its as [|[k|k v] its IH]; intros Hs; [constructor| |];
    apply (ranks_sorted_app [_]) in Hs as (Hlt & _ & Hs); simpl.
  - by apply IH.
  - change (NoDup (k :: (entries its).*1)). constructor; [|by apply IH].
    intros ([k' v']&Hk&Hin)%list_elem_of_fmap. simpl in Hk; subst k'.
    apply elem_of_entries in Hin.
    assert (rank (Entry k v) < rank (Entry k v'))%Z by (apply Hlt; set_solver).
    simpl in *. lia.
Qed.

Lemma tree_map_lookup t k v :
  sorted_tree t → tree_map t !! k = Some v ↔ Entry k v ∈ flat t.
Proof.
  intros Hs. unfold tree_map. rewrite <- elem_of_entries. symmetry.
  apply elem_of_list_to_map, sorted_entries_NoDup, Hs.
Qed.

Lemma entries_entry kvs : entries (entry <$> kvs) = kvs.
Proof. induction kvs as [|[k v] kvs IH]; [done|]. unfold entries in *. simpl. by f_equal. Qed.

(** What lies left of the path to [k] is smaller, what lies right is larger. *)
Lemma inter_l_last lks lts k :
  length lts = length lks → lks ≠ [] →
  ∃ its k', inter_l lks lts = its ++ [Sep k'] ∧ (Forall (λ k', k' ≤ k)%Z lks → (k' ≤ k)%Z).
Proof.
  intros Hlen Hne. destruct lks as [|k' lks _] using rev_ind; [done|].
  destruct lts as [|t lts _] using rev_ind; [rewrite length_app in Hlen; simpl in Hlen; lia|].
  rewrite !length_app in Hlen; simpl in Hlen.
  rewrite inter_l_app by lia. unfold inter_l at 2. simpl. rewrite app_nil_r.
  exists (inter_l lks lts ++ flat t), k'. split; [by rewrite (assoc_L (++))|].
  rewrite Forall_app, Forall_singleton. tauto.
Qed.

Lemma path_left h k c : ctx_ok h c → on_path k c → ranks_sorted (flat_l c) →
  ∀ i, i ∈ flat_l c → (rank i < 2 * k + 1)%Z.
Proof.
  revert h. induction c as [|f c IH]; intros h Hc Hp Hs i Hi; [set_solver|].
  destruct Hc as [(_&Hlen&_) Hc]. apply Forall_cons in Hp as [[Hle _] Hp]. simpl in *.
  apply ranks_sorted_app in Hs as (Hlt & Hs1 & Hs2).
  apply elem_of_app in Hi as [Hi|Hi]; [by eapply IH|].
  destruct (decide (f_lks f = [])) as [Hnil|Hne].
  { rewrite Hnil in Hi. unfold inter_l in Hi. simpl in Hi. set_solver. }
  destruct (inter_l_last _ _ k Hlen Hne) as (its & k' & Heq & Hk'). rewrite Heq in Hi, Hs2.
  apply ranks_sorted_app in Hs2 as (Hlt2 & _ & _).
  apply elem_of_app in Hi as [Hi|Hi%list_elem_of_singleton].
  - assert (rank i < rank (Sep k'))%Z by (apply Hlt2; set_solver). specialize (Hk' Hle). simpl in *. lia.
  - subst i. specialize (Hk' Hle). simpl. lia.
Qed.

Lemma path_right h k c : ctx_ok h c → on_path k c → ranks_sorted (flat_r c) →
  ∀ i, i ∈ flat_r c → (2 * k + 1 < rank i)%Z.
Proof.
  revert h. induction c as [|f c IH]; intros h Hc Hp Hs i Hi; [set_solver|].
  destruct Hc as [(_&_&Hlen&_) Hc]. apply Forall_cons in Hp as [[_ Hlt] Hp]. simpl in *.
  apply ranks_sorted_app in Hs as (_ & Hs1 & Hs2).
  apply elem_of_app in Hi as [Hi|Hi]; [|by eapply IH].
  destruct (f_rks f) as [|k' rks], (f_rts f) as [|t rts]; simpl in *; try done.
  { unfold inter_r in Hi. simpl in Hi. set_solver. }
  unfold inter_r in Hi, Hs1. simpl in Hi, Hs1.
  apply (ranks_sorted_app [_]) in Hs1 as (Hlt1 & _ & _).
  apply elem_of_cons in Hi as [->|Hi]; [simpl; lia|].
  assert (rank (Sep k') < rank i)%Z by (apply Hlt1; set_solver). simpl in *. lia.
Qed.

(** The order of a plugged tree, seen from the path to [k]. *)
Lemma sorted_plug h k c t : ctx_ok h c → on_path k c → sorted_tree (plug c t) →
  ranks_sorted (flat_l c) ∧ ranks_sorted (flat t) ∧ ranks_sorted (flat_r c) ∧
  (∀ i, i ∈ flat_l c → rank i < 2 * k + 1)%Z ∧ (∀ i, i ∈ flat_r c → 2 * k + 1 < rank i)%Z ∧
  (∀ i j, i ∈ flat_l c → j ∈ flat t → rank i < rank j)%Z ∧
  (∀ i j, i ∈ flat t → j ∈ flat_r c → rank i < rank j)%Z ∧
  (∀ i j, i ∈ flat_l c → j ∈ flat_r c → rank i < rank j)%Z.
Proof.
  intros Hc Hp Hs. unfold sorted_tree in Hs. rewrite (flat_plug _ _ _ Hc) in Hs.
  apply ranks_sorted_app in Hs as (H1 & Hl & Hs). apply ranks_sorted_app in Hs as (H2 & Ht & Hr).
  split_and!; try done.
  - by eapply path_left.
  - by eapply path_right.
  - intros i j ??. apply H1; set_solver.
  - intros i j ??. apply H1; set_solver.
Qed.

(** ** Search *)

Lemma entry_inj_leaf k v l kvs : Entry k v ∈ flat (Leaf l kvs) ↔ (k, v) ∈ kvs.
Proof. by rewrite <- elem_of_entries; simpl; rewrite entries_entry. Qed.

(** An entry with key [k] can only be in the leaf the descent for [k] finds. *)
Lemma entry_in_leaf h k c l kvs v :
  ctx_ok h c → on_path k c → sorted_tree (plug c (Leaf l kvs)) →
  Entry k v ∈ flat (plug c (Leaf l kvs)) ↔ (k, v) ∈ kvs.
Proof.
  intros Hc Hp Hs. destruct (sorted_plug h k c _ Hc Hp Hs) as (_&_&_&Hl&Hr&_).
  rewrite (flat_plug _ _ _ Hc), !elem_of_app, entry_inj_leaf. split; [|tauto].
  intros [Hin|[?|Hin]]; [|done|].
  - apply Hl in Hin. simpl in Hin. lia.
  - apply Hr in Hin. simpl in Hin. lia.
Qed.

Lemma leaf_keys_NoDup l kvs : sorted_tree (Leaf l kvs) → NoDup kvs.*1.
Proof. intros Hs%sorted_entries_NoDup. simpl in Hs. by rewrite entries_entry in Hs. Qed.

Lemma list_find_key k (kvs : list (Z * ptr)) :
  NoDup kvs.*1 →
  match list_find (λ kv, kv.1 = k) kvs with
  | Some (_, kv) => kv ∈ kvs ∧ kv.1 = k
  | None => k ∉ kvs.*1
  end.
Proof.
  intros _. destruct (list_find _ kvs) as [[i kv]|] eqn:Hf.
  - apply list_find_Some in Hf as (Hi & Hk & _). split; [|done]. by eapply list_elem_of_lookup_2.
  - apply list_find_None in Hf. rewrite Forall_forall in Hf.
    intros (kv & -> & Hin)%list_elem_of_fmap. by apply (Hf kv).
Qed.

Lemma tree_search_map k h t :
  bal h t → sorted_tree t → tree_search k t = default None (tree_map t !! k).
Proof.
  intros Hb Hs. unfold tree_search.
  destruct (descend_spec k h t []) as (c & l & kvs & -> & Hplug & Hc & Hp & _); [done..|by constructor|].
  simpl in Hplug. subst t.
  pose proof (sorted_plug 0 k c _ Hc Hp Hs) as (_&Hs'&_).
  pose proof (list_find_key k kvs (leaf_keys_NoDup _ _ Hs')) as Hf.
  destruct (list_find _ kvs) as [[i [k' v]]|]; simpl in Hf.
  - destruct Hf as [Hin ->]. apply (entry_in_leaf 0 k c l kvs v Hc Hp Hs) in Hin.
    apply (tree_map_lookup _ _ _ Hs) in Hin. by rewrite Hin.
  - destruct (tree_map _ !! k) as [v|] eqn:Hlook; [|done].
    apply (tree_map_lookup _ _ _ Hs), (entry_in_leaf 0 k c l kvs v Hc Hp Hs) in Hlook.
    destruct Hf. apply list_elem_of_fmap. by exists (k, v).
Qed.

(** ** Insertion into a leaf *)

Lemma kv_insert_perm k v kvs : kv_insert k v kvs ≡ₚ (k, v) :: kvs.
Proof.
  induction kvs as [|[k' v'] kvs IH]; simpl; [done|]. case_decide; [|done].
  rewrite IH. constructor.
Qed.

Lemma kv_insert_length k v kvs : length (kv_insert k v kvs) = S (length kvs).
Proof. by rewrite kv_insert_perm. Qed.

Lemma kv_insert_sorted k v kvs :
  k ∉ kvs.*1 → ranks_sorted (entry <$> kvs) → ranks_sorted (entry <$> kv_insert k v kvs).
Proof.
  induction kvs as [|[k' v'] kvs IH]; intros Hk Hs; simpl.
  { repeat constructor. }
  apply (ranks_sorted_app [_]) in Hs as (Hlt & _ & Hs). simpl in Hk.
  case_decide.
  - apply (ranks_sorted_app [_]). split_and!; [|by repeat constructor|apply IH; set_solver].
    intros i j ->%list_elem_of_singleton (kv&->&Hkv)%list_elem_of_fmap.
    rewrite kv_insert_perm in Hkv. apply elem_of_cons in Hkv as [->|Hkv]; [simpl; lia|].
    apply Hlt; [set_solver|]. apply list_elem_of_fmap. eauto.
  - apply (ranks_sorted_app [_]). split_and!; [|by repeat constructor|].
    + intros i j ->%list_elem_of_singleton [->|Hj]%elem_of_cons; [simpl; set_solver by lia|].
      assert (rank (entry (k', v')) < rank j)%Z by (apply Hlt; set_solver). simpl in *. lia.
    + apply (ranks_sorted_app [_]). split_and!; [done|by repeat constructor|done].
Qed.

(** ** Splits *)

Lemma flat_split_node l l' ks ts :
  length ks = 4 → length ts = 5 →
  flat (Node l (take 2 ks) (take 3 ts)) ++ Sep (ks !!! 2) :: flat (Node l' (drop 3 ks) (drop 3 ts)) =
  flat (Node l ks ts).
Proof.
  intros Hk Ht. do 4 (destruct ks as [|? ks]; [done|]). destruct ks; [|done].
  do 5 (destruct ts as [|? ts]; [done|]). destruct ts; [|done].
  simpl. rewrite !app_nil_r. repeat (rewrite <- !(assoc_L (++)); simpl). done.
Qed.

Lemma flat_split_up h c l k r fr :
  ctx_ok h c → flat (split_up c l k r fr).1 = flat_l c ++ (flat l ++ Sep k :: flat r) ++ flat_r c.
Proof.
  revert h l k r fr. induction c as [|f c IH]; intros h l k r fr Hc.
  { simpl. by rewrite !app_nil_r. }
  cbn [split_up]. destruct Hc as [(Hn & Hl & Hr & Hbl & Hbr) Hc].
  assert (flat (Node (f_loc f) (f_lks f ++ k :: f_rks f) (f_lts f ++ l :: r :: f_rts f)) =
    inter_l (f_lks f) (f_lts f) ++ (flat l ++ Sep k :: flat r) ++ inter_r (f_rks f) (f_rts f)) as Hflat.
  { rewrite flat_node_split by (simpl; lia). unfold inter_r. simpl.
    by rewrite <- !(assoc_L (++)). }
  case_decide as Hlt; rewrite length_app in Hlt; simpl.
  - rewrite (flat_plug _ _ _ Hc), Hflat. by rewrite <- !(assoc_L (++)).
  - rewrite (IH _ _ _ _ _ Hc), flat_split_node, Hflat;
      [|rewrite length_app; cbn [length] in *; unfold BPTREE_MAX_KEYS, BPTREE_ORDER in *; lia..].
    by rewrite <- !(assoc_L (++)).
Qed.

Lemma bal_split_up h c l k r fr :
  ctx_ok h c → bal h l → bal h r → ∃ H, bal H (split_up c l k r fr).1.
Proof.
  revert h l k r fr. induction c as [|f c IH]; intros h l k r fr Hc Hbl Hbr.
  { exists (S h). simpl. unfold BPTREE_MAX_KEYS, BPTREE_ORDER. split_and!; [lia..|].
    repeat constructor; done. }
  cbn [split_up]. destruct Hc as [(Hn & Hl & Hr & Hfl & Hfr) Hc].
  assert (Forall (bal h) (f_lts f ++ l :: r :: f_rts f)) as Hall
    by (apply Forall_app; split; [done|]; by repeat constructor).
  case_decide as Hlt; rewrite length_app in Hlt.
  - eexists. apply (bal_plug (S h) c); [done|]. simpl. rewrite !length_app. simpl.
    split_and!; [lia..|done].
  - apply (IH (S h)); [done|..]; simpl;
      (split_and!; [..|by apply Forall_take || apply Forall_drop]);
      rewrite ?length_take, ?length_drop, !length_app; cbn [length];
      unfold BPTREE_MAX_KEYS, BPTREE_ORDER in *; lia.
Qed.

(** Addresses taken, in order, from a counter. *)
Fixpoint fresh_seq (fr : loc) (n : nat) : list loc :=
  match n with O => [] | S n' => fr :: fresh_seq (Pos.succ fr) n' end.
Definition fresh_end (fr : loc) (n : nat) : loc := Nat.iter n Pos.succ fr.

Lemma fresh_end_S fr n : fresh_end (Pos.succ fr) n = fresh_end fr (S n).
Proof. unfold fresh_end. by rewrite Nat.iter_succ_r. Qed.

Lemma fresh_end_le fr n : (fr ≤ fresh_end fr n)%positive.
Proof. induction n as [|n IH]; [reflexivity|]. unfold fresh_end in *. simpl. lia. Qed.

Lemma elem_of_fresh_seq fr n x : x ∈ fresh_seq fr n ↔ (fr ≤ x < fresh_end fr n)%positive.
Proof.
  revert fr. induction n as [|n IH]; intros fr; cbn [fresh_seq].
  - unfold fresh_end. simpl. rewrite elem_of_nil. lia.
  - rewrite elem_of_cons, IH, fresh_end_S. pose proof (fresh_end_le (Pos.succ fr) n) as Hle.
    rewrite fresh_end_S in Hle. lia.
Qed.

Lemma NoDup_fresh_seq fr n : NoDup (fresh_seq fr n).
Proof.
  revert fr. induction n as [|n IH]; intros fr; simpl; constructor; [|by apply IH].
  rewrite elem_of_fresh_seq. lia.
Qed.

Lemma locs_split_up c l k r fr :
  ∃ n, (split_up c l k r fr).2 = fresh_end fr n ∧
    locs (split_up c l k r fr).1 ≡ₚ ctx_locs c ++ locs l ++ locs r ++ fresh_seq fr n.
Proof.
  revert l k r fr. induction c as [|f c IH]; intros l k r fr.
  { exists 1. split; [done|]. simpl. solve_Permutation. }
  cbn [split_up]. set (ts := f_lts f ++ l :: r :: f_rts f).
  assert (concat (map locs ts) ≡ₚ
    concat (map locs (f_lts f)) ++ concat (map locs (f_rts f)) ++ locs l ++ locs r) as Hts.
  { unfold ts. rewrite map_app, concat_app. simpl. solve_Permutation. }
  change (ctx_locs (f :: c)) with (frame_locs f ++ ctx_locs c). unfold frame_locs.
  case_decide; simpl.
  - exists 0. split; [done|]. rewrite locs_plug. simpl. rewrite Hts. solve_Permutation.
  - destruct (IH (Node (f_loc f) (take 2 (f_lks f ++ k :: f_rks f)) (take 3 ts))
      ((f_lks f ++ k :: f_rks f) !!! 2)
      (Node fr (drop 3 (f_lks f ++ k :: f_rks f)) (drop 3 ts)) (Pos.succ fr)) as (n & Hn & Hlocs).
    exists (S n). split; [by rewrite Hn, fresh_end_S|]. rewrite Hlocs. simpl.
    transitivity (fr :: f_loc f :: ctx_locs c ++
      concat (map locs (take 3 ts) ++ map locs (drop 3 ts)) ++ fresh_seq (Pos.succ fr) n).
    { rewrite concat_app. solve_Permutation. }
    rewrite <- map_app, take_drop, Hts. solve_Permutation.
Qed.

(** ** Insertion *)

(** A segment that can replace a leaf: the same entries, possibly separated,
    every separator between two of them. *)
Definition segment_of (kvs : list (Z * ptr)) (seg : list item) : Prop :=
  ranks_sorted seg ∧ entries seg = kvs ∧
  ∀ j, j ∈ seg → (∃ kv, kv ∈ kvs ∧ rank (entry kv) ≤ rank j)%Z ∧
                 (∃ kv, kv ∈ kvs ∧ rank j ≤ rank (entry kv))%Z.

Lemma segment_whole kvs : ranks_sorted (entry <$> kvs) → segment_of kvs (entry <$> kvs).
Proof.
  intros Hs. split_and!; [done|by apply entries_entry|].
  intros j (kv & -> & Hkv)%list_elem_of_fmap. split; exists kv; split; (done || lia).
Qed.

Lemma segment_split kvs :
  length kvs = 4 → ranks_sorted (entry <$> kvs) →
  segment_of kvs ((entry <$> take 2 kvs) ++ Sep (kvs.*1 !!! 2) :: (entry <$> drop 2 kvs)).
Proof.
  intros Hlen Hs. do 4 (destruct kvs as [|[? ?] kvs]; [done|]). destruct kvs; [|done].
  unfold ranks_sorted in *. simpl in *.
  repeat match goal with
  | H : StronglySorted _ (_ :: _) |- _ => apply StronglySorted_cons in H as [? ?]
  | H : Forall _ (_ :: _) |- _ => apply Forall_cons in H as [? ?]
  end.
  split_and!.
  - repeat first [apply SSorted_nil | apply SSorted_cons | apply Forall_nil_2 | apply Forall_cons_2]; simpl; lia.
  - done.
  - intros j Hj. rewrite !elem_of_cons, elem_of_nil in Hj. setoid_rewrite elem_of_cons.
    setoid_rewrite elem_of_cons. setoid_rewrite elem_of_cons. setoid_rewrite elem_of_cons.
    destruct_or! Hj; subst; try done; split;
      first [exists (z, o); split; [tauto|simpl; lia] | exists (z0, o0); split; [tauto|simpl; lia]
            |exists (z1, o1); split; [tauto|simpl; lia] | exists (z2, o2); split; [tauto|simpl; lia]].
Qed.

(** Putting the entries of the leaf plus a new one in place of the leaf. *)
Lemma replace_leaf h k v c l kvs seg t' :
  ctx_ok h c → on_path k c → sorted_tree (plug c (Leaf l kvs)) → k ∉ kvs.*1 →
  segment_of (kv_insert k v kvs) seg → flat t' = flat_l c ++ seg ++ flat_r c →
  sorted_tree t' ∧ tree_map t' = <[k := v]> (tree_map (plug c (Leaf l kvs))).
Proof.
  intros Hc Hp Hs Hk (Hseg & Hent & Hbr) Ht'. unfold sorted_tree at 1, tree_map at 1. rewrite Ht'.
  destruct (sorted_plug h k c _ Hc Hp Hs) as (Hsl & Hst & Hsr & Hl & Hr & Hlt & Htr & Hlr).
  assert (∀ i kv, i ∈ flat_l c → kv ∈ kv_insert k v kvs → rank i < rank (entry kv))%Z as Hleft.
  { intros i kv Hi Hkv. rewrite kv_insert_perm in Hkv. apply elem_of_cons in Hkv as [->|Hkv].
    - by apply Hl.
    - apply Hlt; [done|]. apply list_elem_of_fmap. eauto. }
  assert (∀ j kv, j ∈ flat_r c → kv ∈ kv_insert k v kvs → rank (entry kv) < rank j)%Z as Hright.
  { intros i kv Hi Hkv. rewrite kv_insert_perm in Hkv. apply elem_of_cons in Hkv as [->|Hkv].
    - by apply Hr.
    - apply Htr; [|done]. apply list_elem_of_fmap. eauto. }
  assert (ranks_sorted (flat_l c ++ seg ++ flat_r c)) as Hnew.
  { apply ranks_sorted_app. split_and!; [|done|].
    - intros i j Hi [Hj|Hj]%elem_of_app; [|by apply Hlr].
      apply Hbr in Hj as [(kv&Hkv&?) _]. specialize (Hleft i kv Hi Hkv). lia.
    - apply ranks_sorted_app. split_and!; [|done|done].
      intros i j Hi Hj. apply Hbr in Hi as [_ (kv&Hkv&?)]. specialize (Hright j kv Hj Hkv). lia. }
  split; [done|].
  assert (entries (flat_l c ++ seg ++ flat_r c) ≡ₚ (k, v) :: entries (flat (plug c (Leaf l kvs)))) as Hperm.
  { rewrite (flat_plug _ _ _ Hc). unfold entries. rewrite !omap_app. fold (entries seg).
    rewrite Hent, kv_insert_perm. fold (entries (flat (Leaf l kvs))). simpl.
    rewrite entries_entry. solve_Permutation. }
  rewrite (list_to_map_proper _ _ (sorted_entries_NoDup _ Hnew) Hperm). done.
Qed.

(** What insertion does to a search tree: it refuses exactly the keys already
    there; otherwise the result is again a balanced search tree that maps the
    new key to its value and the others as before, on the old addresses and
    addresses taken in order from the counter. *)
Lemma tree_insert_spec h k v t fresh :
  bal h t → sorted_tree t →
  match tree_insert k v t fresh with
  | None => is_Some (tree_map t !! k)
  | Some (t', fresh') =>
      tree_map t !! k = None ∧ tree_map t' = <[k := v]> (tree_map t) ∧
      sorted_tree t' ∧ (∃ h', bal h' t') ∧
      ∃ n, fresh' = fresh_end fresh n ∧ locs t' ≡ₚ locs t ++ fresh_seq fresh n
  end.
Proof.
  intros Hb Hs. unfold tree_insert.
  destruct (descend_spec k h t []) as (c & l & kvs & -> & Hplug & Hc & Hp & Hleaf);
    [done..|by constructor|].
  simpl in Hplug. subst t.
  pose proof (sorted_plug 0 k c _ Hc Hp Hs) as (_&Hsl&_). simpl in Hsl.
  assert (∀ v, tree_map (plug c (Leaf l kvs)) !! k = Some v ↔ (k, v) ∈ kvs) as Hmap.
  { intros v'. by rewrite (tree_map_lookup _ _ _ Hs), (entry_in_leaf 0). }
  case_decide as Hk.
  { apply list_elem_of_fmap in Hk as ([k' v'] & -> & Hin). exists v'. by apply Hmap. }
  assert (tree_map (plug c (Leaf l kvs)) !! k = None) as Hnone.
  { apply eq_None_not_Some. intros [v' Hv'%Hmap]. apply Hk. apply list_elem_of_fmap.
    by exists (k, v'). }
  pose proof (kv_insert_sorted k v kvs Hk Hsl) as Hsk.
  pose proof (kv_insert_length k v kvs) as Hlen.
  simpl in Hleaf. case_decide as Hfull.
  - destruct (replace_leaf 0 k v c l kvs _ _ Hc Hp Hs Hk (segment_whole _ Hsk)
      (flat_plug 0 c (Leaf l _) Hc)) as [Hnew Hm].
    split_and!; [done..| |].
    + eexists. apply (bal_plug 0); [done|]. simpl. lia.
    + exists 0. split; [done|]. rewrite !locs_plug. simpl. by rewrite app_nil_r.
  - unfold BPTREE_MAX_KEYS, BPTREE_ORDER in *. set (kvs' := kv_insert k v kvs) in *.
    assert (length kvs' = 4) as H4 by lia.
    set (left := Leaf l (take 2 kvs')). set (right := Leaf fresh (drop 2 kvs')).
    set (sep := kvs'.*1 !!! 2).
    destruct (replace_leaf 0 k v c l kvs _ _ Hc Hp Hs Hk (segment_split _ H4 Hsk)
      (flat_split_up 0 c left sep right (Pos.succ fresh) Hc)) as [Hnew Hm].
    destruct (bal_split_up 0 c left sep right (Pos.succ fresh) Hc) as [h' Hbal];
      [simpl; rewrite ?length_take, ?length_drop; unfold BPTREE_MAX_KEYS, BPTREE_ORDER; lia..|].
    destruct (locs_split_up c left sep right (Pos.succ fresh)) as (n & Hn & Hlocs).
    destruct (split_up _ _ _ _ _) as [t' fresh']. simpl in *.
    split_and!; [done..|by exists h'|].
    exists (S n). split; [by rewrite Hn, fresh_end_S|].
    rewrite Hlocs, locs_plug. simpl. solve_Permutation.
Qed.
