(* ===== verification/BPTreeRep.v ===== *)
(** How a heap of [BPTreeNode]s represents a tree of BTree.v: node contents,
    parent pointers and the leaf chain; the representation of the path to a
    hole; and the frame properties that make updates local. *)
From stdpp Require Import base list gmap.
From Stdlib Require Import ZArith Lia.
From S2P Require Import Prelude Memory BPTree BTree BTreeTheory.

Implicit Types N : gmap loc BPTreeNode.

(** ** Node contents *)

Definition node_wf (n : BPTreeNode) : Prop :=
  length (keys n) = BPTREE_MAX_KEYS ∧ length (values n) = BPTREE_MAX_KEYS ∧
  length (children n) = BPTREE_ORDER.

Definition leaf_node (n : BPTreeNode) (kvs : list (Z * ptr)) (par nx : ptr) : Prop :=
  is_leaf n = true ∧ node_wf n ∧ num_keys n = length kvs ∧
  take (num_keys n) (keys n) = kvs.*1 ∧ take (num_keys n) (values n) = kvs.*2 ∧
  parent n = par ∧ next n = nx.

Definition inner_node (n : BPTreeNode) (ks : list Z) (cs : list loc) (par : ptr) : Prop :=
  is_leaf n = false ∧ node_wf n ∧ num_keys n = length ks ∧
  take (num_keys n) (keys n) = ks ∧ take (S (num_keys n)) (children n) = Some <$> cs ∧
  parent n = par.

(** ** Trees *)

(** The leaf after the last leaf of a tree that is followed by [ts]. *)
Definition next_of (ts : list tree) (nx : ptr) : ptr :=
  match ts with [] => nx | t :: _ => Some (first_leaf t) end.

(** [N] holds tree [t], whose root has parent [par] and whose last leaf is
    chained to [nx]. *)
Fixpoint rep N (par nx : ptr) (t : tree) {struct t} : Prop :=
  match t with
  | Leaf l kvs => ∃ n, N !! l = Some n ∧ leaf_node n kvs par nx
  | Node l ks ts =>
      (∃ n, N !! l = Some n ∧ inner_node n ks (root_loc <$> ts) par) ∧
      (fix reps ts :=
         match ts with
         | [] => True
         | t :: ts' => rep N (Some l) (next_of ts' nx) t ∧ reps ts'
         end) ts
  end.

Fixpoint reps N (par nx : ptr) (ts : list tree) : Prop :=
  match ts with
  | [] => True
  | t :: ts' => rep N par (next_of ts' nx) t ∧ reps N par nx ts'
  end.

Lemma rep_node N par nx l ks ts :
  rep N par nx (Node l ks ts) ↔
    (∃ n, N !! l = Some n ∧ inner_node n ks (root_loc <$> ts) par) ∧ reps N (Some l) nx ts.
Proof.
  cbn [rep]. f_equiv. induction ts as [|t ts IH]; [done|]. cbn [reps]. by rewrite IH.
Qed.

Lemma reps_app N par nx ts1 ts2 :
  reps N par nx (ts1 ++ ts2) ↔ reps N par (next_of ts2 nx) ts1 ∧ reps N par nx ts2.
Proof.
  induction ts1 as [|t ts1 IH]; simpl; [tauto|]. rewrite IH.
  assert (next_of (ts1 ++ ts2) nx = next_of ts1 (next_of ts2 nx)) as -> by (by destruct ts1).
  tauto.
Qed.

Lemma rep_root N par nx t : rep N par nx t → is_Some (N !! root_loc t).
Proof. destruct t; simpl; [|intros [H _]; revert H]; intros (n&?&_); eauto. Qed.

Lemma reps_root N par nx ts t : reps N par nx ts → t ∈ ts → is_Some (N !! root_loc t).
Proof.
  induction ts as [|t' ts IH]; [set_solver|].
  intros [Ht Hts] [->|?]%elem_of_cons; [by eapply rep_root|auto].
Qed.

Lemma root_in_locs t : root_loc t ∈ locs t.
Proof. destruct t; simpl; left. Qed.

Lemma locs_child l ks ts t x : t ∈ ts → x ∈ locs t → x ∈ locs (Node l ks ts).
Proof. intros Ht Hx. simpl. right. apply elem_of_concat_map. eauto. Qed.

(** ** Frames: a representation depends on its own addresses only *)

Lemma rep_frame N N' t : ∀ par nx,
  (∀ l, l ∈ locs t → N' !! l = N !! l) → rep N par nx t → rep N' par nx t.
Proof.
  induction t as [l kvs|l ks ts IH] using tree_ind'; intros par nx Hag.
  - simpl. intros (n&?&?). exists n. split; [|done]. rewrite Hag; [done|]. simpl. set_solver.
  - rewrite !rep_node. intros [(n&?&Hnode) Hts]. split.
    { exists n. split; [|done]. rewrite Hag; [done|]. simpl. set_solver. }
    assert (∀ t x, t ∈ ts → x ∈ locs t → N' !! x = N !! x) as Hag'.
    { intros t x Ht Hx. apply Hag. by eapply locs_child. }
    clear Hag Hnode.
    induction IH as [|t ts Ht IH IH']; [done|].
    destruct Hts as [Hrep Hts]. split.
    + apply Ht; [|done]. intros x Hx. apply (Hag' t x); [set_solver|done].
    + apply IH'; [done|]. intros t' x Ht' Hx. apply (Hag' t' x); [set_solver|done].
Qed.

Lemma reps_frame N N' par nx ts :
  (∀ l, l ∈ concat (map locs ts) → N' !! l = N !! l) → reps N par nx ts → reps N' par nx ts.
Proof.
  induction ts as [|t ts IH]; intros Hag; [done|]. intros [Ht Hts]. simpl in Hag.
  split; [eapply rep_frame; [|done]|apply IH; [|done]]; intros l Hl; apply Hag, elem_of_app; auto.
Qed.

(** Giving the root of a tree another parent. *)
Lemma rep_reparent N par par' nx t n :
  NoDup (locs t) → rep N par nx t → N !! root_loc t = Some n →
  rep (<[root_loc t := with_parent par' n]> N) par' nx t.
Proof.
  destruct t as [l kvs|l ks ts]; simpl root_loc; intros Hnd Hrep Hn.
  - destruct Hrep as (n'&Hn'&Hleaf). simplify_eq. eexists. split; [apply lookup_insert_eq|].
    unfold leaf_node in *. simpl. tauto.
  - apply rep_node in Hrep as [(n'&Hn'&Hinner) Hts]. simplify_eq. apply rep_node. split.
    + eexists. split; [apply lookup_insert_eq|]. unfold inner_node in *. simpl. tauto.
    + simpl in Hnd. apply NoDup_cons in Hnd as [Hnd _].
      eapply reps_frame; [|done]. intros x Hx. rewrite lookup_insert_ne; [done|]. by intros ->.
Qed.

(** ** Paths *)

Definition par_of (c : context) : ptr := match c with [] => None | f :: _ => Some (f_loc f) end.
Fixpoint nx_of (c : context) : ptr :=
  match c with [] => None | f :: c' => next_of (f_rts f) (nx_of c') end.

Definition first_of (ts : list tree) (fl : loc) : loc :=
  match ts with [] => fl | t :: _ => first_leaf t end.

(** [N] holds the path [c] around a subtree with root [hole] and first leaf [fl]. *)
Fixpoint rep_ctx N (c : context) (hole fl : loc) : Prop :=
  match c with
  | [] => True
  | f :: c' =>
      (∃ n, N !! f_loc f = Some n ∧
         inner_node n (f_lks f ++ f_rks f) ((root_loc <$> f_lts f) ++ hole :: (root_loc <$> f_rts f))
           (par_of c')) ∧
      reps N (Some (f_loc f)) (Some fl) (f_lts f) ∧
      reps N (Some (f_loc f)) (nx_of c') (f_rts f) ∧
      rep_ctx N c' (f_loc f) (first_of (f_lts f) fl)
  end.

Lemma rep_plug N c t :
  rep N None None (plug c t) ↔
    rep_ctx N c (root_loc t) (first_leaf t) ∧ rep N (par_of c) (nx_of c) t.
Proof.
  revert t. induction c as [|f c IH]; intros t; [simpl; tauto|].
  cbn [plug]. rewrite IH. unfold plug1 at 3. rewrite rep_node, reps_app, fmap_app, fmap_cons.
  assert (first_leaf (plug1 f t) = first_of (f_lts f) (first_leaf t)) as ->.
  { unfold plug1. simpl. by destruct (f_lts f). }
  simpl. tauto.
Qed.

Lemma rep_ctx_frame N N' c hole fl :
  (∀ l, l ∈ ctx_locs c → N' !! l = N !! l) → rep_ctx N c hole fl → rep_ctx N' c hole fl.
Proof.
  revert hole fl. induction c as [|f c IH]; intros hole fl Hag; [done|].
  change (ctx_locs (f :: c)) with (frame_locs f ++ ctx_locs c) in Hag. unfold frame_locs in Hag.
  intros ((n&Hn&Hin)&Hl&Hr&Hc). split_and!.
  - exists n. split; [|done]. rewrite Hag; [done|]. set_solver.
  - eapply reps_frame; [|done]. intros x Hx. apply Hag. set_solver.
  - eapply reps_frame; [|done]. intros x Hx. apply Hag. set_solver.
  - apply IH; [|done]. intros x Hx. apply Hag. set_solver.
Qed.

(** ** The addresses of a representation *)

Lemma rep_root_node N par nx t : rep N par nx t → ∃ n, N !! root_loc t = Some n ∧ parent n = par.
Proof.
  destruct t as [l kvs|l ks ts].
  - intros (n&?&?). exists n. unfold leaf_node in *. tauto.
  - intros [(n&?&?) _]%rep_node. exists n. unfold inner_node in *. tauto.
Qed.

Lemma rep_locs N t : ∀ par nx x, rep N par nx t → x ∈ locs t → is_Some (N !! x).
Proof.
  induction t as [l kvs|l ks ts IH] using tree_ind'; intros par nx x Hrep Hx.
  - simpl in Hx. apply list_elem_of_singleton in Hx as ->. by eapply rep_root in Hrep.
  - pose proof (rep_root _ _ _ _ Hrep) as Hl. apply rep_node in Hrep as [_ Hts].
    simpl in Hx. apply elem_of_cons in Hx as [->|Hx]; [done|]. clear Hl. revert Hts Hx.
    induction IH as [|t ts Ht IH IH']; [set_solver|]. simpl. intros [Hrep Hts].
    rewrite elem_of_app. intros [?|?]; eauto.
Qed.

Lemma reps_locs N par nx ts x : reps N par nx ts → x ∈ concat (map locs ts) → is_Some (N !! x).
Proof.
  induction ts as [|t ts IH]; simpl; [set_solver|]. intros [Ht Hts].
  rewrite elem_of_app. intros [?|?]; eauto using rep_locs.
Qed.

Lemma rep_ctx_locs N c hole fl x : rep_ctx N c hole fl → x ∈ ctx_locs c → is_Some (N !! x).
Proof.
  revert hole fl. induction c as [|f c IH]; intros hole fl; [set_solver|].
  intros ((n&Hn&_)&Hl&Hr&Hc). change (ctx_locs (f :: c)) with (frame_locs f ++ ctx_locs c).
  unfold frame_locs. rewrite !elem_of_app, elem_of_cons, elem_of_app.
  intros [[->|[?|?]]|?]; eauto using reps_locs.
Qed.

(** Writing outside a representation. *)
Lemma rep_put N par nx t l n : l ∉ locs t → rep N par nx t → rep (<[l := n]> N) par nx t.
Proof. intros Hl. apply rep_frame. intros x Hx. rewrite lookup_insert_ne; [done|]. by intros ->. Qed.

Lemma reps_put N par nx ts l n :
  l ∉ concat (map locs ts) → reps N par nx ts → reps (<[l := n]> N) par nx ts.
Proof. intros Hl. apply reps_frame. intros x Hx. rewrite lookup_insert_ne; [done|]. by intros ->. Qed.

Lemma rep_ctx_put N c hole fl l n :
  l ∉ ctx_locs c → rep_ctx N c hole fl → rep_ctx (<[l := n]> N) c hole fl.
Proof. intros Hl. apply rep_ctx_frame. intros x Hx. rewrite lookup_insert_ne; [done|]. by intros ->. Qed.
