(* ===== verification/BPTreeOps.v ===== *)
(** What the node-level functions of BPTree.v do to the arrays of one node: the
    loops that shift, copy and split arrays of size 3 and 4 insert into lists. *)
From stdpp Require Import base list gmap.
From Stdlib Require Import ZArith Lia.
From S2P Require Import Prelude Memory BPTree BTree BTreeTheory BPTreeRep.

(** ** Updates of one node *)

(** The memory with node [n] at [l]. *)
Definition put_node (l : loc) (n : BPTreeNode) (m : Mem) : Mem :=
  set_nodes (<[l := n]> (m_nodes m)) m.

Lemma m_nodes_put l n m : m_nodes (put_node l n m) = <[l := n]> (m_nodes m).
Proof. done. Qed.

Lemma put_put l n n' m : put_node l n (put_node l n' m) = put_node l n m.
Proof. unfold put_node, set_nodes. simpl. by rewrite insert_insert_eq. Qed.

Lemma put_comm l l' n n' m :
  l ≠ l' → put_node l n (put_node l' n' m) = put_node l' n' (put_node l n m).
Proof. intros. unfold put_node, set_nodes. simpl. by rewrite insert_insert_ne. Qed.

Lemma put_same l n m : m_nodes m !! l = Some n → put_node l n m = m.
Proof. intros. unfold put_node, set_nodes. destruct m; simpl in *. by rewrite insert_id. Qed.

Lemma wp_load_node l n Q m : m_nodes m !! l = Some n → Q n m → wp (load_node (Some l)) Q m.
Proof. apply (@wp_load _ heap_nodes). Qed.

Lemma wp_store_node l n n0 (Q : unit → Mem → Prop) m :
  m_nodes m !! l = Some n0 → Q tt (put_node l n m) → wp (store (Some l) n) Q m.
Proof. intros Hl HQ. by apply (@wp_store _ heap_nodes _ n0). Qed.

Lemma wp_update_node l n f (Q : unit → Mem → Prop) m :
  m_nodes m !! l = Some n → Q tt (put_node l (f n) m) → wp (update (Some l) f) Q m.
Proof. intros Hl HQ. by apply (@wp_update _ heap_nodes _ n). Qed.

(** A second write to a node below a write to another one. *)
Lemma put_under l l' n n1 n' m :
  l ≠ l' → put_node l n (put_node l' n' (put_node l n1 m)) = put_node l' n' (put_node l n m).
Proof. intros. by rewrite (put_comm l l'), put_put. Qed.

Lemma wp_create_node lf (Q : ptr → Mem → Prop) m :
  no_failure m →
  Q (Some (m_next m))
    (put_node (m_next m) (with_is_leaf lf zero_node) (set_next (Pos.succ (m_next m)) m)) →
  wp (bptree_create_node lf) Q m.
Proof.
  intros Hm HQ. unfold bptree_create_node. apply wp_bind, wp_calloc; [done|]. cbn.
  apply wp_bind. eapply wp_update_node; [simpl; apply lookup_insert_eq|].
  apply wp_ret. revert HQ. unfold put_node, set_nodes, set_next. simpl.
  by rewrite insert_insert_eq.
Qed.
Ltac put_order l r :=
  lazymatch goal with
  | |- context [put_node l ?x (put_node r ?y ?M)] => rewrite (put_comm l r x y M) by congruence
  | _ => idtac
  end.

(** Executes the next action of a program on nodes. *)
Ltac node_lookup :=
  rewrite ?m_nodes_put;
  repeat first [rewrite lookup_insert_eq; reflexivity | rewrite lookup_insert_ne by congruence];
  first [assumption | eassumption].
Ltac put_norm := rewrite ?put_put; try (rewrite put_under by congruence).
Ltac node_step :=
  lazymatch goal with
  | |- wp (mbind _ _) _ _ => apply wp_bind
  | |- wp (mret _) _ _ => apply wp_ret
  | |- wp (load_node _) _ _ => eapply wp_load_node; [node_lookup|]
  | |- wp (store _ _) _ _ => eapply wp_store_node; [node_lookup|]; put_norm
  | |- wp (update _ _) _ _ => eapply wp_update_node; [node_lookup|]; put_norm
  | |- wp (aget _ _) _ _ => eapply wp_aget; [reflexivity|]
  | |- wp (aset _ _ _) _ _ => apply wp_aset; [simpl; lia|]
  | |- wp (tget _ _) _ _ => eapply wp_tget; [reflexivity|]
  | |- wp (tset _ _ _) _ _ => apply wp_aset; [simpl; lia|]
  | |- wp (gets _) _ _ => apply wp_gets
  | |- wp (if decide _ then _ else _) _ _ =>
      first [rewrite decide_True by (congruence || lia) | rewrite decide_False by (congruence || lia)]
  | |- wp (get_key _ _) _ _ => unfold get_key
  | |- wp (get_value _ _) _ _ => unfold get_value
  | |- wp (get_child _ _) _ _ => unfold get_child
  | |- wp (get_num_keys _) _ _ => unfold get_num_keys
  | |- wp (set_key _ _ _) _ _ => unfold set_key
  | |- wp (set_value _ _ _) _ _ => unfold set_value
  | |- wp (set_child _ _ _) _ _ => unfold set_child
  | |- wp (incr_num_keys _) _ _ => unfold incr_num_keys
  | |- wp (for_up _ _ _ _) _ _ => unfold for_up
  | |- wp (for_down _ _ _ _) _ _ => unfold for_down
  end; cbn -[put_node].

Arguments bptree_insert_into_parent : simpl never.
Arguments walk_bound : simpl never.
Arguments adopt : simpl never.

(** ** Searching a node *)

Lemma scan_prefix (P : Z → Prop) `{∀ k, Decision (P k)} (ks ks0 : list Z) n (Q : nat → Mem → Prop) m :
  take n ks = ks0 → length ks0 = n → Q (prefix_count P ks0) m →
  wp (while_loop (S n) (λ index,
        if decide (index < n) then
          k ← aget ks index;
          if decide (P k) then mret (inl (S index)) else mret (inr index)
        else mret (inr index)) 0) Q m.
Proof.
  intros Htake Hlen HQ.
  apply (wp_while _ _ (λ i s, s = m ∧ i ≤ n ∧
    prefix_count P ks0 = i + prefix_count P (drop i ks0)) (λ i _, n - i)).
  { split_and!; [done|lia|done]. }
  { lia. }
  intros i s (-> & Hi & Hcount). case_decide as Hlt.
  - destruct (lookup_lt_is_Some_2 ks0 i) as [k Hk]; [lia|].
    apply wp_bind, (wp_aget _ _ k).
    { rewrite <- Htake in Hk. apply lookup_take_Some in Hk. tauto. }
    erewrite drop_S in Hcount by done. simpl in Hcount.
    case_decide; apply wp_ret.
    + split_and!; [done|lia|lia|lia].
    + by rewrite Nat.add_0_r in Hcount; rewrite <- Hcount.
  - apply wp_ret. replace i with n in Hcount by lia.
    rewrite drop_ge in Hcount by lia. simpl in Hcount. replace i with (prefix_count P ks0) by lia. done.
Qed.

Lemma wp_find_insert_index ks ks0 n key (Q : nat → Mem → Prop) m :
  take n ks = ks0 → length ks0 = n → Q (prefix_count (λ k, k < key)%Z ks0) m →
  wp (bptree_find_insert_index ks n key) Q m.
Proof. apply scan_prefix. Qed.

Lemma kv_insert_prefix k v kvs :
  let i := prefix_count (λ k', k' < k)%Z kvs.*1 in
  kv_insert k v kvs = take i kvs ++ (k, v) :: drop i kvs.
Proof.
  induction kvs as [|[k' v'] kvs IH]; simpl; [done|].
  case_decide; simpl; [|done]. by f_equal.
Qed.

(** ** Arrays of a node as lists *)

(** Splits the arrays of a well-formed node into their slots. *)
Lemma node_wf_inv n : node_wf n →
  ∃ lf nk k0 k1 k2 v0 v1 v2 c0 c1 c2 c3 par nx,
    n = MkNode lf nk [k0; k1; k2] [v0; v1; v2] [c0; c1; c2; c3] par nx.
Proof.
  destruct n as [lf nk ks vs cs par nx]. unfold node_wf; simpl. intros (Hk & Hv & Hc).
  do 3 (destruct ks as [|? ks]; [done|]). destruct ks; [|done].
  do 3 (destruct vs as [|? vs]; [done|]). destruct vs; [|done].
  do 4 (destruct cs as [|? cs]; [done|]). destruct cs; [|done].
  by repeat eexists.
Qed.

Ltac node_eqs := repeat progress (simpl in *; simplify_eq).

Ltac open_node Hwf :=
  let E := fresh "E" in
  destruct (node_wf_inv _ Hwf) as (?&?&?&?&?&?&?&?&?&?&?&?&?&?&E);
  rewrite E in *; clear E; simpl in *.

Lemma leaf_node_full_length n kvs par nx : leaf_node n kvs par nx → length kvs ≤ BPTREE_MAX_KEYS.
Proof.
  intros (_&(Hk&_)&Hn&Htk&_). rewrite <- (length_fmap fst), <- Htk, length_take. lia.
Qed.

(** ** Insertion into a leaf that has room *)

Lemma wp_insert_into_leaf l n kvs par nx k v (Q : unit → Mem → Prop) m :
  m_nodes m !! l = Some n → leaf_node n kvs par nx → length kvs < BPTREE_MAX_KEYS →
  (∀ n', leaf_node n' (kv_insert k v kvs) par nx → Q tt (put_node l n' m)) →
  wp (bptree_insert_into_leaf (Some l) k v) Q m.
Proof.
  intros Hl (Hleaf & Hwf & Hn & Hks & Hvs & Hpar & Hnx) Hlen HQ.
  unfold bptree_insert_into_leaf. do 2 node_step. apply wp_bind.
  eapply wp_find_insert_index; [exact Hks|by rewrite length_fmap|].
  assert (prefix_count (λ k', k' < k)%Z kvs.*1 ≤ length kvs) as Hp
    by (rewrite <- (length_fmap fst); apply prefix_count_le).
  rewrite kv_insert_prefix in HQ. revert Hp HQ.
  generalize (prefix_count (λ k', k' < k)%Z kvs.*1). intros p Hp HQ.
  open_node Hwf. unfold BPTREE_MAX_KEYS, BPTREE_ORDER in Hlen. simpl in Hlen.
  destruct kvs as [|[a va] [|[b vb] [|]]]; node_eqs; try lia;
    (do 3 try destruct p as [|p]); try lia; cbn -[put_node] in *.
  all: repeat node_step.
  all: apply HQ; unfold leaf_node, node_wf; simpl; by split_and!.
Qed.

(** ** The split of a full leaf *)

Lemma wp_split_leaf tree l n kvs par nx k v (Q : bool → Mem → Prop) m :
  m_nodes m !! l = Some n → leaf_node n kvs par nx → length kvs = BPTREE_MAX_KEYS →
  no_failure m → l ≠ m_next m →
  (∀ n' r', leaf_node n' (take 2 (kv_insert k v kvs)) par (Some (m_next m)) →
     leaf_node r' (drop 2 (kv_insert k v kvs)) par nx →
     let m' := put_node (m_next m) r' (put_node l n' (set_next (Pos.succ (m_next m)) m)) in
     wp (bptree_insert_into_parent (walk_bound m') tree (Some l)
           ((kv_insert k v kvs).*1 !!! 2) (Some (m_next m))) Q m') →
  wp (bptree_split_leaf_and_insert tree (Some l) k v) Q m.
Proof.
  intros Hl (Hleaf & Hwf & Hn & Hks & Hvs & Hpar & Hnx) Hlen Hm Hr HQ.
  unfold bptree_split_leaf_and_insert. do 2 node_step. apply wp_bind.
  eapply wp_find_insert_index; [exact Hks|by rewrite length_fmap|].
  assert (prefix_count (λ k', k' < k)%Z kvs.*1 ≤ length kvs) as Hp
    by (rewrite <- (length_fmap fst); apply prefix_count_le).
  rewrite kv_insert_prefix in HQ. revert Hp HQ.
  generalize (prefix_count (λ k', k' < k)%Z kvs.*1). intros p Hp HQ.
  open_node Hwf. unfold BPTREE_MAX_KEYS, BPTREE_ORDER in Hlen. simpl in Hlen.
  apply wp_bind, wp_create_node; [done|].
  set (M := set_next _ m) in *. set (r := m_next m) in *.
  assert (m_nodes M !! l = m_nodes m !! l) as HM by done. rewrite <- HM in Hl. clearbody M r. clear HM Hm.
  destruct kvs as [|[a va] [|[b vb] [|[c vc] [|]]]]; node_eqs; try lia.
  (do 4 try destruct p as [|p]); try lia; cbn -[put_node] in *;
    repeat node_step; put_order l r;
    apply HQ; unfold leaf_node, node_wf; simpl; by split_and!.
Qed.

(** ** Insertion into an internal node that has room *)

Definition insert_at {A} (i : nat) (x : A) (l : list A) : list A := take i l ++ x :: drop i l.

Lemma insert_at_app {A} i (x : A) l1 l2 : i = length l1 → insert_at i x (l1 ++ l2) = l1 ++ x :: l2.
Proof. intros ->. unfold insert_at. by rewrite take_app_length, drop_app_length. Qed.

Lemma insert_at_app_S {A} i (x y : A) l1 l2 :
  i = length l1 → insert_at (S i) x (l1 ++ y :: l2) = l1 ++ y :: x :: l2.
Proof.
  intros ->. rewrite (cons_middle y), (assoc_L (++)), insert_at_app by (rewrite length_app; simpl; lia).
  by rewrite <- (assoc_L (++)).
Qed.

Lemma inner_node_children n ks cs par : inner_node n ks cs par →
  length ks ≤ BPTREE_MAX_KEYS ∧ length cs = S (length ks).
Proof.
  intros (_&(Hk&_&Hc)&Hn&Hks&Hcs&_). split.
  - rewrite <- Hks, length_take. lia.
  - rewrite <- (length_fmap Some cs), <- Hcs, length_take, Hc, Hn.
    rewrite <- Hks, length_take, Hk. unfold BPTREE_ORDER, BPTREE_MAX_KEYS, BPTREE_ORDER. lia.
Qed.

Ltac inner_done := unfold inner_node, node_wf; simpl; by split_and!.

Lemma wp_insert_into_internal p n ks cs par i key rc nrc (Q : unit → Mem → Prop) m :
  m_nodes m !! p = Some n → inner_node n ks cs par → length ks < BPTREE_MAX_KEYS →
  i ≤ length ks → m_nodes m !! rc = Some nrc → p ≠ rc →
  (∀ n', inner_node n' (insert_at i key ks) (insert_at (S i) rc cs) par →
     Q tt (put_node p n' (put_node rc (with_parent (Some p) nrc) m))) →
  wp (bptree_insert_into_internal (Some p) i key (Some rc)) Q m.
Proof.
  intros Hp Hin Hlen Hi Hrc Hne HQ.
  destruct (inner_node_children _ _ _ _ Hin) as [_ Hcs'].
  destruct Hin as (Hleaf & Hwf & Hn & Hks & Hcs & Hpar).
  open_node Hwf. unfold BPTREE_MAX_KEYS, BPTREE_ORDER in Hlen. simpl in Hlen.
  destruct ks as [|? [|? [|]]], cs as [|? [|? [|? [|]]]]; node_eqs; try lia;
    (do 3 try destruct i as [|i]); try lia;
    unfold bptree_insert_into_internal, insert_at in *; cbn -[put_node] in *;
    repeat node_step; put_order rc p; apply HQ; inner_done.
Qed.

(** ** A new root above two halves *)

Lemma wp_create_new_root tr t0 l r nl nr key (Q : bool → Mem → Prop) m :
  no_failure m → m_trees m !! tr = Some t0 →
  m_nodes m !! l = Some nl → m_nodes m !! r = Some nr →
  l ≠ r → l ≠ m_next m → r ≠ m_next m →
  (∀ n, inner_node n [key] [l; r] None →
     Q true (set_trees (<[tr := MkBPTree (Some (m_next m))]> (m_trees m))
       (put_node (m_next m) n (put_node r (with_parent (Some (m_next m)) nr)
         (put_node l (with_parent (Some (m_next m)) nl) (set_next (Pos.succ (m_next m)) m)))))) →
  wp (bptree_create_new_root (Some tr) (Some l) key (Some r)) Q m.
Proof.
  intros Hm Ht Hl Hr Hlr Hln Hrn HQ. unfold bptree_create_new_root.
  apply wp_bind, wp_create_node; [done|].
  set (M := set_next _ m) in *. set (R := m_next m) in *.
  assert (m_nodes M !! l = Some nl) as Hl' by done. assert (m_nodes M !! r = Some nr) as Hr' by done.
  assert (m_trees M = m_trees m) as HM by done. clearbody M R.
  cbn -[put_node]. repeat node_step.
  eapply (@wp_store _ heap_trees); [simpl; rewrite HM; exact Ht|].
  apply wp_ret. simpl hget. simpl hset. rewrite HM.
  rewrite (put_comm l R), (put_comm r R) by done. apply HQ. inner_done.
Qed.

(** ** The split of a full internal node *)

Lemma with_parent_same n q : parent n = q → with_parent q n = n.
Proof. intros <-. by destruct n. Qed.

(** Adopting a child that already has this parent changes nothing. *)
Lemma wp_adopt_same c nc q (Q : unit → Mem → Prop) m :
  m_nodes m !! c = Some nc → parent nc = q → Q tt m → wp (adopt (Some c) q) Q m.
Proof.
  intros Hc <- HQ. unfold adopt. eapply wp_update_node; [done|].
  by rewrite with_parent_same, put_same.
Qed.

Lemma wp_adopt_below p pn R rn c nc q (Q : unit → Mem → Prop) m :
  p ≠ c → R ≠ c → m_nodes m !! c = Some nc →
  Q tt (put_node p pn (put_node R rn (put_node c (with_parent q nc) m))) →
  wp (adopt (Some c) q) Q (put_node p pn (put_node R rn m)).
Proof.
  intros Hp HR Hc HQ. unfold adopt.
  eapply wp_update_node; [rewrite !m_nodes_put, !lookup_insert_ne by done; exact Hc|].
  by rewrite (put_comm c p), (put_comm c R) by done.
Qed.

Ltac adopt_step :=
  first
    [ eapply wp_adopt_same; [node_lookup|assumption|]
    | eapply wp_adopt_below; [congruence|congruence|node_lookup|] ]; cbn -[put_node].

Lemma wp_split_internal K tr p n ks cs par i key rc
    k0 k1 k2 k3 c0 c1 c2 c3 c4 n0 n1 n2 n3 n4 (Q : bool → Mem → Prop) m :
  m_nodes m !! p = Some n → inner_node n ks cs par → length ks = BPTREE_MAX_KEYS →
  i ≤ length ks → no_failure m →
  insert_at i key ks = [k0; k1; k2; k3] → insert_at (S i) rc cs = [c0; c1; c2; c3; c4] →
  m_nodes m !! c0 = Some n0 → m_nodes m !! c1 = Some n1 → m_nodes m !! c2 = Some n2 →
  m_nodes m !! c3 = Some n3 → m_nodes m !! c4 = Some n4 →
  parent n0 = Some p → parent n1 = Some p → parent n2 = Some p →
  NoDup [p; m_next m; c0; c1; c2; c3; c4] →
  (∀ p' r', inner_node p' [k0; k1] [c0; c1; c2] par → inner_node r' [k3] [c3; c4] par →
     wp (K tr (Some p) k2 (Some (m_next m))) Q
       (put_node p p' (put_node (m_next m) r'
         (put_node c4 (with_parent (Some (m_next m)) n4)
           (put_node c3 (with_parent (Some (m_next m)) n3)
             (set_next (Pos.succ (m_next m)) m)))))) →
  wp (bptree_split_internal_and_insert K tr (Some p) i key (Some rc)) Q m.
Proof.
  intros Hp Hin Hlen Hi Hm Hks' Hcs' H0 H1 H2 H3 H4 Hp0 Hp1 Hp2 Hnd HQ.
  destruct (inner_node_children _ _ _ _ Hin) as [_ Hlen'].
  destruct Hin as (Hleaf & Hwf & Hn & Hks & Hcs & Hpar).
  assert (p ≠ m_next m ∧ p ≠ c0 ∧ p ≠ c1 ∧ p ≠ c2 ∧ p ≠ c3 ∧ p ≠ c4 ∧
    m_next m ≠ c0 ∧ m_next m ≠ c1 ∧ m_next m ≠ c2 ∧ m_next m ≠ c3 ∧ m_next m ≠ c4 ∧ c3 ≠ c4)
    as Hne by (rewrite !NoDup_cons in Hnd; set_solver). clear Hnd. destruct_and! Hne.
  unfold bptree_split_internal_and_insert. apply wp_bind, wp_create_node; [done|].
  set (M := set_next _ m) in *. set (R := m_next m) in *.
  assert (m_nodes M = m_nodes m) as HM by done. rewrite <- HM in *. clearbody M R. clear HM Hm.
  open_node Hwf. unfold BPTREE_MAX_KEYS, BPTREE_ORDER in Hlen. simpl in Hlen.
  destruct ks as [|? [|? [|? [|]]]], cs as [|? [|? [|? [|? [|]]]]]; node_eqs; try lia;
    (do 4 try destruct i as [|i]); try lia;
    unfold insert_at in *; node_eqs; cbn -[put_node] in *;
    repeat first [node_step | adopt_step].
  all: apply HQ; inner_done.
Qed.
