(* ===== verification/BPTreeProofs.v ===== *)
(** The pointer code of BPTree.v implements the functional B+ tree of BTree.v:
    on a heap that represents a tree, searching, inserting and destroying
    return (no undefined behaviour, enough fuel) and leave the heap that
    represents the functional result. *)
From stdpp Require Import base list gmap.
From Stdlib Require Import ZArith Lia.
From S2P Require Import Prelude Memory BPTree BTree BTreeTheory BPTreeRep BPTreeOps.

(** The heap after an insertion: it holds the tree [t'], [tr] points to it,
    everything outside [t'] is as it was. *)
Definition inserted (tr : loc) (t' : tree) (fresh' : loc) (m m' : Mem) : Prop :=
  rep (m_nodes m') None None t' ∧
  m_trees m' = <[tr := MkBPTree (Some (root_loc t'))]> (m_trees m) ∧
  m_next m' = fresh' ∧ nodes_only m m' ∧
  ∀ l, l ∉ locs t' → m_nodes m' !! l = m_nodes m !! l.

(** ** Climbing *)

(** The position of the left half among the children of its parent. *)
Lemma wp_find_child (cs : list ptr) (cl : list loc) l cr nk (Q : nat → Mem → Prop) m :
  take (S nk) cs = Some <$> (cl ++ l :: cr) → length cs = BPTREE_ORDER →
  S nk = length (cl ++ l :: cr) → l ∉ cl → Q (length cl) m →
  wp (while_loop (S (S nk)) (λ i,
        if decide (i ≤ nk) then
          c ← aget cs i;
          if decide (c ≠ Some l) then mret (inl (S i)) else mret (inr i)
        else mret (inr i)) 0) Q m.
Proof.
  intros Hcs Hlen Hnk Hl HQ. rewrite length_app in Hnk. simpl in Hnk.
  assert (∀ i c, (cl ++ l :: cr) !! i = Some c → cs !! i = Some (Some c)) as Hget.
  { intros i c Hi. apply (lookup_take_Some cs (S nk)). rewrite Hcs, list_lookup_fmap, Hi. done. }
  apply (wp_while _ _ (λ i s, s = m ∧ i ≤ length cl) (λ i _, nk - i)).
  { split; [done|lia]. }
  { lia. }
  intros i s [-> Hi]. rewrite decide_True by lia.
  destruct (decide (i = length cl)) as [->|Hne].
  - apply wp_bind, (wp_aget _ _ (Some l)); [apply Hget, list_lookup_middle; done|].
    rewrite decide_False by tauto. by apply wp_ret.
  - destruct (lookup_lt_is_Some_2 cl i) as [c Hc]; [lia|].
    apply wp_bind, (wp_aget _ _ (Some c)); [apply Hget; rewrite lookup_app_l by lia; done|].
    rewrite decide_True.
    + apply wp_ret. split; [split; [done|lia]|lia].
    + intros [= ->]. apply Hl. by eapply list_elem_of_lookup_2.
Qed.

(** What [bptree_insert_into_parent] is given: the path [c] to a node that has
    been split into [left] and [right]. *)
Record split_pending (tr : loc) (c : context) (left right : tree) (m : Mem) : Prop := {
  sp_bounded : nodes_bounded m;
  sp_ctx : rep_ctx (m_nodes m) c (root_loc left) (first_leaf left);
  sp_left : rep (m_nodes m) (par_of c) (Some (first_leaf right)) left;
  sp_right : rep (m_nodes m) (par_of c) (nx_of c) right;
  sp_nodup : NoDup (ctx_locs c ++ locs left ++ locs right);
  sp_tree : m_trees m !! tr = Some (MkBPTree (Some (root_loc (plug c left))))
}.

Lemma sp_below tr c left right m x :
  split_pending tr c left right m →
  x ∈ ctx_locs c ++ locs left ++ locs right → (x < m_next m)%positive.
Proof.
  intros [Hb Hc Hl Hr _ _] Hx. apply Hb. rewrite !elem_of_app in Hx.
  destruct Hx as [?|[?|?]]; eauto using rep_ctx_locs, rep_locs.
Qed.

Lemma insert_at_root tr left right key m :
  no_failure m → split_pending tr [] left right m →
  wp (bptree_create_new_root (Some tr) (Some (root_loc left)) key (Some (root_loc right)))
    (λ b m', b = true ∧
      inserted tr (Node (m_next m) [key] [left; right]) (Pos.succ (m_next m)) m m') m.
Proof.
  intros Hm Hsp. pose proof (λ x, sp_below _ _ _ _ _ x Hsp) as Hlt.
  destruct Hsp as [Hb _ Hl Hr Hnd Ht]. simpl in *.
  apply NoDup_app in Hnd as (Hndl & Hlr & Hndr).
  destruct (rep_root _ _ _ _ Hl) as [nl Hnl], (rep_root _ _ _ _ Hr) as [nr Hnr].
  assert (∀ x, x ∈ locs left → x ≠ m_next m) as Hfl.
  { intros x Hx ->. assert (m_next m < m_next m)%positive by (apply Hlt, elem_of_app; auto). lia. }
  assert (∀ x, x ∈ locs right → x ≠ m_next m) as Hfr.
  { intros x Hx ->. assert (m_next m < m_next m)%positive by (apply Hlt, elem_of_app; auto). lia. }
  pose proof (root_in_locs left) as Hrl. pose proof (root_in_locs right) as Hrr.
  assert (root_loc right ∉ locs left) as Hrnl by (intros ?; by eapply Hlr).
  assert (root_loc left ∉ locs right) as Hlnr by (by apply Hlr).
  assert (root_loc left ≠ root_loc right) as Hne by congruence.
  eapply wp_create_new_root; [done..| | |]; auto.
  intros n Hn. split; [done|]. split_and!; [|done|done|done|].
  - apply rep_node. simpl. split.
    { exists n. split; [apply lookup_insert_eq|done]. }
    split; [|split; [|done]].
    + apply rep_put; [intros ?; by eapply Hfl|]. apply rep_put; [done|].
      by apply rep_reparent with (par := None).
    + apply rep_put; [intros ?; by eapply Hfr|].
      apply rep_reparent with (par := None); [done|by apply rep_put|by rewrite lookup_insert_ne].
  - simpl. intros x Hx. rewrite app_nil_r, elem_of_cons, elem_of_app in Hx.
    rewrite !lookup_insert_ne; [done|..]; intros <-; tauto.
Qed.

(** The same, seen from the parent of the two halves. *)
Lemma sp_parent tr f c left right m :
  split_pending tr (f :: c) left right m →
  let ts := f_lts f ++ left :: right :: f_rts f in
  (∃ n, m_nodes m !! f_loc f = Some n ∧
     inner_node n (f_lks f ++ f_rks f)
       ((root_loc <$> f_lts f) ++ root_loc left :: (root_loc <$> f_rts f)) (par_of c)) ∧
  reps (m_nodes m) (Some (f_loc f)) (nx_of c) ts ∧
  rep_ctx (m_nodes m) c (f_loc f) (first_of (f_lts f) (first_leaf left)) ∧
  NoDup (f_loc f :: ctx_locs c ++ concat (map locs ts)).
Proof.
  intros [_ (Hn & Hlts & Hrts & Hc) Hl Hr Hnd _] ts. split_and!; [done| |done|].
  - unfold ts. apply reps_app. simpl. split_and!; done.
  - assert (ctx_locs (f :: c) ++ locs left ++ locs right ≡ₚ
      f_loc f :: ctx_locs c ++ concat (map locs ts)) as <-; [|done].
    change (ctx_locs (f :: c)) with (frame_locs f ++ ctx_locs c). unfold frame_locs, ts.
    rewrite map_app, concat_app. simpl. solve_Permutation.
Qed.

Lemma first_leaf_app ts1 t ts2 l ks :
  first_leaf (Node l ks (ts1 ++ t :: ts2)) = first_of ts1 (first_leaf t).
Proof. by destruct ts1. Qed.

Lemma insert_at_room tr f c left right key h m :
  ctx_ok h (f :: c) → length (f_lks f ++ f_rks f) < BPTREE_MAX_KEYS →
  split_pending tr (f :: c) left right m →
  wp (bptree_insert_into_internal (Some (f_loc f)) (length (f_lts f)) key (Some (root_loc right)))
    (λ _ m', inserted tr (plug c (Node (f_loc f) (f_lks f ++ key :: f_rks f)
                                   (f_lts f ++ left :: right :: f_rts f))) (m_next m) m m') m.
Proof.
  intros [(_ & Hlen & Hlen' & _) Hc] Hroom Hsp.
  destruct (sp_parent _ _ _ _ _ _ Hsp) as ((n & Hn & Hin) & Hts & Hctx & Hnd).
  set (ts := f_lts f ++ left :: right :: f_rts f) in *. destruct Hsp as [_ _ _ Hr _ Ht].
  destruct (rep_root_node _ _ _ _ Hr) as (nr & Hnr & Hpar). simpl in Hpar.
  apply NoDup_cons in Hnd as [Hp Hnd]. rewrite elem_of_app in Hp.
  assert (root_loc right ∈ concat (map locs ts)) as Hrin.
  { apply elem_of_concat_map. exists right. split; [unfold ts; set_solver|apply root_in_locs]. }
  eapply (wp_insert_into_internal _ _ _ _ _ _ key (root_loc right));
    [done|done|done|rewrite length_app; lia|done|intros Heq; rewrite Heq in Hp; tauto|].
  intros n' Hin'. rewrite (with_parent_same _ _ Hpar), (put_same _ _ _ Hnr).
  split_and!; [| |done|done|].
  - apply rep_plug. simpl root_loc. unfold ts. rewrite first_leaf_app, rep_node. split_and!.
    + apply rep_ctx_put; [tauto|done].
    + exists n'. split; [apply lookup_insert_eq|].
      rewrite insert_at_app, insert_at_app_S in Hin' by (rewrite ?length_fmap; done).
      by rewrite fmap_app, !fmap_cons.
    + apply reps_put; [tauto|done].
  - simpl. symmetry. apply insert_id. rewrite Ht. do 3 f_equal.
    by apply (root_loc_plug1 c (plug1 f left)).
  - intros x Hx. simpl. rewrite lookup_insert_ne; [done|]. intros <-. apply Hx.
    rewrite locs_plug, elem_of_app. right. simpl. left.
Qed.

Lemma nodes_bounded_put l n m :
  (l < m_next m)%positive → nodes_bounded m → nodes_bounded (put_node l n m).
Proof.
  intros Hl Hb x. simpl. rewrite lookup_insert. case_decide; [by subst|]. by intros ?%Hb.
Qed.

Lemma nodes_bounded_next m :
  nodes_bounded m → nodes_bounded (set_next (Pos.succ (m_next m)) m).
Proof. intros Hb x Hx%Hb. simpl. lia. Qed.

Lemma NoDup_roots ts : NoDup (concat (map locs ts)) → NoDup (root_loc <$> ts).
Proof.
  induction ts as [|t ts IH]; simpl; [constructor|].
  intros (_ & Hdis & Hnd)%NoDup_app. constructor; [|by apply IH].
  intros (t' & Heq & Hin)%list_elem_of_fmap. apply (Hdis (root_loc t)); [apply root_in_locs|].
  rewrite Heq. apply elem_of_concat_map. exists t'. split; [done|apply root_in_locs].
Qed.

(** Solves [x ∉ b] for the root [x] of one block and another block [b], from
    the disjointness [D] of the blocks. *)
Ltac blocks D :=
  let go i j := (eapply (D i j); [reflexivity|reflexivity|lia|
                  first [apply list_elem_of_singleton; reflexivity | apply root_in_locs]]) in
  let from i := first [go i 0|go i 1|go i 2|go i 3|go i 4|go i 5|go i 6|go i 7] in
  first [from 0|from 1|from 2|from 3|from 4|from 5|from 6|from 7].

(** The heap after the split of a full node with five children [t0 .. t4]. *)
Lemma split_halves tr c p ks t0 t1 t2 t3 t4 k0 k1 k3 p' r' n3 n4 m :
  let R := m_next m in
  let m1 := put_node p p' (put_node R r' (put_node (root_loc t4) (with_parent (Some R) n4)
              (put_node (root_loc t3) (with_parent (Some R) n3) (set_next (Pos.succ R) m)))) in
  nodes_bounded m → is_Some (m_nodes m !! p) →
  reps (m_nodes m) (Some p) (nx_of c) [t0; t1; t2; t3; t4] →
  rep_ctx (m_nodes m) c p (first_leaf t0) →
  NoDup (p :: ctx_locs c ++ concat (map locs [t0; t1; t2; t3; t4])) →
  m_trees m !! tr = Some (MkBPTree (Some (root_loc (plug c (Node p ks []))))) →
  m_nodes m !! root_loc t3 = Some n3 → m_nodes m !! root_loc t4 = Some n4 →
  inner_node p' [k0; k1] (root_loc <$> [t0; t1; t2]) (par_of c) →
  inner_node r' [k3] (root_loc <$> [t3; t4]) (par_of c) →
  split_pending tr c (Node p [k0; k1] [t0; t1; t2]) (Node R [k3] [t3; t4]) m1.
Proof.
  intros R m1 Hb Hp Hts Hctx Hnd Ht Hn3 Hn4 Hp' Hr'.
  assert (∀ x, x ∈ p :: ctx_locs c ++ concat (map locs [t0; t1; t2; t3; t4]) → x ≠ R) as HR.
  { intros x Hx ->. assert (R < R)%positive; [|lia]. apply Hb.
    rewrite elem_of_cons, elem_of_app in Hx.
    destruct Hx as [->|[?|?]]; eauto using reps_locs, rep_ctx_locs. }
  assert (NoDup (R :: p :: ctx_locs c ++ concat (map locs [t0; t1; t2; t3; t4]))) as Hnd'.
  { constructor; [|done]. intros Hx. by apply (HR R). }
  clear Hnd HR. simpl in Hts. destruct Hts as (H0 & H1 & H2 & H3 & H4 & _).
  assert (concat [[R]; [p]; ctx_locs c; locs t0; locs t1; locs t2; locs t3; locs t4] =
    R :: p :: ctx_locs c ++ concat (map locs [t0; t1; t2; t3; t4])) as Heq by done.
  rewrite <- Heq in Hnd'. pose proof (NoDup_concat_disjoint _ Hnd') as D.
  assert (NoDup (locs t3) ∧ NoDup (locs t4)) as [Hnd3 Hnd4].
  { simpl in Hnd'. rewrite !NoDup_cons, !NoDup_app in Hnd'. tauto. }
  rewrite Heq in Hnd'. clear Heq. constructor.
  - apply nodes_bounded_put; [simpl; specialize (Hb p Hp); lia|].
    apply nodes_bounded_put; [simpl; lia|].
    apply nodes_bounded_put; [simpl; specialize (Hb _ (mk_is_Some _ _ Hn4)); lia|].
    apply nodes_bounded_put; [simpl; specialize (Hb _ (mk_is_Some _ _ Hn3)); lia|].
    by apply nodes_bounded_next.
  - simpl. do 4 (apply rep_ctx_put; [blocks D|]). done.
  - apply rep_node. simpl. split; [exists p'; by rewrite lookup_insert_eq|].
    split_and!; [..|done]; (do 4 (apply rep_put; [blocks D|])); done.
  - apply rep_node. simpl. split.
    { exists r'. rewrite lookup_insert_ne; [by rewrite lookup_insert_eq|].
      apply not_elem_of_cons with (l := []). blocks D. }
    split_and!; [..|done].
    + do 3 (apply rep_put; [blocks D|]). by apply rep_reparent with (par := Some p).
    + do 2 (apply rep_put; [blocks D|]). apply rep_reparent with (par := Some p); [done| |].
      * apply rep_put; [blocks D|done].
      * rewrite lookup_insert_ne; [done|]. intros Heq.
        apply (D 6 7 _ _ (root_loc t3) eq_refl eq_refl); [lia|apply root_in_locs|].
        rewrite Heq. apply root_in_locs.
  - simpl. rewrite !app_nil_r.
    assert (R :: p :: ctx_locs c ++ locs t0 ++ locs t1 ++ locs t2 ++ locs t3 ++ locs t4 ++ [] ≡ₚ
      ctx_locs c ++ (p :: locs t0 ++ locs t1 ++ locs t2) ++ R :: locs t3 ++ locs t4) as <-; [|done].
    rewrite app_nil_r. solve_Permutation.
  - simpl. rewrite Ht. do 3 f_equal. by apply root_loc_plug1.
Qed.

Lemma list_of_length_4 {A} (l : list A) : length l = 4 → ∃ a b c d, l = [a; b; c; d].
Proof. intros. do 4 (destruct l as [|? l]; [done|]). destruct l; [|done]. by repeat eexists. Qed.
Lemma list_of_length_5 {A} (l : list A) : length l = 5 → ∃ a b c d e, l = [a; b; c; d; e].
Proof. intros. do 5 (destruct l as [|? l]; [done|]). destruct l; [|done]. by repeat eexists. Qed.

Lemma insert_at_full K tr f c left right key h (Q : bool → Mem → Prop) m :
  ctx_ok h (f :: c) → ¬ length (f_lks f ++ f_rks f) < BPTREE_MAX_KEYS →
  no_failure m → split_pending tr (f :: c) left right m →
  let ks := f_lks f ++ key :: f_rks f in
  let ts := f_lts f ++ left :: right :: f_rts f in
  let left' := Node (f_loc f) (take 2 ks) (take 3 ts) in
  let right' := Node (m_next m) (drop 3 ks) (drop 3 ts) in
  (∀ m1, split_pending tr c left' right' m1 → m_next m1 = Pos.succ (m_next m) →
     m_trees m1 = m_trees m → nodes_only m m1 →
     (∀ l, l ∉ locs left' → l ∉ locs right' → m_nodes m1 !! l = m_nodes m !! l) →
     wp (K (Some tr) (Some (f_loc f)) (ks !!! 2) (Some (m_next m))) Q m1) →
  wp (bptree_split_internal_and_insert K (Some tr) (Some (f_loc f)) (length (f_lts f)) key
        (Some (root_loc right))) Q m.
Proof.
  intros [(Hmax & Hlen & Hlen' & _) _] Hfull Hm Hsp ks ts left' right' HQ.
  rewrite length_app in Hfull. unfold BPTREE_MAX_KEYS, BPTREE_ORDER in Hmax, Hfull.
  pose proof (λ x, sp_below _ _ _ _ _ x Hsp) as Hlt.
  destruct (sp_parent _ _ _ _ _ _ Hsp) as ((n & Hn & Hin) & Hts & Hctx & Hnd).
  destruct Hsp as [Hb _ _ _ _ Ht].
  assert (insert_at (length (f_lts f)) key (f_lks f ++ f_rks f) = ks) as Eks by (by apply insert_at_app).
  assert (insert_at (S (length (f_lts f))) (root_loc right)
    ((root_loc <$> f_lts f) ++ root_loc left :: (root_loc <$> f_rts f)) = root_loc <$> ts) as Ets.
  { rewrite insert_at_app_S by (by rewrite length_fmap). unfold ts. by rewrite fmap_app. }
  assert (first_of (f_lts f) (first_leaf left) = first_leaf left') as Efl.
  { unfold left', ts. by destruct (f_lts f). }
  assert (root_loc (plug (f :: c) left) = root_loc (plug c (Node (f_loc f) ks []))) as Ert
    by (by apply (root_loc_plug1 c (plug1 f left))).
  fold ts in Hts, Hnd. rewrite Efl in Hctx. rewrite Ert in Ht. clear Efl Ert.
  destruct (list_of_length_4 ks) as (k0 & k1 & k2 & k3 & Hks).
  { unfold ks. rewrite length_app. simpl. lia. }
  destruct (list_of_length_5 ts) as (t0 & t1 & t2 & t3 & t4 & Hts5).
  { unfold ts. rewrite length_app. simpl. lia. }
  subst left' right'. clearbody ks ts. rewrite Hks in *. rewrite Hts5 in *. clear Hks Hts5 ks ts.
  simpl in HQ, Hctx.
  pose proof Hts as (H0 & H1 & H2 & H3 & H4 & _).
  destruct (rep_root_node _ _ _ _ H0) as (n0 & Hn0 & Hp0), (rep_root_node _ _ _ _ H1) as (n1 & Hn1 & Hp1),
    (rep_root_node _ _ _ _ H2) as (n2 & Hn2 & Hp2), (rep_root_node _ _ _ _ H3) as (n3 & Hn3 & Hp3),
    (rep_root_node _ _ _ _ H4) as (n4 & Hn4 & Hp4).
  eapply (wp_split_internal K (Some tr) (f_loc f) n _ _ _ _ _ _ k0 k1 k2 k3);
    [done|done|rewrite length_app; unfold BPTREE_MAX_KEYS, BPTREE_ORDER; lia|
     rewrite length_app; lia|done|done|exact Ets|done..| |].
  - change (NoDup (f_loc f :: m_next m :: (root_loc <$> [t0; t1; t2; t3; t4]))).
    apply NoDup_cons in Hnd as [Hp Hnd]. apply NoDup_app in Hnd as (_ & _ & Hnd).
    assert (∀ x, x ∈ root_loc <$> [t0; t1; t2; t3; t4] →
      x ∈ concat (map locs [t0; t1; t2; t3; t4])) as Hroots.
    { intros x (t & -> & Ht')%list_elem_of_fmap. apply elem_of_concat_map.
      exists t. split; [done|apply root_in_locs]. }
    constructor; [|constructor; [|by apply NoDup_roots]].
    + rewrite elem_of_cons. intros [Heq|Hx%Hroots]; [|apply Hp, elem_of_app; auto].
      specialize (Hb _ (mk_is_Some _ _ Hn)). rewrite Heq in Hb. lia.
    + intros Hx%Hroots. assert (m_next m < m_next m)%positive; [|lia].
      eapply Hb, reps_locs; [exact Hts|done].
  - intros p' r' Hp' Hr'. apply HQ; [|done|done|done|].
    + by eapply split_halves.
    + simpl. intros x Hxl Hxr. pose proof (root_in_locs t3). pose proof (root_in_locs t4).
      rewrite !elem_of_cons, !elem_of_app in Hxl, Hxr.
      rewrite !lookup_insert_ne; [done|..]; intros <-; tauto.
Qed.

(** [bptree_insert_into_parent] implements [split_up]. *)
Lemma insert_into_parent_refines c : ∀ fuel h tr left right key m,
  length c < fuel → ctx_ok h c → no_failure m → split_pending tr c left right m →
  let r := split_up c left key right (m_next m) in
  wp (bptree_insert_into_parent fuel (Some tr) (Some (root_loc left)) key (Some (root_loc right)))
    (λ b m', b = true ∧ inserted tr r.1 r.2 m m') m.
Proof.
  induction c as [|f c IH]; intros [|fuel] h tr left right key m Hfuel Hc Hm Hsp; simpl in Hfuel; try lia.
  - destruct (rep_root_node _ _ _ _ (sp_left _ _ _ _ _ Hsp)) as (nl & Hnl & Hpar).
    cbn [split_up bptree_insert_into_parent]. apply wp_bind. eapply wp_load_node; [done|].
    rewrite Hpar. cbn [par_of]. by apply insert_at_root.
  - destruct (rep_root_node _ _ _ _ (sp_left _ _ _ _ _ Hsp)) as (nl & Hnl & Hpar).
    destruct (sp_parent _ _ _ _ _ _ Hsp) as ((n & Hn & Hin) & _ & _ & Hnd).
    pose proof Hc as [(_ & Hlen & Hlen' & _) Hc'].
    pose proof Hin as (_ & Hwf & Hnk & _ & Hcs & _).
    destruct (inner_node_children _ _ _ _ Hin) as [_ Hncs].
    cbn [bptree_insert_into_parent]. apply wp_bind. eapply wp_load_node; [done|].
    rewrite Hpar. cbn [par_of]. apply wp_bind. eapply wp_load_node; [done|].
    apply wp_bind. eapply wp_find_child; [exact Hcs|apply Hwf|lia| |].
    { intros (t & Heq & Ht)%list_elem_of_fmap.
      apply NoDup_cons in Hnd as [_ Hnd]. apply NoDup_app in Hnd as (_ & _ & Hnd).
      rewrite map_app, concat_app in Hnd. apply NoDup_app in Hnd as (_ & Hdis & _).
      apply (Hdis (root_loc t)); [apply elem_of_concat_map; exists t; split; [done|apply root_in_locs]|].
      rewrite <- Heq. simpl. apply elem_of_app. left. apply root_in_locs. }
    rewrite length_fmap, Hnk. cbn [split_up]. case_decide as Hroom.
    + wp_call (by eapply insert_at_room).
      intros u m' Hins. by apply wp_ret.
    + pose proof (locs_split_up c
        (Node (f_loc f) (take 2 (f_lks f ++ key :: f_rks f)) (take 3 (f_lts f ++ left :: right :: f_rts f)))
        ((f_lks f ++ key :: f_rks f) !!! 2)
        (Node (m_next m) (drop 3 (f_lks f ++ key :: f_rks f)) (drop 3 (f_lts f ++ left :: right :: f_rts f)))
        (Pos.succ (m_next m))) as (k & _ & Hlocs).
      eapply (insert_at_full (bptree_insert_into_parent fuel)); [done..|]. intros m1 Hsp1 Hnext Htrees (Hr & Htb & Har & Henv & Hout) Hframe.
      assert (no_failure m1) as Hm1 by (by unfold no_failure; rewrite Henv).
      eapply wp_mono; [|exact (IH fuel (S h) _ _ _ _ _ ltac:(lia) Hc' Hm1 Hsp1)].
      rewrite Hnext. intros b m' (-> & Hrep & Htr & Hn' & (Hr' & Htb' & Har' & Henv' & Hout') & Hframe').
      split; [done|]. split_and!; [done|by rewrite Htr, Htrees|done|by split_and!; etrans|].
      intros l Hl. rewrite Hframe' by done. apply Hframe; intros Hx; apply Hl; rewrite Hlocs;
        rewrite !elem_of_app; tauto.
Qed.
