(* ===== verification/BPTreeIndex.v ===== *)
(** The interface of the B+ tree (create, insert, search, destroy): each
    function of BPTree.v refines its counterpart on functional trees, and the
    tree as a whole behaves as a finite map from keys to record pointers. *)
From stdpp Require Import base list gmap.
From Stdlib Require Import ZArith Lia.
From S2P Require Import Prelude Memory BPTree BTree BTreeTheory BPTreeRep BPTreeOps BPTreeProofs.

(** ** Heaps that hold a tree *)

(** [tr] points to a [BPTree] whose root is [ot]; [None] is the empty tree. *)
Definition tree_at (tr : loc) (ot : option tree) (m : Mem) : Prop :=
  m_trees m !! tr = Some (MkBPTree (root_loc <$> ot)) ∧
  match ot with
  | None => True
  | Some t => rep (m_nodes m) None None t ∧ NoDup (locs t) ∧ sorted_tree t ∧ ∃ h, bal h t
  end.

Definition opt_map (ot : option tree) : gmap Z ptr :=
  match ot with None => ∅ | Some t => tree_map t end.
Definition opt_locs (ot : option tree) : list loc :=
  match ot with None => [] | Some t => locs t end.

Definition opt_insert (k : Z) (v : ptr) (ot : option tree) (fresh : loc) : option (tree * loc) :=
  match ot with
  | None => Some (Leaf fresh [(k, v)], Pos.succ fresh)
  | Some t => tree_insert k v t fresh
  end.

(** ** Bounds on walks *)

Lemma locs_size N par nx t : rep N par nx t → NoDup (locs t) → length (locs t) ≤ size N.
Proof.
  intros Hrep Hnd. rewrite <- (size_list_to_set (C:=gset loc)) by done. rewrite <- size_dom.
  apply subseteq_size. intros x Hx%elem_of_list_to_set. apply elem_of_dom. by eapply rep_locs.
Qed.

Lemma bal_height h t : bal h t → h < length (locs t).
Proof.
  revert t. induction h as [|h IH]; intros [l kvs|l ks ts] Hb; try done; simpl; [lia|].
  destruct Hb as (_ & Hlen & Hall). destruct ts as [|t ts]; [done|].
  apply Forall_cons in Hall as [Ht _]. apply IH in Ht. simpl. rewrite length_app. lia.
Qed.

Lemma length_ctx_locs c : length c ≤ length (ctx_locs c).
Proof.
  induction c as [|f c IH]; simpl; [lia|]. unfold ctx_locs in *. simpl.
  rewrite !length_app. lia.
Qed.

(** ** Search *)

(** The walk from a node [t'] down to the leaf. *)
Lemma walk_down k t m : ∀ fuel h t' c',
  rep (m_nodes m) None None t → bal h t' → ctx_ok h c' → plug c' t' = t → h < fuel →
  wp (while_loop fuel (find_leaf_step k) (Some (root_loc t')))
     (λ p m', m' = m ∧ p = Some (descend k t' c').1.2) m.
Proof.
  induction fuel as [|fuel IH]; intros h t' c' Hrep Hb Hc Hplug Hfuel; [lia|].
  pose proof Hrep as Hrep0. rewrite <- Hplug, rep_plug in Hrep0. destruct Hrep0 as [_ Hrep'].
  cbn [while_loop]. unfold find_leaf_step at 1. apply wp_bind, wp_bind. destruct t' as [l kvs|l ks ts].
  - destruct Hrep' as (n & Hn & Hleaf & _). eapply wp_load_node; [done|]. rewrite Hleaf.
    by apply wp_ret, wp_ret.
  - apply rep_node in Hrep' as [(n & Hn & Hleaf & Hwf & Hnk & Hks & Hcs & _) _].
    eapply wp_load_node; [done|]. rewrite Hleaf. apply wp_bind. unfold child_index.
    eapply scan_prefix; [exact Hks|done|].
    destruct h as [|h]; [done|].
    destruct (descend_node k h l ks ts c' Hb) as (lks&rks&lts&t'&rts&->&->&Hlen&_&Hcount&_&->).
    destruct (ctx_ok_child h l lks lts rks t' rts c' Hb Hc Hlen) as [Hbt Hct].
    apply wp_bind, (wp_aget _ _ (Some (root_loc t'))).
    { apply (lookup_take_Some _ (S (num_keys n))). rewrite Hcs, <- Hcount, <- Hlen.
      rewrite !list_lookup_fmap. by rewrite list_lookup_middle. }
    apply wp_ret. apply (IH h t' (MkFrame l lks lts rks rts :: c')); try done. lia.
Qed.

Lemma find_leaf_refines tr k t h m :
  m_trees m !! tr = Some (MkBPTree (Some (root_loc t))) →
  rep (m_nodes m) None None t → NoDup (locs t) → bal h t →
  wp (bptree_find_leaf (Some tr) k) (λ p m', m' = m ∧ p = Some (descend k t []).1.2) m.
Proof.
  intros Ht Hrep Hnd Hb. unfold bptree_find_leaf, load_tree.
  apply wp_bind. eapply (@wp_load _ heap_trees); [exact Ht|]. simpl.
  apply wp_bind, wp_gets. apply (walk_down k t m _ h t []); try done.
  pose proof (bal_height h t Hb). pose proof (locs_size _ _ _ _ Hrep Hnd). unfold walk_bound. lia.
Qed.

(** The linear scans of a leaf. *)
Lemma leaf_lookup n kvs par nx i kv :
  leaf_node n kvs par nx → kvs !! i = Some kv →
  keys n !! i = Some kv.1 ∧ values n !! i = Some kv.2.
Proof.
  intros (_ & _ & Hn & Hks & Hvs & _) Hi.
  split; apply (lookup_take_Some _ (num_keys n)); rewrite ?Hks, ?Hvs, list_lookup_fmap, Hi; done.
Qed.

Lemma wp_leaf_scan {R} n kvs par nx key (hit : nat → prog Mem R) (miss : R)
    (Q : R → Mem → Prop) m :
  leaf_node n kvs par nx →
  match list_find (λ kv, kv.1 = key) kvs with
  | Some (i, kv) => wp (hit i) Q m
  | None => Q miss m
  end →
  wp (while_loop (S (num_keys n)) (λ index,
        if decide (index < num_keys n) then
          k ← aget (keys n) index;
          if decide (k = key) then x ← hit index; mret (inr x) else mret (inl (S index))
        else mret (inr miss)) 0) Q m.
Proof.
  intros Hleaf HQ. pose proof Hleaf as (_ & _ & Hn & _).
  apply (wp_while _ _ (λ i s, s = m ∧ i ≤ num_keys n ∧ Forall (λ kv, kv.1 ≠ key) (take i kvs))
    (λ i _, num_keys n - i)).
  { split_and!; [done|lia|constructor]. }
  { lia. }
  intros i s (-> & Hi & Hbefore). case_decide as Hlt.
  - destruct (lookup_lt_is_Some_2 kvs i) as [kv Hkv]; [lia|].
    apply wp_bind, (wp_aget _ _ kv.1); [by eapply leaf_lookup|]. case_decide as Hk.
    + replace (list_find _ kvs) with (Some (i, kv)) in HQ.
      { wp_call (exact HQ). intros x s' Hx. by apply wp_ret. }
      symmetry. apply list_find_Some. split_and!; [done|done|].
      intros j kv' Hj Hlt'. rewrite Forall_lookup in Hbefore. apply (Hbefore j).
      by rewrite lookup_take_lt.
    + apply wp_ret. split_and!; [done|lia| |lia]. rewrite (take_S_r _ _ kv) by done.
      apply Forall_app. by repeat constructor.
  - apply wp_ret. rewrite take_ge in Hbefore by lia.
    replace (list_find _ kvs) with (@None (nat * (Z * ptr))) in HQ; [done|].
    symmetry. by apply list_find_None.
Qed.

(** The leaf a descent ends in. *)
Lemma descend_leaf k t m c l kvs h :
  rep (m_nodes m) None None t → bal h t → descend k t [] = (c, l, kvs) →
  plug c (Leaf l kvs) = t ∧ ctx_ok 0 c ∧ on_path k c ∧ bal 0 (Leaf l kvs) ∧
  rep_ctx (m_nodes m) c l l ∧
  ∃ n, m_nodes m !! l = Some n ∧ leaf_node n kvs (par_of c) (nx_of c).
Proof.
  intros Hrep Hb Hd.
  destruct (descend_spec k h t []) as (c' & l' & kvs' & Hd' & Hplug & Hc & Hp & Hleaf);
    [done..|by constructor|]. rewrite Hd in Hd'. simplify_eq.
  simpl in Hplug. rewrite <- Hplug in Hrep. apply rep_plug in Hrep as [Hctx Hl]. by split_and!.
Qed.

Lemma search_refines tr ot k m :
  tree_at tr ot m →
  wp (bptree_search (Some tr) k) (λ p m', m' = m ∧ p = default None (opt_map ot !! k)) m.
Proof.
  intros [Ht Hot]. unfold bptree_search. apply wp_bind. destruct ot as [t|]; simpl in Ht.
  - destruct Hot as (Hrep & Hnd & Hs & h & Hb).
    eapply wp_mono; [|by eapply find_leaf_refines]. intros p m' [-> ->].
    destruct (descend k t []) as [[c l] kvs] eqn:Hd.
    destruct (descend_leaf _ _ _ _ _ _ _ Hrep Hb Hd) as (_ & _ & _ & _ & _ & n & Hn & Hleaf).
    apply wp_bind. eapply wp_load_node; [done|].
    pose proof (tree_search_map k h t Hb Hs) as Hmap. unfold tree_search in Hmap. rewrite Hd in Hmap.
    eapply (wp_leaf_scan _ _ _ _ _ (λ index, aget (values n) index)); [done|]. simpl opt_map.
    rewrite <- Hmap. destruct (list_find _ kvs) as [[i kv]|] eqn:Hf; [|done].
    apply list_find_Some in Hf as (Hi & _). eapply wp_aget; [by eapply leaf_lookup|done].
  - unfold bptree_find_leaf, load_tree. apply wp_bind. eapply (@wp_load _ heap_trees); [exact Ht|].
    simpl. rewrite lookup_empty. by apply wp_ret, wp_ret.
Qed.

(** ** Insertion *)

Lemma insert_first tr k v m :
  tree_at tr None m → no_failure m →
  wp (bptree_insert (Some tr) k v)
    (λ b m', b = true ∧ inserted tr (Leaf (m_next m) [(k, v)]) (Pos.succ (m_next m)) m m') m.
Proof.
  intros [Ht _] Hm. simpl in Ht. unfold bptree_insert, load_tree.
  apply wp_bind. eapply (@wp_load _ heap_trees); [exact Ht|]. simpl root. cbv beta iota.
  apply wp_bind, wp_create_node; [done|].
  set (R := m_next m). set (M := set_next _ m).
  apply wp_bind. eapply (@wp_store _ heap_trees); [exact Ht|].
  set (M' := hset _ _). change M' with (put_node R (with_is_leaf true zero_node)
    (set_trees (<[tr := MkBPTree (Some R)]> (m_trees m)) M)).
  cbn -[put_node]. repeat node_step. split; [done|]. split_and!; try done.
  - eexists. split; [apply lookup_insert_eq|]. unfold leaf_node, node_wf. simpl. by split_and!.
  - simpl. intros l Hl. rewrite lookup_insert_ne; [done|]. set_solver.
Qed.

Lemma leaf_is_kvs n kvs par nx i kv :
  leaf_node n kvs par nx → list_find (λ kv, kv.1 = i) kvs = Some kv → i ∈ kvs.*1.
Proof.
  intros _ Hf. destruct kv as [j kv]. apply list_find_Some in Hf as (Hj & <- & _).
  apply list_elem_of_fmap. exists kv. split; [done|]. by eapply list_elem_of_lookup_2.
Qed.

(** Insertion into a leaf that has room changes that leaf only. *)
Lemma insert_no_split tr c l kvs n k v m :
  let t := plug c (Leaf l kvs) in
  tree_at tr (Some t) m → nodes_bounded m → rep_ctx (m_nodes m) c l l →
  m_nodes m !! l = Some n → leaf_node n kvs (par_of c) (nx_of c) → length kvs < BPTREE_MAX_KEYS →
  wp (bptree_insert_into_leaf (Some l) k v)
    (λ _ m', inserted tr (plug c (Leaf l (kv_insert k v kvs))) (m_next m) m m') m.
Proof.
  intros t [Ht (_ & Hnd & _)] Hb Hctx Hn Hleaf Hlen. unfold t in Hnd.
  rewrite locs_plug in Hnd. apply NoDup_app in Hnd as (_ & Hdis & _).
  assert (l ∉ ctx_locs c) as Hl by (intros Hl; by eapply Hdis, list_elem_of_singleton).
  eapply wp_insert_into_leaf; [done..|]. intros n' Hn'. split_and!; try done.
  - apply rep_plug. simpl root_loc. simpl first_leaf. split; [by apply rep_ctx_put|].
    exists n'. split; [apply lookup_insert_eq|done].
  - simpl. symmetry. apply insert_id. rewrite Ht. simpl. do 3 f_equal. by apply root_loc_plug1.
  - simpl. intros x Hx. rewrite lookup_insert_ne; [done|]. intros <-. apply Hx.
    rewrite locs_plug, elem_of_app. right. by apply list_elem_of_singleton.
Qed.

(** Insertion into a full leaf splits it and climbs. *)
Lemma insert_split tr c l kvs n k v m :
  let t := plug c (Leaf l kvs) in
  let kvs' := kv_insert k v kvs in
  let R := m_next m in
  let r := split_up c (Leaf l (take 2 kvs')) (kvs'.*1 !!! 2) (Leaf R (drop 2 kvs')) (Pos.succ R) in
  tree_at tr (Some t) m → nodes_bounded m → no_failure m → ctx_ok 0 c → rep_ctx (m_nodes m) c l l →
  m_nodes m !! l = Some n → leaf_node n kvs (par_of c) (nx_of c) → length kvs = BPTREE_MAX_KEYS →
  wp (bptree_split_leaf_and_insert (Some tr) (Some l) k v)
    (λ b m', b = true ∧ inserted tr r.1 r.2 m m') m.
Proof.
  intros t kvs' R r [Ht (Hrep & Hnd & _)] Hb Hm Hc Hctx Hn Hleaf Hlen. unfold t in Hnd, Ht, Hrep.
  assert (l < R)%positive as HlR by eauto.
  assert (R ∉ ctx_locs c) as HR.
  { intros HR. assert (R < R)%positive; [|lia]. eapply Hb, rep_ctx_locs; done. }
  pose proof Hnd as Hnd'. rewrite locs_plug in Hnd'. apply NoDup_app in Hnd' as (Hndc & Hdis & _).
  assert (l ∉ ctx_locs c) as Hl by (intros Hl; by eapply Hdis, list_elem_of_singleton).
  assert (l ≠ R) as Hne by (intros ->; lia).
  eapply wp_split_leaf; [done..|]. intros n' r' Hn' Hr' m'. fold R in Hn', m'. fold kvs' in Hn', Hr'.
  assert (split_pending tr c (Leaf l (take 2 kvs')) (Leaf R (drop 2 kvs')) m') as Hsp.
  { constructor.
    - apply nodes_bounded_put; [simpl; lia|]. apply nodes_bounded_put; [simpl; lia|].
      by apply nodes_bounded_next.
    - simpl. by do 2 (apply rep_ctx_put; [done|]).
    - exists n'. simpl. by rewrite lookup_insert_ne, lookup_insert_eq.
    - exists r'. simpl. by rewrite lookup_insert_eq.
    - apply NoDup_app. split_and!; [done| |].
      + intros x Hx. simpl. rewrite !elem_of_cons, elem_of_nil. naive_solver.
      + simpl. rewrite NoDup_cons, elem_of_cons, elem_of_nil. split; [naive_solver|apply NoDup_singleton].
    - simpl. rewrite Ht. simpl. do 3 f_equal. by apply root_loc_plug1. }
  eapply wp_mono; [|eapply (insert_into_parent_refines c _ 0 tr (Leaf l _) (Leaf R _)); [|done..]].
  - intros b m2 (-> & H). split; [done|]. change (m_next m') with (Pos.succ R) in H. fold r in H.
    destruct H as (Hrep2 & Htr2 & Hn2 & Honly & Hfr). split_and!; try done.
    intros x Hx. rewrite Hfr by done. simpl.
    pose proof (locs_split_up c (Leaf l (take 2 kvs')) (kvs'.*1 !!! 2) (Leaf R (drop 2 kvs'))
      (Pos.succ R)) as (q & _ & Hlocs). fold r in Hlocs. rewrite Hlocs in Hx. simpl in Hx.
    rewrite !elem_of_app, !elem_of_cons in Hx. rewrite !lookup_insert_ne; [done|..]; intros <-; tauto.
  - pose proof (locs_size _ _ _ _ Hrep Hnd) as Hsize. rewrite locs_plug, length_app in Hsize.
    pose proof (length_ctx_locs c). unfold walk_bound.
    assert (size (m_nodes m) ≤ size (m_nodes m')); [|lia]. rewrite <- !size_dom. simpl.
    apply subseteq_size. rewrite !dom_insert. set_solver.
Qed.

Lemma wp_leaf_has_key n kvs par nx key (Q : bool → Mem → Prop) m :
  leaf_node n kvs par nx →
  match list_find (λ kv, kv.1 = key) kvs with Some _ => Q true m | None => Q false m end →
  wp (leaf_has_key n key) Q m.
Proof.
  intros Hleaf HQ. refine (wp_leaf_scan n kvs _ _ key (λ _, mret true) false Q m Hleaf _).
  by destruct (list_find _ kvs) as [[i kv]|].
Qed.

(** [bptree_insert] implements insertion on trees. *)
Lemma insert_refines tr ot k v m :
  tree_at tr ot m → nodes_bounded m → no_failure m →
  wp (bptree_insert (Some tr) k v)
    (λ b m', match opt_insert k v ot (m_next m) with
             | None => b = false ∧ m' = m
             | Some (t', fresh') => b = true ∧ inserted tr t' fresh' m m'
             end) m.
Proof.
  intros Hat Hb Hm. destruct ot as [t|]; [|by apply insert_first].
  pose proof Hat as [Ht (Hrep & Hnd & Hs & h & Hbal)].
  unfold opt_insert, tree_insert. destruct (descend k t []) as [[c l] kvs] eqn:Hd.
  destruct (descend_leaf _ _ _ _ _ _ _ Hrep Hbal Hd) as (<- & Hc & Hp & Hlen & Hctx & n & Hn & Hleaf).
  pose proof Hleaf as (_ & _ & Hnk & _). unfold bptree_insert. simpl in Ht.
  apply wp_bind. eapply (@wp_load _ heap_trees); [exact Ht|]. simpl root. cbv beta iota.
  wp_call (by eapply find_leaf_refines).
  intros p m' [-> ->]. rewrite Hd. simpl fst. simpl snd.
  apply wp_bind. eapply wp_load_node; [done|]. apply wp_bind.
  eapply wp_leaf_has_key; [done|].
  destruct (list_find (λ kv, kv.1 = k) kvs) as [[i kv]|] eqn:Hf.
  - rewrite (decide_True (P := k ∈ kvs.*1)); [by apply wp_ret|]. by eapply leaf_is_kvs.
  - rewrite (decide_False (P := k ∈ kvs.*1)).
    2:{ intros (kv & -> & Hin)%list_elem_of_fmap. apply list_find_None in Hf.
        rewrite Forall_forall in Hf. by apply (Hf kv). }
    cbv beta iota. rewrite Hnk. case_decide as Hroom.
    + wp_call (by eapply insert_no_split).
      intros u m' Hins. by apply wp_ret.
    + destruct Hlen. eapply wp_mono; [|eapply insert_split; try done; lia].
      intros b m'. by destruct (split_up _ _ _ _ _).
Qed.

(** An inserted tree is a tree again, and the addresses it takes are fresh. *)
Lemma inserted_tree tr ot k v m m' t' fresh' :
  tree_at tr ot m → nodes_bounded m → opt_insert k v ot (m_next m) = Some (t', fresh') →
  inserted tr t' fresh' m m' →
  opt_map ot !! k = None ∧ tree_at tr (Some t') m' ∧ tree_map t' = <[k := v]> (opt_map ot) ∧
  nodes_bounded m' ∧ (m_next m ≤ m_next m')%positive ∧
  ∀ x, x ∈ locs t' → x ∈ opt_locs ot ∨ (m_next m ≤ x)%positive.
Proof.
  intros Hat Hb Hins (Hrep & Htr & Hnext & Honly & Hfr).
  assert (opt_map ot !! k = None ∧ tree_map t' = <[k := v]> (opt_map ot) ∧ sorted_tree t' ∧
    (∃ h', bal h' t') ∧ ∃ n, fresh' = fresh_end (m_next m) n ∧
      locs t' ≡ₚ opt_locs ot ++ fresh_seq (m_next m) n) as (Hk & Hmap & Hs & Hbal & n & Hfresh & Hlocs).
  { destruct ot as [t|]; simpl in *.
    - destruct Hat as [_ (_ & _ & Hs & h & Hbal)].
      pose proof (tree_insert_spec h k v t (m_next m) Hbal Hs) as Hspec. by rewrite Hins in Hspec.
    - injection Hins as <- <-. split_and!; [by rewrite lookup_empty|done|by repeat constructor| |].
      + exists 0. simpl. unfold BPTREE_MAX_KEYS, BPTREE_ORDER. lia.
      + by exists 1. }
  pose proof (fresh_end_le (m_next m) n) as Hle. rewrite <- Hfresh in Hle.
  split_and!; [done| |done| |by rewrite Hnext|].
  - split; [rewrite Htr; apply lookup_insert_eq|]. split_and!; try done.
    rewrite Hlocs. apply NoDup_app. split_and!; [|intros x Hx Hx'|apply NoDup_fresh_seq].
    + destruct ot; [|constructor]. apply Hat.
    + apply elem_of_fresh_seq in Hx'. assert (x < m_next m)%positive; [|lia]. apply Hb.
      destruct ot as [t|]; [|set_solver]. destruct Hat as [_ [Hrep0 _]]. by eapply rep_locs.
  - intros x Hx. rewrite Hnext. destruct (decide (x ∈ locs t')) as [Hin|Hout].
    + rewrite Hlocs in Hin. apply elem_of_app in Hin as [Hin|Hin%elem_of_fresh_seq]; [|lia].
      assert (x < m_next m)%positive; [|lia]. apply Hb.
      destruct ot as [t|]; [|set_solver]. destruct Hat as [_ [Hrep0 _]]. by eapply rep_locs.
    + rewrite Hfr in Hx by done. apply Hb in Hx. lia.
  - intros x Hx. rewrite Hlocs in Hx. apply elem_of_app in Hx as [?|Hx%elem_of_fresh_seq]; [by left|].
    right. lia.
Qed.

(** ** Destruction *)

Lemma reps_lookup N par nx ts i t :
  reps N par nx ts → ts !! i = Some t → ∃ nx', rep N par nx' t.
Proof.
  revert i. induction ts as [|t' ts IH]; intros [|i] Hts Hi; simplify_eq/=.
  - destruct Hts. eauto.
  - by eapply IH; [apply Hts|].
Qed.

Lemma NoDup_take_locs ts i t :
  NoDup (concat (map locs ts)) → ts !! i = Some t →
  ∀ x, x ∈ locs t → x ∉ concat (map locs (take i ts)).
Proof.
  intros Hnd Hi x Hx (t' & Ht' & Hx')%elem_of_concat_map.
  apply list_elem_of_lookup in Ht' as [j Hj]. apply lookup_take_Some in Hj as [Hj Hji].
  apply (NoDup_concat_disjoint _ Hnd i j (locs t) (locs t') x);
    [by rewrite list_lookup_fmap, Hi|by rewrite list_lookup_fmap, Hj|lia|done|done].
Qed.

Lemma bal_children h l ks ts i t : bal (S h) (Node l ks ts) → ts !! i = Some t → bal h t.
Proof. intros (_ & _ & Hall) Hi. by eapply Forall_lookup_1. Qed.

Lemma destroy_node_refines h : ∀ t fuel par nx m,
  bal h t → rep (m_nodes m) par nx t → NoDup (locs t) → h < fuel →
  wp (bptree_destroy_node fuel (Some (root_loc t))) (λ _ m', m' = drop_nodes (locs t) m) m.
Proof.
  induction h as [|h IH]; intros t [|fuel] par nx m Hb Hrep Hnd Hfuel; try lia;
    destruct t as [l kvs|l ks ts]; try done; cbn [bptree_destroy_node root_loc].
  - destruct Hrep as (n & Hn & Hleaf & _). apply wp_bind. eapply wp_load_node; [done|]. rewrite Hleaf.
    apply wp_bind, wp_ret. eapply (@wp_free _ heap_nodes); [done|].
    simpl locs. rewrite <- delete_drop. by rewrite drop_nodes_nil.
  - apply rep_node in Hrep as [(n & Hn & Hinner) Hts]. pose proof Hinner as (Hleaf & _ & Hnk & _).
    pose proof Hb as (_ & Hlen & _). simpl in Hnd. apply NoDup_cons in Hnd as [Hl Hnd].
    apply wp_bind. eapply wp_load_node; [done|]. rewrite Hleaf. rewrite Hnk, <- Hlen.
    apply wp_bind. eapply wp_mono; [|apply (wp_for_up _ _ _
      (λ i _ s, s = drop_nodes (concat (map locs (take i ts))) m)); [lia|by rewrite drop_nodes_nil|]].
    + intros u m' ->. rewrite firstn_all. eapply (@wp_free _ heap_nodes).
      { change hget with m_nodes. rewrite drop_lookup, decide_False; done. }
      apply delete_drop.
    + intros i [] m' [_ Hi] ->. destruct (lookup_lt_is_Some_2 ts i) as [t Ht]; [lia|].
      destruct (reps_lookup _ _ _ _ _ _ Hts Ht) as [nx' Hrt].
      pose proof (NoDup_take_locs ts i t Hnd Ht) as Hdis.
      unfold get_child. apply wp_bind, wp_bind. eapply wp_load_node.
      { rewrite drop_lookup, decide_False; [done|]. intros Hx. apply Hl.
        rewrite <- (take_drop i ts), map_app, concat_app. by apply elem_of_app; left. }
      eapply wp_aget.
      { pose proof Hinner as (_ & _ & _ & _ & Hcs & _).
        apply (lookup_take_Some _ (S (num_keys n))). rewrite Hcs.
        by rewrite !list_lookup_fmap, Ht. }
      eapply wp_mono; [|eapply (IH t fuel); [by eapply bal_children| | |lia]].
      * intros u m2 ->. rewrite (take_S_r _ _ t) by done.
        rewrite map_app, concat_app. simpl. by rewrite app_nil_r, drop_nodes_app.
      * eapply rep_frame; [|exact Hrt]. intros x Hx. rewrite drop_lookup, decide_False; auto.
      * rewrite <- (take_drop_middle ts i t Ht), map_app, concat_app in Hnd. simpl in Hnd.
        rewrite !NoDup_app in Hnd. tauto.
Qed.

(** [bptree_destroy] frees the tree's nodes, each once, and the tree. *)
Lemma destroy_refines tr ot m :
  tree_at tr ot m →
  wp (bptree_destroy (Some tr))
    (λ _ m', m' = set_trees (delete tr (m_trees m)) (drop_nodes (opt_locs ot) m)) m.
Proof.
  intros [Ht Hot]. unfold bptree_destroy. apply wp_bind. eapply (@wp_load _ heap_trees); [exact Ht|].
  apply wp_bind, wp_gets, wp_bind. simpl root. destruct ot as [t|].
  - destruct Hot as (Hrep & Hnd & _ & h & Hb).
    eapply wp_mono; [|eapply destroy_node_refines; [done..|]].
    + intros u m' ->. by eapply (@wp_free _ heap_trees); [exact Ht|].
    + pose proof (bal_height h t Hb). pose proof (locs_size _ _ _ _ Hrep Hnd). unfold walk_bound. lia.
  - cbn [bptree_destroy_node fmap option_fmap option_map]. apply wp_ret.
    eapply (@wp_free _ heap_trees); [exact Ht|]. simpl. by rewrite drop_nodes_nil.
Qed.

(** ** Height *)

Lemma entries_app its its' : entries (its ++ its') = entries its ++ entries its'.
Proof. apply omap_app. Qed.

Lemma length_entries_node ks ts :
  length (entries (inter ks (map flat ts))) = sum_list (map (λ t, length (entries (flat t))) ts).
Proof.
  revert ks. induction ts as [|t ts IH]; intros ks; [done|]. simpl.
  rewrite entries_app, length_app. f_equal. destruct ks; apply IH.
Qed.

Lemma bal_entries h t : bal h t → 2 ^ h ≤ length (entries (flat t)).
Proof.
  revert t. induction h as [|h IH]; intros [l kvs|l ks ts] Hb; try done.
  - simpl. rewrite entries_entry. simpl in Hb. lia.
  - destruct Hb as (Hks & Hlen & Hall). simpl flat. rewrite length_entries_node.
    destruct ts as [|t1 [|t2 ts]]; [simpl in *; lia..|]. rewrite !Forall_cons in Hall.
    destruct Hall as (H1%IH & H2%IH & _). simpl. lia.
Qed.

Lemma size_tree_map t : sorted_tree t → size (tree_map t) = length (entries (flat t)).
Proof.
  intros Hs%sorted_entries_NoDup. unfold tree_map.
  rewrite <- length_map_to_list. by rewrite (map_to_list_to_map _ Hs).
Qed.

Lemma height_log h t : bal h t → sorted_tree t → 2 ^ h ≤ size (tree_map t).
Proof. intros Hb Hs. rewrite size_tree_map by done. by apply bal_entries. Qed.
