(* ===== verification/BPTreeInstance.v ===== *)
(** The B+ tree is a key index: the instance of the class of Index.v, and what
    the pointer code guarantees beyond it. *)
From stdpp Require Import base list gmap.
From Stdlib Require Import ZArith Lia.
From S2P Require Import Prelude Memory BPTree BTree BTreeTheory BPTreeRep BPTreeOps BPTreeProofs Index BPTreeIndex.

Definition bptree_at (tr : loc) (mp : gmap Z ptr) (F : list loc) (m : Mem) : Prop :=
  ∃ ot, tree_at tr ot m ∧ opt_map ot = mp ∧ opt_locs ot = F.

Lemma bptree_at_live tr mp F m :
  bptree_at tr mp F m → is_Some (m_trees m !! tr) ∧ ∀ x, x ∈ F → is_Some (m_nodes m !! x).
Proof.
  intros (ot & [Ht Hot] & _ & <-). split; [by rewrite Ht|]. intros x Hx.
  destruct ot as [t|]; [|set_solver]. destruct Hot as [Hrep _]. by eapply rep_locs.
Qed.

Lemma bptree_at_frame tr mp F m m' :
  bptree_at tr mp F m → m_trees m' !! tr = m_trees m !! tr →
  (∀ x, x ∈ F → m_nodes m' !! x = m_nodes m !! x) → bptree_at tr mp F m'.
Proof.
  intros (ot & [Ht Hot] & <- & <-) Htr Hag. exists ot. split_and!; [|done|done].
  split; [by rewrite Htr|]. destruct ot as [t|]; [|done].
  destruct Hot as (Hrep & Hnd & Hs & Hb). split_and!; try done. by eapply rep_frame.
Qed.

Lemma bptree_at_create m :
  wp bptree_create (λ p m',
    if next_call m then
      p = Some (m_next m) ∧
      m' = set_next (Pos.succ (m_next m))
             (set_trees (<[m_next m := MkBPTree None]> (m_trees m)) (env_tail m)) ∧
      bptree_at (m_next m) ∅ [] m'
    else p = None ∧ m' = env_tail m) m.
Proof.
  apply wp_bind, wp_lib_call. fold (next_call m). destruct (next_call m); [|done].
  unfold wpx, fresh_block. split_and!; [done..|]. exists None. split_and!; [|done|done].
  split; [|done]. simpl. apply lookup_insert_eq.
Qed.

Lemma bptree_at_search tr mp F k m :
  bptree_at tr mp F m →
  wp (bptree_search (Some tr) k) (λ p m', m' = m ∧ p = default None (mp !! k)) m.
Proof. intros (ot & Ht & <- & _). by apply search_refines. Qed.

Lemma opt_insert_present tr ot k v m :
  tree_at tr ot m → opt_insert k v ot (m_next m) = None → is_Some (opt_map ot !! k).
Proof.
  intros [_ Hot] Hins. destruct ot as [t|]; [|done]. destruct Hot as (_ & _ & Hs & h & Hb).
  pose proof (tree_insert_spec h k v t (m_next m) Hb Hs) as H. simpl in *. by rewrite Hins in H.
Qed.

Lemma inserted_locs ot k v fresh t' fresh' tr m :
  tree_at tr ot m → opt_insert k v ot fresh = Some (t', fresh') →
  ∀ x, x ∈ opt_locs ot → x ∈ locs t'.
Proof.
  intros [_ Hot] Hins x Hx. destruct ot as [t|]; [|set_solver].
  destruct Hot as (_ & _ & Hs & h & Hb). pose proof (tree_insert_spec h k v t fresh Hb Hs) as H.
  simpl in *. rewrite Hins in H. destruct H as (_ & _ & _ & _ & n & _ & ->).
  apply elem_of_app. by left.
Qed.

Lemma bptree_at_insert tr mp F k v m :
  bptree_at tr mp F m → nodes_bounded m → no_failure m →
  wp (bptree_insert (Some tr) k v) (λ b m',
    match mp !! k with
    | Some _ => b = false ∧ m' = m
    | None =>
        b = true ∧ nodes_only m m' ∧ nodes_bounded m' ∧ (m_next m ≤ m_next m')%positive ∧
        (∀ x, x ≠ tr → m_trees m' !! x = m_trees m !! x) ∧
        ∃ F', bptree_at tr (<[k := v]> mp) F' m' ∧ (∀ x, x ∈ F → x ∈ F') ∧
          (∀ x, x ∈ F' → x ∈ F ∨ (m_next m ≤ x)%positive) ∧
          (∀ x, x ∉ F' → m_nodes m' !! x = m_nodes m !! x)
    end) m.
Proof.
  intros (ot & Hat & <- & <-) Hb Hm. eapply wp_mono; [|by apply insert_refines].
  intros b m'. destruct (opt_insert k v ot (m_next m)) as [[t' fresh']|] eqn:Hins.
  - intros [-> H].
    destruct (inserted_tree _ _ _ _ _ _ _ _ Hat Hb Hins H) as (-> & Hat' & Hmap & Hb' & Hle & Hlocs).
    pose proof (inserted_locs _ _ _ _ _ _ _ _ Hat Hins) as Hkeep.
    destruct H as (_ & Htr & _ & Honly & Hfr). split_and!; try done.
    + intros x Hx. by rewrite Htr, lookup_insert_ne.
    + exists (locs t'). split_and!; try done. by exists (Some t').
  - intros [-> ->]. by destruct (opt_insert_present _ _ _ _ _ Hat Hins) as [? ->].
Qed.

Lemma bptree_at_destroy tr mp F m :
  bptree_at tr mp F m →
  wp (bptree_destroy (Some tr))
    (λ _ m', m' = set_trees (delete tr (m_trees m)) (drop_nodes F m)) m.
Proof. intros (ot & Ht & _ & <-). by apply destroy_refines. Qed.

#[export] Instance bptree_index : KeyIndex := {|
  index_at := bptree_at;
  index_live := bptree_at_live;
  index_frame := bptree_at_frame;
  index_create := bptree_at_create;
  index_search := bptree_at_search;
  index_insert := bptree_at_insert;
  index_destroy := bptree_at_destroy
|}.
