(* ===== verification/Table.v ===== *)
(** The users table of [sql_processor/table.c]: sixteen buckets, each with its
    lock, its growable array of rows and its B+ tree, as programs over the C
    memory, one definition per function.  An out-parameter pair
    [Record ***records, size_t *count] is a [results] value that a function
    takes and returns. *)
From stdpp Require Import base list gmap sorting strings.
From Stdlib Require Import Ascii ZArith Lia.
From S2P Require Import Prelude Memory CLib BPTree.

Inductive TableComparison :=
  | TABLE_COMPARISON_EQ
  | TABLE_COMPARISON_LT
  | TABLE_COMPARISON_LE
  | TABLE_COMPARISON_GT
  | TABLE_COMPARISON_GE.

#[export] Instance TableComparison_eq_dec : EqDecision TableComparison.
Proof. solve_decision. Defined.

(** ** Access to the structures *)

Definition load_table (p : ptr) : prog Mem Table := load p.
Definition load_record (p : ptr) : prog Mem record := load p.

Definition with_buckets (bs : list TableBucket) (t : Table) : Table :=
  MkTable (next_id t) (next_id_lock t) (next_id_lock_initialized t) (initialized_buckets t) bs.
Definition with_next_id (z : Z) (t : Table) : Table :=
  MkTable z (next_id_lock t) (next_id_lock_initialized t) (initialized_buckets t) (buckets t).
Definition with_next_id_lock (k : option bool) (t : Table) : Table :=
  MkTable (next_id t) k (next_id_lock_initialized t) (initialized_buckets t) (buckets t).
Definition with_lock_initialized (t : Table) : Table :=
  MkTable (next_id t) (next_id_lock t) true (initialized_buckets t) (buckets t).
Definition with_initialized_buckets (n : nat) (t : Table) : Table :=
  MkTable (next_id t) (next_id_lock t) (next_id_lock_initialized t) n (buckets t).

Definition with_lock (k : option rwlock) (b : TableBucket) : TableBucket :=
  MkBucket k (rows b) (bkt_size b) (capacity b) (pk_index b).
Definition with_rows (p : ptr) (b : TableBucket) : TableBucket :=
  MkBucket (bkt_lock b) p (bkt_size b) (capacity b) (pk_index b).
Definition with_size (n : nat) (b : TableBucket) : TableBucket :=
  MkBucket (bkt_lock b) (rows b) n (capacity b) (pk_index b).
Definition with_capacity (n : nat) (b : TableBucket) : TableBucket :=
  MkBucket (bkt_lock b) (rows b) (bkt_size b) n (pk_index b).
Definition with_pk_index (p : ptr) (b : TableBucket) : TableBucket :=
  MkBucket (bkt_lock b) (rows b) (bkt_size b) (capacity b) p.

(** [table->buckets[i]] *)
Definition get_bucket (table : ptr) (i : nat) : prog Mem TableBucket :=
  t ← load_table table; aget (buckets t) i.
Definition set_bucket (table : ptr) (i : nat) (f : TableBucket → TableBucket) : prog Mem unit :=
  t ← load_table table;
  b ← aget (buckets t) i;
  bs ← aset (buckets t) i (f b);
  store table (with_buckets bs t).

(** [p[i]] for an array of record pointers. *)
Definition array_get (p : ptr) (i : nat) : prog Mem ptr :=
  a ← load (T:=rec_array) p; tget a i.
Definition array_set (p : ptr) (i : nat) (x : ptr) : prog Mem unit :=
  a ← load (T:=rec_array) p; a ← tset a i x; store p a.

(** [realloc(p, n * sizeof(Record * ))]: a new block with the old contents; the
    old block is freed, unless the call fails. *)
Definition realloc_array (p : ptr) (n : nat) : prog Mem ptr :=
  ok ← lib_call;
  if (ok : bool) then
    old ← (match p with None => mret [] | Some _ => load (T:=rec_array) p end);
    q ← fresh_block (take n old ++ replicate (n - length old) None);
    free (T:=rec_array) p;;
    mret q
  else mret None.

(** ** Locks *)

(** The locks are those of one thread: a lock that would never be granted
    blocks it for good; unlocking what is not held, or using a lock that is not
    initialised, is undefined. *)
Definition pthread_rwlock_init (table : ptr) (i : nat) : prog Mem bool :=
  ok ← lib_call;
  if (ok : bool) then
    set_bucket table i (with_lock (Some (MkRWLock 0 false)));; mret true
  else mret false.

Definition pthread_rwlock_rdlock (table : ptr) (i : nat) : prog Mem bool :=
  b ← get_bucket table i;
  match bkt_lock b with
  | None => ub
  | Some k =>
      if writer k then blocked
      else
        ok ← lib_call;
        if (ok : bool) then
          set_bucket table i (with_lock (Some (MkRWLock (S (readers k)) false)));; mret true
        else mret false
  end.

Definition pthread_rwlock_wrlock (table : ptr) (i : nat) : prog Mem bool :=
  b ← get_bucket table i;
  match bkt_lock b with
  | None => ub
  | Some k =>
      if decide (writer k = true ∨ readers k ≠ 0) then blocked
      else
        ok ← lib_call;
        if (ok : bool) then
          set_bucket table i (with_lock (Some (MkRWLock 0 true)));; mret true
        else mret false
  end.

Definition pthread_rwlock_unlock (table : ptr) (i : nat) : prog Mem unit :=
  b ← get_bucket table i;
  match bkt_lock b with
  | Some (MkRWLock n true) => set_bucket table i (with_lock (Some (MkRWLock n false)))
  | Some (MkRWLock (S n) false) => set_bucket table i (with_lock (Some (MkRWLock n false)))
  | _ => ub
  end.

Definition pthread_rwlock_destroy (table : ptr) (i : nat) : prog Mem unit :=
  b ← get_bucket table i;
  if decide (bkt_lock b = Some (MkRWLock 0 false)) then set_bucket table i (with_lock None)
  else ub.

(** The same for [next_id_lock]. *)
Definition pthread_mutex_init (table : ptr) : prog Mem bool :=
  ok ← lib_call;
  if (ok : bool) then update table (with_next_id_lock (Some false));; mret true else mret false.

Definition pthread_mutex_lock (table : ptr) : prog Mem bool :=
  t ← load_table table;
  match next_id_lock t with
  | None => ub
  | Some true => blocked
  | Some false =>
      ok ← lib_call;
      if (ok : bool) then update table (with_next_id_lock (Some true));; mret true else mret false
  end.

Definition pthread_mutex_unlock (table : ptr) : prog Mem unit :=
  t ← load_table table;
  if decide (next_id_lock t = Some true) then update table (with_next_id_lock (Some false)) else ub.

Definition pthread_mutex_destroy (table : ptr) : prog Mem unit :=
  t ← load_table table;
  if decide (next_id_lock t = Some false) then update table (with_next_id_lock None) else ub.

(** ** Helpers *)

Definition table_bucket_index_for_id (id : Z) : nat :=
  let bucket := c_rem id (Z.of_nat TABLE_BUCKET_COUNT) in
  Z.to_nat (if decide (bucket < 0)%Z then (bucket + Z.of_nat TABLE_BUCKET_COUNT)%Z else bucket).

(** The growth policy of both growable arrays. *)
Definition grow (capacity : nat) : nat := if decide (capacity = 0) then 8 else capacity * 2.

Definition table_ensure_capacity (table : ptr) (i : nat) : prog Mem bool :=
  b ← get_bucket table i;
  if decide (bkt_size b < capacity b) then mret true
  else
    let new_capacity := grow (capacity b) in
    new_rows ← realloc_array (rows b) new_capacity;
    match new_rows with
    | None => mret false
    | Some _ =>
        set_bucket table i (with_rows new_rows);;
        set_bucket table i (with_capacity new_capacity);;
        mret true
    end.

(** [Record **records; size_t count] *)
Record results := MkResults { records : ptr; count : nat }.
Definition no_results : results := MkResults None 0.

Definition table_append_record (rs : results) (capacity : nat) (r : ptr) :
    prog Mem (bool * results * nat) :=
  if decide (count rs < capacity) then
    array_set (records rs) (count rs) r;;
    mret (true, MkResults (records rs) (S (count rs)), capacity)
  else
    let new_capacity := grow capacity in
    new_records ← realloc_array (records rs) new_capacity;
    match new_records with
    | None => mret (false, rs, capacity)
    | Some _ =>
        array_set new_records (count rs) r;;
        mret (true, MkResults new_records (S (count rs)), new_capacity)
    end.

(** The comparison [qsort] is given, on the two ids. *)
Definition table_compare_records_by_id (lhs rhs : Z) : Z :=
  if decide (lhs < rhs)%Z then -1 else if decide (lhs > rhs)%Z then 1 else 0.

(** The ids [qsort] compares, each read through its pointer. *)
Fixpoint keyed (ps : list (option ptr)) : prog Mem (list (Z * ptr)) :=
  match ps with
  | [] => mret []
  | None :: _ => ub
  | Some p :: ps' => r ← load_record p; rest ← keyed ps'; mret ((rec_id r, p) :: rest)
  end.

Definition id_le (x y : Z * ptr) : Prop := (table_compare_records_by_id x.1 y.1 ≤ 0)%Z.
#[export] Instance id_le_dec x y : Decision (id_le x y).
Proof. unfold id_le. apply _. Defined.

(** [qsort] of the first [n] pointers of an array. *)
Definition qsort_records (p : ptr) (n : nat) : prog Mem unit :=
  a ← load (T:=rec_array) p;
  ks ← keyed (take n a);
  store p (map (λ k, Some k.2) (merge_sort id_le ks) ++ drop n a).

Definition table_sort_records_by_id (p : ptr) (n : nat) : prog Mem unit :=
  match p with
  | None => mret tt
  | Some _ => if decide (n < 2) then mret tt else qsort_records p n
  end.

Definition table_compare_int (left : Z) (comparison : TableComparison) (right : Z) : bool :=
  match comparison with
  | TABLE_COMPARISON_EQ => bool_decide (left = right)
  | TABLE_COMPARISON_LT => bool_decide (left < right)%Z
  | TABLE_COMPARISON_LE => bool_decide (left ≤ right)%Z
  | TABLE_COMPARISON_GT => bool_decide (right < left)%Z
  | TABLE_COMPARISON_GE => bool_decide (right ≤ left)%Z
  end.

Definition table_free_record_array (rs : results) : prog Mem results :=
  free (T:=rec_array) (records rs);; mret no_results.


(** ** Collecting rows *)

Definition table_collect_bucket_rows_locked (table : ptr) (i : nat) (rs : results) (cap : nat) :
    prog Mem (bool * results * nat) :=
  b ← get_bucket table i;
  r ← for_until 0 (bkt_size b) (λ index '(rs, cap),
    b ← get_bucket table i;
    row ← array_get (rows b) index;
    '(ok, rs, cap) ← table_append_record rs cap row;
    if (ok : bool) then mret (inl (rs, cap))
    else rs ← table_free_record_array rs; mret (inr (rs, cap))) (rs, cap);
  match r with
  | inl (rs, cap) => mret (true, rs, cap)
  | inr (rs, cap) => mret (false, rs, cap)
  end.

Definition table_collect_all_sorted (table : ptr) (rs : results) : prog Mem (bool * results) :=
  match table with
  | None => mret (false, rs)
  | Some _ =>
      r ← for_until 0 TABLE_BUCKET_COUNT (λ index '(rs, cap),
        locked ← pthread_rwlock_rdlock table index;
        if negb locked then rs ← table_free_record_array rs; mret (inr rs)
        else
          '(ok, rs, cap) ← table_collect_bucket_rows_locked table index rs cap;
          if negb ok then
            pthread_rwlock_unlock table index;;
            rs ← table_free_record_array rs;
            mret (inr rs)
          else
            pthread_rwlock_unlock table index;;
            mret (inl (rs, cap))) (no_results, 0);
      match r with
      | inr rs => mret (false, rs)
      | inl (rs, _) =>
          table_sort_records_by_id (records rs) (count rs);;
          mret (true, rs)
      end
  end.

(** ** Creation and destruction *)

Definition table_destroy (table : ptr) : prog Mem unit :=
  match table with
  | None => mret tt
  | Some _ =>
      t ← load_table table;
      for_up 0 (initialized_buckets t) (λ index _,
        b ← get_bucket table index;
        for_up 0 (bkt_size b) (λ row_index _,
          b ← get_bucket table index;
          row ← array_get (rows b) row_index;
          free (T:=record) row) tt;;
        b ← get_bucket table index;
        free (T:=rec_array) (rows b);;
        set_bucket table index (with_rows None);;
        set_bucket table index (with_size 0);;
        set_bucket table index (with_capacity 0);;
        b ← get_bucket table index;
        bptree_destroy (pk_index b);;
        set_bucket table index (with_pk_index None);;
        pthread_rwlock_destroy table index) tt;;
      t ← load_table table;
      (if next_id_lock_initialized t then pthread_mutex_destroy table else mret tt);;
      free (T:=Table) table
  end.

(** What [calloc] zeroes. *)
Definition zero_bucket : TableBucket := MkBucket None None 0 0 None.
Definition zero_table : Table := MkTable 0 None false 0 (replicate TABLE_BUCKET_COUNT zero_bucket).

Definition table_create : prog Mem ptr :=
  table ← calloc zero_table;
  match table with
  | None => mret None
  | Some _ =>
      update table (with_next_id 1);;
      ok ← pthread_mutex_init table;
      if negb ok then free (T:=Table) table;; mret None
      else
        update table with_lock_initialized;;
        r ← for_until 0 TABLE_BUCKET_COUNT (λ index _,
          ok ← pthread_rwlock_init table index;
          if negb ok then table_destroy table;; mret (inr tt)
          else
            update table (with_initialized_buckets (index + 1));;
            pk ← bptree_create;
            set_bucket table index (with_pk_index pk);;
            match pk with
            | None => table_destroy table;; mret (inr tt)
            | Some _ => mret (inl tt)
            end) tt;
        match r with
        | inr _ => mret None
        | inl _ =>
            update table (with_initialized_buckets TABLE_BUCKET_COUNT);;
            mret table
        end
  end.

(** ** Insertion *)

Definition zero_record : record := MkRecord 0 [] 0.

(** [strncpy(dst, src, n); dst[n] = 0]: at most [n] bytes of the source. *)
Definition strncpy (src : cstr) (n : nat) : cstr := take n src.

(** [table->next_id++], undefined at [INT_MAX]. *)
Definition take_next_id (table : ptr) : prog Mem Z :=
  t ← load_table table;
  if decide (next_id t < INT_MAX)%Z then
    update table (with_next_id (next_id t + 1));; mret (next_id t)
  else ub.

Definition table_insert (table : ptr) (name : option cstr) (age : Z) : prog Mem ptr :=
  match table, name with
  | Some _, Some name =>
      locked ← pthread_mutex_lock table;
      if negb locked then mret None
      else
        record_id ← take_next_id table;
        pthread_mutex_unlock table;;
        let i := table_bucket_index_for_id record_id in
        locked ← pthread_rwlock_wrlock table i;
        if negb locked then mret None
        else
          ok ← table_ensure_capacity table i;
          if negb ok then pthread_rwlock_unlock table i;; mret None
          else
            r ← calloc zero_record;
            match r with
            | None => pthread_rwlock_unlock table i;; mret None
            | Some _ =>
                store r (MkRecord record_id (strncpy name (RECORD_NAME_SIZE - 1)) age);;
                b ← get_bucket table i;
                ok ← bptree_insert (pk_index b) record_id r;
                if negb ok then
                  free (T:=record) r;;
                  pthread_rwlock_unlock table i;;
                  mret None
                else
                  b ← get_bucket table i;
                  array_set (rows b) (bkt_size b) r;;
                  set_bucket table i (λ b, with_size (S (bkt_size b)) b);;
                  pthread_rwlock_unlock table i;;
                  mret r
            end
  | _, _ => mret None
  end.

(** ** Lookups *)

Definition table_find_by_id (table : ptr) (id : Z) : prog Mem ptr :=
  match table with
  | None => mret None
  | Some _ =>
      let i := table_bucket_index_for_id id in
      locked ← pthread_rwlock_rdlock table i;
      if negb locked then mret None
      else
        b ← get_bucket table i;
        r ← bptree_search (pk_index b) id;
        pthread_rwlock_unlock table i;;
        mret r
  end.

Definition table_scan_by_id (table : ptr) (id : Z) : prog Mem ptr :=
  match table with
  | None => mret None
  | Some _ =>
      r ← for_until 0 TABLE_BUCKET_COUNT (λ bucket_index _,
        locked ← pthread_rwlock_rdlock table bucket_index;
        if negb locked then mret (inr None)
        else
          b ← get_bucket table bucket_index;
          r ← for_until 0 (bkt_size b) (λ row_index _,
            b ← get_bucket table bucket_index;
            row ← array_get (rows b) row_index;
            r ← load_record row;
            if decide (rec_id r = id) then
              b ← get_bucket table bucket_index;
              row ← array_get (rows b) row_index;
              pthread_rwlock_unlock table bucket_index;;
              mret (inr row)
            else mret (inl tt)) tt;
          match r with
          | inr row => mret (inr row)
          | inl _ => pthread_rwlock_unlock table bucket_index;; mret (inl tt)
          end) tt;
      match r with inr row => mret row | inl _ => mret None end
  end.

Definition table_collect_all (table : ptr) (rs : results) : prog Mem (bool * results) :=
  table_collect_all_sorted table rs.

(** The loop the three searches share: append the records that satisfy [test]. *)
Definition append_matching (test : record → bool) (all : results) (rs : results) :
    prog Mem (results + results) :=
  r ← for_until 0 (count all) (λ index '(rs, cap),
    row ← array_get (records all) index;
    r ← load_record row;
    if test r then
      row ← array_get (records all) index;
      '(ok, rs, cap) ← table_append_record rs cap row;
      if negb ok then
        free (T:=rec_array) (records all);;
        rs ← table_free_record_array rs;
        mret (inr rs)
      else mret (inl (rs, cap))
    else mret (inl (rs, cap))) (rs, 0);
  match r with
  | inr rs => mret (inr rs)
  | inl (rs, _) => free (T:=rec_array) (records all);; mret (inl rs)
  end.

(** [1] and [0] with the results. *)
Definition status (r : results + results) : bool * results :=
  match r with inl rs => (true, rs) | inr rs => (false, rs) end.

Definition table_find_by_name_matches (table : ptr) (name : option cstr) (rs : results) :
    prog Mem (bool * results) :=
  match table, name with
  | Some _, Some name =>
      '(ok, all) ← table_collect_all_sorted table no_results;
      if negb ok then mret (false, rs)
      else
        r ← append_matching (λ r, bool_decide (rec_name r = name)) all no_results;
        mret (status r)
  | _, _ => mret (false, rs)
  end.

Definition table_find_by_id_condition (table : ptr) (comparison : TableComparison) (id : Z)
    (rs : results) : prog Mem (bool * results) :=
  match table with
  | None => mret (false, rs)
  | Some _ =>
      if decide (comparison = TABLE_COMPARISON_EQ) then
        r ← table_find_by_id table id;
        match r with
        | None => mret (true, no_results)
        | Some _ => '(ok, rs, _) ← table_append_record no_results 0 r; mret (ok, rs)
        end
      else
        '(ok, all) ← table_collect_all_sorted table no_results;
        if negb ok then mret (false, no_results)
        else
          r ← append_matching (λ r, table_compare_int (rec_id r) comparison id) all no_results;
          mret (status r)
  end.

Definition table_find_by_age_condition (table : ptr) (comparison : TableComparison) (age : Z)
    (rs : results) : prog Mem (bool * results) :=
  match table with
  | None => mret (false, rs)
  | Some _ =>
      '(ok, all) ← table_collect_all_sorted table no_results;
      if negb ok then mret (false, no_results)
      else
        r ← append_matching (λ r, table_compare_int (rec_age r) comparison age) all no_results;
        mret (status r)
  end.

(** The first match, and the array freed. *)
Definition first_match (rs : results) : prog Mem ptr :=
  r ← (if decide (0 < count rs) then array_get (records rs) 0 else mret None);
  free (T:=rec_array) (records rs);;
  mret r.

Definition table_find_by_name (table : ptr) (name : option cstr) : prog Mem ptr :=
  match table, name with
  | Some _, Some _ =>
      '(ok, rs) ← table_find_by_name_matches table name no_results;
      if negb ok then mret None else first_match rs
  | _, _ => mret None
  end.

Definition table_find_by_age (table : ptr) (age : Z) : prog Mem ptr :=
  match table with
  | None => mret None
  | Some _ =>
      '(ok, rs) ← table_find_by_age_condition table TABLE_COMPARISON_EQ age no_results;
      if negb ok then mret None else first_match rs
  end.

(** ** Printing *)

Definition emit (s : cstr) : prog Mem unit := modify (λ m, set_out (m_out m ++ s) m).

(** [id=%d, name='%s', age=%d\n] *)
Definition record_line (r : record) : cstr :=
  lit "id=" ++ print_dec (rec_id r) ++ lit ", name='" ++ rec_name r ++ lit "', age=" ++
  print_dec (rec_age r) ++ [newline].

Definition table_print_record (r : ptr) : prog Mem unit :=
  match r with None => mret tt | Some _ => r ← load_record r; emit (record_line r) end.

Definition table_print_records (p : ptr) (row_count : nat) : prog Mem nat :=
  match p with
  | None => mret 0
  | Some _ =>
      for_up 0 row_count (λ index _, r ← array_get p index; table_print_record r) tt;;
      mret row_count
  end.

Definition table_print_all (table : ptr) : prog Mem nat :=
  match table with
  | None => mret 0
  | Some _ =>
      '(ok, rs) ← table_collect_all_sorted table no_results;
      if negb ok then mret 0
      else
        printed ← table_print_records (records rs) (count rs);
        free (T:=rec_array) (records rs);;
        mret printed
  end.
