(* ===== verification/TableMem.v ===== *)
(** Proof rules of the table's building blocks: access to a bucket, its locks,
    and the growable result arrays, for every outcome of the library calls. *)
From stdpp Require Import base list gmap sorting strings.
From Stdlib Require Import ZArith Lia.
From S2P Require Import Prelude Memory CLib BPTree Table.

(** ** The table in memory *)

Definition put_table (tb : loc) (t : Table) (m : Mem) : Mem :=
  set_tables (<[tb := t]> (m_tables m)) m.

Definition upd_bucket (i : nat) (b : TableBucket) (t : Table) : Table :=
  with_buckets (<[i := b]> (buckets t)) t.

Lemma put_table_twice tb t t' m : put_table tb t (put_table tb t' m) = put_table tb t m.
Proof. unfold put_table, set_tables. simpl. by rewrite insert_insert_eq. Qed.

Lemma put_table_same tb t m : m_tables m !! tb = Some t → put_table tb t m = m.
Proof. intros. unfold put_table, set_tables. destruct m; simpl in *. by rewrite insert_id. Qed.

Lemma put_table_lookup tb t m : m_tables (put_table tb t m) !! tb = Some t.
Proof. apply lookup_insert_eq. Qed.

Lemma upd_bucket_twice i b b' t : upd_bucket i b (upd_bucket i b' t) = upd_bucket i b t.
Proof. unfold upd_bucket, with_buckets. simpl. by rewrite list_insert_insert_eq. Qed.

Lemma upd_bucket_same i b t : buckets t !! i = Some b → upd_bucket i b t = t.
Proof. intros. unfold upd_bucket, with_buckets. rewrite list_insert_id by done. by destruct t. Qed.

Lemma upd_bucket_lookup i b b0 t : buckets t !! i = Some b0 → buckets (upd_bucket i b t) !! i = Some b.
Proof. intros H. simpl. apply list_lookup_insert_eq. by eapply lookup_lt_Some. Qed.

Lemma wp_load_table tb t (Q : Table → Mem → Prop) m :
  m_tables m !! tb = Some t → Q t m → wp (load_table (Some tb)) Q m.
Proof. apply (@wp_load _ heap_tables). Qed.

Lemma wp_update_table tb t f (Q : unit → Mem → Prop) m :
  m_tables m !! tb = Some t → Q tt (put_table tb (f t) m) → wp (update (Some tb) f) Q m.
Proof. intros Hl HQ. by apply (@wp_update _ heap_tables _ t). Qed.

Lemma wp_load_record l r (Q : record → Mem → Prop) m :
  m_recs m !! l = Some r → Q r m → wp (load_record (Some l)) Q m.
Proof. apply (@wp_load _ heap_recs). Qed.

(** [bucket_is tb i t b m]: bucket [i] of the table [t] at [tb] is [b]. *)
Definition bucket_is (tb : loc) (i : nat) (t : Table) (b : TableBucket) (m : Mem) : Prop :=
  m_tables m !! tb = Some t ∧ buckets t !! i = Some b.

Lemma bucket_is_put tb i t b b' m :
  bucket_is tb i t b m → bucket_is tb i (upd_bucket i b' t) b' (put_table tb (upd_bucket i b' t) m).
Proof. intros [Ht Hb]. split; [apply put_table_lookup|by eapply upd_bucket_lookup]. Qed.

Lemma wp_get_bucket tb i t b (Q : TableBucket → Mem → Prop) m :
  bucket_is tb i t b m → Q b m → wp (get_bucket (Some tb) i) Q m.
Proof.
  intros [Ht Hb] HQ. apply wp_bind. eapply wp_load_table; [done|]. by eapply wp_aget.
Qed.

Lemma wp_set_bucket tb i t b f (Q : unit → Mem → Prop) m :
  bucket_is tb i t b m → Q tt (put_table tb (upd_bucket i (f b) t) m) →
  wp (set_bucket (Some tb) i f) Q m.
Proof.
  intros [Ht Hb] HQ. apply wp_bind. eapply wp_load_table; [done|].
  apply wp_bind. eapply wp_aget; [done|]. apply wp_bind, wp_aset; [by eapply lookup_lt_Some|].
  by eapply (@wp_store _ heap_tables).
Qed.

(** ** Locks *)

Definition unlocked : option rwlock := Some (MkRWLock 0 false).
Definition read_locked : option rwlock := Some (MkRWLock 1 false).
Definition write_locked : option rwlock := Some (MkRWLock 0 true).

Lemma with_lock_same b k : bkt_lock b = k → with_lock k b = b.
Proof. intros <-. by destruct b. Qed.

Lemma wp_rdlock tb i t b (Q : bool → Mem → Prop) m :
  bucket_is tb i t b m → bkt_lock b = unlocked →
  (if next_call m
   then Q true (put_table tb (upd_bucket i (with_lock read_locked b) t) (env_tail m))
   else Q false (env_tail m)) →
  wp (pthread_rwlock_rdlock (Some tb) i) Q m.
Proof.
  intros Hb Hk HQ. apply wp_bind. eapply wp_get_bucket; [done|]. rewrite Hk. cbn [unlocked writer].
  apply wp_bind, wp_lib_call. fold (next_call m). destruct (next_call m); [|done].
  apply wp_bind. eapply wp_set_bucket; [exact Hb|done].
Qed.

Lemma wp_wrlock tb i t b (Q : bool → Mem → Prop) m :
  bucket_is tb i t b m → bkt_lock b = unlocked →
  (if next_call m
   then Q true (put_table tb (upd_bucket i (with_lock write_locked b) t) (env_tail m))
   else Q false (env_tail m)) →
  wp (pthread_rwlock_wrlock (Some tb) i) Q m.
Proof.
  intros Hb Hk HQ. apply wp_bind. eapply wp_get_bucket; [done|]. rewrite Hk.
  cbn [unlocked writer readers]. rewrite decide_False by naive_solver.
  apply wp_bind, wp_lib_call. fold (next_call m). destruct (next_call m); [|done].
  apply wp_bind. eapply wp_set_bucket; [exact Hb|done].
Qed.

Lemma wp_unlock tb i t b (Q : unit → Mem → Prop) m :
  bucket_is tb i t b m → bkt_lock b = read_locked ∨ bkt_lock b = write_locked →
  Q tt (put_table tb (upd_bucket i (with_lock unlocked b) t) m) →
  wp (pthread_rwlock_unlock (Some tb) i) Q m.
Proof.
  intros Hb Hk HQ. apply wp_bind. eapply wp_get_bucket; [done|].
  destruct Hk as [-> | ->]; cbn [read_locked write_locked]; by eapply wp_set_bucket.
Qed.

(** ** Growable arrays *)

Definition arrays_bounded (m : Mem) : Prop :=
  ∀ a, is_Some (m_arrays m !! a) → (a < m_next m)%positive.

(** The memory [m] with the array [arr] at [a] added and some library calls made. *)
Definition with_array (a : ptr) (arr : rec_array) (n : loc) (e : list bool) (m : Mem) : Mem :=
  set_env e (set_next n (set_arrays
    (match a with None => m_arrays m | Some a => <[a := arr]> (m_arrays m) end) m)).

(** [growing m rs cap ps m']: since [m], the only effect was to build the result
    array [rs], of capacity [cap], which holds the pointers [ps]. *)
Definition growing (m : Mem) (rs : results) (cap : nat) (ps : list ptr) (m' : Mem) : Prop :=
  ∃ n arr e, m' = with_array (records rs) arr n e m ∧ e `suffix_of` m_env m ∧
    (m_next m ≤ n)%positive ∧ count rs = length ps ∧ length ps ≤ cap ∧ length arr = cap ∧
    take (length ps) arr = Some <$> ps ∧
    match records rs with None => cap = 0 | Some a => m_arrays m !! a = None ∧ (a < n)%positive end.

(** [spent m m']: the only effect was to make library calls and to advance the
    allocation counter. *)
Definition spent (m m' : Mem) : Prop := growing m no_results 0 [] m'.

Lemma spent_spec m m' :
  spent m m' ↔ ∃ n e, m' = set_env e (set_next n m) ∧ e `suffix_of` m_env m ∧ (m_next m ≤ n)%positive.
Proof.
  split.
  - intros (n & arr & e & -> & He & Hn & _). exists n, e. by destruct m.
  - intros (n & e & -> & He & Hn). exists n, [], e. by destruct m.
Qed.

Lemma spent_refl m : spent m m.
Proof. apply spent_spec. exists (m_next m), (m_env m). split_and!; [by destruct m|done|done]. Qed.

Lemma growing_refl m : growing m no_results 0 [] m.
Proof. apply spent_refl. Qed.

Lemma env_tail_suffix m : m_env (env_tail m) `suffix_of` m_env m.
Proof. simpl. destruct (m_env m) as [|b e]; [done|]. by exists [b]. Qed.

Lemma growing_env_tail m rs cap ps m' : growing m rs cap ps m' → growing m rs cap ps (env_tail m').
Proof.
  intros (n & arr & e & -> & He & H). exists n, arr, (tail e). split_and!; try apply H; [by destruct m|].
  etrans; [|exact He]. destruct e as [|b e]; [done|]. by exists [b].
Qed.

Lemma growing_no_failure m rs cap ps m' : growing m rs cap ps m' → no_failure m → no_failure m'.
Proof.
  intros (n & arr & e & -> & [k He] & _) Hm. unfold no_failure in *. rewrite Hm in He. simpl.
  by destruct k, e.
Qed.

Lemma next_call_ok m : no_failure m → next_call m = true.
Proof. unfold no_failure, next_call. by intros ->. Qed.

Lemma growing_array m rs cap ps m' a :
  growing m rs cap ps m' → records rs = Some a →
  ∃ arr, m_arrays m' !! a = Some arr ∧ length arr = cap ∧ take (length ps) arr = Some <$> ps.
Proof.
  intros (n & arr & e & -> & _ & _ & _ & _ & Hl & Hps & _) Ha. rewrite Ha. exists arr.
  split; [apply lookup_insert_eq|done].
Qed.

Lemma wp_array_get a arr i x (Q : ptr → Mem → Prop) m :
  m_arrays m !! a = Some arr → arr !! i = Some (Some x) → Q x m → wp (array_get (Some a) i) Q m.
Proof.
  intros Ha Hx HQ. apply wp_bind. eapply (@wp_load _ heap_arrays); [done|]. by eapply wp_tget.
Qed.

Lemma growing_get m rs cap ps m' i p (Q : ptr → Mem → Prop) :
  growing m rs cap ps m' → ps !! i = Some p → Q p m' → wp (array_get (records rs) i) Q m'.
Proof.
  intros Hg Hi HQ. destruct (records rs) as [a|] eqn:Ha.
  - destruct (growing_array _ _ _ _ _ _ Hg Ha) as (arr & Harr & _ & Hps).
    eapply wp_array_get; [done| |done]. apply (lookup_take_Some _ (length ps)).
    by rewrite Hps, list_lookup_fmap, Hi.
  - destruct Hg as (n & arr & e & _ & _ & _ & _ & Hcap & _ & _ & H). rewrite Ha in H. subst.
    apply lookup_lt_Some in Hi. lia.
Qed.

(** Writing the next slot. *)
Lemma growing_push m rs cap ps m' p a (Q : unit → Mem → Prop) :
  growing m rs cap ps m' → records rs = Some a → length ps < cap →
  (∀ m'', growing m (MkResults (Some a) (S (count rs))) cap (ps ++ [p]) m'' → Q tt m'') →
  wp (array_set (Some a) (count rs) p) Q m'.
Proof.
  intros (n & arr & e & -> & He & Hn & Hc & Hcap & Hl & Hps & Ha) Hrs Hlt HQ.
  rewrite Hrs in *. destruct Ha as [Ha Han]. apply wp_bind. eapply (@wp_load _ heap_arrays); [apply lookup_insert_eq|].
  apply wp_bind, wp_aset; [lia|]. eapply (@wp_store _ heap_arrays); [apply lookup_insert_eq|].
  apply HQ. exists n, (<[count rs := Some p]> arr), e. rewrite length_app, length_insert. simpl.
  split_and!; try done; try lia.
  - unfold with_array, set_env, set_next, set_arrays. simpl. by rewrite insert_insert_eq.
  - rewrite Hc. replace (length ps + 1) with (S (length ps)) by lia.
    rewrite (take_S_r _ _ (Some p)) by (apply list_lookup_insert_eq; lia).
    rewrite take_insert_ge by done. by rewrite Hps, fmap_app.
Qed.

Lemma array_fresh m a : arrays_bounded m → (m_next m ≤ a)%positive → m_arrays m !! a = None.
Proof.
  intros Hb Ha. destruct (m_arrays m !! a) eqn:Hx; [|done].
  assert (a < m_next m)%positive by (apply Hb; by rewrite Hx). lia.
Qed.

Lemma growing_realloc m rs cap ps m' cap' (Q : ptr → Mem → Prop) :
  arrays_bounded m → growing m rs cap ps m' → length ps ≤ cap' →
  (∀ m'', ¬ no_failure m → growing m rs cap ps m'' → Q None m'') →
  (∀ a m'', growing m (MkResults (Some a) (count rs)) cap' ps m'' → Q (Some a) m'') →
  wp (realloc_array (records rs) cap') Q m'.
Proof.
  intros Hb Hg Hcap Hnull Hok. unfold realloc_array. apply wp_bind, wp_lib_call. fold (next_call m').
  destruct (next_call m') eqn:Hcall.
  2:{ apply Hnull; [|by apply growing_env_tail]. intros Hm.
      by rewrite next_call_ok in Hcall by (by eapply growing_no_failure). }
  clear Hnull. apply growing_env_tail in Hg. generalize (env_tail m') Hg. clear m' Hg Hcall.
  intros m' (n & arr & e & -> & He & Hn & Hc & Hcap' & Hl & Hps & Ha).
  assert (∀ old, take (length ps) old = Some <$> ps → ∃ new,
    take cap' old ++ replicate (cap' - length old) None = new ∧ length new = cap' ∧
    take (length ps) new = Some <$> ps) as Hnew.
  { intros old Hold. eexists; split; [done|]. rewrite length_app, length_take, length_replicate.
    assert (length ps ≤ length old).
    { apply (f_equal length) in Hold. rewrite length_take, length_fmap in Hold. lia. }
    split; [lia|]. rewrite take_app_le by (rewrite length_take; lia).
    by rewrite take_take, Nat.min_l by lia. }
  apply wp_bind. destruct (records rs) as [a|] eqn:Hrs.
  - destruct Ha as [Ha Han]. eapply (@wp_load _ heap_arrays); [apply lookup_insert_eq|]. apply wp_bind.
    destruct (Hnew arr Hps) as (new & -> & Hnl & Hnp). unfold wpx at 1, fresh_block.
    simpl m_next. apply wp_bind. eapply (@wp_free _ heap_arrays).
    { simpl. rewrite lookup_insert_ne by lia. apply lookup_insert_eq. }
    apply wp_ret, Hok. exists (Pos.succ n), new, e. simpl records. simpl count.
    assert (m_arrays m !! n = None) as Hfresh by by apply array_fresh.
    split_and!; try done; try lia.
    unfold with_array, set_env, set_next, set_arrays. simpl. f_equal.
    by rewrite delete_insert_ne, delete_insert_id by (done || lia).
  - apply wp_ret, wp_bind. destruct (Hnew []) as (new & -> & Hnl & Hnp).
    { destruct ps; [done|]. subst cap. simpl in Hcap'. lia. }
    unfold wpx at 1, fresh_block. simpl m_next. apply wp_bind, (@wp_free_null _ heap_arrays).
    assert (m_arrays m !! n = None) as Hfresh by by apply array_fresh.
    apply wp_ret, Hok. exists (Pos.succ n), new, e. simpl records. simpl count.
    split_and!; try done; lia.
Qed.

Lemma grow_lt cap : cap < grow cap.
Proof. unfold grow. case_decide; lia. Qed.

(** [table_append_record] appends, or fails and leaves the array as it was. *)
Lemma growing_append m rs cap ps m' p (Q : bool * results * nat → Mem → Prop) :
  arrays_bounded m → growing m rs cap ps m' →
  (∀ m'', ¬ no_failure m → growing m rs cap ps m'' → Q (false, rs, cap) m'') →
  (∀ rs' cap' m'', growing m rs' cap' (ps ++ [p]) m'' → Q (true, rs', cap') m'') →
  wp (table_append_record rs cap p) Q m'.
Proof.
  intros Hb Hg Hno Hyes. pose proof Hg as (n & arr & e & _ & _ & _ & Hc & Hle & _ & _ & Hrs).
  unfold table_append_record. case_decide as Hroom.
  - apply wp_bind. destruct (records rs) as [a|] eqn:Ha; [|lia].
    eapply growing_push; [done..|lia|]. intros m'' H. by apply wp_ret, Hyes.
  - apply wp_bind. pose proof (grow_lt cap). eapply growing_realloc; [done..|lia| |].
    + intros m'' Hm Hg'. by apply wp_ret, Hno.
    + intros a m'' Hg'. apply wp_bind.
      eapply (growing_push _ (MkResults (Some a) (count rs))); [exact Hg'|done|lia|].
      intros m3 H3. by apply wp_ret, Hyes.
Qed.

Lemma growing_free m rs cap ps m' (Q : unit → Mem → Prop) :
  arrays_bounded m → growing m rs cap ps m' →
  (∀ m'', spent m m'' → Q tt m'') → wp (free (T:=rec_array) (records rs)) Q m'.
Proof.
  intros Hb (n & arr & e & -> & He & Hn & _ & _ & _ & _ & Ha) HQ.
  destruct (records rs) as [a|].
  - eapply (@wp_free _ heap_arrays); [apply lookup_insert_eq|]. apply HQ, spent_spec.
    exists n, e. split_and!; try done. unfold with_array, set_env, set_next, set_arrays. simpl.
    by rewrite delete_insert_id by apply Ha.
  - apply (@wp_free_null _ heap_arrays), HQ, spent_spec. exists n, e. by split_and!; [destruct m|..].
Qed.

Lemma growing_free_array m rs cap ps m' (Q : results → Mem → Prop) :
  arrays_bounded m → growing m rs cap ps m' →
  (∀ m'', spent m m'' → Q no_results m'') → wp (table_free_record_array rs) Q m'.
Proof.
  intros Hb Hg HQ. apply wp_bind. eapply growing_free; [done..|]. intros m'' H. by apply wp_ret, HQ.
Qed.

(** Growing an array and changing the table commute. *)
Lemma growing_put_table tb t m rs cap ps m' :
  growing m rs cap ps m' → growing (put_table tb t m) rs cap ps (put_table tb t m').
Proof.
  intros (n & arr & e & -> & H). exists n, arr, e. split; [|exact H].
  by destruct (records rs).
Qed.

Lemma growing_tables m rs cap ps m' : growing m rs cap ps m' → m_tables m' = m_tables m.
Proof. by intros (n & arr & e & -> & _). Qed.
Lemma growing_recs m rs cap ps m' : growing m rs cap ps m' → m_recs m' = m_recs m.
Proof. by intros (n & arr & e & -> & _). Qed.
Lemma growing_nodes m rs cap ps m' : growing m rs cap ps m' → m_nodes m' = m_nodes m.
Proof. by intros (n & arr & e & -> & _). Qed.
Lemma growing_trees m rs cap ps m' : growing m rs cap ps m' → m_trees m' = m_trees m.
Proof. by intros (n & arr & e & -> & _). Qed.

Lemma growing_old_array m rs cap ps m' a arr :
  arrays_bounded m → growing m rs cap ps m' → m_arrays m !! a = Some arr → m_arrays m' !! a = Some arr.
Proof.
  intros Hb (n & arr' & e & -> & _ & _ & _ & _ & _ & _ & Hrs) Ha.
  destruct (records rs) as [a'|]; [|done]. simpl. rewrite lookup_insert_ne; [done|].
  intros ->. destruct Hrs as [Hrs _]. congruence.
Qed.

Lemma arrays_bounded_put tb t m : arrays_bounded m → arrays_bounded (put_table tb t m).
Proof. done. Qed.

Lemma growing_bounded m rs cap ps m' :
  arrays_bounded m → growing m rs cap ps m' → arrays_bounded m'.
Proof.
  intros Hb (n & arr & e & -> & _ & Hn & _ & _ & _ & _ & Hrs) a. simpl.
  assert (is_Some (m_arrays m !! a) → (a < n)%positive) as Hold by (intros H%Hb; lia).
  destruct (records rs) as [a'|]; [|done]. rewrite lookup_insert. case_decide; [subst; lia|done].
Qed.

Lemma growing_trans m all capA psA m1 rs cap ps m2 :
  growing m all capA psA m1 → growing m1 rs cap ps m2 → m_env m2 `suffix_of` m_env m.
Proof.
  intros (n & arr & e & -> & He & _) (n' & arr' & e' & -> & He' & _). simpl in *. by etrans.
Qed.

(** Freeing an older array below a newer one. *)
Lemma growing_drop m all capA psA m1 rs cap ps m2 (Q : unit → Mem → Prop) :
  growing m all capA psA m1 → growing m1 rs cap ps m2 →
  (∀ m3, growing m rs cap ps m3 → Q tt m3) → wp (free (T:=rec_array) (records all)) Q m2.
Proof.
  intros Hg1 Hg2 HQ. pose proof (growing_trans _ _ _ _ _ _ _ _ _ Hg1 Hg2) as Henv.
  destruct Hg1 as (n & arr & e & -> & _ & Hn & _ & _ & _ & _ & Ha).
  destruct Hg2 as (n' & arr' & e' & -> & _ & Hn' & Hc & Hle & Hl & Hps & Ha'). simpl in *.
  assert (match records rs with None => cap = 0 | Some a => m_arrays m !! a = None ∧ (a < n')%positive end) as Hrs.
  { destruct (records rs) as [a'|]; [|done]. destruct Ha' as [Ha' ?]. split; [|done].
    destruct (records all); [|done]. by apply lookup_insert_None in Ha' as [? _]. }
  assert (growing m rs cap ps (with_array (records rs) arr' n' e' m)) as Hres.
  { exists n', arr', e'. split_and!; try done. lia. }
  destruct (records all) as [a|].
  - destruct (records rs) as [a'|].
    + destruct Ha' as [[Ha' Hne]%lookup_insert_None _]. eapply (@wp_free _ heap_arrays).
      { simpl. rewrite lookup_insert_ne by done. apply lookup_insert_eq. }
      apply HQ. revert Hres. unfold with_array, set_env, set_next, set_arrays. simpl.
      rewrite delete_insert_ne by done. by rewrite delete_insert_id by apply Ha.
    + eapply (@wp_free _ heap_arrays); [apply lookup_insert_eq|]. apply HQ.
      revert Hres. unfold with_array, set_env, set_next, set_arrays. simpl.
      by rewrite delete_insert_id by apply Ha.
  - apply (@wp_free_null _ heap_arrays), HQ. destruct (records rs); done.
Qed.

Lemma growing_failure m rs cap ps m' : growing m rs cap ps m' → ¬ no_failure m' → ¬ no_failure m.
Proof. intros Hg Hm' Hm. by eapply Hm', growing_no_failure. Qed.
