(* ===== verification/TableRep.v ===== *)
(** The abstract state of the users table and the relation that says how memory
    holds it: buckets of rows, each with its array, its index and its lock, and
    nothing shared between them or with the rest of the memory. *)
From stdpp Require Import base list gmap sorting strings.
From Stdlib Require Import ZArith Lia.
From S2P Require Import Prelude Memory CLib BPTree Index Table TableMem.

(** ** The abstract state *)

(** A stored row: its address and its record. *)
Abbreviation row := (loc * record)%type.
Definition row_id (r : row) : Z := rec_id r.2.

Record table_state := MkState { st_next : Z; st_buckets : list (list row) }.

Definition all_rows (st : table_state) : list row := concat (st_buckets st).

(** The table as a finite map from ids. *)
Definition rows_map (rws : list row) : gmap Z row := list_to_map ((λ r, (row_id r, r)) <$> rws).
Definition table_map (st : table_state) : gmap Z row := rows_map (all_rows st).

(** What the B+ tree of a bucket holds. *)
Definition index_map (rws : list row) : gmap Z ptr := (λ r, Some r.1) <$> rows_map rws.

Definition empty_state : table_state := MkState 1 (replicate TABLE_BUCKET_COUNT []).

Definition add_row (r : row) (st : table_state) : table_state :=
  let i := table_bucket_index_for_id (row_id r) in
  MkState (st_next st) (<[i := default [] (st_buckets st !! i) ++ [r]]> (st_buckets st)).
Definition bump_id (st : table_state) : table_state := MkState (st_next st + 1) (st_buckets st).

(** ** Cells *)

(** What the five heaps hold at an address. *)
Definition cell (m : Mem) (x : loc) :=
  (m_nodes m !! x, m_trees m !! x, m_recs m !! x, m_tables m !! x, m_arrays m !! x).
Definition no_cell : option BPTreeNode * option BPTree * option record * option Table * option rec_array :=
  (None, None, None, None, None).

(** Nothing lives at or above the allocation counter. *)
Definition mem_bounded (m : Mem) : Prop := ∀ x, (m_next m ≤ x)%positive → cell m x = no_cell.

Lemma mem_bounded_arrays m : mem_bounded m → arrays_bounded m.
Proof.
  intros Hb a [arr Ha]. destruct (decide (m_next m ≤ a)%positive) as [Hle|]; [|lia].
  apply Hb in Hle. unfold cell, no_cell in Hle. congruence.
Qed.

Lemma mem_bounded_nodes m : mem_bounded m → nodes_bounded m.
Proof.
  intros Hb a [arr Ha]. destruct (decide (m_next m ≤ a)%positive) as [Hle|]; [|lia].
  apply Hb in Hle. unfold cell, no_cell in Hle. congruence.
Qed.

(** ** Representation *)

(** The heap structures of one bucket. *)
Record footprint := MkFp { fp_array : ptr; fp_tree : loc; fp_nodes : list loc }.

Record fp_disjoint (a b : footprint) : Prop := {
  fd_array x : fp_array a = Some x → fp_array b ≠ Some x;
  fd_tree : fp_tree a ≠ fp_tree b;
  fd_nodes x : x ∈ fp_nodes a → x ∉ fp_nodes b
}.

(** [owns P h0 h]: the part [P] of the heap [h] is not in [h0], the rest is [h0]. *)
Definition owns {T} (P : loc → Prop) (h0 h : gmap loc T) : Prop :=
  ∀ x, (P x → h0 !! x = None) ∧ (¬ P x → h !! x = h0 !! x).

Section rep.
Context {KI : KeyIndex}.

Definition row_ok (nid : Z) (i : nat) (m : Mem) (r : row) : Prop :=
  m_recs m !! r.1 = Some r.2 ∧ table_bucket_index_for_id (row_id r) = i ∧ (1 ≤ row_id r < nid)%Z.

Definition array_holds (a : ptr) (rws : list row) (cap : nat) (m : Mem) : Prop :=
  length rws ≤ cap ∧
  match a with
  | None => cap = 0
  | Some a => ∃ arr, m_arrays m !! a = Some arr ∧ length arr = cap ∧
      take (length rws) arr = (λ r, Some (Some r.1)) <$> rws
  end.

(** The bucket structure, whatever its lock. *)
Definition bucket_at (nid : Z) (i : nat) (b : TableBucket) (rws : list row) (fp : footprint)
    (m : Mem) : Prop :=
  bkt_size b = length rws ∧ rows b = fp_array fp ∧ array_holds (fp_array fp) rws (capacity b) m ∧
  pk_index b = Some (fp_tree fp) ∧ index_at (fp_tree fp) (index_map rws) (fp_nodes fp) m ∧
  NoDup (row_id <$> rws) ∧ Forall (row_ok nid i m) rws.

Definition disjoint_fps (fps : list footprint) : Prop :=
  ∀ i j a b, fps !! i = Some a → fps !! j = Some b → i ≠ j → fp_disjoint a b.

(** [table_inv tb st t fps m0 m]: memory [m] holds the table [t] at [tb] in
    state [st], and apart from what the table owns it is the memory [m0]. *)
Record table_inv (tb : loc) (st : table_state) (t : Table) (fps : list footprint) (m0 m : Mem) : Prop := {
  ti_table : m_tables m !! tb = Some t;
  ti_next : next_id t = st_next st;
  ti_next_range : (1 ≤ st_next st ≤ INT_MAX)%Z;
  ti_mutex : next_id_lock t = Some false;
  ti_mutex_init : next_id_lock_initialized t = true;
  ti_init : initialized_buckets t = TABLE_BUCKET_COUNT;
  ti_len : length (buckets t) = TABLE_BUCKET_COUNT;
  ti_len_st : length (st_buckets st) = TABLE_BUCKET_COUNT;
  ti_len_fp : length fps = TABLE_BUCKET_COUNT;
  ti_buckets i b rws fp : buckets t !! i = Some b → st_buckets st !! i = Some rws →
    fps !! i = Some fp → bkt_lock b = unlocked ∧ bucket_at (st_next st) i b rws fp m;
  ti_disjoint : disjoint_fps fps;
  ti_bounded : mem_bounded m;
  ti_nodes : owns (λ x, ∃ fp, fp ∈ fps ∧ x ∈ fp_nodes fp) (m_nodes m0) (m_nodes m);
  ti_trees : owns (λ x, ∃ fp, fp ∈ fps ∧ fp_tree fp = x) (m_trees m0) (m_trees m);
  ti_arrays : owns (λ x, ∃ fp, fp ∈ fps ∧ fp_array fp = Some x) (m_arrays m0) (m_arrays m);
  ti_recs : owns (λ x, x ∈ (all_rows st).*1) (m_recs m0) (m_recs m);
  ti_tables : owns (λ x, x = tb) (m_tables m0) (m_tables m)
}.

Definition table_at (tb : loc) (st : table_state) (m0 m : Mem) : Prop :=
  ∃ t fps, table_inv tb st t fps m0 m.

(** The three lists of a table are in step. *)
Lemma ti_bucket tb st t fps m0 m i :
  table_inv tb st t fps m0 m → i < TABLE_BUCKET_COUNT →
  ∃ b rws fp, buckets t !! i = Some b ∧ st_buckets st !! i = Some rws ∧ fps !! i = Some fp ∧
    bucket_is tb i t b m ∧ bkt_lock b = unlocked ∧ bucket_at (st_next st) i b rws fp m.
Proof.
  intros Hinv Hi. pose proof Hinv as [].
  destruct (lookup_lt_is_Some_2 (buckets t) i) as [b Hb]; [lia|].
  destruct (lookup_lt_is_Some_2 (st_buckets st) i) as [rws Hr]; [lia|].
  destruct (lookup_lt_is_Some_2 fps i) as [fp Hf]; [lia|].
  exists b, rws, fp. split_and!; try done; by eapply ti_buckets0.
Qed.

(** ** Rows and ids *)

Lemma bucket_index_lt id : table_bucket_index_for_id id < TABLE_BUCKET_COUNT.
Proof.
  unfold table_bucket_index_for_id, c_rem, TABLE_BUCKET_COUNT. simpl Z.of_nat.
  pose proof (Z.rem_bound_abs id 16 ltac:(lia)) as Hb. case_decide; lia.
Qed.

Lemma ti_row tb st t fps m0 m i rws r :
  table_inv tb st t fps m0 m → st_buckets st !! i = Some rws → r ∈ rws → row_ok (st_next st) i m r.
Proof.
  intros Hinv Hi Hr. assert (i < TABLE_BUCKET_COUNT) as Hlt.
  { apply lookup_lt_Some in Hi. by rewrite (ti_len_st _ _ _ _ _ _ Hinv) in Hi. }
  destruct (ti_bucket _ _ _ _ _ _ _ Hinv Hlt) as (b & rws' & fp & _ & Hst & _ & _ & _ & Hb).
  rewrite Hi in Hst. injection Hst as <-. destruct Hb as (_ & _ & _ & _ & _ & _ & Hall).
  rewrite Forall_forall in Hall. by apply Hall.
Qed.

Lemma elem_of_all_rows r st : r ∈ all_rows st ↔ ∃ i rws, st_buckets st !! i = Some rws ∧ r ∈ rws.
Proof.
  unfold all_rows. rewrite <- (map_id (st_buckets st)) at 1. rewrite elem_of_concat_map. split.
  - intros (rws & [i Hi]%list_elem_of_lookup & Hr). eauto.
  - intros (i & rws & Hi & Hr). exists rws. split; [by eapply list_elem_of_lookup_2|done].
Qed.

Lemma NoDup_concat_ids (bs : list (list row)) (k : nat) :
  (∀ i rws, bs !! i = Some rws → NoDup (row_id <$> rws) ∧
     ∀ r, r ∈ rws → table_bucket_index_for_id (row_id r) = k + i) →
  NoDup (row_id <$> concat bs).
Proof.
  revert k. induction bs as [|rws bs IH]; intros k H; simpl; [constructor|].
  rewrite fmap_app. apply NoDup_app. destruct (H 0 rws eq_refl) as [Hnd Hk].
  split_and!; [done| |].
  - intros id (r & -> & Hr)%list_elem_of_fmap (r' & Heq & Hr')%list_elem_of_fmap.
    rewrite <- (map_id bs), elem_of_concat_map in Hr'. destruct Hr' as (rws' & [i Hi]%list_elem_of_lookup & Hr').
    destruct (H (S i) rws' Hi) as [_ Hk']. apply Hk in Hr. apply Hk' in Hr'. rewrite <- Heq in Hr'. lia.
  - apply (IH (S k)). intros i rws' Hi. destruct (H (S i) rws' Hi) as [? Hk'].
    split; [done|]. intros r Hr. apply Hk' in Hr. lia.
Qed.

Lemma ti_ids tb st t fps m0 m : table_inv tb st t fps m0 m → NoDup (row_id <$> all_rows st).
Proof.
  intros Hinv. apply (NoDup_concat_ids _ 0). intros i rws Hi.
  assert (i < TABLE_BUCKET_COUNT) as Hlt.
  { apply lookup_lt_Some in Hi. by rewrite (ti_len_st _ _ _ _ _ _ Hinv) in Hi. }
  destruct (ti_bucket _ _ _ _ _ _ _ Hinv Hlt) as (b & rws' & fp & _ & Hst & _ & _ & _ & Hb).
  rewrite Hi in Hst. injection Hst as <-. destruct Hb as (_ & _ & _ & _ & _ & Hnd & Hall).
  split; [done|]. intros r Hr. rewrite Forall_forall in Hall. by apply Hall.
Qed.
End rep.

(** ** Maps of rows *)

Lemma rows_map_lookup rws id r :
  NoDup (row_id <$> rws) → rows_map rws !! id = Some r ↔ r ∈ rws ∧ row_id r = id.
Proof.
  intros Hnd. unfold rows_map. rewrite <- elem_of_list_to_map.
  - rewrite list_elem_of_fmap. split; [intros (r' & [= -> ->] & ?); done|intros [? <-]; eauto].
  - by rewrite <- list_fmap_compose.
Qed.

Lemma rows_map_app rws r :
  NoDup (row_id <$> rws) → row_id r ∉ row_id <$> rws →
  rows_map (rws ++ [r]) = <[row_id r := r]> (rows_map rws).
Proof.
  intros Hnd Hr. unfold rows_map. rewrite fmap_app, list_to_map_app. simpl.
  apply map_eq. intros id. destruct (decide (id = row_id r)) as [->|Hne].
  - rewrite lookup_insert_eq. rewrite lookup_union_r; [by rewrite lookup_insert_eq|].
    apply not_elem_of_list_to_map. by rewrite <- list_fmap_compose.
  - rewrite lookup_insert_ne by done. rewrite lookup_union.
    rewrite lookup_insert_ne, lookup_empty by done. by destruct (list_to_map _ !! id).
Qed.

Lemma index_map_lookup rws id :
  default None (index_map rws !! id) = fst <$> rows_map rws !! id.
Proof. unfold index_map. rewrite lookup_fmap. by destruct (rows_map rws !! id). Qed.

Lemma index_map_app rws r :
  NoDup (row_id <$> rws) → row_id r ∉ row_id <$> rws →
  index_map (rws ++ [r]) = <[row_id r := Some r.1]> (index_map rws).
Proof. intros. unfold index_map. by rewrite rows_map_app, fmap_insert. Qed.
