(* ===== verification/TableCollect.v ===== *)
(** Collecting rows: under every outcome of the library calls the row collectors
    return either the rows in the order of their ids, or failure with nothing
    allocated; every lock they take is released. *)
From stdpp Require Import base list gmap sorting strings.
From Stdlib Require Import ZArith Lia.
From S2P Require Import Prelude Memory CLib BPTree Index Table TableMem TableRep.

(** The pointers a result array holds for a list of rows. *)
Definition row_ptrs (rws : list row) : list ptr := (λ r, Some r.1) <$> rws.

Lemma length_row_ptrs rws : length (row_ptrs rws) = length rws.
Proof. apply length_fmap. Qed.

Definition locked_table (i : nat) (b : TableBucket) (t : Table) : Table :=
  upd_bucket i (with_lock read_locked b) t.

Section locking.
Context {KI : KeyIndex}.
Context (tb : loc) (st : table_state) (t : Table) (fps : list footprint) (m0 m : Mem).
Context (Hinv : table_inv tb st t fps m0 m).

Lemma inv_arrays_bounded : arrays_bounded m.
Proof. apply mem_bounded_arrays, Hinv. Qed.

(** Taking and releasing a read lock while an array grows. *)
Lemma growing_rdlock i rs cap ps m' (Q : bool → Mem → Prop) :
  i < TABLE_BUCKET_COUNT → growing m rs cap ps m' →
  (∀ m'', ¬ no_failure m → growing m rs cap ps m'' → Q false m'') →
  (∀ b mL, bucket_is tb i t b m → bkt_lock b = unlocked →
     growing (put_table tb (locked_table i b t) m) rs cap ps mL → Q true mL) →
  wp (pthread_rwlock_rdlock (Some tb) i) Q m'.
Proof.
  intros Hi Hg Hno Hyes. destruct (ti_bucket _ _ _ _ _ _ _ Hinv Hi) as (b & _ & _ & _ & _ & _ & Hb & Hk & _).
  pose proof Hb as [Ht Hbi].
  assert (bucket_is tb i t b m') as Hb' by (split; [by rewrite (growing_tables _ _ _ _ _ Hg)|done]).
  eapply wp_rdlock; [exact Hb'|done|]. destruct (next_call m') eqn:Hcall.
  - eapply Hyes; [done..|]. by apply growing_put_table, growing_env_tail.
  - apply Hno; [|by apply growing_env_tail]. intros Hm.
    by rewrite next_call_ok in Hcall by (by eapply growing_no_failure).
Qed.

Lemma growing_unlock i b rs cap ps mL (Q : unit → Mem → Prop) :
  bucket_is tb i t b m → bkt_lock b = unlocked →
  growing (put_table tb (locked_table i b t) m) rs cap ps mL →
  (∀ m', growing m rs cap ps m' → Q tt m') →
  wp (pthread_rwlock_unlock (Some tb) i) Q mL.
Proof.
  intros Hb Hk Hg HQ. eapply (wp_unlock _ _ (locked_table i b t) (with_lock read_locked b)).
  - split; [rewrite (growing_tables _ _ _ _ _ Hg); apply put_table_lookup|].
    exact (upd_bucket_lookup _ _ _ _ (proj2 Hb)).
  - by left.
  - apply HQ. apply (growing_put_table tb t) in Hg. revert Hg.
    unfold locked_table. rewrite upd_bucket_twice.
    assert (with_lock unlocked (with_lock read_locked b) = b) as -> by (destruct b; simpl in *; by subst).
    rewrite put_table_twice, (upd_bucket_same i b) by apply Hb.
    by rewrite put_table_same by apply Hb.
Qed.

Lemma bucket_in_locked i b rs cap ps mL :
  bucket_is tb i t b m → growing (put_table tb (locked_table i b t) m) rs cap ps mL →
  bucket_is tb i (locked_table i b t) (with_lock read_locked b) mL.
Proof.
  intros Hb Hg. split; [rewrite (growing_tables _ _ _ _ _ Hg); apply put_table_lookup|].
  exact (upd_bucket_lookup _ _ _ _ (proj2 Hb)).
Qed.

(** Reading a row of a bucket. *)
Lemma growing_row i b rws fp rs cap ps mL j r (Q : ptr → Mem → Prop) :
  bucket_at (st_next st) i b rws fp m → rws !! j = Some r →
  growing (put_table tb (locked_table i b t) m) rs cap ps mL →
  Q (Some r.1) mL → wp (array_get (rows (with_lock read_locked b)) j) Q mL.
Proof.
  intros (_ & Hrows & [Hle Harr] & _) Hj Hg HQ. simpl. rewrite Hrows.
  destruct (fp_array fp) as [a|].
  - destruct Harr as (arr & Ha & Hl & Htake).
    assert (arr !! j = Some (Some (Some r.1))) as Hget.
    { apply (lookup_take_Some _ (length rws)). by rewrite Htake, list_lookup_fmap, Hj. }
    eapply wp_array_get; [|exact Hget|done].
    eapply growing_old_array; [|exact Hg|done]. apply arrays_bounded_put, inv_arrays_bounded.
  - apply lookup_lt_Some in Hj. lia.
Qed.

(** One bucket, its lock held. *)
Lemma collect_bucket i b rws fp rs cap ps mL (Q : bool * results * nat → Mem → Prop) :
  bucket_is tb i t b m → bucket_at (st_next st) i b rws fp m →
  let M := put_table tb (locked_table i b t) m in
  growing M rs cap ps mL →
  (∀ cap' m', ¬ no_failure m → spent M m' → Q (false, no_results, cap') m') →
  (∀ rs' cap' m', growing M rs' cap' (ps ++ row_ptrs rws) m' → Q (true, rs', cap') m') →
  wp (table_collect_bucket_rows_locked (Some tb) i rs cap) Q mL.
Proof.
  intros Hb Hat M Hg Hno Hyes. unfold table_collect_bucket_rows_locked.
  apply wp_bind. eapply wp_get_bucket; [by eapply bucket_in_locked|].
  pose proof Hat as (Hsize & _). simpl bkt_size. rewrite Hsize.
  apply wp_bind. eapply wp_mono; [|apply (wp_for_until _ _ _
    (λ j '(rs, cap) s, growing M rs cap (ps ++ row_ptrs (take j rws)) s)
    (λ '(rs, cap) s, rs = no_results ∧ ¬ no_failure m ∧ spent M s)); [lia| |]].
  - intros [[rs' cap']|[rs' cap']] s.
    + rewrite firstn_all. intros Hs. by apply wp_ret, Hyes.
    + intros (-> & Hm & Hs). by apply wp_ret, Hno.
  - simpl. unfold row_ptrs. simpl. by rewrite app_nil_r.
  - intros j [rs1 cap1] s [_ Hj] Hs. destruct (lookup_lt_is_Some_2 rws j Hj) as [r Hr].
    apply wp_bind. eapply wp_get_bucket; [by eapply bucket_in_locked|].
    apply wp_bind. eapply growing_row; [done..|].
    assert (arrays_bounded M) as HM by (apply arrays_bounded_put, inv_arrays_bounded).
    apply wp_bind. eapply growing_append; [done..| |].
    + intros m'' Hm Hs'. apply wp_bind. eapply growing_free_array; [done..|].
      intros m3 Hm3. by apply wp_ret.
    + intros rs2 cap2 m'' Hs'. apply wp_ret. revert Hs'. unfold row_ptrs.
      by rewrite (take_S_r _ _ r), fmap_app, (assoc_L (++)) by done.
Qed.
End locking.

(** ** Sorting *)

Definition row_le (x y : row) : Prop := (row_id x ≤ row_id y)%Z.
#[export] Instance row_le_dec x y : Decision (row_le x y).
Proof. unfold row_le. apply _. Defined.
#[export] Instance row_le_trans : Transitive row_le.
Proof. unfold row_le. intros x y z ??. lia. Qed.
#[export] Instance row_le_total : Total row_le.
Proof. unfold row_le. intros x y. lia. Qed.

Definition sort_rows (rws : list row) : list row := merge_sort row_le rws.

Lemma sort_rows_perm rws : sort_rows rws ≡ₚ rws.
Proof. apply merge_sort_Permutation. Qed.

(** Ascending ids, each once. *)
Lemma sort_rows_sorted rws :
  NoDup (row_id <$> rws) → StronglySorted Z.lt (row_id <$> sort_rows rws).
Proof.
  intros Hnd. assert (StronglySorted row_le (sort_rows rws)) as Hs by (apply (StronglySorted_merge_sort row_le)).
  rewrite <- sort_rows_perm in Hnd. revert Hnd Hs. generalize (sort_rows rws).
  intros l Hnd Hs. induction Hs as [|x l Hs IH Hall]; simpl; constructor.
  - apply IH. by apply NoDup_cons in Hnd as [_ ?].
  - apply NoDup_cons in Hnd as [Hx _]. rewrite Forall_forall in Hall. apply Forall_forall.
    intros id Hid. pose proof Hid as (y & -> & Hy)%list_elem_of_fmap. apply Hall in Hy. unfold row_le in Hy.
    assert (row_id x ≠ row_id y) by (intros Heq; rewrite Heq in Hx; done). lia.
Qed.

Definition row_key (r : row) : Z * ptr := (row_id r, Some r.1).

Lemma id_le_spec x y : id_le x y ↔ (x.1 ≤ y.1)%Z.
Proof. unfold id_le, table_compare_records_by_id. repeat case_decide; lia. Qed.

#[export] Instance id_le_trans : Transitive id_le.
Proof. intros x y z. rewrite !id_le_spec. lia. Qed.
#[export] Instance id_le_total : Total id_le.
Proof. intros x y. rewrite !id_le_spec. lia. Qed.

Lemma NoDup_ids_inj rws x y :
  NoDup (row_id <$> rws) → x ∈ rws → y ∈ rws → row_id x = row_id y → x = y.
Proof.
  intros Hnd Hx Hy Heq.
  assert (rows_map rws !! row_id x = Some x) as H1 by (by apply rows_map_lookup).
  assert (rows_map rws !! row_id x = Some y) as H2 by (by apply rows_map_lookup). congruence.
Qed.

(** Sorting what the comparison function sees is sorting the rows. *)
Lemma sort_keyed rws :
  NoDup (row_id <$> rws) → merge_sort id_le (row_key <$> rws) = row_key <$> sort_rows rws.
Proof.
  intros Hnd. apply (StronglySorted_unique_strong id_le).
  - intros x y Hx Hy. rewrite !id_le_spec, merge_sort_Permutation in *.
    rewrite sort_rows_perm in Hy.
    apply list_elem_of_fmap in Hx as (r & -> & Hr), Hy as (r' & -> & Hr'). simpl. intros ??.
    f_equal. apply (NoDup_ids_inj rws); [done..|lia].
  - apply (StronglySorted_merge_sort id_le).
  - assert (StronglySorted row_le (sort_rows rws)) as Hs by (apply (StronglySorted_merge_sort row_le)).
    induction Hs as [|x l Hs IH Hall]; simpl; constructor; [done|].
    apply Forall_fmap. eapply Forall_impl; [exact Hall|]. intros y Hy. by apply id_le_spec.
  - rewrite merge_sort_Permutation. by rewrite sort_rows_perm.
Qed.

Definition rows_in (m : Mem) (rws : list row) : Prop := Forall (λ r, m_recs m !! r.1 = Some r.2) rws.

Lemma wp_keyed rws (Q : list (Z * ptr) → Mem → Prop) m :
  rows_in m rws → Q (row_key <$> rws) m → wp (keyed (Some <$> row_ptrs rws)) Q m.
Proof.
  revert Q. induction rws as [|r rws IH]; intros Q Hin HQ; [done|].
  apply Forall_cons in Hin as [Hr Hin]. simpl. apply wp_bind. eapply wp_load_record; [done|].
  apply wp_bind, IH; [done|]. by apply wp_ret.
Qed.

Lemma growing_sort m rs cap rws m' (Q : unit → Mem → Prop) :
  growing m rs cap (row_ptrs rws) m' → rows_in m rws → NoDup (row_id <$> rws) →
  (∀ m'', growing m rs cap (row_ptrs (sort_rows rws)) m'' → Q tt m'') →
  wp (table_sort_records_by_id (records rs) (count rs)) Q m'.
Proof.
  intros Hg Hin Hnd HQ. pose proof Hg as (n & arr & e & -> & He & Hn & Hc & Hle & Hl & Hps & Ha).
  assert (length (sort_rows rws) = length rws) as Hlen by (by rewrite sort_rows_perm).
  pose proof (length_row_ptrs rws) as Hlen'.
  destruct (records rs) as [a|] eqn:Hrs.
  - unfold table_sort_records_by_id. case_decide as Htwo.
    + apply wp_ret, HQ. replace (sort_rows rws) with rws; [done|].
      destruct rws as [|x [|y rws]]; [done|done|]. simpl in *. lia.
    + destruct Ha as [Ha Han]. apply wp_bind. eapply (@wp_load _ heap_arrays); [apply lookup_insert_eq|].
      rewrite Hc, Hps. apply wp_bind, wp_keyed; [done|]. rewrite sort_keyed by done.
      eapply (@wp_store _ heap_arrays); [apply lookup_insert_eq|]. apply HQ.
      assert (map (λ k, Some k.2) (row_key <$> sort_rows rws) = Some <$> row_ptrs (sort_rows rws)) as ->.
      { unfold row_ptrs. rewrite <- !list_fmap_compose. apply list_fmap_ext. done. }
      assert (length (row_ptrs (sort_rows rws)) = length rws) as Hlens by (by rewrite length_row_ptrs).
      exists n, ((Some <$> row_ptrs (sort_rows rws)) ++ drop (length (row_ptrs rws)) arr), e.
      rewrite Hrs, Hlens, length_app, length_fmap, length_drop, Hlens. split_and!; try done; try lia.
      * unfold with_array, set_env, set_next, set_arrays. simpl. by rewrite insert_insert_eq.
      * rewrite take_app_le by (rewrite length_fmap; lia). apply take_ge. rewrite length_fmap. lia.
  - apply wp_ret, HQ. subst cap. rewrite Hlen' in Hle. destruct rws; [done|simpl in *; lia].
Qed.

(** ** Collecting every row *)

Section collecting.
Context {KI : KeyIndex}.
Context (tb : loc) (st : table_state) (t : Table) (fps : list footprint) (m0 m : Mem).
Context (Hinv : table_inv tb st t fps m0 m).

Lemma inv_rows_in : rows_in m (all_rows st).
Proof.
  apply Forall_forall. intros r (i & rws & Hi & Hr)%elem_of_all_rows.
  by apply (ti_row _ _ _ _ _ _ _ _ _ Hinv Hi Hr).
Qed.

Lemma collect_loop (Q : results * nat + results → Mem → Prop) :
  (∀ m', ¬ no_failure m → spent m m' → Q (inr no_results) m') →
  (∀ rs cap m', growing m rs cap (row_ptrs (all_rows st)) m' → Q (inl (rs, cap)) m') →
  wp (for_until 0 TABLE_BUCKET_COUNT (λ index '(rs, cap),
      locked ← pthread_rwlock_rdlock (Some tb) index;
      if negb locked then rs ← table_free_record_array rs; mret (inr rs)
      else
        '(ok, rs, cap) ← table_collect_bucket_rows_locked (Some tb) index rs cap;
        if negb ok then
          pthread_rwlock_unlock (Some tb) index;;
          rs ← table_free_record_array rs;
          mret (inr rs)
        else
          pthread_rwlock_unlock (Some tb) index;;
          mret (inl (rs, cap))) (no_results, 0)) Q m.
Proof.
  intros Hno Hyes. pose proof (inv_arrays_bounded _ _ _ _ _ _ Hinv) as Hb.
  eapply wp_mono; [|apply (wp_for_until _ _ _
    (λ j '(rs, cap) s, growing m rs cap (row_ptrs (concat (take j (st_buckets st)))) s)
    (λ rs s, rs = no_results ∧ ¬ no_failure m ∧ spent m s)); [lia|apply growing_refl|]].
  - intros [[rs cap]|rs] s; [|intros (-> & ? & ?); by apply Hno].
    rewrite <- (ti_len_st _ _ _ _ _ _ Hinv), firstn_all. apply Hyes.
  - intros j [rs cap] s [_ Hj] Hg. apply wp_bind.
    eapply (growing_rdlock tb st t fps m0 m Hinv); [exact Hj|exact Hg| |].
    + intros s' Hm Hs'. apply wp_bind. eapply growing_free_array; [done..|].
      intros s2 Hs2. by apply wp_ret.
    + intros b mL Hbi Hk HmL.
      destruct (ti_bucket _ _ _ _ _ _ _ Hinv Hj) as (b' & rws & fp & _ & Hst & _ & Hbi' & _ & Hat).
      assert (b' = b) as -> by (destruct Hbi, Hbi'; congruence).
      apply wp_bind. eapply (collect_bucket tb st t fps m0 m Hinv); [exact Hbi|exact Hat|exact HmL| |].
      * intros cap' s' Hm Hs'. apply wp_bind. eapply (growing_unlock tb t m); [done..|].
        intros s2 Hs2. apply wp_bind. eapply growing_free_array; [done|exact Hs2|].
        intros s3 Hs3. by apply wp_ret.
      * intros rs' cap' s' Hs'. apply wp_bind. eapply (growing_unlock tb t m); [done..|].
        intros s2 Hs2. apply wp_ret. revert Hs2. unfold row_ptrs.
        by rewrite (take_S_r _ _ rws), concat_app, fmap_app by done; simpl; rewrite app_nil_r.
Qed.

(** The rows in the order of their ids, or failure without a trace. *)
Lemma collect_all_refines rs0 (Q : bool * results → Mem → Prop) :
  (∀ m', ¬ no_failure m → spent m m' → Q (false, no_results) m') →
  (∀ rs cap m', growing m rs cap (row_ptrs (sort_rows (all_rows st))) m' → Q (true, rs) m') →
  wp (table_collect_all_sorted (Some tb) rs0) Q m.
Proof.
  intros Hno Hyes. unfold table_collect_all_sorted. apply wp_bind, collect_loop.
  - intros m' Hm Hm'. by apply wp_ret, Hno.
  - intros rs cap m' Hg. apply wp_bind. eapply growing_sort; [exact Hg|apply inv_rows_in|
      eapply ti_ids, Hinv|]. intros m'' Hg'. by eapply wp_ret, Hyes.
Qed.
End collecting.

(** ** Selecting rows *)

Definition test_row (test : record → bool) (r : row) : Prop := test r.2 = true.
#[export] Instance test_row_dec test r : Decision (test_row test r).
Proof. unfold test_row. apply _. Defined.

Lemma append_matching_refines test m all capA rws m1 (Q : results + results → Mem → Prop) :
  arrays_bounded m → growing m all capA (row_ptrs rws) m1 → rows_in m rws →
  (∀ m', ¬ no_failure m → spent m m' → Q (inr no_results) m') →
  (∀ rs cap m', growing m rs cap (row_ptrs (filter (test_row test) rws)) m' → Q (inl rs) m') →
  wp (append_matching test all no_results) Q m1.
Proof.
  intros Hb Hg Hin Hno Hyes. pose proof (growing_bounded _ _ _ _ _ Hb Hg) as Hb1.
  assert (count all = length rws) as Hcount.
  { destruct Hg as (n & arr & e & _ & _ & _ & -> & _). by rewrite length_row_ptrs. }
  unfold append_matching. apply wp_bind. rewrite Hcount.
  eapply wp_mono; [|apply (wp_for_until _ _ _
    (λ j '(rs, cap) s, growing m1 rs cap (row_ptrs (filter (test_row test) (take j rws))) s)
    (λ rs s, rs = no_results ∧ ¬ no_failure m ∧ spent m s)); [lia|apply growing_refl|]].
  - intros [[rs cap]|rs] s; [|intros (-> & ? & ?); by apply wp_ret, Hno].
    rewrite firstn_all. intros Hs. apply wp_bind. eapply growing_drop; [exact Hg|exact Hs|].
    intros m3 H3. by eapply wp_ret, Hyes.
  - intros j [rs cap] s [_ Hj] Hs. destruct (lookup_lt_is_Some_2 rws j Hj) as [r Hr].
    assert (row_ptrs rws !! j = Some (Some r.1)) as Hrp by (by unfold row_ptrs; rewrite list_lookup_fmap, Hr).
    assert (∀ Q, Q (Some r.1) s → wp (array_get (records all) j) Q s) as Hget.
    { intros Q' HQ'. destruct (records all) as [a|] eqn:Ha.
      - destruct (growing_array _ _ _ _ _ _ Hg Ha) as (arr & Harr & Hl & Htake).
        eapply wp_array_get; [by eapply growing_old_array| |exact HQ'].
        apply (lookup_take_Some _ (length (row_ptrs rws))). by rewrite Htake, list_lookup_fmap, Hrp.
      - destruct Hg as (n & arr & e & _ & _ & _ & _ & Hcap & _ & _ & H). rewrite Ha in H. subst.
        apply lookup_lt_Some in Hrp. lia. }
    apply wp_bind, Hget, wp_bind. eapply wp_load_record.
    { rewrite (growing_recs _ _ _ _ _ Hs), (growing_recs _ _ _ _ _ Hg).
      unfold rows_in in Hin. rewrite Forall_lookup in Hin. by apply (Hin j). }
    rewrite (take_S_r _ _ r), filter_app, filter_cons, filter_nil by done.
    destruct (decide (test_row test r)) as [Ht|Ht]; unfold test_row in Ht;
      [|apply not_true_is_false in Ht]; rewrite Ht; cbv beta iota.
    + apply wp_bind, Hget, wp_bind.
      eapply growing_append; [done..| |].
      * intros s' Hm1 Hs'. apply wp_bind. eapply growing_drop; [exact Hg|exact Hs'|].
        intros s2 Hs2. apply wp_bind. eapply growing_free_array; [exact Hb|exact Hs2|].
        intros s3 Hs3. apply wp_ret. split_and!; [done| |done].
        by apply (growing_failure _ _ _ _ _ Hg).
      * intros rs' cap' s' Hs'. apply wp_ret. revert Hs'. unfold row_ptrs. by rewrite fmap_app.
    + apply wp_ret. by rewrite app_nil_r.
Qed.
