(* ===== verification/TableQueries.v ===== *)
(** The lookups of the users table refine their counterparts on the abstract
    state: by id through the B+ tree and by scanning, by name and by condition. *)
From stdpp Require Import base list gmap sorting strings.
From Stdlib Require Import ZArith Lia.
From S2P Require Import Prelude Memory CLib BPTree Index Table TableMem TableRep TableCollect.

(** ** The abstract answers *)

(** The rows in the order of their ids. *)
Definition sorted_rows (st : table_state) : list row := sort_rows (all_rows st).
Definition select (test : record → bool) (st : table_state) : list row :=
  filter (test_row test) (sorted_rows st).
Definition find_id (id : Z) (st : table_state) : ptr := fst <$> table_map st !! id.
Definition first_row (rws : list row) : ptr := fst <$> head rws.

(** A lookup either fails, after some failed library call, or gives [p]; either
    way it leaves memory as it found it. *)
Definition answers (p : ptr) (m : Mem) (r : ptr) (m' : Mem) : Prop :=
  spent m m' ∧ (r = p ∨ r = None ∧ ¬ no_failure m).

(** The same for a search, whose result array is the one thing it allocates. *)
Definition collects (rws : list row) (m : Mem) (r : bool * results) (m' : Mem) : Prop :=
  (r.1 = true ∧ ∃ cap, growing m r.2 cap (row_ptrs rws) m') ∨
  (r.1 = false ∧ ¬ no_failure m ∧ spent m m').

Lemma collects_ok rws m r m' :
  no_failure m → collects rws m r m' → r.1 = true ∧ ∃ cap, growing m r.2 cap (row_ptrs rws) m'.
Proof. intros Hm [?|(_ & Hm' & _)]; [done|]. by destruct Hm'. Qed.

Lemma sorted_rows_elem r st : r ∈ sorted_rows st ↔ r ∈ all_rows st.
Proof. unfold sorted_rows. by rewrite sort_rows_perm. Qed.

Section queries.
Context {KI : KeyIndex}.
Context (tb : loc) (st : table_state) (t : Table) (fps : list footprint) (m0 m : Mem).
Context (Hinv : table_inv tb st t fps m0 m).

Lemma sorted_rows_in : rows_in m (sorted_rows st).
Proof.
  unfold rows_in, sorted_rows. rewrite sort_rows_perm. eapply inv_rows_in, Hinv.
Qed.

Lemma sorted_ids : StronglySorted Z.lt (row_id <$> sorted_rows st).
Proof. eapply sort_rows_sorted, ti_ids, Hinv. Qed.

Lemma sorted_NoDup : NoDup (row_id <$> sorted_rows st).
Proof. unfold sorted_rows. rewrite sort_rows_perm. eapply ti_ids, Hinv. Qed.

(** The bucket of an id holds its row. *)
Lemma bucket_lookup id rws :
  st_buckets st !! table_bucket_index_for_id id = Some rws → table_map st !! id = rows_map rws !! id.
Proof.
  intros Hi. apply option_eq. intros r. unfold table_map.
  rewrite rows_map_lookup by (eapply ti_ids, Hinv).
  assert (NoDup (row_id <$> rws)) as Hnd.
  { pose proof (bucket_index_lt id) as Hlt.
    destruct (ti_bucket _ _ _ _ _ _ _ Hinv Hlt) as (b & rws' & fp & _ & Hst & _ & _ & _ & Hat).
    rewrite Hi in Hst. injection Hst as <-. apply Hat. }
  rewrite rows_map_lookup by done. split; intros [Hr Hid]; (split; [|done]).
  - apply elem_of_all_rows in Hr as (j & rws' & Hj & Hr).
    destruct (ti_row _ _ _ _ _ _ _ _ _ Hinv Hj Hr) as (_ & Hidx & _).
    rewrite Hid in Hidx. subst j. by rewrite Hi in Hj; injection Hj as ->.
  - apply elem_of_all_rows. eauto.
Qed.

Lemma find_by_id_refines id : wp (table_find_by_id (Some tb) id) (answers (find_id id st) m) m.
Proof.
  unfold table_find_by_id. apply wp_bind. pose proof (bucket_index_lt id) as Hlt.
  eapply (growing_rdlock tb st t fps m0 m Hinv); [done|apply growing_refl| |].
  { intros m' Hm Hm'. apply wp_ret. split; [done|]. by right. }
  intros b mL Hbi Hk HmL. apply wp_bind. eapply wp_get_bucket; [by eapply bucket_in_locked|].
  destruct (ti_bucket _ _ _ _ _ _ _ Hinv Hlt) as (b' & rws & fp & _ & Hst & _ & Hbi' & _ & Hat).
  assert (b' = b) as -> by (destruct Hbi, Hbi'; congruence).
  destruct Hat as (_ & _ & _ & Hpk & Hidx & _). simpl pk_index. rewrite Hpk.
  apply wp_bind. eapply wp_mono; [|eapply index_search, index_frame; [exact Hidx|..]].
  - intros p m' [-> ->]. apply wp_bind. eapply (growing_unlock tb t m); [done..|].
    intros m' Hm'. apply wp_ret. split; [done|]. left.
    by rewrite index_map_lookup, <- bucket_lookup.
  - by rewrite (growing_trees _ _ _ _ _ HmL).
  - intros x _. by rewrite (growing_nodes _ _ _ _ _ HmL).
Qed.

(** *** By scanning *)

Lemma scan_bucket id i b rws fp mL (Q : unit + ptr → Mem → Prop) :
  bucket_is tb i t b m → bkt_lock b = unlocked → bucket_at (st_next st) i b rws fp m →
  spent (put_table tb (locked_table i b t) m) mL →
  (id ∉ row_id <$> rws → Q (inl tt) mL) →
  (∀ r m', r ∈ rws → row_id r = id → spent m m' → Q (inr (Some r.1)) m') →
  wp (for_until 0 (bkt_size b) (λ row_index _,
        b ← get_bucket (Some tb) i;
        row ← array_get (rows b) row_index;
        r ← load_record row;
        if decide (rec_id r = id) then
          b ← get_bucket (Some tb) i;
          row ← array_get (rows b) row_index;
          pthread_rwlock_unlock (Some tb) i;;
          mret (inr row)
        else mret (inl tt)) tt) Q mL.
Proof.
  intros Hbi Hk Hat HmL Hmiss Hhit. pose proof Hat as (Hsize & _ & _ & _ & _ & _ & Hall).
  rewrite Hsize. eapply wp_mono; [|apply (wp_for_until _ _ _
    (λ j _ s, s = mL ∧ id ∉ row_id <$> take j rws)
    (λ p s, ∃ r, p = Some r.1 ∧ r ∈ rws ∧ row_id r = id ∧ spent m s)); [lia| |]].
  - intros [[]|p] s.
    + rewrite firstn_all. intros [-> Hid]. by apply Hmiss.
    + intros (r & -> & Hr & Hid & Hs). by apply Hhit.
  - split; [done|]. apply not_elem_of_nil.
  - intros j [] s [_ Hj] [-> Hid]. destruct (lookup_lt_is_Some_2 rws j Hj) as [r Hr].
    rewrite Forall_forall in Hall. pose proof (list_elem_of_lookup_2 _ _ _ Hr) as Hin.
    apply wp_bind. eapply wp_get_bucket; [by eapply bucket_in_locked|].
    apply wp_bind. eapply (growing_row tb st t fps m0 m Hinv); [exact Hat|exact Hr|exact HmL|].
    apply wp_bind. eapply wp_load_record.
    { rewrite (growing_recs _ _ _ _ _ HmL). by apply Hall. }
    case_decide as Heq.
    + apply wp_bind. eapply wp_get_bucket; [by eapply bucket_in_locked|].
      apply wp_bind. eapply (growing_row tb st t fps m0 m Hinv); [exact Hat|exact Hr|exact HmL|].
      apply wp_bind. eapply (growing_unlock tb t m); [done..|]. intros m' Hm'.
      apply wp_ret. by exists r.
    + apply wp_ret. split; [done|]. rewrite (take_S_r _ _ r), fmap_app, elem_of_app by done. simpl.
      intros [?|?%list_elem_of_singleton]; [done|]. by apply Heq.
Qed.

Lemma scan_by_id_refines id : wp (table_scan_by_id (Some tb) id) (answers (find_id id st) m) m.
Proof.
  unfold table_scan_by_id. apply wp_bind. eapply wp_mono; [|apply (wp_for_until _ _ _
    (λ j _ s, spent m s ∧ id ∉ row_id <$> concat (take j (st_buckets st)))
    (answers (find_id id st) m)); [lia| |]].
  - intros [[]|p] s; [|done]. intros [Hs Hid]. apply wp_ret. split; [done|]. left. unfold find_id.
    rewrite <- (ti_len_st _ _ _ _ _ _ Hinv), firstn_all in Hid.
    destruct (table_map st !! id) as [r|] eqn:Hr; [|done].
    apply rows_map_lookup in Hr as [Hr Hid']; [|by eapply ti_ids, Hinv].
    destruct Hid. apply list_elem_of_fmap. by exists r.
  - split; [apply growing_refl|]. apply not_elem_of_nil.
  - intros j [] s [_ Hj] [Hs Hid]. apply wp_bind.
    eapply (growing_rdlock tb st t fps m0 m Hinv); [exact Hj|exact Hs| |].
    { intros s' Hm Hs'. apply wp_ret. split; [done|]. by right. }
    intros b mL Hbi Hk HmL. apply wp_bind. eapply wp_get_bucket; [by eapply bucket_in_locked|].
    destruct (ti_bucket _ _ _ _ _ _ _ Hinv Hj) as (b' & rws & fp & _ & Hst & _ & Hbi' & _ & Hat).
    assert (b' = b) as -> by (destruct Hbi, Hbi'; congruence).
    apply wp_bind. simpl bkt_size. eapply scan_bucket; [done..| |].
    + intros Hmiss. apply wp_bind. eapply (growing_unlock tb t m); [done..|].
      intros m' Hm'. apply wp_ret. split; [done|].
      rewrite (take_S_r _ _ rws), concat_app, fmap_app, elem_of_app by done. simpl.
      rewrite app_nil_r. tauto.
    + intros r m' Hr Hrid Hm'. apply wp_ret. split; [done|]. left. unfold find_id.
      assert (table_map st !! id = Some r) as ->; [|done].
      apply rows_map_lookup; [eapply ti_ids, Hinv|]. split; [|done].
      apply elem_of_all_rows. eauto.
Qed.

(** *** Searches *)

Lemma collect_all_collects rs0 :
  wp (table_collect_all (Some tb) rs0) (collects (sorted_rows st) m) m.
Proof.
  eapply (collect_all_refines tb st t fps m0 m Hinv).
  - intros m' Hm Hs. by right.
  - intros rs cap m' Hg. left. eauto.
Qed.

(** Every search collects all the rows and keeps those that satisfy a test. *)
Lemma select_collects test rs0 rs1 :
  wp ('(ok, all) ← table_collect_all_sorted (Some tb) rs0;
      if negb ok then mret (false, rs1)
      else r ← append_matching test all no_results; mret (status r))
    (collects (select test st) m) m.
Proof.
  apply wp_bind. eapply (collect_all_refines tb st t fps m0 m Hinv).
  - intros m' Hm Hs. apply wp_ret. by right.
  - intros rs cap m' Hg. apply wp_bind. eapply append_matching_refines;
      [by eapply inv_arrays_bounded|exact Hg|apply sorted_rows_in| |].
    + intros m2 Hm Hs. apply wp_ret. by right.
    + intros rs2 cap2 m2 Hg2. apply wp_ret. left. eauto.
Qed.

Lemma name_matches_collects name rs0 :
  wp (table_find_by_name_matches (Some tb) (Some name) rs0)
    (collects (select (λ r, bool_decide (rec_name r = name)) st) m) m.
Proof. apply select_collects. Qed.

Lemma age_condition_collects c age rs0 :
  wp (table_find_by_age_condition (Some tb) c age rs0)
    (collects (select (λ r, table_compare_int (rec_age r) c age) st) m) m.
Proof. apply select_collects. Qed.

(** The rows with one id. *)
Lemma select_id id :
  select (λ r, table_compare_int (rec_id r) TABLE_COMPARISON_EQ id) st =
    option_list (table_map st !! id).
Proof.
  unfold select. pose proof (sorted_NoDup) as Hnd.
  assert (∀ r, r ∈ sorted_rows st ↔ r ∈ all_rows st) as Hin by (intros; apply sorted_rows_elem).
  assert (table_map st !! id = rows_map (sorted_rows st) !! id) as ->.
  { apply option_eq. intros r. unfold table_map.
    rewrite !rows_map_lookup by (done || eapply ti_ids, Hinv). by rewrite Hin. }
  clear Hin. induction (sorted_rows st) as [|r rws IH]; [done|].
  simpl in Hnd. apply NoDup_cons in Hnd as [Hr Hnd]. specialize (IH Hnd).
  assert (rows_map (r :: rws) = <[row_id r := r]> (rows_map rws)) as -> by done.
  assert (test_row (λ r, table_compare_int (rec_id r) TABLE_COMPARISON_EQ id) r ↔ row_id r = id) as Htest
    by apply bool_decide_eq_true.
  destruct (decide (row_id r = id)) as [Hid|Hid].
  - rewrite filter_cons_True, IH, Hid, lookup_insert_eq by tauto.
    destruct (rows_map rws !! id) as [r'|] eqn:Hr'; [|done].
    apply rows_map_lookup in Hr' as [Hin Hid']; [|done]. destruct Hr. rewrite Hid, <- Hid'.
    apply list_elem_of_fmap. eauto.
  - by rewrite filter_cons_False, IH, lookup_insert_ne by tauto.
Qed.

(** The search for one id takes a failed lock for a missing row. *)
Lemma id_condition_collects c id rs0 :
  wp (table_find_by_id_condition (Some tb) c id rs0)
    (λ r m', collects (select (λ r, table_compare_int (rec_id r) c id) st) m r m' ∨
       (c = TABLE_COMPARISON_EQ ∧ ¬ no_failure m ∧ r = (true, no_results) ∧ spent m m')) m.
Proof.
  unfold table_find_by_id_condition. case_decide as Hc; [subst c|].
  2:{ eapply wp_mono; [|apply select_collects]. tauto. }
  rewrite select_id. wp_call (apply find_by_id_refines).
  intros p m' [Hs Hp]. unfold find_id in Hp.
  destruct p as [l|]; [destruct (table_map st !! id) as [r|]|].
  - destruct Hp as [[= ->]|[? _]]; [|done]. apply wp_bind.
    eapply growing_append; [by eapply inv_arrays_bounded|exact Hs| |].
    + intros m2 Hm Hs2. apply wp_ret. left. by right.
    + intros rs cap m2 Hg. apply wp_ret. left. left. eauto.
  - by destruct Hp as [?|[? _]].
  - destruct (table_map st !! id) as [r|]; apply wp_ret.
    + destruct Hp as [?|[_ Hm]]; [done|]. right. by split_and!.
    + left. left. split; [done|]. by exists 0.
Qed.

(** *** First matches *)

Lemma wp_first_match rws rs cap m1 (Q : ptr → Mem → Prop) :
  arrays_bounded m → growing m rs cap (row_ptrs rws) m1 → (∀ m', spent m m' → Q (first_row rws) m') →
  wp (first_match rs) Q m1.
Proof.
  intros Hb Hg HQ. pose proof Hg as (n & arr & e & _ & _ & _ & Hc & _).
  unfold first_match. rewrite Hc, length_row_ptrs. apply wp_bind. destruct rws as [|r rws].
  - rewrite decide_False by (simpl; lia). apply wp_ret, wp_bind.
    eapply growing_free; [exact Hb|exact Hg|]. intros m' Hs. by apply wp_ret, HQ.
  - rewrite decide_True by (simpl; lia). eapply (growing_get _ _ _ _ _ 0); [exact Hg|done|].
    apply wp_bind. eapply growing_free; [exact Hb|exact Hg|].
    intros m' Hs. by apply wp_ret, HQ.
Qed.

Lemma first_match_answers rws r m1 :
  collects rws m r m1 →
  wp (let '(ok, rs) := r in if negb ok then mret None else first_match rs)
    (answers (first_row rws) m) m1.
Proof.
  destruct r as [ok rs]. intros [[Hok (cap & Hg)]|(Hok & Hm & Hs)]; simpl in *; subst ok; simpl.
  - eapply wp_first_match; [by eapply inv_arrays_bounded|exact Hg|]. intros m' Hs. split; [done|by left].
  - apply wp_ret. split; [done|by right].
Qed.

Lemma find_by_name_refines name :
  wp (table_find_by_name (Some tb) (Some name))
    (answers (first_row (select (λ r, bool_decide (rec_name r = name)) st)) m) m.
Proof.
  wp_call (apply name_matches_collects).
  intros r m1. apply first_match_answers.
Qed.

Lemma find_by_age_refines age :
  wp (table_find_by_age (Some tb) age)
    (answers (first_row (select (λ r, bool_decide (rec_age r = age)) st)) m) m.
Proof.
  wp_call (apply (age_condition_collects TABLE_COMPARISON_EQ)).
  intros r m1. apply first_match_answers.
Qed.
End queries.

(** ** Printing *)

Lemma growing_set_out o m rs cap ps m' :
  growing m rs cap ps m' → growing (set_out o m) rs cap ps (set_out o m').
Proof. intros (n & arr & e & -> & H). exists n, arr, e. split; [|exact H]. by destruct (records rs). Qed.

Definition print_rows (rws : list row) : cstr := concat (map (λ r, record_line r.2) rws).

(** [table_print_records] prints the lines of the rows of a result array. *)
Lemma print_records_refines m rs cap rws m1 (Q : nat → Mem → Prop) :
  growing m rs cap (row_ptrs rws) m1 → rows_in m rws →
  (∀ m', growing (set_out (m_out m ++ print_rows rws) m) rs cap (row_ptrs rws) m' → Q (length rws) m') →
  wp (table_print_records (records rs) (count rs)) Q m1.
Proof.
  intros Hg Hin HQ. pose proof Hg as (n & arr & e & Hm1 & _ & _ & Hc & Hle & _ & _ & Ha).
  rewrite Hc, length_row_ptrs. destruct (records rs) as [a|] eqn:Hrs.
  - unfold table_print_records. apply wp_bind. eapply wp_mono; [|apply (wp_for_up _ _ _
      (λ j _ s, growing (set_out (m_out m ++ print_rows (take j rws)) m) rs cap (row_ptrs rws) s)); [lia| |]].
    + intros u s. rewrite firstn_all. intros Hs. by apply wp_ret, HQ.
    + unfold print_rows. simpl. rewrite app_nil_r. by destruct m.
    + intros j [] s [_ Hj] Hs. destruct (lookup_lt_is_Some_2 rws j Hj) as [r Hr].
      apply wp_bind. rewrite <- Hrs.
      eapply (growing_get _ _ _ _ _ j (Some r.1)); [exact Hs|by unfold row_ptrs; rewrite list_lookup_fmap, Hr|].
      apply wp_bind. eapply wp_load_record.
      { rewrite (growing_recs _ _ _ _ _ Hs). unfold rows_in in Hin. rewrite Forall_lookup in Hin. by apply (Hin j). }
      apply wp_modify. assert (m_out s = m_out m ++ print_rows (take j rws)) as ->.
      { by destruct Hs as (? & ? & ? & -> & _). }
      unfold print_rows. rewrite (take_S_r _ _ r), map_app, concat_app by done. simpl.
      rewrite app_nil_r, (assoc_L (++)).
      by apply (growing_set_out ((m_out m ++ print_rows (take j rws)) ++ record_line r.2)) in Hs.
  - destruct rws; [|simpl in Hle; lia]. apply wp_ret, HQ. unfold print_rows. simpl.
    rewrite app_nil_r. by destruct m.
Qed.

Section printing.
Context {KI : KeyIndex}.
Context (tb : loc) (st : table_state) (t : Table) (fps : list footprint) (m0 m : Mem).
Context (Hinv : table_inv tb st t fps m0 m).

Lemma print_all_refines :
  wp (table_print_all (Some tb)) (λ n m',
    (n = length (all_rows st) ∧ spent (set_out (m_out m ++ print_rows (sorted_rows st)) m) m') ∨
    (n = 0 ∧ ¬ no_failure m ∧ spent m m')) m.
Proof.
  apply wp_bind. eapply (collect_all_refines tb st t fps m0 m Hinv).
  - intros m' Hm Hs. apply wp_ret. by right.
  - intros rs cap m1 Hg. apply wp_bind.
    eapply print_records_refines; [exact Hg|by eapply sorted_rows_in|].
    intros m2 Hg2. apply wp_bind. eapply growing_free; [|exact Hg2|].
    + apply (inv_arrays_bounded _ _ _ _ _ _ Hinv).
    + intros m3 Hs. apply wp_ret. left. split; [|done]. by rewrite sort_rows_perm.
Qed.
End printing.
