(* ===== verification/TableUpdate.v ===== *)
(** Insertion into the users table: replacing a bucket, the next id, and what is
    undone when a library call fails. *)
From stdpp Require Import base list gmap sorting strings.
From Stdlib Require Import ZArith Lia.
From S2P Require Import Prelude Memory CLib BPTree Index Table TableMem TableRep TableCollect TableQueries.

(** ** Live addresses *)

Lemma live_below m x : mem_bounded m → cell m x ≠ no_cell → (x < m_next m)%positive.
Proof.
  intros Hb Hx. destruct (decide (m_next m ≤ x)%positive) as [Hle|]; [|lia]. by apply Hb in Hle.
Qed.

Ltac live := apply live_below; [assumption|unfold cell, no_cell; congruence].

Section live.
Context {KI : KeyIndex}.

Lemma bucket_live nid i b rws fp m : mem_bounded m → bucket_at nid i b rws fp m →
  (∀ x, fp_array fp = Some x → (x < m_next m)%positive) ∧ (fp_tree fp < m_next m)%positive ∧
  (∀ x, x ∈ fp_nodes fp → (x < m_next m)%positive) ∧ (∀ r, r ∈ rws → (r.1 < m_next m)%positive).
Proof.
  intros Hb (_ & _ & [_ Harr] & _ & Hidx & _ & Hall).
  destruct (index_live _ _ _ _ Hidx) as [[tree Htree] Hnodes]. split_and!.
  - intros x Hx. rewrite Hx in Harr. destruct Harr as (arr & Harr & _). live.
  - live.
  - intros x [n Hn]%Hnodes. live.
  - intros r Hr. rewrite Forall_forall in Hall. apply Hall in Hr as [Hr _]. live.
Qed.

(** A bucket survives changes elsewhere. *)
Lemma bucket_at_frame nid nid' i b rws fp m m' :
  bucket_at nid i b rws fp m → (nid ≤ nid')%Z →
  (∀ x, fp_array fp = Some x → m_arrays m' !! x = m_arrays m !! x) →
  m_trees m' !! fp_tree fp = m_trees m !! fp_tree fp →
  (∀ x, x ∈ fp_nodes fp → m_nodes m' !! x = m_nodes m !! x) →
  (∀ r, r ∈ rws → m_recs m' !! r.1 = m_recs m !! r.1) →
  bucket_at nid' i b rws fp m'.
Proof.
  intros (Hsize & Hrows & [Hle Harr] & Hpk & Hidx & Hnd & Hall) Hnid Ha Ht Hn Hr.
  split_and!; try done.
  - split; [done|]. destruct (fp_array fp) as [a|]; [|done]. by rewrite Ha.
  - by eapply index_frame.
  - apply Forall_forall. intros r Hin. rewrite Forall_forall in Hall.
    destruct (Hall r Hin) as (H1 & H2 & H3). split_and!; [by rewrite Hr|done|lia|lia].
Qed.
End live.

(** ** Replacing one bucket *)

(** What an operation on bucket [i] did to the memory: [fp'] replaces the
    footprint [fp], the rows [new] are added, everything else is as it was. *)
Record bucket_step (fp fp' : footprint) (new : list row) (m m' : Mem) : Prop := {
  bs_tree : fp_tree fp' = fp_tree fp;
  bs_trees x : x ≠ fp_tree fp → m_trees m' !! x = m_trees m !! x;
  bs_nodes x : x ∉ fp_nodes fp' → m_nodes m' !! x = m_nodes m !! x;
  bs_keep x : x ∈ fp_nodes fp → x ∈ fp_nodes fp';
  bs_grow x : x ∈ fp_nodes fp' → x ∈ fp_nodes fp ∨ (m_next m ≤ x)%positive;
  bs_array x : fp_array fp' = Some x → fp_array fp = Some x ∨ (m_next m ≤ x)%positive;
  bs_freed x : fp_array fp = Some x → fp_array fp' ≠ Some x → m_arrays m' !! x = None;
  bs_arrays x : fp_array fp ≠ Some x → fp_array fp' ≠ Some x → m_arrays m' !! x = m_arrays m !! x;
  bs_recs x : x ∉ new.*1 → m_recs m' !! x = m_recs m !! x;
  bs_new r : r ∈ new → (m_next m ≤ r.1)%positive;
  bs_bounded : mem_bounded m';
  bs_next : (m_next m ≤ m_next m')%positive;
  bs_env : m_env m' `suffix_of` m_env m;
  bs_out : m_out m' = m_out m
}.

Lemma bucket_step_refl fp m : mem_bounded m → bucket_step fp fp [] m m.
Proof. intros Hb. split; try done; [by left..|set_solver]. Qed.

Lemma bucket_step_trans fp1 fp2 fp3 new new' m1 m2 m3 :
  mem_bounded m1 → bucket_step fp1 fp2 new m1 m2 → bucket_step fp2 fp3 new' m2 m3 →
  bucket_step fp1 fp3 (new ++ new') m1 m3.
Proof.
  intros Hb H1 H2. pose proof (bs_next _ _ _ _ _ H1) as Hn1. pose proof (bs_next _ _ _ _ _ H2) as Hn2.
  pose proof (bs_tree _ _ _ _ _ H1) as Ht1. split.
  - by rewrite (bs_tree _ _ _ _ _ H2).
  - intros x Hx. rewrite (bs_trees _ _ _ _ _ H2), (bs_trees _ _ _ _ _ H1); congruence.
  - intros x Hx. rewrite (bs_nodes _ _ _ _ _ H2) by done. apply (bs_nodes _ _ _ _ _ H1).
    by intros ?%(bs_keep _ _ _ _ _ H2).
  - intros x Hx. by apply (bs_keep _ _ _ _ _ H2), (bs_keep _ _ _ _ _ H1).
  - intros x [[?|?]%(bs_grow _ _ _ _ _ H1)|?]%(bs_grow _ _ _ _ _ H2); auto. right. lia.
  - intros x [[?|?]%(bs_array _ _ _ _ _ H1)|?]%(bs_array _ _ _ _ _ H2); auto. right. lia.
  - intros x Hx Hx3. destruct (decide (fp_array fp2 = Some x)) as [Hx2|Hx2].
    + by apply (bs_freed _ _ _ _ _ H2).
    + rewrite (bs_arrays _ _ _ _ _ H2) by done. by apply (bs_freed _ _ _ _ _ H1).
  - intros x Hx Hx3. destruct (decide (fp_array fp2 = Some x)) as [Hx2|Hx2].
    + rewrite (bs_freed _ _ _ _ _ H2) by done. symmetry.
      destruct (bs_array _ _ _ _ _ H1 x Hx2) as [?|Hle%Hb]; [done|].
      unfold cell, no_cell in Hle. congruence.
    + by rewrite (bs_arrays _ _ _ _ _ H2), (bs_arrays _ _ _ _ _ H1).
  - intros x. rewrite fmap_app, elem_of_app. intros Hx.
    rewrite (bs_recs _ _ _ _ _ H2), (bs_recs _ _ _ _ _ H1); tauto.
  - intros r [Hr|Hr]%elem_of_app; [by apply (bs_new _ _ _ _ _ H1)|].
    apply (bs_new _ _ _ _ _ H2) in Hr. lia.
  - apply H2.
  - lia.
  - etrans; [apply (bs_env _ _ _ _ _ H2)|apply H1].
  - by rewrite (bs_out _ _ _ _ _ H2), (bs_out _ _ _ _ _ H1).
Qed.


Lemma concat_insert {A} (l : list (list A)) i x new :
  l !! i = Some x → concat (<[i := x ++ new]> l) ≡ₚ concat l ++ new.
Proof.
  revert i. induction l as [|y l IH]; intros [|i] Hi; simplify_eq/=.
  - solve_Permutation.
  - rewrite IH by done. by rewrite (assoc_L (++)).
Qed.

Section replace.
Context {KI : KeyIndex}.
Context (tb : loc) (st : table_state) (t : Table) (fps : list footprint) (m0 m : Mem).
Context (Hinv : table_inv tb st t fps m0 m).

Lemma frame_none {T} (P : loc → Prop) (h0 h : gmap loc T) x :
  owns P h0 h → h !! x = None → h0 !! x = None.
Proof.
  intros Ho Hx. destruct (h0 !! x) eqn:H0; [|done]. destruct (Ho x) as [H1 H2].
  assert (¬ P x) as HP by (intros HP; apply H1 in HP; congruence). apply H2 in HP. congruence.
Qed.

Lemma fp_in_bounds i fp : fps !! i = Some fp →
  (∀ x, fp_array fp = Some x → (x < m_next m)%positive) ∧ (fp_tree fp < m_next m)%positive ∧
  (∀ x, x ∈ fp_nodes fp → (x < m_next m)%positive).
Proof.
  intros Hi. assert (i < TABLE_BUCKET_COUNT) as Hlt.
  { apply lookup_lt_Some in Hi. by rewrite (ti_len_fp _ _ _ _ _ _ Hinv) in Hi. }
  destruct (ti_bucket _ _ _ _ _ _ _ Hinv Hlt) as (b & rws & fp' & _ & _ & Hfp & _ & _ & Hat).
  rewrite Hi in Hfp. injection Hfp as <-.
  destruct (bucket_live _ _ _ _ _ _ (ti_bounded _ _ _ _ _ _ Hinv) Hat) as (?&?&?&_). done.
Qed.

Lemma disjoint_step i fp fp' new m' :
  fps !! i = Some fp → bucket_step fp fp' new m m' → disjoint_fps (<[i := fp']> fps).
Proof.
  intros Hi Hs. pose proof (lookup_lt_Some _ _ _ Hi) as Hlt.
  assert (∀ j fpj, j ≠ i → fps !! j = Some fpj → fp_disjoint fp' fpj ∧ fp_disjoint fpj fp') as Hone.
  { intros j fpj Hj Hfpj. destruct (ti_disjoint _ _ _ _ _ _ Hinv j i _ _ Hfpj Hi Hj) as [Da Dt Dn].
    destruct (fp_in_bounds j fpj Hfpj) as (Ba & Bt & Bn). split.
    - split.
      + intros x Hx Hx'. destruct (bs_array _ _ _ _ _ Hs x Hx) as [?|?]; [by eapply Da|].
        apply Ba in Hx'. lia.
      + rewrite (bs_tree _ _ _ _ _ Hs). congruence.
      + intros x Hx Hx'. destruct (bs_grow _ _ _ _ _ Hs x Hx) as [?|?]; [by eapply Dn|].
        apply Bn in Hx'. lia.
    - split.
      + intros x Hx' Hx. destruct (bs_array _ _ _ _ _ Hs x Hx) as [?|?]; [by eapply Da|].
        apply Ba in Hx'. lia.
      + rewrite (bs_tree _ _ _ _ _ Hs). congruence.
      + intros x Hx' Hx. destruct (bs_grow _ _ _ _ _ Hs x Hx) as [?|?]; [by eapply Dn|].
        apply Bn in Hx'. lia. }
  intros j k a b Hj Hk Hjk. destruct (decide (i = j)) as [<-|Hij], (decide (i = k)) as [<-|Hik]; [done|..].
  - rewrite list_lookup_insert_eq in Hj by done. rewrite list_lookup_insert_ne in Hk by done.
    simplify_eq. by apply (Hone k b).
  - rewrite list_lookup_insert_eq in Hk by done. rewrite list_lookup_insert_ne in Hj by done.
    simplify_eq. by apply (Hone j a).
  - rewrite list_lookup_insert_ne in Hj, Hk by done. by apply (ti_disjoint _ _ _ _ _ _ Hinv j k).
Qed.

Lemma owns_step {T} (P P' : loc → Prop) (h0 h h' : gmap loc T) :
  owns P h0 h →
  (∀ x, ¬ P x → P' x → h !! x = None) →
  (∀ x, P x → ¬ P' x → h' !! x = None) →
  (∀ x, ¬ P x → ¬ P' x → h' !! x = h !! x) →
  (∀ x, P x ∨ ¬ P x) → owns P' h0 h'.
Proof.
  intros Ho Hnew Hold Hsame Hdec x. destruct (Ho x) as [H1 H2]. destruct (Hdec x) as [HP|HP].
  - split; [auto|]. intros HP'. by rewrite H1, Hold.
  - split; intros HP'; [by rewrite <- H2 by done; apply Hnew|].
    rewrite <- H2 by done. by apply Hsame.
Qed.

Lemma fresh_none x : (m_next m ≤ x)%positive → cell m x = no_cell.
Proof. apply (ti_bounded _ _ _ _ _ _ Hinv). Qed.

Lemma lookup_fps_insert i fp fp' x (P : footprint → loc → Prop) :
  fps !! i = Some fp →
  (∃ f, f ∈ <[i := fp']> fps ∧ P f x) ↔
  P fp' x ∨ ∃ j f, j ≠ i ∧ fps !! j = Some f ∧ P f x.
Proof.
  intros Hi. pose proof (lookup_lt_Some _ _ _ Hi) as Hlt. split.
  - intros (f & [j Hj]%list_elem_of_lookup & Hf). destruct (decide (j = i)) as [->|Hne].
    + rewrite list_lookup_insert_eq in Hj by done. simplify_eq. by left.
    + rewrite list_lookup_insert_ne in Hj by done. right. eauto.
  - intros [Hf|(j & f & Hj & Hfj & Hf)].
    + exists fp'. split; [|done]. by apply list_elem_of_insert.
    + exists f. split; [|done]. apply list_elem_of_lookup. exists j.
      by rewrite list_lookup_insert_ne.
Qed.

Lemma owns_fps {T} (P : footprint → loc → Prop) (dec : ∀ f x, Decision (P f x)) i fp fp'
    (h0 h h' : gmap loc T) :
  fps !! i = Some fp → owns (λ x, ∃ f, f ∈ fps ∧ P f x) h0 h →
  (∀ x, P fp' x → P fp x ∨ h !! x = None) →
  (∀ x, P fp x → ¬ P fp' x → h' !! x = None) →
  (∀ x, ¬ P fp x → ¬ P fp' x → h' !! x = h !! x) →
  owns (λ x, ∃ f, f ∈ <[i := fp']> fps ∧ P f x) h0 h'.
Proof.
  intros Hi Ho Hnew Hold Hsame. eapply owns_step; [exact Ho|..]; intros x;
    rewrite ?(lookup_fps_insert i fp fp' x P Hi);
    pose proof (lookup_fps_insert i fp fp x P Hi) as Hiff; rewrite list_insert_id in Hiff by done;
    rewrite ?Hiff.
  - intros Hn [Hx|?]; [|tauto]. destruct (Hnew x Hx); tauto.
  - intros [Hx|?] Hn; [|tauto]. apply Hold; tauto.
  - intros ??. apply Hsame; tauto.
  - rewrite <- Hiff. destruct (decide (Exists (λ f, P f x) fps)) as [Hx|Hx];
      rewrite Exists_exists in Hx; tauto.
Qed.

(** One operation on one bucket preserves the invariant. *)
Lemma inv_step i b b' rws new fp fp' nid' m' :
  buckets t !! i = Some b → st_buckets st !! i = Some rws → fps !! i = Some fp →
  bucket_step fp fp' new m m' →
  bkt_lock b' = unlocked → bucket_at nid' i b' (rws ++ new) fp' m' →
  (st_next st ≤ nid' ≤ INT_MAX)%Z →
  m_tables m' = <[tb := upd_bucket i b' (with_next_id nid' t)]> (m_tables m) →
  table_inv tb (MkState nid' (<[i := rws ++ new]> (st_buckets st)))
    (upd_bucket i b' (with_next_id nid' t)) (<[i := fp']> fps) m0 m'.
Proof.
  intros Hbi Hsi Hfi Hs Hk Hat Hnid Htab. pose proof (lookup_lt_Some _ _ _ Hbi) as Hlb.
  pose proof (lookup_lt_Some _ _ _ Hsi) as Hls. pose proof (lookup_lt_Some _ _ _ Hfi) as Hlf.
  pose proof (fp_in_bounds i fp Hfi) as (Ba & Bt & Bn). pose proof fresh_none as Hfresh.
  pose proof Hinv as []. split; simpl; try done.
  - by rewrite Htab, lookup_insert_eq.
  - lia.
  - by rewrite length_insert.
  - by rewrite length_insert.
  - by rewrite length_insert.
  - intros j bj rj fj Hbj Hrj Hfj. destruct (decide (i = j)) as [<-|Hij].
    + rewrite list_lookup_insert_eq in Hbj by done. rewrite list_lookup_insert_eq in Hrj by done.
      rewrite list_lookup_insert_eq in Hfj by done. by simplify_eq.
    + rewrite list_lookup_insert_ne in Hbj by done. rewrite list_lookup_insert_ne in Hrj by done.
      rewrite list_lookup_insert_ne in Hfj by done.
      destruct (ti_buckets j bj rj fj Hbj Hrj Hfj) as [Hkj Hatj]. split; [done|].
      destruct (ti_disjoint j i _ _ Hfj Hfi) as [Da Dt Dn]; [done|].
      destruct (bucket_live _ _ _ _ _ _ ti_bounded Hatj) as (La & Lt & Ln & Lr).
      eapply bucket_at_frame; [exact Hatj|lia|..].
      * intros x Hx. apply (bs_arrays _ _ _ _ _ Hs); [by apply Da|].
        intros [?|?]%(bs_array _ _ _ _ _ Hs); [by eapply Da|]. apply La in Hx. lia.
      * by apply (bs_trees _ _ _ _ _ Hs).
      * intros x Hx. apply (bs_nodes _ _ _ _ _ Hs).
        intros [?|?]%(bs_grow _ _ _ _ _ Hs); [by eapply Dn|]. apply Ln in Hx. lia.
      * intros r Hr. apply (bs_recs _ _ _ _ _ Hs). intros (r' & Heq & Hr')%list_elem_of_fmap.
        apply (bs_new _ _ _ _ _ Hs) in Hr'. apply Lr in Hr. rewrite Heq in Hr. lia.
  - by eapply disjoint_step.
  - apply Hs.
  - apply (owns_fps (λ f x, x ∈ fp_nodes f) ltac:(intros; cbv beta; apply _) i fp fp' _ _ _ Hfi ti_nodes).
    + intros x [?|Hx%Hfresh]%(bs_grow _ _ _ _ _ Hs); [by left|right].
      unfold cell, no_cell in Hx. congruence.
    + intros x Hx Hx'. by apply (bs_keep _ _ _ _ _ Hs) in Hx.
    + intros x _ Hx. by apply (bs_nodes _ _ _ _ _ Hs).
  - apply (owns_fps (λ f x, fp_tree f = x) ltac:(intros; cbv beta; apply _) i fp fp' _ _ _ Hfi ti_trees).
    + intros x. rewrite (bs_tree _ _ _ _ _ Hs). by left.
    + intros x. by rewrite (bs_tree _ _ _ _ _ Hs).
    + intros x Hx _. apply (bs_trees _ _ _ _ _ Hs). congruence.
  - apply (owns_fps (λ f x, fp_array f = Some x) ltac:(intros; cbv beta; apply _) i fp fp' _ _ _ Hfi ti_arrays).
    + intros x [?|Hx%Hfresh]%(bs_array _ _ _ _ _ Hs); [by left|right].
      unfold cell, no_cell in Hx. congruence.
    + apply (bs_freed _ _ _ _ _ Hs).
    + apply (bs_arrays _ _ _ _ _ Hs).
  - assert (∀ x, x ∈ (concat (<[i := rws ++ new]> (st_buckets st))).*1 ↔
      x ∈ (all_rows st).*1 ∨ x ∈ new.*1) as Hrows.
    { intros x. by rewrite concat_insert, fmap_app, elem_of_app by done. }
    eapply owns_step; [exact ti_recs|..]; intros x; unfold all_rows at 1; simpl; rewrite ?Hrows.
    + intros Hn [?|(r & -> & Hr)%list_elem_of_fmap]; [done|].
      apply (bs_new _ _ _ _ _ Hs), Hfresh in Hr. unfold cell, no_cell in Hr. congruence.
    + tauto.
    + intros _ Hx. apply (bs_recs _ _ _ _ _ Hs). tauto.
    + destruct (decide (x ∈ (all_rows st).*1)); tauto.
  - eapply owns_step; [exact ti_tables|..]; intros x.
    + done.
    + done.
    + intros Hx _. by rewrite Htab, lookup_insert_ne.
    + destruct (decide (x = tb)); tauto.
Qed.
End replace.

(** ** Insertion, step by step *)

Lemma bounded_put_table tb t m :
  mem_bounded m → is_Some (m_tables m !! tb) → mem_bounded (put_table tb t m).
Proof.
  intros Hb [t0 Ht] x Hx. apply Hb in Hx. unfold cell, no_cell in *. simpl.
  rewrite lookup_insert. case_decide; [subst; congruence|done].
Qed.

Lemma step_put_table fp tb t m :
  mem_bounded m → is_Some (m_tables m !! tb) → bucket_step fp fp [] m (put_table tb t m).
Proof.
  intros Hb Ht. split; try done; [by left..|set_solver|by apply bounded_put_table].
Qed.

Lemma step_env_tail fp m : mem_bounded m → bucket_step fp fp [] m (env_tail m).
Proof. intros Hb. split; try done; [by left..|set_solver|apply env_tail_suffix]. Qed.

Section steps.
Context {KI : KeyIndex}.

Lemma bucket_at_lock nid i b rws fp m k : bucket_at nid i b rws fp m → bucket_at nid i (with_lock k b) rws fp m.
Proof. done. Qed.

Lemma bucket_at_table nid i b rws fp m tb t :
  bucket_at nid i b rws fp m → bucket_at nid i b rws fp (put_table tb t m).
Proof. intros H. by eapply bucket_at_frame. Qed.

Lemma wp_realloc p old n m (Q : ptr → Mem → Prop) :
  mem_bounded m →
  match p with None => old = [] | Some a => m_arrays m !! a = Some old end →
  (next_call m = false → Q None (env_tail m)) →
  (next_call m = true →
   let h := <[m_next m := take n old ++ replicate (n - length old) None]> (m_arrays m) in
   Q (Some (m_next m)) (set_next (Pos.succ (m_next m))
     (set_arrays (match p with None => h | Some a => delete a h end) (env_tail m)))) →
  wp (realloc_array p n) Q m.
Proof.
  intros Hb Hp Hno Hyes. apply wp_bind, wp_lib_call. fold (next_call m).
  destruct (next_call m); [|by apply Hno]. specialize (Hyes eq_refl). cbv zeta in Hyes.
  apply wp_bind. destruct p as [a|].
  - eapply (@wp_load _ heap_arrays); [exact Hp|]. apply wp_bind. unfold wpx at 1, fresh_block.
    apply wp_bind. eapply (@wp_free _ heap_arrays); [|by apply wp_ret].
    simpl. rewrite lookup_insert_ne; [exact Hp|]. intros Heq.
    assert (a < m_next m)%positive by live. lia.
  - subst old. apply wp_ret, wp_bind. unfold wpx at 1, fresh_block.
    apply wp_bind, (@wp_free_null _ heap_arrays), wp_ret, Hyes.
Qed.

Lemma length_take_holds {A} (arr : list (option A)) (xs : list A) :
  take (length xs) arr = Some <$> xs → length xs ≤ length arr.
Proof. intros H%(f_equal length). rewrite length_take, length_fmap in H. lia. Qed.

Lemma take_realloc {A} (arr : list (option A)) (xs : list A) n :
  take (length xs) arr = Some <$> xs → length xs ≤ n →
  take (length xs) (take n arr ++ replicate (n - length arr) None) = Some <$> xs.
Proof.
  intros H Hn. pose proof (length_take_holds _ _ H).
  rewrite take_app_le by (rewrite length_take; lia). by rewrite take_take, Nat.min_l.
Qed.

Lemma array_holds_old a rws cap m :
  array_holds a rws cap m → ∃ old,
    match a with None => old = [] | Some a => m_arrays m !! a = Some old end ∧
    length old = cap ∧ take (length (row_ptrs rws)) old = Some <$> row_ptrs rws.
Proof.
  intros [Hle H]. destruct a as [a|].
  - destruct H as (arr & Ha & Hl & Ht). exists arr. split_and!; try done.
    rewrite length_row_ptrs, Ht. unfold row_ptrs. by rewrite <- list_fmap_compose.
  - subst cap. exists []. by destruct rws; [|simpl in Hle; lia].
Qed.

(** The heap after the array of a bucket has been reallocated. *)
Lemma realloc_step fp rws cap cap' old m :
  let a' := m_next m in
  let h := <[a' := take cap' old ++ replicate (cap' - length old) None]> (m_arrays m) in
  let m' := set_next (Pos.succ a')
    (set_arrays (match fp_array fp with None => h | Some a => delete a h end) (env_tail m)) in
  mem_bounded m → array_holds (fp_array fp) rws cap m → length rws ≤ cap' →
  match fp_array fp with None => old = [] | Some a => m_arrays m !! a = Some old end →
  take (length (row_ptrs rws)) old = Some <$> row_ptrs rws →
  bucket_step fp (MkFp (Some a') (fp_tree fp) (fp_nodes fp)) [] m m' ∧
  array_holds (Some a') rws cap' m'.
Proof.
  intros a' h m' Hb Hholds Hle Hold Htake.
  assert (∀ a, fp_array fp = Some a → (a < a')%positive) as Hlt.
  { intros a Ha. rewrite Ha in Hold. live. }
  assert (m_arrays m' !! a' = Some (take cap' old ++ replicate (cap' - length old) None)) as Hnew.
  { unfold m', h. simpl. destruct (fp_array fp) as [a|]; [|apply lookup_insert_eq].
    rewrite lookup_delete_ne; [apply lookup_insert_eq|]. specialize (Hlt a eq_refl). lia. }
  split.
  - split; simpl; try done; try lia; [by left|..].
    + intros x [= <-]. right. lia.
    + intros x Hx _. rewrite Hx. apply lookup_delete_eq.
    + intros x Hx Hx'. unfold h. destruct (fp_array fp) as [a|];
        [rewrite lookup_delete_ne by congruence|]; by rewrite lookup_insert_ne by congruence.
    + intros r []%elem_of_nil.
    + intros x Hx. simpl in Hx. assert (m_next m ≤ x)%positive as Hx'%Hb by lia.
      unfold cell, no_cell in *. simpl. injection Hx' as -> -> -> -> Hxa. repeat f_equal.
      unfold h. destruct (fp_array fp) as [a|]; [rewrite lookup_delete; case_decide; [done|]|];
        by rewrite lookup_insert_ne by (unfold a'; lia).
    + apply env_tail_suffix.
  - split; [done|]. eexists. split; [exact Hnew|].
    rewrite length_app, length_take, length_replicate. split; [lia|].
    rewrite length_row_ptrs in Htake.
    pose proof (take_realloc old (row_ptrs rws) cap') as H. rewrite length_row_ptrs in H.
    rewrite H by done. unfold row_ptrs. by rewrite <- list_fmap_compose.
Qed.

(** Making room for one more row. *)
Lemma wp_ensure_capacity nid tb t i b rws fp m (Q : bool → Mem → Prop) :
  mem_bounded m → bucket_is tb i t b m → bucket_at nid i b rws fp m →
  (¬ no_failure m → Q false (env_tail m)) →
  (∀ b' fp' m', bucket_step fp fp' [] m m' →
     m_tables m' = <[tb := upd_bucket i b' t]> (m_tables m) →
     bkt_lock b' = bkt_lock b → bucket_at nid i b' rws fp' m' → length rws < capacity b' → Q true m') →
  wp (table_ensure_capacity (Some tb) i) Q m.
Proof.
  intros Hb Hbi Hat Hno Hyes. pose proof Hat as (Hsize & Hrows & Hholds & Hpk & Hidx & Hnd & Hall).
  pose proof Hbi as [Ht Hbk]. pose proof Hholds as [Hle _].
  unfold table_ensure_capacity. apply wp_bind. eapply wp_get_bucket; [done|]. case_decide as Hroom.
  - apply wp_ret. apply (Hyes b fp); try done; [by apply bucket_step_refl| |lia].
    rewrite upd_bucket_same by done. symmetry. by apply insert_id.
  - pose proof (grow_lt (capacity b)) as Hgrow. destruct (array_holds_old _ _ _ _ Hholds) as (old & Hold & _ & Htake).
    rewrite Hrows. apply wp_bind. eapply wp_realloc; [done|exact Hold|..].
    { intros Hcall. apply wp_ret, Hno. intros Hm. by rewrite next_call_ok in Hcall. }
    intros _. cbv zeta.
    destruct (realloc_step fp rws (capacity b) (grow (capacity b)) old m) as [Hs Hh]; [done|done|lia|done|done|].
    revert Hs Hh. cbv zeta. set (a' := m_next m). set (mR := set_next _ _). intros Hs Hh.
    assert (m_tables mR = m_tables m ∧ m_recs mR = m_recs m ∧ m_nodes mR = m_nodes m ∧ m_trees mR = m_trees m)
      as (HT & HR & HN & HTr) by done.
    assert (bucket_is tb i t b mR) as HbiR by (by unfold bucket_is; rewrite HT).
    clearbody mR. apply wp_bind. eapply wp_set_bucket; [exact HbiR|].
    apply wp_bind. eapply wp_set_bucket; [by eapply bucket_is_put|]. apply wp_ret.
    rewrite upd_bucket_twice, put_table_twice. set (b' := with_capacity _ _).
    pose proof (bs_bounded _ _ _ _ _ Hs) as HbR.
    apply (Hyes b' (MkFp (Some a') (fp_tree fp) (fp_nodes fp))); [| | |split_and!|]; try done.
    + eapply (bucket_step_trans _ _ _ [] []); [done|exact Hs|]. apply step_put_table; [done|].
      rewrite HT. eauto.
    + simpl. by rewrite HT.
    + eapply index_frame; [exact Hidx|simpl; by rewrite HTr|intros; simpl; by rewrite HN].
    + eapply Forall_impl; [exact Hall|]. intros r (H1 & H2). split; [|done]. simpl. by rewrite HR.
    + simpl. lia.
Qed.
End steps.

(** ** Adding a row to a bucket *)

Section add_row.
Context {KI : KeyIndex}.

Definition new_record (r : record) (m : Mem) : Mem :=
  set_next (Pos.succ (m_next m)) (set_recs (<[m_next m := r]> (m_recs m)) m).

Lemma record_step fp r m : mem_bounded m → bucket_step fp fp [(m_next m, r)] m (new_record r m).
Proof.
  intros Hb. split; simpl; try done; [by left..| | | |lia].
  - intros x Hx. rewrite lookup_insert_ne; [done|]. intros <-. apply Hx. left.
  - intros r' ->%list_elem_of_singleton. simpl. lia.
  - intros x Hx. simpl in Hx. assert (m_next m ≤ x)%positive as Hx'%Hb by lia.
    unfold cell, no_cell in *. simpl. rewrite lookup_insert_ne by lia. congruence.
Qed.

(** The index gains the key of the new row. *)
Lemma wp_index_insert nid i b rws fp r m (Q : bool → Mem → Prop) :
  mem_bounded m → no_failure m → bucket_at nid i b rws fp m → row_id r ∉ row_id <$> rws →
  (∀ fp' m', bucket_step fp fp' [] m m' → nodes_only m m' → fp_array fp' = fp_array fp →
     index_at (fp_tree fp') (index_map (rws ++ [r])) (fp_nodes fp') m' → Q true m') →
  wp (bptree_insert (pk_index b) (row_id r) (Some r.1)) Q m.
Proof.
  intros Hb Hm (_ & _ & _ & -> & Hidx & Hnd & _) Hr HQ.
  assert (index_map rws !! row_id r = None) as Hnone.
  { unfold index_map. rewrite lookup_fmap. destruct (rows_map rws !! row_id r) as [r'|] eqn:Hr'; [|done].
    apply rows_map_lookup in Hr' as [Hin Hid]; [|done]. destruct Hr. rewrite <- Hid.
    apply list_elem_of_fmap. eauto. }
  eapply wp_mono; [|eapply index_insert; [exact Hidx|by apply mem_bounded_nodes|done]].
  rewrite Hnone. intros ok m' (-> & Honly & Hnb & Hnext & Htr & F' & Hidx' & Hkeep & Hgrow & Hsame).
  pose proof Honly as (Hrec & Htab & Harr & Henv & Hout).
  apply (HQ (MkFp (fp_array fp) (fp_tree fp) F')); [|done|done|by rewrite index_map_app].
  split; simpl; try done; auto.
  - intros x _ _. by rewrite Harr.
  - intros x _. by rewrite Hrec.
  - intros r' []%elem_of_nil.
  - intros x Hx. assert (m_next m ≤ x)%positive as Hx'%Hb by lia. unfold cell, no_cell in *.
    rewrite Hrec, Htab, Harr. injection Hx' as Hxn Hxt -> -> ->. repeat f_equal.
    + destruct (m_nodes m' !! x) eqn:He; [|done].
      assert (x < m_next m')%positive by (apply Hnb; by rewrite He). lia.
    + rewrite Htr; [done|]. intros ->. destruct (index_live _ _ _ _ Hidx) as [[tree Htree] _]. congruence.
  - by rewrite Henv.
Qed.

(** The row pointer goes to the next slot of the array. *)
Lemma wp_push_row a rws cap r fp m (Q : unit → Mem → Prop) :
  mem_bounded m → fp_array fp = a → array_holds a rws cap m → length rws < cap →
  (∀ h, let m' := set_arrays h m in bucket_step fp fp [] m m' → array_holds a (rws ++ [r]) cap m' →
     Q tt m') →
  wp (array_set a (length rws) (Some r.1)) Q m.
Proof.
  intros Hb Hfp [_ Harr] Hlt HQ. destruct a as [a|]; [|lia]. destruct Harr as (arr & Ha & Hl & Htake).
  apply wp_bind. eapply (@wp_load _ heap_arrays); [exact Ha|]. apply wp_bind, wp_aset; [lia|].
  eapply (@wp_store _ heap_arrays); [exact Ha|]. apply HQ.
  - split; simpl; try done; [by left|..].
    + by left.
    + intros x Hx _. rewrite lookup_insert_ne; [done|]. congruence.
    + intros r' []%elem_of_nil.
    + intros x Hx%Hb. unfold cell, no_cell in *. simpl.
      rewrite lookup_insert_ne; [done|]. congruence.
  - split; [rewrite length_app; simpl; lia|]. eexists. split; [apply lookup_insert_eq|].
    rewrite length_insert, length_app. split; [done|]. simpl.
    replace (length rws + 1) with (S (length rws)) by lia.
    rewrite (take_S_r _ _ (Some (Some r.1))) by (apply list_lookup_insert_eq; lia).
    rewrite take_insert_ge by done. by rewrite Htake, fmap_app.
Qed.

(** The bucket with the row added. *)
Lemma bucket_at_add nid i b rws fp fp' r m m' :
  bucket_at nid i b rws fp m → bucket_step fp fp' [r] m m' →
  array_holds (fp_array fp') (rws ++ [r]) (capacity b) m' → fp_array fp' = fp_array fp →
  index_at (fp_tree fp') (index_map (rws ++ [r])) (fp_nodes fp') m' →
  row_ok nid i m' r → row_id r ∉ row_id <$> rws → (∀ r', r' ∈ rws → (r'.1 < m_next m)%positive) →
  bucket_at nid i (with_size (S (bkt_size b)) b) (rws ++ [r]) fp' m'.
Proof.
  intros (Hsize & Hrows & _ & Hpk & _ & Hnd & Hall) Hs Harr Hfa Hidx Hok Hr Hlive. split_and!; try done.
  - simpl. rewrite Hsize, length_app. simpl. lia.
  - simpl. congruence.
  - simpl. by rewrite (bs_tree _ _ _ _ _ Hs).
  - rewrite fmap_app. apply NoDup_app. split_and!; [done| |apply NoDup_singleton].
    intros x Hx. simpl. rewrite list_elem_of_singleton. by intros ->.
  - apply Forall_app. split; [|by apply Forall_singleton]. apply Forall_forall. intros r' Hr'.
    rewrite Forall_forall in Hall. destruct (Hall r' Hr') as (H1 & H2). split; [|done].
    rewrite (bs_recs _ _ _ _ _ Hs); [done|]. intros Heq. apply list_elem_of_singleton in Heq.
    assert (m_next m ≤ r.1)%positive as Hle by (apply (bs_new _ _ _ _ _ Hs); left).
    apply Hlive in Hr'. simpl in Heq. rewrite Heq in Hr'. lia.
Qed.
(** Indexing the new record and appending its pointer; [E] is what follows when
    the key was there, [K] what follows otherwise. *)
Lemma wp_add_row {A} nid tb t i b rws fp m r (E K : prog Mem A) (Q : A → Mem → Prop) :
  let l := m_next m in
  mem_bounded m → no_failure m → bucket_is tb i t b m → bucket_at nid i b rws fp m →
  length rws < capacity b →
  table_bucket_index_for_id (rec_id r) = i → (1 ≤ rec_id r < nid)%Z → rec_id r ∉ row_id <$> rws →
  (∀ fp' m', let b' := with_size (S (bkt_size b)) b in
     bucket_step fp fp' [(l, r)] m m' → bucket_at nid i b' (rws ++ [(l, r)]) fp' m' →
     m_tables m' = <[tb := upd_bucket i b' t]> (m_tables m) → wp K Q m') →
  wp (b ← get_bucket (Some tb) i;
      ok ← bptree_insert (pk_index b) (rec_id r) (Some l);
      if negb ok then E
      else
        b ← get_bucket (Some tb) i;
        array_set (rows b) (bkt_size b) (Some l);;
        set_bucket (Some tb) i (λ b, with_size (S (bkt_size b)) b);;
        K) Q (new_record r m).
Proof.
  intros l Hb1 Hm1 Hbi Hat1 Hroom Hidx Hid Hnew HQ. pose proof Hbi as [Ht1 Hbk].
  pose proof (record_step fp r m Hb1) as Hs2. set (m2 := new_record r m) in *.
  pose proof (bs_bounded _ _ _ _ _ Hs2) as Hb2.
  destruct (bucket_live _ _ _ _ _ _ Hb1 Hat1) as (La & Lt & Ln & Lr).
  assert (m_tables m2 = m_tables m ∧ m_env m2 = m_env m) as (HT2 & HE2) by done.
  assert (m_recs m2 !! l = Some r) as Hrec2 by apply lookup_insert_eq.
  assert (bucket_at nid i b rws fp m2) as Hat2.
  { eapply bucket_at_frame; [exact Hat1|lia|done..|]. intros r' Hr'%Lr. simpl.
    rewrite lookup_insert_ne; [done|lia]. }
  assert (∀ m', m_tables m' = m_tables m → bucket_is tb i t b m') as Hbi'.
  { intros m' Hm'. by split; [rewrite Hm'|]. }
  clearbody m2. apply wp_bind. eapply wp_get_bucket; [by apply Hbi'|].
  apply wp_bind. change (rec_id r) with (row_id (l, r)). change (Some l) with (Some (l, r).1) at 1.
  eapply wp_index_insert; [done|unfold no_failure; by rewrite HE2|exact Hat2|exact Hnew|].
  intros fp3 m3 Hs3 (HR3 & HT3 & HA3 & HE3 & HO3) Hfa3 Hidx3. cbv beta iota delta [negb].
  apply wp_bind. eapply wp_get_bucket; [apply Hbi'; by rewrite HT3|].
  pose proof Hat2 as (Hsize & Hrows & Hholds & _). rewrite Hrows, Hsize, <- Hfa3.
  apply wp_bind. eapply (wp_push_row _ _ (capacity b) (l, r) fp3); [apply Hs3|done| |done|].
  { rewrite Hfa3. destruct Hholds as [? Hh]. split; [done|]. by destruct (fp_array fp); rewrite ?HA3. }
  intros h m4 Hs4 Hholds4. apply wp_bind. eapply wp_set_bucket; [apply Hbi'; simpl; by rewrite HT3|].
  assert (bucket_step fp fp3 [(l, r)] m m4) as Hs14.
  { apply (bucket_step_trans _ _ _ [(l, r)] [] _ _ _ Hb1 Hs2).
    by apply (bucket_step_trans _ _ _ [] [] _ _ _ Hb2 Hs3). }
  apply (HQ fp3).
  - rewrite <- (app_nil_r [(l, r)]). eapply bucket_step_trans; [done|exact Hs14|].
    apply step_put_table; [apply Hs4|]. simpl. rewrite HT3, HT2. eauto.
  - apply bucket_at_table. eapply bucket_at_add; [exact Hat1|exact Hs14|done|done| |split; [|done]|done|done].
    + by eapply index_frame.
    + simpl. by rewrite HR3.
  - simpl. by rewrite HT3, HT2.
Qed.
End add_row.

(** ** Insertion *)

Lemma next_call_tail m : next_call m = false → ¬ no_failure m.
Proof. intros H Hm. by rewrite next_call_ok in H. Qed.

Lemma suffix_no_failure m m' : m_env m' `suffix_of` m_env m → no_failure m → no_failure m'.
Proof. unfold no_failure. intros [k Hk] Hm. rewrite Hm in Hk. by destruct k, (m_env m'). Qed.

Section insertion.
Context {KI : KeyIndex}.

Lemma inv_spent tb st t fps m0 m m' :
  table_inv tb st t fps m0 m → spent m m' → table_inv tb st t fps m0 m'.
Proof.
  intros Hinv (n & e & -> & He & Hn)%spent_spec. pose proof Hinv as []. split; try done.
  - intros i b rws fp Hb Hr Hf. destruct (ti_buckets i b rws fp Hb Hr Hf) as [Hk Hat].
    split; [done|]. by eapply bucket_at_frame.
  - intros x Hx. simpl in Hx. apply (ti_bounded x). lia.
Qed.

Lemma spent_env_tail m : spent m (env_tail m).
Proof. apply growing_env_tail, growing_refl. Qed.

Lemma inv_bump tb st t fps m0 m :
  table_inv tb st t fps m0 m → (st_next st < INT_MAX)%Z →
  let t' := with_next_id (st_next st + 1) t in
  table_inv tb (bump_id st) t' fps m0 (put_table tb t' m).
Proof.
  intros Hinv Hlt t'.
  destruct (ti_bucket _ _ _ _ _ _ 0 Hinv ltac:(unfold TABLE_BUCKET_COUNT; lia))
    as (b & rws & fp & Hb & Hr & Hf & [Ht _] & Hk & Hat).
  pose proof (ti_bounded _ _ _ _ _ _ Hinv) as Hbd.
  pose proof (ti_next_range _ _ _ _ _ _ Hinv) as Hrange.
  pose proof (inv_step tb st t fps m0 m Hinv 0 b b rws [] fp fp (st_next st + 1)%Z (put_table tb t' m)) as H.
  rewrite app_nil_r, !list_insert_id in H by done.
  assert (upd_bucket 0 b (with_next_id (st_next st + 1) t) = t') as Heq by (by apply upd_bucket_same).
  rewrite Heq in H. apply H; try done.
  - apply step_put_table; eauto.
  - eapply bucket_at_frame; [exact Hat|lia|done..].
  - lia.
Qed.

(** An operation under way on bucket [i]: it holds the lock, the bucket is [b']. *)
Record under_lock (tb : loc) (t : Table) (i : nat) (b' : TableBucket) (fp fp' : footprint)
    (new : list row) (m m' : Mem) : Prop := {
  ul_table : m_tables m' = <[tb := upd_bucket i b' t]> (m_tables m);
  ul_lock : bkt_lock b' = write_locked;
  ul_step : bucket_step fp fp' new m m'
}.

Lemma ul_bucket tb t i b b' fp fp' new m m' :
  under_lock tb t i b' fp fp' new m m' → buckets t !! i = Some b →
  bucket_is tb i (upd_bucket i b' t) b' m'.
Proof.
  intros [Ht _ _] Hb. split; [by rewrite Ht, lookup_insert_eq|by eapply upd_bucket_lookup].
Qed.

Lemma wp_unlock_step tb st t fps m0 m i b rws fp b' fp' new m' (Q : unit → Mem → Prop) :
  table_inv tb st t fps m0 m →
  buckets t !! i = Some b → st_buckets st !! i = Some rws → fps !! i = Some fp →
  under_lock tb t i b' fp fp' new m m' → bucket_at (st_next st) i b' (rws ++ new) fp' m' →
  (∀ m'', table_at tb (MkState (st_next st) (<[i := rws ++ new]> (st_buckets st))) m0 m'' →
     m_env m'' = m_env m' → m_out m'' = m_out m' → Q tt m'') →
  wp (pthread_rwlock_unlock (Some tb) i) Q m'.
Proof.
  intros Hinv Hb Hr Hf Hul Hat HQ. pose proof (ul_bucket _ _ _ _ _ _ _ _ _ _ Hul Hb) as Hbi.
  destruct Hul as [Ht Hk Hs]. pose proof (ti_next _ _ _ _ _ _ Hinv) as Hn.
  pose proof (ti_next_range _ _ _ _ _ _ Hinv) as Hrange. pose proof (ti_bounded _ _ _ _ _ _ Hinv) as Hbd.
  eapply wp_unlock; [exact Hbi|by right|]. rewrite upd_bucket_twice.
  apply HQ; [|done|done]. eexists _, _.
  assert (with_next_id (st_next st) t = t) as Ht' by (rewrite <- Hn; by destruct t).
  eapply (inv_step tb st t fps m0 m Hinv i b (with_lock unlocked b')); try done.
  - rewrite <- (app_nil_r new). eapply bucket_step_trans; [done|exact Hs|].
    apply step_put_table; [apply Hs|]. rewrite Ht, lookup_insert_eq. eauto.
  - by apply bucket_at_table, bucket_at_lock.
  - lia.
  - simpl. rewrite Ht, Ht'. by rewrite insert_insert_eq.
Qed.

(** Storing the new record, indexing it and appending its pointer. *)
Lemma wp_store_row tb st t fps m0 m i b rws fp b1 fp1 m1 r (Q : ptr → Mem → Prop) :
  let l := m_next m1 in
  table_inv tb st t fps m0 m →
  buckets t !! i = Some b → st_buckets st !! i = Some rws → fps !! i = Some fp →
  under_lock tb t i b1 fp fp1 [] m m1 → bucket_at (st_next st) i b1 rws fp1 m1 →
  length rws < capacity b1 → no_failure m1 →
  table_bucket_index_for_id (rec_id r) = i → (1 ≤ rec_id r < st_next st)%Z → rec_id r ∉ row_id <$> rws →
  (∀ m', table_at tb (MkState (st_next st) (<[i := rws ++ [(l, r)]]> (st_buckets st))) m0 m' →
     m_env m' `suffix_of` m_env m1 → m_out m' = m_out m1 → Q (Some l) m') →
  wp (b ← get_bucket (Some tb) i;
      ok ← bptree_insert (pk_index b) (rec_id r) (Some l);
      if negb ok then
        free (T:=record) (Some l);;
        pthread_rwlock_unlock (Some tb) i;;
        mret None
      else
        b ← get_bucket (Some tb) i;
        array_set (rows b) (bkt_size b) (Some l);;
        set_bucket (Some tb) i (λ b, with_size (S (bkt_size b)) b);;
        pthread_rwlock_unlock (Some tb) i;;
        mret (Some l)) Q (new_record r m1).
Proof.
  intros l Hinv Hb Hr Hf Hul Hat1 Hroom Hm1 Hidx Hid Hnew HQ.
  pose proof (ul_bucket _ _ _ _ _ _ _ _ _ _ Hul Hb) as Hbi. destruct Hul as [Ht1 Hk1 Hs1].
  eapply (wp_add_row (st_next st)); [apply Hs1|done|exact Hbi|done..|].
  intros fp' m' b' Hs' Hat' Ht'. rewrite upd_bucket_twice in Ht'. apply wp_bind.
  eapply (wp_unlock_step tb st t fps m0 m i b rws fp b' fp' [(l, r)]); [done..|split| |].
  - by rewrite Ht', Ht1, insert_insert_eq.
  - done.
  - by apply (bucket_step_trans _ _ _ [] [(l, r)] _ _ _ (ti_bounded _ _ _ _ _ _ Hinv) Hs1).
  - done.
  - intros m2 Hm2 HE HO. apply wp_ret, HQ; [done|rewrite HE; apply Hs'|rewrite HO; apply Hs'].
Qed.

(** The part of [table_insert] done under the bucket's lock. *)
Lemma insert_locked tb st t fps m0 m id name age (Q : ptr → Mem → Prop) :
  let i := table_bucket_index_for_id id in
  table_inv tb st t fps m0 m → (1 ≤ id < st_next st)%Z → id ∉ row_id <$> all_rows st →
  length (m_env m) ≤ 2 →
  (∀ m', ¬ no_failure m → table_at tb st m0 m' → m_env m' `suffix_of` m_env m →
     m_out m' = m_out m → Q None m') →
  (∀ l m', (m_next m ≤ l)%positive →
     table_at tb (add_row (l, MkRecord id (strncpy name (RECORD_NAME_SIZE - 1)) age) st) m0 m' →
     m_env m' `suffix_of` m_env m → m_out m' = m_out m → Q (Some l) m') →
  wp (locked ← pthread_rwlock_wrlock (Some tb) i;
      if negb locked then mret None
      else
        ok ← table_ensure_capacity (Some tb) i;
        if negb ok then pthread_rwlock_unlock (Some tb) i;; mret None
        else
          r ← calloc zero_record;
          match r with
          | None => pthread_rwlock_unlock (Some tb) i;; mret None
          | Some _ =>
              store r (MkRecord id (strncpy name (RECORD_NAME_SIZE - 1)) age);;
              b ← get_bucket (Some tb) i;
              ok ← bptree_insert (pk_index b) id r;
              if negb ok then
                free (T:=record) r;;
                pthread_rwlock_unlock (Some tb) i;;
                mret None
              else
                b ← get_bucket (Some tb) i;
                array_set (rows b) (bkt_size b) r;;
                set_bucket (Some tb) i (λ b, with_size (S (bkt_size b)) b);;
                pthread_rwlock_unlock (Some tb) i;;
                mret r
          end) Q m.
Proof.
  intros i Hinv Hid Hnew Henv Hno Hyes. pose proof (bucket_index_lt id) as Hlt.
  destruct (ti_bucket _ _ _ _ _ _ i Hinv Hlt) as (b & rws & fp & Hb & Hr & Hf & Hbi & Hk & Hat).
  pose proof (ti_bounded _ _ _ _ _ _ Hinv) as Hbd. pose proof Hbi as [Ht _].
  pose proof (ti_next_range _ _ _ _ _ _ Hinv) as Hrange. pose proof (ti_next _ _ _ _ _ _ Hinv) as Hnext.
  apply wp_bind. eapply wp_wrlock; [exact Hbi|done|]. destruct (next_call m) eqn:Hcall.
  2:{ apply wp_ret, Hno; [by apply next_call_tail| |apply env_tail_suffix|done].
      exists t, fps. by eapply inv_spent, spent_env_tail. }
  clear Hcall. set (bL := with_lock write_locked b). set (mL := put_table _ _ _).
  assert (under_lock tb t i bL fp fp [] m mL) as HulL.
  { split; [done|done|]. apply (bucket_step_trans fp fp fp [] [] m (env_tail m)); [done|by apply step_env_tail|].
    apply step_put_table; [done|eauto]. }
  assert (bucket_at (st_next st) i bL rws fp mL) as HatL by (by eapply bucket_at_frame).
  assert (id ∉ row_id <$> rws) as Hnew'.
  { intros (r & -> & Hin)%list_elem_of_fmap. apply Hnew, list_elem_of_fmap. exists r.
    split; [done|]. apply elem_of_all_rows. eauto. }
  assert (length (m_env mL) ≤ 1) as HenvL by (simpl; destruct (m_env m) as [|? [|? [|]]]; simpl in *; lia).
  assert (∀ m', ¬ no_failure m' → m_env m' `suffix_of` m_env m → ¬ no_failure m) as Hfail.
  { intros m' Hm' Hsuf Hm. by eapply Hm', suffix_no_failure. }
  (* whatever was done so far, giving up leaves the rows as they were *)
  assert (∀ b' fp' m', under_lock tb t i b' fp fp' [] m m' → bucket_at (st_next st) i b' rws fp' m' →
    ¬ no_failure m → wp (pthread_rwlock_unlock (Some tb) i;; mret None) Q m') as Hgiveup.
  { intros b' fp' m' Hul Hat' Hm. apply wp_bind.
    eapply (wp_unlock_step tb st t fps m0 m i b rws fp b' fp' []); [done..|by rewrite app_nil_r|].
    rewrite app_nil_r, list_insert_id by done. intros m2 Hm2 HE HO. apply wp_ret, Hno; [done| | |].
    - by destruct st.
    - rewrite HE. apply Hul.
    - rewrite HO. apply Hul. }
  cbv beta iota delta [negb]. apply wp_bind.
  eapply wp_ensure_capacity; [apply HulL|by eapply ul_bucket|exact HatL| |].
  { intros Hm. eapply (Hgiveup bL fp); [|by eapply bucket_at_frame|].
    - destruct HulL as [HT HK HS]. split; [done|done|].
      apply (bucket_step_trans _ _ _ [] [] _ _ _ Hbd HS), step_env_tail, HS.
    - eapply Hfail; [exact Hm|apply HulL]. }
  intros b1 fp1 m1 Hs1 Ht1 Hk1 Hat1 Hroom.
  assert (under_lock tb t i b1 fp fp1 [] m m1) as Hul1.
  { split; [rewrite Ht1; simpl; rewrite upd_bucket_twice, insert_insert_eq; done|by rewrite Hk1|].
    by apply (bucket_step_trans fp fp fp1 [] [] m mL m1); [|apply HulL|]. }
  assert (under_lock tb t i b1 fp fp1 [] m (env_tail m1)) as Hul2.
  { destruct Hul1 as [HT HK HS]. split; [done|done|].
    apply (bucket_step_trans _ _ _ [] [] _ _ _ Hbd HS), step_env_tail, HS. }
  assert (bucket_at (st_next st) i b1 rws fp1 (env_tail m1)) as Hat2 by (by eapply bucket_at_frame).
  assert (no_failure (env_tail m1)) as Hm2.
  { pose proof (Nat.le_trans _ _ _ (suffix_length _ _ (bs_env _ _ _ _ _ Hs1)) HenvL) as Hl. unfold no_failure. simpl.
    destruct (m_env m1) as [|? [|]]; [done|done|simpl in Hl; lia]. }
  apply wp_bind, wp_bind, wp_lib_call. fold (next_call m1). destruct (next_call m1) eqn:Hcall.
  2:{ apply wp_ret. eapply Hgiveup; [done..|]. eapply Hfail; [by apply next_call_tail|apply Hul1]. }
  unfold wpx at 1, fresh_block. apply wp_bind. eapply (@wp_store _ heap_recs); [apply lookup_insert_eq|].
  set (r := MkRecord id _ age).
  match goal with |- wp _ _ ?M => assert (M = new_record r (env_tail m1)) as -> end.
  { unfold new_record, set_recs, set_next. simpl. by rewrite insert_insert_eq. }
  eapply (wp_store_row tb st t fps m0 m i b rws fp b1 fp1 (env_tail m1) r); [done..|].
  intros m' Hm' HE HO. pose proof (ul_step _ _ _ _ _ _ _ _ _ Hul2) as HS. apply Hyes.
  - apply HS.
  - unfold add_row. change (row_id _) with id. fold i. by rewrite Hr.
  - etrans; [exact HE|apply HS].
  - rewrite HO. apply HS.
Qed.

(** [table_insert] stores the record under the next id, or fails: the id is
    spent if the id lock was taken, the rows are as they were. *)
Lemma insert_refines_table tb st t fps m0 m name age (Q : ptr → Mem → Prop) :
  table_inv tb st t fps m0 m → (st_next st < INT_MAX)%Z → length (m_env m) ≤ 3 →
  (∀ st' m', ¬ no_failure m → st' = st ∨ st' = bump_id st → table_at tb st' m0 m' →
     m_env m' `suffix_of` m_env m → m_out m' = m_out m → Q None m') →
  (∀ l m', (m_next m ≤ l)%positive →
     table_at tb (add_row (l, MkRecord (st_next st) (strncpy name (RECORD_NAME_SIZE - 1)) age)
       (bump_id st)) m0 m' →
     m_env m' `suffix_of` m_env m → m_out m' = m_out m → Q (Some l) m') →
  wp (table_insert (Some tb) (Some name) age) Q m.
Proof.
  intros Hinv Hlt Henv Hno Hyes. pose proof (ti_table _ _ _ _ _ _ Hinv) as Ht.
  pose proof (ti_mutex _ _ _ _ _ _ Hinv) as Hmx. pose proof (ti_next _ _ _ _ _ _ Hinv) as Hn.
  pose proof (ti_next_range _ _ _ _ _ _ Hinv) as Hrange.
  unfold table_insert. apply wp_bind, wp_bind. eapply wp_load_table; [exact Ht|]. rewrite Hmx.
  apply wp_bind, wp_lib_call. fold (next_call m). destruct (next_call m) eqn:Hcall.
  2:{ apply wp_ret, wp_ret, (Hno st); [by apply next_call_tail|by left| |apply env_tail_suffix|done].
      exists t, fps. by eapply inv_spent, spent_env_tail. }
  apply wp_bind. eapply wp_update_table; [exact Ht|]. apply wp_ret. cbv beta iota delta [negb].
  apply wp_bind. unfold take_next_id. apply wp_bind. eapply wp_load_table; [apply put_table_lookup|].
  simpl next_id. rewrite decide_True by lia. apply wp_bind.
  eapply wp_update_table; [apply put_table_lookup|]. apply wp_ret. rewrite put_table_twice.
  apply wp_bind, wp_bind. eapply wp_load_table; [apply put_table_lookup|].
  rewrite decide_True by done. eapply wp_update_table; [apply put_table_lookup|].
  rewrite put_table_twice. simpl next_id.
  set (t' := with_next_id_lock _ _). set (m1 := put_table _ _ _).
  assert (table_inv tb (bump_id st) (with_next_id (st_next st + 1) t) fps m0 m1) as Hinv1.
  { unfold m1. replace t' with (with_next_id (st_next st + 1) t).
    - apply inv_bump; [|done]. by eapply inv_spent, spent_env_tail.
    - unfold t'. rewrite <- Hn. destruct t. simpl in *. by subst. }
  assert (m_env m1 `suffix_of` m_env m) as Hsuf by apply env_tail_suffix.
  assert (m_out m1 = m_out m ∧ m_next m1 = m_next m) as [Hout Hnx] by done.
  assert (length (m_env m1) ≤ 2) as Henv1 by (simpl; destruct (m_env m); simpl in *; lia). rewrite Hn. clearbody m1.
  eapply (insert_locked tb (bump_id st) _ fps m0 m1); [exact Hinv1|simpl; lia| | | |].
  - intros (r & Heq & Hr)%list_elem_of_fmap. apply elem_of_all_rows in Hr as (j & rws & Hj & Hr).
    destruct (ti_row _ _ _ _ _ _ _ _ _ Hinv Hj Hr) as (_ & _ & ?). lia.
  - done.
  - intros m' Hm Hat HE HO. apply (Hno (bump_id st)); [|by right|done|by etrans|by rewrite HO].
    intros Hm'. by eapply Hm, suffix_no_failure.
  - intros l m' Hl Hat HE HO. apply Hyes; [by rewrite <- Hnx|done|by etrans|by rewrite HO].
Qed.
End insertion.
