(* ===== verification/TableLife.v ===== *)
(** Creation and destruction of the users table: creation gives an empty table
    or, if some library call fails, nothing and no leak; destruction gives back
    the memory as it was before the table was created. *)
From stdpp Require Import base list gmap sorting strings.
From Stdlib Require Import ZArith Lia.
From S2P Require Import Prelude Memory CLib BPTree Index Table TableMem TableRep TableCollect TableQueries TableUpdate.

(** ** Tables being torn down *)

(** A bucket whose lock is initialised and which has no index yet. *)
Definition blank_bucket : TableBucket := with_lock unlocked zero_bucket.

Section life.
Context {KI : KeyIndex}.

Definition slot_at (nid : Z) (i : nat) (b : TableBucket) (rws : list row) (o : option footprint)
    (m : Mem) : Prop :=
  match o with
  | Some fp => bkt_lock b = unlocked ∧ bucket_at nid i b rws fp m
  | None => rws = [] ∧ b = blank_bucket
  end.

(** What the footprints of a list own. *)
Definition part (P : footprint → loc → Prop) (ofps : list (option footprint)) (x : loc) : Prop :=
  Exists (λ o, match o with Some fp => P fp x | None => False end) ofps.
Definition rows_part (bss : list (list row)) (x : loc) : Prop := Exists (λ rws, x ∈ rws.*1) bss.

(** The buckets from [lo] on are still there. *)
Record teardown (tb : loc) (nid : Z) (lo : nat) (bss : list (list row)) (ofps : list (option footprint))
    (t : Table) (m0 m : Mem) : Prop := {
  td_table : m_tables m !! tb = Some t;
  td_mutex : next_id_lock t = Some false;
  td_mutex_init : next_id_lock_initialized t = true;
  td_init : initialized_buckets t = length bss;
  td_len : length ofps = length bss;
  td_len_t : length bss ≤ length (buckets t);
  td_slots j b rws o : lo ≤ j → buckets t !! j = Some b → bss !! j = Some rws → ofps !! j = Some o →
    slot_at nid j b rws o m;
  td_disjoint i j a b : ofps !! i = Some (Some a) → ofps !! j = Some (Some b) → i ≠ j → fp_disjoint a b;
  td_nodes : owns (part (λ fp x, x ∈ fp_nodes fp) (drop lo ofps)) (m_nodes m0) (m_nodes m);
  td_trees : owns (part (λ fp x, fp_tree fp = x) (drop lo ofps)) (m_trees m0) (m_trees m);
  td_arrays : owns (part (λ fp x, fp_array fp = Some x) (drop lo ofps)) (m_arrays m0) (m_arrays m);
  td_recs : owns (rows_part (drop lo bss)) (m_recs m0) (m_recs m);
  td_tables : owns (λ x, x = tb) (m_tables m0) (m_tables m)
}.

(** ** Destroying one bucket *)

Definition destroy_bucket (tb : ptr) (index : nat) : prog Mem unit :=
  b ← get_bucket tb index;
  for_up 0 (bkt_size b) (λ row_index _,
    b ← get_bucket tb index;
    row ← array_get (rows b) row_index;
    free (T:=record) row) tt;;
  b ← get_bucket tb index;
  free (T:=rec_array) (rows b);;
  set_bucket tb index (with_rows None);;
  set_bucket tb index (with_size 0);;
  set_bucket tb index (with_capacity 0);;
  b ← get_bucket tb index;
  bptree_destroy (pk_index b);;
  set_bucket tb index (with_pk_index None);;
  pthread_rwlock_destroy tb index.

Definition drop_array (a : ptr) (m : Mem) : Mem :=
  set_arrays (match a with None => m_arrays m | Some a => delete a (m_arrays m) end) m.
Definition drop_recs (ls : list loc) (m : Mem) : Mem := set_recs (drop_heap ls (m_recs m)) m.

Lemma row_addresses_NoDup nid i m rws :
  NoDup (row_id <$> rws) → Forall (row_ok nid i m) rws → NoDup rws.*1.
Proof.
  intros Hnd Hall. apply NoDup_fmap_2_strong.
  - intros x y Hx Hy Heq. rewrite Forall_forall in Hall.
    destruct (Hall x Hx) as [H1 _], (Hall y Hy) as [H2 _]. rewrite Heq in H1.
    apply (NoDup_ids_inj rws); [done..|]. unfold row_id. congruence.
  - by eapply NoDup_fmap_1.
Qed.

Lemma wp_free_rows nid tb i t b rws fp m (Q : unit → Mem → Prop) :
  bucket_is tb i t b m → bucket_at nid i b rws fp m →
  Q tt (drop_recs rws.*1 m) →
  wp (for_up 0 (bkt_size b) (λ row_index _,
    b ← get_bucket (Some tb) i;
    row ← array_get (rows b) row_index;
    free (T:=record) row) tt) Q m.
Proof.
  intros Hbi (Hsize & Hrows & [Hle Harr] & _ & _ & Hnd & Hall) HQ.
  pose proof (row_addresses_NoDup _ _ _ _ Hnd Hall) as Hna. rewrite Hsize.
  eapply wp_mono; [|apply (wp_for_up _ _ _ (λ j _ s, s = drop_recs (take j rws).*1 m)); [lia| |]].
  - intros [] s. by rewrite firstn_all; intros ->.
  - unfold drop_recs. simpl. rewrite drop_heap_nil. by destruct m.
  - intros j [] s [_ Hj] ->. destruct (lookup_lt_is_Some_2 rws j Hj) as [r Hr].
    apply wp_bind. eapply wp_get_bucket; [exact Hbi|]. rewrite Hrows. apply wp_bind.
    destruct (fp_array fp) as [a|]; [|lia]. destruct Harr as (arr & Ha & _ & Htake).
    eapply (wp_array_get a arr j (Some r.1)); [exact Ha| |].
    { apply (lookup_take_Some _ (length rws)). by rewrite Htake, list_lookup_fmap, Hr. }
    rewrite Forall_forall in Hall. destruct (Hall r) as [Hrec _]; [by eapply list_elem_of_lookup_2|].
    eapply (@wp_free _ heap_recs).
    { change hget with m_recs. simpl. rewrite lookup_drop_heap, decide_False; [exact Hrec|].
      rewrite <- (take_drop_middle _ _ _ Hr), fmap_app, NoDup_app in Hna.
      intros Hin. destruct Hna as (_ & Hna & _). eapply Hna; [exact Hin|left]. }
    rewrite (take_S_r _ _ r), fmap_app by done. unfold drop_recs. simpl hget.
    rewrite delete_drop_heap, (drop_heap_perm (r.1 :: _) ((take j rws).*1 ++ [r.1])); [done|].
    solve_Permutation.
Qed.

(** Destroying a bucket frees its rows, its array, its index, and its lock. *)
Lemma wp_destroy_bucket nid tb i t b rws fp m (Q : unit → Mem → Prop) :
  bucket_is tb i t b m → bkt_lock b = unlocked → bucket_at nid i b rws fp m →
  Q tt (put_table tb (upd_bucket i zero_bucket t)
    (set_trees (delete (fp_tree fp) (m_trees m))
      (drop_nodes (fp_nodes fp) (drop_array (fp_array fp) (drop_recs rws.*1 m))))) →
  wp (destroy_bucket (Some tb) i) Q m.
Proof.
  intros Hbi Hk Hat HQ. pose proof Hat as (Hsize & Hrows & [Hle Harr] & Hpk & Hidx & _).
  apply wp_bind. eapply wp_get_bucket; [exact Hbi|]. apply wp_bind.
  eapply wp_free_rows; [exact Hbi|exact Hat|]. set (m1 := drop_recs rws.*1 m) in *.
  assert (bucket_is tb i t b m1) as Hbi1 by exact Hbi.
  apply wp_bind. eapply wp_get_bucket; [exact Hbi1|]. rewrite Hrows. apply wp_bind.
  assert (∀ Q : unit → Mem → Prop, Q tt (drop_array (fp_array fp) m1) →
    wp (free (T:=rec_array) (fp_array fp)) Q m1) as Hfree.
  { intros Q' HQ'. destruct (fp_array fp) as [a|].
    - destruct Harr as (arr & Ha & _). by eapply (@wp_free _ heap_arrays).
    - apply (@wp_free_null _ heap_arrays). revert HQ'. unfold drop_array. by destruct m. }
  apply Hfree. clear Hfree. set (m2 := drop_array (fp_array fp) m1) in *.
  assert (bucket_is tb i t b m2) as Hbi2 by exact Hbi.
  apply wp_bind. eapply wp_set_bucket; [exact Hbi2|].
  apply wp_bind. eapply wp_set_bucket; [by eapply bucket_is_put|]. rewrite upd_bucket_twice, put_table_twice.
  apply wp_bind. eapply wp_set_bucket; [by eapply bucket_is_put|]. rewrite upd_bucket_twice, put_table_twice.
  apply wp_bind. eapply wp_get_bucket; [by eapply bucket_is_put|]. simpl pk_index. rewrite Hpk.
  apply wp_bind. eapply wp_mono; [|eapply index_destroy, index_frame; [exact Hidx|done|done]].
  intros [] m3 ->. set (b3 := with_capacity 0 _).
  match goal with |- wp _ _ ?M => set (m3 := M) end.
  assert (bucket_is tb i (upd_bucket i b3 t) b3 m3) as Hbi3 by (by eapply bucket_is_put).
  apply wp_bind. eapply wp_set_bucket; [exact Hbi3|].
  unfold pthread_rwlock_destroy. apply wp_bind. eapply wp_get_bucket; [by eapply bucket_is_put|].
  simpl bkt_lock. rewrite Hk, decide_True by done.
  eapply wp_set_bucket; [by eapply bucket_is_put|]. rewrite !upd_bucket_twice, put_table_twice.
  revert HQ. unfold m3, put_table, set_tables. simpl. by rewrite insert_insert_eq.
Qed.

Lemma wp_destroy_blank tb i t m (Q : unit → Mem → Prop) :
  bucket_is tb i t blank_bucket m → Q tt (put_table tb (upd_bucket i zero_bucket t) m) →
  wp (destroy_bucket (Some tb) i) Q m.
Proof.
  intros Hbi HQ. apply wp_bind. eapply wp_get_bucket; [exact Hbi|]. apply wp_bind. simpl.
  apply wp_ret, wp_bind. eapply wp_get_bucket; [exact Hbi|].
  apply wp_bind, (@wp_free_null _ heap_arrays).
  apply wp_bind. eapply wp_set_bucket; [exact Hbi|].
  apply wp_bind. eapply wp_set_bucket; [by eapply bucket_is_put|]. rewrite upd_bucket_twice, put_table_twice.
  apply wp_bind. eapply wp_set_bucket; [by eapply bucket_is_put|]. rewrite upd_bucket_twice, put_table_twice.
  apply wp_bind. eapply wp_get_bucket; [by eapply bucket_is_put|]. simpl pk_index.
  apply wp_bind, wp_ret, wp_bind. eapply wp_set_bucket; [by eapply bucket_is_put|].
  rewrite upd_bucket_twice, put_table_twice. unfold pthread_rwlock_destroy.
  apply wp_bind. eapply wp_get_bucket; [by eapply bucket_is_put|]. rewrite decide_True by done.
  eapply wp_set_bucket; [by eapply bucket_is_put|]. by rewrite upd_bucket_twice, put_table_twice.
Qed.

Lemma part_dec P (dec : ∀ f x, Decision (P f x)) ofps x : part P ofps x ∨ ¬ part P ofps x.
Proof.
  assert (∀ o : option footprint, Decision match o with Some fp => P fp x | None => False end)
    by (intros [fp|]; apply _).
  unfold part. destruct (decide (Exists (λ o, match o with Some fp => P fp x | None => False end) ofps)); auto.
Qed.

(** One footprint goes: [gone] is what it owned. *)
Lemma owns_gone {T} (P' gone : loc → Prop) (h0 h h' : gmap loc T) :
  owns (λ x, gone x ∨ P' x) h0 h →
  (∀ x, gone x → h' !! x = None) → (∀ x, ¬ gone x → h' !! x = h !! x) →
  (∀ x, gone x ∨ ¬ gone x) → (∀ x, P' x ∨ ¬ P' x) → owns P' h0 h'.
Proof.
  intros Ho Hgone Hsame Hdec Hdec'. eapply owns_step; [exact Ho| | | |].
  - tauto.
  - intros x [?|?] ?; [auto|done].
  - intros x ? _. apply Hsame. tauto.
  - intros x. destruct (Hdec x), (Hdec' x); tauto.
Qed.

Lemma row_other i j nid nid' m rws rws' r r' :
  Forall (row_ok nid i m) rws → Forall (row_ok nid' j m) rws' → i ≠ j →
  r ∈ rws → r' ∈ rws' → r.1 ≠ r'.1.
Proof.
  rewrite !Forall_forall. intros H H' Hij (H1 & H2 & _)%H (H1' & H2' & _)%H' Heq.
  rewrite Heq in H1. apply Hij. rewrite <- H2, <- H2'. unfold row_id. congruence.
Qed.

Lemma part_cons P fp ofps x : part P (Some fp :: ofps) x ↔ P fp x ∨ part P ofps x.
Proof. apply Exists_cons. Qed.

Lemma part_none P ofps x : part P (None :: ofps) x ↔ part P ofps x.
Proof. unfold part. rewrite Exists_cons. tauto. Qed.

Lemma owns_iff {T} (P P' : loc → Prop) (h0 h : gmap loc T) :
  (∀ x, P x ↔ P' x) → owns P h0 h → owns P' h0 h.
Proof. intros H Ho x. rewrite <- !H. apply Ho. Qed.

Lemma owns_part_gone {T} P (dec : ∀ f x, Decision (P f x)) fp ofps (h0 h h' : gmap loc T) :
  owns (part P (Some fp :: ofps)) h0 h →
  (∀ x, P fp x → h' !! x = None) → (∀ x, ¬ P fp x → h' !! x = h !! x) → owns (part P ofps) h0 h'.
Proof.
  intros Ho Hgone Hsame. apply (owns_gone _ (P fp) h0 h); try done.
  - eapply owns_iff; [|exact Ho]. intros x. apply part_cons.
  - intros x. destruct (dec fp x); auto.
  - by apply part_dec.
Qed.

(** The invariant through the destruction of bucket [lo]. *)
Lemma teardown_step tb nid lo bss ofps t m0 m :
  teardown tb nid lo bss ofps t m0 m → lo < length bss →
  wp (destroy_bucket (Some tb) lo) (λ _ m', (∃ t', teardown tb nid (S lo) bss ofps t' m0 m') ∧
    m_env m' = m_env m ∧ m_out m' = m_out m) m.
Proof.
  intros [Ht Hmx Hmi Hinit Hlen Hlent Hslots Hdis Hn Htr Har Hrec Htb] Hlo.
  destruct (lookup_lt_is_Some_2 (buckets t) lo) as [b Hb]; [lia|].
  destruct (lookup_lt_is_Some_2 bss lo) as [rws Hr]; [lia|].
  destruct (lookup_lt_is_Some_2 ofps lo) as [o Ho]; [lia|].
  pose proof (Hslots lo b rws o ltac:(lia) Hb Hr Ho) as Hslot.
  rewrite (drop_S _ _ _ Ho) in Hn, Htr, Har. rewrite (drop_S _ _ _ Hr) in Hrec.
  destruct o as [fp|]; destruct Hslot as [H1 H2].
  - eapply wp_destroy_bucket; [split; [exact Ht|exact Hb]|exact H1|exact H2|].
    split; [|done]. exists (upd_bucket lo zero_bucket t). split; try done.
    + apply put_table_lookup.
    + simpl. by rewrite length_insert.
    + intros j bj rj oj Hj Hbj Hrj Hoj. simpl in Hbj. rewrite list_lookup_insert_ne in Hbj by lia.
      pose proof (Hslots j bj rj oj ltac:(lia) Hbj Hrj Hoj) as Hs. destruct oj as [fpj|]; [|done].
      destruct Hs as [Hk Hat]. split; [done|].
      destruct (Hdis j lo fpj fp Hoj Ho ltac:(lia)) as [Da Dt Dn].
      eapply bucket_at_frame; [exact Hat|lia|..]; simpl.
      * intros x Hx%Da. destruct (fp_array fp) as [a|]; [|done]. rewrite lookup_delete_ne; congruence.
      * by rewrite lookup_delete_ne.
      * intros x Hx%Dn. by rewrite lookup_drop_heap, decide_False.
      * intros r Hrin. rewrite lookup_drop_heap, decide_False; [done|].
        intros (r' & Heq & Hr')%list_elem_of_fmap.
        apply (row_other lo j nid nid m rws rj r' r); [apply H2|apply Hat|lia|done..].
    + eapply (owns_part_gone (λ fp x, x ∈ fp_nodes fp) ltac:(intros; cbv beta; apply _)); [exact Hn|..]; simpl; intros x Hx;
        rewrite lookup_drop_heap; by case_decide.
    + eapply (owns_part_gone (λ fp x, fp_tree fp = x) ltac:(intros; cbv beta; apply _)); [exact Htr|..]; simpl; intros x Hx;
        rewrite lookup_delete; by case_decide.
    + eapply (owns_part_gone (λ fp x, fp_array fp = Some x) ltac:(intros; cbv beta; apply _)); [exact Har|..]; simpl; intros x Hx;
        destruct (fp_array fp) as [a|]; try done; rewrite lookup_delete; case_decide; congruence.
    + eapply (owns_gone _ (λ x, x ∈ rws.*1)); [|simpl..].
      * eapply owns_iff; [|exact Hrec]. intros x. apply Exists_cons.
      * intros x Hx. rewrite lookup_drop_heap; by case_decide.
      * intros x Hx. rewrite lookup_drop_heap; by case_decide.
      * intros x. destruct (decide (x ∈ rws.*1)); auto.
      * intros x. unfold rows_part. destruct (decide (Exists (λ rws, x ∈ rws.*1) (drop (S lo) bss))); auto.
    + eapply owns_step; [exact Htb|done|done| |].
      * intros x Hx _. simpl. by rewrite lookup_insert_ne.
      * intros x. destruct (decide (x = tb)); auto.
  - subst b rws. eapply wp_destroy_blank; [split; [exact Ht|exact Hb]|].
    split; [|done]. exists (upd_bucket lo zero_bucket t). split; try done.
    + apply put_table_lookup.
    + simpl. by rewrite length_insert.
    + intros j bj rj oj Hj Hbj Hrj Hoj. simpl in Hbj. rewrite list_lookup_insert_ne in Hbj by lia.
      pose proof (Hslots j bj rj oj ltac:(lia) Hbj Hrj Hoj) as Hs. destruct oj as [fpj|]; [|done].
      destruct Hs as [Hk Hat]. split; [done|]. by apply bucket_at_table.
    + eapply owns_iff; [|exact Hn]. intros x. apply part_none.
    + eapply owns_iff; [|exact Htr]. intros x. apply part_none.
    + eapply owns_iff; [|exact Har]. intros x. apply part_none.
    + eapply owns_iff; [|exact Hrec]. intros x. unfold rows_part. rewrite Exists_cons. set_solver.
    + eapply owns_step; [exact Htb|done|done| |].
      * intros x Hx _. simpl. by rewrite lookup_insert_ne.
      * intros x. destruct (decide (x = tb)); auto.
Qed.

(** ** Destroying a table *)

Definition same_heaps (m m' : Mem) : Prop :=
  m_nodes m' = m_nodes m ∧ m_trees m' = m_trees m ∧ m_recs m' = m_recs m ∧
  m_tables m' = m_tables m ∧ m_arrays m' = m_arrays m.

Lemma owns_nothing {T} (P : loc → Prop) (h0 h : gmap loc T) :
  owns P h0 h → (∀ x, ¬ P x) → h = h0.
Proof. intros Ho Hn. apply map_eq. intros x. by apply Ho. Qed.

Lemma destroy_teardown tb nid bss ofps t m0 m :
  teardown tb nid 0 bss ofps t m0 m →
  wp (table_destroy (Some tb)) (λ _ m', same_heaps m0 m' ∧ m_env m' = m_env m ∧ m_out m' = m_out m) m.
Proof.
  intros Htd. unfold table_destroy. apply wp_bind. eapply wp_load_table; [apply Htd|].
  rewrite (td_init _ _ _ _ _ _ _ _ Htd). apply wp_bind. eapply wp_mono; [|apply (wp_for_up _ _ _
    (λ j _ s, (∃ t', teardown tb nid j bss ofps t' m0 s) ∧ m_env s = m_env m ∧ m_out s = m_out m));
    [lia|eauto|]].
  - intros [] s ([t' [Ht Hmx Hmi Hinit Hlen _ _ _ Hn Htr Har Hrec Htb]] & He & Ho).
    rewrite drop_ge in Hn, Htr, Har by lia. rewrite drop_ge in Hrec by lia.
    apply wp_bind. eapply wp_load_table; [exact Ht|]. rewrite Hmi. apply wp_bind.
    unfold pthread_mutex_destroy. apply wp_bind. eapply wp_load_table; [exact Ht|].
    rewrite decide_True by done. eapply wp_update_table; [exact Ht|].
    eapply (@wp_free _ heap_tables); [apply put_table_lookup|]. simpl.
    split; [|done]. assert (∀ P x, ¬ part P [] x) as Hno by (intros P x []%Exists_nil).
    split_and!; simpl.
    + by eapply owns_nothing; [exact Hn|].
    + by eapply owns_nothing; [exact Htr|].
    + eapply owns_nothing; [exact Hrec|]. intros x []%Exists_nil.
    + apply map_eq. intros x. rewrite delete_insert_eq, lookup_delete. destruct (Htb x) as [H1 H2].
      case_decide; [subst; symmetry; by apply H1|by apply H2; congruence].
    + by eapply owns_nothing; [exact Har|].
  - intros j [] s [_ Hj] ([t' Ht'] & He & Ho). eapply wp_mono; [|by eapply teardown_step].
    intros [] s' (Hs & He' & Ho'). split_and!; [done|by rewrite He', He|by rewrite Ho', Ho].
Qed.

Lemma inv_teardown tb st t fps m0 m :
  table_inv tb st t fps m0 m → teardown tb (st_next st) 0 (st_buckets st) (Some <$> fps) t m0 m.
Proof.
  intros []. assert (∀ P x, part P (drop 0 (Some <$> fps)) x ↔ ∃ fp, fp ∈ fps ∧ P fp x) as Hpart.
  { intros P x. unfold part. simpl. rewrite drop_0, Exists_fmap, Exists_exists. done. }
  split; try done; try lia.
  - rewrite length_fmap. congruence.
  - intros j b rws o _ Hb Hr Ho. rewrite list_lookup_fmap in Ho.
    destruct (fps !! j) as [fp|] eqn:Hf; [|done]. simplify_eq/=. by apply (ti_buckets j).
  - intros i j a b Hi Hj Hij. rewrite list_lookup_fmap in Hi, Hj.
    destruct (fps !! i) eqn:Hfi; [|done]. destruct (fps !! j) eqn:Hfj; [|done]. simplify_eq/=.
    by eapply ti_disjoint.
  - eapply owns_iff; [|exact ti_nodes]. intros x. by rewrite Hpart.
  - eapply owns_iff; [|exact ti_trees]. intros x. by rewrite Hpart.
  - eapply owns_iff; [|exact ti_arrays]. intros x. by rewrite Hpart.
  - eapply owns_iff; [|exact ti_recs]. intros x. simpl. unfold rows_part. rewrite drop_0, Exists_exists.
    unfold all_rows. rewrite list_elem_of_fmap. split.
    + intros (r & -> & Hr). rewrite <- (map_id (st_buckets st)), elem_of_concat_map in Hr.
      destruct Hr as (rws & ? & ?). exists rws. split; [done|]. apply list_elem_of_fmap. eauto.
    + intros (rws & Hrws & (r & -> & Hr)%list_elem_of_fmap). exists r. split; [done|].
      rewrite <- (map_id (st_buckets st)). apply elem_of_concat_map. eauto.
Qed.

Lemma destroy_refines_table tb st m0 m :
  table_at tb st m0 m →
  wp (table_destroy (Some tb)) (λ _ m', same_heaps m0 m' ∧ m_env m' = m_env m ∧ m_out m' = m_out m) m.
Proof. intros (t & fps & Hinv). by eapply destroy_teardown, inv_teardown. Qed.

(** ** Creating a table *)

(** The index a new bucket gets. *)
Definition new_fp (tr : loc) : footprint := MkFp None tr [].

Lemma part_snoc P ofps o x :
  part P (ofps ++ [o]) x ↔ part P ofps x ∨ match o with Some fp => P fp x | None => False end.
Proof. unfold part. rewrite Exists_app, Exists_cons, Exists_nil. tauto. Qed.

(** One more bucket, with or without its index. *)
Lemma teardown_extend tb nid bss ofps t t' (otr : option loc) b' m0 m m' :
  teardown tb nid 0 bss ofps t m0 m → mem_bounded m →
  next_id_lock t' = next_id_lock t → next_id_lock_initialized t' = next_id_lock_initialized t →
  initialized_buckets t' = S (length bss) → length bss < length (buckets t') →
  (∀ j, j < length bss → buckets t' !! j = buckets t !! j) →
  buckets t' !! length bss = Some b' →
  slot_at nid (length bss) b' [] (new_fp <$> otr) m' →
  m_nodes m' = m_nodes m → m_arrays m' = m_arrays m → m_recs m' = m_recs m →
  m_trees m' = match otr with Some tr => <[tr := MkBPTree None]> (m_trees m) | None => m_trees m end →
  (∀ tr, otr = Some tr → (m_next m ≤ tr)%positive) →
  m_tables m' = <[tb := t']> (m_tables m) →
  teardown tb nid 0 (bss ++ [[]]) (ofps ++ [new_fp <$> otr]) t' m0 m'.
Proof.
  intros [Ht Hmx Hmi Hinit Hlen Hlent Hslots Hdis Hn Htr Har Hrec Htb] Hbd Hmx' Hmi' Hinit' Hlen' Hsame
    Hb' Hslot HN HA HR HT Hfresh HTab.
  rewrite drop_0 in Hn. rewrite drop_0 in Htr. rewrite drop_0 in Har. rewrite drop_0 in Hrec.
  assert (∀ j fp, ofps !! j = Some (Some fp) → j < length bss →
    (fp_tree fp < m_next m)%positive) as Hold.
  { intros j fp Hj Hjl. destruct (lookup_lt_is_Some_2 (buckets t) j) as [b Hb]; [lia|].
    destruct (lookup_lt_is_Some_2 bss j) as [rws Hrw]; [lia|].
    destruct (Hslots j b rws (Some fp) ltac:(lia) Hb Hrw Hj) as [_ Hat].
    by destruct (bucket_live _ _ _ _ _ _ Hbd Hat) as (_ & ? & _). }
  split; rewrite ?drop_0.
  - by rewrite HTab, lookup_insert_eq.
  - congruence.
  - congruence.
  - rewrite length_app. simpl. lia.
  - rewrite !length_app. simpl. lia.
  - rewrite length_app. simpl. lia.
  - intros j b rws o _ Hb Hrw Ho. destruct (decide (j < length bss)) as [Hj|Hj].
    + rewrite lookup_app_l in Hrw by lia. rewrite lookup_app_l in Ho by lia. rewrite Hsame in Hb by done.
      pose proof (Hslots j b rws o ltac:(lia) Hb Hrw Ho) as Hs. destruct o as [fp|]; [|done].
      destruct Hs as [Hk Hat]. split; [done|]. eapply bucket_at_frame; [exact Hat|lia|..].
      * intros x _. by rewrite HA.
      * rewrite HT. destruct otr as [tr|]; [|done]. rewrite lookup_insert_ne; [done|].
        intros ->. apply Hold in Ho; [|done]. specialize (Hfresh _ eq_refl). lia.
      * intros x _. by rewrite HN.
      * intros r _. by rewrite HR.
    + assert (j = length bss) as ->.
      { apply lookup_lt_Some in Hrw. rewrite length_app in Hrw. simpl in Hrw. lia. }
      rewrite lookup_app_r, Nat.sub_diag in Hrw by lia.
      rewrite lookup_app_r in Ho by lia. rewrite Hlen, Nat.sub_diag in Ho. by simplify_eq/=.
  - intros i j a b Hi Hj Hij.
    assert (∀ i a, (ofps ++ [new_fp <$> otr]) !! i = Some (Some a) →
      ofps !! i = Some (Some a) ∧ i < length bss ∨ i = length bss ∧ ∃ tr, otr = Some tr ∧ a = new_fp tr) as Hcase.
    { intros k c. rewrite lookup_app_Some. intros [Hk|[Hk Hk']].
      - left. split; [done|]. apply lookup_lt_Some in Hk. lia.
      - right. destruct (k - length ofps) as [|d] eqn:Hd; [|done]. split; [lia|].
        simpl in Hk'. destruct otr as [tr|]; [|done]. exists tr. by simplify_eq/=. }
    destruct (Hcase i a Hi) as [[Hi' ?]|(-> & tr & Hotr & ->)],
      (Hcase j b Hj) as [[Hj' ?]|(-> & tr' & Hotr' & ->)]; [by eapply Hdis| | |done].
    + split; simpl; [done| |by set_solver]. apply Hold in Hi'; [|done]. specialize (Hfresh _ Hotr'). lia.
    + split; simpl; [done| |by set_solver]. apply Hold in Hj'; [|done]. specialize (Hfresh _ Hotr). lia.
  - rewrite HN. eapply owns_iff; [|exact Hn]. intros x. rewrite part_snoc.
    destruct otr; simpl; [rewrite elem_of_nil|]; tauto.
  - eapply (owns_step (part (λ fp x, fp_tree fp = x) ofps)); [exact Htr|..]; intros x; rewrite ?part_snoc.
    + intros Hx [?|Hx']; [done|]. destruct otr as [tr|]; [|done]. simpl in Hx'. subst x.
      specialize (Hfresh _ eq_refl). apply Hbd in Hfresh. unfold cell, no_cell in Hfresh. congruence.
    + tauto.
    + intros Hx Hx'. rewrite HT. destruct otr as [tr|]; [|done]. simpl in Hx'.
      rewrite lookup_insert_ne; [done|tauto].
    + apply part_dec. intros; apply _.
  - rewrite HA. eapply owns_iff; [|exact Har]. intros x. rewrite part_snoc.
    destruct otr; simpl; [naive_solver|tauto].
  - rewrite HR. eapply owns_iff; [|exact Hrec]. intros x. unfold rows_part.
    rewrite Exists_app, Exists_cons, Exists_nil. simpl. set_solver.
  - eapply owns_step; [exact Htb|done|done| |].
    + intros x Hx _. by rewrite HTab, lookup_insert_ne.
    + intros x. destruct (decide (x = tb)); auto.
Qed.

(** A table whose first [i] buckets are made. *)
Record building (tb : loc) (i : nat) (fps : list footprint) (t : Table) (m0 m : Mem) : Prop := {
  bd_td : teardown tb 1 0 (replicate i []) (Some <$> fps) t m0 m;
  bd_len : length (buckets t) = TABLE_BUCKET_COUNT;
  bd_rest j : i ≤ j → j < TABLE_BUCKET_COUNT → buckets t !! j = Some zero_bucket;
  bd_id : next_id t = 1%Z;
  bd_bounded : mem_bounded m;
  bd_env : m_env m `suffix_of` m_env m0;
  bd_out : m_out m = m_out m0
}.

(** What [table_create] leaves when it gives up. *)
Definition gave_up (m0 m : Mem) : Prop :=
  same_heaps m0 m ∧ ¬ no_failure m0 ∧ m_env m `suffix_of` m_env m0 ∧ m_out m = m_out m0.

Lemma teardown_heaps tb nid lo bss ofps t m0 m m' :
  teardown tb nid lo bss ofps t m0 m → same_heaps m m' → teardown tb nid lo bss ofps t m0 m'.
Proof.
  intros [? ? ? ? ? ? Hslots ? ? ? ? ? ?] (HN & HT & HR & HTab & HA). split; rewrite ?HN, ?HT, ?HR, ?HTab, ?HA; try done.
  intros j b rws o Hj Hb Hr Ho. pose proof (Hslots j b rws o Hj Hb Hr Ho) as Hs. destruct o as [fp|]; [|done].
  destruct Hs as [Hk Hat]. split; [done|].
  eapply bucket_at_frame; [exact Hat|lia|intros; by rewrite ?HA, ?HT, ?HN, ?HR..].
Qed.

Lemma wp_give_up tb nid bss ofps t m0 m {A} (x : A) (Q : A → Mem → Prop) :
  teardown tb nid 0 bss ofps t m0 m → ¬ no_failure m0 → m_env m `suffix_of` m_env m0 → m_out m = m_out m0 →
  (∀ m', gave_up m0 m' → Q x m') →
  wp (table_destroy (Some tb);; mret x) Q m.
Proof.
  intros Htd Hm He Ho HQ. wp_call (by eapply destroy_teardown).
  intros [] m' (Hs & He' & Ho'). apply wp_ret, HQ. split_and!; [done|done|by rewrite He'|by rewrite Ho'].
Qed.

Lemma env_tail_heaps m : same_heaps m (env_tail m).
Proof. done. Qed.

Lemma bounded_index m tr : mem_bounded m → tr = m_next m →
  mem_bounded (set_next (Pos.succ tr) (set_trees (<[tr := MkBPTree None]> (m_trees m)) (env_tail m))).
Proof.
  intros Hb -> x Hx. simpl in Hx. assert (m_next m ≤ x)%positive as Hx'%Hb by lia.
  unfold cell, no_cell in *. simpl. rewrite lookup_insert_ne by lia. done.
Qed.

Lemma building_step tb i fps t m0 m :
  building tb i fps t m0 m → i < TABLE_BUCKET_COUNT →
  wp (ok ← pthread_rwlock_init (Some tb) i;
      if negb ok then table_destroy (Some tb);; mret (inr tt)
      else
        update (Some tb) (with_initialized_buckets (i + 1));;
        pk ← bptree_create;
        set_bucket (Some tb) i (with_pk_index pk);;
        match pk with
        | None => table_destroy (Some tb);; mret (inr tt)
        | Some _ => mret (inl tt)
        end)
    (λ r m', match r with
             | inl _ => ∃ fps' t', building tb (S i) fps' t' m0 m'
             | inr tt => gave_up m0 m'
             end) m.
Proof.
  intros [Htd Hlen Hrest Hid Hb He Ho] Hi. pose proof (td_table _ _ _ _ _ _ _ _ Htd) as Ht.
  pose proof (td_len _ _ _ _ _ _ _ _ Htd) as Hfl. rewrite length_fmap, length_replicate in Hfl.
  pose proof (td_mutex _ _ _ _ _ _ _ _ Htd) as Hmx. pose proof (td_mutex_init _ _ _ _ _ _ _ _ Htd) as Hmi.
  assert (bucket_is tb i t zero_bucket (env_tail m)) as Hbi by (split; [done|by apply Hrest]).
  assert (m_env (env_tail m) `suffix_of` m_env m0) as He1 by (etrans; [apply env_tail_suffix|done]).
  apply wp_bind, wp_bind, wp_lib_call. fold (next_call m). destruct (next_call m) eqn:Hcall.
  2:{ apply wp_ret. eapply wp_give_up; [by eapply teardown_heaps, env_tail_heaps| |done|done|done].
      intros Hm. by eapply next_call_tail, suffix_no_failure. }
  apply wp_bind. eapply wp_set_bucket; [exact Hbi|]. apply wp_ret.
  change (with_lock (Some (MkRWLock 0 false)) zero_bucket) with blank_bucket.
  set (t1 := upd_bucket i blank_bucket t). cbv beta iota delta [negb].
  apply wp_bind. eapply wp_update_table; [apply put_table_lookup|]. rewrite put_table_twice.
  set (t2 := with_initialized_buckets (i + 1) t1). set (m2 := put_table tb t2 (env_tail m)).
  assert (mem_bounded m2) as Hb2 by (apply bounded_put_table; [done|simpl; rewrite Ht; eauto]).
  assert (bucket_is tb i t2 blank_bucket m2) as Hbi2.
  { split; [apply put_table_lookup|]. simpl. apply list_lookup_insert_eq. lia. }
  assert (∀ j, j < length (replicate i (@nil row)) → buckets t2 !! j = buckets t !! j) as Hsame.
  { intros j Hj. rewrite length_replicate in Hj. simpl. by rewrite list_lookup_insert_ne by lia. }
  wp_call (apply index_create). intros pk m3 Hpk. apply wp_bind.
  destruct (next_call m2) eqn:Hcall2.
  - destruct Hpk as (-> & -> & Hidx). eapply wp_set_bucket; [split; [apply put_table_lookup|apply Hbi2]|].
    set (tr := m_next m2) in *. set (b3 := with_pk_index (Some tr) blank_bucket). apply wp_ret.
    exists (fps ++ [new_fp tr]), (upd_bucket i b3 t2).
    set (m3 := set_next _ _) in *. assert (mem_bounded m3) as Hb3 by (by apply bounded_index).
    split; try done.
    + rewrite replicate_S_end, fmap_app. change (Some <$> [new_fp tr]) with [new_fp <$> Some tr].
      eapply teardown_extend; rewrite ?length_replicate;
        [exact Htd|exact Hb|done|done|simpl; lia|simpl; rewrite !length_insert; lia| | |..]; try done.
      * intros j Hj. simpl. by rewrite list_insert_insert_eq, list_lookup_insert_ne by lia.
      * simpl. apply list_lookup_insert_eq. rewrite length_insert. lia.
      * split; [done|]. split_and!; try done; [|constructor].
        eapply index_frame; [exact Hidx|done|done].
      * by intros ? [= <-].
      * simpl. by rewrite insert_insert_eq.
    + simpl. by rewrite !length_insert.
    + intros j Hj Hj'. simpl. rewrite !list_lookup_insert_ne by lia. apply Hrest; lia.
    + apply bounded_put_table; [done|]. simpl. rewrite lookup_insert_eq. eauto.
    + simpl. etrans; [apply (env_tail_suffix m2)|]. done.
  - destruct Hpk as (-> & ->). eapply wp_set_bucket; [exact Hbi2|].
    eapply (wp_give_up tb 1 (replicate i [] ++ [[]]) ((Some <$> fps) ++ [new_fp <$> None])).
    + eapply (teardown_extend tb 1 _ _ t (upd_bucket i (with_pk_index None blank_bucket) t2) None blank_bucket m0 m);
        rewrite ?length_replicate;
        [exact Htd|exact Hb|done|done|simpl; lia|simpl; rewrite !length_insert; lia| | |..]; try done.
      * intros j Hj. simpl. by rewrite list_insert_insert_eq, list_lookup_insert_ne by lia.
      * simpl. apply list_lookup_insert_eq. rewrite length_insert. lia.
      * simpl. by rewrite insert_insert_eq.
    + intros Hm. by eapply (next_call_tail m2), (suffix_no_failure m0).
    + etrans; [apply (env_tail_suffix m2)|done].
    + done.
    + done.
Qed.

Lemma building_done tb fps t m0 m :
  building tb TABLE_BUCKET_COUNT fps t m0 m → table_inv tb empty_state t fps m0 m.
Proof.
  intros [[Ht Hmx Hmi Hinit Hfl _ Hslots Hdis Hn Htr Har Hrec Htb] Hlen Hrest Hid Hb He Ho].
  rewrite length_replicate in Hinit, Hfl. rewrite length_fmap in Hfl.
  assert (∀ P x, part P (drop 0 (Some <$> fps)) x ↔ ∃ fp, fp ∈ fps ∧ P fp x) as Hpart.
  { intros P x. unfold part. rewrite drop_0, Exists_fmap, Exists_exists. done. }
  split; try done.
  - intros i b rws fp Hbi Hri Hfi. apply (Hslots i b rws (Some fp)); [lia|done|done|].
    by rewrite list_lookup_fmap, Hfi.
  - intros i j a b Hi Hj Hij. apply (Hdis i j a b); [..|done]; by rewrite list_lookup_fmap, ?Hi, ?Hj.
  - eapply owns_iff; [|exact Hn]. intros x. by rewrite Hpart.
  - eapply owns_iff; [|exact Htr]. intros x. by rewrite Hpart.
  - eapply owns_iff; [|exact Har]. intros x. by rewrite Hpart.
  - eapply owns_iff; [|exact Hrec]. intros x. rewrite drop_0. unfold rows_part. rewrite Exists_exists.
    split; [|set_solver]. intros (rws & Hrws & Hx). apply elem_of_replicate_inv in Hrws. set_solver.
Qed.

Lemma building_start tb t m0 m :
  m_tables m = <[tb := t]> (m_tables m0) → m_tables m0 !! tb = None →
  m_nodes m = m_nodes m0 → m_trees m = m_trees m0 → m_recs m = m_recs m0 → m_arrays m = m_arrays m0 →
  t = MkTable 1 (Some false) true 0 (replicate TABLE_BUCKET_COUNT zero_bucket) →
  mem_bounded m → m_env m `suffix_of` m_env m0 → m_out m = m_out m0 →
  building tb 0 [] t m0 m.
Proof.
  intros HTab Hnone HN HT HR HA -> Hb He Ho.
  assert (∀ T (h : gmap loc T), owns (λ _, False) h h) as Hrefl by done.
  split; try done.
  - split; try done.
    + by rewrite HTab, lookup_insert_eq.
    + simpl. lia.
    + rewrite HN. eapply owns_iff; [|apply Hrefl]. intros x. unfold part. by rewrite Exists_nil.
    + rewrite HT. eapply owns_iff; [|apply Hrefl]. intros x. unfold part. by rewrite Exists_nil.
    + rewrite HA. eapply owns_iff; [|apply Hrefl]. intros x. unfold part. by rewrite Exists_nil.
    + rewrite HR. eapply owns_iff; [|apply Hrefl]. intros x. unfold rows_part. by rewrite Exists_nil.
    + intros x. split; [by intros ->|]. intros Hx. by rewrite HTab, lookup_insert_ne.
  - intros j _ Hj. by apply lookup_replicate_2.
Qed.

Lemma create_loop tb t m0 m (Q : unit + unit → Mem → Prop) :
  building tb 0 [] t m0 m →
  (∀ m', gave_up m0 m' → Q (inr tt) m') →
  (∀ fps t' m', building tb TABLE_BUCKET_COUNT fps t' m0 m' → Q (inl tt) m') →
  wp (for_until 0 TABLE_BUCKET_COUNT (λ index _,
        ok ← pthread_rwlock_init (Some tb) index;
        if negb ok then table_destroy (Some tb);; mret (inr tt)
        else
          update (Some tb) (with_initialized_buckets (index + 1));;
          pk ← bptree_create;
          set_bucket (Some tb) index (with_pk_index pk);;
          match pk with
          | None => table_destroy (Some tb);; mret (inr tt)
          | Some _ => mret (inl tt)
          end) tt) Q m.
Proof.
  intros Hbd Hno Hyes. eapply wp_mono; [|apply (wp_for_until _ _ _
    (λ i _ s, ∃ fps t', building tb i fps t' m0 s) (λ _ s, gave_up m0 s)); [lia|eauto|]].
  - intros [[]|[]] s; [|by apply Hno]. intros (fps & t' & Hb). by eapply Hyes.
  - intros i [] s [_ Hi] (fps & t' & Hb). eapply wp_mono; [|by eapply building_step].
    intros [[]|[]] s' H; done.
Qed.

(** [table_create] makes an empty table, or gives up without a trace. *)
Lemma create_refines m (Q : ptr → Mem → Prop) :
  mem_bounded m →
  (∀ m', gave_up m m' → Q None m') →
  (∀ tb m', table_at tb empty_state m m' → (m_next m ≤ tb)%positive →
     m_env m' `suffix_of` m_env m → m_out m' = m_out m → Q (Some tb) m') →
  wp table_create Q m.
Proof.
  intros Hb Hno Hyes. apply wp_bind, wp_bind, wp_lib_call. fold (next_call m).
  assert (∀ m', same_heaps m m' → m_env m' `suffix_of` m_env m → m_out m' = m_out m →
    ¬ no_failure m → gave_up m m') as Hgu by (intros; by split_and!).
  destruct (next_call m) eqn:Hcall.
  2:{ apply wp_ret, wp_ret, Hno, Hgu; [done|apply env_tail_suffix|done|by apply next_call_tail]. }
  unfold wpx at 1, fresh_block. set (tb := m_next m). simpl m_next. fold tb.
  pose proof (Hb tb ltac:(unfold tb; lia)) as Hcell. unfold cell, no_cell in Hcell.
  injection Hcell as HN HT HR HTab HA.
  change (set_next (Pos.succ tb) _) with
    (put_table tb zero_table (set_next (Pos.succ tb) (env_tail m))).
  set (m1 := set_next (Pos.succ tb) (env_tail m)).
  apply wp_bind. eapply wp_update_table; [apply put_table_lookup|]. rewrite put_table_twice.
  assert (m_env m1 `suffix_of` m_env m) as He1 by apply env_tail_suffix.
  apply wp_bind, wp_bind, wp_lib_call. fold (next_call (put_table tb (with_next_id 1 zero_table) m1)).
  destruct (next_call (put_table tb (with_next_id 1 zero_table) m1)) eqn:Hcall1.
  2:{ apply wp_ret. cbv beta iota delta [negb]. apply wp_bind.
      eapply (@wp_free _ heap_tables); [apply lookup_insert_eq|]. apply wp_ret, Hno, Hgu.
      - split_and!; try done. simpl. by rewrite delete_insert_id.
      - etrans; [apply (env_tail_suffix m1)|done].
      - done.
      - intros Hm. eapply (next_call_tail m1); [done|]. by eapply suffix_no_failure. }
  apply wp_bind. eapply wp_update_table; [apply put_table_lookup|]. apply wp_ret.
  cbv beta iota delta [negb]. apply wp_bind.
  eapply wp_update_table; [apply put_table_lookup|]. rewrite put_table_twice. apply wp_bind.
  match goal with |- wp _ _ ?M => set (m2 := M) end.
  eapply (create_loop tb (MkTable 1 (Some false) true 0 (replicate TABLE_BUCKET_COUNT zero_bucket)) m m2).
  - apply building_start; try done.
    + simpl. by rewrite insert_insert_eq.
    + intros x Hx. simpl in Hx. assert (m_next m ≤ x)%positive as Hx'%Hb by (fold tb; lia).
      unfold cell, no_cell in *. simpl. by rewrite !lookup_insert_ne by lia.
    + simpl. etrans; [apply (env_tail_suffix m1)|done].
  - intros m' Hg. by apply wp_ret, Hno.
  - intros fps t' m' Hbd. pose proof (bd_env _ _ _ _ _ _ Hbd) as He. pose proof (bd_out _ _ _ _ _ _ Hbd) as Ho.
    apply building_done in Hbd. apply wp_bind. eapply wp_update_table; [apply Hbd|].
    replace (with_initialized_buckets TABLE_BUCKET_COUNT t') with t'.
    2:{ pose proof (ti_init _ _ _ _ _ _ Hbd) as Hi. by destruct t'; simpl in *; subst. }
    rewrite put_table_same by apply Hbd. apply wp_ret, Hyes; [by exists t', fps|unfold tb; lia|done|done].
Qed.
End life.
