(* ===== verification/TableSpec.v ===== *)
(** The contract of table.h: as long as no library call fails, the table is an
    append-only list of records with consecutive ids, every lookup is a search
    of that list, and destroying the table leaves no memory behind.  The
    refinement is stated for whole client programs: any sequence of calls. *)
From stdpp Require Import base list gmap sorting strings.
From Stdlib Require Import Ascii ZArith Lia.
From S2P Require Import Prelude Memory CLib BPTree Index Table TableMem TableRep TableCollect TableQueries TableUpdate TableLife.

(** ** Client programs *)

Inductive op :=
  | Insert (name : cstr) (age : Z)
  | FindId (id : Z)
  | ScanId (id : Z)
  | FindName (name : cstr)
  | FindAge (age : Z)
  | ByName (name : cstr)
  | ById (c : TableComparison) (id : Z)
  | ByAge (c : TableComparison) (age : Z)
  | CollectAll
  | PrintAll.

(** What a client sees: the record behind a pointer, the records of an array,
    or what was printed. *)
Inductive reply :=
  | OneRow (r : option record)
  | Rows (rs : list record)
  | Printed (n : nat) (text : cstr)
  | Failed.

#[export] Instance reply_eq_dec : EqDecision reply.
Proof. solve_decision. Defined.

Definition fetch_row (p : ptr) : prog Mem reply :=
  match p with None => mret (OneRow None) | Some _ => r ← load_record p; mret (OneRow (Some r)) end.

Fixpoint fetch (p : ptr) (n i : nat) : prog Mem (list record) :=
  match n with
  | O => mret []
  | S n' => q ← array_get p i; r ← load_record q; rest ← fetch p n' (S i); mret (r :: rest)
  end.

(** Reads a result array and frees it. *)
Definition fetch_rows (r : bool * results) : prog Mem reply :=
  let '(ok, rs) := r in
  if negb ok then mret Failed
  else l ← fetch (records rs) (count rs) 0; free (T:=rec_array) (records rs);; mret (Rows l).

Definition run_op (tb : ptr) (o : op) : prog Mem reply :=
  match o with
  | Insert name age => p ← table_insert tb (Some name) age; fetch_row p
  | FindId id => p ← table_find_by_id tb id; fetch_row p
  | ScanId id => p ← table_scan_by_id tb id; fetch_row p
  | FindName name => p ← table_find_by_name tb (Some name); fetch_row p
  | FindAge age => p ← table_find_by_age tb age; fetch_row p
  | ByName name => r ← table_find_by_name_matches tb (Some name) no_results; fetch_rows r
  | ById c id => r ← table_find_by_id_condition tb c id no_results; fetch_rows r
  | ByAge c age => r ← table_find_by_age_condition tb c age no_results; fetch_rows r
  | CollectAll => r ← table_collect_all tb no_results; fetch_rows r
  | PrintAll =>
      modify (set_out []);; n ← table_print_all tb; out ← gets m_out; mret (Printed n out)
  end.

Fixpoint run_ops (tb : ptr) (os : list op) : prog Mem (list reply) :=
  match os with
  | [] => mret []
  | o :: os' => r ← run_op tb o; rs ← run_ops tb os'; mret (r :: rs)
  end.

(** The life of a table. *)
Definition run_client (os : list op) : prog Mem (list reply) :=
  tb ← table_create;
  rs ← run_ops tb os;
  table_destroy tb;;
  mret rs.

(** ** The specification: a list of records *)

Definition find_first (test : record → bool) (db : list record) : option record :=
  head (filter (λ r, test r = true) db).

Definition spec_op (o : op) (db : list record) : reply * list record :=
  match o with
  | Insert name age =>
      let r := MkRecord (Z.of_nat (length db) + 1) (take (RECORD_NAME_SIZE - 1) name) age in
      (OneRow (Some r), db ++ [r])
  | FindId id | ScanId id => (OneRow (find_first (λ r, bool_decide (rec_id r = id)) db), db)
  | FindName name => (OneRow (find_first (λ r, bool_decide (rec_name r = name)) db), db)
  | FindAge age => (OneRow (find_first (λ r, bool_decide (rec_age r = age)) db), db)
  | ByName name => (Rows (filter (λ r, bool_decide (rec_name r = name) = true) db), db)
  | ById c id => (Rows (filter (λ r, table_compare_int (rec_id r) c id = true) db), db)
  | ByAge c age => (Rows (filter (λ r, table_compare_int (rec_age r) c age = true) db), db)
  | CollectAll => (Rows db, db)
  | PrintAll => (Printed (length db) (concat (map record_line db)), db)
  end.

Fixpoint spec_ops (os : list op) (db : list record) : list reply :=
  match os with
  | [] => []
  | o :: os' => let '(r, db') := spec_op o db in r :: spec_ops os' db'
  end.

(** ** The abstraction *)

(** The list of records a table state stands for. *)
Definition db_of (st : table_state) : list record := (sorted_rows st).*2.

Section spec.
Context {KI : KeyIndex}.

(** [tb] holds the list [db], and the rest of the memory is [m0]. *)
Definition holds (tb : loc) (db : list record) (m0 m : Mem) : Prop :=
  ∃ st, table_at tb st m0 m ∧ db_of st = db ∧ st_next st = (Z.of_nat (length db) + 1)%Z ∧ no_failure m.

Lemma db_filter test st :
  (select test st).*2 = filter (λ r, test r = true) (db_of st).
Proof.
  unfold select, db_of. induction (sorted_rows st) as [|r rws IH]; [done|].
  rewrite fmap_cons. destruct (decide (test r.2 = true)) as [Ht|Ht].
  - rewrite (filter_cons_True (test_row test)) by done. rewrite fmap_cons.
    by rewrite filter_cons_True, IH by done.
  - by rewrite (filter_cons_False (test_row test)), filter_cons_False, IH by done.
Qed.

Lemma db_first rws : snd <$> head rws = head (rws : list row).*2.
Proof. by destruct rws. Qed.

Lemma table_at_spent tb st m0 m m' : table_at tb st m0 m → spent m m' → table_at tb st m0 m'.
Proof. intros (t & fps & Hinv) Hs. exists t, fps. by eapply inv_spent. Qed.

Lemma holds_spent tb db m0 m m' : holds tb db m0 m → spent m m' → holds tb db m0 m'.
Proof.
  intros (st & Hat & Hdb & Hn & Hm) Hs. exists st.
  split_and!; [by eapply table_at_spent|done|done|by eapply growing_no_failure].
Qed.

(** Reading back a row and an array. *)
Lemma wp_fetch_row (o : option row) (Q : reply → Mem → Prop) m :
  (∀ r, o = Some r → m_recs m !! r.1 = Some r.2) → Q (OneRow (snd <$> o)) m →
  wp (fetch_row (fst <$> o)) Q m.
Proof.
  intros Hr HQ. destruct o as [r|]; simpl; [|done].
  apply wp_bind. eapply wp_load_record; [by apply Hr|]. by apply wp_ret.
Qed.

Lemma wp_fetch m rs cap rws m1 : rows_in m rws → growing m rs cap (row_ptrs rws) m1 →
  ∀ n i (Q : list record → Mem → Prop), i + n = length rws → Q (drop i rws).*2 m1 →
  wp (fetch (records rs) n i) Q m1.
Proof.
  intros Hin Hg. induction n as [|n IH]; intros i Q Hi HQ; simpl.
  - rewrite drop_ge in HQ by lia. by apply wp_ret.
  - destruct (lookup_lt_is_Some_2 rws i) as [r Hr]; [lia|].
    apply wp_bind. eapply growing_get; [exact Hg|by unfold row_ptrs; rewrite list_lookup_fmap, Hr|].
    apply wp_bind. eapply wp_load_record.
    { rewrite (growing_recs _ _ _ _ _ Hg). unfold rows_in in Hin. rewrite Forall_lookup in Hin.
      by apply (Hin i). }
    apply wp_bind, IH; [lia|]. apply wp_ret. by rewrite (drop_S _ _ _ Hr) in HQ.
Qed.

Lemma wp_fetch_rows m rws r m1 (Q : reply → Mem → Prop) :
  arrays_bounded m → no_failure m → rows_in m rws → collects rws m r m1 →
  (∀ m', spent m m' → Q (Rows rws.*2) m') → wp (fetch_rows r) Q m1.
Proof.
  intros Hb Hm Hin Hc HQ. apply collects_ok in Hc as [Hok (cap & Hg)]; [|done].
  destruct r as [ok rs]. simpl in *. subst ok. simpl. apply wp_bind.
  pose proof Hg as (n & arr & e & _ & _ & _ & Hcount & _). rewrite length_row_ptrs in Hcount.
  eapply wp_fetch; [exact Hin|exact Hg|lia|]. rewrite drop_0.
  apply wp_bind. eapply growing_free; [exact Hb|exact Hg|]. intros m' Hs. by apply wp_ret, HQ.
Qed.

(** ** Each operation *)

Lemma sorted_rows_snoc r st rws :
  st_buckets st !! table_bucket_index_for_id (row_id r) = Some rws →
  NoDup (row_id <$> all_rows st) → (∀ r', r' ∈ all_rows st → (row_id r' < row_id r)%Z) →
  sorted_rows (add_row r st) = sorted_rows st ++ [r].
Proof.
  intros Hi Hnd Hlt. assert (all_rows (add_row r st) ≡ₚ all_rows st ++ [r]) as Hp.
  { unfold all_rows, add_row. simpl. rewrite Hi. by apply concat_insert. }
  assert (NoDup (row_id <$> all_rows st ++ [r])) as Hnd'.
  { rewrite fmap_app. apply NoDup_app. split_and!; [done| |apply NoDup_singleton].
    intros id (r' & -> & Hr')%list_elem_of_fmap. apply Hlt in Hr'. simpl.
    rewrite list_elem_of_singleton. lia. }
  assert (StronglySorted row_le (sorted_rows st)) as Hs by apply (StronglySorted_merge_sort row_le).
  apply (StronglySorted_unique_strong row_le).
  - intros x y Hx Hy. unfold sorted_rows in Hx. rewrite sort_rows_perm, Hp in Hx.
    unfold sorted_rows in Hy. rewrite sort_rows_perm in Hy. unfold row_le. intros ??.
    apply (NoDup_ids_inj (all_rows st ++ [r])); [done..|lia].
  - apply (StronglySorted_merge_sort row_le).
  - apply StronglySorted_app. split_and!; [|done|by repeat constructor].
    intros x y Hx ->%list_elem_of_singleton. unfold sorted_rows in Hx. rewrite sort_rows_perm in Hx.
    apply Hlt in Hx. unfold row_le. lia.
  - unfold sorted_rows. by rewrite !sort_rows_perm, Hp.
Qed.

Lemma holds_facts tb db m0 m : holds tb db m0 m →
  ∃ st t fps, table_inv tb st t fps m0 m ∧ db_of st = db ∧
    st_next st = (Z.of_nat (length db) + 1)%Z ∧ no_failure m ∧ arrays_bounded m ∧
    rows_in m (sorted_rows st) ∧ ∀ test, rows_in m (select test st).
Proof.
  intros (st & (t & fps & Hinv) & Hdb & Hn & Hm). exists st, t, fps.
  pose proof (sorted_rows_in _ _ _ _ _ _ Hinv) as Hin.
  split_and!; try done; [by eapply inv_arrays_bounded|].
  intros test. unfold select. apply Forall_forall. intros r [_ Hr]%list_elem_of_filter.
  unfold rows_in in Hin. rewrite Forall_forall in Hin. by apply Hin.
Qed.

(** A lookup of one row. *)
Lemma lookup_op (c : prog Mem ptr) (o : option row) tb db m0 m :
  holds tb db m0 m → (∀ r, o = Some r → m_recs m !! r.1 = Some r.2) →
  wp c (answers (fst <$> o) m) m →
  wp (p ← c; fetch_row p) (λ r m', r = OneRow (snd <$> o) ∧ holds tb db m0 m') m.
Proof.
  intros Hh Hr Hc. wp_call (exact Hc).
  intros p m' [Hs [-> | [_ Hm]]]; [|by destruct Hh as (? & ? & ? & ? & ?)].
  apply wp_fetch_row; [|by split; [|by eapply holds_spent]].
  intros r Hr'. rewrite (growing_recs _ _ _ _ _ Hs). by apply Hr.
Qed.

(** A search. *)
Lemma search_op (c : prog Mem (bool * results)) rws tb db m0 m :
  holds tb db m0 m → arrays_bounded m → rows_in m rws → wp c (collects rws m) m →
  wp (r ← c; fetch_rows r) (λ r m', r = Rows rws.*2 ∧ holds tb db m0 m') m.
Proof.
  intros Hh Hb Hin Hc. wp_call (exact Hc).
  intros r m1 Hr. pose proof Hh as (? & ? & ? & ? & Hm). eapply wp_fetch_rows; [done..|].
  intros m' Hs. split; [done|]. by eapply holds_spent.
Qed.

Lemma head_in m rws r : rows_in m rws → head rws = Some r → m_recs m !! r.1 = Some r.2.
Proof. intros Hin Hh. destruct rws; simplify_eq/=. by apply Forall_cons in Hin as [? _]. Qed.

Lemma first_reply test st : snd <$> head (select test st) = find_first test (db_of st).
Proof. by rewrite db_first, db_filter. Qed.

Lemma id_reply id tb st t fps m0 m : table_inv tb st t fps m0 m →
  table_map st !! id = head (select (λ r, bool_decide (rec_id r = id)) st).
Proof.
  intros Hinv. assert (select (λ r, bool_decide (rec_id r = id)) st = option_list (table_map st !! id)) as ->
    by exact (select_id _ _ _ _ _ _ Hinv id).
  by destruct (table_map st !! id).
Qed.

Lemma inv_set_out tb st t fps m0 m o :
  table_inv tb st t fps m0 m → table_inv tb st t fps m0 (set_out o m).
Proof.
  intros [? ? ? ? ? ? ? ? ? Hbs ? ? ? ? ? ? ?]. split; try done.
  intros i b rws fp Hb Hr Hf. destruct (Hbs i b rws fp Hb Hr Hf) as [Hk Hat].
  split; [done|]. by eapply bucket_at_frame.
Qed.

Lemma insert_op tb db m0 m name age :
  holds tb db m0 m → (Z.of_nat (length db) + 1 < INT_MAX)%Z →
  wp (p ← table_insert (Some tb) (Some name) age; fetch_row p)
    (λ r m', r = (spec_op (Insert name age) db).1 ∧ holds tb (spec_op (Insert name age) db).2 m0 m') m.
Proof.
  intros Hh Hlt. destruct (holds_facts _ _ _ _ Hh) as (st & t & fps & Hinv & Hdb & Hn & Hm & _ & _ & _).
  apply wp_bind. eapply insert_refines_table; [exact Hinv|lia|unfold no_failure in Hm; rewrite Hm; simpl; lia| |].
  { intros st' m' Hm'. by destruct Hm'. }
  intros l m' _ Hat Henv _. set (r := (l, MkRecord (st_next st) (strncpy name (RECORD_NAME_SIZE - 1)) age)) in *.
  pose proof Hat as (t' & fps' & Hinv').
  pose proof (bucket_index_lt (row_id r)) as Hi.
  destruct (ti_bucket _ _ _ _ _ _ _ Hinv Hi) as (b & rws & fp & _ & Hst & _ & _ & _ & _).
  assert (r ∈ all_rows (add_row r (bump_id st))) as Hr.
  { apply elem_of_all_rows. exists (table_bucket_index_for_id (row_id r)), (rws ++ [r]).
    split; [|set_solver]. unfold add_row. simpl. rewrite Hst.
    apply list_lookup_insert_eq. by apply lookup_lt_Some in Hst. }
  assert (m_recs m' !! l = Some r.2) as Hrec.
  { pose proof (inv_rows_in _ _ _ _ _ _ Hinv') as Hin. unfold rows_in in Hin.
    rewrite Forall_forall in Hin. by apply Hin in Hr. }
  apply (wp_fetch_row (Some r)).
  { by intros ? [= <-]. }
  simpl. rewrite Hn. split; [done|]. exists (add_row r (bump_id st)). split_and!; [done| | |].
  - unfold db_of. rewrite (sorted_rows_snoc r (bump_id st) rws).
    + rewrite fmap_app. unfold sorted_rows in *. change (all_rows (bump_id st)) with (all_rows st).
      fold (sorted_rows st) (db_of st). rewrite Hdb. unfold r. simpl. by rewrite Hn.
    + done.
    + eapply (ti_ids _ _ _ _ _ _ Hinv).
    + intros r' (j & rws' & Hj & Hr')%elem_of_all_rows.
      destruct (ti_row _ _ _ _ _ _ _ _ _ Hinv Hj Hr') as (_ & _ & ?). change (row_id r) with (st_next st). lia.
  - simpl. rewrite length_app. simpl. lia.
  - by eapply suffix_no_failure.
Qed.

Lemma print_rows_records rws : print_rows rws = concat (map record_line (rws : list row).*2).
Proof. unfold print_rows. induction rws as [|r rws IH]; [done|]. simpl. by rewrite IH. Qed.

Lemma print_op tb db m0 m :
  holds tb db m0 m →
  wp (run_op (Some tb) PrintAll)
    (λ r m', r = (spec_op PrintAll db).1 ∧ holds tb (spec_op PrintAll db).2 m0 m') m.
Proof.
  intros Hh. destruct (holds_facts _ _ _ _ Hh) as (st & t & fps & Hinv & Hdb & Hn & Hm & _).
  apply (inv_set_out _ _ _ _ _ _ []) in Hinv. simpl. apply wp_bind, wp_modify, wp_bind.
  eapply wp_mono; [|eapply print_all_refines, Hinv]. intros n m' [[-> Hs]|(_ & Hm' & _)]; [|by destruct Hm'].
  apply wp_bind, wp_gets, wp_ret. pose proof Hs as (nx & e & -> & _)%spent_spec. split.
  - assert (length db = length (all_rows st)) as ->.
    { rewrite <- Hdb. unfold db_of, sorted_rows. by rewrite length_fmap, sort_rows_perm. }
    rewrite <- Hdb. f_equal. simpl. apply print_rows_records.
  - eapply (holds_spent _ _ _ (set_out (m_out (set_out [] m) ++ print_rows (sorted_rows st)) (set_out [] m))); [|exact Hs].
    exists st. split_and!; [|done|done|done]. exists t, fps. by apply inv_set_out.
Qed.

(** Every call does what the specification says. *)
Lemma op_refines tb db m0 m o :
  holds tb db m0 m → (Z.of_nat (length db) + 1 < INT_MAX)%Z →
  wp (run_op (Some tb) o) (λ r m', r = (spec_op o db).1 ∧ holds tb (spec_op o db).2 m0 m') m.
Proof.
  intros Hh Hlt. destruct (holds_facts _ _ _ _ Hh) as (st & t & fps & Hinv & Hdb & Hn & Hm & Hb & Hin & Hsel).
  assert (∀ test c, wp c (collects (select test st) m) m →
    wp (r ← c; fetch_rows r) (λ r m', r = Rows (filter (λ r, test r = true) db) ∧ holds tb db m0 m') m) as Hsearch.
  { intros test c Hc. rewrite <- Hdb, <- db_filter. rewrite Hdb. by eapply search_op. }
  assert (∀ test c, wp c (answers (first_row (select test st)) m) m →
    wp (p ← c; fetch_row p) (λ r m', r = OneRow (find_first test db) ∧ holds tb db m0 m') m) as Hlookup.
  { intros test c Hc. rewrite <- Hdb, <- first_reply. rewrite Hdb. eapply lookup_op; [done| |exact Hc].
    intros r Hr. eapply head_in; [apply Hsel|exact Hr]. }
  destruct o as [name age|id|id|name|age|name|c id|c age| |]; cbn [run_op spec_op fst snd].
  - by apply insert_op.
  - apply Hlookup. unfold first_row. rewrite <- (id_reply id _ _ _ _ _ _ Hinv). by eapply find_by_id_refines.
  - apply Hlookup. unfold first_row. rewrite <- (id_reply id _ _ _ _ _ _ Hinv). by eapply scan_by_id_refines.
  - apply Hlookup. by eapply find_by_name_refines.
  - apply Hlookup. by eapply find_by_age_refines.
  - apply (Hsearch (λ r, bool_decide (rec_name r = name))). by eapply name_matches_collects.
  - apply (Hsearch (λ r, table_compare_int (rec_id r) c id)).
    eapply wp_mono; [|by eapply id_condition_collects]. by intros r m' [?|(_ & Hm' & _)].
  - apply (Hsearch (λ r, table_compare_int (rec_age r) c age)). by eapply age_condition_collects.
  - eapply wp_mono; [|eapply search_op; [exact Hh|done|exact Hin|by eapply collect_all_collects]].
    intros r m' [-> H']. split; [|done]. by rewrite <- Hdb.
  - by apply print_op.
Qed.

Lemma spec_op_length o db : length (spec_op o db).2 ≤ S (length db).
Proof. destruct o; simpl; rewrite ?length_app; simpl; lia. Qed.

Lemma ops_refine tb os m0 : ∀ db m,
  holds tb db m0 m → (Z.of_nat (length db + length os) + 1 ≤ INT_MAX)%Z →
  wp (run_ops (Some tb) os) (λ rs m', rs = spec_ops os db ∧ ∃ db', holds tb db' m0 m') m.
Proof.
  induction os as [|o os IH]; intros db m Hh Hlt; simpl in *.
  - apply wp_ret. eauto.
  - apply wp_bind. eapply wp_mono; [|apply op_refines; [exact Hh|lia]]. intros r m' [-> Hh'].
    pose proof (spec_op_length o db). apply wp_bind.
    eapply wp_mono; [|apply IH; [exact Hh'|lia]]. intros rs m2 [-> H2]. apply wp_ret.
    by destruct (spec_op o db).
Qed.

Lemma client_refines os m :
  mem_bounded m → no_failure m → (Z.of_nat (length os) + 1 ≤ INT_MAX)%Z →
  wp (run_client os) (λ rs m', rs = spec_ops os [] ∧ same_heaps m m') m.
Proof.
  intros Hb Hm Hlt. apply wp_bind, create_refines; [done| |].
  - intros m' (_ & Hm' & _). by destruct Hm'.
  - intros tb m1 Hat _ Henv _. apply wp_bind. eapply wp_mono; [|apply (ops_refine tb os m [])].
    + intros rs m2 [-> (db & st & Hat2 & _)]. apply wp_bind.
      eapply wp_mono; [|by eapply destroy_refines_table]. intros [] m3 (Hs & _). by apply wp_ret.
    + exists empty_state. split_and!; [done|done|done|by eapply suffix_no_failure].
    + simpl. lia.
Qed.
End spec.
