(* ===== verification/Actions.v ===== *)
(** Threads that interleave: a program cut into actions, each of them a piece of
    sequential code that runs without interruption; what it means to run the
    actions of one thread alone; and a logic of rely and guarantee for threads
    that run together. *)
From stdpp Require Import base list gmap.
From Stdlib Require Import ZArith Lia Wellfounded.
From S2P Require Import Prelude.

(** ** Programs cut into actions *)

(** An action says which shared data it uses ([acc]); [k] goes on with its
    result. *)
Inductive act (Acc St A : Type) : Type :=
  | Done (a : A)
  | Act (acc : Acc) (X : Type) (c : prog St X) (k : X → act Acc St A).
Arguments Done {Acc St A} a.
Arguments Act {Acc St A} acc {X} c k.

Section act.
Context {Acc St : Type}.

#[export] Instance act_ret : MRet (act Acc St) := λ A a, Done a.
#[export] Instance act_bind : MBind (act Acc St) := λ A B k,
  fix bind p := match p with Done a => k a | Act acc c k' => Act acc c (λ x, bind (k' x)) end.

(** One action. *)
Definition atomic {X} (acc : Acc) (c : prog St X) : act Acc St X := Act acc c Done.

(** [for (i = lo; i < hi; i++)] whose body may leave the loop. *)
Fixpoint act_until {L R} (n i : nat) (body : nat → L → act Acc St (L + R)) (l : L) : act Acc St (L + R) :=
  match n with
  | O => mret (inl l)
  | S n' =>
      r ← body i l;
      match r with
      | inl l' => act_until n' (S i) body l'
      | inr x => mret (inr x)
      end
  end.

(** The actions of a thread that runs alone. *)
Fixpoint run_act {A} (p : act Acc St A) : prog St A :=
  match p with
  | Done a => mret a
  | Act _ c k => x ← c; run_act (k x)
  end.

Lemma run_bind {A B} (p : act Acc St A) (k : A → act Acc St B) s :
  run_act (p ≫= k) s = (a ← run_act p; run_act (k a)) s.
Proof.
  revert s. induction p as [a|acc X c k' IH]; intros s; [done|].
  change (run_act (Act acc c k' ≫= k) s) with ((x ← c; run_act (k' x ≫= k)) s).
  cbn [run_act]. unfold mbind, prog_bind. by destruct (c s) as [[x s']| | | |].
Qed.

Lemma run_until {L R} n i (body : nat → L → act Acc St (L + R)) l s :
  run_act (act_until n i body l) s = count_until n i (λ i l, run_act (body i l)) l s.
Proof.
  revert i l s. induction n as [|n IH]; intros i l s; [done|]. cbn [act_until count_until].
  rewrite run_bind. unfold mbind, prog_bind.
  by destruct (run_act (body i l) s) as [[[l'|x] s']| | | |].
Qed.
End act.

(** ** What every action does *)

(** Every action of [p] does [R] to the state, whatever the others give. *)
Fixpoint act_all {Acc St A} (R : St → St → Prop) (p : act Acc St A) : Prop :=
  match p with
  | Done _ => True
  | Act _ c k => (∀ s x s', c s = Ok (x, s') → R s s') ∧ ∀ x, act_all R (k x)
  end.

Section act_all.
Context {Acc St : Type} (R : St → St → Prop).

Lemma act_all_ret {A} (a : A) : act_all R (mret a : act Acc St A).
Proof. done. Qed.

Lemma act_all_atomic {X} (acc : Acc) (c : prog St X) :
  (∀ s x s', c s = Ok (x, s') → R s s') → act_all R (atomic acc c).
Proof. by intros Hc. Qed.

Lemma act_all_bind {A B} (p : act Acc St A) (k : A → act Acc St B) :
  act_all R p → (∀ a, act_all R (k a)) → act_all R (p ≫= k).
Proof.
  intros Hp Hk. induction p as [a|acc X c k' IH]; [apply Hk|].
  destruct Hp as [Hc Hp]. split; [done|]. intros x. apply IH, Hp.
Qed.

Lemma act_all_until {L R'} n (body : nat → L → act Acc St (L + R')) : (∀ i l, act_all R (body i l)) →
  ∀ i l, act_all R (act_until n i body l).
Proof.
  intros Hb. induction n as [|n IH]; intros i l; cbn [act_until]; [done|].
  apply act_all_bind; [done|]. intros [l'|x]; [apply IH|done].
Qed.
End act_all.

(** ** Sequential programs that do the same *)

Lemma bind_same {St A B} (c c' : prog St A) (k k' : A → prog St B) s :
  c s = c' s → (∀ a s', k a s' = k' a s') → (c ≫= k) s = (c' ≫= k') s.
Proof. intros Hc Hk. unfold mbind, prog_bind. rewrite Hc. destruct (c' s) as [[a s']| | | |]; [apply Hk|done..]. Qed.

Lemma bind_assoc {St A B C} (c : prog St A) (k : A → prog St B) (k' : B → prog St C) s :
  ((c ≫= k) ≫= k') s = (c ≫= λ a, k a ≫= k') s.
Proof. unfold mbind, prog_bind. by destruct (c s) as [[a s']| | | |]. Qed.

Lemma until_same {St L R} n i (body body' : nat → L → prog St (L + R)) l s :
  (∀ i l s, body i l s = body' i l s) → count_until n i body l s = count_until n i body' l s.
Proof.
  intros H. revert i l s. induction n as [|n IH]; intros i l s; [done|]. cbn [count_until].
  apply bind_same; [apply H|]. intros [l'|x] s'; [apply IH|done].
Qed.

(** ** Rely and guarantee *)

(** What the threads agree on about the state is described by a ghost state:
    [inv g s] relates the two, [rely i g g'] bounds what the other threads may
    do to the ghost state between two actions of thread [i], [promise g g'] is
    what every action keeps, [allowed acc i g] says that the thread may use the
    data [acc], [waits i g] that it may find itself blocked, and [dies i g] that
    a signal may end the process while it acts. *)
Record protocol (Acc St G : Type) := Protocol {
  inv : G → St → Prop;
  rely : nat → G → G → Prop;
  promise : G → G → Prop;
  allowed : Acc → nat → G → Prop;
  waits : nat → G → Prop;
  dies : nat → G → Prop;
  rely_refl i g : rely i g g;
  rely_trans i g1 g2 g3 : rely i g1 g2 → rely i g2 g3 → rely i g1 g3;
  promise_refl g : promise g g;
  allowed_stable acc i g g' : allowed acc i g → rely i g g' → allowed acc i g'
}.
Arguments inv {Acc St G}.
Arguments rely {Acc St G}.
Arguments promise {Acc St G}.
Arguments allowed {Acc St G}.
Arguments waits {Acc St G}.
Arguments dies {Acc St G}.
Arguments rely_refl {Acc St G}.
Arguments rely_trans {Acc St G}.
Arguments promise_refl {Acc St G}.
Arguments allowed_stable {Acc St G}.

Section logic.
Context {Acc St G : Type} (P : protocol Acc St G).
Implicit Types g : G.

(** What a thread guarantees: every other thread can rely on it, and the promise. *)
Definition guar (i : nat) (g g' : G) : Prop := (∀ j, j ≠ i → rely P j g g') ∧ promise P g g'.

Lemma guar_refl i g : guar i g g.
Proof. split; [intros j _; apply rely_refl|apply promise_refl]. Qed.

(** [wpc i p Q g]: from ghost state [g], whatever the others do, every action of
    [p] is defined, uses what it may, keeps the invariant and guarantees what
    the others rely on; and where [p] is done, [Q] holds. *)
Fixpoint wpc {A} (i : nat) (p : act Acc St A) (Q : A → G → Prop) (g : G) : Prop :=
  match p with
  | Done a => Q a g
  | Act acc c k =>
      allowed P acc i g ∧
      ∀ g1 s, rely P i g g1 → inv P g1 s →
        match c s with
        | Ok (x, s') => ∃ g2, inv P g2 s' ∧ guar i g1 g2 ∧ wpc i (k x) Q g2
        | Blocked => waits P i g1
        | Killed => dies P i g1
        | _ => False
        end
  end.

Definition stable {A} (i : nat) (Q : A → G → Prop) : Prop := ∀ a g g', Q a g → rely P i g g' → Q a g'.

Lemma wpc_rely {A} i (p : act Acc St A) Q g g' :
  stable i Q → wpc i p Q g → rely P i g g' → wpc i p Q g'.
Proof.
  intros HQ Hp Hr. destruct p as [a|acc X c k]; cbn [wpc] in *; [by eapply HQ|].
  destruct Hp as [Ha Hp]. split; [by eapply allowed_stable|]. intros g1 s Hr1. apply Hp. by eapply rely_trans.
Qed.

Lemma wpc_mono {A} i (p : act Acc St A) (Q Q' : A → G → Prop) g :
  wpc i p Q g → (∀ a g', Q a g' → Q' a g') → wpc i p Q' g.
Proof.
  intros Hp HQ. revert g Hp. induction p as [a|acc X c k IH]; intros g Hp; cbn [wpc] in *; [by apply HQ|].
  destruct Hp as [Ha Hp]. split; [done|]. intros g1 s Hr Hi. specialize (Hp g1 s Hr Hi).
  destruct (c s) as [[x s']| | | |]; try done. destruct Hp as (g2 & ? & ? & ?). exists g2. auto.
Qed.

Lemma wpc_bind {A B} i (p : act Acc St A) (k : A → act Acc St B) Q g :
  wpc i p (λ a g', wpc i (k a) Q g') g → wpc i (p ≫= k) Q g.
Proof.
  revert g. induction p as [a|acc X c k' IH]; intros g Hp; [done|].
  change (wpc i (Act acc c (λ x, k' x ≫= k)) Q g). cbn [wpc] in *.
  destruct Hp as [Ha Hp]. split; [done|]. intros g1 s Hr Hi. specialize (Hp g1 s Hr Hi).
  destruct (c s) as [[x s']| | | |]; try done. destruct Hp as (g2 & ? & ? & ?). exists g2. auto.
Qed.

Lemma wpc_ret {A} i (a : A) Q g : Q a g → wpc i (mret a) Q g.
Proof. done. Qed.

(** The rule of a loop. *)
Lemma wpc_until {L R} i (body : nat → L → act Acc St (L + R)) (I : nat → L → G → Prop) (E : R → G → Prop) n : ∀ j l g,
  I j l g →
  (∀ j' l g, j ≤ j' < j + n → I j' l g →
     wpc i (body j' l) (λ r g', match r with inl l' => I (S j') l' g' | inr x => E x g' end) g) →
  wpc i (act_until n j body l) (λ r g', match r with inl l' => I (j + n) l' g' | inr x => E x g' end) g.
Proof.
  induction n as [|n IH]; intros j l g HI Hbody; cbn [act_until].
  - apply wpc_ret. by rewrite Nat.add_0_r.
  - apply wpc_bind. eapply wpc_mono; [apply Hbody; [lia|done]|].
    intros [l'|x] g' Hg'; [|by apply wpc_ret]. cbn.
    eapply wpc_mono; [apply (IH (S j)); [done|]; intros; apply Hbody; [lia|done]|].
    intros [l2|x] g2 H2; [|done]. by rewrite Nat.add_succ_comm in H2.
Qed.
End logic.

(** ** Threads end *)

(** The order in which a thread goes through its actions. *)
Definition next_act {Acc St A} (p' p : act Acc St A) : Prop :=
  match p with Done _ => False | Act _ c k => ∃ x s s', c s = Ok (x, s') ∧ p' = k x end.

Lemma next_act_wf {Acc St A} : well_founded (@next_act Acc St A).
Proof.
  intros p. induction p as [a|acc X c k IH]; constructor; intros p' H; [done|].
  destruct H as (x & _ & _ & _ & ->). apply IH.
Qed.
