(* ===== verification/TableActs.v ===== *)
(** The users table as threads run it: the operations of [sql_processor/table.c]
    cut into actions, each of which runs between two calls of the locks; and
    threads that make calls of the table at the same time. *)
From stdpp Require Import base list gmap sorting strings.
From Stdlib Require Import Ascii ZArith Lia.
From S2P Require Import Prelude Memory CLib BPTree Index Table TableMem TableRep TableCollect TableQueries TableUpdate TableLife TableSpec Actions.

(** ** What an action uses *)

(** [Local] is a thread's own result array, and the fields of stored records,
    which nobody changes; [Next_id] is [next_id] of the table; [Reads i] and
    [Writes i] are bucket [i] with its array, its index and its new record;
    [Sync] is a call of a lock. *)
Inductive access := Sync | Local | Next_id | Reads (i : nat) | Writes (i : nat).

Definition conflict (a b : access) : Prop :=
  match a, b with
  | Next_id, Next_id => True
  | Reads i, Writes j | Writes i, Reads j | Writes i, Writes j => i = j
  | _, _ => False
  end.

Abbreviation table_act := (act access Mem).

(** ** Insertion *)

(** [record_id = table->next_id++] reads and then writes. *)
Definition read_next_id (table : ptr) : prog Mem Z :=
  t ← load_table table;
  if decide (next_id t < INT_MAX)%Z then mret (next_id t) else ub.

(** What [table_insert] does after it has made room: the new record, its key and
    its pointer. *)
Definition store_record (table : ptr) (i : nat) (record_id : Z) (name : cstr) (age : Z) : prog Mem ptr :=
  r ← calloc zero_record;
  match r with
  | None => mret None
  | Some _ =>
      store r (MkRecord record_id (strncpy name (RECORD_NAME_SIZE - 1)) age);;
      b ← get_bucket table i;
      ok ← bptree_insert (pk_index b) record_id r;
      if negb ok then free (T:=record) r;; mret None
      else
        b ← get_bucket table i;
        array_set (rows b) (bkt_size b) r;;
        set_bucket table i (λ b, with_size (S (bkt_size b)) b);;
        mret r
  end.

Definition insert_acts (table : ptr) (name : option cstr) (age : Z) : table_act ptr :=
  match table, name with
  | Some _, Some name =>
      locked ← atomic Sync (pthread_mutex_lock table);
      if negb locked then mret None
      else
        record_id ← atomic Next_id (read_next_id table);
        atomic Next_id (update table (with_next_id (record_id + 1)));;
        atomic Sync (pthread_mutex_unlock table);;
        let i := table_bucket_index_for_id record_id in
        locked ← atomic Sync (pthread_rwlock_wrlock table i);
        if negb locked then mret None
        else
          ok ← atomic (Writes i) (table_ensure_capacity table i);
          if negb ok then atomic Sync (pthread_rwlock_unlock table i);; mret None
          else
            r ← atomic (Writes i) (store_record table i record_id name age);
            atomic Sync (pthread_rwlock_unlock table i);;
            mret r
  | _, _ => mret None
  end.

(** ** Lookups *)

Definition find_by_id_acts (table : ptr) (id : Z) : table_act ptr :=
  match table with
  | None => mret None
  | Some _ =>
      let i := table_bucket_index_for_id id in
      locked ← atomic Sync (pthread_rwlock_rdlock table i);
      if negb locked then mret None
      else
        r ← atomic (Reads i) (b ← get_bucket table i; bptree_search (pk_index b) id);
        atomic Sync (pthread_rwlock_unlock table i);;
        mret r
  end.

(** The size of a bucket is read once: it does not change under its lock. *)
Definition bucket_size (table : ptr) (i : nat) : prog Mem nat := b ← get_bucket table i; mret (bkt_size b).

(** One turn of the inner loop of [table_scan_by_id]. *)
Definition scan_row (table : ptr) (i : nat) (id : Z) (row_index : nat) : prog Mem (unit + ptr) :=
  b ← get_bucket table i;
  row ← array_get (rows b) row_index;
  r ← load_record row;
  if decide (rec_id r = id) then
    b ← get_bucket table i;
    row ← array_get (rows b) row_index;
    mret (inr row)
  else mret (inl tt).

Definition scan_bucket_acts (table : ptr) (id : Z) (i : nat) : table_act (unit + ptr) :=
  locked ← atomic Sync (pthread_rwlock_rdlock table i);
  if negb locked then mret (inr None)
  else
    n ← atomic (Reads i) (bucket_size table i);
    r ← act_until n 0 (λ row_index _,
      r ← atomic (Reads i) (scan_row table i id row_index);
      match r with
      | inr row => atomic Sync (pthread_rwlock_unlock table i);; mret (inr row)
      | inl _ => mret (inl tt)
      end) tt;
    match r with
    | inr row => mret (inr row)
    | inl _ => atomic Sync (pthread_rwlock_unlock table i);; mret (inl tt)
    end.

Definition scan_by_id_acts (table : ptr) (id : Z) : table_act ptr :=
  match table with
  | None => mret None
  | Some _ =>
      r ← act_until TABLE_BUCKET_COUNT 0 (λ i _, scan_bucket_acts table id i) tt;
      match r with inr row => mret row | inl _ => mret None end
  end.

(** ** Collecting rows *)

(** One turn of the loop of [table_collect_bucket_rows_locked]. *)
Definition collect_row (table : ptr) (i index : nat) (rs : results) (cap : nat) : prog Mem (bool * results * nat) :=
  b ← get_bucket table i;
  row ← array_get (rows b) index;
  table_append_record rs cap row.

Definition collect_bucket_acts (table : ptr) (i : nat) (rs : results) (cap : nat) :
    table_act (bool * results * nat) :=
  n ← atomic (Reads i) (bucket_size table i);
  r ← act_until n 0 (λ index '(rs, cap),
    '(ok, rs, cap) ← atomic (Reads i) (collect_row table i index rs cap);
    if (ok : bool) then mret (inl (rs, cap))
    else rs ← atomic Local (table_free_record_array rs); mret (inr (rs, cap))) (rs, cap);
  match r with
  | inl (rs, cap) => mret (true, rs, cap)
  | inr (rs, cap) => mret (false, rs, cap)
  end.

(** One turn of the loop of [table_collect_all_sorted]. *)
Definition collect_turn (table : ptr) (i : nat) (rs : results) (cap : nat) : table_act (results * nat + results) :=
  locked ← atomic Sync (pthread_rwlock_rdlock table i);
  if negb locked then rs ← atomic Local (table_free_record_array rs); mret (inr rs)
  else
    '(ok, rs, cap) ← collect_bucket_acts table i rs cap;
    if negb ok then
      atomic Sync (pthread_rwlock_unlock table i);;
      rs ← atomic Local (table_free_record_array rs);
      mret (inr rs)
    else
      atomic Sync (pthread_rwlock_unlock table i);;
      mret (inl (rs, cap)).

Definition collect_all_acts (table : ptr) (rs : results) : table_act (bool * results) :=
  match table with
  | None => mret (false, rs)
  | Some _ =>
      r ← act_until TABLE_BUCKET_COUNT 0 (λ i '(rs, cap), collect_turn table i rs cap) (no_results, 0);
      match r with
      | inr rs => mret (false, rs)
      | inl (rs, _) =>
          atomic Local (table_sort_records_by_id (records rs) (count rs));;
          mret (true, rs)
      end
  end.

(** ** Searches *)

Definition name_matches_acts (table : ptr) (name : option cstr) (rs : results) : table_act (bool * results) :=
  match table, name with
  | Some _, Some name =>
      '(ok, all) ← collect_all_acts table no_results;
      if negb ok then mret (false, rs)
      else
        r ← atomic Local (append_matching (λ r, bool_decide (rec_name r = name)) all no_results);
        mret (status r)
  | _, _ => mret (false, rs)
  end.

Definition id_condition_acts (table : ptr) (comparison : TableComparison) (id : Z) (rs : results) :
    table_act (bool * results) :=
  match table with
  | None => mret (false, rs)
  | Some _ =>
      if decide (comparison = TABLE_COMPARISON_EQ) then
        r ← find_by_id_acts table id;
        match r with
        | None => mret (true, no_results)
        | Some _ => '(ok, rs, _) ← atomic Local (table_append_record no_results 0 r); mret (ok, rs)
        end
      else
        '(ok, all) ← collect_all_acts table no_results;
        if negb ok then mret (false, no_results)
        else
          r ← atomic Local (append_matching (λ r, table_compare_int (rec_id r) comparison id) all no_results);
          mret (status r)
  end.

Definition age_condition_acts (table : ptr) (comparison : TableComparison) (age : Z) (rs : results) :
    table_act (bool * results) :=
  match table with
  | None => mret (false, rs)
  | Some _ =>
      '(ok, all) ← collect_all_acts table no_results;
      if negb ok then mret (false, no_results)
      else
        r ← atomic Local (append_matching (λ r, table_compare_int (rec_age r) comparison age) all no_results);
        mret (status r)
  end.

Definition find_by_name_acts (table : ptr) (name : option cstr) : table_act ptr :=
  match table, name with
  | Some _, Some _ =>
      '(ok, rs) ← name_matches_acts table name no_results;
      if negb ok then mret None else atomic Local (first_match rs)
  | _, _ => mret None
  end.

Definition find_by_age_acts (table : ptr) (age : Z) : table_act ptr :=
  match table with
  | None => mret None
  | Some _ =>
      '(ok, rs) ← age_condition_acts table TABLE_COMPARISON_EQ age no_results;
      if negb ok then mret None else atomic Local (first_match rs)
  end.

(** ** Threads that use a table *)

(** A call of table.h that threads make at the same time; the pointers and the
    array it gives are read, and the array is freed, after the call. *)
Inductive request :=
  | Q_insert (name : cstr) (age : Z)
  | Q_find_id (id : Z)
  | Q_scan_id (id : Z)
  | Q_find_name (name : cstr)
  | Q_find_age (age : Z)
  | Q_by_name (name : cstr)
  | Q_by_id (c : TableComparison) (id : Z)
  | Q_by_age (c : TableComparison) (age : Z)
  | Q_all.

#[export] Instance comparison_countable : Countable TableComparison.
Proof.
  refine (inj_countable' (λ c, match c with TABLE_COMPARISON_EQ => 0 | TABLE_COMPARISON_LT => 1 | TABLE_COMPARISON_LE => 2
      | TABLE_COMPARISON_GT => 3 | TABLE_COMPARISON_GE => 4 end)
    (λ n, match n with 0 => TABLE_COMPARISON_EQ | 1 => TABLE_COMPARISON_LT | 2 => TABLE_COMPARISON_LE
      | 3 => TABLE_COMPARISON_GT | _ => TABLE_COMPARISON_GE end) _). by intros [].
Defined.
#[export] Instance request_eq_dec : EqDecision request.
Proof. solve_decision. Defined.
#[export] Instance request_countable : Countable request.
Proof.
  refine (inj_countable'
    (λ q, match q with
          | Q_insert name age => inl (inl (name, age))
          | Q_find_id id => inl (inr (inl (inl id))) | Q_scan_id id => inl (inr (inl (inr id)))
          | Q_find_name name => inl (inr (inr (inl name))) | Q_find_age age => inl (inr (inr (inr age)))
          | Q_by_name name => inr (inl (inl name)) | Q_by_id c id => inr (inl (inr (c, id)))
          | Q_by_age c age => inr (inr (inl (c, age))) | Q_all => inr (inr (inr tt))
          end)
    (λ x, match x with
          | inl (inl (name, age)) => Q_insert name age
          | inl (inr (inl (inl id))) => Q_find_id id | inl (inr (inl (inr id))) => Q_scan_id id
          | inl (inr (inr (inl name))) => Q_find_name name | inl (inr (inr (inr age))) => Q_find_age age
          | inr (inl (inl name)) => Q_by_name name | inr (inl (inr (c, id))) => Q_by_id c id
          | inr (inr (inl (c, age))) => Q_by_age c age | inr (inr (inr tt)) => Q_all
          end) _). by intros [].
Defined.

(** The same call of one thread alone. *)
Definition op_of (q : request) : op :=
  match q with
  | Q_insert name age => Insert name age
  | Q_find_id id => FindId id
  | Q_scan_id id => ScanId id
  | Q_find_name name => FindName name
  | Q_find_age age => FindAge age
  | Q_by_name name => ByName name
  | Q_by_id c id => ById c id
  | Q_by_age c age => ByAge c age
  | Q_all => CollectAll
  end.

Definition fetch_row_acts (c : table_act ptr) : table_act reply := p ← c; atomic Local (fetch_row p).
Definition fetch_rows_acts (c : table_act (bool * results)) : table_act reply := r ← c; atomic Local (fetch_rows r).

Definition request_acts (table : ptr) (q : request) : table_act reply :=
  match q with
  | Q_insert name age => fetch_row_acts (insert_acts table (Some name) age)
  | Q_find_id id => fetch_row_acts (find_by_id_acts table id)
  | Q_scan_id id => fetch_row_acts (scan_by_id_acts table id)
  | Q_find_name name => fetch_row_acts (find_by_name_acts table (Some name))
  | Q_find_age age => fetch_row_acts (find_by_age_acts table age)
  | Q_by_name name => fetch_rows_acts (name_matches_acts table (Some name) no_results)
  | Q_by_id c id => fetch_rows_acts (id_condition_acts table c id no_results)
  | Q_by_age c age => fetch_rows_acts (age_condition_acts table c age no_results)
  | Q_all => fetch_rows_acts (collect_all_acts table no_results)
  end.

(** How many rows the buckets hold. *)
Definition stored_rows (table : ptr) (m : Mem) : nat :=
  match table with
  | None => 0
  | Some tb => match m_tables m !! tb with None => 0 | Some t => sum_list (bkt_size <$> buckets t) end
  end.

(** A thread: the calls it has still to make and, while it makes one, the call,
    how many rows were stored when it began, and the actions to come. *)
Record thread_state := Thread {
  todo : list request;
  running : option (request * nat * table_act reply)
}.

(** A call that has returned: which thread made it, how many calls that thread
    had still to make, the call, its reply, and how many rows were stored when
    it began and when it returned. *)
Record completed := Completed {
  c_thread : nat;
  c_place : nat;
  c_request : request;
  c_begin : nat;
  c_reply : reply;
  c_end : nat
}.

Record threads_state := Threads {
  t_mem : Mem;
  t_threads : list thread_state;
  t_done : list completed;
  t_undefined : bool
}.

Definition set_thread (i : nat) (th : thread_state) (s : threads_state) : threads_state :=
  Threads (t_mem s) (<[i := th]> (t_threads s)) (t_done s) (t_undefined s).

(** The next step of thread [i]: it makes a call, acts, or returns.  It has none
    when it has nothing to do or waits for a lock. *)
Definition thread_step (table : ptr) (i : nat) (s : threads_state) : option threads_state :=
  if t_undefined s then None
  else
    th ← t_threads s !! i;
    match running th with
    | None =>
        match todo th with
        | [] => None
        | q :: qs => Some (set_thread i (Thread qs (Some (q, stored_rows table (t_mem s), request_acts table q))) s)
        end
    | Some (q, b, Done r) =>
        let c := Completed i (length (todo th)) q b r (stored_rows table (t_mem s)) in
        Some (Threads (t_mem s) (<[i := Thread (todo th) None]> (t_threads s)) (t_done s ++ [c]) false)
    | Some (q, b, Act _ c k) =>
        match c (t_mem s) with
        | Ok (x, m) => Some (Threads m (<[i := Thread (todo th) (Some (q, b, k x))]> (t_threads s)) (t_done s) false)
        | Blocked => None
        | _ => Some (Threads (t_mem s) (t_threads s) (t_done s) true)
        end
    end.

Fixpoint schedule (table : ptr) (order : list nat) (s : threads_state) : option threads_state :=
  match order with [] => Some s | i :: order' => s' ← thread_step table i s; schedule table order' s' end.

(** The threads about to make the calls [qss]. *)
Definition start_threads (qss : list (list request)) (m : Mem) : threads_state :=
  Threads m ((λ qs, Thread qs None) <$> qss) [] false.

Definition finished (s : threads_state) : Prop := Forall (λ th, todo th = [] ∧ running th = None) (t_threads s).
