(* ===== verification/TableActsAlone.v ===== *)
(** The actions of TableActs.v are the code of Table.v: a thread that makes a call
    while no other thread runs does exactly what the sequential function does. *)
From stdpp Require Import base list gmap sorting strings.
From Stdlib Require Import Ascii ZArith Lia.
From S2P Require Import Prelude Memory CLib BPTree Index Table TableMem TableRep TableCollect TableQueries TableUpdate TableLife TableSpec Actions TableActs.

Section alone.
Context {Acc St : Type}.

Lemma run_atomic {X B} (acc : Acc) (c : prog St X) (k : X → act Acc St B) s :
  run_act (atomic acc c ≫= k) s = (x ← c; run_act (k x)) s.
Proof. done. Qed.

Lemma run_atomic_last {X} (acc : Acc) (c : prog St X) s : run_act (atomic acc c) s = c s.
Proof. cbn. unfold mbind, prog_bind. by destruct (c s) as [[x s']| | | |]. Qed.

Lemma run_bind_same {A B} (p : act Acc St A) (k : A → act Acc St B) (c : prog St A) (k' : A → prog St B) s :
  run_act p s = c s → (∀ a s', run_act (k a) s' = k' a s') → run_act (p ≫= k) s = (c ≫= k') s.
Proof. intros Hp Hk. rewrite run_bind. by apply bind_same. Qed.
End alone.

(** One action that is one call of the code. *)
Ltac same_step := rewrite run_atomic; apply bind_same; [done|intros ? ?].

(** [record_id = table->next_id++] in two actions. *)
Lemma take_next_id_alone tb (k : Z → prog Mem ptr) s :
  (record_id ← read_next_id tb; update tb (with_next_id (record_id + 1));; k record_id) s =
  (record_id ← take_next_id tb; k record_id) s.
Proof.
  unfold read_next_id, take_next_id, load_table. rewrite !bind_assoc. unfold update, mbind, prog_bind.
  unfold load. destruct tb as [l|]; [|done]. destruct (hget s !! l) as [t|] eqn:Hl; [|done].
  case_decide; [|done]. cbn in *. by rewrite !Hl.
Qed.

Lemma insert_alone table name age s : run_act (insert_acts table name age) s = table_insert table name age s.
Proof.
  destruct table as [tb|], name as [name|]; try done. unfold insert_acts, table_insert.
  same_step. destruct a; cbv beta iota delta [negb]; [|done].
  rewrite <- take_next_id_alone. same_step. same_step. same_step. same_step.
  destruct a2; cbv beta iota delta [negb]; [|done]. same_step.
  destruct a2; cbv beta iota delta [negb]; [|same_step; done].
  rewrite run_atomic. unfold store_record. rewrite bind_assoc. apply bind_same; [done|]. intros r s6.
  destruct r as [r|]; [|done]. rewrite bind_assoc. apply bind_same; [done|]. intros _ s7.
  rewrite bind_assoc. apply bind_same; [done|]. intros b s8.
  rewrite bind_assoc. apply bind_same; [done|]. intros ok s9. destruct ok; cbv beta iota delta [negb].
  - rewrite bind_assoc. apply bind_same; [done|]. intros b' s10.
    rewrite bind_assoc. apply bind_same; [done|]. intros _ s11.
    rewrite bind_assoc. apply bind_same; [done|]. done.
  - rewrite bind_assoc. apply bind_same; [done|]. done.
Qed.

Lemma find_by_id_alone table id s : run_act (find_by_id_acts table id) s = table_find_by_id table id s.
Proof.
  destruct table as [tb|]; [|done]. unfold find_by_id_acts, table_find_by_id. same_step.
  destruct a; cbv beta iota delta [negb]; [|done]. rewrite run_atomic, bind_assoc.
  apply bind_same; [done|]. intros b s1. apply bind_same; [done|]. intros r s2. by same_step.
Qed.

Lemma scan_bucket_alone table id i s :
  run_act (scan_bucket_acts table id i) s =
  (locked ← pthread_rwlock_rdlock table i;
   if negb locked then mret (inr None)
   else
     b ← get_bucket table i;
     r ← for_until 0 (bkt_size b) (λ row_index _,
       b ← get_bucket table i;
       row ← array_get (rows b) row_index;
       r ← load_record row;
       if decide (rec_id r = id) then
         b ← get_bucket table i;
         row ← array_get (rows b) row_index;
         pthread_rwlock_unlock table i;;
         mret (inr row)
       else mret (inl tt)) tt;
     match r with
     | inr row => mret (inr row)
     | inl _ => pthread_rwlock_unlock table i;; mret (inl tt)
     end) s.
Proof.
  unfold scan_bucket_acts. same_step. destruct a; cbv beta iota delta [negb]; [|done].
  rewrite run_atomic. unfold bucket_size. rewrite bind_assoc. apply bind_same; [done|]. intros b s1.
  apply run_bind_same.
  - rewrite run_until. unfold for_until. rewrite Nat.sub_0_r. apply until_same. intros j [] s2.
    rewrite run_atomic. unfold scan_row. rewrite bind_assoc. apply bind_same; [done|]. intros b' s3.
    rewrite bind_assoc. apply bind_same; [done|]. intros row s4.
    rewrite bind_assoc. apply bind_same; [done|]. intros r s5. case_decide; [|done].
    rewrite bind_assoc. apply bind_same; [done|]. intros b2 s6.
    rewrite bind_assoc. apply bind_same; [done|]. intros row2 s7. done.
  - intros [[]|row] s2; [by same_step|done].
Qed.

Lemma scan_by_id_alone table id s : run_act (scan_by_id_acts table id) s = table_scan_by_id table id s.
Proof.
  destruct table as [tb|]; [|done]. unfold scan_by_id_acts, table_scan_by_id.
  apply run_bind_same; [|by intros [[]|row] s1].
  rewrite run_until. unfold for_until. rewrite Nat.sub_0_r. apply until_same.
  intros i [] s1. apply scan_bucket_alone.
Qed.

Lemma collect_bucket_alone table i rs cap s :
  run_act (collect_bucket_acts table i rs cap) s = table_collect_bucket_rows_locked table i rs cap s.
Proof.
  unfold collect_bucket_acts, table_collect_bucket_rows_locked. rewrite run_atomic.
  unfold bucket_size. rewrite bind_assoc. apply bind_same; [done|]. intros b s1.
  apply run_bind_same; [|by intros [[rs1 cap1]|[rs1 cap1]] s2].
  rewrite run_until. unfold for_until. rewrite Nat.sub_0_r. apply until_same. intros j [rs1 cap1] s2.
  rewrite run_atomic. unfold collect_row. rewrite bind_assoc. apply bind_same; [done|]. intros b' s3.
  rewrite bind_assoc. apply bind_same; [done|]. intros row s4. apply bind_same; [done|].
  intros [[ok rs2] cap2] s5. destruct ok; [done|]. by same_step.
Qed.

Lemma collect_all_alone table rs s : run_act (collect_all_acts table rs) s = table_collect_all_sorted table rs s.
Proof.
  destruct table as [tb|]; [|done]. unfold collect_all_acts, table_collect_all_sorted.
  apply run_bind_same; [|intros [[rs1 cap1]|rs1] s1; [by same_step|done]].
  rewrite run_until. unfold for_until. rewrite Nat.sub_0_r. apply until_same. intros i [rs1 cap1] s1.
  unfold collect_turn. same_step. destruct a; cbv beta iota delta [negb]; [|by same_step].
  apply run_bind_same; [apply collect_bucket_alone|]. intros [[ok rs2] cap2] s2.
  destruct ok; cbv beta iota delta [negb]; same_step; [done|by same_step].
Qed.

(** A search by a test. *)
Lemma select_alone table test rs0 rs1 s :
  run_act ('(ok, all) ← collect_all_acts table rs0;
           if negb ok then mret (false, rs1)
           else r ← atomic Local (append_matching test all no_results); mret (status r)) s =
  ('(ok, all) ← table_collect_all_sorted table rs0;
   if negb ok then mret (false, rs1)
   else r ← append_matching test all no_results; mret (status r)) s.
Proof.
  apply run_bind_same; [apply collect_all_alone|]. intros [ok all] s1.
  destruct ok; cbv beta iota delta [negb]; [by same_step|done].
Qed.

Lemma name_matches_alone table name rs s :
  run_act (name_matches_acts table name rs) s = table_find_by_name_matches table name rs s.
Proof. destruct table as [tb|], name as [name|]; try done. apply select_alone. Qed.

Lemma age_condition_alone table c age rs s :
  run_act (age_condition_acts table c age rs) s = table_find_by_age_condition table c age rs s.
Proof. destruct table as [tb|]; [|done]. apply select_alone. Qed.

Lemma id_condition_alone table c id rs s :
  run_act (id_condition_acts table c id rs) s = table_find_by_id_condition table c id rs s.
Proof.
  destruct table as [tb|]; [|done]. unfold id_condition_acts, table_find_by_id_condition.
  case_decide; [|apply select_alone]. apply run_bind_same; [apply find_by_id_alone|].
  intros [r|] s1; [|done]. same_step. by destruct a as [[ok rs1] cap1].
Qed.

Lemma first_match_alone (p : table_act (bool * results)) c s :
  run_act p s = c s →
  run_act ('(ok, rs) ← p; if negb ok then mret None else atomic Local (first_match rs)) s =
  ('(ok, rs) ← c; if negb ok then mret None else first_match rs) s.
Proof.
  intros Hp. apply run_bind_same; [done|]. intros [ok rs] s1.
  destruct ok; cbv beta iota delta [negb]; [apply run_atomic_last|done].
Qed.

Lemma find_by_name_alone table name s : run_act (find_by_name_acts table name) s = table_find_by_name table name s.
Proof. destruct table as [tb|], name as [name|]; try done. apply first_match_alone, name_matches_alone. Qed.

Lemma find_by_age_alone table age s : run_act (find_by_age_acts table age) s = table_find_by_age table age s.
Proof. destruct table as [tb|]; [|done]. apply first_match_alone, age_condition_alone. Qed.

Lemma request_alone table q s : run_act (request_acts table q) s = run_op table (op_of q) s.
Proof.
  destruct q; cbn [request_acts op_of run_op]; unfold fetch_row_acts, fetch_rows_acts;
    (apply run_bind_same; [|intros; apply run_atomic_last]).
  - apply insert_alone.
  - apply find_by_id_alone.
  - apply scan_by_id_alone.
  - apply find_by_name_alone.
  - apply find_by_age_alone.
  - apply name_matches_alone.
  - apply id_condition_alone.
  - apply age_condition_alone.
  - apply collect_all_alone.
Qed.
