(* ===== verification/TableActsInv.v ===== *)
(** What threads that use the table agree on: which locks are held, which ids were
    taken and by which calls, the rows in the order in which they were stored,
    and the result arrays that are one thread's own. *)
From stdpp Require Import base list gmap sorting strings.
From Stdlib Require Import Ascii ZArith Lia.
From S2P Require Import Prelude Memory CLib BPTree Index Table TableMem TableRep TableCollect TableQueries TableUpdate TableLife TableSpec Actions TableActs.

(** ** Locks held *)

Inductive held := H_mutex | H_read (i : nat) | H_write (i : nat).
#[export] Instance held_eq_dec : EqDecision held.
Proof. solve_decision. Defined.

(** The lock each thread holds, if any. *)
Abbreviation holders := (gmap nat held).

Definition holding (h : held) (ls : holders) : nat := size (filter (λ p : nat * held, p.2 = h) ls).

Lemma holding_insert h h' j ls :
  ls !! j = None → holding h (<[j := h']> ls) = (if decide (h' = h) then 1 else 0) + holding h ls.
Proof.
  intros Hj. unfold holding. case_decide as Heq.
  - rewrite map_filter_insert_True by done. rewrite map_size_insert_None; [done|].
    apply map_lookup_filter_None. by left.
  - rewrite map_filter_insert_False by done. by rewrite delete_id.
Qed.

Lemma holding_delete h h' j ls :
  ls !! j = Some h' → holding h ls = (if decide (h' = h) then 1 else 0) + holding h (delete j ls).
Proof.
  intros Hj. rewrite <- (insert_delete_id ls j h') at 1 by done.
  apply holding_insert, lookup_delete_eq.
Qed.

Lemma holding_some h ls : holding h ls ≠ 0 ↔ ∃ j, ls !! j = Some h.
Proof.
  unfold holding. rewrite map_size_ne_0_lookup. split.
  - intros (j & h' & [Hj Hh]%map_lookup_filter_Some). exists j. simpl in Hh. by subst.
  - intros (j & Hj). exists j, h. by apply map_lookup_filter_Some.
Qed.

(** Who may hold locks at the same time. *)
Definition compatible (h h' : held) : Prop :=
  match h, h' with
  | H_mutex, H_mutex => False
  | H_read i, H_write k | H_write i, H_read k | H_write i, H_write k => i ≠ k
  | _, _ => True
  end.

Definition exclusive (ls : holders) : Prop :=
  ∀ j j' h h', j ≠ j' → ls !! j = Some h → ls !! j' = Some h' → compatible h h'.

Lemma exclusive_insert j h ls :
  ls !! j = None → exclusive ls →
  (∀ j' h', ls !! j' = Some h' → compatible h h' ∧ compatible h' h) → exclusive (<[j := h]> ls).
Proof.
  intros Hj Hex Hc k k' h1 h2 Hk H1 H2.
  apply lookup_insert_Some in H1 as [[<- <-]|[_ H1]], H2 as [[<- <-]|[_ H2]]; [done|..].
  - by eapply Hc.
  - by eapply Hc.
  - by eapply (Hex k k').
Qed.

Lemma exclusive_delete j ls : exclusive ls → exclusive (delete j ls).
Proof. intros Hex k k' h h' Hk [_ H]%lookup_delete_Some [_ H']%lookup_delete_Some. by eapply Hex. Qed.

(** ** The table with these locks *)

Definition lock_of (ls : holders) (i : nat) : option rwlock :=
  Some (MkRWLock (holding (H_read i) ls) (bool_decide (holding (H_write i) ls ≠ 0))).

Definition locked (ls : holders) (t : Table) : Table :=
  with_next_id_lock (Some (bool_decide (holding H_mutex ls ≠ 0)))
    (with_buckets (imap (λ i b, with_lock (lock_of ls i) b) (buckets t)) t).

Lemma locked_bucket ls t i b : buckets t !! i = Some b → buckets (locked ls t) !! i = Some (with_lock (lock_of ls i) b).
Proof. intros Hb. simpl. by rewrite list_lookup_imap, Hb. Qed.

(** One lock changes. *)
Lemma locked_upd ls ls' t i b b' :
  buckets t !! i = Some b → with_lock None b' = with_lock None b → bkt_lock b' = lock_of ls' i →
  (∀ k, k ≠ i → lock_of ls' k = lock_of ls k) → holding H_mutex ls' = holding H_mutex ls →
  upd_bucket i b' (locked ls t) = locked ls' t.
Proof.
  intros Hb Heq Hl Hk Hm. unfold upd_bucket, locked, with_next_id_lock, with_buckets. simpl. rewrite Hm. f_equal.
  apply list_eq. intros k. rewrite list_lookup_imap. destruct (decide (k = i)) as [->|Hne].
  - rewrite list_lookup_insert_eq by (rewrite length_imap; by eapply lookup_lt_Some).
    rewrite Hb. simpl. f_equal. rewrite <- Hl. destruct b, b'. unfold with_lock in *. simpl in *. congruence.
  - rewrite list_lookup_insert_ne by done. rewrite list_lookup_imap.
    destruct (buckets t !! k); simpl; [by rewrite Hk|done].
Qed.

(** A bucket changes, its lock does not. *)
Lemma locked_set ls t i b :
  bkt_lock b = lock_of ls i → upd_bucket i b (locked ls t) = locked ls (upd_bucket i (with_lock unlocked b) t).
Proof.
  intros Hl. unfold upd_bucket, locked, with_next_id_lock, with_buckets. simpl. f_equal.
  apply list_eq. intros k. rewrite list_lookup_imap. destruct (decide (k = i)) as [->|Hne].
  - destruct (decide (i < length (buckets t))) as [Hlt|Hlt].
    + rewrite !list_lookup_insert_eq by (rewrite ?length_imap; done). simpl. f_equal.
      rewrite <- Hl. by destruct b.
    + rewrite !list_insert_ge by (rewrite ?length_imap; lia). by rewrite list_lookup_imap.
  - rewrite !list_lookup_insert_ne by done. by rewrite list_lookup_imap.
Qed.

Lemma locked_next ls t z : with_next_id z (locked ls t) = locked ls (with_next_id z t).
Proof. done. Qed.

(** ** The ghost state *)

(** How far a call of [table_insert] is. *)
Inductive stage := Waiting | Took (id : Z) | Stored (id : Z).

Definition id_of (x : stage) : option Z := match x with Waiting => None | Took id | Stored id => Some id end.

(** A call: its thread, a number that tells it from the other calls of this thread,
    and what it asks for. *)
Abbreviation place := (nat * (nat * request))%type.

(** [g_log] has the rows in the order in which they were stored, and the calls
    that stored them; [g_table] is the table as it would be if no lock were
    held; [g_arrays] has the result arrays and their owners. *)
Record ghost := Ghost {
  g_log : list (row * place);
  g_table : Table;
  g_fps : list footprint;
  g_locks : holders;
  g_arrays : gmap loc (nat * rec_array);
  g_stages : gmap place stage
}.

Definition log_rows (g : ghost) : list row := (g_log g).*1.

(** The rows of one bucket. *)
Definition in_bucket (i : nat) (r : row) : Prop := table_bucket_index_for_id (row_id r) = i.
#[export] Instance in_bucket_dec i r : Decision (in_bucket i r).
Proof. unfold in_bucket. apply _. Defined.
Definition bucket_rows (i : nat) (rws : list row) : list row := filter (in_bucket i) rws.
Definition buckets_of (rws : list row) : list (list row) :=
  (λ i, bucket_rows i rws) <$> seq 0 TABLE_BUCKET_COUNT.

Definition state_of (g : ghost) : table_state := MkState (next_id (g_table g)) (buckets_of (log_rows g)).

Lemma buckets_of_lookup rws i :
  i < TABLE_BUCKET_COUNT → buckets_of rws !! i = Some (bucket_rows i rws).
Proof. intros Hi. unfold buckets_of. by rewrite list_lookup_fmap, lookup_seq_lt. Qed.

Lemma bucket_rows_snoc i rws r :
  bucket_rows i (rws ++ [r]) = bucket_rows i rws ++ (if decide (in_bucket i r) then [r] else []).
Proof. unfold bucket_rows. rewrite filter_app, filter_cons, filter_nil. by case_decide. Qed.

Lemma buckets_of_snoc rws r :
  let i := table_bucket_index_for_id (row_id r) in
  buckets_of (rws ++ [r]) = <[i := bucket_rows i rws ++ [r]]> (buckets_of rws).
Proof.
  intros i. pose proof (bucket_index_lt (row_id r)) as Hi. fold i in Hi. apply list_eq. intros k.
  destruct (decide (k < TABLE_BUCKET_COUNT)) as [Hk|Hk].
  2:{ rewrite !lookup_ge_None_2; [done| |]; unfold buckets_of;
      rewrite ?length_insert, length_fmap, length_seq; lia. }
  rewrite buckets_of_lookup, bucket_rows_snoc by done. destruct (decide (k = i)) as [->|Hne].
  - rewrite list_lookup_insert_eq by (unfold buckets_of; by rewrite length_fmap, length_seq).
    by rewrite decide_True.
  - rewrite list_lookup_insert_ne, buckets_of_lookup by done.
    rewrite decide_False by (intros <-; by apply Hne). by rewrite app_nil_r.
Qed.

Lemma concat_buckets rws : concat (buckets_of rws) ≡ₚ rws.
Proof.
  induction rws as [|r rws IH] using rev_ind; [done|]. rewrite buckets_of_snoc.
  rewrite concat_insert by (apply buckets_of_lookup, bucket_index_lt). by rewrite IH.
Qed.

Lemma all_rows_log g : all_rows (state_of g) ≡ₚ log_rows g.
Proof. apply concat_buckets. Qed.

(** ** The invariant *)

(** The memory with the threads' arrays, and nothing of the table. *)
Definition with_arrays (base : Mem) (arrs : gmap loc (nat * rec_array)) : Mem :=
  set_arrays ((snd <$> arrs) ∪ m_arrays base) base.

Section protocol.
Context {KI : KeyIndex}.
Context (tb : loc) (base : Mem).

Record agree (g : ghost) (m : Mem) : Prop := {
  ag_table : table_inv tb (state_of g) (g_table g) (g_fps g) (with_arrays base (g_arrays g)) (put_table tb (g_table g) m);
  ag_locked : m_tables m !! tb = Some (locked (g_locks g) (g_table g));
  ag_exclusive : exclusive (g_locks g);
  ag_base a v : g_arrays g !! a = Some v → m_arrays base !! a = None;
  ag_log_NoDup : NoDup (g_log g).*2;
  ag_log r x : (r, x) ∈ g_log g → g_stages g !! x = Some (Stored (row_id r));
  ag_stored x id : g_stages g !! x = Some (Stored id) → ∃ r, (r, x) ∈ g_log g ∧ row_id r = id;
  ag_ids x s id : g_stages g !! x = Some s → id_of s = Some id → (1 ≤ id < next_id (g_table g))%Z;
  ag_ids_inj x x' s s' id : g_stages g !! x = Some s → g_stages g !! x' = Some s' →
    id_of s = Some id → id_of s' = Some id → x = x';
  ag_count : (next_id (g_table g) = 1 + Z.of_nat (size (filter (λ p : place * stage, is_Some (id_of p.2)) (g_stages g))))%Z;
  ag_total : (Z.of_nat (size (g_stages g)) < INT_MAX)%Z;
  ag_calls r x : (r, x) ∈ g_log g → ∃ name age, x.2.2 = Q_insert name age ∧
    rec_name r.2 = strncpy name (RECORD_NAME_SIZE - 1) ∧ rec_age r.2 = age;
  ag_no_failure : no_failure m
}.

(** Thread [i] holds a lock of bucket [b]. *)
Definition holds_bucket (i b : nat) (g : ghost) : Prop :=
  g_locks g !! i = Some (H_read b) ∨ g_locks g !! i = Some (H_write b).

Record relies (i : nat) (g g' : ghost) : Prop := {
  ry_log : g_log g `prefix_of` g_log g';
  ry_locks : g_locks g' !! i = g_locks g !! i;
  ry_arrays a arr : g_arrays g !! a = Some (i, arr) ↔ g_arrays g' !! a = Some (i, arr);
  ry_stages k : g_stages g' !! (i, k) = g_stages g !! (i, k);
  ry_next : g_locks g !! i = Some H_mutex → next_id (g_table g') = next_id (g_table g);
  ry_bucket b : holds_bucket i b g →
    buckets (g_table g') !! b = buckets (g_table g) !! b ∧ bucket_rows b (log_rows g') = bucket_rows b (log_rows g)
}.

Lemma relies_refl i g : relies i g g.
Proof. by split. Qed.

Lemma relies_trans i g1 g2 g3 : relies i g1 g2 → relies i g2 g3 → relies i g1 g3.
Proof.
  intros [L1 K1 A1 S1 N1 B1] [L2 K2 A2 S2 N2 B2].
  assert (∀ b, holds_bucket i b g1 → holds_bucket i b g2) as Hb.
  { unfold holds_bucket. intros b. by rewrite K1. }
  split.
  - by etrans.
  - by rewrite K2.
  - intros a arr. by rewrite A1.
  - intros k. by rewrite S2.
  - intros H. by rewrite N2, N1; rewrite ?K1.
  - intros b H. destruct (B1 b H) as [<- <-]. by apply B2, Hb.
Qed.

Definition may_use (a : access) (i : nat) (g : ghost) : Prop :=
  match a with
  | Sync | Local => True
  | Next_id => g_locks g !! i = Some H_mutex
  | Reads b => holds_bucket i b g
  | Writes b => g_locks g !! i = Some (H_write b)
  end.

(** A thread waits only when it holds no lock and another thread holds one. *)
Definition may_wait (i : nat) (g : ghost) : Prop :=
  g_locks g !! i = None ∧ ∃ j, j ≠ i ∧ is_Some (g_locks g !! j).

Lemma may_use_stable a i g g' : may_use a i g → relies i g g' → may_use a i g'.
Proof. intros H [_ Hk _ _ _ _]. unfold may_use, holds_bucket in *. destruct a; by rewrite ?Hk. Qed.

(** No action makes up a call. *)
Definition same_calls (g g' : ghost) : Prop := dom (g_stages g') = dom (g_stages g).

Lemma same_calls_refl g : same_calls g g.
Proof. done. Qed.

Definition table_protocol : protocol access Mem ghost := {|
  inv := agree; rely := relies; promise := same_calls; allowed := may_use; waits := may_wait; dies := λ _ _, False;
  rely_refl := relies_refl; rely_trans := relies_trans; promise_refl := same_calls_refl;
  allowed_stable := may_use_stable
|}.

(** Two threads never use the same data at the same time. *)
Lemma may_use_exclusive a b i j g m :
  agree g m → i ≠ j → may_use a i g → may_use b j g → ¬ conflict a b.
Proof.
  intros Hag Hij Ha Hb Hc. pose proof (ag_exclusive _ _ Hag i j) as Hex.
  destruct a, b; simpl in *; try done; subst; unfold holds_bucket in *;
    repeat match goal with H : _ ∨ _ |- _ => destruct H end;
    match goal with H1 : g_locks g !! i = _, H2 : g_locks g !! j = _ |- _ =>
      by specialize (Hex _ _ Hij H1 H2) end.
Qed.
End protocol.
