(* ===== verification/TableActsSteps.v ===== *)
(** What each action does to the ghost state: the rules of the locks, of the next
    id, and of the actions that change a bucket under its lock. *)
From stdpp Require Import base list gmap sorting strings.
From Stdlib Require Import Ascii ZArith Lia.
From S2P Require Import Prelude Memory CLib BPTree Index Table TableMem TableRep TableCollect TableQueries TableUpdate TableLife TableSpec Actions TableActs TableActsInv.

(** ** The calls of the locks, for any state of the lock *)

Lemma env_tail_same m : no_failure m → env_tail m = m.
Proof. unfold no_failure, env_tail. destruct m. simpl. by intros ->. Qed.

Section lock_calls.
Context (tb : loc) (t : Table) (m : Mem).
Context (Ht : m_tables m !! tb = Some t) (Hm : no_failure m).

Lemma rdlock_blocked i b k :
  buckets t !! i = Some b → bkt_lock b = Some k → writer k = true → pthread_rwlock_rdlock (Some tb) i m = Blocked.
Proof.
  intros Hb Hk Hw. assert (wp (get_bucket (Some tb) i) (λ b' m', b' = b ∧ m' = m) m) as Hg.
  { by eapply wp_get_bucket. }
  apply wp_ok in Hg as (? & ? & Hg & -> & ->). unfold pthread_rwlock_rdlock, mbind, prog_bind.
  by rewrite Hg, Hk, Hw.
Qed.

Lemma wrlock_blocked i b k :
  buckets t !! i = Some b → bkt_lock b = Some k → writer k = true ∨ readers k ≠ 0 →
  pthread_rwlock_wrlock (Some tb) i m = Blocked.
Proof.
  intros Hb Hk Hw. assert (wp (get_bucket (Some tb) i) (λ b' m', b' = b ∧ m' = m) m) as Hg.
  { by eapply wp_get_bucket. }
  apply wp_ok in Hg as (? & ? & Hg & -> & ->). unfold pthread_rwlock_wrlock, mbind, prog_bind.
  rewrite Hg, Hk. by rewrite decide_True.
Qed.

Lemma mutex_blocked : next_id_lock t = Some true → pthread_mutex_lock (Some tb) m = Blocked.
Proof. intros Hk. unfold pthread_mutex_lock, load_table, load, mbind, prog_bind. simpl. by rewrite Ht, Hk. Qed.

Lemma wp_rdlock_free i b k (Q : bool → Mem → Prop) :
  buckets t !! i = Some b → bkt_lock b = Some k → writer k = false →
  Q true (put_table tb (upd_bucket i (with_lock (Some (MkRWLock (S (readers k)) false)) b) t) m) →
  wp (pthread_rwlock_rdlock (Some tb) i) Q m.
Proof.
  intros Hb Hk Hw HQ. apply wp_bind. eapply wp_get_bucket; [done|]. rewrite Hk, Hw.
  apply wp_bind, wp_lib_call_ok; [done|]. apply wp_bind. by eapply wp_set_bucket.
Qed.

Lemma wp_wrlock_free i b (Q : bool → Mem → Prop) :
  buckets t !! i = Some b → bkt_lock b = unlocked →
  Q true (put_table tb (upd_bucket i (with_lock write_locked b) t) m) →
  wp (pthread_rwlock_wrlock (Some tb) i) Q m.
Proof.
  intros Hb Hk HQ. eapply wp_wrlock; [done..|]. rewrite next_call_ok by done.
  by rewrite env_tail_same.
Qed.

Lemma wp_mutex_free (Q : bool → Mem → Prop) :
  next_id_lock t = Some false → Q true (put_table tb (with_next_id_lock (Some true) t) m) →
  wp (pthread_mutex_lock (Some tb)) Q m.
Proof.
  intros Hk HQ. apply wp_bind. eapply wp_load_table; [done|]. rewrite Hk.
  apply wp_bind, wp_lib_call_ok; [done|]. apply wp_bind. by eapply wp_update_table.
Qed.

Lemma wp_mutex_release (Q : unit → Mem → Prop) :
  next_id_lock t = Some true → Q tt (put_table tb (with_next_id_lock (Some false) t) m) →
  wp (pthread_mutex_unlock (Some tb)) Q m.
Proof.
  intros Hk HQ. apply wp_bind. eapply wp_load_table; [done|]. rewrite decide_True by done.
  by eapply wp_update_table.
Qed.

Lemma wp_unlock_read i b n (Q : unit → Mem → Prop) :
  buckets t !! i = Some b → bkt_lock b = Some (MkRWLock (S n) false) →
  Q tt (put_table tb (upd_bucket i (with_lock (Some (MkRWLock n false)) b) t) m) →
  wp (pthread_rwlock_unlock (Some tb) i) Q m.
Proof.
  intros Hb Hk HQ. apply wp_bind. eapply wp_get_bucket; [done|]. rewrite Hk. by eapply wp_set_bucket.
Qed.

Lemma wp_unlock_write i b n (Q : unit → Mem → Prop) :
  buckets t !! i = Some b → bkt_lock b = Some (MkRWLock n true) →
  Q tt (put_table tb (upd_bucket i (with_lock (Some (MkRWLock n false)) b) t) m) →
  wp (pthread_rwlock_unlock (Some tb) i) Q m.
Proof.
  intros Hb Hk HQ. apply wp_bind. eapply wp_get_bucket; [done|]. rewrite Hk. destruct n; by eapply wp_set_bucket.
Qed.
End lock_calls.

(** ** One action *)

Section steps.
Context {KI : KeyIndex}.
Context (tb : loc) (base : Mem).
Abbreviation P := (table_protocol tb base).
Abbreviation agree := (agree tb base).

Lemma wpc_atomic {X} i acc (c : prog Mem X) (Q : X → ghost → Prop) g :
  may_use acc i g →
  (∀ g1 m, relies i g g1 → agree g1 m → wp c (λ x m', ∃ g2, agree g2 m' ∧ guar P i g1 g2 ∧ Q x g2) m) →
  wpc P i (atomic acc c) Q g.
Proof.
  intros Ha H. split; [done|]. intros g1 m Hr Hag. specialize (H g1 m Hr Hag). unfold wpx in H.
  by destruct (c m) as [[x m']| | | |].
Qed.

(** An action that may find a lock taken. *)
Lemma wpc_atomic_lock {X} i (c : prog Mem X) (Q : X → ghost → Prop) g :
  (∀ g1 m, relies i g g1 → agree g1 m →
     (c m = Blocked ∧ may_wait i g1) ∨ wp c (λ x m', ∃ g2, agree g2 m' ∧ guar P i g1 g2 ∧ Q x g2) m) →
  wpc P i (atomic Sync c) Q g.
Proof.
  intros H. split; [done|]. intros g1 m Hr Hag. destruct (H g1 m Hr Hag) as [[-> Hw]|Hwp]; [done|].
  unfold wpx in Hwp. by destruct (c m) as [[x m']| | | |].
Qed.

(** *** What the memory holds *)

Lemma ag_bucket g m i : agree g m → i < TABLE_BUCKET_COUNT →
  ∃ b fp, buckets (g_table g) !! i = Some b ∧ g_fps g !! i = Some fp ∧ bkt_lock b = unlocked ∧
    buckets (locked (g_locks g) (g_table g)) !! i = Some (with_lock (lock_of (g_locks g) i) b) ∧
    bucket_at (next_id (g_table g)) i b (bucket_rows i (log_rows g)) fp m.
Proof.
  intros Hag Hi. destruct (ti_bucket _ _ _ _ _ _ _ (ag_table _ _ _ _ Hag) Hi)
    as (b & rws & fp & Hb & Hr & Hf & _ & Hk & Hat).
  exists b, fp. split_and!; try done; [by apply locked_bucket|].
  simpl in Hr, Hat. rewrite buckets_of_lookup in Hr by done. injection Hr as <-.
  by eapply bucket_at_frame.
Qed.

Lemma ag_bounded g m : agree g m → mem_bounded m.
Proof.
  intros Hag. pose proof (ti_bounded _ _ _ _ _ _ (ag_table _ _ _ _ Hag)) as Hb.
  assert (m = put_table tb (locked (g_locks g) (g_table g)) (put_table tb (g_table g) m)) as ->.
  { rewrite put_table_twice. symmetry. apply put_table_same, (ag_locked _ _ _ _ Hag). }
  apply bounded_put_table; [done|]. rewrite put_table_lookup. eauto.
Qed.

Lemma ag_rows_in g m : agree g m → rows_in m (log_rows g).
Proof.
  intros Hag. pose proof (inv_rows_in _ _ _ _ _ _ (ag_table _ _ _ _ Hag)) as H. unfold rows_in in *.
  rewrite all_rows_log in H. exact H.
Qed.

Lemma ag_ids_NoDup g m : agree g m → NoDup (row_id <$> log_rows g).
Proof. intros Hag. rewrite <- all_rows_log. eapply ti_ids, Hag. Qed.

(** How many rows are stored. *)
Lemma ag_stored_rows g m : agree g m → stored_rows (Some tb) m = length (g_log g).
Proof.
  intros Hag. unfold stored_rows. rewrite (ag_locked _ _ _ _ Hag). simpl.
  rewrite <- (length_fmap fst (g_log g)). fold (log_rows g). rewrite <- (Permutation_length (concat_buckets (log_rows g))).
  rewrite length_concat. f_equal. apply list_eq. intros i.
  rewrite !list_lookup_fmap, list_lookup_imap. destruct (decide (i < TABLE_BUCKET_COUNT)) as [Hi|Hi].
  - destruct (ag_bucket _ _ _ Hag Hi) as (b & fp & Hb & _ & _ & _ & (Hs & _)).
    rewrite Hb, buckets_of_lookup by done. simpl. by rewrite Hs.
  - pose proof (ti_len _ _ _ _ _ _ (ag_table _ _ _ _ Hag)) as Hl.
    rewrite !lookup_ge_None_2; [done| |lia]. unfold buckets_of. rewrite length_fmap, length_seq. lia.
Qed.

(** *** Locks *)

Definition set_locks (ls : holders) (g : ghost) : ghost :=
  Ghost (g_log g) (g_table g) (g_fps g) ls (g_arrays g) (g_stages g).

Lemma agree_locks g m ls : agree g m → exclusive ls → agree (set_locks ls g) (put_table tb (locked ls (g_table g)) m).
Proof.
  intros [Ht ? ? ? ? ? ? ? ? ? ? ?] Hex. split; try done.
  - by rewrite put_table_twice.
  - apply put_table_lookup.
Qed.

Lemma guar_locks i g ls : (∀ j, j ≠ i → ls !! j = g_locks g !! j) → guar P i g (set_locks ls g).
Proof. intros H. split; [|done]. intros j Hj. split; try done. by apply H. Qed.

Definition acquired (i : nat) (h : held) (g g' : ghost) : Prop :=
  ∃ g1, relies i g g1 ∧ g' = set_locks (<[i := h]> (g_locks g1)) g1.
Definition released (i : nat) (g g' : ghost) : Prop :=
  ∃ g1, relies i g g1 ∧ g' = set_locks (delete i (g_locks g1)) g1.

(** Acquiring and releasing change the lock in memory like this. *)
Lemma locked_acquire_read ls t j i b :
  ls !! j = None → holding (H_write i) ls = 0 → buckets t !! i = Some b →
  upd_bucket i (with_lock (Some (MkRWLock (S (holding (H_read i) ls)) false)) (with_lock (lock_of ls i) b)) (locked ls t) =
  locked (<[j := H_read i]> ls) t.
Proof.
  intros Hj Hw Hb. apply (locked_upd _ _ _ _ b); [done|done|..].
  - simpl. unfold lock_of. rewrite !holding_insert, Hw by done. by rewrite decide_True, decide_False.
  - intros k Hk. unfold lock_of. rewrite !holding_insert by done. by rewrite !decide_False by congruence.
  - rewrite holding_insert by done. by rewrite decide_False.
Qed.

Lemma locked_acquire_write ls t j i b :
  ls !! j = None → holding (H_write i) ls = 0 → holding (H_read i) ls = 0 → buckets t !! i = Some b →
  upd_bucket i (with_lock write_locked (with_lock (lock_of ls i) b)) (locked ls t) = locked (<[j := H_write i]> ls) t.
Proof.
  intros Hj Hw Hr Hb. apply (locked_upd _ _ _ _ b); [done|done|..].
  - simpl. unfold lock_of. rewrite !holding_insert, Hw, Hr by done. by rewrite decide_False, decide_True.
  - intros k Hk. unfold lock_of. rewrite !holding_insert by done. by rewrite !decide_False by congruence.
  - rewrite holding_insert by done. by rewrite decide_False.
Qed.

Lemma locked_release ls t j i b h :
  ls !! j = Some h → h = H_read i ∨ h = H_write i → buckets t !! i = Some b → exclusive ls →
  upd_bucket i (with_lock (Some (MkRWLock (holding (H_read i) (delete j ls)) false)) (with_lock (lock_of ls i) b)) (locked ls t) =
  locked (delete j ls) t.
Proof.
  intros Hj Hh Hb Hex. apply (locked_upd _ _ _ _ b); [done|done|..].
  - simpl. unfold lock_of. do 2 f_equal. symmetry. apply bool_decide_eq_false_2.
    intros [k [Hne Hk]%lookup_delete_Some]%holding_some.
    specialize (Hex j k _ _ Hne Hj Hk). destruct Hh as [-> | ->]; by apply Hex.
  - intros k Hk. unfold lock_of. rewrite !(holding_delete _ h j ls) by done.
    by rewrite !decide_False by (destruct Hh; congruence).
  - rewrite (holding_delete _ h j ls) by done. by rewrite decide_False by (destruct Hh; congruence).
Qed.

Lemma locked_mutex ls ls' t :
  (∀ i, lock_of ls' i = lock_of ls i) →
  with_next_id_lock (Some (bool_decide (holding H_mutex ls' ≠ 0))) (locked ls t) = locked ls' t.
Proof.
  intros H. unfold locked, with_next_id_lock, with_buckets. simpl. f_equal.
  apply imap_ext. intros i b _. by rewrite H.
Qed.

(** A lock that is held is held by another thread. *)
Lemma waits_for i g h : g_locks g !! i = None → holding h (g_locks g) ≠ 0 → may_wait i g.
Proof.
  intros Hi [j Hj]%holding_some. split; [done|]. exists j. split; [congruence|by exists h].
Qed.

Lemma wpc_rdlock i b (Q : bool → ghost → Prop) g :
  b < TABLE_BUCKET_COUNT → g_locks g !! i = None →
  (∀ g', acquired i (H_read b) g g' → Q true g') →
  wpc P i (atomic Sync (pthread_rwlock_rdlock (Some tb) b)) Q g.
Proof.
  intros Hb Hi HQ. apply wpc_atomic_lock. intros g1 m Hr Hag.
  assert (g_locks g1 !! i = None) as Hi1 by (by rewrite (ry_locks _ _ _ Hr)).
  destruct (ag_bucket _ _ _ Hag Hb) as (bk & fp & Hbk & _ & _ & Hlb & _).
  destruct (decide (holding (H_write b) (g_locks g1) = 0)) as [Hw|Hw].
  - right. eapply wp_rdlock_free; [apply Hag|apply Hag|exact Hlb|done|simpl; by rewrite Hw|].
    simpl readers. rewrite (locked_acquire_read _ _ i) by done.
    eexists. split; [|split; [|apply HQ; by exists g1]].
    + apply agree_locks; [done|]. apply exclusive_insert; [done|apply Hag|].
      intros j' [|k|k] Hj'; simpl; [done|done|].
      assert (k ≠ b); [|split; congruence]. intros ->.
      assert (holding (H_write b) (g_locks g1) ≠ 0); [apply holding_some; eauto|done].
    + apply guar_locks. intros j Hj. by rewrite lookup_insert_ne.
  - left. split; [|by eapply waits_for]. eapply rdlock_blocked; [apply Hag|exact Hlb|done|].
    simpl. by apply bool_decide_eq_true.
Qed.

Lemma wpc_wrlock i b (Q : bool → ghost → Prop) g :
  b < TABLE_BUCKET_COUNT → g_locks g !! i = None →
  (∀ g', acquired i (H_write b) g g' → Q true g') →
  wpc P i (atomic Sync (pthread_rwlock_wrlock (Some tb) b)) Q g.
Proof.
  intros Hb Hi HQ. apply wpc_atomic_lock. intros g1 m Hr Hag.
  assert (g_locks g1 !! i = None) as Hi1 by (by rewrite (ry_locks _ _ _ Hr)).
  destruct (ag_bucket _ _ _ Hag Hb) as (bk & fp & Hbk & _ & _ & Hlb & _).
  destruct (decide (holding (H_write b) (g_locks g1) = 0)) as [Hw|Hw];
    [destruct (decide (holding (H_read b) (g_locks g1) = 0)) as [Hrd|Hrd]|].
  - right. eapply wp_wrlock_free; [apply Hag|apply Hag|exact Hlb|simpl; unfold lock_of; by rewrite Hw, Hrd|].
    rewrite (locked_acquire_write _ _ i) by done.
    eexists. split; [|split; [|apply HQ; by exists g1]].
    + apply agree_locks; [done|]. apply exclusive_insert; [done|apply Hag|].
      intros j' [|k|k] Hj'; simpl; [done|..];
        (assert (k ≠ b); [|split; congruence]; intros ->).
      * assert (holding (H_read b) (g_locks g1) ≠ 0); [apply holding_some; eauto|done].
      * assert (holding (H_write b) (g_locks g1) ≠ 0); [apply holding_some; eauto|done].
    + apply guar_locks. intros j Hj. by rewrite lookup_insert_ne.
  - left. split; [|by eapply waits_for]. eapply wrlock_blocked; [apply Hag|exact Hlb|done|by right].
  - left. split; [|by eapply waits_for]. eapply wrlock_blocked; [apply Hag|exact Hlb|done|].
    left. simpl. by apply bool_decide_eq_true.
Qed.

Lemma wpc_unlock i b (Q : unit → ghost → Prop) g :
  b < TABLE_BUCKET_COUNT → holds_bucket i b g →
  (∀ g', released i g g' → Q tt g') →
  wpc P i (atomic Sync (pthread_rwlock_unlock (Some tb) b)) Q g.
Proof.
  intros Hb Hi HQ. apply wpc_atomic; [done|]. intros g1 m Hr Hag.
  assert (∃ h, g_locks g1 !! i = Some h ∧ (h = H_read b ∨ h = H_write b)) as (h & Hi1 & Hh).
  { rewrite (ry_locks _ _ _ Hr). destruct Hi as [->| ->]; eauto. }
  destruct (ag_bucket _ _ _ Hag Hb) as (bk & fp & Hbk & _ & _ & Hlb & _).
  assert (wp (pthread_rwlock_unlock (Some tb) b)
    (λ _ m', m' = put_table tb (locked (delete i (g_locks g1)) (g_table g1)) m) m) as Hwp.
  { pose proof (locked_release _ _ _ b _ _ Hi1 Hh Hbk (ag_exclusive _ _ _ _ Hag)) as Heq.
    destruct Hh as [-> | ->].
    - assert (holding (H_write b) (g_locks g1) = 0) as Hw.
      { destruct (decide (holding (H_write b) (g_locks g1) = 0)) as [?|Hne]; [done|].
        apply holding_some in Hne as [j Hj]. assert (i ≠ j) as Hij by congruence.
        by pose proof (ag_exclusive _ _ _ _ Hag i j _ _ Hij Hi1 Hj). }
      eapply wp_unlock_read; [apply Hag|exact Hlb| |by rewrite Heq].
      simpl. unfold lock_of. by rewrite (holding_delete (H_read b) _ _ _ Hi1), Hw, decide_True.
    - eapply wp_unlock_write; [apply Hag|exact Hlb| |].
      + simpl. unfold lock_of. rewrite bool_decide_eq_true_2; [done|]. apply holding_some. eauto.
      + rewrite <- Heq. by rewrite (holding_delete (H_read b) _ _ _ Hi1), decide_False. }
  eapply wp_mono; [|exact Hwp]. intros [] m' ->. eexists. split; [|split; [|apply HQ; by exists g1]].
  - apply agree_locks; [done|]. apply exclusive_delete, Hag.
  - apply guar_locks. intros j Hj. by rewrite lookup_delete_ne.
Qed.

Lemma wpc_mutex_lock i (Q : bool → ghost → Prop) g :
  g_locks g !! i = None → (∀ g', acquired i H_mutex g g' → Q true g') →
  wpc P i (atomic Sync (pthread_mutex_lock (Some tb))) Q g.
Proof.
  intros Hi HQ. apply wpc_atomic_lock. intros g1 m Hr Hag.
  assert (g_locks g1 !! i = None) as Hi1 by (by rewrite (ry_locks _ _ _ Hr)).
  destruct (decide (holding H_mutex (g_locks g1) = 0)) as [Hw|Hw].
  - right. eapply wp_mutex_free; [apply Hag|apply Hag|simpl; by rewrite Hw|].
    assert (with_next_id_lock (Some true) (locked (g_locks g1) (g_table g1)) =
      locked (<[i := H_mutex]> (g_locks g1)) (g_table g1)) as ->.
    { rewrite <- (locked_mutex (g_locks g1) (<[i := H_mutex]> (g_locks g1))); [by rewrite holding_insert, decide_True|].
      intros k. unfold lock_of. by rewrite !holding_insert, !decide_False. }
    eexists. split; [|split; [|apply HQ; by exists g1]].
    + apply agree_locks; [done|]. apply exclusive_insert; [done|apply Hag|].
      intros j' [|k|k] Hj'; [|done..].
      assert (holding H_mutex (g_locks g1) ≠ 0); [apply holding_some; eauto|done].
    + apply guar_locks. intros j Hj. by rewrite lookup_insert_ne.
  - left. split; [|by eapply waits_for]. eapply mutex_blocked; [apply Hag|].
    simpl. f_equal. by apply bool_decide_eq_true.
Qed.

Lemma wpc_mutex_unlock i (Q : unit → ghost → Prop) g :
  g_locks g !! i = Some H_mutex → (∀ g', released i g g' → Q tt g') →
  wpc P i (atomic Sync (pthread_mutex_unlock (Some tb))) Q g.
Proof.
  intros Hi HQ. apply wpc_atomic; [done|]. intros g1 m Hr Hag.
  assert (g_locks g1 !! i = Some H_mutex) as Hi1 by (by rewrite (ry_locks _ _ _ Hr)).
  eapply wp_mutex_release; [apply Hag| |].
  { simpl. f_equal. apply bool_decide_eq_true, holding_some. eauto. }
  assert (with_next_id_lock (Some false) (locked (g_locks g1) (g_table g1)) =
    locked (delete i (g_locks g1)) (g_table g1)) as ->.
  { rewrite <- (locked_mutex (g_locks g1) (delete i (g_locks g1))).
    - rewrite bool_decide_eq_false_2; [done|]. intros [j [Hne Hj]%lookup_delete_Some]%holding_some.
      by pose proof (ag_exclusive _ _ _ _ Hag i j _ _ Hne Hi1 Hj).
    - intros k. unfold lock_of. by rewrite !(holding_delete _ _ _ _ Hi1), !decide_False. }
  eexists. split; [|split; [|apply HQ; by exists g1]].
  - apply agree_locks; [done|]. apply exclusive_delete, Hag.
  - apply guar_locks. intros j Hj. by rewrite lookup_delete_ne.
Qed.
End steps.
