(* ===== verification/TableActsInsert.v ===== *)
(** Insertion by one of several threads: the rules of the actions that take an id
    and that change a bucket, and of a whole call of [table_insert]. *)
From stdpp Require Import base list gmap sorting strings.
From Stdlib Require Import Ascii ZArith Lia.
From S2P Require Import Prelude Memory CLib BPTree Index Table TableMem TableRep TableCollect TableQueries TableUpdate TableLife TableSpec Actions TableActs TableActsInv TableActsSteps.

Section insert.
Context {KI : KeyIndex}.
Context (tb : loc) (base : Mem).
Abbreviation P := (table_protocol tb base).
Abbreviation agree := (agree tb base).

(** What survives any step of thread [i] and of the others. *)
Record progress (i : nat) (g g' : ghost) : Prop := {
  pg_log : g_log g `prefix_of` g_log g';
  pg_arrays a arr : g_arrays g !! a = Some (i, arr) ↔ g_arrays g' !! a = Some (i, arr)
}.

Lemma progress_refl i g : progress i g g.
Proof. done. Qed.

Lemma progress_trans i g1 g2 g3 : progress i g1 g2 → progress i g2 g3 → progress i g1 g3.
Proof. intros [H1 A1] [H2 A2]. split; [by etrans|]. intros. by rewrite A1. Qed.

Lemma relies_progress i g g' : relies i g g' → progress i g g'.
Proof. intros []. by split. Qed.

(** The facts a thread has after it took or gave back a lock. *)
Lemma acquired_facts i h g g' : acquired i h g g' →
  progress i g g' ∧ g_locks g' !! i = Some h ∧ ∀ k, g_stages g' !! (i, k) = g_stages g !! (i, k).
Proof.
  intros (g1 & Hr & ->). split; [|split].
  - destruct Hr. by split.
  - apply lookup_insert_eq.
  - intros k. apply Hr.
Qed.

Lemma released_facts i g g' : released i g g' →
  progress i g g' ∧ g_locks g' !! i = None ∧ ∀ k, g_stages g' !! (i, k) = g_stages g !! (i, k).
Proof.
  intros (g1 & Hr & ->). split; [|split].
  - destruct Hr. by split.
  - apply lookup_delete_eq.
  - intros k. apply Hr.
Qed.

(** ** The next id *)

Definition has_id (p : place * stage) : Prop := is_Some (id_of p.2).

Lemma with_ids_waiting (stages : gmap place stage) x :
  stages !! x = Some Waiting → size (filter has_id stages) < size stages.
Proof.
  intros Hx. rewrite <- (insert_delete_id stages x Waiting) by done. generalize (delete x stages), (lookup_delete_eq stages x).
  intros s Hs. rewrite map_size_insert_None by done.
  rewrite map_filter_insert_False by (intros [? Hid]; by simpl in Hid). rewrite delete_id by done.
  pose proof (map_size_filter has_id s). lia.
Qed.

Lemma with_ids_took (stages : gmap place stage) x id :
  stages !! x = Some Waiting → size (filter has_id (<[x := Took id]> stages)) = S (size (filter has_id stages)).
Proof.
  intros Hx. rewrite map_filter_insert_True by (by exists id). apply map_size_insert_None.
  apply map_lookup_filter_None. right. intros s Hs [id' Hid]. simplify_eq.
Qed.

Lemma with_ids_stored (stages : gmap place stage) x id :
  stages !! x = Some (Took id) → size (filter has_id (<[x := Stored id]> stages)) = size (filter has_id stages).
Proof.
  intros Hx. rewrite map_filter_insert_True by (by exists id).
  apply map_size_insert_Some. exists (Took id).
  apply map_lookup_filter_Some. split; [done|]. by exists id.
Qed.

Lemma waiting_below g m x :
  agree g m → g_stages g !! x = Some Waiting → (1 ≤ next_id (g_table g) < INT_MAX)%Z.
Proof.
  intros Hag Hx. pose proof (ag_count _ _ _ _ Hag) as Hc. pose proof (ag_total _ _ _ _ Hag) as Ht.
  pose proof (with_ids_waiting _ _ Hx) as Hlt. unfold has_id in Hlt. lia.
Qed.

Lemma wpc_read_next_id i k (Q : Z → ghost → Prop) g :
  g_locks g !! i = Some H_mutex → g_stages g !! (i, k) = Some Waiting →
  (∀ g', relies i g g' → Q (next_id (g_table g)) g') →
  wpc P i (atomic Next_id (read_next_id (Some tb))) Q g.
Proof.
  intros Hk Hs HQ. apply wpc_atomic; [done|]. intros g1 m Hr Hag.
  rewrite <- (ry_stages _ _ _ Hr) in Hs. pose proof (waiting_below _ _ _ Hag Hs) as Hlt.
  apply wp_bind. eapply wp_load_table; [apply Hag|]. simpl next_id. rewrite decide_True by lia.
  apply wp_ret. exists g1. split_and!; [done|apply guar_refl|]. rewrite (ry_next _ _ _ Hr) by done. by apply HQ.
Qed.

(** Thread [i] makes [id] its own. *)
Definition took (x : place) (id : Z) (g : ghost) : ghost :=
  Ghost (g_log g) (with_next_id (id + 1) (g_table g)) (g_fps g) (g_locks g) (g_arrays g)
    (<[x := Took id]> (g_stages g)).

Lemma agree_took g m x :
  let id := next_id (g_table g) in
  agree g m → g_stages g !! x = Some Waiting →
  agree (took x id g) (put_table tb (locked (g_locks g) (with_next_id (id + 1) (g_table g))) m).
Proof.
  intros id Hag Hx. pose proof (waiting_below _ _ _ Hag Hx) as Hlt.
  pose proof Hag as [Ht Hl He Hb Hnd Hlog Hst Hid Hinj Hc Htot Hcalls Hm].
  assert (∀ r, (r, x) ∉ g_log g) as Hxl by (intros r Hr%Hlog; congruence).
  split; simpl; try done.
  - pose proof (inv_bump _ _ _ _ _ _ Ht) as H. simpl in H. rewrite put_table_twice in H.
    rewrite put_table_twice. apply H. simpl. lia.
  - apply put_table_lookup.
  - intros r y Hr. rewrite lookup_insert_ne; [by apply Hlog|]. intros <-. by apply (Hxl r).
  - intros y z Hy. apply Hst. destruct (decide (y = x)) as [->|Hne]; [by rewrite lookup_insert_eq in Hy|].
    by rewrite lookup_insert_ne in Hy.
  - intros y s z [[<- <-]|[Hne Hy]]%lookup_insert_Some; simpl; [intros [= <-]; lia|].
    intros Hz. specialize (Hid _ _ _ Hy Hz). lia.
  - intros y y' s s' z [[<- <-]|[Hne Hy]]%lookup_insert_Some [[<- <-]|[Hne' Hy']]%lookup_insert_Some; simpl; try done.
    + intros [= <-] Hz. specialize (Hid _ _ _ Hy' Hz). lia.
    + intros Hz [= <-]. specialize (Hid _ _ _ Hy Hz). lia.
    + by apply (Hinj y y' s s').
  - pose proof (with_ids_took _ _ id Hx) as Hsz. unfold has_id in Hsz. rewrite Hsz. unfold id. lia.
  - rewrite map_size_insert_Some by eauto. done.
Qed.

Lemma guar_took g m i k id : agree g m → g_locks g !! i = Some H_mutex → is_Some (g_stages g !! (i, k)) →
  guar P i g (took (i, k) id g).
Proof.
  intros Hag Hi Hs. split; [|by apply dom_insert_lookup_L]. intros j Hj. split; try done; simpl.
  - intros k'. rewrite lookup_insert_ne; [done|congruence].
  - intros Hk. by pose proof (ag_exclusive _ _ _ _ Hag i j _ _ (not_eq_sym Hj) Hi Hk).
Qed.

Lemma wpc_bump i k (Q : unit → ghost → Prop) g :
  let id := next_id (g_table g) in
  g_locks g !! i = Some H_mutex → g_stages g !! (i, k) = Some Waiting →
  (∀ g1, relies i g g1 → Q tt (took (i, k) id g1)) →
  wpc P i (atomic Next_id (update (Some tb) (with_next_id (id + 1)))) Q g.
Proof.
  intros id Hk Hs HQ. apply wpc_atomic; [done|]. intros g1 m Hr Hag.
  assert (id = next_id (g_table g1)) as Hid by (symmetry; by apply Hr).
  eapply wp_update_table; [apply Hag|]. rewrite locked_next.
  exists (took (i, k) id g1). split_and!; [|eapply guar_took; [done|..]|by apply HQ].
  - rewrite Hid. apply agree_took; [done|]. by rewrite (ry_stages _ _ _ Hr).
  - by rewrite (ry_locks _ _ _ Hr).
  - rewrite (ry_stages _ _ _ Hr). eauto.
Qed.

(** ** A bucket under its lock *)

Lemma bucket_step_put fp fp' new t t' m m' :
  is_Some (m_tables m !! tb) → is_Some (m_tables m' !! tb) → bucket_step fp fp' new m m' →
  bucket_step fp fp' new (put_table tb t m) (put_table tb t' m').
Proof. intros ? ? []. split; try done. by apply bounded_put_table. Qed.

(** The table after a change of one bucket. *)
Lemma view_step g m i b b' fp fp' new m' :
  agree g m → i < TABLE_BUCKET_COUNT → buckets (g_table g) !! i = Some b → g_fps g !! i = Some fp →
  bucket_step fp fp' new m m' → bkt_lock b' = lock_of (g_locks g) i →
  bucket_at (next_id (g_table g)) i b' (bucket_rows i (log_rows g) ++ new) fp' m' →
  m_tables m' = <[tb := upd_bucket i b' (locked (g_locks g) (g_table g))]> (m_tables m) →
  let t' := upd_bucket i (with_lock unlocked b') (g_table g) in
  table_inv tb (MkState (next_id (g_table g)) (<[i := bucket_rows i (log_rows g) ++ new]> (buckets_of (log_rows g))))
    t' (<[i := fp']> (g_fps g)) (with_arrays base (g_arrays g)) (put_table tb t' m') ∧
  m_tables m' !! tb = Some (locked (g_locks g) t').
Proof.
  intros Hag Hi Hb Hf Hs Hk Hat Htab t'. pose proof (ag_table _ _ _ _ Hag) as Hinv. split.
  - assert (t' = upd_bucket i (with_lock unlocked b') (with_next_id (next_id (g_table g)) (g_table g))) as Ht'.
    { unfold t'. by f_equal. }
    rewrite Ht'. eapply (inv_step _ _ _ _ _ _ Hinv i b (with_lock unlocked b') (bucket_rows i (log_rows g)) new fp fp');
      try done.
    + by apply buckets_of_lookup.
    + apply bucket_step_put; [|by rewrite Htab, lookup_insert_eq; eauto|done].
      rewrite (ag_locked _ _ _ _ Hag). eauto.
    + by apply bucket_at_table, bucket_at_lock.
    + pose proof (ti_next_range _ _ _ _ _ _ Hinv). simpl in *. lia.
    + simpl. by rewrite Htab, !insert_insert_eq.
  - rewrite Htab, lookup_insert_eq. f_equal. by apply locked_set.
Qed.

Definition put_bucket (i : nat) (b : TableBucket) (fp : footprint) (g : ghost) : ghost :=
  Ghost (g_log g) (upd_bucket i b (g_table g)) (<[i := fp]> (g_fps g)) (g_locks g) (g_arrays g) (g_stages g).

(** Other threads hold other buckets. *)
Lemma other_bucket g m i j b b' :
  agree g m → j ≠ i → g_locks g !! i = Some (H_write b) → holds_bucket j b' g → b' ≠ b.
Proof.
  intros Hag Hj Hi Hb ->. destruct Hb as [Hb|Hb];
    by pose proof (ag_exclusive _ _ _ _ Hag i j _ _ (not_eq_sym Hj) Hi Hb).
Qed.

Lemma wpc_ensure_capacity i b (Q : bool → ghost → Prop) g :
  b < TABLE_BUCKET_COUNT → g_locks g !! i = Some (H_write b) →
  (∀ g1 bk fp, relies i g g1 → length (bucket_rows b (log_rows g1)) < capacity bk →
     buckets (g_table (put_bucket b bk fp g1)) !! b = Some bk → Q true (put_bucket b bk fp g1)) →
  wpc P i (atomic (Writes b) (table_ensure_capacity (Some tb) b)) Q g.
Proof.
  intros Hb Hk HQ. apply wpc_atomic; [done|]. intros g1 m Hr Hag.
  destruct (ag_bucket _ _ _ _ _ Hag Hb) as (bk & fp & Hbk & Hfp & _ & Hlb & Hat).
  eapply (wp_ensure_capacity _ tb (locked (g_locks g1) (g_table g1)));
    [by eapply ag_bounded|split; [apply Hag|exact Hlb]|by apply bucket_at_lock|..].
  { intros Hm. by destruct Hm; apply Hag. }
  intros b' fp' m' Hs Ht' Hlk Hat' Hroom.
  destruct (view_step g1 m b bk b' fp fp' [] m') as [Hinv Hl]; try done.
  { by rewrite app_nil_r. }
  exists (put_bucket b (with_lock unlocked b') fp' g1). split_and!.
  - rewrite app_nil_r, list_insert_id in Hinv by (by apply buckets_of_lookup).
    pose proof (ag_no_failure _ _ _ _ Hag) as Hm. destruct Hag. split; try done.
    eapply suffix_no_failure; [apply Hs|exact Hm].
  - split; [|done]. intros j Hj. split; try done. simpl. intros b2 Hb2. split; [|done].
    rewrite list_lookup_insert_ne; [done|]. intros <-. eapply (other_bucket _ _ i j); [exact Hag|done| |exact Hb2|done].
    by rewrite (ry_locks _ _ _ Hr).
  - apply HQ; [done|done|]. by eapply upd_bucket_lookup.
Qed.

Definition stored (x : place) (r : row) (b : TableBucket) (fp : footprint) (g : ghost) : ghost :=
  Ghost (g_log g ++ [(r, x)]) (upd_bucket (table_bucket_index_for_id (row_id r)) b (g_table g))
    (<[table_bucket_index_for_id (row_id r) := fp]> (g_fps g)) (g_locks g) (g_arrays g)
    (<[x := Stored (row_id r)]> (g_stages g)).

Lemma log_rows_snoc g r x : (g_log g ++ [(r, x)]).*1 = log_rows g ++ [r].
Proof. unfold log_rows. by rewrite fmap_app. Qed.

Lemma agree_stored g m x r b fp m' :
  let i := table_bucket_index_for_id (row_id r) in
  let t' := upd_bucket i b (g_table g) in
  agree g m → g_stages g !! x = Some (Took (row_id r)) →
  table_inv tb (MkState (next_id (g_table g)) (<[i := bucket_rows i (log_rows g) ++ [r]]> (buckets_of (log_rows g))))
    t' (<[i := fp]> (g_fps g)) (with_arrays base (g_arrays g)) (put_table tb t' m') →
  m_tables m' !! tb = Some (locked (g_locks g) t') → no_failure m' →
  (∃ name age, x.2.2 = Q_insert name age ∧
    rec_name r.2 = strncpy name (RECORD_NAME_SIZE - 1) ∧ rec_age r.2 = age) →
  agree (stored x r b fp g) m'.
Proof.
  intros i t' Hag Hx Hinv Hl Hm' Hcall. pose proof Hag as [Ht _ He Hb Hnd Hlog Hst Hid Hinj Hc Htot Hcalls Hm].
  assert (∀ r', (r', x) ∉ g_log g) as Hxl by (intros r' Hr'%Hlog; congruence).
  split; simpl; try done.
  - unfold state_of, log_rows. simpl. rewrite log_rows_snoc, buckets_of_snoc. exact Hinv.
  - rewrite fmap_app. apply NoDup_app. split_and!; [done| |apply NoDup_singleton].
    intros y ([r' y'] & -> & Hy)%list_elem_of_fmap [= <-]%list_elem_of_singleton. by apply (Hxl r').
  - intros r' y [Hy|[= -> ->]%list_elem_of_singleton]%elem_of_app; [|by rewrite lookup_insert_eq].
    rewrite lookup_insert_ne; [by apply Hlog|]. intros <-. by apply (Hxl r').
  - intros y z [[<- [= <-]]|[Hne Hy]]%lookup_insert_Some.
    + exists r. split; [|done]. apply elem_of_app. right. left.
    + destruct (Hst _ _ Hy) as (r' & ? & ?). exists r'. split; [|done]. apply elem_of_app. by left.
  - intros y s z [[<- <-]|[Hne Hy]]%lookup_insert_Some; [|by apply (Hid y)]. intros Hz. by apply (Hid _ _ z Hx).
  - intros y y' s s' z [[<- <-]|[Hne Hy]]%lookup_insert_Some [[<- <-]|[Hne' Hy']]%lookup_insert_Some; try done.
    + intros Hz. by apply (Hinj _ _ _ _ _ Hx Hy').
    + intros Hz Hz'. by apply (Hinj y x s _ z Hy Hx).
    + by apply (Hinj y y' s s').
  - pose proof (with_ids_stored _ _ _ Hx) as Hsz. unfold has_id in Hsz. by rewrite Hsz.
  - rewrite map_size_insert_Some by eauto. done.
  - by intros r' y [Hy|[= -> ->]%list_elem_of_singleton]%elem_of_app; [apply Hcalls|].
Qed.

Lemma guar_stored g m i k r b fp :
  agree g m → g_locks g !! i = Some (H_write (table_bucket_index_for_id (row_id r))) →
  is_Some (g_stages g !! (i, k)) → guar P i g (stored (i, k) r b fp g).
Proof.
  intros Hag Hi Hs. split; [|by apply dom_insert_lookup_L]. intros j Hj. split; try done; simpl.
  - by apply prefix_app_r.
  - intros k'. rewrite lookup_insert_ne; [done|congruence].
  - intros b2 Hb2. pose proof (other_bucket _ _ _ _ _ _ Hag Hj Hi Hb2) as Hne. split.
    + by rewrite list_lookup_insert_ne.
    + unfold log_rows at 1. simpl. rewrite log_rows_snoc, bucket_rows_snoc.
      rewrite decide_False by (intros <-; by apply Hne). apply app_nil_r.
Qed.

(** The record is stored under the id that was taken. *)
Lemma wpc_store_record i k id name age bk (Q : ptr → ghost → Prop) g :
  let b := table_bucket_index_for_id id in
  let r := MkRecord id (strncpy name (RECORD_NAME_SIZE - 1)) age in
  g_locks g !! i = Some (H_write b) → g_stages g !! (i, k) = Some (Took id) →
  k.2 = Q_insert name age →
  buckets (g_table g) !! b = Some bk → length (bucket_rows b (log_rows g)) < capacity bk →
  (∀ g1 l bk' fp, relies i g g1 → Q (Some l) (stored (i, k) (l, r) bk' fp g1)) →
  wpc P i (atomic (Writes b) (store_record (Some tb) b id name age)) Q g.
Proof.
  intros b r Hk Hs Hcall Hbk Hroom HQ. apply wpc_atomic; [done|]. intros g1 m Hr Hag.
  pose proof (bucket_index_lt id) as Hb. fold b in Hb.
  destruct (ag_bucket _ _ _ _ _ Hag Hb) as (bk1 & fp & Hbk1 & Hfp & _ & Hlb & Hat).
  destruct (ry_bucket _ _ _ Hr b) as [Hsame Hrows]; [by right|].
  rewrite Hsame, Hbk in Hbk1. injection Hbk1 as <-. rewrite <- Hrows in Hroom.
  assert (g_stages g1 !! (i, k) = Some (Took id)) as Hs1 by (by rewrite (ry_stages _ _ _ Hr)).
  pose proof (ag_ids _ _ _ _ Hag _ _ _ Hs1 eq_refl) as Hid.
  assert (id ∉ row_id <$> bucket_rows b (log_rows g1)) as Hnew.
  { intros (r' & Heq & [_ Hr']%list_elem_of_filter)%list_elem_of_fmap.
    apply list_elem_of_fmap in Hr' as ([r2 x2] & -> & Hr2).
    pose proof (ag_log _ _ _ _ Hag _ _ Hr2) as Hx2.
    assert ((i, k) = x2) as <-; [|congruence].
    eapply (ag_ids_inj _ _ _ _ Hag _ _ _ _ id Hs1 Hx2); [done|]. simpl. by rewrite Heq. }
  pose proof (ag_bounded _ _ _ _ Hag) as Hbd. pose proof (ag_no_failure _ _ _ _ Hag) as Hm.
  unfold store_record. apply wp_bind. apply wp_calloc; [done|].
  apply wp_bind. eapply (@wp_store _ heap_recs); [apply lookup_insert_eq|].
  match goal with |- wp _ _ ?M => assert (M = new_record r m) as -> end.
  { unfold new_record, set_recs, set_next. simpl. by rewrite insert_insert_eq. }
  apply (wp_add_row (next_id (g_table g1)) tb (locked (g_locks g1) (g_table g1)) b
    (with_lock (lock_of (g_locks g1) b) bk) (bucket_rows b (log_rows g1)) fp m r
    (free (T:=record) (Some (m_next m));; mret None) (mret (Some (m_next m)))); try done.
  { split; [apply Hag|]. apply locked_bucket. by rewrite Hsame. }
  intros fp' m' b' Hst Hat' Ht'. apply wp_ret.
  destruct (view_step g1 m b bk b' fp fp' [(m_next m, r)] m') as [Hinv Hl]; try done; [by rewrite Hsame|].
  exists (stored (i, k) (m_next m, r) (with_lock unlocked b') fp' g1). split_and!; [|eapply guar_stored; [done| |by eauto]|by apply HQ].
  - eapply (agree_stored _ m); [done..| |by exists name, age]. eapply suffix_no_failure; [apply Hst|done].
  - by rewrite (ry_locks _ _ _ Hr).
Qed.

(** ** The whole call *)

Lemma prefix_elem {A} (l l' : list A) x : l `prefix_of` l' → x ∈ l → x ∈ l'.
Proof. intros [k ->] Hx. apply elem_of_app. by left. Qed.

Lemma prefix_lookup_place {A} (l l' : list A) n x : l `prefix_of` l' → l !! n = Some x → l' !! n = Some x.
Proof. intros [k ->] Hx. by apply lookup_app_l_Some. Qed.

(** When [table_insert] returns, its record is in the log at a place after those
    that were there when it was called. *)
Lemma wpc_insert i k name age (Q : ptr → ghost → Prop) g :
  g_locks g !! i = None → g_stages g !! (i, k) = Some Waiting → k.2 = Q_insert name age →
  (∀ l r g', progress i g g' → g_locks g' !! i = None →
     rec_name r = strncpy name (RECORD_NAME_SIZE - 1) → rec_age r = age →
     (∃ n, length (g_log g) ≤ n ∧ g_log g' !! n = Some ((l, r), (i, k))) →
     (∀ id, g_stages g' !! (i, k) ≠ Some (Took id)) →
     (∀ k', k' ≠ k → g_stages g' !! (i, k') = g_stages g !! (i, k')) → Q (Some l) g') →
  wpc P i (insert_acts (Some tb) (Some name) age) Q g.
Proof.
  intros Hk Hs Hcall HQ. unfold insert_acts. apply wpc_bind, wpc_mutex_lock; [done|]. intros g1 H1.
  apply acquired_facts in H1 as (Hp1 & Hk1 & Hs1). cbv beta iota delta [negb].
  apply wpc_bind, (wpc_read_next_id _ k); [done|by rewrite Hs1|]. intros g2 H2.
  assert (g_locks g2 !! i = Some H_mutex) as Hk2 by (by rewrite (ry_locks _ _ _ H2)).
  rewrite <- (ry_next _ _ _ H2) by done. apply wpc_bind, (wpc_bump _ k); [done|by rewrite (ry_stages _ _ _ H2), Hs1|].
  intros g3 H3. remember (next_id (g_table g2)) as id eqn:Hid. clear Hid.
  apply wpc_bind, wpc_mutex_unlock; [simpl; by rewrite (ry_locks _ _ _ H3)|]. intros g4 H4.
  assert (progress i g g4 ∧ g_locks g4 !! i = None ∧ g_stages g4 !! (i, k) = Some (Took id) ∧
    ∀ k', k' ≠ k → g_stages g4 !! (i, k') = g_stages g !! (i, k')) as (Hp4 & Hk4 & Hs4 & Hs4').
  { apply released_facts in H4 as (Hp4 & Hk4 & Hs4). split_and!; [|done|..].
    - eapply progress_trans; [exact Hp1|]. eapply progress_trans; [by apply relies_progress|].
      eapply progress_trans; [by apply relies_progress|]. eapply progress_trans; [|exact Hp4]. done.
    - rewrite Hs4. simpl. apply lookup_insert_eq.
    - intros k' Hne. rewrite Hs4. simpl. rewrite lookup_insert_ne by congruence.
      by rewrite (ry_stages _ _ _ H3), (ry_stages _ _ _ H2), Hs1. }
  clear g1 Hp1 Hk1 Hs1 g2 H2 Hk2 g3 H3 H4.
  apply wpc_bind, wpc_wrlock; [apply bucket_index_lt|done|]. intros g5 H5.
  apply acquired_facts in H5 as (Hp5 & Hk5 & Hs5). cbv beta iota delta [negb].
  apply wpc_bind, wpc_ensure_capacity; [apply bucket_index_lt|done|]. intros g6 bk fp H6 Hroom Hbk.
  cbv beta iota delta [negb]. apply wpc_bind, (wpc_store_record _ k _ _ _ bk).
  { simpl. by rewrite (ry_locks _ _ _ H6). }
  { simpl. by rewrite (ry_stages _ _ _ H6), Hs5. }
  { done. }
  { done. }
  { done. }
  intros g7 l bk' fp' H7. apply wpc_bind, wpc_unlock; [apply bucket_index_lt|right; simpl|].
  { rewrite (ry_locks _ _ _ H7). simpl. by rewrite (ry_locks _ _ _ H6). }
  intros g8 (Hp8 & Hk8 & Hs8)%released_facts. apply wpc_ret. set (r := MkRecord id _ age) in *.
  assert (progress i g g7) as Hp7.
  { eapply progress_trans; [exact Hp4|]. eapply progress_trans; [exact Hp5|].
    eapply progress_trans; [by apply relies_progress|].
    eapply (progress_trans _ _ (put_bucket (table_bucket_index_for_id id) bk fp g6)); [done|by apply relies_progress]. }
  assert (progress i g7 (stored (i, k) (l, r) bk' fp' g7)) as Hp7'.
  { split; [|done]. simpl. by apply prefix_app_r. }
  eapply (HQ l r); [|done|done|done|..].
  - eapply progress_trans; [exact Hp7|]. by eapply progress_trans.
  - exists (length (g_log g7)). split; [by apply prefix_length, Hp7|].
    eapply prefix_lookup_place; [apply Hp8|]. simpl. by rewrite lookup_app_r, Nat.sub_diag.
  - intros id'. rewrite Hs8. simpl. by rewrite lookup_insert_eq.
  - intros k' Hne. rewrite Hs8. simpl. rewrite lookup_insert_ne by congruence.
    rewrite (ry_stages _ _ _ H7). simpl. rewrite (ry_stages _ _ _ H6), Hs5. by apply Hs4'.
Qed.
End insert.
