(* ===== verification/TableActsArrays.v ===== *)
(** The result arrays of threads: each belongs to the thread that collects into
    it, and what a thread does to its own array is seen by no other. *)
From stdpp Require Import base list gmap sorting strings.
From Stdlib Require Import Ascii ZArith Lia.
From S2P Require Import Prelude Memory CLib BPTree Index Table TableMem TableRep TableCollect TableQueries TableUpdate TableLife TableSpec Actions TableActs TableActsInv TableActsSteps TableActsInsert.

(** ** Arrays next to a table *)

Definition add_array (a : loc) (arr : rec_array) (m : Mem) : Mem := set_arrays (<[a := arr]> (m_arrays m)) m.
Definition del_array (a : loc) (m : Mem) : Mem := set_arrays (delete a (m_arrays m)) m.

Section table_inv.
Context {KI : KeyIndex}.

Lemma inv_array_live tb st t fps m0 m fp a :
  table_inv tb st t fps m0 m → fp ∈ fps → fp_array fp = Some a → is_Some (m_arrays m !! a).
Proof.
  intros Hinv [i Hi]%list_elem_of_lookup Ha. assert (i < TABLE_BUCKET_COUNT) as Hlt.
  { apply lookup_lt_Some in Hi. by rewrite (ti_len_fp _ _ _ _ _ _ Hinv) in Hi. }
  destruct (ti_bucket _ _ _ _ _ _ _ Hinv Hlt) as (b & rws & fp' & _ & _ & Hf & _ & _ & (_ & _ & [_ Harr] & _)).
  rewrite Hi in Hf. injection Hf as <-. rewrite Ha in Harr. destruct Harr as (arr & -> & _). eauto.
Qed.

(** Heaps that differ in one array the table does not own. *)
Lemma inv_arrays_elsewhere tb st t fps m0 m a h0 h :
  table_inv tb st t fps m0 m → (∀ fp, fp ∈ fps → fp_array fp ≠ Some a) → (a < m_next m)%positive →
  (∀ x, x ≠ a → h0 !! x = m_arrays m0 !! x) → (∀ x, x ≠ a → h !! x = m_arrays m !! x) → h0 !! a = h !! a →
  table_inv tb st t fps (set_arrays h0 m0) (set_arrays h m).
Proof.
  intros Hinv Hfp Hlt H0 H Ha. pose proof Hinv as []. split; try done.
  - intros i b rws fp Hb Hr Hf. destruct (ti_buckets i b rws fp Hb Hr Hf) as [Hk Hat]. split; [done|].
    eapply bucket_at_frame; [exact Hat|done| |done..]. intros x Hx. apply H. intros ->.
    by apply (Hfp fp); [eapply list_elem_of_lookup_2|].
  - intros x Hx. simpl in Hx. pose proof (ti_bounded x Hx) as Hc. unfold cell, no_cell in *. simpl.
    rewrite H; [done|lia].
  - intros x. destruct (ti_arrays x) as [O1 O2]. destruct (decide (x = a)) as [->|Hne].
    + split; [|simpl; by rewrite Ha]. intros (fp & Hf & Hfa). by apply Hfp in Hfa.
    + simpl. by rewrite H0, H.
Qed.

Lemma inv_add_array tb st t fps m0 m a arr n :
  table_inv tb st t fps m0 m → m_arrays m !! a = None → (m_next m ≤ n)%positive → (a < n)%positive →
  table_inv tb st t fps (add_array a arr m0) (add_array a arr (set_next n m)).
Proof.
  intros Hinv Ha Hn Han. apply inv_arrays_elsewhere with (a := a).
  - eapply inv_spent; [exact Hinv|]. apply spent_spec. exists n, (m_env m). by destruct m.
  - intros fp Hf Hfa. destruct (inv_array_live _ _ _ _ _ _ _ _ Hinv Hf Hfa) as [arr' Harr]. congruence.
  - done.
  - intros x Hx. by rewrite lookup_insert_ne.
  - intros x Hx. simpl. by rewrite lookup_insert_ne.
  - by rewrite !lookup_insert_eq.
Qed.

Lemma inv_del_array tb st t fps m0 m a arr :
  table_inv tb st t fps m0 m → m_arrays m0 !! a = Some arr →
  table_inv tb st t fps (del_array a m0) (del_array a m) ∧ m_arrays m !! a = Some arr.
Proof.
  intros Hinv Ha. destruct (ti_arrays _ _ _ _ _ _ Hinv a) as [O1 O2].
  assert (∀ fp, fp ∈ fps → fp_array fp ≠ Some a) as Hfp.
  { intros fp Hf Hfa. rewrite O1 in Ha by eauto. done. }
  assert (m_arrays m !! a = Some arr) as Hma.
  { rewrite O2; [done|]. intros (fp & Hf & Hfa). by apply Hfp in Hfa. }
  split; [|done]. apply inv_arrays_elsewhere with (a := a); [done|done|..].
  - pose proof (ti_bounded _ _ _ _ _ _ Hinv) as Hbd. live.
  - intros x Hx. by rewrite lookup_delete_ne.
  - intros x Hx. by rewrite lookup_delete_ne.
  - by rewrite !lookup_delete_eq.
Qed.
End table_inv.

(** ** Arrays of a thread *)

Definition with_garrays (arrs : gmap loc (nat * rec_array)) (g : ghost) : ghost :=
  Ghost (g_log g) (g_table g) (g_fps g) (g_locks g) arrs (g_stages g).

(** [rs] is the one array of thread [i]; it holds [ps] and has room for [cap]. *)
Record owns_array (i : nat) (rs : results) (cap : nat) (ps : list ptr) (g : ghost) : Prop := {
  oa_count : count rs = length ps;
  oa_room : length ps ≤ cap;
  oa_array : match records rs with
    | None => cap = 0 ∧ ∀ a arr, g_arrays g !! a ≠ Some (i, arr)
    | Some a => ∃ arr, (∀ a' arr', g_arrays g !! a' = Some (i, arr') ↔ a' = a ∧ arr' = arr) ∧
        length arr = cap ∧ take (length ps) arr = Some <$> ps
    end
}.

Abbreviation owns_none i := (owns_array i no_results 0 []).

Lemma owns_array_iff i rs cap ps g g' :
  (∀ a arr, g_arrays g !! a = Some (i, arr) ↔ g_arrays g' !! a = Some (i, arr)) →
  owns_array i rs cap ps g → owns_array i rs cap ps g'.
Proof.
  intros H [Hc Hr Ha]. split; [done|done|]. destruct (records rs) as [a|].
  - destruct Ha as (arr & Ha & Hl). exists arr. split; [|done]. intros a' arr'. by rewrite <- H.
  - destruct Ha as [-> Ha]. split; [done|]. intros a arr. rewrite <- H. apply Ha.
Qed.

Lemma owns_progress i rs cap ps g g' : owns_array i rs cap ps g → progress i g g' → owns_array i rs cap ps g'.
Proof. intros Ho Hp. eapply owns_array_iff; [apply Hp|done]. Qed.

Section arrays.
Context {KI : KeyIndex}.
Context (tb : loc) (base : Mem).
Abbreviation P := (table_protocol tb base).
Abbreviation agree := (agree tb base).

Lemma agree_garrays g m arrs m' :
  agree g m → table_inv tb (state_of g) (g_table g) (g_fps g) (with_arrays base arrs) (put_table tb (g_table g) m') →
  m_tables m' = m_tables m → (∀ a v, arrs !! a = Some v → m_arrays base !! a = None) → no_failure m' →
  agree (with_garrays arrs g) m'.
Proof. intros [Ht Hl ? ? ? ? ? ? ? ? ? ? ?] Hinv Hm Hb Hno. split; try done. by rewrite Hm. Qed.

(** The array of a thread is in memory. *)
Lemma ag_array g m a i arr : agree g m → g_arrays g !! a = Some (i, arr) →
  m_arrays m !! a = Some arr ∧ m_arrays (with_arrays base (g_arrays g)) !! a = Some arr.
Proof.
  intros Hag Ha. assert (m_arrays (with_arrays base (g_arrays g)) !! a = Some arr) as H0.
  { simpl. apply lookup_union_Some_l. by rewrite lookup_fmap, Ha. }
  by destruct (inv_del_array _ _ _ _ _ _ _ _ (ag_table _ _ _ _ Hag) H0).
Qed.

Lemma frame_delete arrs a :
  m_arrays base !! a = None → del_array a (with_arrays base arrs) = with_arrays base (delete a arrs).
Proof.
  intros Hb. unfold del_array, with_arrays. unfold set_arrays at 1. simpl. f_equal.
  rewrite delete_union, fmap_delete. by rewrite (delete_id (m_arrays base)).
Qed.

Lemma frame_insert arrs a i arr : add_array a arr (with_arrays base arrs) = with_arrays base (<[a := (i, arr)]> arrs).
Proof.
  unfold add_array, with_arrays. unfold set_arrays at 1. simpl. f_equal.
  by rewrite fmap_insert, insert_union_l.
Qed.

(** *** Hiding and showing the array of one thread *)

Definition without (p : ptr) (g : ghost) : ghost :=
  match p with None => g | Some a => with_garrays (delete a (g_arrays g)) g end.
Definition mem_without (p : ptr) (m : Mem) : Mem := match p with None => m | Some a => del_array a m end.

Lemma agree_hide g m i rs cap ps :
  agree g m → owns_array i rs cap ps g →
  agree (without (records rs) g) (mem_without (records rs) m) ∧ growing (mem_without (records rs) m) rs cap ps m.
Proof.
  intros Hag [Hc Hr Ha]. destruct (records rs) as [a|] eqn:Hrs; simpl.
  - destruct Ha as (arr & Ha & Hl & Htake). assert (g_arrays g !! a = Some (i, arr)) as Hga by by apply Ha.
    destruct (ag_array _ _ _ _ _ Hag Hga) as [Hma Hfa]. pose proof (ag_base _ _ _ _ Hag _ _ Hga) as Hb. split.
    + eapply agree_garrays; [exact Hag| |done| |apply Hag].
      * rewrite <- frame_delete by done. by destruct (inv_del_array _ _ _ _ _ _ _ _ (ag_table _ _ _ _ Hag) Hfa).
      * intros x v [_ Hx]%lookup_delete_Some. by eapply ag_base.
    + exists (m_next m), arr, (m_env m). rewrite Hrs. simpl. rewrite lookup_delete_eq. split_and!; try done.
      * unfold with_array, del_array, set_env, set_next, set_arrays. simpl. rewrite insert_delete_id by done. by destruct m.
      * pose proof (ag_bounded _ _ _ _ Hag) as Hbd. live.
  - destruct Ha as [-> Ha]. split; [done|]. exists (m_next m), [], (m_env m). rewrite Hrs.
    assert (ps = []) as -> by (destruct ps; [done|simpl in Hr; lia]).
    split_and!; try done. by destruct m.
Qed.

Lemma agree_show g m i rs cap ps m' :
  agree g m → growing m rs cap ps m' → (∀ a arr, g_arrays g !! a ≠ Some (i, arr)) →
  ∃ arrs, agree (with_garrays arrs g) m' ∧ owns_array i rs cap ps (with_garrays arrs g) ∧
    ∀ j a arr, j ≠ i → arrs !! a = Some (j, arr) ↔ g_arrays g !! a = Some (j, arr).
Proof.
  intros Hag (n & arr & e & -> & He & Hn & Hc & Hcap & Hl & Htake & Ha) Hnone.
  pose proof (ag_no_failure _ _ _ _ Hag) as Hno.
  assert (e = []) as ->.
  { unfold no_failure in Hno. rewrite Hno in He. by apply suffix_nil_inv in He. }
  destruct (records rs) as [a|] eqn:Hrs.
  - destruct Ha as [Ha Han]. assert (g_arrays g !! a = None) as Hga.
    { destruct (g_arrays g !! a) as [[j arr']|] eqn:Hga; [|done].
      apply (ag_array _ _ _ _ _ Hag) in Hga as [? _]. congruence. }
    exists (<[a := (i, arr)]> (g_arrays g)). split_and!.
    + eapply agree_garrays; [exact Hag| |done| |done].
      * rewrite <- frame_insert.
        pose proof (inv_add_array _ _ _ _ _ _ a arr n (ag_table _ _ _ _ Hag) Ha Hn Han) as Hinv.
        eapply inv_spent; [exact Hinv|]. apply spent_spec. exists n, []. split_and!; [done|apply suffix_nil|simpl; lia].
      * intros x v [[<- _]|[_ Hx]]%lookup_insert_Some; [|by eapply ag_base].
        pose proof (ti_arrays _ _ _ _ _ _ (ag_table _ _ _ _ Hag)) as Ho.
        assert (m_arrays (with_arrays base (g_arrays g)) !! a = None) as Hf by by eapply frame_none.
        simpl in Hf. by apply lookup_union_None in Hf as [_ ?].
    + split; [done|done|]. rewrite Hrs. exists arr. split; [|done]. intros a' arr'. simpl. split.
      * intros [[<- [= <-]]|[_ Hx]]%lookup_insert_Some; [done|]. by apply Hnone in Hx.
      * intros [-> ->]. apply lookup_insert_eq.
    + intros j a' arr' Hj. split.
      * intros [[_ [= Hij _]]|[_ ?]]%lookup_insert_Some; [congruence|done].
      * intros Hx. rewrite lookup_insert_ne; [done|]. intros <-. congruence.
  - exists (g_arrays g). split_and!; [|split; [done|done|by rewrite Hrs]|done].
    eapply agree_garrays; [exact Hag| |done|by eapply ag_base|done].
    eapply inv_spent; [apply Hag|]. apply spent_spec. exists n, []. split_and!; [done|apply suffix_nil|done].
Qed.

(** What an action on the thread's own array leaves alone. *)
Definition same_shared (g g' : ghost) : Prop := ∃ arrs, g' = with_garrays arrs g.

(** The rule of an action that reads the table and changes only the array of
    its thread. *)
Lemma wpc_with_array {X} i acc (c : prog Mem X) (Q : X → ghost → Prop) g rs cap ps :
  may_use acc i g → owns_array i rs cap ps g →
  (∀ g1 mB m, relies i g g1 → agree (without (records rs) g1) mB → growing mB rs cap ps m →
     wp c (λ x m', ∃ rs' cap' ps', growing mB rs' cap' ps' m' ∧
       ∀ g2, same_shared g1 g2 → owns_array i rs' cap' ps' g2 → Q x g2) m) →
  wpc P i (atomic acc c) Q g.
Proof.
  intros Huse Ho H. apply wpc_atomic; [done|]. intros g1 m Hr Hag.
  assert (owns_array i rs cap ps g1) as Ho1 by (eapply owns_array_iff; [apply Hr|done]).
  destruct (agree_hide _ _ _ _ _ _ Hag Ho1) as [HagB Hg].
  eapply wp_mono; [|by eapply H]. intros x m' (rs' & cap' & ps' & Hg' & HQ).
  assert (∀ a arr, g_arrays (without (records rs) g1) !! a ≠ Some (i, arr)) as Hnone.
  { intros a arr Ha. destruct Ho1 as [_ _ Ho1]. destruct (records rs) as [a0|]; simpl in Ha.
    - destruct Ho1 as (arr0 & Ho1 & _). apply lookup_delete_Some in Ha as [Hne Ha].
      apply Ho1 in Ha as [-> _]. done.
    - destruct Ho1 as [_ Ho1]. by apply Ho1 in Ha. }
  destruct (agree_show _ _ _ _ _ _ _ HagB Hg' Hnone) as (arrs & Hag' & Hown & Hother).
  assert (with_garrays arrs (without (records rs) g1) = with_garrays arrs g1) as Heq by (by destruct (records rs)).
  rewrite Heq in *. exists (with_garrays arrs g1). split_and!; [done| |apply HQ; [by exists arrs|done]].
  split; [|done]. intros j Hj. split; try done. intros a arr. simpl. rewrite Hother by done.
  destruct (records rs) as [a0|] eqn:Hrs; [|done]. simpl. rewrite lookup_delete_Some.
  split; [|by intros [_ ?]]. intros Ha. split; [|done]. intros <-. destruct Ho1 as [_ _ Ho1]. rewrite Hrs in Ho1.
  destruct Ho1 as (arr0 & Ho1 & _). assert (g_arrays g1 !! a0 = Some (i, arr0)) by (by apply Ho1). congruence.
Qed.
End arrays.
