(* ===== verification/TableActsLookups.v ===== *)
(** Lookups by one of several threads: each sees every bucket as it was at some
    moment of the call. *)
From stdpp Require Import base list gmap sorting strings.
From Stdlib Require Import Ascii ZArith Lia.
From S2P Require Import Prelude Memory CLib BPTree Index Table TableMem TableRep TableCollect TableQueries TableUpdate TableLife TableSpec Actions TableActs TableActsInv TableActsSteps TableActsInsert TableActsArrays.

(** ** Rows and moments *)

Definition find_row (id : Z) (rws : list row) : option row := head (filter (λ r, row_id r = id) rws).

(** Bucket [b] as it was when [cs !! b] rows were stored. *)
Definition gathered (cs : list nat) (rws : list row) : list row :=
  concat (imap (λ b c, bucket_rows b (take c rws)) cs).

Lemma find_row_spec id rws r :
  NoDup (row_id <$> rws) → find_row id rws = Some r ↔ r ∈ rws ∧ row_id r = id.
Proof.
  intros Hnd. unfold find_row. split.
  - intros H. assert (r ∈ filter (λ r, row_id r = id) rws) as [? ?]%list_elem_of_filter; [|done].
    destruct (filter _ rws); simplify_eq/=. left.
  - intros [Hr Hid]. assert (r ∈ filter (λ r, row_id r = id) rws) as Hin by by apply list_elem_of_filter.
    destruct (filter (λ r, row_id r = id) rws) as [|r' l] eqn:Hf; [by apply elem_of_nil in Hin|].
    assert (r' ∈ filter (λ r, row_id r = id) rws) as [Hid' Hr']%list_elem_of_filter by (rewrite Hf; left).
    simpl. f_equal. apply (NoDup_ids_inj rws); [done..|congruence].
Qed.

Lemma NoDup_bucket_rows b rws : NoDup (row_id <$> rws) → NoDup (row_id <$> bucket_rows b rws).
Proof. intros H. eapply sublist_NoDup; [exact H|]. apply fmap_sublist, sublist_filter. Qed.

Lemma index_find id rws :
  NoDup (row_id <$> rws) → rows_map (bucket_rows (table_bucket_index_for_id id) rws) !! id = find_row id rws.
Proof.
  intros Hnd. apply option_eq. intros r. rewrite rows_map_lookup by by apply NoDup_bucket_rows.
  rewrite find_row_spec by done. unfold bucket_rows. rewrite list_elem_of_filter. unfold in_bucket.
  split; [tauto|]. intros [? <-]. done.
Qed.

Lemma log_rows_prefix g g' : g_log g `prefix_of` g_log g' → log_rows g = take (length (g_log g)) (log_rows g').
Proof. intros [k Hk]. unfold log_rows. by rewrite Hk, fmap_app, <- (length_fmap fst (g_log g)), take_app_length. Qed.

Lemma log_rows_later g g' r : g_log g `prefix_of` g_log g' → r ∈ log_rows g → r ∈ log_rows g'.
Proof. intros [k Hk]. unfold log_rows. rewrite Hk, fmap_app, elem_of_app. by left. Qed.

Lemma gathered_snoc cs c rws :
  gathered (cs ++ [c]) rws = gathered cs rws ++ bucket_rows (length cs) (take c rws).
Proof.
  unfold gathered. rewrite imap_app, concat_app. simpl. by rewrite app_nil_r, Nat.add_0_r.
Qed.

Lemma gathered_prefix cs rws n :
  Forall (λ c, c ≤ n) cs → gathered cs (take n rws) = gathered cs rws.
Proof.
  intros H. unfold gathered. f_equal. apply imap_ext. intros b c Hc.
  rewrite Forall_lookup in H. apply H in Hc. by rewrite take_take, Nat.min_l.
Qed.

Lemma elem_of_gathered r cs rws :
  r ∈ gathered cs rws → r ∈ rws ∧ table_bucket_index_for_id (row_id r) < length cs.
Proof.
  induction cs as [|c cs IH] using rev_ind; [by intros ?%elem_of_nil|].
  rewrite gathered_snoc, length_app. simpl. intros [Hr|[Hb Hr]%list_elem_of_filter]%elem_of_app.
  - apply IH in Hr as [? ?]. split; [done|lia].
  - rewrite Hb. split; [|lia]. rewrite <- (take_drop c rws). apply elem_of_app. by left.
Qed.

Lemma gathered_NoDup cs rws : NoDup (row_id <$> rws) → NoDup (row_id <$> gathered cs rws).
Proof.
  intros Hnd. induction cs as [|c cs IH] using rev_ind; [constructor|].
  rewrite gathered_snoc, fmap_app. apply NoDup_app. split_and!; [done| |].
  - intros id (r & -> & [_ Hr]%elem_of_gathered)%list_elem_of_fmap (r' & Heq & [Hb _]%list_elem_of_filter)%list_elem_of_fmap.
    unfold in_bucket in Hb. rewrite <- Heq in Hb. lia.
  - apply NoDup_bucket_rows. eapply sublist_NoDup; [exact Hnd|]. apply fmap_sublist, sublist_take.
Qed.

(** ** What a lookup keeps *)

Record kept (i : nat) (g g' : ghost) : Prop := {
  kp_progress : progress i g g';
  kp_locks : g_locks g' !! i = g_locks g !! i;
  kp_stages k : g_stages g' !! (i, k) = g_stages g !! (i, k)
}.

Lemma kept_refl i g : kept i g g.
Proof. done. Qed.

Lemma kept_trans i g1 g2 g3 : kept i g1 g2 → kept i g2 g3 → kept i g1 g3.
Proof. intros [P1 K1 S1] [P2 K2 S2]. split; [by eapply progress_trans|by rewrite K2|intros; by rewrite S2]. Qed.

Lemma relies_kept i g g' : relies i g g' → kept i g g'.
Proof. intros H. split; [by apply relies_progress|apply H..]. Qed.

(** Between a lock and its release. *)
Lemma locked_kept i h g g1 g2 g3 :
  g_locks g !! i = None → acquired i h g g1 → kept i g1 g2 → released i g2 g3 → kept i g g3.
Proof.
  intros Hk (Hp1 & _ & Hs1)%acquired_facts [Hp2 _ Hs2] (Hp3 & Hk3 & Hs3)%released_facts. split.
  - eapply progress_trans; [exact Hp1|]. by eapply progress_trans.
  - congruence.
  - intros k. by rewrite Hs3, Hs2, Hs1.
Qed.

Section lookups.
Context {KI : KeyIndex}.
Context (tb : loc) (base : Mem).
Abbreviation P := (table_protocol tb base).
Abbreviation agree := (agree tb base).

(** ** Looking at one bucket *)

Lemma wpc_bucket_size i b (Q : nat → ghost → Prop) g :
  b < TABLE_BUCKET_COUNT → holds_bucket i b g →
  (∀ g1, relies i g g1 → Q (length (bucket_rows b (log_rows g))) g1) →
  wpc P i (atomic (Reads b) (bucket_size (Some tb) b)) Q g.
Proof.
  intros Hb Hk HQ. apply wpc_atomic; [done|]. intros g1 m Hr Hag.
  destruct (ag_bucket _ _ _ _ _ Hag Hb) as (bk & fp & Hbk & _ & _ & Hlb & (Hs & _)).
  apply wp_bind. eapply wp_get_bucket; [split; [apply Hag|exact Hlb]|]. apply wp_ret. simpl. rewrite Hs.
  destruct (ry_bucket _ _ _ Hr b Hk) as [_ ->].
  exists g1. split_and!; [done|apply guar_refl|by apply HQ].
Qed.

Lemma wpc_search i id (Q : ptr → ghost → Prop) g :
  let b := table_bucket_index_for_id id in
  holds_bucket i b g →
  (∀ g1, relies i g g1 → NoDup (row_id <$> log_rows g1) → Q (fst <$> find_row id (log_rows g1)) g1) →
  wpc P i (atomic (Reads b) (bk ← get_bucket (Some tb) b; bptree_search (pk_index bk) id)) Q g.
Proof.
  intros b Hk HQ. apply wpc_atomic; [done|]. intros g1 m Hr Hag.
  pose proof (bucket_index_lt id) as Hb. fold b in Hb. pose proof (ag_ids_NoDup _ _ _ _ Hag) as Hnd.
  destruct (ag_bucket _ _ _ _ _ Hag Hb) as (bk & fp & Hbk & _ & _ & Hlb & (_ & _ & _ & Hpk & Hidx & _)).
  apply wp_bind. eapply wp_get_bucket; [split; [apply Hag|exact Hlb]|]. simpl pk_index. rewrite Hpk.
  eapply wp_mono; [|by eapply index_search]. intros p m' [-> ->].
  exists g1. split_and!; [done|apply guar_refl|]. rewrite index_map_lookup, index_find by done. by apply HQ.
Qed.

(** The row pointers of a bucket, next to the array of the thread. *)
Lemma ag_row_pointers g mB b rs cap ps m :
  agree g mB → b < TABLE_BUCKET_COUNT → growing mB rs cap ps m →
  ∃ t bk, bucket_is tb b t bk m ∧
    ∀ j r (Q : ptr → Mem → Prop), bucket_rows b (log_rows g) !! j = Some r → Q (Some r.1) m →
      wp (array_get (rows bk) j) Q m.
Proof.
  intros Hag Hb Hg. destruct (ag_bucket _ _ _ _ _ Hag Hb) as (bk & fp & _ & _ & _ & Hlb & (_ & Hrows & [Hle Harr] & _)).
  eexists _, _. split.
  { split; [|exact Hlb]. rewrite (growing_tables _ _ _ _ _ Hg). apply Hag. }
  intros j r Q Hj HQ. simpl. rewrite Hrows. destruct (fp_array fp) as [a|].
  - destruct Harr as (arr & Ha & Hl & Htake). eapply wp_array_get; [|  |exact HQ].
    + eapply growing_old_array; [|exact Hg|exact Ha]. apply mem_bounded_arrays. by eapply ag_bounded.
    + apply (lookup_take_Some _ (length (bucket_rows b (log_rows g)))). by rewrite Htake, list_lookup_fmap, Hj.
  - apply lookup_lt_Some in Hj. lia.
Qed.

Lemma wpc_scan_row i b id j r (Q : unit + ptr → ghost → Prop) g :
  b < TABLE_BUCKET_COUNT → holds_bucket i b g → bucket_rows b (log_rows g) !! j = Some r →
  (∀ g1, relies i g g1 → NoDup (row_id <$> log_rows g1) →
     Q (if decide (row_id r = id) then inr (Some r.1) else inl tt) g1) →
  wpc P i (atomic (Reads b) (scan_row (Some tb) b id j)) Q g.
Proof.
  intros Hb Hk Hj HQ. apply wpc_atomic; [done|]. intros g1 m Hr Hag.
  pose proof (ag_ids_NoDup _ _ _ _ Hag) as Hnd. destruct (ry_bucket _ _ _ Hr b Hk) as [_ Hrows].
  rewrite <- Hrows in Hj.
  destruct (ag_row_pointers _ _ b no_results 0 [] m Hag Hb (growing_refl m)) as (t & bk & Hbi & Hget).
  unfold scan_row. apply wp_bind. eapply wp_get_bucket; [exact Hbi|].
  apply wp_bind. eapply Hget; [exact Hj|]. apply wp_bind. eapply wp_load_record.
  { pose proof (ag_rows_in _ _ _ _ Hag) as Hin. unfold rows_in in Hin. rewrite Forall_forall in Hin. apply Hin.
    apply list_elem_of_lookup_2 in Hj. by apply list_elem_of_filter in Hj as [_ ?]. }
  specialize (HQ g1 Hr Hnd). change (rec_id r.2) with (row_id r). case_decide.
  - apply wp_bind. eapply wp_get_bucket; [exact Hbi|]. apply wp_bind. eapply Hget; [exact Hj|]. apply wp_ret.
    exists g1. split_and!; [done|apply guar_refl|done].
  - apply wp_ret. exists g1. split_and!; [done|apply guar_refl|done].
Qed.

(** ** The two searches for an id *)

Lemma find_moment i id g g1 g' :
  kept i g g1 → kept i g1 g' →
  ∃ c, length (g_log g) ≤ c ≤ length (g_log g') ∧ find_row id (log_rows g1) = find_row id (take c (log_rows g')).
Proof.
  intros [[H1 _] _ _] [[H2 _] _ _]. exists (length (g_log g1)). split; [|by rewrite <- log_rows_prefix].
  split; by apply prefix_length.
Qed.

(** What a search for one id finds. *)
Definition finds (i : nat) (id : Z) (Q : ptr → ghost → Prop) (g : ghost) : Prop :=
  ∀ c g', kept i g g' → length (g_log g) ≤ c ≤ length (g_log g') → Q (fst <$> find_row id (take c (log_rows g'))) g'.

Lemma wpc_find_by_id i id (Q : ptr → ghost → Prop) g :
  g_locks g !! i = None → finds i id Q g → wpc P i (find_by_id_acts (Some tb) id) Q g.
Proof.
  intros Hk HQ. apply wpc_bind, wpc_rdlock; [apply bucket_index_lt|done|]. intros g1 H1.
  cbv beta iota delta [negb]. pose proof (acquired_facts _ _ _ _ H1) as (_ & Hk1 & _).
  apply wpc_bind, wpc_search; [by left|]. intros g2 H2 Hnd.
  apply wpc_bind, wpc_unlock; [apply bucket_index_lt|left; by rewrite (ry_locks _ _ _ H2)|]. intros g3 H3.
  apply wpc_ret. pose proof (relies_kept _ _ _ H2) as Hk12.
  assert (kept i g g3) as Hk3 by by eapply locked_kept.
  pose proof (released_facts _ _ _ H3) as ([Hlog _] & _ & _).
  rewrite (log_rows_prefix _ _ Hlog). apply HQ; [done|]. split; [|by apply prefix_length].
  destruct (acquired_facts _ _ _ _ H1) as ([Hl1 _] & _ & _). destruct Hk12 as [[Hl2 _] _ _].
  etrans; by apply prefix_length.
Qed.

(** A turn of the scan finds the row in its bucket, or there is none. *)
Lemma wpc_scan_bucket i b id (Q : unit + ptr → ghost → Prop) g :
  b < TABLE_BUCKET_COUNT → g_locks g !! i = None →
  (∀ g1 g' r, kept i g g' → g_log g `prefix_of` g_log g1 → g_log g1 `prefix_of` g_log g' →
     NoDup (row_id <$> log_rows g1) → r ∈ log_rows g1 → row_id r = id → Q (inr (Some r.1)) g') →
  (∀ g1 g', kept i g g' → g_log g `prefix_of` g_log g1 → g_log g1 `prefix_of` g_log g' →
     id ∉ row_id <$> bucket_rows b (log_rows g1) → Q (inl tt) g') →
  wpc P i (scan_bucket_acts (Some tb) id b) Q g.
Proof.
  intros Hb Hk Hhit Hmiss. apply wpc_bind, wpc_rdlock; [done|done|]. intros g1 H1.
  cbv beta iota delta [negb]. pose proof (acquired_facts _ _ _ _ H1) as (Hp1 & Hk1 & _).
  apply wpc_bind, wpc_bucket_size; [done|by left|]. intros g2 H2.
  assert (holds_bucket i b g1) as Hh1 by by left. assert (holds_bucket i b g2) as Hh2 by (left; by rewrite (ry_locks _ _ _ H2)).
  destruct (ry_bucket _ _ _ H2 b Hh1) as [_ Hrows2]. rewrite <- Hrows2.
  pose proof (relies_kept _ _ _ H2) as Hk12.
  set (rws := bucket_rows b (log_rows g2)) in *.
  apply wpc_bind. eapply wpc_mono.
  - apply (wpc_until P i _ (λ j _ g', kept i g1 g' ∧ bucket_rows b (log_rows g') = rws ∧ id ∉ row_id <$> take j rws)
      (λ p g', ∃ g0 r, p = Some r.1 ∧ kept i g1 g0 ∧ released i g0 g' ∧
         NoDup (row_id <$> log_rows g0) ∧ r ∈ log_rows g0 ∧ row_id r = id)).
    { split_and!; [done|done|apply not_elem_of_nil]. }
    intros j [] g3 [_ Hj] (Hk13 & Hrows3 & Hid). destruct (lookup_lt_is_Some_2 rws j Hj) as [r Hr].
    assert (holds_bucket i b g3) as Hh3 by (left; by rewrite (kp_locks _ _ _ Hk13)).
    apply wpc_bind. eapply wpc_scan_row; [done|done|by rewrite Hrows3|]. intros g4 H4 Hnd.
    assert (kept i g1 g4) as Hk14 by (eapply kept_trans; [done|by apply relies_kept]).
    destruct (ry_bucket _ _ _ H4 b Hh3) as [_ Hrows4]. case_decide as Heq.
    + apply wpc_bind, wpc_unlock; [done|left; by rewrite (kp_locks _ _ _ Hk14)|]. intros g5 H5. apply wpc_ret.
      exists g4, r. split_and!; try done. rewrite <- Hrows3, <- Hrows4 in Hr.
      apply list_elem_of_lookup_2 in Hr. by apply list_elem_of_filter in Hr as [_ ?].
    + apply wpc_ret. split_and!; [done|by rewrite Hrows4|].
      rewrite (take_S_r _ _ r), fmap_app, elem_of_app by done. simpl.
      intros [?|?%list_elem_of_singleton]; [done|]. by apply Heq.
  - cbv beta. intros [[]|p] g3.
    + intros (Hk13 & Hrows3 & Hid). rewrite Nat.add_0_l, firstn_all in Hid.
      apply wpc_bind, wpc_unlock; [done|left; by rewrite (kp_locks _ _ _ Hk13)|]. intros g4 H4. apply wpc_ret.
      apply (Hmiss g3); [by eapply locked_kept| | |by rewrite Hrows3].
      * etrans; [apply Hp1|apply Hk13].
      * by destruct (released_facts _ _ _ H4) as ([? _] & _ & _).
    + intros (g0 & r & -> & Hk10 & H3 & Hnd & Hr & Hid). apply wpc_ret. eapply Hhit; [by eapply locked_kept| | |done..].
      * etrans; [apply Hp1|apply Hk10].
      * by destruct (released_facts _ _ _ H3) as ([? _] & _ & _).
Qed.

Lemma wpc_scan_by_id i id (Q : ptr → ghost → Prop) g :
  g_locks g !! i = None → finds i id Q g → wpc P i (scan_by_id_acts (Some tb) id) Q g.
Proof.
  intros Hk HQ. set (b0 := table_bucket_index_for_id id). apply wpc_bind. eapply wpc_mono.
  - apply (wpc_until P i _
      (λ j _ g', kept i g g' ∧ (b0 < j → ∃ c, length (g_log g) ≤ c ≤ length (g_log g') ∧ find_row id (take c (log_rows g')) = None))
      (λ p g', ∃ c, kept i g g' ∧ length (g_log g) ≤ c ≤ length (g_log g') ∧ p = fst <$> find_row id (take c (log_rows g')))).
    { split; [apply kept_refl|lia]. }
    intros j [] g1 [_ Hj] [Hk1 Hnone]. apply wpc_scan_bucket; [done|by rewrite (kp_locks _ _ _ Hk1)|..].
    + intros g2 g3 r Hk3 Hp2 Hp3 Hnd Hr Hid. exists (length (g_log g2)).
      assert (find_row id (log_rows g2) = Some r) as Hf by by apply find_row_spec.
      rewrite <- (log_rows_prefix _ _ Hp3), Hf. split_and!; [by eapply kept_trans| | |done].
      * etrans; [apply prefix_length, Hk1|by apply prefix_length].
      * by apply prefix_length.
    + intros g2 g3 Hk3 Hp2 Hp3 Hid. split; [by eapply kept_trans|]. intros Hlt.
      destruct (decide (b0 < j)) as [Hb0|Hb0].
      * destruct (Hnone Hb0) as (c & Hc & Hf). exists c. pose proof (prefix_length _ _ (pg_log _ _ _ (kp_progress _ _ _ Hk3))).
        split; [lia|]. rewrite <- Hf, (log_rows_prefix g1 g3) by apply Hk3. by rewrite take_take, Nat.min_l by lia.
      * assert (j = b0) as -> by lia. exists (length (g_log g2)). split.
        { split; [etrans; [apply prefix_length, Hk1|by apply prefix_length]|by apply prefix_length]. }
        rewrite <- (log_rows_prefix _ _ Hp3). unfold find_row.
        destruct (filter (λ r, row_id r = id) (log_rows g2)) as [|r l] eqn:Hf; [done|].
        assert (r ∈ filter (λ r, row_id r = id) (log_rows g2)) as [Hrid Hr]%list_elem_of_filter by (rewrite Hf; left).
        destruct Hid. rewrite <- Hrid. apply list_elem_of_fmap_2, list_elem_of_filter. split; [|done].
        unfold in_bucket. by rewrite Hrid.
  - cbv beta. intros [[]|p] g'.
    + intros [Hk' Hnone]. destruct Hnone as (c & Hc & Hf); [apply bucket_index_lt|]. apply wpc_ret.
      change (@None loc) with (fst <$> @None row). rewrite <- Hf. by apply HQ.
    + intros (c & Hk' & Hc & ->). apply wpc_ret. by apply HQ.
Qed.
End lookups.
