(* ===== verification/TableActsCollect.v ===== *)
(** Searches by one of several threads: the rows collected are those that each
    bucket held at some moment of the call. *)
From stdpp Require Import base list gmap sorting strings.
From Stdlib Require Import Ascii ZArith Lia.
From S2P Require Import Prelude Memory CLib BPTree Index Table TableMem TableRep TableCollect TableQueries TableUpdate TableLife TableSpec Actions TableActs TableActsInv TableActsSteps TableActsInsert TableActsArrays TableActsLookups.

Section collect.
Context {KI : KeyIndex}.
Context (tb : loc) (base : Mem).
Abbreviation P := (table_protocol tb base).
Abbreviation agree := (agree tb base).

Lemma shared_kept i g g1 g2 :
  relies i g g1 → same_shared g1 g2 →
  g_log g `prefix_of` g_log g2 ∧ g_log g2 = g_log g1 ∧ g_table g2 = g_table g1 ∧
  g_locks g2 !! i = g_locks g !! i ∧ ∀ k, g_stages g2 !! (i, k) = g_stages g !! (i, k).
Proof. intros Hr [arrs ->]. split_and!; try done; [apply Hr|simpl; apply Hr|intros k; apply Hr]. Qed.

Lemma without_log p g : g_log (without p g) = g_log g ∧ g_locks (without p g) = g_locks g ∧ g_table (without p g) = g_table g.
Proof. by destruct p. Qed.

(** What stays of [kept] while the thread changes its array. *)
Record going (i : nat) (g g' : ghost) : Prop := {
  go_log : g_log g `prefix_of` g_log g';
  go_locks : g_locks g' !! i = g_locks g !! i;
  go_stages k : g_stages g' !! (i, k) = g_stages g !! (i, k)
}.

Lemma going_refl i g : going i g g.
Proof. done. Qed.
Lemma going_trans i g1 g2 g3 : going i g1 g2 → going i g2 g3 → going i g1 g3.
Proof. intros [P1 K1 S1] [P2 K2 S2]. split; [by etrans|by rewrite K2|intros; by rewrite S2]. Qed.
Lemma kept_going i g g' : kept i g g' → going i g g'.
Proof. intros [[] ? ?]. by split. Qed.
Lemma relies_going i g g' : relies i g g' → going i g g'.
Proof. intros H. by apply kept_going, relies_kept. Qed.
Lemma shared_going i g g1 g2 : relies i g g1 → same_shared g1 g2 → going i g g2.
Proof. intros Hr Hs. by destruct (shared_kept _ _ _ _ Hr Hs) as (? & _ & _ & ? & ?). Qed.

Lemma locked_going i h g g1 g2 g3 :
  g_locks g !! i = None → acquired i h g g1 → going i g1 g2 → released i g2 g3 → going i g g3.
Proof.
  intros Hk ([Hp1 _] & _ & Hs1)%acquired_facts [Hp2 _ Hs2] ([Hp3 _] & Hk3 & Hs3)%released_facts. split.
  - etrans; [exact Hp1|]. by etrans.
  - congruence.
  - intros k. by rewrite Hs3, Hs2, Hs1.
Qed.

(** ** One bucket *)

Lemma wpc_collect_row i b j r rs cap rws (Q : bool * results * nat → ghost → Prop) g :
  b < TABLE_BUCKET_COUNT → holds_bucket i b g → bucket_rows b (log_rows g) !! j = Some r →
  owns_array i rs cap (row_ptrs rws) g →
  (∀ g2 rs' cap', going i g g2 → bucket_rows b (log_rows g2) = bucket_rows b (log_rows g) →
     owns_array i rs' cap' (row_ptrs (rws ++ [r])) g2 → Q (true, rs', cap') g2) →
  wpc P i (atomic (Reads b) (collect_row (Some tb) b j rs cap)) Q g.
Proof.
  intros Hb Hk Hj Ho HQ. eapply wpc_with_array; [done|exact Ho|]. intros g1 mB m Hr Hag Hg.
  destruct (ry_bucket _ _ _ Hr b Hk) as [_ Hrows]. pose proof (ag_no_failure _ _ _ _ Hag) as Hno.
  destruct (ag_row_pointers _ _ _ _ b _ _ _ _ Hag Hb Hg) as (t & bk & Hbi & Hget).
  unfold log_rows in Hget at 1. destruct (without_log (records rs) g1) as (Hlog & _). rewrite Hlog in Hget.
  unfold collect_row. apply wp_bind. eapply wp_get_bucket; [exact Hbi|].
  apply wp_bind. eapply Hget; [fold (log_rows g1); by rewrite Hrows|].
  eapply growing_append; [apply mem_bounded_arrays; by eapply ag_bounded|exact Hg|..].
  { intros m2 Hm2. by destruct Hm2. }
  intros rs' cap' m2 Hg2. exists rs', cap', (row_ptrs (rws ++ [r])). split.
  { revert Hg2. unfold row_ptrs. by rewrite fmap_app. }
  intros g2 Hs Ho2. destruct (shared_kept _ _ _ _ Hr Hs) as (? & Hl2 & _ & ? & ?).
  apply HQ; [done|unfold log_rows; by rewrite Hl2|done].
Qed.

Lemma wpc_collect_bucket i b rs cap rws (Q : bool * results * nat → ghost → Prop) g :
  b < TABLE_BUCKET_COUNT → holds_bucket i b g → owns_array i rs cap (row_ptrs rws) g →
  (∀ g2 rs' cap', going i g g2 → bucket_rows b (log_rows g2) = bucket_rows b (log_rows g) →
     owns_array i rs' cap' (row_ptrs (rws ++ bucket_rows b (log_rows g))) g2 → Q (true, rs', cap') g2) →
  wpc P i (collect_bucket_acts (Some tb) b rs cap) Q g.
Proof.
  intros Hb Hk Ho HQ. apply wpc_bind, wpc_bucket_size; [done|done|]. intros g1 H1.
  destruct (ry_bucket _ _ _ H1 b Hk) as [_ Hrows1]. set (bs := bucket_rows b (log_rows g)) in *.
  apply wpc_bind. eapply wpc_mono.
  - apply (wpc_until P i _ (λ j '(rs, cap) g', going i g g' ∧ bucket_rows b (log_rows g') = bs ∧
        owns_array i rs cap (row_ptrs (rws ++ take j bs)) g') (λ _ _, False)).
    { split_and!; [by apply relies_going|done|]. simpl. rewrite app_nil_r.
      eapply owns_progress; [exact Ho|by apply relies_progress]. }
    intros j [rs1 cap1] g2 [_ Hj] (Hg2 & Hrows2 & Ho2). destruct (lookup_lt_is_Some_2 bs j Hj) as [r Hr].
    apply wpc_bind. eapply wpc_collect_row; [done| |by rewrite Hrows2|exact Ho2|].
    { unfold holds_bucket. by rewrite (go_locks _ _ _ Hg2). }
    intros g3 rs' cap' Hg3 Hrows3 Ho3. apply wpc_ret. split_and!.
    + by eapply going_trans.
    + by rewrite Hrows3.
    + rewrite (take_S_r _ _ r) by done. by rewrite (assoc_L (++)).
  - cbv beta. intros [[rs1 cap1]|[rs1 cap1]] g2; [|done]. intros (Hg2 & Hrows2 & Ho2).
    rewrite Nat.add_0_l, firstn_all in Ho2. apply wpc_ret. by apply HQ.
Qed.

(** ** All buckets *)

(** Moments of a call that began in [g]: in order, and none earlier. *)
Definition moments (cs : list nat) (g g' : ghost) : Prop :=
  StronglySorted le cs ∧ Forall (λ c, length (g_log g) ≤ c ≤ length (g_log g')) cs.

Lemma StronglySorted_snoc (cs : list nat) c :
  StronglySorted le cs → Forall (λ x, x ≤ c) cs → StronglySorted le (cs ++ [c]).
Proof.
  intros Hs Hc. apply StronglySorted_app. split_and!; [|done|by repeat constructor].
  intros x y Hx ->%list_elem_of_singleton. rewrite Forall_forall in Hc. by apply Hc.
Qed.

Lemma moments_snoc cs g g1 g2 :
  moments cs g g1 → g_log g `prefix_of` g_log g1 → g_log g1 `prefix_of` g_log g2 →
  moments (cs ++ [length (g_log g2)]) g g2.
Proof.
  intros [Hs Hc] Hp1%prefix_length Hp2%prefix_length. rewrite Forall_forall in Hc.
  split; [apply StronglySorted_snoc; [done|]|apply Forall_app; split; [|repeat constructor; lia]];
    apply Forall_forall; intros c Hcc; specialize (Hc c Hcc); lia.
Qed.

Lemma moments_later cs g g1 g2 : moments cs g g1 → g_log g1 `prefix_of` g_log g2 → moments cs g g2.
Proof. intros [Hs Hc] Hp%prefix_length. split; [done|]. eapply Forall_impl; [exact Hc|]. simpl. lia. Qed.

Lemma gathered_later cs g g1 g2 :
  moments cs g g1 → g_log g1 `prefix_of` g_log g2 → gathered cs (log_rows g2) = gathered cs (log_rows g1).
Proof.
  intros [_ Hc] Hp. rewrite (log_rows_prefix g1 g2 Hp). symmetry. apply gathered_prefix.
  eapply Forall_impl; [exact Hc|]. simpl. lia.
Qed.

Lemma gathered_now cs g :
  gathered (cs ++ [length (g_log g)]) (log_rows g) = gathered cs (log_rows g) ++ bucket_rows (length cs) (log_rows g).
Proof. rewrite gathered_snoc. unfold log_rows at 3. by rewrite <- (length_fmap fst (g_log g)), firstn_all. Qed.

Lemma wpc_collect_turn i b rs cap rws (Q : results * nat + results → ghost → Prop) g :
  b < TABLE_BUCKET_COUNT → g_locks g !! i = None → owns_array i rs cap (row_ptrs rws) g →
  (∀ g1 g2 rs' cap', g_log g `prefix_of` g_log g1 → g_log g1 `prefix_of` g_log g2 → going i g g2 →
     owns_array i rs' cap' (row_ptrs (rws ++ bucket_rows b (log_rows g1))) g2 → Q (inl (rs', cap')) g2) →
  wpc P i (collect_turn (Some tb) b rs cap) Q g.
Proof.
  intros Hb Hk Ho HQ. apply wpc_bind, wpc_rdlock; [done|done|]. intros g1 H1.
  cbv beta iota delta [negb]. pose proof (acquired_facts _ _ _ _ H1) as (Hp1 & Hk1 & _).
  apply wpc_bind, (wpc_collect_bucket _ _ _ _ rws); [done|by left|by eapply owns_progress|].
  intros g2 rs' cap' Hg2 Hrows Ho2. cbv beta iota delta [negb].
  apply wpc_bind, wpc_unlock; [done|left; by rewrite (go_locks _ _ _ Hg2)|]. intros g3 H3. apply wpc_ret.
  pose proof (released_facts _ _ _ H3) as (Hp3 & _ & _).
  apply (HQ g2); [etrans; [apply Hp1|apply Hg2]|apply Hp3|by eapply locked_going|].
  rewrite Hrows. by eapply owns_progress.
Qed.

(** What a thread holds when it has collected every row. *)
Record collected (i : nat) (g g' : ghost) (cs : list nat) : Prop := {
  co_going : going i g g';
  co_moments : moments cs g g';
  co_all : length cs = TABLE_BUCKET_COUNT;
  co_ids : NoDup (row_id <$> gathered cs (log_rows g'))
}.

Lemma collected_later i g g1 g2 cs : collected i g g1 cs → going i g1 g2 → collected i g g2 cs.
Proof.
  intros [Hg Hm Hl Hn] H. split; [by eapply going_trans|eapply moments_later; [done|apply H]|done|].
  by rewrite (gathered_later _ _ _ _ Hm) by apply H.
Qed.

(** The rows collected, in the order of their ids. *)
Definition collection (cs : list nat) (g : ghost) : list row := sort_rows (gathered cs (log_rows g)).

Lemma wpc_sort i rs cap cs (Q : unit → ghost → Prop) g :
  owns_array i rs cap (row_ptrs (gathered cs (log_rows g))) g →
  (∀ g2, going i g g2 → NoDup (row_id <$> log_rows g2) →
     owns_array i rs cap (row_ptrs (sort_rows (gathered cs (log_rows g)))) g2 → Q tt g2) →
  wpc P i (atomic Local (table_sort_records_by_id (records rs) (count rs))) Q g.
Proof.
  intros Ho HQ. eapply wpc_with_array; [done|exact Ho|]. intros g1 mB m Hr Hag Hg.
  destruct (without_log (records rs) g1) as (Hlog & _).
  assert (log_rows (without (records rs) g1) = log_rows g1) as Hl by (unfold log_rows; by rewrite Hlog).
  pose proof (ag_ids_NoDup _ _ _ _ Hag) as Hnd. rewrite Hl in Hnd.
  assert (gathered cs (log_rows g) ⊆ log_rows g1) as Hsub.
  { intros r [Hr' _]%elem_of_gathered. eapply log_rows_later; [apply Hr|done]. }
  eapply growing_sort; [exact Hg| |apply gathered_NoDup|].
  - pose proof (ag_rows_in _ _ _ _ Hag) as Hin. unfold rows_in in *. rewrite Forall_forall in Hin.
    apply Forall_forall. intros r Hr'%Hsub. apply Hin. by rewrite Hl.
  - rewrite (log_rows_prefix g g1) by apply Hr. eapply sublist_NoDup; [exact Hnd|].
    apply fmap_sublist, sublist_take.
  - intros m2 Hg2. eexists _, _, _. split; [exact Hg2|]. intros g2 Hs Ho2.
    destruct (shared_kept _ _ _ _ Hr Hs) as (? & Hl2 & _ & ? & ?).
    apply HQ; [done|unfold log_rows; by rewrite Hl2|done].
Qed.

Lemma wpc_collect_all i rs0 (Q : bool * results → ghost → Prop) g :
  g_locks g !! i = None → owns_none i g →
  (∀ cs rs cap g', collected i g g' cs → owns_array i rs cap (row_ptrs (collection cs g')) g' → Q (true, rs) g') →
  wpc P i (collect_all_acts (Some tb) rs0) Q g.
Proof.
  intros Hk Ho HQ. apply wpc_bind. eapply wpc_mono.
  - apply (wpc_until P i _ (λ j '(rs, cap) g', ∃ cs, length cs = j ∧ moments cs g g' ∧ going i g g' ∧
        owns_array i rs cap (row_ptrs (gathered cs (log_rows g'))) g') (λ _ _, False)).
    { exists []. split_and!; [done|split; constructor|apply going_refl|done]. }
    intros j [rs cap] g1 [_ Hj] (cs & Hl & Hm & Hg1 & Ho1).
    eapply wpc_collect_turn; [done|by rewrite (go_locks _ _ _ Hg1)|exact Ho1|].
    intros g2 g3 rs' cap' Hp2 Hp3 Hg3 Ho3. exists (cs ++ [length (g_log g2)]).
    assert (moments (cs ++ [length (g_log g2)]) g g2) as Hm2 by (eapply moments_snoc; [done|apply Hg1|done]).
    split_and!; [by rewrite length_app, Hl; simpl; lia|by eapply moments_later|by eapply going_trans|].
    rewrite (gathered_later _ _ _ _ Hm2 Hp3), gathered_now, Hl.
    by rewrite (gathered_later _ _ _ _ Hm Hp2).
  - cbv beta. intros [[rs cap]|rs] g1; [|done]. intros (cs & Hl & Hm & Hg1 & Ho1).
    apply wpc_bind. eapply wpc_sort; [exact Ho1|]. intros g2 Hg2 Hnd Ho2. apply wpc_ret.
    eapply (HQ cs); [split|].
    + by eapply going_trans.
    + eapply moments_later; [done|apply Hg2].
    + done.
    + by apply gathered_NoDup.
    + unfold collection. by rewrite (gathered_later _ _ _ _ Hm) by apply Hg2.
Qed.

(** ** Working on the collection *)

(** The rows of an array are rows of the table. *)
Lemma collected_rows_in g0 g1 g mB i cs p :
  collected i g0 g cs → relies i g g1 → agree (without p g1) mB → rows_in mB (collection cs g).
Proof.
  intros Hc Hr Hag. destruct (without_log p g1) as (Hlog & _).
  pose proof (ag_rows_in _ _ _ _ Hag) as Hin. unfold rows_in, log_rows in *. rewrite Hlog, Forall_forall in Hin.
  apply Forall_forall. intros r Hr'. unfold collection in Hr'. rewrite sort_rows_perm in Hr'.
  apply elem_of_gathered in Hr' as [Hr' _]. apply Hin. fold (log_rows g1). eapply log_rows_later; [apply Hr|done].
Qed.

Lemma wpc_append_matching i test rs cap cs (Q : results + results → ghost → Prop) g0 g :
  collected i g0 g cs → owns_array i rs cap (row_ptrs (collection cs g)) g →
  (∀ rs' cap' g2, going i g g2 → owns_array i rs' cap' (row_ptrs (filter (test_row test) (collection cs g2))) g2 →
     Q (inl rs') g2) →
  wpc P i (atomic Local (append_matching test rs no_results)) Q g.
Proof.
  intros Hc Ho HQ. eapply wpc_with_array; [done|exact Ho|]. intros g1 mB m Hr Hag Hg.
  eapply append_matching_refines; [apply mem_bounded_arrays; by eapply ag_bounded|exact Hg|by eapply collected_rows_in|..].
  { intros m2 Hm2. destruct Hm2. by eapply ag_no_failure. }
  intros rs' cap' m2 Hg2. eexists _, _, _. split; [exact Hg2|]. intros g2 Hs Ho2.
  pose proof (shared_going _ _ _ _ Hr Hs) as Hgo. eapply HQ; [done|].
  unfold collection in *. by rewrite (gathered_later cs g0 g g2) by (apply Hc || apply Hgo).
Qed.

Lemma wpc_first_match i rs cap rws (Q : ptr → ghost → Prop) g :
  owns_array i rs cap (row_ptrs rws) g →
  (∀ g2, going i g g2 → owns_none i g2 → Q (first_row rws) g2) →
  wpc P i (atomic Local (first_match rs)) Q g.
Proof.
  intros Ho HQ. eapply wpc_with_array; [done|exact Ho|]. intros g1 mB m Hr Hag Hg.
  eapply wp_first_match; [apply mem_bounded_arrays; by eapply ag_bounded|exact Hg|].
  intros m2 Hs2. exists no_results, 0, []. split; [exact Hs2|]. intros g2 Hs Ho2.
  apply HQ; [by eapply shared_going|done].
Qed.

Lemma wpc_append_record i r (Q : bool * results * nat → ghost → Prop) g :
  owns_none i g → (∀ rs cap g2, going i g g2 → owns_array i rs cap [r] g2 → Q (true, rs, cap) g2) →
  wpc P i (atomic Local (table_append_record no_results 0 r)) Q g.
Proof.
  intros Ho HQ. eapply wpc_with_array; [done|exact Ho|]. intros g1 mB m Hr Hag Hg.
  eapply growing_append; [apply mem_bounded_arrays; by eapply ag_bounded|exact Hg|..].
  { intros m2 Hm2. destruct Hm2. by eapply ag_no_failure. }
  intros rs cap m2 Hg2. exists rs, cap, [r]. split; [exact Hg2|]. intros g2 Hs Ho2.
  apply HQ; [by eapply shared_going|done].
Qed.

(** ** Reading the reply *)

Lemma wpc_fetch_row i (o : option row) (Q : reply → ghost → Prop) g :
  (∀ r, o = Some r → r ∈ log_rows g) → (∀ g1, relies i g g1 → Q (OneRow (snd <$> o)) g1) →
  wpc P i (atomic Local (fetch_row (fst <$> o))) Q g.
Proof.
  intros Hin HQ. apply wpc_atomic; [done|]. intros g1 m Hr Hag. apply wp_fetch_row.
  - intros r Hr'%Hin. pose proof (ag_rows_in _ _ _ _ Hag) as Hall. unfold rows_in in Hall. rewrite Forall_forall in Hall.
    apply Hall. eapply log_rows_later; [apply Hr|done].
  - exists g1. split_and!; [done|apply guar_refl|by apply HQ].
Qed.

Lemma wpc_fetch_rows i rs cap rws (Q : reply → ghost → Prop) g :
  owns_array i rs cap (row_ptrs rws) g → rws ⊆ log_rows g →
  (∀ g2, going i g g2 → owns_none i g2 → Q (Rows rws.*2) g2) →
  wpc P i (atomic Local (fetch_rows (true, rs))) Q g.
Proof.
  intros Ho Hsub HQ. eapply wpc_with_array; [done|exact Ho|]. intros g1 mB m Hr Hag Hg.
  eapply (wp_fetch_rows mB rws); [apply mem_bounded_arrays; by eapply ag_bounded|by eapply ag_no_failure| |left; eauto|].
  - destruct (without_log (records rs) g1) as (Hlog & _).
    pose proof (ag_rows_in _ _ _ _ Hag) as Hin. unfold rows_in, log_rows in Hin. rewrite Hlog, Forall_forall in Hin.
    apply Forall_forall. intros r Hr'%Hsub. apply Hin. fold (log_rows g1). eapply log_rows_later; [apply Hr|done].
  - intros m2 Hs2. exists no_results, 0, []. split; [exact Hs2|]. intros g2 Hs Ho2.
    apply HQ; [by eapply shared_going|done].
Qed.
End collect.
