(* ===== verification/TableActsSpec.v ===== *)
(** What a call of table.h replies when other threads call it, too: an insertion
    stores its record, a search for an id answers for one moment of the call, any
    other search sees every bucket at some moment of the call. *)
From stdpp Require Import base list gmap sorting strings.
From Stdlib Require Import Ascii ZArith Lia.
From S2P Require Import Prelude Memory CLib BPTree Index Table TableMem TableRep TableCollect TableQueries TableUpdate TableLife TableSpec Actions TableActs TableActsInv TableActsSteps TableActsInsert TableActsArrays TableActsLookups TableActsCollect.

(** ** The specification *)

Definition record_in (b : nat) (r : record) : Prop := table_bucket_index_for_id (rec_id r) = b.
#[export] Instance record_in_dec b r : Decision (record_in b r).
Proof. unfold record_in. apply _. Defined.

(** [D] has the records in the order in which they were stored.  [L] is what a
    scan sees between the moments [b] and [e] (a moment is how many records were
    stored): bucket after bucket, each at some moment, then sorted by id. *)
Definition snapshot (D : list record) (b e : nat) (L : list record) : Prop :=
  ∃ cs, length cs = TABLE_BUCKET_COUNT ∧ StronglySorted le cs ∧ Forall (λ c, b ≤ c ≤ e) cs ∧
    L ≡ₚ concat (imap (λ k c, filter (record_in k) (take c D)) cs) ∧ StronglySorted Z.lt (rec_id <$> L).

Definition has_the_id (id : Z) (r : record) : bool := bool_decide (rec_id r = id).

(** [D] has the records with the calls that stored them; [x] is this call. *)
Definition answer (D : list (record * place)) (x : place) (b e : nat) (q : request) (rep : reply) : Prop :=
  match q with
  | Q_insert name age => ∃ n r, b ≤ n < e ∧ D !! n = Some (r, x) ∧ rep = OneRow (Some r) ∧
      rec_name r = take (RECORD_NAME_SIZE - 1) name ∧ rec_age r = age
  | Q_find_id id | Q_scan_id id => ∃ c, b ≤ c ≤ e ∧ rep = OneRow (find_first (has_the_id id) (take c D.*1))
  | Q_find_name name => ∃ L, snapshot D.*1 b e L ∧ rep = OneRow (find_first (λ r, bool_decide (rec_name r = name)) L)
  | Q_find_age age => ∃ L, snapshot D.*1 b e L ∧ rep = OneRow (find_first (λ r, bool_decide (rec_age r = age)) L)
  | Q_by_name name => ∃ L, snapshot D.*1 b e L ∧ rep = Rows (filter (λ r, bool_decide (rec_name r = name) = true) L)
  | Q_by_id c id =>
      if decide (c = TABLE_COMPARISON_EQ)
      then ∃ c, b ≤ c ≤ e ∧ rep = Rows (option_list (find_first (has_the_id id) (take c D.*1)))
      else ∃ L, snapshot D.*1 b e L ∧ rep = Rows (filter (λ r, table_compare_int (rec_id r) c id = true) L)
  | Q_by_age c age => ∃ L, snapshot D.*1 b e L ∧ rep = Rows (filter (λ r, table_compare_int (rec_age r) c age = true) L)
  | Q_all => ∃ L, snapshot D.*1 b e L ∧ rep = Rows L
  end.

(** An answer does not depend on what is stored later. *)
Lemma take_later {A} (D D' : list A) c : D `prefix_of` D' → c ≤ length D → take c D' = take c D.
Proof. intros [k ->] Hc. by rewrite take_app_le. Qed.

Lemma snapshot_later D D' b e e' L :
  D `prefix_of` D' → e ≤ length D → e ≤ e' → snapshot D b e L → snapshot D' b e' L.
Proof.
  intros Hp He Hee (cs & Hl & Hs & Hc & HL & Hids). exists cs. split_and!; try done.
  - eapply Forall_impl; [exact Hc|]. simpl. lia.
  - rewrite HL. erewrite imap_ext; [done|]. intros k c Hk.
    rewrite Forall_lookup in Hc. apply Hc in Hk. by rewrite (take_later D D') by (done || lia).
Qed.

Lemma prefix_fmap {A B} (f : A → B) l l' : l `prefix_of` l' → f <$> l `prefix_of` f <$> l'.
Proof. intros [k ->]. rewrite fmap_app. by apply prefix_app_r. Qed.

Lemma answer_later D D' x b e e' q rep :
  D `prefix_of` D' → e ≤ length D → e ≤ e' → answer D x b e q rep → answer D' x b e' q rep.
Proof.
  intros Hp He Hee. pose proof (prefix_fmap fst _ _ Hp) as Hp1.
  assert (e ≤ length D.*1) as He1 by by rewrite length_fmap.
  assert (∀ (F : list record → Prop), (∃ L, snapshot D.*1 b e L ∧ F L) → ∃ L, snapshot D'.*1 b e' L ∧ F L) as Hsnap.
  { intros F (L & HL & HF). exists L. split; [by eapply snapshot_later|done]. }
  assert (∀ (F : list record → Prop), (∃ c, b ≤ c ≤ e ∧ F (take c D.*1)) → ∃ c, b ≤ c ≤ e' ∧ F (take c D'.*1)) as Hone.
  { intros F (c & Hc & HF). exists c. split; [lia|]. by rewrite (take_later D.*1 D'.*1) by (done || lia). }
  destruct q; simpl; try apply Hsnap.
  - intros (n & r & Hn & Hr & H). exists n, r. split; [lia|]. split; [by eapply prefix_lookup_place|done].
  - apply (Hone (λ d, rep = OneRow (find_first (has_the_id id) d))).
  - apply (Hone (λ d, rep = OneRow (find_first (has_the_id id) d))).
  - case_decide; [|apply Hsnap]. apply (Hone (λ d, rep = Rows (option_list (find_first (has_the_id id) d)))).
Qed.

(** It may have begun earlier. *)
Lemma answer_earlier D x b b' e q rep : b' ≤ b → answer D x b e q rep → answer D x b' e q rep.
Proof.
  intros Hb.
  assert (∀ (F : list record → Prop), (∃ L, snapshot D.*1 b e L ∧ F L) → ∃ L, snapshot D.*1 b' e L ∧ F L) as Hsnap.
  { intros F (L & (cs & Hl & Hs & Hc & HL) & HF). exists L. split; [|done]. exists cs. split_and!; [done|done| |apply HL..].
    eapply Forall_impl; [exact Hc|]. simpl. lia. }
  destruct q; simpl; try apply Hsnap.
  - intros (n & r & Hn & Hr). exists n, r. split; [lia|done].
  - intros (n & Hn & Hr). exists n. split; [lia|done].
  - intros (n & Hn & Hr). exists n. split; [lia|done].
  - case_decide; [|apply Hsnap]. intros (n & Hn & Hr). exists n. split; [lia|done].
Qed.

(** ** What was stored before a search began *)

Lemma snapshot_has D b e L n r :
  snapshot D b e L → D !! n = Some r → n < b → r ∈ L.
Proof.
  intros (cs & Hl & _ & Hcs & HL & _) Hr Hn. rewrite HL. pose proof (bucket_index_lt (rec_id r)) as Hk.
  destruct (lookup_lt_is_Some_2 cs (table_bucket_index_for_id (rec_id r))) as [c Hc]; [lia|].
  rewrite Forall_lookup in Hcs. pose proof (Hcs _ _ Hc) as Hbc.
  rewrite list_elem_of_In, in_concat. setoid_rewrite <- list_elem_of_In.
  exists (filter (record_in (table_bucket_index_for_id (rec_id r))) (take c D)). split.
  - apply elem_of_lookup_imap. by exists (table_bucket_index_for_id (rec_id r)), c.
  - apply list_elem_of_filter. split; [done|]. eapply list_elem_of_lookup_2. rewrite (lookup_take_lt D c n) by lia. exact Hr.
Qed.

Lemma search_has D c n r :
  NoDup (rec_id <$> D) → D !! n = Some r → n < c → find_first (has_the_id (rec_id r)) (take c D) = Some r.
Proof.
  intros Hnd Hr Hn. assert (r ∈ take c D) as Hin by (eapply list_elem_of_lookup_2; by rewrite lookup_take_lt).
  unfold find_first. destruct (head (filter (λ r', has_the_id (rec_id r) r' = true) (take c D))) as [r'|] eqn:Hh.
  - apply head_Some_elem_of, list_elem_of_filter in Hh as [Hid%bool_decide_eq_true Hin'].
    apply list_elem_of_lookup in Hin' as [k Hk]. apply lookup_take_Some in Hk as [Hk _].
    f_equal. assert (k = n) as ->; [|congruence]. eapply (NoDup_lookup _ k n (rec_id r) Hnd); rewrite list_lookup_fmap.
    + by rewrite Hk, <- Hid.
    + by rewrite Hr.
  - apply head_None in Hh. exfalso. apply (not_elem_of_nil r). rewrite <- Hh. apply list_elem_of_filter.
    split; [by apply bool_decide_eq_true|done].
Qed.

(** ** From rows to records *)

Lemma filter_records test (rws : list row) : (filter (test_row test) rws).*2 = filter (λ r, test r = true) rws.*2.
Proof.
  induction rws as [|r rws IH]; [done|]. rewrite fmap_cons. destruct (decide (test r.2 = true)) as [Ht|Ht].
  - rewrite (filter_cons_True (test_row test)) by done. rewrite fmap_cons. by rewrite filter_cons_True, IH by done.
  - by rewrite (filter_cons_False (test_row test)), filter_cons_False, IH by done.
Qed.

Lemma find_first_records test rws : snd <$> head (filter (test_row test) rws) = find_first test rws.*2.
Proof. by rewrite db_first, filter_records. Qed.

Lemma find_row_records id rws : snd <$> find_row id rws = find_first (has_the_id id) rws.*2.
Proof.
  rewrite <- find_first_records. unfold find_row. do 2 f_equal. apply list_filter_iff. intros r.
  unfold test_row, has_the_id. by rewrite bool_decide_eq_true.
Qed.

Lemma bucket_records b rws : (bucket_rows b rws).*2 = filter (record_in b) rws.*2.
Proof.
  unfold bucket_rows. induction rws as [|r rws IH]; [done|]. rewrite fmap_cons, !filter_cons.
  destruct (decide (in_bucket b r)) as [H|H]; unfold in_bucket in H; unfold record_in at 1.
  - rewrite fmap_cons, decide_True by done. by rewrite IH.
  - by rewrite decide_False, IH by done.
Qed.

Lemma gathered_records cs rws :
  (gathered cs rws).*2 = concat (imap (λ k c, filter (record_in k) (take c rws.*2)) cs).
Proof.
  induction cs as [|c cs IH] using rev_ind; [done|].
  rewrite gathered_snoc, fmap_app, IH, imap_app, concat_app, bucket_records, fmap_take. simpl.
  by rewrite app_nil_r, Nat.add_0_r.
Qed.

(** The records stored, and the calls that stored them. *)
Definition entries (g : ghost) : list (record * place) := (λ e, (e.1.2, e.2)) <$> g_log g.

Lemma entries_records g : (entries g).*1 = (log_rows g).*2.
Proof. unfold entries, log_rows. rewrite <- !list_fmap_compose. done. Qed.

Lemma length_entries g : length (entries g) = length (g_log g).
Proof. apply length_fmap. Qed.

Lemma entries_prefix g g' : g_log g `prefix_of` g_log g' → entries g `prefix_of` entries g'.
Proof. apply prefix_fmap. Qed.

Section spec.
Context {KI : KeyIndex}.
Context (tb : loc) (base : Mem).
Abbreviation P := (table_protocol tb base).

Lemma collected_snapshot i g g' cs :
  collected i g g' cs → snapshot (entries g').*1 (length (g_log g)) (length (g_log g')) (collection cs g').*2.
Proof.
  intros [_ [Hs Hc] Hl Hnd]. exists cs. split_and!; try done.
  - unfold collection. rewrite sort_rows_perm, gathered_records. by rewrite entries_records.
  - pose proof (sort_rows_sorted _ Hnd) as H. unfold collection. rewrite <- list_fmap_compose. exact H.
Qed.

(** ** Every call *)

(** What holds when call [x] of thread [i] returns. *)
Record returned_ok (i : nat) (k : nat * request) (q : request) (g : ghost) (rep : reply) (g' : ghost) : Prop := {
  ro_log : g_log g `prefix_of` g_log g';
  ro_locks : g_locks g' !! i = None;
  ro_arrays : owns_none i g';
  ro_stages k' : k' ≠ k → g_stages g' !! (i, k') = g_stages g !! (i, k');
  ro_stage id : g_stages g' !! (i, k) ≠ Some (Took id);
  ro_answer : answer (entries g') (i, k) (length (g_log g)) (length (g_log g')) q rep
}.

Lemma returned_relies i k q g rep g1 g2 : returned_ok i k q g rep g1 → relies i g1 g2 → returned_ok i k q g rep g2.
Proof.
  intros [Hl Hk Ha Hs Hst Han] Hr. split.
  - etrans; [exact Hl|apply Hr].
  - by rewrite (ry_locks _ _ _ Hr).
  - eapply owns_progress; [exact Ha|by apply relies_progress].
  - intros k' Hk'. rewrite (ry_stages _ _ _ Hr). by apply Hs.
  - intros id. rewrite (ry_stages _ _ _ Hr). apply Hst.
  - eapply answer_later; [apply entries_prefix, Hr|by rewrite length_entries|apply prefix_length, Hr|done].
Qed.

(** A thread that owns nothing: no lock, no array, no id. *)
Definition idle (i : nat) (g : ghost) : Prop :=
  g_locks g !! i = None ∧ owns_none i g ∧ ∀ k id, g_stages g !! (i, k) ≠ Some (Took id).

Lemma idle_relies i g g' : idle i g → relies i g g' → idle i g'.
Proof.
  intros (Hk & Ho & Hs) Hr. split_and!.
  - by rewrite (ry_locks _ _ _ Hr).
  - by eapply owns_progress, relies_progress.
  - intros k id. rewrite (ry_stages _ _ _ Hr). apply Hs.
Qed.

(** From what a search did to what it answers. *)
Lemma going_returned i k q g g' rep :
  idle i g → going i g g' → owns_none i g' →
  answer (entries g') (i, k) (length (g_log g)) (length (g_log g')) q rep → returned_ok i k q g rep g'.
Proof.
  intros (Hk & _ & Hst) [Hl Hk' Hs] Ho Ha. split; [done|congruence|done|intros; apply Hs|intros; by rewrite Hs|done].
Qed.

Lemma wpc_search_request i k q g (c : table_act ptr) id :
  idle i g → (∀ Q, finds i id Q g → wpc P i c Q g) →
  (∀ D b e rep, (∃ n, b ≤ n ≤ e ∧ rep = OneRow (find_first (has_the_id id) (take n D.*1))) → answer D (i, k) b e q rep) →
  wpc P i (fetch_row_acts c) (returned_ok i k q g) g.
Proof.
  intros Hi Hc Hans. apply wpc_bind, Hc. intros n g1 Hk1 Hn. apply wpc_fetch_row.
  - intros r Hr. assert (r ∈ filter (λ r, row_id r = id) (take n (log_rows g1))) as [_ Hin]%list_elem_of_filter.
    { by apply head_Some_elem_of. }
    rewrite <- (take_drop n (log_rows g1)). apply elem_of_app. by left.
  - intros g2 H2. assert (going i g g2) as Hgo by (eapply going_trans; [by apply kept_going|by apply relies_going]).
    apply going_returned; [done|done| |].
    + eapply owns_progress; [apply Hi|]. eapply progress_trans; [apply Hk1|by apply relies_progress].
    + apply Hans. exists n. pose proof (prefix_length _ _ (ry_log _ _ _ H2)). split; [lia|].
      rewrite find_row_records, entries_records, (log_rows_prefix g1 g2), fmap_take by apply H2.
      by rewrite !fmap_take, take_take, Nat.min_l by lia.
Qed.

(** A search for records that satisfy [test], in an array. *)
Lemma wpc_select i test (Q : bool * results → ghost → Prop) rs1 g :
  idle i g →
  (∀ cs rs cap g', collected i g g' cs →
     owns_array i rs cap (row_ptrs (filter (test_row test) (collection cs g'))) g' → Q (true, rs) g') →
  wpc P i ('(ok, all) ← collect_all_acts (Some tb) no_results;
           if negb ok then mret (false, rs1)
           else r ← atomic Local (append_matching test all no_results); mret (status r)) Q g.
Proof.
  intros (Hk & Ho & _) HQ. apply wpc_bind, wpc_collect_all; [done|done|]. intros cs rs cap g1 Hc1 Ho1.
  cbv beta iota delta [negb]. apply wpc_bind. eapply wpc_append_matching; [exact Hc1|exact Ho1|].
  intros rs' cap' g2 Hgo Ho2. apply wpc_ret. eapply (HQ cs); [by eapply collected_later|exact Ho2].
Qed.

Lemma filtered_rows i test g g' cs :
  collected i g g' cs → filter (test_row test) (collection cs g') ⊆ log_rows g'.
Proof.
  intros Hc r [_ Hr]%list_elem_of_filter. unfold collection in Hr. rewrite sort_rows_perm in Hr.
  by apply elem_of_gathered in Hr as [? _].
Qed.

Lemma wpc_rows_request i k q g (c : table_act (bool * results)) test :
  idle i g → (∀ Q : bool * results → ghost → Prop,
    (∀ cs rs cap g', collected i g g' cs →
       owns_array i rs cap (row_ptrs (filter (test_row test) (collection cs g'))) g' → Q (true, rs) g') → wpc P i c Q g) →
  (∀ D b e rep, (∃ L, snapshot D.*1 b e L ∧ rep = Rows (filter (λ r, test r = true) L)) → answer D (i, k) b e q rep) →
  wpc P i (fetch_rows_acts c) (returned_ok i k q g) g.
Proof.
  intros Hi Hc Hans. apply wpc_bind, Hc. intros cs rs cap g1 Hc1 Ho1.
  eapply wpc_fetch_rows; [exact Ho1|by eapply filtered_rows|]. intros g2 Hg2 Ho2.
  pose proof (collected_later _ _ _ _ _ Hc1 Hg2) as Hc2. apply going_returned; [done|apply Hc2|done|].
  apply Hans. exists (collection cs g2).*2. split; [by eapply collected_snapshot|].
  unfold collection. rewrite <- (gathered_later cs g g1 g2) by (apply Hc1 || apply Hg2). by rewrite filter_records.
Qed.

Lemma wpc_first_request i k q g (c : table_act (bool * results)) test :
  idle i g → (∀ Q : bool * results → ghost → Prop,
    (∀ cs rs cap g', collected i g g' cs →
       owns_array i rs cap (row_ptrs (filter (test_row test) (collection cs g'))) g' → Q (true, rs) g') → wpc P i c Q g) →
  (∀ D b e rep, (∃ L, snapshot D.*1 b e L ∧ rep = OneRow (find_first test L)) → answer D (i, k) b e q rep) →
  wpc P i (fetch_row_acts ('(ok, rs) ← c; if negb ok then mret None else atomic Local (first_match rs)))
    (returned_ok i k q g) g.
Proof.
  intros Hi Hc Hans. apply wpc_bind, wpc_bind, Hc. intros cs rs cap g1 Hc1 Ho1. cbv beta iota delta [negb].
  eapply wpc_first_match; [exact Ho1|]. intros g2 Hg2 Ho2.
  pose proof (collected_later _ _ _ _ _ Hc1 Hg2) as Hc2.
  assert (collection cs g1 = collection cs g2) as Heq.
  { unfold collection. by rewrite <- (gathered_later cs g g1 g2) by (apply Hc1 || apply Hg2). }
  rewrite Heq. apply wpc_fetch_row.
  - intros r Hr%head_Some_elem_of. by eapply filtered_rows.
  - intros g3 H3. pose proof (relies_going _ _ _ H3) as Hg3. pose proof (collected_later _ _ _ _ _ Hc2 Hg3) as Hc3.
    apply going_returned; [done|apply Hc3|by eapply owns_progress, relies_progress|].
    apply Hans. exists (collection cs g3).*2. split; [by eapply collected_snapshot|].
    rewrite find_first_records. unfold collection. by rewrite <- (gathered_later cs g g2 g3) by (apply Hc2 || apply Hg3).
Qed.

Lemma filter_all {A} (R : A → Prop) `{∀ x, Decision (R x)} (l : list A) : (∀ x, R x) → filter R l = l.
Proof. intros HR. induction l as [|x l IH]; [done|]. by rewrite filter_cons_True, IH. Qed.

(** The search for one id, which gives an array of at most one row: the row that
    the table has at one moment. *)
Lemma wpc_one i id rs0 (Q : bool * results → ghost → Prop) g :
  idle i g →
  (∀ n rs cap g', going i g g' → length (g_log g) ≤ n ≤ length (g_log g') →
     owns_array i rs cap (row_ptrs (option_list (find_row id (take n (log_rows g'))))) g' → Q (true, rs) g') →
  wpc P i (id_condition_acts (Some tb) TABLE_COMPARISON_EQ id rs0) Q g.
Proof.
  intros (Hk & Ho & _) HQ. unfold id_condition_acts. rewrite decide_True by done. apply wpc_bind, wpc_find_by_id; [done|].
  intros n g1 Hk1 Hn. assert (owns_none i g1) as Ho1 by (eapply owns_progress; [exact Ho|apply Hk1]).
  pose proof (kept_going _ _ _ Hk1) as Hg1. destruct (find_row id (take n (log_rows g1))) as [r|] eqn:Hf; cbn [fmap option_fmap option_map].
  - apply wpc_bind, wpc_append_record; [done|]. intros rs cap g2 Hg2 Ho2. apply wpc_ret.
    pose proof (prefix_length _ _ (go_log _ _ _ Hg2)). apply (HQ n rs cap); [by eapply going_trans|lia|].
    rewrite (log_rows_prefix g1 g2), take_take, Nat.min_l in Hf by (apply Hg2 || lia). by rewrite Hf.
  - apply wpc_ret. apply (HQ n no_results 0); [done|lia|]. by rewrite Hf.
Qed.

Lemma found_in_log id n g r : r ∈ option_list (find_row id (take n (log_rows g))) → r ∈ log_rows g.
Proof.
  intros Hr. destruct (find_row _ _) as [r'|] eqn:Hf; [|by apply elem_of_nil in Hr].
  apply list_elem_of_singleton in Hr as ->. apply head_Some_elem_of, list_elem_of_filter in Hf as [_ Hf].
  rewrite <- (take_drop n (log_rows g)). apply elem_of_app. by left.
Qed.

Lemma found_records id n g : (option_list (find_row id (take n (log_rows g)))).*2 =
  option_list (find_first (has_the_id id) (take n (entries g).*1)).
Proof. rewrite entries_records, <- fmap_take, <- find_row_records. by destruct (find_row _ _) as [[]|]. Qed.

Lemma found_later id n g g' : n ≤ length (g_log g) → g_log g `prefix_of` g_log g' →
  find_row id (take n (log_rows g')) = find_row id (take n (log_rows g)).
Proof. intros Hn Hp. by rewrite (log_rows_prefix g g' Hp), take_take, Nat.min_l. Qed.

Lemma wpc_one_request i k id g :
  idle i g → wpc P i (request_acts (Some tb) (Q_by_id TABLE_COMPARISON_EQ id)) (returned_ok i k (Q_by_id TABLE_COMPARISON_EQ id) g) g.
Proof.
  intros Hi. apply wpc_bind, wpc_one; [done|]. intros n rs cap g1 Hg1 Hn Ho1.
  eapply wpc_fetch_rows; [exact Ho1|intros r; apply found_in_log|]. intros g2 Hg2 Ho2.
  pose proof (prefix_length _ _ (go_log _ _ _ Hg2)).
  apply going_returned; [done|by eapply going_trans|done|]. unfold answer. rewrite decide_True by done.
  exists n. split; [lia|]. by rewrite <- (found_later id n g1 g2), found_records by (apply Hg2 || lia).
Qed.

Lemma wpc_request i k q g :
  idle i g → g_stages g !! (i, k) = Some Waiting → k.2 = q →
  wpc P i (request_acts (Some tb) q) (returned_ok i k q g) g.
Proof.
  intros Hi Hs Hcall. pose proof Hi as (Hk & Ho & _). destruct q as [name age|id|id|name|age|name|c id|c age|]; cbn [request_acts].
  - apply wpc_bind, (wpc_insert _ _ _ k); [done|done|done|].
    intros l r g1 Hp1 Hk1 Hname Hage (n & Hn & Hlog) Hst1 Hs1.
    apply (wpc_fetch_row _ _ _ (Some (l, r))).
    { intros ? [= <-]. apply list_elem_of_lookup_2 in Hlog. unfold log_rows. by apply (list_elem_of_fmap_2 fst) in Hlog. }
    intros g2 H2. simpl. split.
    + etrans; [apply Hp1|apply H2].
    + by rewrite (ry_locks _ _ _ H2).
    + eapply owns_progress; [exact Ho|]. eapply progress_trans; [exact Hp1|by apply relies_progress].
    + intros k' Hk'. rewrite (ry_stages _ _ _ H2). by apply Hs1.
    + intros id. rewrite (ry_stages _ _ _ H2). apply Hst1.
    + exists n, r. pose proof (prefix_length _ _ (ry_log _ _ _ H2)). pose proof (lookup_lt_Some _ _ _ Hlog).
      split_and!; [done|lia| |done|done|done]. unfold entries. rewrite list_lookup_fmap.
      by rewrite (prefix_lookup_place _ _ _ _ (ry_log _ _ _ H2) Hlog).
  - apply (wpc_search_request _ _ _ _ _ id); [done| |done]. intros Q HQ. by apply wpc_find_by_id.
  - apply (wpc_search_request _ _ _ _ _ id); [done| |done]. intros Q HQ. by apply wpc_scan_by_id.
  - apply (wpc_first_request _ _ _ _ _ (λ r, bool_decide (rec_name r = name))); [done| |done]. intros Q. by apply wpc_select.
  - apply (wpc_first_request _ _ _ _ _ (λ r, bool_decide (rec_age r = age))); [done| |done]. intros Q. by apply wpc_select.
  - apply (wpc_rows_request _ _ _ _ _ (λ r, bool_decide (rec_name r = name))); [done| |done]. intros Q. by apply wpc_select.
  - destruct (decide (c = TABLE_COMPARISON_EQ)) as [->|Hc]; [by apply wpc_one_request|].
    unfold id_condition_acts. rewrite decide_False by done.
    apply (wpc_rows_request _ _ _ _ _ (λ r, table_compare_int (rec_id r) c id)); [done|intros Q; by apply wpc_select|].
    intros D b e rep H. simpl. by rewrite decide_False.
  - apply (wpc_rows_request _ _ _ _ _ (λ r, table_compare_int (rec_age r) c age)); [done| |done]. intros Q. by apply wpc_select.
  - apply (wpc_rows_request _ _ _ _ _ (λ _, true)); [done| |].
    + intros Q HQ. apply wpc_collect_all; [done|done|]. intros cs rs cap g' Hc Ho'. eapply HQ; [exact Hc|].
      by rewrite filter_all.
    + intros D b e rep (L & HL & ->). exists L. split; [done|]. by rewrite filter_all.
Qed.
End spec.
