(* ===== verification/TableActsRuns.v ===== *)
(** Threads that use a table at the same time: what holds in every state they
    reach, why one of them can always go on, and why they come to an end. *)
From stdpp Require Import base list gmap sorting strings.
From Stdlib Require Import Ascii ZArith Lia Wellfounded.
From S2P Require Import Prelude Memory CLib BPTree Index Table TableMem TableRep TableCollect TableQueries TableUpdate TableLife TableSpec Actions TableActs TableActsInv TableActsSteps TableActsInsert TableActsArrays TableActsLookups TableActsCollect TableActsSpec.

(** ** The calls of the threads *)

(** The calls of a thread, each with how many come after it. *)
Fixpoint labelled (qs : list request) : list (nat * request) :=
  match qs with [] => [] | q :: qs' => (length qs', q) :: labelled qs' end.

Definition current (th : thread_state) : list request := match running th with Some (q, _, _) => [q] | None => [] end.

Definition calls_made (i : nat) (cs : list completed) : list (nat * request) :=
  (λ c, (c_place c, c_request c)) <$> filter (λ c, c_thread c = i) cs.

Lemma calls_made_app i cs cs' : calls_made i (cs ++ cs') = calls_made i cs ++ calls_made i cs'.
Proof. unfold calls_made. by rewrite filter_app, fmap_app. Qed.

Lemma calls_made_other i j ds : i ≠ j → Forall (λ c, c_thread c = i) ds → calls_made j ds = [].
Proof.
  intros Hij Hd. unfold calls_made. induction Hd as [|c ds Hc _ IH]; [done|].
  rewrite filter_cons_False by (rewrite Hc; done). exact IH.
Qed.

Lemma labelled_below qs k q : (k, q) ∈ labelled qs → k < length qs.
Proof.
  induction qs as [|q' qs IH]; simpl; [by intros ?%elem_of_nil|].
  intros [[= -> ->]|H%IH]%elem_of_cons; lia.
Qed.

Lemma labelled_request qs k q : (k, q) ∈ labelled qs → q ∈ qs.
Proof.
  induction qs as [|q' qs IH]; simpl; [by intros ?%elem_of_nil|].
  intros [[= -> ->]|H%IH]%elem_of_cons; apply elem_of_cons; auto.
Qed.

Lemma length_labelled qs : length (labelled qs) = length qs.
Proof. induction qs as [|q qs IH]; [done|]. simpl. by rewrite IH. Qed.

Lemma calls_made_own i ds : Forall (λ c, c_thread c = i) ds → calls_made i ds = (λ c, (c_place c, c_request c)) <$> ds.
Proof.
  intros Hd. unfold calls_made. induction Hd as [|c ds Hc _ IH]; [done|].
  rewrite filter_cons_True by done. rewrite !fmap_cons. by rewrite IH.
Qed.

(** ** The places of the calls *)

Definition places (qss : list (list request)) : list place := concat (imap (λ i qs, pair i <$> labelled qs) qss).

Definition total (qss : list (list request)) : nat := sum_list (length <$> qss).

Lemma length_places qss : length (places qss) = total qss.
Proof.
  unfold places, total. rewrite length_concat. f_equal. apply list_eq. intros i.
  rewrite !list_lookup_fmap, list_lookup_imap. destruct (qss !! i); simpl; [|done].
  by rewrite length_fmap, length_labelled.
Qed.

Lemma elem_of_places qss i k : (i, k) ∈ places qss ↔ ∃ qs, qss !! i = Some qs ∧ k ∈ labelled qs.
Proof.
  unfold places. rewrite list_elem_of_In, in_concat. setoid_rewrite <- list_elem_of_In.
  setoid_rewrite elem_of_lookup_imap. split.
  - intros (l & (j & qs & -> & Hj) & Hin). apply list_elem_of_fmap in Hin as (k' & [= -> ->] & Hk). by exists qs.
  - intros (qs & Hi & Hk). exists (pair i <$> labelled qs). split; [by exists i, qs|]. by apply list_elem_of_fmap_2.
Qed.

#[local] Arguments stored_rows : simpl never.

Section runs.
Context {KI : KeyIndex}.
Context (tb : loc) (base : Mem) (qss : list (list request)).
Abbreviation P := (table_protocol tb base).
Abbreviation agree := (agree tb base).

(** ** The state of the threads *)

(** The calls [qs] of thread [i] have not begun. *)
Definition not_begun (i : nat) (qs : list request) (g : ghost) : Prop :=
  ∀ k, k ∈ labelled qs → g_stages g !! (i, k) = Some Waiting.

(** Between calls a thread owns nothing; a call goes by the rules since it began. *)
Definition thread_ok (i : nat) (th : thread_state) (g : ghost) : Prop :=
  match running th with
  | None => idle i g ∧ not_begun i (todo th) g
  | Some (q, b, p) => ∃ g0, b = length (g_log g0) ∧ idle i g0 ∧ not_begun i (todo th) g0 ∧
      wpc P i p (returned_ok i (length (todo th), q) q g0) g
  end.

Definition answered (c : completed) (g : ghost) : Prop :=
  c_end c ≤ length (g_log g) ∧
  answer (entries g) (c_thread c, (c_place c, c_request c)) (c_begin c) (c_end c) (c_request c) (c_reply c).

Record threads_ok (g : ghost) (s : threads_state) : Prop := {
  to_agree : agree g (t_mem s);
  to_defined : t_undefined s = false;
  to_planned x : x ∈ dom (g_stages g) → x ∈ places qss;
  to_length : length (t_threads s) = length qss;
  to_thread i th : t_threads s !! i = Some th → thread_ok i th g;
  to_idle i : t_threads s !! i = None → idle i g;
  to_calls i th qs : t_threads s !! i = Some th → qss !! i = Some qs →
    calls_made i (t_done s) ++ labelled (current th ++ todo th) = labelled qs;
  to_done : Forall (λ c, answered c g) (t_done s)
}.

(** ** Every step keeps it *)

Lemma thread_ok_relies i th g g' : thread_ok i th g → relies i g g' → thread_ok i th g'.
Proof.
  intros Hth Hr. unfold thread_ok in *. destruct (running th) as [[[q b] p]|].
  - destruct Hth as (g0 & Hb & Hi & Hn & Hp). exists g0. split_and!; try done.
    eapply wpc_rely; [|exact Hp|exact Hr]. intros rep g1 g2. apply returned_relies.
  - destruct Hth as [Hi Hn]. split; [by eapply idle_relies|]. intros k Hk. rewrite (ry_stages _ _ _ Hr). by apply Hn.
Qed.

Lemma guar_log i g g' : guar P i g g' → g_log g `prefix_of` g_log g'.
Proof. intros [Hg _]. apply (ry_log (S i)). apply Hg. lia. Qed.

Lemma answered_guar i c g g' : answered c g → guar P i g g' → answered c g'.
Proof.
  intros [Hl Ha] Hg%guar_log. pose proof (prefix_length _ _ Hg). split; [lia|].
  eapply answer_later; [by apply entries_prefix|by rewrite length_entries|done|done].
Qed.

Lemma step_ok g g' s i th th' m ds :
  threads_ok g s → t_threads s !! i = Some th → guar P i g g' → agree g' m → thread_ok i th' g' →
  Forall (λ c, c_thread c = i) ds → Forall (λ c, answered c g') ds →
  ((λ c, (c_place c, c_request c)) <$> ds) ++ labelled (current th' ++ todo th') = labelled (current th ++ todo th) →
  threads_ok g' (Threads m (<[i := th']> (t_threads s)) (t_done s ++ ds) false).
Proof.
  intros [Hag Hd Hpl Hl Ht Hi Hc Hdone] Hth Hg Hm Hok Hds Hans Hlab.
  assert (i < length (t_threads s)) as Hlt by by eapply lookup_lt_Some.
  split; simpl; [done|done|by rewrite (proj2 Hg)|by rewrite length_insert| | | |].
  - intros j thj [(<- & <- & _)|[Hne Hj]]%list_lookup_insert_Some; [done|].
    eapply thread_ok_relies; [by apply Ht|]. by apply Hg.
  - intros j Hj%lookup_ge_None. rewrite length_insert in Hj. assert (j ≠ i) as Hne by lia.
    eapply idle_relies; [by apply Hi, lookup_ge_None|]. by apply Hg.
  - intros j thj qs [(<- & <- & _)|[Hne Hj]]%list_lookup_insert_Some Hqs.
    + rewrite calls_made_app, (calls_made_own i ds), <- app_assoc, Hlab by done. by eapply Hc.
    + rewrite <- (Hc j thj qs Hj Hqs). by rewrite calls_made_app, (calls_made_other i j ds), app_nil_r.
  - apply Forall_app. split; [|done]. eapply Forall_impl; [exact Hdone|]. intros c Hc'. exact (answered_guar i c g g' Hc' Hg).
Qed.

Lemma thread_step_ok g s i s' :
  threads_ok g s → thread_step (Some tb) i s = Some s' → ∃ g', threads_ok g' s'.
Proof.
  intros Hok Hstep. pose proof Hok as [Hag Hd _ Hl Ht _ Hc _]. unfold thread_step in Hstep. rewrite Hd in Hstep.
  destruct (t_threads s !! i) as [th|] eqn:Hth; simpl in Hstep; [|done].
  destruct (lookup_lt_is_Some_2 qss i) as [qs Hqs]; [apply lookup_lt_Some in Hth; lia|].
  pose proof (Ht i th Hth) as Hthok. unfold thread_ok in Hthok.
  destruct th as [td [[[q b] p]|]]; simpl in *.
  - destruct Hthok as (g0 & -> & Hi & Hn & Hp). destruct p as [rep|acc X c k].
    + injection Hstep as <-. exists g. eapply step_ok; [done|exact Hth|apply guar_refl|done| |by constructor| |done].
      * simpl in Hp. destruct Hp as [_ Hk Ho Hs Hst _]. unfold thread_ok. simpl. split.
        -- split_and!; [done|done|]. intros k id. destruct (decide (k = (length td, q))) as [->|Hne]; [apply Hst|].
           rewrite Hs by done. by apply Hi.
        -- intros k Hk'. rewrite Hs by (intros ->; by apply labelled_below, Nat.lt_irrefl in Hk'). by apply Hn.
      * constructor; [|done]. unfold answered. cbn [c_end c_thread c_place c_begin c_request c_reply].
        rewrite (ag_stored_rows _ _ _ _ Hag). split; [done|]. apply Hp.
    + destruct Hp as [_ Hp]. specialize (Hp g (t_mem s) (relies_refl i g) Hag).
      destruct (c (t_mem s)) as [[x m']| | | |]; [|done..]. destruct Hp as (g2 & Hag2 & Hg & Hp). injection Hstep as <-.
      exists g2. rewrite <- (app_nil_r (t_done s)). eapply step_ok; [done|exact Hth|exact Hg|done| |done..].
      exists g0. split_and!; done.
  - destruct Hthok as [Hi Hn]. destruct td as [|q td]; [done|]. injection Hstep as <-. exists g.
    unfold set_thread. rewrite Hd, <- (app_nil_r (t_done s)).
    eapply step_ok; [done|exact Hth|apply guar_refl|done| |done..]. exists g. rewrite (ag_stored_rows _ _ _ _ Hag).
    split_and!; [done|done| |].
    + intros k Hk. apply Hn. by apply elem_of_cons; right.
    + apply wpc_request; [done|apply Hn, elem_of_cons; by left|done].
Qed.

Lemma schedule_ok order g s s' :
  threads_ok g s → schedule (Some tb) order s = Some s' → ∃ g', threads_ok g' s'.
Proof.
  revert g s. induction order as [|i order IH]; intros g s Hok Hs; simpl in Hs; [injection Hs as <-; eauto|].
  destruct (thread_step (Some tb) i s) as [s1|] eqn:Hstep; simpl in Hs; [|done].
  destruct (thread_step_ok _ _ _ _ Hok Hstep) as [g1 Hok1]. by eapply IH.
Qed.

(** ** Somebody can always go on *)

Lemma blocked_idle g s j th : threads_ok g s → t_threads s !! j = Some th →
  thread_step (Some tb) j s = None →
  todo th = [] ∧ running th = None ∨ may_wait j g.
Proof.
  intros [Hag Hd _ Hl Ht _ _ _] Hth Hstep. pose proof (Ht j th Hth) as Hok. unfold thread_ok in Hok.
  unfold thread_step in Hstep. rewrite Hd, Hth in Hstep. simpl in Hstep.
  destruct th as [td [[[q b] [rep|acc X c k]]|]]; simpl in *; [done| |by destruct td; [left|]].
  destruct Hok as (g0 & _ & _ & _ & _ & Hp). specialize (Hp g (t_mem s) (relies_refl j g) Hag).
  destruct (c (t_mem s)) as [[x m']| | | |]; try done; by right.
Qed.

Lemma no_deadlock g s : threads_ok g s → (∀ i, thread_step (Some tb) i s = None) → finished s.
Proof.
  intros Hok Hstuck. apply Forall_lookup. intros i th Hth.
  destruct (blocked_idle g s i th Hok Hth (Hstuck i)) as [H|(_ & j & _ & [h Hj])]; [done|]. exfalso.
  destruct (t_threads s !! j) as [thj|] eqn:Htj.
  2:{ destruct (to_idle _ _ Hok j Htj) as [Hk _]. congruence. }
  destruct (blocked_idle g s j thj Hok Htj (Hstuck j)) as [[Htd Hrun]|[Hk _]]; [|congruence].
  pose proof (to_thread _ _ Hok j thj Htj) as Hthj. unfold thread_ok in Hthj. rewrite Hrun in Hthj.
  destruct Hthj as [[Hk _] _]. congruence.
Qed.

(** ** Nobody uses what another thread uses *)

Definition next_access (th : thread_state) : option access :=
  match running th with Some (_, _, Act acc _ _) => Some acc | _ => None end.

Lemma next_allowed g s i th a : threads_ok g s → t_threads s !! i = Some th → next_access th = Some a → may_use a i g.
Proof.
  intros Hok Hth Ha. pose proof (to_thread _ _ Hok i th Hth) as Ht. unfold thread_ok, next_access in *.
  destruct (running th) as [[[q b] [rep|acc X c k]]|]; [done| |done]. injection Ha as <-.
  by destruct Ht as (_ & _ & _ & _ & Ht & _).
Qed.
End runs.
