(* ===== verification/TableActsEnds.v ===== *)
(** How threads that share a table begin, why they come to an end, and what the
    table holds then. *)
From stdpp Require Import base list list_numbers gmap sorting strings.
From Stdlib Require Import Ascii ZArith Lia Wellfounded.
From S2P Require Import Prelude Memory CLib BPTree Index Table TableMem TableRep TableCollect TableQueries TableUpdate TableLife TableSpec Actions TableActs TableActsInv TableActsSteps TableActsInsert TableActsArrays TableActsLookups TableActsCollect TableActsSpec TableActsRuns.

(** ** Every order of steps ends *)

(** What a thread has left to do, less and less. *)
Definition less_left (th' th : thread_state) : Prop :=
  length (todo th') < length (todo th) ∨
  todo th' = todo th ∧
  match running th, running th' with
  | Some _, None => True
  | Some (q, b, p), Some (q', b', p') => q' = q ∧ b' = b ∧ next_act p' p
  | None, _ => False
  end.

Lemma less_left_wf : well_founded less_left.
Proof.
  intros [td ru]. remember (length td) as n eqn:Hn. revert td ru Hn.
  induction (lt_wf n) as [n _ IH]. intros td ru Hn.
  assert (∀ th', length (todo th') < n → Acc less_left th') as Hless.
  { intros [td' ru'] Hlt. by eapply IH. }
  assert (Acc less_left (Thread td None)) as Hnone.
  { constructor. intros th' [Hlt|[_ []]]. apply Hless. by rewrite Hn. }
  destruct ru as [[[q b] p]|]; [|done]. induction (next_act_wf p) as [p _ IHp].
  constructor. intros [td' ru'] [Hlt|[Htd Hru]]; [apply Hless; by rewrite Hn|].
  simpl in Htd, Hru. subst td'. destruct ru' as [[[q' b'] p']|]; [|done]. destruct Hru as (-> & -> & Hp). by apply IHp.
Qed.

(** One element of a list goes down. *)
Definition one_less {A} (R : A → A → Prop) (l' l : list A) : Prop :=
  ∃ i x x', l !! i = Some x ∧ R x' x ∧ l' = <[i := x']> l.

Lemma one_less_wf {A} (R : A → A → Prop) : well_founded R → well_founded (one_less R).
Proof.
  intros HR l. induction l as [|x l IHl].
  - constructor. intros l' (i & x & x' & Hx & _). done.
  - revert x. induction IHl as [l Hl IHl]. intros x. induction (HR x) as [x Hx IHx].
    constructor. intros l' ([|i] & y & y' & Hy & Hlt & ->); simpl in *.
    + injection Hy as <-. by apply IHx.
    + apply IHl. by exists i, y, y'.
Qed.

(** [s'] is one step after [s]. *)
Definition next_state (table : ptr) (s' s : threads_state) : Prop := ∃ i, thread_step table i s = Some s'.

Lemma next_state_less table s' s : next_state table s' s →
  t_undefined s = false ∧ (t_undefined s' = true ∨ one_less less_left (t_threads s') (t_threads s)).
Proof.
  intros (i & Hstep). unfold thread_step in Hstep. destruct (t_undefined s) eqn:Hd; [done|]. split; [done|].
  destruct (t_threads s !! i) as [th|] eqn:Hth; simpl in Hstep; [|done].
  assert (∀ th', less_left th' th → one_less less_left (<[i:=th']> (t_threads s)) (t_threads s)) as Hone.
  { intros th' Hlt. by exists i, th, th'. }
  destruct th as [td [[[q b] [rep|acc X c k]]|]]; simpl in Hstep.
  - injection Hstep as <-. right. apply Hone. right. done.
  - destruct (c (t_mem s)) as [[x m]| | | |] eqn:Hc; try done; injection Hstep as <-; try by left.
    right. apply Hone. right. do 3 (split; [done|]). by exists x, (t_mem s), m.
  - destruct td as [|q td]; [done|]. injection Hstep as <-. right. apply Hone. left. simpl. lia.
Qed.

Lemma next_state_wf table : well_founded (next_state table).
Proof.
  intros s. remember (t_threads s) as ths eqn:Hths. revert s Hths.
  induction (one_less_wf _ less_left_wf ths) as [ths _ IH]. intros s ->. constructor. intros s' Hs.
  apply next_state_less in Hs as [_ [Hu|Hless]]; [|by eapply IH].
  constructor. intros s2 [Hd _]%next_state_less. congruence.
Qed.

Section ends.
Context {KI : KeyIndex}.
Context (tb : loc) (base : Mem) (qss : list (list request)).
Abbreviation P := (table_protocol tb base).
Abbreviation agree := (agree tb base).

(** ** The beginning *)

Definition start_ghost (t : Table) (fps : list footprint) : ghost :=
  Ghost [] t fps ∅ ∅ (gset_to_gmap Waiting (list_to_set (places qss))).

Lemma start_stages t fps x s : g_stages (start_ghost t fps) !! x = Some s ↔ x ∈ places qss ∧ s = Waiting.
Proof. simpl. rewrite lookup_gset_to_gmap_Some, elem_of_list_to_set. naive_solver. Qed.

Lemma no_locks t : (∀ b, b ∈ buckets t → bkt_lock b = unlocked) → next_id_lock t = Some false → locked ∅ t = t.
Proof.
  intros Hb Hm. unfold locked, lock_of, holding. rewrite !map_filter_empty, map_size_empty.
  assert (imap (λ _ b, with_lock (Some (MkRWLock 0 (bool_decide (0 ≠ 0)))) b) (buckets t) = buckets t) as Heq.
  { apply list_eq. intros k. rewrite list_lookup_imap. destruct (buckets t !! k) as [b|] eqn:Hk; [|done]. simpl. f_equal.
    apply list_elem_of_lookup_2, Hb in Hk. destruct b. unfold with_lock, unlocked in *. simpl in *. by rewrite Hk. }
  rewrite bool_decide_eq_false_2 in * by lia. setoid_rewrite Heq.
  destruct t. unfold with_next_id_lock, with_buckets. simpl in *. by rewrite Hm.
Qed.

Lemma size_list_to_set_le (l : list place) : size (list_to_set l : gset place) ≤ length l.
Proof.
  induction l as [|x l IH]; [done|]. rewrite list_to_set_cons.
  pose proof (size_union_alt {[x]} (list_to_set l : gset place)) as ->. rewrite size_singleton.
  assert (size ((list_to_set l : gset place) ∖ {[x]}) ≤ size (list_to_set l : gset place)) by (apply subseteq_size; set_solver).
  simpl. lia.
Qed.

Lemma no_arrays m : with_arrays m ∅ = m.
Proof. unfold with_arrays. rewrite fmap_empty, (left_id_L ∅ (∪)). by destruct m. Qed.

Lemma start_agree t fps m :
  table_inv tb empty_state t fps base m → no_failure m → (Z.of_nat (total qss) < INT_MAX)%Z →
  agree (start_ghost t fps) m.
Proof.
  intros Hinv Hm Htotal. pose proof Hinv as [Ht Hn _ Hmu _ _ Hl _ _ _ _ _ _ _ _ _ _].
  assert (∀ x s, g_stages (start_ghost t fps) !! x = Some s → id_of s = None) as Hnone.
  { by intros x s [_ ->]%start_stages. }
  split.
  - unfold state_of. simpl. rewrite Hn, no_arrays, put_table_same by done. exact Hinv.
  - simpl. rewrite Ht. f_equal. symmetry. apply no_locks; [|done]. intros b [i Hb]%list_elem_of_lookup.
    pose proof (lookup_lt_Some _ _ _ Hb) as Hlt. rewrite Hl in Hlt.
    destruct (ti_bucket _ _ _ _ _ _ _ Hinv Hlt) as (b' & _ & _ & Hb' & _ & _ & _ & Hk & _). congruence.
  - intros j j' h h' _ Hj. done.
  - intros a v Ha. done.
  - constructor.
  - by intros r x ?%elem_of_nil.
  - by intros x id [_ ?]%start_stages.
  - intros x s id Hx Hid. apply Hnone in Hx. congruence.
  - intros x x' s s' id Hx _ Hid. apply Hnone in Hx. congruence.
  - assert (filter (λ p : place * stage, is_Some (id_of p.2)) (g_stages (start_ghost t fps)) = ∅) as ->.
    { apply map_empty. intros x. apply map_lookup_filter_None. right. intros s Hx. apply Hnone in Hx.
      simpl. rewrite Hx. by intros [? ?]. }
    simpl. by rewrite Hn.
  - simpl. rewrite <- size_dom, dom_gset_to_gmap. pose proof (size_list_to_set_le (places qss)) as Hle.
    rewrite length_places in Hle. lia.
  - by intros r x ?%elem_of_nil.
  - done.
Qed.

Lemma start_idle i t fps : idle i (start_ghost t fps).
Proof. split_and!; [done|split; [done|done|split; [done|]]; done|]. by intros k id [_ ?]%start_stages. Qed.

Lemma start_ok m :
  table_at tb empty_state base m → no_failure m → (Z.of_nat (total qss) < INT_MAX)%Z →
  ∃ g, threads_ok tb base qss g (start_threads qss m).
Proof.
  intros (t & fps & Hinv) Hm Htotal. exists (start_ghost t fps).
  assert (∀ i th, (λ qs, Thread qs None) <$> qss !! i = Some th → ∃ qs, qss !! i = Some qs ∧ th = Thread qs None) as Hth.
  { intros i th. destruct (qss !! i) as [qs|]; simpl; intros [= <-]. by exists qs. }
  split; simpl.
  - by apply start_agree.
  - done.
  - intros x. simpl. by rewrite dom_gset_to_gmap, elem_of_list_to_set.
  - apply length_fmap.
  - intros i th H. rewrite list_lookup_fmap in H. apply Hth in H as (qs & Hqs & ->).
    split; [apply start_idle|]. intros k Hk. apply start_stages. split; [|done]. apply elem_of_places. by exists qs.
  - intros i _. apply start_idle.
  - intros i th qs H Hqs. rewrite list_lookup_fmap in H. apply Hth in H as (qs' & Hqs' & ->).
    assert (qs' = qs) as -> by congruence. done.
  - done.
Qed.

Lemma log_places g s r x : threads_ok tb base qss g s → (r, x) ∈ g_log g → x ∈ places qss.
Proof.
  intros Hok Hx%(ag_log _ _ _ _ (to_agree _ _ _ _ _ Hok)). apply (to_planned _ _ _ _ _ Hok), elem_of_dom. eauto.
Qed.

(** A state the threads reach. *)
Lemma reached_ok order m s :
  table_at tb empty_state base m → no_failure m → (Z.of_nat (total qss) < INT_MAX)%Z →
  schedule (Some tb) order (start_threads qss m) = Some s → ∃ g, threads_ok tb base qss g s.
Proof.
  intros Hat Hm Ht Hs. destruct (start_ok m Hat Hm Ht) as [g Hok]. by eapply schedule_ok.
Qed.
End ends.

(** ** The end *)

Section idle.
Context {KI : KeyIndex}.
Context (tb : loc) (base : Mem) (g : ghost) (m : Mem).
Context (Hag : agree tb base g m) (Hidle : ∀ i, idle i g).

Lemma end_locks : g_locks g = ∅.
Proof. apply map_empty. intros i. apply (Hidle i). Qed.

Lemma end_arrays : g_arrays g = ∅.
Proof.
  apply map_empty. intros a. destruct (g_arrays g !! a) as [[i arr]|] eqn:Ha; [|done].
  destruct (Hidle i) as (_ & [_ _ [_ Ho]] & _). by apply Ho in Ha.
Qed.

Lemma end_stage x id : g_stages g !! x ≠ Some (Took id).
Proof. destruct x as [i k]. apply (Hidle i). Qed.

Lemma end_table : table_at tb (state_of g) base m.
Proof.
  exists (g_table g), (g_fps g).
  pose proof (ag_table _ _ _ _ Hag) as Hinv. rewrite end_arrays, no_arrays in Hinv.
  assert (locked (g_locks g) (g_table g) = g_table g) as Heq.
  { rewrite end_locks. apply no_locks; [|apply Hinv]. intros b [i Hb]%list_elem_of_lookup.
    pose proof (lookup_lt_Some _ _ _ Hb) as Hlt. rewrite (ti_len _ _ _ _ _ _ Hinv) in Hlt.
    destruct (ti_bucket _ _ _ _ _ _ _ Hinv Hlt) as (b' & _ & _ & Hb' & _ & _ & _ & Hk & _). congruence. }
  pose proof (ag_locked _ _ _ _ Hag) as Hl. rewrite Heq in Hl. by rewrite put_table_same in Hinv.
Qed.

(** Every id was stored. *)
Lemma end_count : next_id (g_table g) = (1 + Z.of_nat (length (g_log g)))%Z.
Proof.
  rewrite (ag_count _ _ _ _ Hag). do 2 f_equal. rewrite <- size_dom.
  assert (dom (filter (λ p : place * stage, is_Some (id_of p.2)) (g_stages g)) = list_to_set (g_log g).*2) as ->.
  { apply set_eq. intros x. rewrite elem_of_dom, elem_of_list_to_set. split.
    - intros [st [Hx [id Hid]]%map_lookup_filter_Some]. destruct st as [|id'|id']; [done|by apply end_stage in Hx|].
      destruct (ag_stored _ _ _ _ Hag _ _ Hx) as (r & Hr & _). by apply (list_elem_of_fmap_2 snd) in Hr.
    - intros ([r y] & -> & Hr)%list_elem_of_fmap. exists (Stored (row_id r)). apply map_lookup_filter_Some.
      split; [by apply (ag_log _ _ _ _ Hag)|]. simpl. eauto. }
  rewrite size_list_to_set by apply Hag. by rewrite length_fmap.
Qed.

Lemma end_records : db_of (state_of g) ≡ₚ (entries g).*1.
Proof. unfold db_of, sorted_rows. by rewrite sort_rows_perm, all_rows_log, entries_records. Qed.

Lemma end_holds : holds tb (db_of (state_of g)) base m.
Proof.
  exists (state_of g). split_and!; [apply end_table|done| |apply Hag].
  rewrite (Permutation_length end_records), length_fmap, length_entries. simpl. rewrite end_count. lia.
Qed.
End idle.

Section finished.
Context {KI : KeyIndex}.
Context (tb : loc) (base : Mem) (qss : list (list request)) (g : ghost) (s : threads_state).
Context (Hok : threads_ok tb base qss g s) (Hfin : finished s).

Lemma all_idle i : idle i g.
Proof.
  destruct (t_threads s !! i) as [th|] eqn:Hth; [|by apply (to_idle _ _ _ _ _ Hok)].
  pose proof (to_thread _ _ _ _ _ Hok i th Hth) as H. unfold finished in Hfin. rewrite Forall_lookup in Hfin.
  destruct (Hfin i th Hth) as [_ Hru]. unfold thread_ok in H. rewrite Hru in H. apply H.
Qed.

(** Everything was called, and every insertion has stored. *)
Lemma end_calls i qs : qss !! i = Some qs → calls_made i (t_done s) = labelled qs.
Proof.
  intros Hqs. destruct (lookup_lt_is_Some_2 (t_threads s) i) as [th Hth].
  { rewrite (to_length _ _ _ _ _ Hok). by eapply lookup_lt_Some. }
  rewrite <- (to_calls _ _ _ _ _ Hok i th qs Hth Hqs). unfold finished in Hfin. rewrite Forall_lookup in Hfin.
  destruct (Hfin i th Hth) as [Htd Hru]. unfold current. by rewrite Hru, Htd, app_nil_r.
Qed.

Lemma end_inserted x name age : x ∈ places qss → x.2.2 = Q_insert name age → x ∈ (entries g).*2.
Proof.
  destruct x as [i [k q]]. intros (qs & Hqs & Hx)%elem_of_places. simpl. intros ->.
  rewrite <- (end_calls i qs Hqs) in Hx.
  apply list_elem_of_fmap in Hx as (c & [= -> Hq] & [Hi Hin]%list_elem_of_filter).
  pose proof (to_done _ _ _ _ _ Hok) as Hdone. rewrite Forall_forall in Hdone. destruct (Hdone c Hin) as [_ Ha].
  rewrite <- Hq, Hi in Ha. destruct Ha as (n & r & _ & Hn & _).
  apply list_elem_of_lookup_2 in Hn. by apply (list_elem_of_fmap_2 snd) in Hn.
Qed.
End finished.

(** ** Consecutive ids *)

Lemma seqZ_sorted n : ∀ lo, StronglySorted Z.lt (seqZ lo (Z.of_nat n)).
Proof.
  induction n as [|n IH]; intros lo; [constructor|]. rewrite seqZ_cons by lia.
  replace (Z.pred (Z.of_nat (S n))) with (Z.of_nat n) by lia. constructor; [apply IH|].
  apply Forall_forall. intros z Hz%elem_of_seqZ. lia.
Qed.

Lemma sorted_NoDup_lt (l : list Z) : StronglySorted Z.lt l → NoDup l.
Proof.
  induction 1 as [|z l _ IH Hz]; constructor; [|done]. intros Hin. rewrite Forall_forall in Hz. apply Hz in Hin. lia.
Qed.

Lemma ascending_all (l : list Z) lo :
  StronglySorted Z.lt l → Forall (λ z, lo ≤ z < lo + Z.of_nat (length l))%Z l → l = seqZ lo (Z.of_nat (length l)).
Proof.
  intros Hs Hb. apply (StronglySorted_unique_strong Z.lt); [intros; lia|done|apply seqZ_sorted|].
  apply submseteq_length_Permutation; [|rewrite length_seqZ; lia].
  apply NoDup_submseteq; [by apply sorted_NoDup_lt|]. intros z Hz. rewrite Forall_forall in Hb.
  apply elem_of_seqZ. by apply Hb.
Qed.

Lemma holds_ids `{KI : KeyIndex} tb db m0 m :
  holds tb db m0 m → rec_id <$> db = seqZ 1 (Z.of_nat (length db)).
Proof.
  intros (st & (t & fps & Hinv) & <- & Hn & _). unfold db_of.
  assert (rec_id <$> (sorted_rows st).*2 = row_id <$> sorted_rows st) as Heq by by rewrite <- list_fmap_compose.
  rewrite Heq. assert (length (sorted_rows st).*2 = length (row_id <$> sorted_rows st)) as -> by by rewrite !length_fmap.
  apply ascending_all.
  - by eapply sorted_ids.
  - apply Forall_forall. intros id (r & -> & Hr)%list_elem_of_fmap. unfold sorted_rows in Hr.
    rewrite sort_rows_perm in Hr. apply elem_of_all_rows in Hr as (i & rws & Hi & Hr).
    pose proof (ti_row _ _ _ _ _ _ _ _ _ Hinv Hi Hr) as (_ & _ & Hid). rewrite length_fmap.
    unfold db_of in Hn. rewrite length_fmap in Hn. lia.
Qed.

(** ** Going on to the end *)

Section goes_on.
Context {KI : KeyIndex}.
Context (tb : loc) (base : Mem) (qss : list (list request)).

Lemma goes_on g s : threads_ok tb base qss g s → finished s ∨ ∃ i s', thread_step (Some tb) i s = Some s'.
Proof.
  intros Hok. destruct (decide (Exists (λ i, is_Some (thread_step (Some tb) i s)) (seq 0 (length (t_threads s))))) as [H|H].
  - right. apply Exists_exists in H as (i & _ & s' & Hs'). eauto.
  - left. eapply no_deadlock; [exact Hok|]. intros i. destruct (thread_step (Some tb) i s) as [s'|] eqn:Hs'; [|done].
    exfalso. apply H, Exists_exists. exists i. split; [|by rewrite Hs'; eexists].
    apply elem_of_seq. split; [lia|]. unfold thread_step in Hs'. destruct (t_undefined s); [done|].
    destruct (t_threads s !! i) eqn:Hi; [|done]. by eapply lookup_lt_Some.
Qed.

Lemma schedule_app table o o' s : schedule table (o ++ o') s = schedule table o s ≫= schedule table o'.
Proof.
  revert s. induction o as [|i o IH]; intros s; [done|]. simpl. by destruct (thread_step table i s); simpl.
Qed.

Lemma can_finish g s : threads_ok tb base qss g s → ∃ order s', schedule (Some tb) order s = Some s' ∧ finished s'.
Proof.
  revert g. induction (next_state_wf (Some tb) s) as [s _ IH]. intros g Hok.
  destruct (goes_on g s Hok) as [Hf|(i & s1 & Hs1)]; [by exists [], s|].
  destruct (thread_step_ok _ _ _ _ _ _ _ Hok Hs1) as [g1 Hok1]. destruct (IH s1 (ex_intro _ i Hs1) g1 Hok1) as (o & s' & Ho & Hf).
  exists (i :: o), s'. simpl. by rewrite Hs1.
Qed.
End goes_on.
