(* ===== verification/Sql.v ===== *)
(** The SQL layer of [sql_processor/sql.c]: the statement parser, a pure
    function of the input string, and the execution of a command against the
    table.  A [const char *] cursor is the rest of the input. *)
From stdpp Require Import base list gmap strings.
From Stdlib Require Import Ascii ZArith Lia.
From S2P Require Import Prelude Memory CLib BPTree Table.

(** ** Data *)

Inductive SQLStatus :=
  | SQL_STATUS_OK
  | SQL_STATUS_NOT_FOUND
  | SQL_STATUS_SYNTAX_ERROR
  | SQL_STATUS_QUERY_ERROR
  | SQL_STATUS_EXIT
  | SQL_STATUS_ERROR.

Inductive SQLAction := SQL_ACTION_NONE | SQL_ACTION_INSERT | SQL_ACTION_SELECT_ROWS.
Inductive SQLLockMode := SQL_LOCK_NONE | SQL_LOCK_READ | SQL_LOCK_WRITE.

Inductive SQLCommandType :=
  | SQL_COMMAND_NONE
  | SQL_COMMAND_INSERT
  | SQL_COMMAND_SELECT_ALL
  | SQL_COMMAND_SELECT_BY_ID
  | SQL_COMMAND_SELECT_BY_NAME
  | SQL_COMMAND_SELECT_BY_AGE
  | SQL_COMMAND_EXIT.

#[export] Instance SQLStatus_eq_dec : EqDecision SQLStatus.
Proof. solve_decision. Defined.
#[export] Instance SQLAction_eq_dec : EqDecision SQLAction.
Proof. solve_decision. Defined.
#[export] Instance SQLLockMode_eq_dec : EqDecision SQLLockMode.
Proof. solve_decision. Defined.
#[export] Instance SQLCommandType_eq_dec : EqDecision SQLCommandType.
Proof. solve_decision. Defined.

Definition SQL_SQLSTATE_SIZE : nat := 6.
Definition SQL_ERROR_MESSAGE_SIZE : nat := 256.
Definition IDENTIFIER_SIZE : nat := 32.

Record SQLCommand := MkCommand {
  cmd_type : SQLCommandType;
  comparison : TableComparison;
  table_name : cstr;
  cmd_name : cstr;
  selected_column : cstr;
  where_column : cstr;
  text_value : cstr;
  int_value : Z;
  has_where : bool
}.

Record SQLParseResult := MkParse {
  parsed : bool;
  command : SQLCommand;
  p_status : SQLStatus;
  p_error_code : Z;
  p_sql_state : cstr;
  p_error_message : cstr
}.

Record SQLResult := MkSQLResult {
  status : SQLStatus;
  action : SQLAction;
  res_record : ptr;
  res_rows : results;       (* records and row_count *)
  inserted_id : Z;
  error_code : Z;
  sql_state : cstr;
  error_message : cstr
}.

#[export] Instance SQLCommand_eq_dec : EqDecision SQLCommand.
Proof. solve_decision. Defined.
#[export] Instance SQLParseResult_eq_dec : EqDecision SQLParseResult.
Proof. solve_decision. Defined.

(** ** Lexing *)

Definition sql_make_result (s : SQLStatus) (a : SQLAction) : SQLResult :=
  MkSQLResult s a None no_results 0 0 [] [].

Definition sql_is_known_column (column : cstr) : bool :=
  strcaseeq column (lit "id") || strcaseeq column (lit "name") || strcaseeq column (lit "age").

Definition end_of_input : cstr := lit "end of input".

(** The copy loop of the excerpt, [buffer] being what it has copied. *)
Fixpoint excerpt_copy (cursor buffer : cstr) (buffer_size : nat) : cstr :=
  match cursor with
  | c :: cursor' =>
      if decide (c ≠ newline ∧ c ≠ carriage_return ∧ c ≠ ";"%char ∧ length buffer + 1 < buffer_size)
      then excerpt_copy cursor' (buffer ++ [c]) buffer_size
      else buffer
  | [] => buffer
  end.

(** Without the trailing spaces. *)
Fixpoint trim_right (s : cstr) : cstr :=
  match s with
  | [] => []
  | c :: s' => match trim_right s' with [] => if isspace c then [] else [c] | t => c :: t end
  end.

Definition sql_skip_spaces : cstr → cstr := skip_space.

Definition sql_build_near_excerpt (cursor : cstr) (buffer_size : nat) : cstr :=
  let cursor := sql_skip_spaces cursor in
  match cursor with
  | [] => snprintf buffer_size end_of_input
  | _ =>
      let buffer := trim_right (excerpt_copy cursor [] buffer_size) in
      match buffer with [] => snprintf buffer_size end_of_input | _ => buffer end
  end.

Fixpoint match_word (start word : cstr) {struct word} : option cstr :=
  match word with
  | [] => Some start
  | w :: word' =>
      match start with
      | c :: start' => if decide (tolower c = tolower w) then match_word start' word' else None
      | [] => None
      end
  end.

Definition is_word_char (c : ascii) : bool := isalnum c || bool_decide (c = "_"%char).

(** A keyword and a token boundary; the cursor moves only on success. *)
Definition sql_match_keyword (cursor : cstr) (keyword : cstr) : bool * cstr :=
  match match_word cursor keyword with
  | Some start => if is_word_char (cur start) then (false, cursor) else (true, start)
  | None => (false, cursor)
  end.

Definition sql_determine_lock_mode (input : option cstr) : SQLLockMode :=
  match input with
  | None => SQL_LOCK_NONE
  | Some input =>
      let cursor := sql_skip_spaces input in
      if (sql_match_keyword cursor (lit "SELECT")).1 then SQL_LOCK_READ
      else if (sql_match_keyword cursor (lit "INSERT")).1 then SQL_LOCK_WRITE
      else SQL_LOCK_NONE
  end.

Definition sql_match_char (cursor : cstr) (expected : ascii) : bool * cstr :=
  let cursor := sql_skip_spaces cursor in
  match cursor with
  | c :: cursor' => if decide (c = expected) then (true, cursor') else (false, cursor)
  | [] => (false, [])
  end.

(** The two loops of an identifier: copying while the buffer has room, then
    counting the characters that did not fit. *)
Fixpoint ident_copy (cursor buffer : cstr) (buffer_size : nat) : cstr * cstr :=
  match cursor with
  | c :: cursor' =>
      if is_word_char c && bool_decide (length buffer + 1 < buffer_size)
      then ident_copy cursor' (buffer ++ [c]) buffer_size
      else (buffer, cursor)
  | [] => (buffer, [])
  end.
Fixpoint ident_skip (cursor : cstr) (len : nat) : nat * cstr :=
  match cursor with
  | c :: cursor' => if is_word_char c then ident_skip cursor' (S len) else (len, cursor)
  | [] => (len, [])
  end.

(** The parsers of tokens return what they put in the buffer they are given, or
    [None] when they fail, and the cursor, which a failure may have moved. *)
Definition sql_parse_identifier (cursor : cstr) (buffer_size : nat) : option cstr * cstr :=
  let cursor := sql_skip_spaces cursor in
  if negb (isalpha (cur cursor) || bool_decide (cur cursor = "_"%char)) then (None, cursor)
  else
    let '(buffer, cursor) := ident_copy cursor [] buffer_size in
    if decide (length buffer = 0) then (None, cursor)
    else
      let '(len, cursor) := ident_skip cursor (length buffer) in
      if decide (buffer_size ≤ len) then (None, cursor) else (Some buffer, cursor).

Definition quote : ascii := "'"%char.

Fixpoint string_copy (cursor buffer : cstr) (buffer_size : nat) : option cstr * cstr :=
  match cursor with
  | c :: cursor' =>
      if decide (c = quote) then (Some buffer, cursor')
      else if decide (buffer_size ≤ length buffer + 1) then (None, cursor)
      else string_copy cursor' (buffer ++ [c]) buffer_size
  | [] => (None, [])
  end.

Definition sql_parse_string (cursor : cstr) (buffer_size : nat) : option cstr * cstr :=
  let cursor := sql_skip_spaces cursor in
  match cursor with
  | c :: cursor' => if decide (c = quote) then string_copy cursor' [] buffer_size else (None, cursor)
  | [] => (None, [])
  end.

Definition sql_parse_int (cursor : cstr) : option Z * cstr :=
  let cursor := sql_skip_spaces cursor in
  if negb (isdigit (cur cursor) || bool_decide (cur cursor = "-"%char)) then (None, cursor)
  else
    let '(v, end_ptr) := strtol cursor in
    if decide (length end_ptr = length cursor) then (None, cursor) else (Some (to_int v), end_ptr).

Definition sql_parse_comparison (cursor : cstr) : option TableComparison * cstr :=
  let cursor := sql_skip_spaces cursor in
  match cursor with
  | c :: cursor' =>
      let eq := bool_decide (cur cursor' = "="%char) in
      if bool_decide (c = ">"%char) && eq then (Some TABLE_COMPARISON_GE, tail cursor')
      else if bool_decide (c = "<"%char) && eq then (Some TABLE_COMPARISON_LE, tail cursor')
      else if decide (c = ">"%char) then (Some TABLE_COMPARISON_GT, cursor')
      else if decide (c = "<"%char) then (Some TABLE_COMPARISON_LT, cursor')
      else if decide (c = "="%char) then (Some TABLE_COMPARISON_EQ, cursor')
      else (None, cursor)
  | [] => (None, [])
  end.

Definition sql_match_statement_end (cursor : cstr) : bool * cstr :=
  let cursor := sql_skip_spaces cursor in
  let cursor := match cursor with c :: cursor' => if decide (c = ";"%char) then cursor' else cursor | [] => [] end in
  let cursor := sql_skip_spaces cursor in
  (bool_decide (cursor = []), cursor).

(** ** Parsing *)

Definition no_command : SQLCommand :=
  MkCommand SQL_COMMAND_NONE TABLE_COMPARISON_EQ [] [] [] [] [] 0 false.

Definition sql_parse_result_init : SQLParseResult :=
  MkParse false no_command SQL_STATUS_SYNTAX_ERROR 0 [] [].

(** Field assignments. *)
Definition with_type (ty : SQLCommandType) (c : SQLCommand) : SQLCommand :=
  MkCommand ty (comparison c) (table_name c) (cmd_name c) (selected_column c) (where_column c)
    (text_value c) (int_value c) (has_where c).
Definition with_comparison (cmp : TableComparison) (c : SQLCommand) : SQLCommand :=
  MkCommand (cmd_type c) cmp (table_name c) (cmd_name c) (selected_column c) (where_column c)
    (text_value c) (int_value c) (has_where c).
Definition with_table_name (s : cstr) (c : SQLCommand) : SQLCommand :=
  MkCommand (cmd_type c) (comparison c) (snprintf IDENTIFIER_SIZE s) (cmd_name c) (selected_column c)
    (where_column c) (text_value c) (int_value c) (has_where c).
Definition with_cmd_name (s : cstr) (c : SQLCommand) : SQLCommand :=
  MkCommand (cmd_type c) (comparison c) (table_name c) s (selected_column c) (where_column c)
    (text_value c) (int_value c) (has_where c).
Definition with_where (s : cstr) (c : SQLCommand) : SQLCommand :=
  MkCommand (cmd_type c) (comparison c) (table_name c) (cmd_name c) (selected_column c)
    (snprintf IDENTIFIER_SIZE s) (text_value c) (int_value c) true.
Definition with_text_value (s : cstr) (c : SQLCommand) : SQLCommand :=
  MkCommand (cmd_type c) (comparison c) (table_name c) (cmd_name c) (selected_column c)
    (where_column c) s (int_value c) (has_where c).
Definition with_int_value (z : Z) (c : SQLCommand) : SQLCommand :=
  MkCommand (cmd_type c) (comparison c) (table_name c) (cmd_name c) (selected_column c)
    (where_column c) (text_value c) z (has_where c).
Definition on_command (f : SQLCommand → SQLCommand) (r : SQLParseResult) : SQLParseResult :=
  MkParse (parsed r) (f (command r)) (p_status r) (p_error_code r) (p_sql_state r) (p_error_message r).
Definition with_error_message (s : cstr) (r : SQLParseResult) : SQLParseResult :=
  MkParse (parsed r) (command r) (p_status r) (p_error_code r) (p_sql_state r)
    (snprintf SQL_ERROR_MESSAGE_SIZE s).
(** [parsed = 1] with a status. *)
Definition accept (ty : SQLCommandType) (s : SQLStatus) (r : SQLParseResult) : SQLParseResult :=
  MkParse true (with_type ty (command r)) s (p_error_code r) (p_sql_state r) (p_error_message r).

Definition sql_parse_result_set_error (r : SQLParseResult) (s : SQLStatus) (error_code : Z)
    (sql_state message : cstr) : SQLParseResult :=
  MkParse false (with_type SQL_COMMAND_NONE (command r)) s error_code
    (snprintf SQL_SQLSTATE_SIZE sql_state) (snprintf SQL_ERROR_MESSAGE_SIZE message).

Definition syntax_message (near : cstr) : cstr :=
  lit "ERROR 1064 (42000): You have an error in your SQL syntax; check the manual that corresponds to your sql processor2 version for the right syntax to use near '"
  ++ near ++ lit "' at line 1".

Definition sql_parse_set_syntax_error (r : SQLParseResult) (cursor : cstr) : SQLParseResult :=
  let near_excerpt := sql_build_near_excerpt cursor 64 in
  let r := sql_parse_result_set_error r SQL_STATUS_SYNTAX_ERROR 1064 (lit "42000") [] in
  with_error_message (syntax_message near_excerpt) r.

Definition unknown_column_message (column clause_name : cstr) : cstr :=
  lit "ERROR 1054 (42S22): Unknown column '" ++ column ++ lit "' in '" ++ clause_name ++ lit "'".

Definition sql_parse_set_unknown_column_error (r : SQLParseResult) (column clause_name : cstr) :
    SQLParseResult :=
  let r := sql_parse_result_set_error r SQL_STATUS_QUERY_ERROR 1054 (lit "42S22") [] in
  with_error_message (unknown_column_message column clause_name) r.

(** [if (!test) { sql_parse_set_syntax_error(result, cursor); return; }] *)
Definition expect (r : SQLParseResult) (t : bool * cstr) (k : cstr → SQLParseResult) : SQLParseResult :=
  let '(ok, cursor) := t in if negb ok then sql_parse_set_syntax_error r cursor else k cursor.
Definition expect_some {A} (r : SQLParseResult) (t : option A * cstr)
    (k : A → cstr → SQLParseResult) : SQLParseResult :=
  match t with (None, cursor) => sql_parse_set_syntax_error r cursor | (Some x, cursor) => k x cursor end.

Definition users : cstr := lit "users".

Definition sql_parse_insert (input : cstr) (r : SQLParseResult) : SQLParseResult :=
  let '(ok, cursor) := sql_match_keyword input (lit "INSERT") in
  if negb ok then r
  else
    let cursor := sql_skip_spaces cursor in
    expect r (sql_match_keyword cursor (lit "INTO")) (λ cursor,
    expect_some r (sql_parse_identifier cursor IDENTIFIER_SIZE) (λ tname cursor,
    if negb (strcaseeq tname users) then sql_parse_set_syntax_error r tname
    else
      let cursor := sql_skip_spaces cursor in
      expect r (sql_match_keyword cursor (lit "VALUES")) (λ cursor,
      expect r (sql_match_char cursor "("%char) (λ cursor,
      expect_some r (sql_parse_string cursor RECORD_NAME_SIZE) (λ name cursor,
      let r := on_command (with_cmd_name name) r in
      expect r (sql_match_char cursor ","%char) (λ cursor,
      expect_some r (sql_parse_int cursor) (λ age cursor,
      let r := on_command (with_int_value age) r in
      expect r (sql_match_char cursor ")"%char) (λ cursor,
      expect r (sql_match_statement_end cursor) (λ _,
      accept SQL_COMMAND_INSERT SQL_STATUS_OK (on_command (with_table_name tname) r)))))))))).

(** The condition of a [WHERE] clause: [column], the cursor before the
    comparison and the one after it. *)
Definition sql_parse_condition (column comparison_cursor cursor : cstr) (r : SQLParseResult) :
    SQLParseResult :=
  if strcaseeq column (lit "id") then
    expect_some r (sql_parse_int cursor) (λ v cursor,
    let r := on_command (with_int_value v) r in
    expect r (sql_match_statement_end cursor) (λ _, accept SQL_COMMAND_SELECT_BY_ID SQL_STATUS_OK r))
  else if strcaseeq column (lit "name") then
    if decide (comparison (command r) ≠ TABLE_COMPARISON_EQ) then
      sql_parse_set_syntax_error r comparison_cursor
    else
      expect_some r (sql_parse_string cursor RECORD_NAME_SIZE) (λ s cursor,
      let r := on_command (with_text_value s) r in
      expect r (sql_match_statement_end cursor) (λ _, accept SQL_COMMAND_SELECT_BY_NAME SQL_STATUS_OK r))
  else if strcaseeq column (lit "age") then
    expect_some r (sql_parse_int cursor) (λ v cursor,
    let r := on_command (with_int_value v) r in
    expect r (sql_match_statement_end cursor) (λ _, accept SQL_COMMAND_SELECT_BY_AGE SQL_STATUS_OK r))
  else sql_parse_set_unknown_column_error r column (lit "where clause").

Definition sql_parse_select (input : cstr) (r : SQLParseResult) : SQLParseResult :=
  let '(ok, cursor) := sql_match_keyword input (lit "SELECT") in
  if negb ok then r
  else
    let cursor := sql_skip_spaces cursor in
    let '(star, cursor) := sql_match_char cursor "*"%char in
    if negb star then
      expect_some r (sql_parse_identifier cursor IDENTIFIER_SIZE) (λ column cursor,
      if negb (sql_is_known_column column) then
        sql_parse_set_unknown_column_error r column (lit "field list")
      else sql_parse_set_syntax_error r cursor)
    else
      let cursor := sql_skip_spaces cursor in
      expect r (sql_match_keyword cursor (lit "FROM")) (λ cursor,
      expect_some r (sql_parse_identifier cursor IDENTIFIER_SIZE) (λ tname cursor,
      if negb (strcaseeq tname users) then sql_parse_set_syntax_error r tname
      else
        let cursor := sql_skip_spaces cursor in
        let '(at_end, cursor) := sql_match_statement_end cursor in
        if (at_end : bool) then
          accept SQL_COMMAND_SELECT_ALL SQL_STATUS_OK (on_command (with_table_name tname) r)
        else
          expect r (sql_match_keyword cursor (lit "WHERE")) (λ cursor,
          expect_some r (sql_parse_identifier cursor IDENTIFIER_SIZE) (λ column cursor,
          let comparison_cursor := cursor in
          expect_some r (sql_parse_comparison cursor) (λ cmp cursor,
          let r := on_command (with_comparison cmp) r in
          let r := on_command (with_table_name tname) r in
          let r := on_command (with_where column) r in
          sql_parse_condition column comparison_cursor cursor r))))).

Definition sql_parse (input : option cstr) : SQLParseResult :=
  let r := sql_parse_result_init in
  match input with
  | None => sql_parse_result_set_error r SQL_STATUS_ERROR 0 [] (lit "Internal database error")
  | Some input =>
      let cursor := sql_skip_spaces input in
      let '(is_exit, cursor) :=
        (let '(ok, cursor) := sql_match_keyword cursor (lit "EXIT") in
         if (ok : bool) then (true, cursor) else sql_match_keyword cursor (lit "QUIT")) in
      if (is_exit : bool) then
        expect r (sql_match_statement_end cursor) (λ _, accept SQL_COMMAND_EXIT SQL_STATUS_EXIT r)
      else
        let r := sql_parse_insert input r in
        if parsed r || bool_decide (p_error_message r ≠ []) then r
        else
          let r := sql_parse_select input r in
          if parsed r || bool_decide (p_error_message r ≠ []) then r
          else sql_parse_set_syntax_error r cursor
  end.

Definition sql_command_lock_mode (command : option SQLCommand) : SQLLockMode :=
  match command with
  | None => SQL_LOCK_NONE
  | Some command =>
      match cmd_type command with
      | SQL_COMMAND_INSERT => SQL_LOCK_WRITE
      | SQL_COMMAND_SELECT_ALL | SQL_COMMAND_SELECT_BY_ID
      | SQL_COMMAND_SELECT_BY_NAME | SQL_COMMAND_SELECT_BY_AGE => SQL_LOCK_READ
      | SQL_COMMAND_EXIT | SQL_COMMAND_NONE => SQL_LOCK_NONE
      end
  end.

(** ** Execution *)

(** [rs] assigned to [records] and [row_count]. *)
Definition with_rows_result (rs : results) (r : SQLResult) : SQLResult :=
  MkSQLResult (status r) (action r) (res_record r) rs (inserted_id r) (error_code r) (sql_state r)
    (error_message r).

Definition sql_execute_insert_plan (table : ptr) (command : SQLCommand) : prog Mem SQLResult :=
  let result := sql_make_result SQL_STATUS_ERROR SQL_ACTION_NONE in
  match table with
  | None => mret result
  | Some _ =>
      if decide (cmd_type command ≠ SQL_COMMAND_INSERT) then mret result
      else
        record ← table_insert table (Some (cmd_name command)) (int_value command);
        match record with
        | None => mret result
        | Some _ =>
            r ← load_record record;
            mret (MkSQLResult SQL_STATUS_OK SQL_ACTION_INSERT record (MkResults None 1) (rec_id r) 0 [] [])
        end
  end.

Definition sql_execute_select_plan (table : ptr) (command : SQLCommand) : prog Mem SQLResult :=
  let result := sql_make_result SQL_STATUS_ERROR SQL_ACTION_NONE in
  match table with
  | None => mret result
  | Some _ =>
      found ← (match cmd_type command with
               | SQL_COMMAND_SELECT_ALL => r ← table_collect_all table (res_rows result); mret (Some r)
               | SQL_COMMAND_SELECT_BY_ID =>
                   r ← table_find_by_id_condition table (comparison command) (int_value command) (res_rows result);
                   mret (Some r)
               | SQL_COMMAND_SELECT_BY_NAME =>
                   r ← table_find_by_name_matches table (Some (text_value command)) (res_rows result);
                   mret (Some r)
               | SQL_COMMAND_SELECT_BY_AGE =>
                   r ← table_find_by_age_condition table (comparison command) (int_value command) (res_rows result);
                   mret (Some r)
               | _ => mret None
               end);
      match found with
      | None => mret result
      | Some (false, rs) => mret (with_rows_result rs result)
      | Some (true, rs) =>
          first ← (if decide (0 < count rs) then array_get (records rs) 0 else mret None);
          mret (MkSQLResult (if decide (count rs = 0) then SQL_STATUS_NOT_FOUND else SQL_STATUS_OK)
                  SQL_ACTION_SELECT_ROWS first rs 0 0 [] [])
      end
  end.

Definition sql_execute_plan (table : ptr) (command : option SQLCommand) : prog Mem SQLResult :=
  match command with
  | None => mret (sql_make_result SQL_STATUS_ERROR SQL_ACTION_NONE)
  | Some command =>
      match cmd_type command with
      | SQL_COMMAND_INSERT => sql_execute_insert_plan table command
      | SQL_COMMAND_SELECT_ALL | SQL_COMMAND_SELECT_BY_ID
      | SQL_COMMAND_SELECT_BY_NAME | SQL_COMMAND_SELECT_BY_AGE => sql_execute_select_plan table command
      | SQL_COMMAND_EXIT => mret (sql_make_result SQL_STATUS_EXIT SQL_ACTION_NONE)
      | SQL_COMMAND_NONE => mret (sql_make_result SQL_STATUS_ERROR SQL_ACTION_NONE)
      end
  end.

Definition sql_execute (table : ptr) (input : option cstr) : prog Mem SQLResult :=
  let parse_result := sql_parse input in
  if negb (parsed parse_result) then
    mret (MkSQLResult (p_status parse_result) SQL_ACTION_NONE None no_results 0
            (p_error_code parse_result)
            (snprintf SQL_SQLSTATE_SIZE (p_sql_state parse_result))
            (snprintf SQL_ERROR_MESSAGE_SIZE (p_error_message parse_result)))
  else
    result ← sql_execute_plan table (Some (command parse_result));
    if decide (cmd_type (command parse_result) = SQL_COMMAND_EXIT) then
      mret (MkSQLResult SQL_STATUS_EXIT (action result) (res_record result) (res_rows result)
              (inserted_id result) (error_code result) (sql_state result) (error_message result))
    else mret result.

Definition sql_result_destroy (r : SQLResult) : prog Mem SQLResult :=
  free (T:=rec_array) (records (res_rows r));;
  mret (MkSQLResult SQL_STATUS_OK SQL_ACTION_NONE None no_results 0 0 [] []).
