(* ===== verification/SqlLex.v ===== *)
(** The token parsers of Sql.v, each characterised exactly: what it accepts,
    what it returns and where it leaves the cursor. *)
From stdpp Require Import base list strings.
From Stdlib Require Import Ascii ZArith Lia.
From S2P Require Import Prelude Memory CLib CLibProofs BPTree Table Sql.

(** ** Spaces and words *)

Definition spaces (s : cstr) : Prop := Forall (λ c, isspace c = true) s.

(** [w] is the keyword [kw], in any case. *)
Definition is_keyword (kw w : cstr) : Prop := tolower <$> w = tolower <$> kw.

(** No identifier character follows. *)
Definition boundary (c : cstr) : Prop := is_word_char (cur c) = false.

Lemma skip_space_spec s c :
  skip_space s = c ↔ ∃ sp, s = sp ++ c ∧ spaces sp ∧ isspace (cur c) = false.
Proof.
  split.
  - revert c. induction s as [|x s IH]; intros c; simpl.
    + intros <-. exists []. by split_and!; [|constructor|].
    + destruct (isspace x) eqn:Hx.
      * intros (sp & -> & Hsp & Hc)%IH. exists (x :: sp). split_and!; [done|by constructor|done].
      * intros <-. exists []. by split_and!; [|constructor|].
  - intros (sp & -> & Hsp & Hc). induction Hsp as [|x sp Hx Hsp IH]; simpl.
    + destruct c as [|x c]; simpl in *; [done|]. by rewrite Hc.
    + by rewrite Hx.
Qed.

Lemma skip_spaces_app sp c : spaces sp → skip_space (sp ++ c) = skip_space c.
Proof. induction 1 as [|x sp Hx _ IH]; simpl; [done|]. by rewrite Hx. Qed.

Lemma skip_space_id c : isspace (cur c) = false → skip_space c = c.
Proof. intros Hc. apply skip_space_spec. exists []. by split_and!; [|constructor|]. Qed.

Lemma skip_space_cur s : isspace (cur (skip_space s)) = false.
Proof. by destruct (proj1 (skip_space_spec s _) eq_refl) as (_ & _ & _ & ?). Qed.

Lemma skip_space_split s : ∃ sp, s = sp ++ skip_space s ∧ spaces sp.
Proof. destruct (proj1 (skip_space_spec s _) eq_refl) as (sp & ? & ? & _). eauto. Qed.

Lemma word_not_space c : is_word_char c = true → isspace c = false.
Proof.
  unfold is_word_char, isalnum, isalpha, isdigit, isspace. intros H.
  apply bool_decide_eq_false. intros Hs.
  rewrite !orb_true_iff, !bool_decide_eq_true in H.
  destruct H as [[H|H]| ->]; [lia|lia|]. change (code "_") with 95%Z in Hs. lia.
Qed.

(** ** Keywords *)

Lemma match_word_spec s kw c :
  match_word s kw = Some c ↔ ∃ w, s = w ++ c ∧ is_keyword kw w.
Proof.
  unfold is_keyword. revert s. induction kw as [|k kw IH]; intros s; simpl.
  - split; [intros [= ->]; by exists []|]. intros (w & -> & Hw). by destruct w.
  - destruct s as [|x s].
    + split; [done|]. intros (w & Hs & Hw). by destruct w.
    + case_decide as Heq.
      * rewrite IH. split.
        { intros (w & -> & Hw). exists (x :: w). rewrite !fmap_cons. by rewrite Heq, Hw. }
        { intros (w & Hs & Hw). destruct w as [|y w]; [done|]. simplify_eq/=. eauto. }
      * split; [done|]. intros (w & Hs & Hw). destruct w as [|y w]; [done|]. by simplify_eq/=.
Qed.

Lemma match_keyword_spec s kw c :
  sql_match_keyword s kw = (true, c) ↔ ∃ w, s = w ++ c ∧ is_keyword kw w ∧ boundary c.
Proof.
  unfold sql_match_keyword, boundary. split.
  - destruct (match_word s kw) as [c'|] eqn:Hm; [|done]. destruct (is_word_char (cur c')) eqn:Hb; [done|].
    intros [= ->]. apply match_word_spec in Hm as (w & -> & Hw). eauto.
  - intros (w & -> & Hw & Hb). assert (match_word (w ++ c) kw = Some c) as ->.
    { apply match_word_spec. eauto. }
    by rewrite Hb.
Qed.

Lemma match_keyword_fail s kw c : sql_match_keyword s kw = (false, c) → c = s.
Proof. unfold sql_match_keyword. destruct (match_word s kw); [destruct (is_word_char _)|]; congruence. Qed.

(** A keyword is matched in one way only. *)
Lemma keyword_length kw w : is_keyword kw w → length w = length kw.
Proof. intros H%(f_equal length). by rewrite !length_fmap in H. Qed.

(** ** Punctuation *)

Lemma match_char_spec s e c :
  isspace e = false →
  sql_match_char s e = (true, c) ↔ ∃ sp, s = sp ++ (e :: c) ∧ spaces sp.
Proof.
  intros He. unfold sql_match_char, sql_skip_spaces. split.
  - destruct (skip_space_split s) as (sp & Hs & Hsp). destruct (skip_space s) as [|x s'] eqn:Hsk; [done|].
    case_decide; [|done]. intros [= ->]. subst x. eauto.
  - intros (sp & -> & Hsp). rewrite skip_spaces_app, skip_space_id by done. by rewrite decide_True.
Qed.

(** [s] is an optional semicolon among spaces. *)
Definition statement_end (s : cstr) : Prop :=
  ∃ sp1 sp2, spaces sp1 ∧ spaces sp2 ∧ (s = sp1 ∨ s = sp1 ++ (";"%char :: sp2)).

Lemma skip_all s : skip_space s = [] ↔ spaces s.
Proof.
  rewrite skip_space_spec. split.
  - intros (sp & -> & ? & _). by rewrite app_nil_r.
  - intros H. exists s. by rewrite app_nil_r.
Qed.

Lemma match_end_spec s : (sql_match_statement_end s).1 = true ↔ statement_end s.
Proof.
  unfold sql_match_statement_end, sql_skip_spaces, statement_end. simpl. rewrite bool_decide_eq_true.
  destruct (skip_space_split s) as (sp & Hs & Hsp). pose proof (skip_space_cur s) as Hcur.
  destruct (skip_space s) as [|x s'] eqn:Hsk.
  - split; [|done]. intros _. exists sp, []. rewrite app_nil_r in Hs. split_and!; [done|constructor|by left].
  - case_decide as Hx.
    + rewrite skip_all. split.
      * intros Hs'. exists sp, s'. subst x. auto.
      * intros (sp1 & sp2 & H1 & H2 & [-> | ->]).
        { by apply skip_all in H1; rewrite H1 in Hsk. }
        rewrite skip_spaces_app in Hsk by done. rewrite skip_space_id in Hsk by done. by simplify_eq.
    + rewrite (skip_space_id (x :: s')) by done. split; [done|].
      intros (sp1 & sp2 & H1 & H2 & [-> | ->]).
      { by apply skip_all in H1; rewrite H1 in Hsk. }
      rewrite skip_spaces_app in Hsk by done. rewrite skip_space_id in Hsk by done. by simplify_eq.
Qed.

(** ** Identifiers *)

Definition is_word (b : cstr) : Prop := Forall (λ c, is_word_char c = true) b.
Definition is_ident (b : cstr) : Prop :=
  is_word b ∧ (isalpha (cur b) = true ∨ cur b = "_"%char).

Lemma boundary_nil : boundary [].
Proof. done. Qed.

Lemma ident_copy_inv cursor : ∀ buf n b c,
  ident_copy cursor buf n = (b, c) →
  ∃ run, b = buf ++ run ∧ cursor = run ++ c ∧ is_word run ∧ (boundary c ∨ n ≤ length b + 1).
Proof.
  induction cursor as [|x s IH]; intros buf n b c; simpl.
  - intros [= <- <-]. exists []. rewrite app_nil_r. split_and!; [done|done|constructor|by left].
  - destruct (is_word_char x) eqn:Hx; simpl; [case_bool_decide as Hl|].
    + intros (run & -> & -> & Hrun & Hc)%IH. exists (x :: run).
      rewrite <- (assoc_L (++)). split_and!; [done|done|by constructor|by rewrite <- (assoc_L (++)) in Hc].
    + intros [= <- <-]. exists []. rewrite app_nil_r. split_and!; [done|done|constructor|right; lia].
    + intros [= <- <-]. exists []. rewrite app_nil_r. split_and!; [done|done|constructor|by left].
Qed.

Lemma ident_copy_ok run : ∀ buf n c,
  is_word run → boundary c → length buf + length run < n →
  ident_copy (run ++ c) buf n = (buf ++ run, c).
Proof.
  induction run as [|x run IH]; intros buf n c Hrun Hc Hlen; simpl in *.
  - rewrite app_nil_r. unfold boundary in Hc. destruct c as [|y c]; simpl in *; [done|]. by rewrite Hc.
  - apply Forall_cons in Hrun as [Hx Hrun]. rewrite Hx, bool_decide_eq_true_2 by lia. simpl.
    rewrite IH; [by rewrite <- (assoc_L (++))|done|done|]. rewrite length_app. simpl. lia.
Qed.

Lemma ident_skip_boundary c len : boundary c → ident_skip c len = (len, c).
Proof. unfold boundary. destruct c as [|x c]; [done|]. simpl. by intros ->. Qed.

Lemma ident_skip_le c : ∀ len, len ≤ (ident_skip c len).1.
Proof. induction c as [|x c IH]; intros len; simpl; [done|]. destruct (is_word_char x); [|done]. specialize (IH (S len)). lia. Qed.

Lemma ident_skip_word c len : ¬ boundary c → len < (ident_skip c len).1.
Proof.
  unfold boundary. destruct c as [|x c]; [done|]. simpl. destruct (is_word_char x); [|done].
  intros _. pose proof (ident_skip_le c (S len)). lia.
Qed.

Lemma ident_head_word c : isalpha c || bool_decide (c = "_"%char) = true → is_word_char c = true.
Proof. unfold is_word_char, isalnum. destruct (isalpha c); [done|]. simpl. intros ->. by rewrite orb_true_r. Qed.

Lemma boundary_dec c : boundary c ∨ ¬ boundary c.
Proof. unfold boundary. destruct (is_word_char (cur c)); auto. Qed.

Lemma parse_identifier_spec s n b c :
  0 < n →
  sql_parse_identifier s n = (Some b, c) ↔
    ∃ sp, s = sp ++ b ++ c ∧ spaces sp ∧ is_ident b ∧ boundary c ∧ length b < n.
Proof.
  intros Hn. unfold sql_parse_identifier, sql_skip_spaces. split.
  - destruct (skip_space_split s) as (sp & Hs & Hsp). set (t := skip_space s) in *.
    destruct (isalpha (cur t) || bool_decide (cur t = "_"%char)) eqn:Hhead; simpl; [|done].
    destruct (ident_copy t [] n) as [b' c'] eqn:Hcopy.
    apply ident_copy_inv in Hcopy as (run & Hb & Ht & Hrun & Hc). simpl in Hb. subst b'.
    destruct (decide (length run = 0)) as [Hz|Hz]; [intros [=]|].
    destruct (ident_skip c' (length run)) as [len c2] eqn:Hskip.
    destruct (decide (n ≤ len)) as [Hn'|Hn']; [intros [=]|]. intros [= -> ->].
    destruct (boundary_dec c') as [Hbd|Hbd].
    + rewrite ident_skip_boundary in Hskip by done. simplify_eq. exists sp.
      split_and!; [congruence|done| |done|lia]. split; [done|].
      rewrite Ht in Hhead. destruct b as [|x b]; [done|]. simpl in *.
      apply orb_true_iff in Hhead as [?|?%bool_decide_eq_true]; auto.
    + pose proof (ident_skip_word c' (length b) Hbd) as Hlt. rewrite Hskip in Hlt. simpl in Hlt.
      destruct Hc as [?|?]; [done|lia].
  - intros (sp & -> & Hsp & [Hw Hhead] & Hc & Hlen).
    destruct b as [|x b].
    { exfalso. destruct Hhead as [Hh|Hh]; by vm_compute in Hh. }
    assert (isalpha x || bool_decide (x = "_"%char) = true) as Hx.
    { apply orb_true_iff. rewrite bool_decide_eq_true. done. }
    assert (skip_space (sp ++ (x :: b) ++ c) = (x :: b) ++ c) as ->.
    { rewrite skip_spaces_app by done. apply skip_space_id. simpl.
      by apply word_not_space, ident_head_word. }
    simpl cur. rewrite Hx. cbv beta iota delta [negb].
    rewrite ident_copy_ok by (done || simpl in *; lia). simpl app.
    rewrite decide_False by (simpl; lia). rewrite ident_skip_boundary by done.
    by rewrite decide_False by (simpl in *; lia).
Qed.

(** ** String literals *)

Lemma string_copy_inv cursor : ∀ buf n b c,
  string_copy cursor buf n = (Some b, c) →
  ∃ t, b = buf ++ t ∧ cursor = t ++ (quote :: c) ∧ (quote ∉ t) ∧ (t = [] ∨ length b < n).
Proof.
  induction cursor as [|x s IH]; intros buf n b c; simpl; [done|].
  case_decide as Hx; [|case_decide as Hl].
  - intros [= <- <-]. exists []. rewrite app_nil_r. subst x.
    split_and!; [done|done|apply not_elem_of_nil|by left].
  - done.
  - intros (t & -> & -> & Ht & Hlen)%IH. exists (x :: t). rewrite <- (assoc_L (++)).
    split_and!; [done|done|by apply not_elem_of_cons|right].
    destruct Hlen as [->|Hlen]; [rewrite length_app; simpl; lia|]. by rewrite <- (assoc_L (++)) in Hlen.
Qed.

Lemma string_copy_ok t : ∀ buf n c,
  quote ∉ t → length buf + length t < n → string_copy (t ++ quote :: c) buf n = (Some (buf ++ t), c).
Proof.
  induction t as [|x t IH]; intros buf n c Ht Hlen; simpl in *.
  - by rewrite app_nil_r.
  - apply not_elem_of_cons in Ht as [Hx Ht]. rewrite decide_False by congruence.
    rewrite decide_False by lia. rewrite IH; [by rewrite <- (assoc_L (++))|done|].
    rewrite length_app. simpl. lia.
Qed.

Lemma parse_string_spec s n b c :
  0 < n →
  sql_parse_string s n = (Some b, c) ↔
    ∃ sp, s = sp ++ (quote :: b ++ (quote :: c)) ∧ spaces sp ∧ (quote ∉ b) ∧ length b < n.
Proof.
  intros Hn. unfold sql_parse_string, sql_skip_spaces. split.
  - destruct (skip_space_split s) as (sp & Hs & Hsp). destruct (skip_space s) as [|x t]; [done|].
    case_decide as Hx; [|done]. intros (t' & -> & -> & Ht & Hlen)%string_copy_inv. subst x.
    exists sp. split_and!; [done|done|done|]. destruct Hlen as [->|?]; [simpl; lia|done].
  - intros (sp & -> & Hsp & Hb & Hlen). rewrite skip_spaces_app, skip_space_id by done.
    rewrite decide_True by done. by rewrite string_copy_ok.
Qed.

(** ** Comparisons *)

Definition comparison_text (cmp : TableComparison) : cstr :=
  match cmp with
  | TABLE_COMPARISON_EQ => lit "="
  | TABLE_COMPARISON_LT => lit "<"
  | TABLE_COMPARISON_LE => lit "<="
  | TABLE_COMPARISON_GT => lit ">"
  | TABLE_COMPARISON_GE => lit ">="
  end.

(** The longest match: [<] and [>] are not followed by [=]. *)
Definition comparison_ends (cmp : TableComparison) (c : cstr) : Prop :=
  match cmp with
  | TABLE_COMPARISON_LT | TABLE_COMPARISON_GT => cur c ≠ "="%char
  | _ => True
  end.

Lemma parse_comparison_spec s cmp c :
  sql_parse_comparison s = (Some cmp, c) ↔
    ∃ sp, s = sp ++ comparison_text cmp ++ c ∧ spaces sp ∧ comparison_ends cmp c.
Proof.
  unfold sql_parse_comparison, sql_skip_spaces. split.
  - destruct (skip_space_split s) as (sp & Hs & Hsp). destruct (skip_space s) as [|x t]; [done|].
    assert (cur t = "="%char → t = "="%char :: tail t) as Heq.
    { destruct t as [|y t]; simpl; [intros H; by vm_compute in H|by intros ->]. }
    destruct (decide (cur t = "="%char)) as [He|He];
      [rewrite (bool_decide_eq_true_2 _ He)|rewrite (bool_decide_eq_false_2 _ He)];
      rewrite ?andb_true_r, ?andb_false_r;
      repeat first [case_bool_decide; [subst x|] | case_decide; [subst x|]];
      intros [=]; subst; exists sp; split_and!; try done; simpl; rewrite <- ?Heq by done; done.
  - intros (sp & -> & Hsp & Hend). rewrite skip_spaces_app by done.
    destruct cmp; simpl in *; rewrite ?bool_decide_eq_true_2, ?bool_decide_eq_false_2 by done; done.
Qed.

(** ** Integers *)

(** What [sql_parse_int] makes of a numeral: [strtol]'s clamp, then [int]. *)
Definition int_of (z : Z) : Z := to_int (clamp LONG_MIN LONG_MAX z).

Lemma int_of_id z : is_int z → int_of z = z.
Proof. intros H. unfold int_of. by rewrite clamp_long, to_int_id. Qed.

Lemma numeral_head d z c :
  is_numeral d z → isdigit (cur (d ++ c)) || bool_decide (cur (d ++ c) = "-"%char) = true.
Proof.
  intros (ds & Hne & Hds & [[-> _]|[-> _]]); [|done]. destruct ds as [|x ds]; [done|].
  apply Forall_cons in Hds as [Hx _]. simpl. by rewrite Hx.
Qed.

Lemma int_head_not_space x :
  isdigit x || bool_decide (x = "-"%char) = true → isspace x = false.
Proof. intros [H|H%bool_decide_eq_true]%orb_true_iff; [by apply digit_not_space|by subst]. Qed.

Lemma numeral_length d z c : is_numeral d z → length c ≠ length (d ++ c).
Proof.
  intros (ds & Hne & _ & Hd) Hl. rewrite length_app in Hl.
  destruct ds; [done|]. destruct Hd as [[-> _]|[-> _]]; simpl in Hl; lia.
Qed.

(** Any text that passes the guard of [sql_parse_int] is a numeral, or [strtol]
    finds no digits in it. *)
Lemma strtol_split t :
  isdigit (cur t) || bool_decide (cur t = "-"%char) = true →
  (∃ d z c, t = d ++ c ∧ is_numeral d z ∧ isdigit (cur c) = false) ∨ strtol t = (0%Z, t).
Proof.
  intros Hg. destruct t as [|x t]; [by vm_compute in Hg|]. simpl in Hg.
  pose proof (int_head_not_space x Hg) as Hsp.
  apply orb_true_iff in Hg as [Hx|Hx%bool_decide_eq_true].
  - destruct (scan_digits_split t) as (ds & c & -> & Hds & Hc). left.
    exists (x :: ds), (num_value (x :: ds)), c. split_and!; [done| |done].
    exists (x :: ds). split_and!; [done|by constructor|by left].
  - subst x. destruct (scan_digits_split t) as (ds & c & -> & Hds & Hc).
    destruct ds as [|y ds].
    + right. unfold strtol. simpl. change (isspace "-"%char) with false.
      simpl. destruct c as [|z c]; [done|]. simpl in *. by rewrite Hc.
    + left. exists ("-"%char :: y :: ds), (- num_value (y :: ds))%Z, c. split_and!; [done| |done].
      exists (y :: ds). split_and!; [done|done|by right].
Qed.

Lemma parse_int_spec s v c :
  sql_parse_int s = (Some v, c) ↔
    ∃ sp d z, s = sp ++ d ++ c ∧ spaces sp ∧ is_numeral d z ∧ isdigit (cur c) = false ∧ v = int_of z.
Proof.
  unfold sql_parse_int, sql_skip_spaces. split.
  - destruct (skip_space_split s) as (sp & Hs & Hsp). set (t := skip_space s) in *. clearbody t.
    destruct (isdigit (cur t) || bool_decide (cur t = "-"%char)) eqn:Hg; [|done]. cbv beta iota delta [negb].
    destruct (strtol_split t Hg) as [(d & z & c' & -> & Hd & Hc)|Hfail].
    + rewrite (strtol_numeral _ _ _ Hd Hc). rewrite decide_False by (by eapply numeral_length).
      intros [= <- <-]. exists sp, d, z. by split_and!.
    + rewrite Hfail. by rewrite decide_True by done.
  - intros (sp & d & z & -> & Hsp & Hd & Hc & ->). rewrite skip_spaces_app by done.
    pose proof (numeral_head d z c Hd) as Hg. rewrite skip_space_id by (by apply int_head_not_space).
    rewrite Hg. cbv beta iota delta [negb]. rewrite (strtol_numeral _ _ _ Hd Hc).
    by rewrite decide_False by (by eapply numeral_length).
Qed.
