(* ===== verification/SqlGrammar.v ===== *)
(** The language the SQL parser accepts: [INSERT], [SELECT] and the exit
    statements as grammars over texts, and the proof that [sql_parse] accepts
    exactly these with exactly these meanings. *)
From stdpp Require Import base list strings.
From Stdlib Require Import Ascii ZArith Lia.
From S2P Require Import Prelude Memory CLib CLibProofs BPTree Table Sql SqlLex.

(** ** Grammars *)

Definition blank (s : cstr) : Prop := spaces s ∧ s ≠ [].

(** [INSERT INTO users VALUES ('name', z)] *)
Record insert_text (s tbl name : cstr) (z : Z) : Prop := {
  it_parts : ∃ w1 s1 w2 s2 s3 w3 s4 s5 s6 s7 num s8 rest,
    s = w1 ++ s1 ++ w2 ++ s2 ++ tbl ++ s3 ++ w3 ++ s4 ++ ("("%char :: s5 ++ (quote :: name ++ (quote ::
          s6 ++ (","%char :: s7 ++ num ++ s8 ++ (")"%char :: rest))))) ∧
    is_keyword (lit "INSERT") w1 ∧ blank s1 ∧ is_keyword (lit "INTO") w2 ∧ blank s2 ∧ blank s3 ∧
    is_keyword (lit "VALUES") w3 ∧ spaces s4 ∧ spaces s5 ∧ spaces s6 ∧ spaces s7 ∧ spaces s8 ∧
    is_numeral num z ∧ statement_end rest;
  it_table : is_keyword users tbl;
  it_name : quote ∉ name;
  it_length : length name < RECORD_NAME_SIZE
}.

(** [SELECT * FROM users], and what is left after it. *)
Definition select_head (s tbl rest : cstr) : Prop :=
  ∃ w1 s1 s2 w2 s3,
    s = w1 ++ s1 ++ ("*"%char :: s2 ++ w2 ++ s3 ++ tbl ++ rest) ∧
    is_keyword (lit "SELECT") w1 ∧ spaces s1 ∧ spaces s2 ∧ is_keyword (lit "FROM") w2 ∧ blank s3 ∧
    is_keyword users tbl ∧ boundary rest.

(** The conditions of a [WHERE] clause. *)
Inductive condition :=
  | CondId (c : TableComparison) (v : Z)
  | CondName (s : cstr)
  | CondAge (c : TableComparison) (v : Z).

Definition cond_column (c : condition) : cstr :=
  match c with CondId _ _ => lit "id" | CondName _ => lit "name" | CondAge _ _ => lit "age" end.
Definition cond_comparison (c : condition) : TableComparison :=
  match c with CondId cmp _ | CondAge cmp _ => cmp | CondName _ => TABLE_COMPARISON_EQ end.

(** What follows the comparison. *)
Definition cond_value (c : condition) (s : cstr) : Prop :=
  match c with
  | CondId _ v | CondAge _ v =>
      ∃ sp num z rest, s = sp ++ num ++ rest ∧ spaces sp ∧ is_numeral num z ∧ v = int_of z ∧
        isdigit (cur rest) = false ∧ statement_end rest
  | CondName t =>
      ∃ sp rest, s = sp ++ (quote :: t ++ (quote :: rest)) ∧ spaces sp ∧ (quote ∉ t) ∧
        length t < RECORD_NAME_SIZE ∧ statement_end rest
  end.

(** [WHERE column comparison value], where a semicolon may stand before
    [WHERE]. *)
Definition where_text (s col : cstr) (c : condition) : Prop :=
  ∃ s1 w s2 s3 rest,
    s = s1 ++ w ++ s2 ++ col ++ s3 ++ comparison_text (cond_comparison c) ++ rest ∧
    (spaces s1 ∨ ∃ a b, s1 = a ++ (";"%char :: b) ∧ spaces a ∧ spaces b) ∧
    is_keyword (lit "WHERE") w ∧ blank s2 ∧ is_keyword (cond_column c) col ∧ spaces s3 ∧
    comparison_ends (cond_comparison c) rest ∧ cond_value c rest.

(** ** Facts about words *)

Lemma word_char_lower c : is_word_char (tolower c) = is_word_char c.
Proof.
  unfold tolower. case_decide as Hc; [|done]. transitivity true.
  - unfold is_word_char, isalnum, isalpha.
    rewrite (bool_decide_eq_true_2 (65 ≤ code (ascii_of_N (N_of_ascii c + 32)) ≤ 90 ∨ _)%Z); [done|].
    right. unfold code in *. rewrite N_ascii_embedding by lia. lia.
  - symmetry. unfold is_word_char, isalnum, isalpha. rewrite bool_decide_eq_true_2 by lia. done.
Qed.

Lemma keyword_word kw w : is_keyword kw w → is_word kw → is_word w.
Proof.
  unfold is_keyword, is_word. revert kw. induction w as [|x w IH]; intros kw Heq Hkw; [constructor|].
  destruct kw as [|k kw]; [done|]. rewrite !fmap_cons in Heq. injection Heq as Hx Hw.
  apply Forall_cons in Hkw as [Hk Hkw]. constructor; [|by eapply IH].
  by rewrite <- word_char_lower, Hx, word_char_lower.
Qed.

Lemma is_word_dec w : forallb is_word_char w = true → is_word w.
Proof. intros H. apply Forall_forall. intros x Hx%list_elem_of_In. by eapply forallb_forall in H. Qed.

Lemma keyword_alpha kw w : is_keyword kw w → isalpha (cur kw) = true → isalpha (cur w) = true.
Proof.
  unfold is_keyword. destruct kw as [|k kw], w as [|x w]; try done. rewrite !fmap_cons.
  intros [= Hx _] Hk. simpl in *. revert Hx Hk. unfold tolower, isalpha. rewrite !bool_decide_eq_true.
  assert (∀ c, (65 ≤ code c ≤ 90)%Z → code (ascii_of_N (N_of_ascii c + 32)) = (code c + 32)%Z) as Hcode.
  { intros c Hc. unfold code in *. rewrite N_ascii_embedding by lia. lia. }
  case_decide as H1; case_decide as H2; intros Heq Hk; apply (f_equal code) in Heq; rewrite ?Hcode in Heq by done; lia.
Qed.

Lemma keyword_ident kw w :
  is_keyword kw w → is_word kw → isalpha (cur kw) = true → is_ident w.
Proof. intros Hw Hkw Ha. split; [by eapply keyword_word|left; by eapply keyword_alpha]. Qed.

Lemma blank_boundary s c : blank s → boundary (s ++ c).
Proof.
  intros [Hs Hne]. destruct s as [|x s]; [done|]. apply Forall_cons in Hs as [Hx _]. unfold boundary. simpl.
  destruct (is_word_char x) eqn:Hw; [|done]. apply word_not_space in Hw. congruence.
Qed.

Lemma word_cur w c : w ≠ [] → is_word w → is_word_char (cur (w ++ c)) = true.
Proof. destruct w; [done|]. intros _ [? _]%Forall_cons. done. Qed.

(** Between two words there is a space. *)
Lemma boundary_blank s w c : spaces s → w ≠ [] → is_word w → boundary (s ++ w ++ c) → blank s.
Proof.
  intros Hs Hne Hw Hb. split; [done|]. intros ->. simpl in Hb. unfold boundary in Hb.
  by rewrite word_cur in Hb.
Qed.

Lemma keyword_not_nil kw w : is_keyword kw w → kw ≠ [] → w ≠ [].
Proof. intros Hw Hk ->. by destruct kw. Qed.

Lemma boundary_keyword s kw w c :
  spaces s → is_keyword kw w → forallb is_word_char kw = true → kw ≠ [] → boundary (s ++ w ++ c) → blank s.
Proof.
  intros Hs Hw Hkw Hne. apply boundary_blank; [done|by eapply keyword_not_nil|].
  by eapply keyword_word, is_word_dec.
Qed.

Lemma keyword_is_word kw w :
  is_keyword kw w → forallb is_word_char kw = true → kw ≠ [] → w ≠ [] ∧ is_word w.
Proof. intros Hw Hkw Hne. split; [by eapply keyword_not_nil|by eapply keyword_word, is_word_dec]. Qed.

Lemma word_skip w c : w ≠ [] → is_word w → skip_space (w ++ c) = w ++ c.
Proof. intros Hne Hw. apply skip_space_id, word_not_space. by apply word_cur. Qed.

(** A text that starts with one word does not match a keyword with another
    first letter. *)
Lemma keyword_clash kw kw' w c :
  is_keyword kw w → kw ≠ [] → kw' ≠ [] → tolower (cur kw) ≠ tolower (cur kw') →
  sql_match_keyword (w ++ c) kw' = (false, w ++ c).
Proof.
  intros Hw Hk Hk' Hne. unfold sql_match_keyword.
  destruct kw as [|k kw], kw' as [|k' kw'], w as [|x w]; try done.
  unfold is_keyword in Hw. rewrite !fmap_cons in Hw. injection Hw as Hx _. simpl in *.
  rewrite decide_False; [done|]. congruence.
Qed.

Ltac is_word_tac := apply is_word_dec; reflexivity.

(** ** The parser, step by step *)

Lemma syntax_error_parsed r c : parsed (sql_parse_set_syntax_error r c) = false.
Proof. done. Qed.

Lemma expect_inv r t k :
  parsed (expect r t k) = true → ∃ c, t = (true, c) ∧ expect r t k = k c ∧ parsed (k c) = true.
Proof. destruct t as [[] c]; simpl; [|done]. eauto. Qed.

Lemma expect_some_inv {A} r (t : option A * cstr) k :
  parsed (expect_some r t k) = true →
  ∃ x c, t = (Some x, c) ∧ expect_some r t k = k x c ∧ parsed (k x c) = true.
Proof. destruct t as [[x|] c]; simpl; [|done]. eauto. Qed.

Lemma strcaseeq_spec a b : strcaseeq a b = true ↔ is_keyword b a.
Proof. unfold strcaseeq, is_keyword. by rewrite bool_decide_eq_true. Qed.

(** Goes through one [expect] of the hypothesis [H]. *)
Ltac expect_step H :=
  let c := fresh "c" in let E := fresh "E" in let Hk := fresh "Hk" in
  first [apply expect_inv in H as (c & E & Hk & H); try rewrite Hk; clear Hk
        | let x := fresh "x" in apply expect_some_inv in H as (x & c & E & Hk & H); try rewrite Hk; clear Hk].

Definition insert_result (tbl name : cstr) (v : Z) (r : SQLParseResult) : SQLParseResult :=
  accept SQL_COMMAND_INSERT SQL_STATUS_OK
    (on_command (with_table_name tbl) (on_command (with_int_value v) (on_command (with_cmd_name name) r))).

Lemma skip_match_keyword s kw c :
  sql_match_keyword (skip_space s) kw = (true, c) →
  ∃ sp w, s = sp ++ w ++ c ∧ spaces sp ∧ is_keyword kw w ∧ boundary c.
Proof.
  intros (w & Hs & Hw & Hc)%match_keyword_spec. destruct (skip_space_split s) as (sp & -> & Hsp).
  rewrite Hs. eauto 10.
Qed.

Lemma parse_insert_inv s r :
  parsed r = false → parsed (sql_parse_insert s r) = true →
  ∃ tbl name z, insert_text s tbl name z ∧ sql_parse_insert s r = insert_result tbl name (int_of z) r.
Proof.
  intros Hr. unfold sql_parse_insert, sql_skip_spaces.
  destruct (sql_match_keyword s (lit "INSERT")) as [[] c1] eqn:E1; cbn [negb]; [|congruence].
  intros H. expect_step H. expect_step H.
  destruct (strcaseeq x users) eqn:Etbl; cbn [negb] in *; [|done].
  do 7 expect_step H.
  apply match_keyword_spec in E1 as (w1 & -> & Hw1 & Hb1).
  apply skip_match_keyword in E as (s1 & w2 & -> & Hs1 & Hw2 & Hb2).
  apply parse_identifier_spec in E0 as (s2 & -> & Hs2 & Htbl & Hb3 & Hlen); [|unfold IDENTIFIER_SIZE; lia].
  apply strcaseeq_spec in Etbl.
  apply skip_match_keyword in E2 as (s3 & w3 & -> & Hs3 & Hw3 & Hb4).
  apply match_char_spec in E3 as (s4 & -> & Hs4); [|done].
  apply parse_string_spec in E4 as (s5 & -> & Hs5 & Hname & Hnlen); [|unfold RECORD_NAME_SIZE; lia].
  apply match_char_spec in E5 as (s6 & -> & Hs6); [|done].
  apply parse_int_spec in E6 as (s7 & num & z & -> & Hs7 & Hnum & Hdig & ->).
  apply match_char_spec in E7 as (s8 & -> & Hs8); [|done].
  assert (statement_end c7) as Hend by (apply match_end_spec; by rewrite E8).
  exists x, x0, z. split; [|done]. split; [|done|done|done].
  exists w1, s1, w2, s2, s3, w3, s4, s5, s6, s7, num, s8, c7. split_and!; try done.
  - by eapply (boundary_keyword _ (lit "INTO") w2); [..|exact Hb1].
  - by eapply (boundary_keyword _ users x); [..|exact Hb2].
  - by eapply (boundary_keyword _ (lit "VALUES") w3); [..|exact Hb3].
Qed.

(** The expected token is there. *)
Lemma skip_match_keyword_ok s w kw c :
  spaces s → is_keyword kw w → forallb is_word_char kw = true → kw ≠ [] → boundary c →
  sql_match_keyword (skip_space (s ++ w ++ c)) kw = (true, c).
Proof.
  intros Hs Hw Hkw Hne Hc. rewrite skip_spaces_app by done. rewrite word_skip.
  - apply match_keyword_spec. eauto.
  - by eapply keyword_not_nil.
  - by eapply keyword_word, is_word_dec.
Qed.

Lemma match_keyword_ok w kw c : is_keyword kw w → boundary c → sql_match_keyword (w ++ c) kw = (true, c).
Proof. intros Hw Hc. apply match_keyword_spec. eauto. Qed.

Lemma match_char_ok s e c : isspace e = false → spaces s → sql_match_char (s ++ (e :: c)) e = (true, c).
Proof. intros He Hs. apply match_char_spec; eauto. Qed.

Lemma match_char_here e c : isspace e = false → sql_match_char (e :: c) e = (true, c).
Proof. intros He. apply (match_char_ok [] e c He). constructor. Qed.

Lemma parse_identifier_ok s b c n :
  spaces s → is_ident b → boundary c → length b < n → sql_parse_identifier (s ++ b ++ c) n = (Some b, c).
Proof. intros Hs Hb Hc Hl. apply parse_identifier_spec; [lia|eauto 10]. Qed.

Lemma parse_string_ok s b c n :
  spaces s → quote ∉ b → length b < n → sql_parse_string (s ++ (quote :: b ++ (quote :: c))) n = (Some b, c).
Proof. intros Hs Hb Hl. apply parse_string_spec; [lia|eauto 10]. Qed.

Lemma parse_int_ok s d z c :
  spaces s → is_numeral d z → isdigit (cur c) = false → sql_parse_int (s ++ d ++ c) = (Some (int_of z), c).
Proof. intros Hs Hd Hc. apply parse_int_spec. eauto 10. Qed.

Lemma match_end_ok s : statement_end s → ∃ c, sql_match_statement_end s = (true, c).
Proof. intros H%match_end_spec. destruct (sql_match_statement_end s) as [b c]. simpl in H. subst. eauto. Qed.

Lemma not_digit_spaces s x c : spaces s → isdigit x = false → isdigit (cur (s ++ (x :: c))) = false.
Proof.
  intros Hs Hx. destruct s as [|y s]; [done|]. apply Forall_cons in Hs as [Hy _]. simpl.
  destruct (isdigit y) eqn:Hd; [|done]. apply digit_not_space in Hd. congruence.
Qed.

Lemma boundary_char x s c : is_word_char x = false → spaces s → boundary (s ++ (x :: c)).
Proof.
  intros Hx Hs. destruct s as [|y s]; [done|]. apply Forall_cons in Hs as [Hy _]. unfold boundary. simpl.
  destruct (is_word_char y) eqn:Hw; [|done]. apply word_not_space in Hw. congruence.
Qed.

Lemma users_length tbl : is_keyword users tbl → length tbl < IDENTIFIER_SIZE.
Proof. intros ->%keyword_length. vm_compute. lia. Qed.

Lemma strcaseeq_users tbl : is_keyword users tbl → strcaseeq tbl users = true.
Proof. apply strcaseeq_spec. Qed.

Lemma parse_insert_ok s tbl name z r :
  insert_text s tbl name z → sql_parse_insert s r = insert_result tbl name (int_of z) r.
Proof.
  intros [(w1 & s1 & w2 & s2 & s3 & w3 & s4 & s5 & s6 & s7 & num & s8 & rest & -> & Hw1 & Hs1 & Hw2 & Hs2 &
          Hs3 & Hw3 & Hs4 & Hs5 & Hs6 & Hs7 & Hs8 & Hnum & Hrest) Htbl Hname Hlen].
  unfold sql_parse_insert, sql_skip_spaces.
  rewrite (match_keyword_ok w1) by (done || by apply blank_boundary). cbn [negb].
  rewrite (skip_match_keyword_ok s1 w2) by (done || apply Hs1 || by apply blank_boundary).
  cbn [expect negb]. rewrite (parse_identifier_ok s2 tbl) by
    (apply Hs2 || (by apply (keyword_ident users); [|is_word_tac|]) || (by apply blank_boundary)
     || (by apply users_length)).
  cbn [expect_some]. rewrite strcaseeq_users by done. cbn [negb].
  rewrite (skip_match_keyword_ok s3 w3) by (done || apply Hs3 || by apply boundary_char).
  cbn [expect negb]. rewrite match_char_ok by done. cbn [expect negb].
  rewrite parse_string_ok by done. cbn [expect_some].
  rewrite match_char_ok by done. cbn [expect negb].
  rewrite (parse_int_ok s7 num z) by (done || by apply not_digit_spaces). cbn [expect_some].
  rewrite match_char_ok by done. cbn [expect negb].
  destruct (match_end_ok _ Hrest) as [c ->]. done.
Qed.

(** ** SELECT *)

(** A semicolon among spaces, or spaces only: what the parser drops before
    [WHERE]. *)
Definition where_gap (s : cstr) : Prop := spaces s ∨ ∃ a b, s = a ++ (";"%char :: b) ∧ spaces a ∧ spaces b.

Lemma match_end_no s c : sql_match_statement_end s = (false, c) → ∃ g, s = g ++ c ∧ where_gap g.
Proof.
  unfold sql_match_statement_end, sql_skip_spaces, where_gap.
  destruct (skip_space_split s) as (sp & Hs & Hsp). destruct (skip_space s) as [|x t] eqn:Hsk; [done|].
  case_decide as Hx.
  - destruct (skip_space_split t) as (sp' & Ht & Hsp'). intros [= _ <-]. subst x.
    exists (sp ++ (";"%char :: sp')). split; [|eauto 10]. rewrite <- (assoc_L (++)). simpl. by rewrite <- Ht.
  - assert (skip_space (x :: t) = x :: t) as ->.
    { apply skip_space_id. change x with (cur (x :: t)). rewrite <- Hsk. apply skip_space_cur. }
    intros [= <-]. eauto.
Qed.

Lemma match_end_word g w c :
  where_gap g → w ≠ [] → is_word w → sql_match_statement_end (g ++ w ++ c) = (false, w ++ c).
Proof.
  intros Hg Hne Hw. unfold sql_match_statement_end, sql_skip_spaces.
  pose proof (word_skip w c Hne Hw) as Hsk.
  destruct Hg as [Hg|(a & b & -> & Ha & Hb)].
  - rewrite skip_spaces_app, Hsk by done. destruct w as [|x w]; [done|]. simpl app in *. cbv iota.
    rewrite decide_False; [by rewrite Hsk|]. apply Forall_cons in Hw as [Hx _]. intros ->. by vm_compute in Hx.
  - rewrite <- (assoc_L (++)). rewrite skip_spaces_app by done. simpl app.
    rewrite (skip_space_id (";"%char :: _)) by done. cbv iota.
    rewrite decide_True by done. rewrite skip_spaces_app, Hsk by done. destruct w; [done|]. done.
Qed.

Lemma spaces_not_ident s w c : spaces s → w ≠ [] → is_word w → ¬ statement_end (s ++ w ++ c).
Proof.
  intros Hs Hne Hw H%match_end_spec. rewrite match_end_word in H by (done || by left). done.
Qed.

Definition condition_type (c : condition) : SQLCommandType :=
  match c with
  | CondId _ _ => SQL_COMMAND_SELECT_BY_ID
  | CondName _ => SQL_COMMAND_SELECT_BY_NAME
  | CondAge _ _ => SQL_COMMAND_SELECT_BY_AGE
  end.
Definition with_condition (c : condition) : SQLCommand → SQLCommand :=
  match c with CondId _ v | CondAge _ v => with_int_value v | CondName t => with_text_value t end.

Definition select_result (tbl : cstr) (r : SQLParseResult) : SQLParseResult :=
  accept SQL_COMMAND_SELECT_ALL SQL_STATUS_OK (on_command (with_table_name tbl) r).
Definition where_result (tbl col : cstr) (c : condition) (r : SQLParseResult) : SQLParseResult :=
  accept (condition_type c) SQL_STATUS_OK
    (on_command (with_condition c)
       (on_command (with_where col)
          (on_command (with_table_name tbl) (on_command (with_comparison (cond_comparison c)) r)))).

(** The columns are told apart. *)
Lemma column_cases col c :
  is_keyword (cond_column c) col →
  strcaseeq col (lit "id") = bool_decide (cond_column c = lit "id") ∧
  strcaseeq col (lit "name") = bool_decide (cond_column c = lit "name") ∧
  strcaseeq col (lit "age") = bool_decide (cond_column c = lit "age").
Proof. unfold strcaseeq, is_keyword. by destruct c; intros ->. Qed.

Lemma column_word c : is_word (cond_column c) ∧ isalpha (cur (cond_column c)) = true ∧ cond_column c ≠ [].
Proof. destruct c; (split; [is_word_tac|done]). Qed.

Lemma column_length col c : is_keyword (cond_column c) col → length col < IDENTIFIER_SIZE.
Proof. intros ->%keyword_length. destruct c; vm_compute; lia. Qed.

Lemma parse_condition_ok col cc s c r :
  is_keyword (cond_column c) col → cond_value c s → comparison (command r) = cond_comparison c →
  sql_parse_condition col cc s r =
    accept (condition_type c) SQL_STATUS_OK (on_command (with_condition c) r).
Proof.
  intros Hcol Hv Hcmp. unfold sql_parse_condition.
  destruct (column_cases col c Hcol) as (-> & -> & ->). destruct c as [cmp v|t|cmp v]; cbn [cond_value] in Hv.
  - destruct Hv as (sp & num & z & rest & -> & Hsp & Hnum & -> & Hd & Hrest).
    rewrite (parse_int_ok sp num z) by done. cbn [expect_some].
    destruct (match_end_ok _ Hrest) as [c ->]. done.
  - destruct Hv as (sp & rest & -> & Hsp & Hq & Hl & Hrest). rewrite decide_False by (rewrite Hcmp; auto).
    rewrite parse_string_ok by done. cbn [expect_some]. destruct (match_end_ok _ Hrest) as [c ->]. done.
  - destruct Hv as (sp & num & z & rest & -> & Hsp & Hnum & -> & Hd & Hrest).
    rewrite (parse_int_ok sp num z) by done. cbn [expect_some].
    destruct (match_end_ok _ Hrest) as [c ->]. done.
Qed.

Lemma statement_end_digit s : statement_end s → isdigit (cur s) = false.
Proof.
  intros (a & b & Ha & Hb & [-> | ->]); [|by apply not_digit_spaces].
  destruct a as [|x a]; [done|]. apply Forall_cons in Ha as [Hx _]. simpl.
  destruct (isdigit x) eqn:Hd; [|done]. apply digit_not_space in Hd. congruence.
Qed.

Lemma parse_condition_inv col cc s r :
  parsed r = false → parsed (sql_parse_condition col cc s r) = true →
  ∃ c, is_keyword (cond_column c) col ∧ cond_value c s ∧ comparison (command r) = cond_comparison c.
Proof.
  intros Hr H. unfold sql_parse_condition in H.
  destruct (strcaseeq col (lit "id")) eqn:E1; [|destruct (strcaseeq col (lit "name")) eqn:E2;
    [case_decide as Hcmp; [done|]|destruct (strcaseeq col (lit "age")) eqn:E3; [|done]]];
    expect_step H; expect_step H.
  - apply strcaseeq_spec in E1. apply parse_int_spec in E as (sp & num & z & -> & Hsp & Hnum & Hd & ->).
    assert (statement_end c) as Hend by (apply match_end_spec; by rewrite E0).
    exists (CondId (comparison (command r)) (int_of z)). split_and!; [done| |done]. by exists sp, num, z, c.
  - apply strcaseeq_spec in E2. apply parse_string_spec in E as (sp & -> & Hsp & Hq & Hl); [|unfold RECORD_NAME_SIZE; lia].
    assert (statement_end c) as Hend by (apply match_end_spec; by rewrite E0).
    exists (CondName x). split_and!; [done|by exists sp, c|]. by destruct (decide (comparison (command r) = TABLE_COMPARISON_EQ)).
  - apply strcaseeq_spec in E3. apply parse_int_spec in E as (sp & num & z & -> & Hsp & Hnum & Hd & ->).
    assert (statement_end c) as Hend by (apply match_end_spec; by rewrite E0).
    exists (CondAge (comparison (command r)) (int_of z)). split_and!; [done| |done]. by exists sp, num, z, c.
Qed.

(** The tokens up to the table name. *)
Lemma select_head_ok s tbl rest r :
  select_head s tbl rest →
  sql_parse_select s r =
    (let '(at_end, cursor) := sql_match_statement_end (skip_space rest) in
     if (at_end : bool) then select_result tbl r
     else
       expect r (sql_match_keyword cursor (lit "WHERE")) (λ cursor,
       expect_some r (sql_parse_identifier cursor IDENTIFIER_SIZE) (λ column cursor,
       expect_some r (sql_parse_comparison cursor) (λ cmp cursor',
       sql_parse_condition column cursor cursor'
         (on_command (with_where column) (on_command (with_table_name tbl) (on_command (with_comparison cmp) r))))))).
Proof.
  intros (w1 & s1 & s2 & w2 & s3 & -> & Hw1 & Hs1 & Hs2 & Hw2 & Hs3 & Htbl & Hrest).
  unfold sql_parse_select, sql_skip_spaces.
  rewrite (match_keyword_ok w1) by (done || by apply boundary_char). cbn [negb].
  rewrite skip_spaces_app by done. rewrite (skip_space_id ("*"%char :: _)) by done.
  rewrite match_char_here by done. cbn [negb].
  rewrite (skip_match_keyword_ok s2 w2) by (done || by apply blank_boundary). cbn [expect negb].
  rewrite (parse_identifier_ok s3 tbl) by
    (apply Hs3 || (by apply (keyword_ident users); [|is_word_tac|]) || done || (by apply users_length)).
  cbn [expect_some]. rewrite strcaseeq_users by done. reflexivity.
Qed.

Lemma spaces_app a b : spaces a → spaces b → spaces (a ++ b).
Proof. apply Forall_app_2. Qed.

Lemma skip_statement_end s : statement_end (skip_space s) ↔ statement_end s.
Proof.
  destruct (skip_space_split s) as (sp & Hs & Hsp). rewrite <- !match_end_spec.
  unfold sql_match_statement_end, sql_skip_spaces. by rewrite (skip_space_id (skip_space s)) by apply skip_space_cur.
Qed.

Lemma skip_match_end s : sql_match_statement_end (skip_space s) = sql_match_statement_end s.
Proof. unfold sql_match_statement_end, sql_skip_spaces. by rewrite (skip_space_id (skip_space s)) by apply skip_space_cur. Qed.

Lemma parse_select_ok s tbl rest r :
  select_head s tbl rest → statement_end rest → sql_parse_select s r = select_result tbl r.
Proof.
  intros Hs Hend. rewrite (select_head_ok _ _ _ _ Hs), skip_match_end.
  by destruct (match_end_ok _ Hend) as [c ->].
Qed.

Lemma parse_comparison_ok s cmp c :
  spaces s → comparison_ends cmp c → sql_parse_comparison (s ++ comparison_text cmp ++ c) = (Some cmp, c).
Proof. intros Hs Hc. apply parse_comparison_spec. eauto. Qed.

Lemma comparison_boundary s cmp c : spaces s → boundary (s ++ comparison_text cmp ++ c).
Proof. intros Hs. destruct cmp; by apply boundary_char. Qed.

Lemma parse_where_ok s tbl rest col c r :
  select_head s tbl rest → where_text rest col c → sql_parse_select s r = where_result tbl col c r.
Proof.
  intros Hs (s1 & w & s2 & s3 & t & -> & Hgap & Hw & Hs2 & Hcol & Hs3 & Hcmp & Hv).
  destruct (column_word c) as (Hword & Halpha & Hne).
  rewrite (select_head_ok _ _ _ _ Hs), skip_match_end.
  rewrite match_end_word by
    (done || (by eapply (keyword_not_nil (lit "WHERE"))) || (by eapply (keyword_word (lit "WHERE")); [|is_word_tac])).
  rewrite (match_keyword_ok w) by (done || by apply blank_boundary). cbn [expect negb].
  rewrite (parse_identifier_ok s2 col) by
    (apply Hs2 || (by eapply keyword_ident) || (by apply comparison_boundary) || (by eapply column_length)).
  cbn [expect_some]. rewrite parse_comparison_ok by done. cbn [expect_some].
  by apply parse_condition_ok.
Qed.

Lemma parse_select_inv s r :
  parsed r = false → parsed (sql_parse_select s r) = true →
  ∃ tbl rest, select_head s tbl rest ∧ (statement_end rest ∨ ∃ col c, where_text rest col c).
Proof.
  intros Hr H. unfold sql_parse_select, sql_skip_spaces in H.
  destruct (sql_match_keyword s (lit "SELECT")) as [[] c1] eqn:E1; cbn [negb] in H; [|congruence].
  destruct (sql_match_char (skip_space c1) "*"%char) as [[] c2] eqn:E2; cbn [negb] in H; last first.
  { expect_step H. by destruct (negb (sql_is_known_column x)). }
  expect_step H. expect_step H. destruct (strcaseeq x users) eqn:Etbl; cbn [negb] in H; [|done].
  destruct (skip_space_split c1) as (s1 & Hc1 & Hs1).
  apply match_keyword_spec in E1 as (w1 & -> & Hw1 & Hb1).
  apply match_char_spec in E2 as (s1' & Hc1' & Hs1'); [|done]. rewrite Hc1' in Hc1.
  apply skip_match_keyword in E as (s2 & w2 & -> & Hs2 & Hw2 & Hb2).
  apply parse_identifier_spec in E0 as (s3 & -> & Hs3 & Htbl & Hb3 & Hlen); [|unfold IDENTIFIER_SIZE; lia].
  apply strcaseeq_spec in Etbl. exists x, c0. split.
  { exists w1, (s1 ++ s1'), s2, w2, s3. rewrite Hc1, <- !(assoc_L (++)). split_and!; try done.
    - by apply spaces_app.
    - by eapply (boundary_keyword _ users x); [..|exact Hb2]. }
  rewrite skip_match_end in H. destruct (sql_match_statement_end c0) as [[] c3] eqn:E3.
  { left. apply match_end_spec. by rewrite E3. }
  right. do 3 expect_step H. apply match_end_no in E3 as (g & -> & Hg).
  apply match_keyword_spec in E as (w & -> & Hw & Hb4).
  apply parse_identifier_spec in E0 as (s4 & -> & Hs4 & Hcol & Hb5 & Hlen2); [|unfold IDENTIFIER_SIZE; lia].
  apply parse_comparison_spec in E1 as (s5 & -> & Hs5 & Hends).
  apply parse_condition_inv in H as (cnd & Hcnd & Hv & Hcmp); [|done].
  change (x1 = cond_comparison cnd) in Hcmp. subst x1. exists x0, cnd.
  destruct (column_word cnd) as (Hword & _ & Hne).
  exists g, w, s4, s5, c4. split_and!; try done.
  eapply (boundary_blank s4 x0); [done|by eapply keyword_not_nil|by eapply keyword_word|exact Hb4].
Qed.

(** ** Statements *)

Lemma statement_end_boundary s : statement_end s → boundary s.
Proof.
  intros (a & b & Ha & Hb & [-> | ->]); [|by apply boundary_char].
  destruct a as [|x a]; [done|]. rewrite <- (app_nil_r (x :: a)). by apply blank_boundary.
Qed.

(** The statements and what each is parsed to. *)
Inductive statement (s : cstr) : SQLParseResult → Prop :=
  | St_exit sp w rest :
      s = sp ++ w ++ rest → spaces sp → is_keyword (lit "EXIT") w ∨ is_keyword (lit "QUIT") w →
      statement_end rest → statement s (accept SQL_COMMAND_EXIT SQL_STATUS_EXIT sql_parse_result_init)
  | St_insert tbl name z :
      insert_text s tbl name z → statement s (insert_result tbl name (int_of z) sql_parse_result_init)
  | St_select tbl rest :
      select_head s tbl rest → statement_end rest → statement s (select_result tbl sql_parse_result_init)
  | St_where tbl rest col c :
      select_head s tbl rest → where_text rest col c →
      statement s (where_result tbl col c sql_parse_result_init).

Definition match_exit (cursor : cstr) : bool * cstr :=
  let '(ok, cursor) := sql_match_keyword cursor (lit "EXIT") in
  if (ok : bool) then (true, cursor) else sql_match_keyword cursor (lit "QUIT").

Lemma match_exit_spec s c :
  match_exit s = (true, c) ↔
    ∃ w, s = w ++ c ∧ (is_keyword (lit "EXIT") w ∨ is_keyword (lit "QUIT") w) ∧ boundary c.
Proof.
  unfold match_exit. split.
  - destruct (sql_match_keyword s (lit "EXIT")) as [[] c1] eqn:E.
    + intros [= ->]. apply match_keyword_spec in E as (w & ? & ? & ?). eauto.
    + apply match_keyword_fail in E as ->. intros (w & ? & ? & ?)%match_keyword_spec. eauto.
  - intros (w & -> & [Hw|Hw] & Hc).
    + by rewrite (match_keyword_ok w (lit "EXIT")).
    + rewrite (keyword_clash (lit "QUIT")) by done. by apply match_keyword_ok.
Qed.

Lemma insert_text_word s tbl name z : insert_text s tbl name z → ∃ w c, s = w ++ c ∧ is_keyword (lit "INSERT") w.
Proof. intros [(w & s1 & ? & ? & ? & ? & ? & ? & ? & ? & ? & ? & ? & -> & ? & _) _ _ _]. eauto. Qed.

Lemma select_head_word s tbl rest : select_head s tbl rest → ∃ w c, s = w ++ c ∧ is_keyword (lit "SELECT") w.
Proof. intros (w & s1 & ? & ? & ? & -> & ? & _). eauto. Qed.

Lemma match_exit_word kw w c :
  is_keyword kw w → kw ≠ [] → tolower (cur kw) ≠ "e"%char → tolower (cur kw) ≠ "q"%char →
  match_exit (w ++ c) = (false, w ++ c).
Proof.
  intros Hw Hk He Hq. unfold match_exit.
  rewrite (keyword_clash kw (lit "EXIT")) by done. by rewrite (keyword_clash kw (lit "QUIT")) by done.
Qed.

Lemma sql_parse_unfold s :
  sql_parse (Some s) =
    (let '(is_exit, cursor) := match_exit (skip_space s) in
     if (is_exit : bool) then
       expect sql_parse_result_init (sql_match_statement_end cursor)
         (λ _, accept SQL_COMMAND_EXIT SQL_STATUS_EXIT sql_parse_result_init)
     else
       let r := sql_parse_insert s sql_parse_result_init in
       if parsed r || bool_decide (p_error_message r ≠ []) then r
       else
         let r := sql_parse_select s r in
         if parsed r || bool_decide (p_error_message r ≠ []) then r
         else sql_parse_set_syntax_error r cursor).
Proof. reflexivity. Qed.

Lemma insert_no_keyword s r :
  (sql_match_keyword s (lit "INSERT")).1 = false → sql_parse_insert s r = r.
Proof. unfold sql_parse_insert. by destruct (sql_match_keyword s (lit "INSERT")) as [[] ?]. Qed.

Lemma select_not_insert s tbl rest : select_head s tbl rest → (sql_match_keyword s (lit "INSERT")).1 = false.
Proof. intros (w & c & -> & Hw)%select_head_word. by rewrite (keyword_clash (lit "SELECT")). Qed.

Lemma statement_parsed s res : statement s res → sql_parse (Some s) = res ∧ parsed res = true.
Proof.
  intros H. split; [|by destruct H]. rewrite sql_parse_unfold.
  destruct H as [sp w rest -> Hsp Hw Hend|tbl name z Hi|tbl rest Hs Hend|tbl rest col c Hs Hwh].
  - rewrite skip_spaces_app by done.
    assert (w ≠ [] ∧ is_word w) as [Hne Hword].
    { destruct Hw as [Hw|Hw]; by eapply keyword_is_word. }
    rewrite word_skip by done. assert (match_exit (w ++ rest) = (true, rest)) as ->.
    { apply match_exit_spec. exists w. split_and!; [done|done|]. by apply statement_end_boundary. }
    by destruct (match_end_ok _ Hend) as [c ->].
  - destruct (insert_text_word _ _ _ _ Hi) as (w & c & Hwc & Hw). rewrite Hwc at 1.
    rewrite word_skip by (by eapply (keyword_is_word (lit "INSERT"))).
    rewrite (match_exit_word (lit "INSERT")) by done. by rewrite (parse_insert_ok _ _ _ _ _ Hi).
  - destruct (select_head_word _ _ _ Hs) as (w & c & Hwc & Hw). rewrite Hwc at 1.
    rewrite word_skip by (by eapply (keyword_is_word (lit "SELECT"))).
    rewrite (match_exit_word (lit "SELECT")) by done.
    rewrite insert_no_keyword by by eapply select_not_insert. cbn.
    by rewrite (parse_select_ok _ _ _ _ Hs Hend).
  - destruct (select_head_word _ _ _ Hs) as (w & c' & Hwc & Hw). rewrite Hwc at 1.
    rewrite word_skip by (by eapply (keyword_is_word (lit "SELECT"))).
    rewrite (match_exit_word (lit "SELECT")) by done.
    rewrite insert_no_keyword by by eapply select_not_insert. cbn.
    by rewrite (parse_where_ok _ _ _ _ _ _ Hs Hwh).
Qed.

Lemma parsed_statement s : parsed (sql_parse (Some s)) = true → statement s (sql_parse (Some s)).
Proof.
  intros H. assert (∃ res, statement s res) as [res Hres].
  2: { destruct (statement_parsed s res Hres) as [-> _]. done. }
  rewrite sql_parse_unfold in H.
  destruct (match_exit (skip_space s)) as [[] cursor] eqn:E.
  { apply match_exit_spec in E as (w & Hw & Hkw & Hb). destruct (skip_space_split s) as (sp & Hs & Hsp).
    rewrite Hw in Hs. apply expect_inv in H as (c & Hend & _ & _).
    eexists. eapply St_exit; [exact Hs|done|done|]. apply match_end_spec. by rewrite Hend. }
  cbv zeta in H. destruct (parsed (sql_parse_insert s sql_parse_result_init)) eqn:E1.
  { destruct (parse_insert_inv s sql_parse_result_init eq_refl E1) as (tbl & name & z & Hi & _).
    eexists. by eapply St_insert. }
  cbn [orb] in H. case_bool_decide; [congruence|].
  destruct (parsed (sql_parse_select s (sql_parse_insert s sql_parse_result_init))) eqn:E2.
  { destruct (parse_select_inv s _ E1 E2) as (tbl & rest & Hs & [Hend|(col & c & Hwh)]).
    - eexists. by eapply St_select.
    - eexists. by eapply St_where. }
  cbn [orb] in H. by case_bool_decide; [congruence|].
Qed.

Lemma statement_iff s res : sql_parse (Some s) = res ∧ parsed res = true ↔ statement s res.
Proof.
  split; [|apply statement_parsed]. intros [<- H]. by apply parsed_statement.
Qed.
