(* ===== verification/SqlErrors.v ===== *)
(** What [sql_parse] does with a text that is no statement: one of two error
    reports, whose messages always fit their buffers; the agreement of the two
    functions that choose a lock; printed statements are read back. *)
From stdpp Require Import base list strings.
From Stdlib Require Import Ascii ZArith Lia.
From S2P Require Import Prelude Memory CLib CLibProofs BPTree Table Sql SqlLex SqlGrammar.

(** ** Error reports *)

(** The fields of a failed parse. *)
Inductive refused (r : SQLParseResult) : Prop :=
  | Refused_syntax near :
      length near < 64 → parsed r = false → cmd_type (command r) = SQL_COMMAND_NONE →
      p_status r = SQL_STATUS_SYNTAX_ERROR → p_error_code r = 1064%Z → p_sql_state r = lit "42000" →
      p_error_message r = syntax_message near → refused r
  | Refused_column column clause :
      is_ident column → length column < IDENTIFIER_SIZE →
      clause = lit "field list" ∨ clause = lit "where clause" →
      parsed r = false → cmd_type (command r) = SQL_COMMAND_NONE →
      p_status r = SQL_STATUS_QUERY_ERROR → p_error_code r = 1054%Z → p_sql_state r = lit "42S22" →
      p_error_message r = unknown_column_message column clause → refused r.

Lemma snprintf_id n s : length s < n → snprintf n s = s.
Proof. intros H. unfold snprintf. apply take_ge. lia. Qed.

Lemma snprintf_length n s : 0 < n → length (snprintf n s) < n.
Proof. intros H. unfold snprintf. rewrite length_take. lia. Qed.

Lemma excerpt_copy_length cursor : ∀ buffer n, length buffer < n → length (excerpt_copy cursor buffer n) < n.
Proof.
  induction cursor as [|c cursor IH]; intros buffer n H; simpl; [done|].
  case_decide as Hc; [|done]. apply IH. rewrite length_app. simpl. lia.
Qed.

Lemma trim_right_length s : length (trim_right s) ≤ length s.
Proof.
  induction s as [|c s IH]; simpl; [lia|]. destruct (trim_right s); [destruct (isspace c)|]; simpl in *; lia.
Qed.

Lemma near_length cursor n : 0 < n → length (sql_build_near_excerpt cursor n) < n.
Proof.
  intros Hn. unfold sql_build_near_excerpt. destruct (sql_skip_spaces cursor) as [|c t]; [by apply snprintf_length|].
  pose proof (trim_right_length (excerpt_copy (c :: t) [] n)).
  pose proof (excerpt_copy_length (c :: t) [] n Hn).
  destruct (trim_right (excerpt_copy (c :: t) [] n)); [by apply snprintf_length|]. lia.
Qed.

Lemma syntax_message_length near : length near < 64 → length (syntax_message near) < SQL_ERROR_MESSAGE_SIZE.
Proof.
  intros H. unfold syntax_message. rewrite !length_app. unfold SQL_ERROR_MESSAGE_SIZE.
  change (length (lit "' at line 1")) with 11.
  match goal with |- context [length (lit ?s)] => let n := eval vm_compute in (length (lit s)) in
    change (length (lit s)) with n end. lia.
Qed.

Lemma column_message_length col clause :
  length col < IDENTIFIER_SIZE → clause = lit "field list" ∨ clause = lit "where clause" →
  length (unknown_column_message col clause) < SQL_ERROR_MESSAGE_SIZE.
Proof.
  intros H Hc. unfold unknown_column_message. rewrite !length_app. unfold IDENTIFIER_SIZE, SQL_ERROR_MESSAGE_SIZE in *.
  assert (length clause ≤ 12) by (destruct Hc as [-> | ->]; vm_compute; lia).
  change (length (lit "ERROR 1054 (42S22): Unknown column '")) with 36.
  change (length (lit "' in '")) with 6. change (length (lit "'")) with 1. lia.
Qed.

Lemma syntax_error_refused r cursor : refused (sql_parse_set_syntax_error r cursor).
Proof.
  pose proof (near_length cursor 64 ltac:(lia)) as Hn.
  eapply (Refused_syntax _ (sql_build_near_excerpt cursor 64)); try done.
  unfold sql_parse_set_syntax_error, with_error_message. simpl p_error_message.
  by rewrite snprintf_id by by apply syntax_message_length.
Qed.

Lemma unknown_column_refused r col clause :
  is_ident col → length col < IDENTIFIER_SIZE → clause = lit "field list" ∨ clause = lit "where clause" →
  refused (sql_parse_set_unknown_column_error r col clause).
Proof.
  intros Hi Hl Hc. eapply (Refused_column _ col clause); try done.
  unfold sql_parse_set_unknown_column_error, with_error_message. simpl p_error_message.
  by rewrite snprintf_id by by apply column_message_length.
Qed.

Lemma refused_message r : refused r → p_error_message r ≠ [] ∧ length (p_error_message r) < SQL_ERROR_MESSAGE_SIZE.
Proof.
  intros [near Hn _ _ _ _ _ ->|col clause _ Hl Hc _ _ _ _ _ ->].
  - split; [done|by apply syntax_message_length].
  - split; [done|by apply column_message_length].
Qed.

Definition settled (r : SQLParseResult) : Prop := parsed r = true ∨ refused r.

Lemma expect_settled r t k : (∀ c, t = (true, c) → settled (k c)) → settled (expect r t k).
Proof. destruct t as [[] c]; simpl; [auto|]. intros _. right. apply syntax_error_refused. Qed.

Lemma expect_some_settled {A} r (t : option A * cstr) k :
  (∀ x c, t = (Some x, c) → settled (k x c)) → settled (expect_some r t k).
Proof. destruct t as [[x|] c]; simpl; [auto|]. intros _. right. apply syntax_error_refused. Qed.

Ltac settled_step :=
  first [apply expect_settled; intros ? ?
        | apply expect_some_settled; intros ? ? ?
        | right; apply syntax_error_refused
        | by left].

Lemma insert_settled s r :
  (sql_match_keyword s (lit "INSERT")).1 = true → settled (sql_parse_insert s r).
Proof.
  intros H. unfold sql_parse_insert. destruct (sql_match_keyword s (lit "INSERT")) as [[] c]; [|done].
  cbn [negb]. do 2 settled_step. destruct (strcaseeq x users); cbn [negb]; repeat settled_step.
Qed.

Lemma parsed_identifier s b c :
  sql_parse_identifier s IDENTIFIER_SIZE = (Some b, c) → is_ident b ∧ length b < IDENTIFIER_SIZE.
Proof. intros (sp & _ & _ & ? & _ & ?)%parse_identifier_spec; [done|]. unfold IDENTIFIER_SIZE. lia. Qed.

Lemma condition_settled col cc s r :
  is_ident col → length col < IDENTIFIER_SIZE → settled (sql_parse_condition col cc s r).
Proof.
  intros Hi Hl. unfold sql_parse_condition.
  destruct (strcaseeq col (lit "id")); [by repeat settled_step|].
  destruct (strcaseeq col (lit "name")); [case_decide; by repeat settled_step|].
  destruct (strcaseeq col (lit "age")); [by repeat settled_step|].
  right. apply unknown_column_refused; auto.
Qed.

Lemma select_settled s r :
  (sql_match_keyword s (lit "SELECT")).1 = true → settled (sql_parse_select s r).
Proof.
  intros H. unfold sql_parse_select. destruct (sql_match_keyword s (lit "SELECT")) as [[] c]; [|done]. cbn [negb].
  destruct (sql_match_char (sql_skip_spaces c) "*"%char) as [[] c1]; cbn [negb]; last first.
  { settled_step. apply parsed_identifier in H0 as [Hi Hl]. destruct (sql_is_known_column x); cbn [negb]; [settled_step|].
    right. apply unknown_column_refused; auto. }
  do 2 settled_step. destruct (strcaseeq x users); cbn [negb]; [|settled_step].
  destruct (sql_match_statement_end (sql_skip_spaces c2)) as [[] c3]; [by left|].
  settled_step. apply expect_some_settled. intros col c5 [Hi Hl]%parsed_identifier.
  settled_step. by apply condition_settled.
Qed.

Lemma select_no_keyword s r : (sql_match_keyword s (lit "SELECT")).1 = false → sql_parse_select s r = r.
Proof. unfold sql_parse_select. by destruct (sql_match_keyword s (lit "SELECT")) as [[] ?]. Qed.

Lemma settled_returned r : settled r → parsed r || bool_decide (p_error_message r ≠ []) = true.
Proof.
  intros [-> |H]; [done|]. apply refused_message in H as [Hm _]. by rewrite bool_decide_eq_true_2, orb_true_r.
Qed.

(** Every text is a statement or refused with one of the two reports. *)
Lemma parse_settled s : settled (sql_parse (Some s)).
Proof.
  rewrite sql_parse_unfold. destruct (match_exit (skip_space s)) as [[] cursor]; [by settled_step; left|].
  destruct (sql_match_keyword s (lit "INSERT")).1 eqn:E1.
  - pose proof (insert_settled s sql_parse_result_init E1) as Hi. cbv zeta. by rewrite settled_returned.
  - cbv zeta. rewrite (insert_no_keyword _ _ E1). cbn [parsed sql_parse_result_init p_error_message orb].
    rewrite bool_decide_eq_false_2 by auto.
    destruct (sql_match_keyword s (lit "SELECT")).1 eqn:E2.
    + pose proof (select_settled s sql_parse_result_init E2) as Hi. by rewrite settled_returned.
    + rewrite (select_no_keyword _ _ E2). cbn [parsed sql_parse_result_init p_error_message orb].
      rewrite bool_decide_eq_false_2 by auto. settled_step.
Qed.

(** ** Locks *)

(** The lock chosen from the text is the lock the parsed command needs. *)
Lemma statement_lock s res :
  statement s res → sql_determine_lock_mode (Some s) = sql_command_lock_mode (Some (command res)).
Proof.
  intros H. unfold sql_determine_lock_mode, sql_skip_spaces.
  destruct H as [sp w rest -> Hsp Hw Hend|tbl name z Hi|tbl rest Hs Hend|tbl rest col c Hs Hwh].
  - rewrite skip_spaces_app by done.
    assert (w ≠ [] ∧ is_word w) as [Hne Hword].
    { destruct Hw as [Hw|Hw]; by eapply keyword_is_word. }
    rewrite word_skip by done. by destruct Hw as [Hw|Hw]; rewrite !(keyword_clash _ _ _ _ Hw) by done.
  - destruct Hi as [(w & s1 & ? & ? & ? & ? & ? & ? & ? & ? & ? & ? & ? & -> & Hw & Hs1 & _) _ _ _].
    rewrite word_skip by (by eapply (keyword_is_word (lit "INSERT"))).
    rewrite (keyword_clash (lit "INSERT")) by done. by rewrite match_keyword_ok by (done || by apply blank_boundary).
  - destruct Hs as (w & s1 & ? & ? & ? & -> & Hw & Hs1 & _).
    rewrite word_skip by (by eapply (keyword_is_word (lit "SELECT"))).
    by rewrite match_keyword_ok by (done || by apply boundary_char).
  - destruct Hs as (w & s1 & ? & ? & ? & -> & Hw & Hs1 & _).
    rewrite word_skip by (by eapply (keyword_is_word (lit "SELECT"))).
    rewrite match_keyword_ok by (done || by apply boundary_char). by destruct c.
Qed.

(** ** Round trip *)

Lemma print_dec_int z : is_int z → is_numeral (print_dec z) z.
Proof. unfold is_int, INT_MIN, INT_MAX. intros H. apply print_dec_numeral. lia. Qed.

(** A command, printed as a client would write it. *)
Inductive query := QInsert (name : cstr) (age : Z) | QAll | QWhere (c : condition) | QExit.

Definition print_value (c : condition) : cstr :=
  match c with
  | CondId _ v | CondAge _ v => print_dec v
  | CondName t => quote :: (t ++ [quote])
  end.
Definition print_query (q : query) : cstr :=
  match q with
  | QInsert name age => lit "INSERT INTO users VALUES ('" ++ name ++ lit "', " ++ print_dec age ++ lit ");"
  | QAll => lit "SELECT * FROM users;"
  | QWhere c =>
      lit "SELECT * FROM users WHERE " ++ cond_column c ++ lit " " ++ comparison_text (cond_comparison c)
      ++ lit " " ++ print_value c ++ lit ";"
  | QExit => lit "EXIT;"
  end.

Definition text_ok (t : cstr) : Prop := (quote ∉ t) ∧ length t < RECORD_NAME_SIZE.
Definition query_ok (q : query) : Prop :=
  match q with
  | QInsert name age => text_ok name ∧ is_int age
  | QWhere (CondId _ v) | QWhere (CondAge _ v) => is_int v
  | QWhere (CondName t) => text_ok t
  | QAll | QExit => True
  end.
Definition query_result (q : query) : SQLParseResult :=
  match q with
  | QInsert name age => insert_result users name age sql_parse_result_init
  | QAll => select_result users sql_parse_result_init
  | QWhere c => where_result users (cond_column c) c sql_parse_result_init
  | QExit => accept SQL_COMMAND_EXIT SQL_STATUS_EXIT sql_parse_result_init
  end.

Lemma space_spaces : spaces (lit " ").
Proof. by repeat constructor. Qed.
Lemma space_blank : blank (lit " ").
Proof. split; [apply space_spaces|done]. Qed.
Lemma semicolon_end : statement_end (lit ";").
Proof. exists [], []. split_and!; [constructor|constructor|by right]. Qed.

Lemma select_head_text rest : boundary rest → select_head (lit "SELECT * FROM users" ++ rest) users rest.
Proof.
  intros Hr. exists (lit "SELECT"), (lit " "), (lit " "), (lit "FROM"), (lit " ").
  split_and!; try done; try apply space_spaces. apply space_blank.
Qed.

Lemma print_value_ok c : query_ok (QWhere c) → cond_value c (lit " " ++ print_value c ++ lit ";").
Proof.
  assert (∀ v, is_int v → ∃ sp num z rest, lit " " ++ print_dec v ++ lit ";" = sp ++ num ++ rest ∧ spaces sp ∧
    is_numeral num z ∧ v = int_of z ∧ isdigit (cur rest) = false ∧ statement_end rest) as Hint.
  { intros v Hv. exists (lit " "), (print_dec v), v, (lit ";").
    split_and!; [done|apply space_spaces|by apply print_dec_int|by rewrite int_of_id|done|apply semicolon_end]. }
  destruct c as [cmp v|t|cmp v]; simpl.
  - apply Hint.
  - intros [Hq Hl]. exists (lit " "), (lit ";"). rewrite <- (assoc_L (++)).
    split_and!; [done|apply space_spaces|done|done|apply semicolon_end].
  - apply Hint.
Qed.

Lemma print_statement q : query_ok q → statement (print_query q) (query_result q).
Proof.
  destruct q as [name age| |c|].
  - intros [[Hq Hl] Ha]. simpl. rewrite <- (int_of_id age) at 2 by done. constructor.
    split; [|done|done|done].
    exists (lit "INSERT"), (lit " "), (lit "INTO"), (lit " "), (lit " "), (lit "VALUES"), (lit " "), [], [],
      (lit " "), (print_dec age), [], (lit ";").
    split_and!; try done; try apply space_blank; try apply space_spaces; try constructor.
    + by apply print_dec_int.
    + exists []. eexists [].  split_and!; [constructor|constructor|by right].
  - intros _. apply (St_select _ users (lit ";")); [by apply select_head_text|apply semicolon_end].
  - intros Hok. apply (St_where _ users (lit " WHERE " ++ cond_column c ++ lit " " ++
      comparison_text (cond_comparison c) ++ lit " " ++ print_value c ++ lit ";")); [by apply select_head_text|].
    exists (lit " "), (lit "WHERE"), (lit " "), (lit " "), (lit " " ++ print_value c ++ lit ";").
    split_and!; try done; try apply space_blank; try apply space_spaces; [left; apply space_spaces| |by apply print_value_ok].
    by destruct (cond_comparison c).
  - intros _. eapply (St_exit _ [] (lit "EXIT") (lit ";")); [done|constructor|by left|apply semicolon_end].
Qed.

(** ** Leading spaces *)

(** The parser skips leading spaces only for the exit statements. *)
Lemma leading_space s :
  isspace (cur s) = true → (match_exit (skip_space s)).1 = false →
  sql_parse (Some s) = sql_parse_set_syntax_error sql_parse_result_init (skip_space s).
Proof.
  intros Hs He. rewrite sql_parse_unfold. destruct (match_exit (skip_space s)) as [ex cursor] eqn:E.
  simpl in He. subst ex.
  assert (∀ kw, forallb is_word_char kw = true → kw ≠ [] → (sql_match_keyword s kw).1 = false) as Hno.
  { intros kw Hkw Hne. destruct (sql_match_keyword s kw) as [[] c] eqn:Ek; [|done].
    apply match_keyword_spec in Ek as (w & -> & Hw & _). destruct (keyword_is_word kw w Hw Hkw Hne) as [Hwne Hword].
    pose proof (word_not_space _ (word_cur w c Hwne Hword)). congruence. }
  cbv zeta. rewrite insert_no_keyword by by apply Hno. cbn [parsed sql_parse_result_init p_error_message orb].
  rewrite bool_decide_eq_false_2 by auto. rewrite select_no_keyword by by apply Hno.
  cbn [parsed sql_parse_result_init p_error_message orb]. rewrite bool_decide_eq_false_2 by auto.
  unfold match_exit in E. destruct (sql_match_keyword (skip_space s) (lit "EXIT")) as [[] c1] eqn:E1; [done|].
  apply match_keyword_fail in E1, E. by subst.
Qed.
