(* ===== verification/SqlSpec.v ===== *)
(** The contract of sql.h: executing a text against the table does to the list
    of records, and reports, what the statement says. *)
From stdpp Require Import base list gmap sorting strings.
From Stdlib Require Import Ascii ZArith Lia.
From S2P Require Import Prelude Memory CLib BPTree Index Table TableMem TableRep TableCollect TableQueries TableUpdate TableLife TableSpec Sql SqlLex SqlGrammar SqlErrors.

(** ** What a client reads in a result *)

Record sql_reply := MkReply {
  rp_status : SQLStatus;
  rp_action : SQLAction;
  rp_record : option record;
  rp_rows : list record;
  rp_count : nat;
  rp_inserted : Z;
  rp_code : Z;
  rp_state : cstr;
  rp_message : cstr
}.

(** Reads a result and releases it. *)
Definition read_result (r : SQLResult) : prog Mem sql_reply :=
  first ← (match res_record r with None => mret None | Some _ => x ← load_record (res_record r); mret (Some x) end);
  rs ← (match records (res_rows r) with None => mret [] | Some _ => fetch (records (res_rows r)) (count (res_rows r)) 0 end);
  sql_result_destroy r;;
  mret (MkReply (status r) (action r) first rs (count (res_rows r)) (inserted_id r) (error_code r)
          (sql_state r) (error_message r)).

Definition run_sql (tb : ptr) (text : cstr) : prog Mem sql_reply :=
  r ← sql_execute tb (Some text); read_result r.

(** ** The specification *)

Definition plain_reply (s : SQLStatus) : sql_reply := MkReply s SQL_ACTION_NONE None [] 0 0 0 [] [].
Definition insert_reply (r : record) : sql_reply :=
  MkReply SQL_STATUS_OK SQL_ACTION_INSERT (Some r) [] 1 (rec_id r) 0 [] [].
Definition rows_reply (rs : list record) : sql_reply :=
  MkReply (match rs with [] => SQL_STATUS_NOT_FOUND | _ => SQL_STATUS_OK end) SQL_ACTION_SELECT_ROWS
    (head rs) rs (length rs) 0 0 [] [].

Definition next_record (name : cstr) (age : Z) (db : list record) : record :=
  MkRecord (Z.of_nat (length db) + 1) (take (RECORD_NAME_SIZE - 1) name) age.

Definition command_test (c : SQLCommand) (r : record) : bool :=
  match cmd_type c with
  | SQL_COMMAND_SELECT_BY_ID => table_compare_int (rec_id r) (comparison c) (int_value c)
  | SQL_COMMAND_SELECT_BY_NAME => bool_decide (rec_name r = text_value c)
  | SQL_COMMAND_SELECT_BY_AGE => table_compare_int (rec_age r) (comparison c) (int_value c)
  | _ => true
  end.

Definition spec_command (c : SQLCommand) (db : list record) : sql_reply * list record :=
  match cmd_type c with
  | SQL_COMMAND_INSERT =>
      let r := next_record (cmd_name c) (int_value c) db in (insert_reply r, db ++ [r])
  | SQL_COMMAND_EXIT => (plain_reply SQL_STATUS_EXIT, db)
  | SQL_COMMAND_NONE => (plain_reply SQL_STATUS_ERROR, db)
  | _ => (rows_reply (filter (λ r, command_test c r = true) db), db)
  end.

Definition refused_reply (p : SQLParseResult) : sql_reply :=
  MkReply (p_status p) SQL_ACTION_NONE None [] 0 0 (p_error_code p) (p_sql_state p) (p_error_message p).

Definition spec_sql (text : cstr) (db : list record) : sql_reply * list record :=
  let p := sql_parse (Some text) in
  if parsed p then spec_command (command p) db else (refused_reply p, db).

(** ** Refinement *)

Section spec.
Context {KI : KeyIndex}.

(** [r] is a result that reads [rep], in a memory where [tb] holds [db]. *)
Inductive result_at (tb : loc) (db : list record) (m0 : Mem) (r : SQLResult) : sql_reply → Mem → Prop :=
  | RA_rows m rws cap m1 :
      holds tb db m0 m → arrays_bounded m → rows_in m rws → growing m (res_rows r) cap (row_ptrs rws) m1 →
      r = MkSQLResult (rp_status (rows_reply rws.*2)) SQL_ACTION_SELECT_ROWS (first_row rws) (res_rows r) 0 0 [] [] →
      result_at tb db m0 r (rows_reply rws.*2) m1
  | RA_insert l x m1 :
      holds tb db m0 m1 → m_recs m1 !! l = Some x →
      r = MkSQLResult SQL_STATUS_OK SQL_ACTION_INSERT (Some l) (MkResults None 1) (rec_id x) 0 [] [] →
      result_at tb db m0 r (insert_reply x) m1
  | RA_plain m1 s code state message :
      holds tb db m0 m1 →
      r = MkSQLResult s SQL_ACTION_NONE None no_results 0 code state message →
      result_at tb db m0 r (MkReply s SQL_ACTION_NONE None [] 0 0 code state message) m1.

(** The same without the table: [B] is the memory without the rows of the result. *)
Inductive result_in (B : Mem) (r : SQLResult) : sql_reply → Mem → Prop :=
  | RI_rows rws cap m1 :
      arrays_bounded B → rows_in B rws → growing B (res_rows r) cap (row_ptrs rws) m1 →
      r = MkSQLResult (rp_status (rows_reply rws.*2)) SQL_ACTION_SELECT_ROWS (first_row rws) (res_rows r) 0 0 [] [] →
      result_in B r (rows_reply rws.*2) m1
  | RI_insert l x :
      m_recs B !! l = Some x →
      r = MkSQLResult SQL_STATUS_OK SQL_ACTION_INSERT (Some l) (MkResults None 1) (rec_id x) 0 [] [] →
      result_in B r (insert_reply x) B
  | RI_plain s code state message :
      r = MkSQLResult s SQL_ACTION_NONE None no_results 0 code state message →
      result_in B r (MkReply s SQL_ACTION_NONE None [] 0 0 code state message) B.

Lemma result_at_in tb db m0 r rep m1 :
  result_at tb db m0 r rep m1 → ∃ B, holds tb db m0 B ∧ result_in B r rep m1.
Proof.
  intros [m rws cap m1' Hh Hb Hin Hg Hr|l x m1' Hh Hx Hr|m1' s code state message Hh Hr].
  - exists m. split; [done|]. by eapply RI_rows.
  - exists m1'. split; [done|]. by eapply RI_insert.
  - exists m1'. split; [done|]. by apply RI_plain.
Qed.

Lemma result_in_same B r rep m1 : result_in B r rep m1 →
  m_bytes m1 = m_bytes B ∧ m_out m1 = m_out B ∧ m_env m1 `suffix_of` m_env B ∧ (m_next B ≤ m_next m1)%positive.
Proof.
  intros [rws cap m _ _ (n & arr & e & -> & He & Hn & _) _|l x _ _|s code state message _]; [|done..].
  by destruct (records (res_rows r)).
Qed.

Lemma wp_unbind {A B} (c : prog Mem A) (k : A → prog Mem B) Q m :
  wp (c ≫= k) Q m → wp c (λ a, wp (k a) Q) m.
Proof. unfold wpx, mbind, prog_bind. destruct (c m) as [[]| | | |]; auto. Qed.

Lemma insert_holds tb db m0 m name age :
  holds tb db m0 m → (Z.of_nat (length db) + 1 < INT_MAX)%Z →
  wp (table_insert (Some tb) (Some name) age)
    (λ p m', ∃ l, p = Some l ∧ m_recs m' !! l = Some (next_record name age db) ∧
       holds tb (db ++ [next_record name age db]) m0 m') m.
Proof.
  intros Hh Hlt. pose proof (insert_op tb db m0 m name age Hh Hlt) as H. apply wp_unbind in H.
  eapply wp_mono; [|exact H]. intros p m' Hp. destruct p as [l|]; [|by destruct Hp].
  exists l. cbn [fetch_row] in Hp. apply wp_unbind, wp_ok in Hp as (x & m2 & Hx & Hm2).
  unfold load_record in Hx. unfold load in Hx. simpl in Hx.
  destruct (m_recs m' !! l) as [y|] eqn:Hy; [|done]. injection Hx as <- <-.
  change (OneRow (Some y) = OneRow (Some (next_record name age db)) ∧
    holds tb (db ++ [next_record name age db]) m0 m') in Hm2. destruct Hm2 as [[= ->] ?]. done.
Qed.

Lemma growing_empty m rs cap rws m1 :
  growing m rs cap (row_ptrs rws) m1 → records rs = None → rws = [].
Proof.
  intros (n & arr & e & _ & _ & _ & _ & Hle & _ & _ & Ha) Hr. rewrite Hr in Ha. subst cap.
  rewrite length_row_ptrs in Hle. by destruct rws; simpl in *; [|lia].
Qed.

Lemma growing_count m rs cap rws m1 : growing m rs cap (row_ptrs rws) m1 → count rs = length rws.
Proof. intros (n & arr & e & _ & _ & _ & Hc & _). by rewrite length_row_ptrs in Hc. Qed.

(** Releasing a result leaves the table alone. *)
Lemma wp_result_destroy tb db m0 r rep m1 (Q : SQLResult → Mem → Prop) :
  result_at tb db m0 r rep m1 → (∀ r' m', holds tb db m0 m' → Q r' m') → wp (sql_result_destroy r) Q m1.
Proof.
  intros [m rws cap m1' Hh Hb Hin Hg Hr|l x m1' Hh Hx ->|m1' s code state message Hh ->] HQ; apply wp_bind.
  - eapply growing_free; [exact Hb|exact Hg|]. intros m' Hs. apply wp_ret, HQ. by eapply holds_spent.
  - by apply wp_ret, HQ.
  - by apply wp_ret, HQ.
Qed.

Lemma wp_read_rows m rws cap rs m1 (Q : list record → Mem → Prop) :
  rows_in m rws → growing m rs cap (row_ptrs rws) m1 → Q rws.*2 m1 →
  wp (match records rs with None => mret [] | Some _ => fetch (records rs) (count rs) 0 end) Q m1.
Proof.
  intros Hin Hg HQ. pose proof (growing_count _ _ _ _ _ Hg) as Hc. destruct (records rs) as [a|] eqn:Ha.
  - rewrite <- Ha. eapply wp_fetch; [exact Hin|exact Hg|lia|]. by rewrite drop_0.
  - rewrite (growing_empty _ _ _ _ _ Hg Ha) in HQ. by apply wp_ret.
Qed.

Lemma read_result_refines tb db m0 r rep m1 :
  result_at tb db m0 r rep m1 → wp (read_result r) (λ rep' m', rep' = rep ∧ holds tb db m0 m') m1.
Proof.
  intros Hat. pose proof Hat as Hat0.
  destruct Hat as [m rws cap m1 Hh Hb Hin Hg Hr|l x m1 Hh Hx ->|m1 s code state message Hh ->]; apply wp_bind.
  - assert (res_record r = first_row rws) as Hfirst by (by rewrite Hr).
    assert (wp (match res_record r with None => mret None | Some _ => x ← load_record (res_record r); mret (Some x) end)
      (λ o m', o = head rws.*2 ∧ m' = m1) m1) as Hload.
    { rewrite Hfirst. destruct rws as [|y rws]; [done|]. cbn. apply wp_bind. eapply wp_load_record; [|by apply wp_ret].
      rewrite (growing_recs _ _ _ _ _ Hg). by apply Forall_cons in Hin as [? _]. }
    eapply wp_mono; [|exact Hload]. intros o ? [-> ->]. apply wp_bind.
    eapply wp_read_rows; [exact Hin|exact Hg|]. apply wp_bind. eapply wp_result_destroy; [exact Hat0|].
    intros _ m' Hh'. apply wp_ret. split; [|done]. rewrite (growing_count _ _ _ _ _ Hg). rewrite Hr.
    unfold rows_reply. by rewrite length_fmap.
  - cbn. apply wp_bind. eapply wp_load_record; [done|]. by apply wp_ret, wp_bind, wp_ret, wp_bind.
  - by cbn.
Qed.

(** The tail of [sql_execute_select_plan]. *)
Lemma select_tail tb db m0 m rws c :
  holds tb db m0 m → arrays_bounded m → rows_in m rws → wp c (collects rws m) m →
  wp (found ← (r ← c; mret (Some r));
      match found with
      | None => mret (sql_make_result SQL_STATUS_ERROR SQL_ACTION_NONE)
      | Some (false, rs) => mret (with_rows_result rs (sql_make_result SQL_STATUS_ERROR SQL_ACTION_NONE))
      | Some (true, rs) =>
          first ← (if decide (0 < count rs) then array_get (records rs) 0 else mret None);
          mret (MkSQLResult (if decide (count rs = 0) then SQL_STATUS_NOT_FOUND else SQL_STATUS_OK)
                  SQL_ACTION_SELECT_ROWS first rs 0 0 [] [])
      end)
    (λ r m1, result_at tb db m0 r (rows_reply rws.*2) m1) m.
Proof.
  intros Hh Hb Hin Hc. apply wp_bind, wp_bind. eapply wp_mono; [|exact Hc]. intros [ok rs] m1 Hr.
  assert (no_failure m) as Hm by (by destruct Hh as (? & ? & ? & ? & ?)).
  apply collects_ok in Hr as [Hok (cap & Hg)]; [|done]. simpl in *. subst ok. apply wp_ret.
  pose proof (growing_count _ _ _ _ _ Hg) as Hcount. rewrite Hcount. apply wp_bind.
  destruct rws as [|x rws].
  - rewrite decide_False by (simpl; lia). apply wp_ret, wp_ret.
    by eapply (RA_rows _ _ _ _ m []).
  - rewrite decide_True by (simpl; lia). eapply growing_get; [exact Hg|done|]. apply wp_ret.
    by eapply (RA_rows _ _ _ _ m (x :: rws)).
Qed.

(** The searches behind the four kinds of [SELECT]. *)
Lemma filter_true (l : list record) (P : record → Prop) `{!∀ x, Decision (P x)} : (∀ x, P x) → filter P l = l.
Proof. intros HP. induction l as [|x l IH]; [done|]. by rewrite filter_cons_True, IH by done. Qed.

Lemma select_plan_refines tb db m0 m c :
  holds tb db m0 m →
  cmd_type c ∈ [SQL_COMMAND_SELECT_ALL; SQL_COMMAND_SELECT_BY_ID; SQL_COMMAND_SELECT_BY_NAME; SQL_COMMAND_SELECT_BY_AGE] →
  wp (sql_execute_select_plan (Some tb) c)
    (λ r m1, result_at tb db m0 r (rows_reply (filter (λ r, command_test c r = true) db)) m1) m.
Proof.
  intros Hh Hc. destruct (holds_facts _ _ _ _ Hh) as (st & t & fps & Hinv & Hdb & Hn & Hm & Hb & Hin & Hsel).
  assert (∀ test call, wp call (collects (select test st) m) m →
    wp (found ← (r ← call; mret (Some r));
      match found with
      | None => mret (sql_make_result SQL_STATUS_ERROR SQL_ACTION_NONE)
      | Some (false, rs) => mret (with_rows_result rs (sql_make_result SQL_STATUS_ERROR SQL_ACTION_NONE))
      | Some (true, rs) =>
          first ← (if decide (0 < count rs) then array_get (records rs) 0 else mret None);
          mret (MkSQLResult (if decide (count rs = 0) then SQL_STATUS_NOT_FOUND else SQL_STATUS_OK)
                  SQL_ACTION_SELECT_ROWS first rs 0 0 [] [])
      end) (λ r m1, result_at tb db m0 r (rows_reply (filter (λ r, test r = true) db)) m1) m) as Hsearch.
  { intros test call Hcall. pose proof (db_filter test st) as Hf. rewrite Hdb in Hf. rewrite <- Hf.
    by apply select_tail. }
  unfold sql_execute_select_plan, command_test.
  destruct (cmd_type c); try (exfalso; set_solver).
  - rewrite filter_true by done. pose proof (select_tail tb db m0 m (sorted_rows st)) as Htail.
    unfold db_of in Hdb. rewrite Hdb in Htail. apply Htail; [done..|]. by eapply collect_all_collects.
  - apply Hsearch. eapply wp_mono; [|by eapply id_condition_collects]. by intros r m' [?|(_ & Hm' & _)].
  - apply Hsearch. by eapply name_matches_collects.
  - apply Hsearch. by eapply age_condition_collects.
Qed.

Lemma insert_plan_refines tb db m0 m c :
  holds tb db m0 m → (Z.of_nat (length db) + 1 < INT_MAX)%Z → cmd_type c = SQL_COMMAND_INSERT →
  wp (sql_execute_insert_plan (Some tb) c)
    (λ r m1, result_at tb (db ++ [next_record (cmd_name c) (int_value c) db]) m0 r
               (insert_reply (next_record (cmd_name c) (int_value c) db)) m1) m.
Proof.
  intros Hh Hlt Hc. unfold sql_execute_insert_plan. rewrite decide_False by naive_solver. apply wp_bind.
  eapply wp_mono; [|by apply insert_holds]. intros p m1 (l & -> & Hl & Hh'). apply wp_bind.
  eapply wp_load_record; [done|]. apply wp_ret. by eapply RA_insert.
Qed.

Lemma plan_refines tb db m0 m c :
  holds tb db m0 m → (Z.of_nat (length db) + 1 < INT_MAX)%Z →
  wp (sql_execute_plan (Some tb) (Some c))
    (λ r m1, result_at tb (spec_command c db).2 m0 r (spec_command c db).1 m1) m.
Proof.
  intros Hh Hlt. unfold spec_command, sql_execute_plan. destruct (cmd_type c) eqn:Hc; cbn [fst snd].
  - apply wp_ret. by apply RA_plain.
  - by apply insert_plan_refines.
  - apply select_plan_refines; [done|set_solver].
  - apply select_plan_refines; [done|set_solver].
  - apply select_plan_refines; [done|set_solver].
  - apply select_plan_refines; [done|set_solver].
  - apply wp_ret. by apply RA_plain.
Qed.

Lemma refused_fits p : refused p →
  snprintf SQL_SQLSTATE_SIZE (p_sql_state p) = p_sql_state p ∧
  snprintf SQL_ERROR_MESSAGE_SIZE (p_error_message p) = p_error_message p.
Proof.
  intros Hr. split.
  - destruct Hr as [near _ _ _ _ _ -> _|col clause _ _ _ _ _ _ _ -> _]; done.
  - apply snprintf_id. by apply refused_message.
Qed.

Lemma execute_refines tb db m0 m text :
  holds tb db m0 m → (Z.of_nat (length db) + 1 < INT_MAX)%Z →
  wp (sql_execute (Some tb) (Some text))
    (λ r m1, result_at tb (spec_sql text db).2 m0 r (spec_sql text db).1 m1) m.
Proof.
  intros Hh Hlt. unfold sql_execute, spec_sql.
  pose proof (parse_settled text) as Hset. destruct (parsed (sql_parse (Some text))) eqn:Hp; cbn [negb].
  - wp_call (by apply plan_refines). intros r m1 Hr.
    case_decide as Hexit; [|by apply wp_ret]. apply wp_ret. unfold spec_command in *. rewrite Hexit in *.
    inversion Hr; subst. by apply RA_plain.
  - destruct Hset as [?|Hr]; [congruence|]. destruct (refused_fits _ Hr) as [-> ->]. apply wp_ret.
    by apply RA_plain.
Qed.

Lemma run_sql_refines tb db m0 m text :
  holds tb db m0 m → (Z.of_nat (length db) + 1 < INT_MAX)%Z →
  wp (run_sql (Some tb) text)
    (λ rep m1, rep = (spec_sql text db).1 ∧ holds tb (spec_sql text db).2 m0 m1) m.
Proof.
  intros Hh Hlt. wp_call (by apply execute_refines).
  intros r m1 Hr. by apply read_result_refines.
Qed.

Lemma spec_command_length c db : length (spec_command c db).2 ≤ S (length db).
Proof. unfold spec_command. destruct (cmd_type c); simpl; rewrite ?length_app; simpl; lia. Qed.

Lemma spec_sql_length text db : length (spec_sql text db).2 ≤ S (length db).
Proof. unfold spec_sql. destruct (parsed _); [apply spec_command_length|simpl; lia]. Qed.
End spec.
