(* ===== verification/RowTypes.v ===== *)
(** The types of the stored data: every record the SQL layer stores has [int]
    fields, consecutive ids, and a name that fits its array as a C string. *)
From stdpp Require Import base list gmap sorting strings.
From Stdlib Require Import Ascii ZArith Lia.
From S2P Require Import Prelude Memory CLib CLibProofs BPTree Index Table TableMem TableRep TableCollect TableQueries TableUpdate TableLife TableSpec Sql SqlLex SqlGrammar SqlErrors SqlSpec.

Record record_typed (r : record) : Prop := {
  rt_id : is_int (rec_id r) ∧ (1 ≤ rec_id r)%Z;
  rt_age : is_int (rec_age r);
  rt_name : length (rec_name r) < RECORD_NAME_SIZE;
  rt_string : NUL ∉ rec_name r
}.

(** Record [i] of the list has id [i + 1]. *)
Definition db_typed (db : list record) : Prop :=
  Forall record_typed db ∧ (∀ i r, db !! i = Some r → rec_id r = Z.of_nat i + 1)%Z.

Lemma insert_command_typed s :
  NUL ∉ s → parsed (sql_parse (Some s)) = true →
  cmd_type (command (sql_parse (Some s))) = SQL_COMMAND_INSERT →
  let c := command (sql_parse (Some s)) in
  is_int (int_value c) ∧ length (cmd_name c) < RECORD_NAME_SIZE ∧ NUL ∉ cmd_name c.
Proof.
  intros Hs Hp Hc. pose proof (parsed_statement s Hp) as Hst.
  destruct Hst as [sp w rest Heq| tbl name z Hins | |tbl rest col c]; try done.
  - destruct Hins as [(w1 & s1 & w2 & s2 & s3 & w3 & s4 & s5 & s6 & s7 & num & s8 & rest & Heq & _) _ _ Hlen].
    cbn. split_and!; [apply to_int_is_int|done|].
    intros Hin. apply Hs. rewrite Heq. repeat (rewrite elem_of_app || rewrite elem_of_cons). tauto.
  - by destruct c.
Qed.

Lemma spec_sql_typed text db :
  db_typed db → (Z.of_nat (length db) + 1 < INT_MAX)%Z → NUL ∉ text → db_typed (spec_sql text db).2.
Proof.
  intros [Hall Hids] Hlt Hnul. unfold spec_sql.
  destruct (parsed (sql_parse (Some text))) eqn:Hp; [|done]. unfold spec_command.
  destruct (cmd_type (command (sql_parse (Some text)))) eqn:Hc; try done. cbn [snd].
  destruct (insert_command_typed text Hnul Hp Hc) as (Hint & Hlen & Hstr). split.
  - apply Forall_app. split; [done|]. constructor; [|done]. split; simpl.
    + unfold is_int, INT_MIN, INT_MAX in *. lia.
    + done.
    + rewrite length_take. unfold RECORD_NAME_SIZE in *. lia.
    + intros Hin. apply Hstr. by eapply elem_of_take in Hin as (i & Hi%list_elem_of_lookup_2 & _).
  - intros i r [Hi|[Hi Hr]]%lookup_app_Some; [by apply Hids|].
    apply list_lookup_singleton_Some in Hr as [Hz <-]. simpl. lia.
Qed.

(** The rows of a reply are rows of the table. *)
Lemma spec_sql_rows text db r : r ∈ rp_rows (spec_sql text db).1 → r ∈ db.
Proof.
  unfold spec_sql. destruct (parsed (sql_parse (Some text))); [|set_solver].
  unfold spec_command. destruct (cmd_type _); simpl; try set_solver; intros [_ ?]%list_elem_of_filter; done.
Qed.
