(* ===== verification/Quiet.v ===== *)
(** Executing SQL prints nothing: every operation of the B+ tree, of the table
    but its printing functions, and of the SQL layer leaves the output and the
    character arrays alone, and never reuses an address. *)
From stdpp Require Import base list gmap strings.
From Stdlib Require Import Ascii ZArith Lia.
From S2P Require Import Prelude Memory CLib BPTree Table Sql.

(** What a quiet step may do to the rest of the memory. *)
Definition calm (m m' : Mem) : Prop :=
  m_out m' = m_out m ∧ m_bytes m' = m_bytes m ∧ (m_next m ≤ m_next m')%positive.

#[export] Instance calm_preorder : PreOrder calm.
Proof.
  split; [done|]. intros m1 m2 m3 (H1 & H2 & H3) (G1 & G2 & G3).
  split_and!; [by rewrite G1|by rewrite G2|lia].
Qed.

Definition quiet {A} (c : prog Mem A) : Prop := ∀ m a m', c m = Ok (a, m') → calm m m'.

(** The structures of the database. *)
Class DbHeap (T : Type) `{!HeapOf T} := db_bytes : ∀ h m, m_bytes (hset h m) = m_bytes m.
#[export] Instance db_nodes : DbHeap BPTreeNode.
Proof. done. Qed.
#[export] Instance db_trees : DbHeap BPTree.
Proof. done. Qed.
#[export] Instance db_recs : DbHeap record.
Proof. done. Qed.
#[export] Instance db_tables : DbHeap Table.
Proof. done. Qed.
#[export] Instance db_arrays : DbHeap rec_array.
Proof. done. Qed.

Lemma calm_hset {T} `{!HeapOf T, !DbHeap T} h m : calm m (hset h m).
Proof. split_and!; [apply m_out_hset|apply db_bytes|by rewrite m_next_hset]. Qed.

Create HintDb quiet.

Lemma quiet_ret {A} (a : A) : quiet (mret a).
Proof. by intros m b m' [= _ <-]. Qed.
Lemma quiet_ub {A} : quiet (ub (A:=A)).
Proof. done. Qed.
Lemma quiet_blocked {A} : quiet (blocked (A:=A)).
Proof. done. Qed.
Lemma quiet_no_fuel {A} : quiet (λ _, NoFuel : outcome (A * Mem)).
Proof. done. Qed.
Lemma quiet_gets {A} (f : Mem → A) : quiet (gets f).
Proof. by intros m b m' [= _ <-]. Qed.

Lemma quiet_bind {A B} (c : prog Mem A) (k : A → prog Mem B) :
  quiet c → (∀ a, quiet (k a)) → quiet (c ≫= k).
Proof.
  intros Hc Hk m b m'. unfold mbind, prog_bind. destruct (c m) as [[a m1]| | | |] eqn:E; try done.
  intros Hb. etrans; [by eapply Hc|by eapply Hk].
Qed.

#[export] Hint Resolve quiet_ret quiet_ub quiet_blocked quiet_no_fuel quiet_gets : quiet.

Section memory.
Context {T : Type} `{!HeapOf T, !DbHeap T}.

Lemma quiet_load (p : ptr) : quiet (load p : prog Mem T).
Proof. intros m a m'. unfold load. destruct p as [l|]; [|done]. by destruct (hget m !! l); [intros [= _ <-]|]. Qed.
Lemma quiet_store (p : ptr) (x : T) : quiet (store p x).
Proof.
  intros m a m'. unfold store. destruct p as [l|]; [|done]. destruct (hget m !! l); [|done].
  intros [= ?]; subst m'. apply calm_hset.
Qed.
Lemma quiet_free (p : ptr) : quiet (free (T:=T) p).
Proof.
  intros m a m'. unfold free. destruct p as [l|]; [|by intros [= ?]; subst m']. destruct (hget m !! l); [|done].
  intros [= ?]; subst m'. apply calm_hset.
Qed.
Lemma quiet_fresh (x : T) : quiet (fresh_block x).
Proof.
  intros m a m' [= _ <-]. split_and!; simpl; [apply m_out_hset|apply db_bytes|lia].
Qed.
End memory.

Lemma quiet_lib_call : quiet lib_call.
Proof. intros m a m'. unfold lib_call. by destruct (m_env m); intros [= _ <-]. Qed.
#[export] Hint Resolve quiet_load quiet_store quiet_free quiet_fresh quiet_lib_call : quiet.

Lemma quiet_update {T} `{!HeapOf T, !DbHeap T} (p : ptr) (f : T → T) : quiet (update p f).
Proof. unfold update. auto using quiet_bind with quiet. Qed.
Lemma quiet_calloc {T} `{!HeapOf T, !DbHeap T} (x : T) : quiet (calloc x).
Proof. unfold calloc. apply quiet_bind; [auto with quiet|]. intros []; auto with quiet. Qed.
Lemma quiet_aget {A} (a : list A) i : quiet (aget a i).
Proof. unfold aget. destruct (a !! i); auto with quiet. Qed.
Lemma quiet_aset {A} (a : list A) i x : quiet (aset a i x).
Proof. unfold aset. case_decide; auto with quiet. Qed.
Lemma quiet_tget {A} (a : list (option A)) i : quiet (tget a i).
Proof. unfold tget. destruct (a !! i) as [[]|]; auto with quiet. Qed.
#[export] Hint Resolve quiet_update quiet_calloc quiet_aget quiet_aset quiet_tget : quiet.
Lemma quiet_tset {A} (a : list (option A)) i x : quiet (tset a i x).
Proof. apply quiet_aset. Qed.
#[export] Hint Resolve quiet_tset : quiet.

(** ** Loops *)

Lemma quiet_while {L R} fuel (step : L → prog Mem (L + R)) : (∀ l, quiet (step l)) → ∀ l, quiet (while_loop fuel step l).
Proof.
  intros Hs. induction fuel as [|fuel IH]; intros l; simpl; [done|apply quiet_bind; [done|]; intros []; auto with quiet].
Qed.
Lemma quiet_count_up {L} n (body : nat → L → prog Mem L) : (∀ i l, quiet (body i l)) → ∀ i l, quiet (count_up n i body l).
Proof. intros Hb. induction n as [|n IH]; intros i l; simpl; [by apply quiet_ret|]; by apply quiet_bind. Qed.
Lemma quiet_count_down {L} n (body : nat → L → prog Mem L) : (∀ i l, quiet (body i l)) → ∀ i l, quiet (count_down n i body l).
Proof. intros Hb. induction n as [|n IH]; intros i l; simpl; [by apply quiet_ret|]; by apply quiet_bind. Qed.
Lemma quiet_count_until {L R} n (body : nat → L → prog Mem (L + R)) :
  (∀ i l, quiet (body i l)) → ∀ i l, quiet (count_until n i body l).
Proof. intros Hb. induction n as [|n IH]; intros i l; simpl; [by apply quiet_ret|]. apply quiet_bind; [done|]. intros []; auto with quiet. Qed.
Lemma quiet_for_up {L} lo hi (body : nat → L → prog Mem L) l : (∀ i l, quiet (body i l)) → quiet (for_up lo hi body l).
Proof. intros Hb. by apply quiet_count_up. Qed.
Lemma quiet_for_down {L} hi lo (body : nat → L → prog Mem L) l : (∀ i l, quiet (body i l)) → quiet (for_down hi lo body l).
Proof. intros Hb. by apply quiet_count_down. Qed.
Lemma quiet_for_until {L R} lo hi (body : nat → L → prog Mem (L + R)) l :
  (∀ i l, quiet (body i l)) → quiet (for_until lo hi body l).
Proof. intros Hb. by apply quiet_count_until. Qed.

(** Goes through a program: leaves by the hints, the rest by its syntax. *)
Ltac quiet_step :=
  first
    [ solve [auto 2 with quiet typeclass_instances nocore]
    | apply quiet_while; intros ?
    | apply quiet_for_up; intros ? ?
    | apply quiet_for_down; intros ? ?
    | apply quiet_for_until; intros ? ?
    | apply quiet_bind; [|intros ?]
    | match goal with |- quiet (match ?x with _ => _ end) => destruct x end ].
Ltac quiet_by d := unfold d; cbv zeta; repeat quiet_step.

(** ** The B+ tree *)

Lemma quiet_create_node b : quiet (bptree_create_node b).
Proof. quiet_by bptree_create_node. Qed.
#[export] Hint Resolve quiet_create_node : quiet.

Lemma quiet_load_node p : quiet (load_node p).
Proof. apply quiet_load. Qed.
Lemma quiet_load_tree p : quiet (load_tree p).
Proof. apply quiet_load. Qed.
#[export] Hint Resolve quiet_load_node quiet_load_tree : quiet.
Lemma quiet_set_key p i k : quiet (set_key p i k).
Proof. quiet_by set_key. Qed.
Lemma quiet_set_value p i v : quiet (set_value p i v).
Proof. quiet_by set_value. Qed.
Lemma quiet_set_child p i c : quiet (set_child p i c).
Proof. quiet_by set_child. Qed.
Lemma quiet_get_key p i : quiet (get_key p i).
Proof. quiet_by get_key. Qed.
Lemma quiet_get_value p i : quiet (get_value p i).
Proof. quiet_by get_value. Qed.
Lemma quiet_get_child p i : quiet (get_child p i).
Proof. quiet_by get_child. Qed.
Lemma quiet_get_num_keys p : quiet (get_num_keys p).
Proof. quiet_by get_num_keys. Qed.
Lemma quiet_incr_num_keys p : quiet (incr_num_keys p).
Proof. apply quiet_update. Qed.
Lemma quiet_adopt c p : quiet (adopt c p).
Proof. quiet_by adopt. Qed.
#[export] Hint Resolve quiet_set_key quiet_set_value quiet_set_child quiet_get_key quiet_get_value
  quiet_get_child quiet_get_num_keys quiet_incr_num_keys quiet_adopt : quiet.

Lemma quiet_insert_index ks n k : quiet (bptree_find_insert_index ks n k).
Proof. quiet_by bptree_find_insert_index. Qed.
Lemma quiet_child_index n k : quiet (child_index n k).
Proof. quiet_by child_index. Qed.
Lemma quiet_leaf_has_key n k : quiet (leaf_has_key n k).
Proof. quiet_by leaf_has_key. Qed.
#[export] Hint Resolve quiet_insert_index quiet_child_index quiet_leaf_has_key : quiet.
Lemma quiet_find_leaf_step k p : quiet (find_leaf_step k p).
Proof. quiet_by find_leaf_step. Qed.
#[export] Hint Resolve quiet_find_leaf_step : quiet.
Lemma quiet_find_leaf tr k : quiet (bptree_find_leaf tr k).
Proof. quiet_by bptree_find_leaf. Qed.
Lemma quiet_destroy_node fuel : ∀ p, quiet (bptree_destroy_node fuel p).
Proof.
  induction fuel as [|fuel IH]; intros p; cbn [bptree_destroy_node]; [done|]. repeat quiet_step.
Qed.
Lemma quiet_insert_into_leaf l k v : quiet (bptree_insert_into_leaf l k v).
Proof. quiet_by bptree_insert_into_leaf. Qed.
Lemma quiet_new_root tr l k r : quiet (bptree_create_new_root tr l k r).
Proof. quiet_by bptree_create_new_root. Qed.
Lemma quiet_insert_into_internal p i k r : quiet (bptree_insert_into_internal p i k r).
Proof. quiet_by bptree_insert_into_internal. Qed.
#[export] Hint Resolve quiet_find_leaf quiet_destroy_node quiet_insert_into_leaf quiet_new_root
  quiet_insert_into_internal : quiet.
Lemma quiet_split_internal up tr p i k r :
  (∀ tr l k r, quiet (up tr l k r)) → quiet (bptree_split_internal_and_insert up tr p i k r).
Proof. intros Hup. quiet_by bptree_split_internal_and_insert. Qed.
#[export] Hint Resolve quiet_split_internal : quiet.
Lemma quiet_into_parent fuel : ∀ tr l k r, quiet (bptree_insert_into_parent fuel tr l k r).
Proof.
  induction fuel as [|fuel IH]; intros tr l k r; cbn [bptree_insert_into_parent]; [done|]. repeat quiet_step.
Qed.
#[export] Hint Resolve quiet_into_parent : quiet.
Lemma quiet_split_leaf tr l k v : quiet (bptree_split_leaf_and_insert tr l k v).
Proof. quiet_by bptree_split_leaf_and_insert. Qed.
#[export] Hint Resolve quiet_split_leaf : quiet.
Lemma quiet_bptree_create : quiet bptree_create.
Proof. apply quiet_calloc. Qed.
Lemma quiet_bptree_destroy tr : quiet (bptree_destroy tr).
Proof. quiet_by bptree_destroy. Qed.
Lemma quiet_bptree_insert tr k v : quiet (bptree_insert tr k v).
Proof. quiet_by bptree_insert. Qed.
Lemma quiet_bptree_search tr k : quiet (bptree_search tr k).
Proof. quiet_by bptree_search. Qed.
#[export] Hint Resolve quiet_bptree_create quiet_bptree_destroy quiet_bptree_insert quiet_bptree_search : quiet.

(** ** The table *)

Lemma quiet_load_table p : quiet (load_table p).
Proof. apply quiet_load. Qed.
Lemma quiet_load_record p : quiet (load_record p).
Proof. apply quiet_load. Qed.
#[export] Hint Resolve quiet_load_table quiet_load_record : quiet.
Lemma quiet_get_bucket t i : quiet (get_bucket t i).
Proof. quiet_by get_bucket. Qed.
Lemma quiet_set_bucket t i f : quiet (set_bucket t i f).
Proof. quiet_by set_bucket. Qed.
Lemma quiet_array_get p i : quiet (array_get p i).
Proof. quiet_by array_get. Qed.
Lemma quiet_array_set p i x : quiet (array_set p i x).
Proof. quiet_by array_set. Qed.
Lemma quiet_realloc p n : quiet (realloc_array p n).
Proof. quiet_by realloc_array. Qed.
#[export] Hint Resolve quiet_get_bucket quiet_set_bucket quiet_array_get quiet_array_set quiet_realloc : quiet.
Lemma quiet_rwlock_init t i : quiet (pthread_rwlock_init t i).
Proof. quiet_by pthread_rwlock_init. Qed.
Lemma quiet_rdlock t i : quiet (pthread_rwlock_rdlock t i).
Proof. quiet_by pthread_rwlock_rdlock. Qed.
Lemma quiet_wrlock t i : quiet (pthread_rwlock_wrlock t i).
Proof. quiet_by pthread_rwlock_wrlock. Qed.
Lemma quiet_unlock t i : quiet (pthread_rwlock_unlock t i).
Proof. quiet_by pthread_rwlock_unlock. Qed.
Lemma quiet_rwlock_destroy t i : quiet (pthread_rwlock_destroy t i).
Proof. quiet_by pthread_rwlock_destroy. Qed.
Lemma quiet_mutex_init t : quiet (pthread_mutex_init t).
Proof. quiet_by pthread_mutex_init. Qed.
Lemma quiet_mutex_lock t : quiet (pthread_mutex_lock t).
Proof. quiet_by pthread_mutex_lock. Qed.
Lemma quiet_mutex_unlock t : quiet (pthread_mutex_unlock t).
Proof. quiet_by pthread_mutex_unlock. Qed.
Lemma quiet_mutex_destroy t : quiet (pthread_mutex_destroy t).
Proof. quiet_by pthread_mutex_destroy. Qed.
#[export] Hint Resolve quiet_rwlock_init quiet_rdlock quiet_wrlock quiet_unlock quiet_rwlock_destroy
  quiet_mutex_init quiet_mutex_lock quiet_mutex_unlock quiet_mutex_destroy : quiet.
Lemma quiet_ensure_capacity t i : quiet (table_ensure_capacity t i).
Proof. quiet_by table_ensure_capacity. Qed.
Lemma quiet_append rs cap r : quiet (table_append_record rs cap r).
Proof. quiet_by table_append_record. Qed.
Lemma quiet_keyed ps : quiet (keyed ps).
Proof. induction ps as [|[p|] ps IH]; simpl; repeat quiet_step. Qed.
Lemma quiet_free_array rs : quiet (table_free_record_array rs).
Proof. quiet_by table_free_record_array. Qed.
#[export] Hint Resolve quiet_ensure_capacity quiet_append quiet_keyed quiet_free_array : quiet.
Lemma quiet_qsort p n : quiet (qsort_records p n).
Proof. quiet_by qsort_records. Qed.
#[export] Hint Resolve quiet_qsort : quiet.
Lemma quiet_sort p n : quiet (table_sort_records_by_id p n).
Proof. quiet_by table_sort_records_by_id. Qed.
Lemma quiet_collect_bucket t i rs cap : quiet (table_collect_bucket_rows_locked t i rs cap).
Proof. quiet_by table_collect_bucket_rows_locked. Qed.
#[export] Hint Resolve quiet_sort quiet_collect_bucket : quiet.
Lemma quiet_collect_all t rs : quiet (table_collect_all_sorted t rs).
Proof. quiet_by table_collect_all_sorted. Qed.
#[export] Hint Resolve quiet_collect_all : quiet.
Lemma quiet_table_destroy t : quiet (table_destroy t).
Proof. quiet_by table_destroy. Qed.
#[export] Hint Resolve quiet_table_destroy : quiet.
Lemma quiet_table_create : quiet table_create.
Proof. quiet_by table_create. Qed.
Lemma quiet_take_next_id t : quiet (take_next_id t).
Proof. quiet_by take_next_id. Qed.
#[export] Hint Resolve quiet_table_create quiet_take_next_id : quiet.
Lemma quiet_table_insert t name age : quiet (table_insert t name age).
Proof. quiet_by table_insert. Qed.
Lemma quiet_find_by_id t id : quiet (table_find_by_id t id).
Proof. quiet_by table_find_by_id. Qed.
Lemma quiet_append_matching test all rs : quiet (append_matching test all rs).
Proof. quiet_by append_matching. Qed.
#[export] Hint Resolve quiet_table_insert quiet_find_by_id quiet_append_matching : quiet.
Lemma quiet_name_matches t name rs : quiet (table_find_by_name_matches t name rs).
Proof. quiet_by table_find_by_name_matches. Qed.
Lemma quiet_id_condition t c id rs : quiet (table_find_by_id_condition t c id rs).
Proof. quiet_by table_find_by_id_condition. Qed.
Lemma quiet_age_condition t c age rs : quiet (table_find_by_age_condition t c age rs).
Proof. quiet_by table_find_by_age_condition. Qed.
#[export] Hint Resolve quiet_name_matches quiet_id_condition quiet_age_condition : quiet.

(** ** The SQL layer *)

Lemma quiet_insert_plan t c : quiet (sql_execute_insert_plan t c).
Proof. quiet_by sql_execute_insert_plan. Qed.
Lemma quiet_select_plan t c : quiet (sql_execute_select_plan t c).
Proof. quiet_by sql_execute_select_plan; unfold table_collect_all; repeat quiet_step. Qed.
#[export] Hint Resolve quiet_insert_plan quiet_select_plan : quiet.
Lemma quiet_execute_plan t c : quiet (sql_execute_plan t c).
Proof. quiet_by sql_execute_plan. Qed.
#[export] Hint Resolve quiet_execute_plan : quiet.
Lemma quiet_execute t s : quiet (sql_execute t s).
Proof. quiet_by sql_execute. Qed.
Lemma quiet_result_destroy r : quiet (sql_result_destroy r).
Proof. quiet_by sql_result_destroy. Qed.
#[export] Hint Resolve quiet_execute quiet_result_destroy : quiet.

Lemma wp_quiet {A} (c : prog Mem A) (Q : A → Mem → Prop) m :
  quiet c → wp c Q m → wp c (λ a m', calm m m' ∧ Q a m') m.
Proof. unfold wpx. intros Hq. destruct (c m) as [[a m']| | | |] eqn:E; [|done..]. intros HQ. split; [|done]. by eapply Hq. Qed.
