(* ===== verification/Repl.v ===== *)
(** The interactive program [sql_processor/main.c]: it reads lines, executes
    them and prints the replies; what it prints for a whole session. *)
From stdpp Require Import base list gmap sorting strings.
From Stdlib Require Import Ascii ZArith Lia.
From S2P Require Import Prelude Memory CLib BPTree Index Table TableMem TableRep TableCollect TableQueries TableUpdate TableLife TableSpec Sql SqlLex SqlGrammar SqlErrors SqlSpec Quiet.

Definition INPUT_BUFFER_SIZE : nat := 256.

(** ** Input *)

(** What [fgets] takes from the input: at most [n] bytes, up to a newline. *)
Fixpoint fgets_line (n : nat) (input : cstr) : cstr * cstr :=
  match input, n with
  | [], _ | _, O => ([], input)
  | c :: input', S n' =>
      if decide (c = newline) then ([c], input')
      else let '(line, rest) := fgets_line n' input' in (c :: line, rest)
  end.

Definition fgets (size : nat) (input : cstr) : option (cstr * cstr) :=
  match input with [] => None | _ => Some (fgets_line (size - 1) input) end.

(** The string in a buffer: what precedes the first NUL. *)
Fixpoint c_string (buffer : cstr) : cstr :=
  match buffer with
  | [] => []
  | c :: buffer' => if decide (c = NUL) then [] else c :: c_string buffer'
  end.

(** ** The program *)

Definition puts (s : string) : prog Mem unit := emit (lit s ++ [newline]).

Definition print_result (result : SQLResult) : prog Mem unit :=
  if decide (Sql.status result = SQL_STATUS_OK) then
    if decide (action result = SQL_ACTION_INSERT) then
      emit (lit "Inserted row with id = " ++ print_dec (inserted_id result) ++ [newline])
    else if decide (action result = SQL_ACTION_SELECT_ROWS) then
      printed ← table_print_records (records (res_rows result)) (count (res_rows result));
      if decide (printed = 0) then puts "No rows" else mret tt
    else puts "Done"
  else if decide (Sql.status result = SQL_STATUS_NOT_FOUND) then puts "Not found"
  else if decide (error_message result ≠ []) then emit (error_message result ++ [newline])
  else if decide (Sql.status result = SQL_STATUS_SYNTAX_ERROR) then puts "Syntax error"
  else puts "Execution error".

(** One turn of the loop on the rest of the standard input. *)
Definition repl_step (table : ptr) (stdin : cstr) : prog Mem (cstr + unit) :=
  emit (lit "sql> ");;
  match fgets INPUT_BUFFER_SIZE stdin with
  | None => mret (inr tt)
  | Some (input, stdin) =>
      result ← sql_execute table (Some (c_string input));
      if decide (Sql.status result = SQL_STATUS_EXIT) then
        sql_result_destroy result;; mret (inr tt)
      else
        print_result result;;
        sql_result_destroy result;;
        mret (inl stdin)
  end.

Definition banner : cstr :=
  concat (map (λ s, lit s ++ [newline])
    ["Simple SQL Processor with B+ Tree Index";
     "Supported statements:";
     "  INSERT INTO users VALUES ('Alice', 20);";
     "  SELECT * FROM users;";
     "  SELECT * FROM users WHERE id = 1;";
     "  SELECT * FROM users WHERE id >= 10;";
     "  SELECT * FROM users WHERE name = 'Alice';";
     "  SELECT * FROM users WHERE age = 20;";
     "  SELECT * FROM users WHERE age > 20;";
     "  SELECT * FROM users WHERE age <= 20;";
     "Type EXIT or QUIT to leave."]).

(** Each turn consumes input, so there are at most [length stdin] of them and
    one more that finds the end. *)
Definition repl_main (stdin : cstr) : prog Mem Z :=
  table ← table_create;
  match table with
  | None => mret 1%Z
  | Some _ =>
      emit banner;;
      while_loop (S (length stdin)) (repl_step table) stdin;;
      table_destroy table;;
      mret 0%Z
  end.

(** ** What a session prints *)

Fixpoint input_lines (fuel : nat) (stdin : cstr) : list cstr :=
  match fuel with
  | O => []
  | S fuel' =>
      match fgets INPUT_BUFFER_SIZE stdin with
      | None => []
      | Some (line, rest) => c_string line :: input_lines fuel' rest
      end
  end.

Definition line_of (s : string) : cstr := lit s ++ [newline].
Definition reply_text (r : sql_reply) : cstr :=
  match rp_status r, rp_action r with
  | SQL_STATUS_OK, SQL_ACTION_INSERT => lit "Inserted row with id = " ++ print_dec (rp_inserted r) ++ [newline]
  | SQL_STATUS_OK, SQL_ACTION_SELECT_ROWS => concat (map record_line (rp_rows r))
  | SQL_STATUS_OK, SQL_ACTION_NONE => line_of "Done"
  | SQL_STATUS_NOT_FOUND, _ => line_of "Not found"
  | SQL_STATUS_SYNTAX_ERROR, _ => rp_message r ++ [newline]
  | SQL_STATUS_QUERY_ERROR, _ => rp_message r ++ [newline]
  | _, _ => line_of "Execution error"
  end.

Fixpoint session (lines : list cstr) (db : list record) : cstr :=
  lit "sql> " ++
  match lines with
  | [] => []
  | text :: lines' =>
      let '(rep, db') := spec_sql text db in
      if decide (rp_status rep = SQL_STATUS_EXIT) then [] else reply_text rep ++ session lines' db'
  end.

(** ** Refinement *)

Lemma fgets_line_app n input line rest :
  fgets_line n input = (line, rest) → input = line ++ rest ∧ length line ≤ n.
Proof.
  revert n line rest. induction input as [|c input IH]; intros n line rest.
  { destruct n; intros [= <- <-]; (split; [done|simpl; lia]). }
  destruct n as [|n]; [intros [= <- <-]; split; [done|simpl; lia]|]. simpl.
  case_decide; [intros [= <- <-]; split; [done|simpl; lia]|].
  destruct (fgets_line n input) as [line' rest'] eqn:E. intros [= <- <-].
  destruct (IH _ _ _ E) as [-> ?]. split; [done|simpl; lia].
Qed.

Lemma fgets_line_progress n c input line rest :
  fgets_line (S n) (c :: input) = (line, rest) → length rest ≤ length input.
Proof.
  simpl. case_decide; [by intros [= <- <-]|]. destruct (fgets_line n input) as [l r] eqn:E.
  intros [= <- <-]. destruct (fgets_line_app _ _ _ _ E) as [-> _]. rewrite length_app. lia.
Qed.

Lemma fgets_shorter size input line rest :
  fgets size input = Some (line, rest) → 2 ≤ size → length rest < length input ∧ length line < size.
Proof.
  destruct input as [|c input]; [done|]. intros E Hs. apply (inj Some) in E.
  destruct (fgets_line_app _ _ _ _ E) as [Heq Hl].
  destruct size as [|[|n]]; [lia..|]. simpl Nat.sub in *. apply fgets_line_progress in E. simpl. lia.
Qed.

Lemma input_lines_fuel n : ∀ k stdin, length stdin ≤ n → length stdin ≤ k → input_lines n stdin = input_lines k stdin.
Proof.
  induction n as [|n IH]; intros k stdin Hn Hk.
  - destruct stdin; [|simpl in *; lia]. by destruct k.
  - destruct k as [|k]; [destruct stdin; [done|simpl in *; lia]|]. cbn [input_lines].
    destruct (fgets INPUT_BUFFER_SIZE stdin) as [[line rest]|] eqn:E; [|done].
    destruct (fgets_shorter _ _ _ _ E) as [Hr _]; [unfold INPUT_BUFFER_SIZE; lia|].
    rewrite (IH k rest) by lia. done.
Qed.

Section repl.
Context {KI : KeyIndex}.

Lemma holds_set_out tb db m0 m o : holds tb db m0 m → holds tb db m0 (set_out o m).
Proof.
  intros (st & (t & fps & Hinv) & Hdb & Hn & Hm). exists st. split_and!; [|done|done|done].
  exists t, fps. by apply inv_set_out.
Qed.

Lemma result_set_out tb db m0 r rep m o : result_at tb db m0 r rep m → result_at tb db m0 r rep (set_out o m).
Proof.
  intros [m' rws cap m1 Hh Hb Hin Hg Hr|l x m1 Hh Hx Hr|m1 s code state message Hh Hr].
  - eapply (RA_rows _ _ _ _ (set_out o m')); [by apply holds_set_out|exact Hb|exact Hin|by apply growing_set_out|done].
  - eapply RA_insert; [by apply holds_set_out|exact Hx|done].
  - apply RA_plain; [by apply holds_set_out|done].
Qed.

Lemma wp_emit s (Q : unit → Mem → Prop) m : Q tt (set_out (m_out m ++ s) m) → wp (emit s) Q m.
Proof. done. Qed.

(** Printing a result appends the text of its reply. *)
Definition printed (tb : loc) (db : list record) (m0 : Mem) (r : SQLResult) (rep : sql_reply) (text : cstr)
    (m m' : Mem) : Prop :=
  m_out m' = m_out m ++ text ∧ result_at tb db m0 r rep m'.

Lemma wp_print tb db m0 r rep m s (Q : unit → Mem → Prop) :
  result_at tb db m0 r rep m → (∀ m', printed tb db m0 r rep s m m' → Q tt m') → wp (emit s) Q m.
Proof. intros Hat HQ. apply wp_emit, HQ. split; [done|by apply result_set_out]. Qed.

Lemma wp_print_rows tb db m0 r rws m :
  result_at tb db m0 r (rows_reply rws) m → rws ≠ [] →
  wp (printed ← table_print_records (records (res_rows r)) (count (res_rows r));
      if decide (printed = 0) then puts "No rows" else mret tt)
    (λ _, printed tb db m0 r (rows_reply rws) (concat (map record_line rws)) m) m.
Proof.
  intros Hat Hne. inversion Hat as [m' rws' cap m1 Hh Hb Hin Hg Hr Hrep| |]; subst.
  apply wp_bind. eapply print_records_refines; [exact Hg|exact Hin|]. intros m2 Hg2.
  rewrite decide_False by (by destruct rws'; simpl in *; [|lia]). apply wp_ret. split.
  - assert (m_out m2 = m_out m' ++ print_rows rws') as -> by (by destruct Hg2 as (? & ? & ? & -> & _)).
    assert (m_out m = m_out m') as -> by (by destruct Hg as (? & ? & ? & -> & _)).
    by rewrite print_rows_records.
  - eapply RA_rows; [by apply holds_set_out|exact Hb|exact Hin|exact Hg2|done].
Qed.

(** The replies the specification gives. *)
Definition expected (rep : sql_reply) : Prop :=
  (∃ x, rep = insert_reply x) ∨ (∃ rs, rep = rows_reply rs) ∨
  rep = plain_reply SQL_STATUS_EXIT ∨ rep = plain_reply SQL_STATUS_ERROR ∨
  (∃ p, refused p ∧ rep = refused_reply p).

Lemma spec_sql_expected text db : expected (spec_sql text db).1.
Proof.
  unfold spec_sql, expected. destruct (parse_settled text) as [Hp|Hr].
  - rewrite Hp. unfold spec_command. destruct (cmd_type _); simpl; eauto 10.
  - destruct (parsed (sql_parse (Some text))) eqn:Hp; [|by eauto 10].
    destruct Hr; congruence.
Qed.

Lemma print_result_refines tb db m0 r rep m :
  result_at tb db m0 r rep m → expected rep → rp_status rep ≠ SQL_STATUS_EXIT →
  wp (print_result r) (λ _, printed tb db m0 r rep (reply_text rep) m) m.
Proof.
  intros Hat Hex Hne. unfold print_result.
  destruct Hex as [[x ->]|[[rs ->]|[->|[->|(p & Hp & ->)]]]].
  - inversion Hat as [| |]; subst. cbn. eapply wp_print; [exact Hat|done].
  - destruct rs as [|x rs].
    + assert (Sql.status r = SQL_STATUS_NOT_FOUND) as ->.
      { inversion Hat as [m' rws cap m1 Hh Hb Hin Hg Hr Hrep| |]. rewrite Hr. simpl. by destruct rws. }
      eapply wp_print; [exact Hat|done].
    + assert (Sql.status r = SQL_STATUS_OK ∧ action r = SQL_ACTION_SELECT_ROWS) as [-> ->].
      { inversion Hat as [m' rws cap m1 Hh Hb Hin Hg Hr Hrep| |]. rewrite Hr. simpl. by destruct rws. }
      rewrite decide_True, decide_False, decide_True by done.
      by apply wp_print_rows.
  - done.
  - inversion Hat; subst. cbn. eapply wp_print; [exact Hat|done].
  - assert (error_message r = p_error_message p ∧ Sql.status r = p_status p) as [Hmsg Hst].
    { inversion Hat as [| |m1 s code state message Hh Hr]; subst; done. }
    destruct (refused_message p Hp) as [Hm _].
    assert (p_status p = SQL_STATUS_SYNTAX_ERROR ∨ p_status p = SQL_STATUS_QUERY_ERROR) as Hs by (destruct Hp; auto).
    rewrite Hst, Hmsg.
    assert (reply_text (refused_reply p) = p_error_message p ++ [newline]) as ->.
    { unfold reply_text. simpl. by destruct Hs as [-> | ->]. }
    rewrite !decide_False by (destruct Hs; congruence). rewrite decide_True by done.
    eapply wp_print; [exact Hat|done].
Qed.

(** The loop, which stops within as many turns as there are bytes. *)
Lemma loop_refines tb m0 : ∀ fuel stdin db m,
  length stdin < fuel → holds tb db m0 m → (Z.of_nat (length db + length stdin) + 1 < INT_MAX)%Z →
  wp (while_loop fuel (repl_step (Some tb)) stdin)
    (λ _ m', m_out m' = m_out m ++ session (input_lines (length stdin) stdin) db ∧ ∃ db', holds tb db' m0 m') m.
Proof.
  induction fuel as [|fuel IH]; intros stdin db m Hf Hh Hlt; [lia|]. cbn [while_loop]. apply wp_bind.
  unfold repl_step. apply wp_bind, wp_emit.
  pose proof (holds_set_out tb db m0 m (m_out m ++ lit "sql> ") Hh) as Hh1.
  destruct (fgets INPUT_BUFFER_SIZE stdin) as [[line rest]|] eqn:E; last first.
  { apply wp_ret, wp_ret. destruct stdin as [|c stdin]; [|done]. simpl. eauto. }
  destruct (fgets_shorter _ _ _ _ E) as [Hrest _]; [unfold INPUT_BUFFER_SIZE; lia|].
  assert (session (input_lines (length stdin) stdin) db = lit "sql> " ++
    (let '(rep, db') := spec_sql (c_string line) db in
     if decide (rp_status rep = SQL_STATUS_EXIT) then [] else
     reply_text rep ++ session (input_lines (length rest) rest) db')) as ->.
  { destruct (length stdin) as [|n] eqn:Hn; [lia|]. cbn [input_lines]. rewrite E.
    cbn [session]. rewrite (input_lines_fuel n (length rest)) by lia. done. }
  pose proof (spec_sql_expected (c_string line) db) as Hex. pose proof (spec_sql_length (c_string line) db) as Hlen.
  apply wp_bind. eapply wp_mono; [|apply wp_quiet; [apply quiet_execute|apply execute_refines; [exact Hh1|lia]]].
  intros r m1 [(Hout & _ & _) Hat]. destruct (spec_sql (c_string line) db) as [rep db']. cbn [fst snd] in *.
  assert (Sql.status r = rp_status rep) as Hst.
  { by inversion Hat as [? ? ? ? ? ? ? ? Hr|? ? ? ? ? Hr|? ? ? ? ? ? Hr]; rewrite Hr. }
  rewrite Hst. case_decide as Hexit.
  - apply wp_bind. eapply wp_mono; [|apply wp_quiet; [apply quiet_result_destroy|eapply wp_result_destroy; [exact Hat|]]].
    2: { intros r' m' Hh'. exact Hh'. }
    intros r' m2 [(Hout2 & _ & _) Hh2]. apply wp_ret, wp_ret. split; [|eauto]. rewrite Hout2, Hout. by rewrite app_nil_r.
  - wp_call (by eapply print_result_refines). intros u m2 [Hout2 Hat2].
    apply wp_bind. eapply wp_mono; [|apply wp_quiet; [apply quiet_result_destroy|eapply wp_result_destroy; [exact Hat2|]]].
    2: { intros r' m' Hh'. exact Hh'. }
    intros r' m3 [(Hout3 & _ & _) Hh3]. apply wp_ret. eapply wp_mono; [|apply (IH rest db' m3); [lia|exact Hh3|lia]].
    intros u' m4 [Hout4 Hh4]. split; [|done]. rewrite Hout4, Hout3, Hout2, Hout. simpl. by rewrite <- !(assoc_L (++)).
Qed.

Lemma main_refines stdin m :
  mem_bounded m → no_failure m → (Z.of_nat (length stdin) + 1 < INT_MAX)%Z →
  wp (repl_main stdin) (λ code m', code = 0%Z ∧
    m_out m' = m_out m ++ banner ++ session (input_lines (length stdin) stdin) [] ∧ same_heaps m m') m.
Proof.
  intros Hb Hm Hlt. apply wp_bind.
  assert (wp table_create (λ p m1, ∃ tb, p = Some tb ∧ holds tb [] m m1) m) as Hcreate.
  { apply create_refines; [done| |].
    - intros m' (_ & Hm' & _). by destruct Hm'.
    - intros tb m1 Hat _ Henv _. exists tb. split; [done|]. exists empty_state.
      split_and!; [done|done|done|by eapply suffix_no_failure]. }
  eapply wp_mono; [|apply wp_quiet; [apply quiet_table_create|exact Hcreate]].
  intros p m1 ((Hout1 & _ & _) & tb & -> & Hh1). apply wp_bind, wp_emit, wp_bind.
  eapply wp_mono; [|apply (loop_refines tb m _ stdin []); [lia|by apply holds_set_out|simpl; lia]].
  intros u m2 (Hout2 & db & st & Hat2 & _). apply wp_bind.
  eapply wp_mono; [|apply wp_quiet; [apply quiet_table_destroy|by eapply destroy_refines_table]].
  intros u' m3 ((Hout3 & _ & _) & Hs & _). apply wp_ret. split_and!; [done| |done].
  rewrite Hout3, Hout2. simpl. rewrite Hout1. by rewrite <- !(assoc_L (++)).
Qed.
End repl.
