(* ===== verification/Bytes.v ===== *)
(** Character arrays on the heap, [size_t] arithmetic and formatted output:
    [malloc], [realloc], [memcpy] and [vsnprintf] as the server uses them. *)
From stdpp Require Import base list gmap strings.
From Stdlib Require Import Ascii ZArith Lia.
From S2P Require Import Prelude Memory CLib.

(** ** [size_t] *)

(** Arithmetic on [size_t] wraps at 64 bits. *)
Definition size_t (z : Z) : Z := (z mod 18446744073709551616)%Z.

Lemma size_t_id z : (0 ≤ z < 18446744073709551616)%Z → size_t z = z.
Proof. apply Z.mod_small. Qed.

(** ** Literals *)

Definition dquote : ascii := ascii_of_N 34.
Definition backslash : ascii := ascii_of_N 92.

(** A literal whose double quotes are written as single quotes. *)
Definition dq (s : String.string) : cstr :=
  (λ c, if decide (c = "'"%char) then dquote else c) <$> lit s.

(** ** Blocks *)

Definition malloc_bytes (n : Z) : prog Mem ptr := calloc (T:=byte_block) (replicate (Z.to_nat n) None).

(** [realloc(p, n)]: a new block with the old contents; the old block is freed,
    unless the call fails. *)
Definition realloc_bytes (p : ptr) (n : Z) : prog Mem ptr :=
  ok ← lib_call;
  if (ok : bool) then
    old ← (match p with None => mret [] | Some _ => load (T:=byte_block) p end);
    q ← fresh_block (take (Z.to_nat n) old ++ replicate (Z.to_nat n - length old) None);
    free (T:=byte_block) p;;
    mret q
  else mret None.

(** An array with [bs] written from [off] on. *)
Definition overwrite (off : nat) (bs : cstr) (blk : byte_block) : byte_block :=
  take off blk ++ (Some <$> bs) ++ drop (off + length bs) blk.

(** [memcpy(p + off, bs, length)]: undefined outside the block. *)
Definition write_bytes (p : ptr) (off : Z) (bs : cstr) : prog Mem unit :=
  blk ← load (T:=byte_block) p;
  if decide (Z.to_nat off + length bs ≤ length blk)
  then store p (overwrite (Z.to_nat off) bs blk)
  else ub.

(** The C string at the head of an array: undefined when the array ends, or was
    never written, before a NUL. *)
Fixpoint block_string (blk : byte_block) : option cstr :=
  match blk with
  | Some c :: blk' => if decide (c = NUL) then Some [] else cons c <$> block_string blk'
  | _ => None
  end.

Definition read_string (p : ptr) : prog Mem cstr :=
  blk ← load (T:=byte_block) p;
  match block_string blk with Some s => mret s | None => ub end.

(** ** Formatted output *)

Inductive fmt_arg :=
  | FInt (z : Z)         (* %d *)
  | FSize (z : Z)        (* %zu *)
  | FUnsigned (z : Z)    (* %04x *)
  | FString (s : cstr).  (* %s *)

Definition hex_digit (d : Z) : ascii :=
  ascii_of_N (Z.to_N (if decide (d < 10)%Z then 48 + d else 87 + d)%Z).
Fixpoint hex_digits (fuel : nat) (n : Z) (acc : cstr) : cstr :=
  match fuel with
  | O => acc
  | S fuel' =>
      let acc' := hex_digit (n mod 16) :: acc in
      if decide (n / 16 = 0)%Z then acc' else hex_digits fuel' (n / 16)%Z acc'
  end.
(** [%04x]: hexadecimal, padded with zeros to four digits. *)
Definition print_hex4 (z : Z) : cstr :=
  let ds := hex_digits 8 z [] in replicate (4 - length ds) "0"%char ++ ds.

(** The text of a format and its arguments; [None] when they do not match. *)
Fixpoint format_text (format : cstr) (args : list fmt_arg) : option cstr :=
  match format with
  | [] => Some []
  | c :: f =>
      if decide (c ≠ "%"%char) then cons c <$> format_text f args
      else
        match f with
        | d :: f1 =>
            if decide (d = "d"%char) then
              match args with FInt z :: args' => app (print_dec z) <$> format_text f1 args' | _ => None end
            else if decide (d = "s"%char) then
              match args with FString s :: args' => app s <$> format_text f1 args' | _ => None end
            else
              match f1 with
              | u :: f2 =>
                  if decide (d = "z"%char ∧ u = "u"%char) then
                    match args with FSize z :: args' => app (print_dec z) <$> format_text f2 args' | _ => None end
                  else
                    match f2 with
                    | x :: f3 =>
                        if decide (d = "0"%char ∧ u = "4"%char ∧ x = "x"%char) then
                          match args with
                          | FUnsigned z :: args' => app (print_hex4 z) <$> format_text f3 args'
                          | _ => None
                          end
                        else None
                    | [] => None
                    end
              | [] => None
              end
        | [] => None
        end
  end.

(** ** Proof rules *)

(** Every block lies below the allocation counter. *)
Definition bytes_bounded (m : Mem) : Prop := ∀ l, is_Some (m_bytes m !! l) → (l < m_next m)%positive.

Lemma wp_malloc_bytes n (Q : ptr → Mem → Prop) m :
  (¬ no_failure m → Q None (env_tail m)) →
  Q (Some (m_next m)) (set_next (Pos.succ (m_next m))
    (set_bytes (<[m_next m := replicate (Z.to_nat n) None]> (m_bytes m)) (env_tail m))) →
  wp (malloc_bytes n) Q m.
Proof.
  intros Hno Hyes. apply wp_bind, wp_lib_call. unfold no_failure in *.
  destruct (m_env m) as [|[] e] eqn:E.
  - done.
  - done.
  - by apply wp_ret, Hno.
Qed.

Lemma wp_realloc_bytes l old n (Q : ptr → Mem → Prop) m :
  m_bytes m !! l = Some old → bytes_bounded m →
  (¬ no_failure m → Q None (env_tail m)) →
  Q (Some (m_next m)) (set_next (Pos.succ (m_next m))
    (set_bytes (delete l (<[m_next m := take (Z.to_nat n) old ++ replicate (Z.to_nat n - length old) None]>
      (m_bytes m))) (env_tail m))) →
  wp (realloc_bytes (Some l) n) Q m.
Proof.
  intros Hl Hb Hno Hyes. apply wp_bind, wp_lib_call. unfold no_failure in *.
  assert (l < m_next m)%positive as Hlt by (apply Hb; eauto).
  assert (wp (old ← load (T:=byte_block) (Some l);
      q ← fresh_block (take (Z.to_nat n) old ++ replicate (Z.to_nat n - length old) None);
      free (T:=byte_block) (Some l);; mret q) Q (env_tail m)) as Hgo.
  { apply wp_bind. eapply wp_load; [exact Hl|]. apply wp_bind. unfold fresh_block, wpx at 1.
    apply wp_bind, (wp_free l old); [|by apply wp_ret].
    etrans; [|exact Hl]. apply lookup_insert_ne. simpl. lia. }
  destruct (m_env m) as [|[] e] eqn:E; [exact Hgo|exact Hgo|by apply wp_ret, Hno].
Qed.

Lemma wp_write_bytes l blk off bs (Q : unit → Mem → Prop) m :
  m_bytes m !! l = Some blk → off + length bs ≤ length blk →
  Q tt (set_bytes (<[l := overwrite off bs blk]> (m_bytes m)) m) →
  wp (write_bytes (Some l) (Z.of_nat off) bs) Q m.
Proof.
  intros Hl Hle HQ. apply wp_bind. eapply wp_load; [exact Hl|]. rewrite Nat2Z.id, decide_True by done.
  eapply wp_store; [exact Hl|]. exact HQ.
Qed.

Lemma length_overwrite off bs blk :
  off + length bs ≤ length blk → length (overwrite off bs blk) = length blk.
Proof. intros H. unfold overwrite. rewrite !length_app, length_take, length_fmap, length_drop. lia. Qed.

(** What precedes the written range, and the range. *)
Lemma take_overwrite off bs blk :
  off + length bs ≤ length blk →
  take (off + length bs) (overwrite off bs blk) = take off blk ++ (Some <$> bs).
Proof.
  intros H. unfold overwrite. rewrite (assoc_L (++)).
  assert (off + length bs = length (take off blk ++ (Some <$> bs))) as Hl.
  { rewrite length_app, length_take, length_fmap. lia. }
  rewrite Hl at 1. by rewrite take_app_length.
Qed.

Lemma block_string_spec s blk : NUL ∉ s → block_string ((Some <$> s) ++ Some NUL :: blk) = Some s.
Proof.
  induction s as [|c s IH]; intros Hs; [done|].
  apply not_elem_of_cons in Hs as [Hc Hs]. rewrite fmap_cons, <- app_comm_cons. cbn [block_string].
  by rewrite decide_False, IH.
Qed.

(** ** Checking all bytes *)

Definition all_bytes : cstr := (λ i, ascii_of_N (N.of_nat i)) <$> seq 0 256.

(** A decidable property of bytes holds of all when it holds of the 256. *)
Lemma by_bytes (P : ascii → bool) : forallb P all_bytes = true → ∀ c, P c = true.
Proof.
  intros H c. rewrite forallb_forall in H. apply H, list_elem_of_In, list_elem_of_fmap.
  exists (N.to_nat (N_of_ascii c)). split; [by rewrite N2Nat.id, ascii_N_embedding|].
  apply elem_of_seq. pose proof (N_ascii_bounded c). lia.
Qed.
