(* ===== verification/Json.v ===== *)
(** The growing text buffer of [server/json_util.c], one definition per
    function. *)
From stdpp Require Import base list gmap strings.
From Stdlib Require Import Ascii ZArith Lia.
From S2P Require Import Prelude Memory CLib Bytes.

(** ** The buffer *)

Record JsonBuffer := MkBuffer { buf_data : ptr; buf_len : Z; buf_cap : Z }.

(** A [JsonBuffer *] is [None] when null; an operation returns its success and
    the buffer it leaves. *)
Abbreviation buffer_call := (prog Mem (bool * option JsonBuffer)).

(** [if (!c) return 0; k] *)
Definition and_then (c : buffer_call) (k : option JsonBuffer → buffer_call) : buffer_call :=
  r ← c;
  if (r.1 : bool) then k r.2 else mret r.

(** 65 turns: a non-zero capacity overflows [size_t] before that. *)
Definition grow_capacity (new_cap required : Z) : prog Mem Z :=
  while_loop 65 (λ new_cap,
    if decide (new_cap < required)%Z then mret (inl (size_t (new_cap * 2))) else mret (inr new_cap)) new_cap.

Definition json_buffer_reserve (buffer : option JsonBuffer) (extra : Z) : buffer_call :=
  match buffer with
  | None => mret (false, None)
  | Some b =>
      let required := size_t (buf_len b + extra + 1) in
      if decide (required ≤ buf_cap b)%Z then mret (true, Some b)
      else
        new_cap ← grow_capacity (if decide (buf_cap b = 0)%Z then 128%Z else buf_cap b) required;
        new_data ← realloc_bytes (buf_data b) new_cap;
        match new_data with
        | None => mret (false, Some b)
        | Some _ => mret (true, Some (MkBuffer new_data (buf_len b) new_cap))
        end
  end.

Definition json_buffer_init (buffer : option JsonBuffer) (initial_capacity : Z) : buffer_call :=
  match buffer with
  | None => mret (false, None)
  | Some _ =>
      let initial_capacity := (if decide (initial_capacity = 0)%Z then 128%Z else initial_capacity) in
      data ← malloc_bytes initial_capacity;
      match data with
      | None => mret (false, Some (MkBuffer None 0 0))
      | Some _ =>
          write_bytes data 0 [NUL];;
          mret (true, Some (MkBuffer data 0 initial_capacity))
      end
  end.

(** [buffer->data[buffer->len++] = c; buffer->data[buffer->len] = 0], for the
    bytes of a text at once, as [memcpy] does. *)
Definition put_text (buffer : option JsonBuffer) (text : cstr) : buffer_call :=
  match buffer with
  | None => ub
  | Some b =>
      write_bytes (buf_data b) (buf_len b) text;;
      let len := size_t (buf_len b + Z.of_nat (length text)) in
      write_bytes (buf_data b) len [NUL];;
      mret (true, Some (MkBuffer (buf_data b) len (buf_cap b)))
  end.

Definition json_buffer_append (buffer : option JsonBuffer) (text : option cstr) : buffer_call :=
  match buffer, text with
  | Some _, Some text =>
      and_then (json_buffer_reserve buffer (Z.of_nat (length text))) (λ buffer, put_text buffer text)
  | _, _ => mret (false, buffer)
  end.

(** [vsnprintf(data + len, cap - len, format, args)], whose result [text] does
    not fit [int] above [INT_MAX]; the arguments must match the format. *)
Definition json_buffer_appendf (buffer : option JsonBuffer) (format : option cstr) (args : list fmt_arg) :
    buffer_call :=
  match buffer, format with
  | Some _, Some format =>
      match format_text format args with
      | None => ub
      | Some text =>
          let needed := Z.of_nat (length text) in
          if decide (INT_MAX < needed)%Z then mret (false, buffer)
          else
            and_then (json_buffer_reserve buffer needed) (λ buffer,
            match buffer with
            | None => ub
            | Some b =>
                let room := size_t (buf_cap b - buf_len b) in
                (if decide (room = 0)%Z then mret tt
                 else write_bytes (buf_data b) (buf_len b) (take (Z.to_nat room - 1) text ++ [NUL]));;
                mret (true, Some (MkBuffer (buf_data b) (size_t (buf_len b + needed)) (buf_cap b)))
            end)
      end
  | _, _ => mret (false, buffer)
  end.

(** One turn of the loop over the text. *)
Definition append_char (buffer : option JsonBuffer) (c : ascii) : buffer_call :=
  if decide (c = backslash) then json_buffer_append buffer (Some [backslash; backslash])
  else if decide (c = dquote) then json_buffer_append buffer (Some [backslash; dquote])
  else if decide (code c = 8)%Z then json_buffer_append buffer (Some [backslash; "b"%char])
  else if decide (code c = 12)%Z then json_buffer_append buffer (Some [backslash; "f"%char])
  else if decide (code c = 10)%Z then json_buffer_append buffer (Some [backslash; "n"%char])
  else if decide (code c = 13)%Z then json_buffer_append buffer (Some [backslash; "r"%char])
  else if decide (code c = 9)%Z then json_buffer_append buffer (Some [backslash; "t"%char])
  else if decide (code c < 32)%Z then
    json_buffer_appendf buffer (Some (lit "\u%04x")) [FUnsigned (code c)]
  else and_then (json_buffer_reserve buffer 1) (λ buffer, put_text buffer [c]).

Fixpoint append_chars (buffer : option JsonBuffer) (cursor : cstr) : buffer_call :=
  match cursor with
  | [] => mret (true, buffer)
  | c :: cursor' => and_then (append_char buffer c) (λ buffer, append_chars buffer cursor')
  end.

Definition json_buffer_append_json_string (buffer : option JsonBuffer) (text : option cstr) : buffer_call :=
  match buffer, text with
  | Some _, Some text =>
      and_then (json_buffer_append buffer (Some [dquote])) (λ buffer,
      and_then (append_chars buffer text) (λ buffer,
      json_buffer_append buffer (Some [dquote])))
  | _, _ => mret (false, buffer)
  end.

Definition json_buffer_detach (buffer : option JsonBuffer) : prog Mem (ptr * option JsonBuffer) :=
  match buffer with
  | None => mret (None, None)
  | Some b => mret (buf_data b, Some (MkBuffer None 0 0))
  end.

Definition json_buffer_destroy (buffer : option JsonBuffer) : prog Mem (option JsonBuffer) :=
  match buffer with
  | None => mret None
  | Some b => free (T:=byte_block) (buf_data b);; mret (Some (MkBuffer None 0 0))
  end.
