(* ===== verification/JsonProofs.v ===== *)
(** The JSON buffer holds what was appended to it: every operation either
    appends its text and keeps the terminating NUL, or reports a failed
    allocation and keeps a prefix; no block of anyone else is touched. *)
From stdpp Require Import base list gmap strings.
From Stdlib Require Import Ascii ZArith Lia.
From S2P Require Import Prelude Memory CLib CLibProofs BPTree Table TableMem Bytes Json.

(** ** Text of a JSON string *)

Definition json_escape (c : ascii) : cstr :=
  if decide (c = backslash) then [backslash; backslash]
  else if decide (c = dquote) then [backslash; dquote]
  else if decide (code c = 8)%Z then [backslash; "b"%char]
  else if decide (code c = 12)%Z then [backslash; "f"%char]
  else if decide (code c = 10)%Z then [backslash; "n"%char]
  else if decide (code c = 13)%Z then [backslash; "r"%char]
  else if decide (code c = 9)%Z then [backslash; "t"%char]
  else if decide (code c < 32)%Z then lit "\u" ++ print_hex4 (code c)
  else [c].
Definition json_escaped (s : cstr) : cstr := concat (json_escape <$> s).
Definition json_string (s : cstr) : cstr := [dquote] ++ json_escaped s ++ [dquote].

(** ** What a buffer holds *)

Definition CAP_MAX : Z := 9223372036854775808.   (* 2 ^ 63 *)
Definition TEXT_MAX : Z := 4611686018427387904.  (* 2 ^ 62 *)

(** [m] is [m0] with one more block, which holds [s] and a NUL, and some library
    calls and addresses spent. *)
Definition block_added (m0 : Mem) (l : loc) (blk : byte_block) (m : Mem) : Prop :=
  ∃ n e, m = set_env e (set_next n (set_bytes (<[l := blk]> (m_bytes m0)) m0)) ∧
    m_bytes m0 !! l = None ∧ (m_next m0 ≤ n ∧ l < n)%positive ∧ e `suffix_of` m_env m0 ∧ bytes_bounded m0.

Definition holds_text (s : cstr) (blk : byte_block) : Prop :=
  ∃ rest, blk = (Some <$> s) ++ Some NUL :: rest.

Definition buffer_at (m0 : Mem) (b : JsonBuffer) (s : cstr) (m : Mem) : Prop :=
  ∃ l blk, b = MkBuffer (Some l) (Z.of_nat (length s)) (Z.of_nat (length blk)) ∧
    block_added m0 l blk m ∧ holds_text s blk ∧ (Z.of_nat (length blk) ≤ CAP_MAX)%Z.

Lemma holds_text_length s blk : holds_text s blk → length s < length blk.
Proof. intros [rest ->]. rewrite length_app, length_fmap. simpl. lia. Qed.

Section block.
Context (m0 m : Mem) (l : loc) (blk : byte_block) (Hadd : block_added m0 l blk m).

Lemma block_added_lookup : m_bytes m !! l = Some blk.
Proof. destruct Hadd as (n & e & -> & _). apply lookup_insert_eq. Qed.

Lemma block_added_bounded : bytes_bounded m.
Proof.
  destruct Hadd as (n & e & -> & Hl & Hn & _ & Hb). intros x Hx. simpl in *.
  destruct (decide (x = l)) as [->|Hne]; [lia|]. rewrite lookup_insert_ne in Hx by done. apply Hb in Hx. lia.
Qed.

Lemma block_added_env_tail : block_added m0 l blk (env_tail m).
Proof.
  destruct Hadd as (n & e & -> & Hl & [Hn1 Hn2] & He & Hb). exists n, (tail e). split_and!; [done..| |done].
  etrans; [|exact He]. destruct e as [|b e]; [done|]. by exists [b].
Qed.

Lemma block_added_no_failure : no_failure m0 → no_failure m.
Proof.
  destruct Hadd as (n & e & -> & _ & _ & He & _). unfold no_failure. intros Hm. rewrite Hm in He.
  by apply suffix_nil_inv in He.
Qed.

Lemma block_added_set blk' : block_added m0 l blk' (set_bytes (<[l := blk']> (m_bytes m)) m).
Proof.
  destruct Hadd as (n & e & -> & Hl & [Hn1 Hn2] & He & Hb). exists n, e. split_and!; [|done..].
  unfold set_env, set_next, set_bytes. simpl. by rewrite insert_insert_eq.
Qed.

Lemma block_added_move blk' :
  block_added m0 (m_next m) blk' (set_next (Pos.succ (m_next m))
    (set_bytes (delete l (<[m_next m := blk']> (m_bytes m))) m)).
Proof.
  destruct Hadd as (n & e & -> & Hl & [Hn1 Hn2] & He & Hb). exists (Pos.succ n), e.
  split_and!; [| |simpl; lia|simpl; lia|exact He|exact Hb].
  - unfold set_env, set_next, set_bytes. simpl. do 2 f_equal.
    rewrite insert_insert_ne by lia. by rewrite delete_insert_id by (rewrite lookup_insert_ne by lia; done).
  - simpl. apply eq_None_not_Some. intros Hx%Hb. lia.
Qed.
End block.

(** ** Growing *)

Lemma grow_capacity_spec c0 required (Q : Z → Mem → Prop) m :
  (0 < c0 ≤ CAP_MAX)%Z → (required ≤ TEXT_MAX)%Z →
  (∀ c, (c0 ≤ c ≤ CAP_MAX)%Z → (required ≤ c)%Z → Q c m) →
  wp (grow_capacity c0 required) Q m.
Proof.
  intros Hc0 Hr HQ. unfold CAP_MAX, TEXT_MAX in *.
  apply (wp_while _ _ (λ c s, (c0 ≤ c ≤ 9223372036854775808)%Z ∧ s = m) (λ c _, Z.to_nat (64 - Z.log2 c))).
  - by split; [lia|].
  - pose proof (Z.log2_nonneg c0). lia.
  - intros c s [Hc ->]. case_decide as Hlt; apply wp_ret; [|apply HQ; lia].
    rewrite size_t_id by lia. split; [split; [lia|done]|].
    rewrite (Z.mul_comm c 2), Z.log2_double by lia.
    pose proof (Z.log2_le_mono c (2 ^ 62) ltac:(lia)) as Hlog. rewrite Z.log2_pow2 in Hlog by lia. lia.
Qed.

Section operations.
Context (m0 : Mem).
Implicit Types (b : JsonBuffer) (s t : cstr).

Lemma wp_reserve b s m (extra : nat) (Q : bool * option JsonBuffer → Mem → Prop) :
  buffer_at m0 b s m → (Z.of_nat (length s + extra) < TEXT_MAX)%Z →
  (∀ m', ¬ no_failure m0 → buffer_at m0 b s m' → Q (false, Some b) m') →
  (∀ b' m', buffer_at m0 b' s m' → (Z.of_nat (length s + extra) < buf_cap b')%Z → Q (true, Some b') m') →
  wp (json_buffer_reserve (Some b) (Z.of_nat extra)) Q m.
Proof.
  intros Hat Hlt Hno Hyes. unfold TEXT_MAX in *. pose proof Hat as (l & blk & -> & Hadd & Ht & Hcap).
  unfold json_buffer_reserve. cbn [buf_data buf_len buf_cap].
  rewrite size_t_id by (unfold CAP_MAX in *; lia). pose proof (holds_text_length _ _ Ht) as Hlen.
  case_decide as Hfit; [by apply wp_ret, Hyes; [exact Hat|simpl; lia]|].
  rewrite decide_False by lia. apply wp_bind, grow_capacity_spec; [lia|unfold TEXT_MAX; lia|].
  intros c Hc Hreq. apply wp_bind. eapply wp_realloc_bytes; [by eapply block_added_lookup|by eapply block_added_bounded| |].
  - intros Hm. apply wp_ret, Hno.
    + intros Hm0. by apply Hm, (block_added_no_failure m0 m l blk).
    + exists l, blk. split_and!; [done|by apply block_added_env_tail|done|done].
  - apply wp_ret, Hyes; [|simpl; lia]. rewrite take_ge by lia. set (blk' := blk ++ _).
    assert (length blk' = Z.to_nat c) as Hl' by (unfold blk'; rewrite length_app, length_replicate; lia).
    exists (m_next m), blk'. split_and!.
    + rewrite Hl'. f_equal. lia.
    + pose proof (block_added_move m0 _ _ _ (block_added_env_tail _ _ _ _ Hadd) blk') as H. exact H.
    + destruct Ht as [rest ->]. exists (rest ++ replicate (Z.to_nat c - length ((Some <$> s) ++ Some NUL :: rest)) None).
      unfold blk'. by rewrite <- (assoc_L (++)).
    + lia.
Qed.

(** Writing a text and its NUL at the end of the buffer. *)
Lemma overwrite_end s t blk : holds_text s blk → length s + length t < length blk →
  holds_text (s ++ t) (overwrite (length s) (t ++ [NUL]) blk).
Proof.
  intros [rest ->] Hl. unfold overwrite. rewrite take_app_length' by by rewrite length_fmap.
  eexists. rewrite !fmap_app, <- !(assoc_L (++)). done.
Qed.

Lemma overwrite_twice s t blk : holds_text s blk → length s + length t < length blk →
  overwrite (length s + length t) [NUL] (overwrite (length s) t blk) = overwrite (length s) (t ++ [NUL]) blk.
Proof.
  intros _ Hl. unfold overwrite at 1. rewrite take_overwrite by lia. unfold overwrite.
  rewrite fmap_app, <- !(assoc_L (++)). do 3 f_equal. rewrite !drop_app, drop_drop.
  rewrite !length_take, !length_fmap, (drop_ge (take _ _)) by (rewrite length_take; lia).
  rewrite (drop_ge (Some <$> t)) by (rewrite length_fmap; lia). simpl. f_equal. rewrite length_app. simpl. lia.
Qed.

Lemma wp_write_block l blk off t m (Q : unit → Mem → Prop) :
  block_added m0 l blk m → off + length t ≤ length blk →
  (∀ m', block_added m0 l (overwrite off t blk) m' → Q tt m') →
  wp (write_bytes (Some l) (Z.of_nat off) t) Q m.
Proof.
  intros Hadd Hle HQ. eapply wp_write_bytes; [by eapply block_added_lookup|done|].
  by apply HQ, (block_added_set m0 m l blk).
Qed.

Lemma wp_put_text b s t m (Q : bool * option JsonBuffer → Mem → Prop) :
  buffer_at m0 b s m → (Z.of_nat (length s + length t) < buf_cap b)%Z →
  (∀ b' m', buffer_at m0 b' (s ++ t) m' → Q (true, Some b') m') →
  wp (put_text (Some b) t) Q m.
Proof.
  intros (l & blk & -> & Hadd & Ht & Hcap) Hlt HQ. unfold CAP_MAX in *. simpl in Hlt.
  cbn [put_text buf_data buf_len buf_cap]. apply wp_bind. eapply wp_write_block; [exact Hadd|lia|].
  intros m1 H1. cbv zeta. rewrite size_t_id by lia. rewrite <- Nat2Z.inj_add. apply wp_bind.
  eapply wp_write_block; [exact H1|rewrite length_overwrite by lia; simpl; lia|].
  intros m2 H2. rewrite (overwrite_twice s t) in H2 by (done || lia). apply wp_ret, HQ.
  exists l, (overwrite (length s) (t ++ [NUL]) blk).
  rewrite length_overwrite by (rewrite length_app; simpl; lia). rewrite length_app.
  split_and!; [done|done|by apply overwrite_end; [|lia]|done].
Qed.

(** [c] appends [t] to a buffer that holds [s], or fails. *)
Definition appends s t (c : buffer_call) (m : Mem) : Prop :=
  wp c (λ r m', ∃ b' s', r.2 = Some b' ∧ buffer_at m0 b' s' m' ∧
    if r.1 then s' = s ++ t else ¬ no_failure m0 ∧ s `prefix_of` s') m.

Lemma appends_seq s t1 t2 c k m :
  appends s t1 c m → (∀ b' m', buffer_at m0 b' (s ++ t1) m' → appends (s ++ t1) t2 (k (Some b')) m') →
  appends s (t1 ++ t2) (and_then c k) m.
Proof.
  intros Hc Hk. wp_call (exact Hc). intros [[] ob] m1 (b' & s' & Hob & Hat & Hs); simpl in *; subst ob.
  - subst s'. eapply wp_mono; [|by apply Hk]. intros [ok ob] m2 (b2 & s2 & Hob & Hat2 & Hs2).
    exists b2, s2. split_and!; [done|done|]. simpl in *. destruct ok.
    + by rewrite Hs2, (assoc_L (++)).
    + destruct Hs2 as [? Hp]. split; [done|].
      destruct Hp as [k' ->]. exists (t1 ++ k'). by rewrite (assoc_L (++)).
  - apply wp_ret. exists b', s'. split; [done|]. split; [done|exact Hs].
Qed.

Lemma reserve_appends b s m n t k :
  buffer_at m0 b s m → (Z.of_nat (length s + n) < TEXT_MAX)%Z →
  (∀ b' m', buffer_at m0 b' s m' → (Z.of_nat (length s + n) < buf_cap b')%Z → appends s t (k (Some b')) m') →
  appends s t (and_then (json_buffer_reserve (Some b) (Z.of_nat n)) k) m.
Proof.
  intros Hat Hlt Hk. apply wp_bind. eapply wp_reserve; [done..| |].
  - intros m' Hm Hat'. apply wp_ret. exists b, s. by split_and!.
  - intros b' m' Hat' Hcap. by apply Hk.
Qed.

Lemma put_text_appends b s t m :
  buffer_at m0 b s m → (Z.of_nat (length s + length t) < buf_cap b)%Z → appends s t (put_text (Some b) t) m.
Proof. intros Hat Hlt. eapply wp_put_text; [done..|]. intros b' m' Hat'. exists b', (s ++ t). by split_and!. Qed.

Lemma append_appends b s t m :
  buffer_at m0 b s m → (Z.of_nat (length s + length t) < TEXT_MAX)%Z →
  appends s t (json_buffer_append (Some b) (Some t)) m.
Proof.
  intros Hat Hlt. apply (reserve_appends b); [done..|]. intros b' m' Hat' Hcap. by apply put_text_appends.
Qed.

Lemma appendf_appends b s fmt args t m :
  buffer_at m0 b s m → format_text fmt args = Some t →
  (Z.of_nat (length s + length t) < TEXT_MAX)%Z → (Z.of_nat (length t) ≤ INT_MAX)%Z →
  appends s t (json_buffer_appendf (Some b) (Some fmt) args) m.
Proof.
  intros Hat Hf Hlt Hint. unfold json_buffer_appendf. rewrite Hf. cbv zeta.
  rewrite decide_False by lia. apply (reserve_appends b); [done..|].
  intros b' m' (l & blk & -> & Hadd & Ht & Hcap) Hroom. unfold CAP_MAX in *. simpl in Hroom.
  cbn [buf_data buf_len buf_cap]. pose proof (holds_text_length _ _ Ht).
  rewrite !size_t_id by lia. rewrite decide_False, take_ge by lia.
  apply wp_bind. eapply wp_write_block; [exact Hadd|rewrite length_app; simpl; lia|].
  intros m2 H2. apply wp_ret. eexists _, (s ++ t). split_and!; [done| |done].
  exists l, (overwrite (length s) (t ++ [NUL]) blk).
  rewrite length_overwrite by (rewrite length_app; simpl; lia). rewrite length_app.
  split_and!; [f_equal; lia|done|by apply overwrite_end; [|lia]|done].
Qed.

(** ** Strings *)

Lemma json_escape_length c : length (json_escape c) ≤ 6.
Proof.
  apply Nat.leb_le. revert c. apply by_bytes. vm_compute. reflexivity.
Qed.

Lemma json_escaped_length t : length (json_escaped t) ≤ 6 * length t.
Proof.
  unfold json_escaped. induction t as [|c t IH]; [simpl; lia|]. rewrite fmap_cons. cbn [concat].
  rewrite length_app. pose proof (json_escape_length c). simpl length. lia.
Qed.

Lemma append_char_appends b s c m :
  buffer_at m0 b s m → (Z.of_nat (length s + 6) < TEXT_MAX)%Z →
  appends s (json_escape c) (append_char (Some b) c) m.
Proof.
  intros Hat Hlt. unfold append_char, json_escape.
  repeat (case_decide; [apply append_appends; [done|simpl; lia]|]).
  case_decide as Hctl.
  - pose proof (json_escape_length c) as Hl. unfold json_escape in Hl.
    rewrite !decide_False, decide_True in Hl by done.
    apply appendf_appends; [done| |lia|unfold INT_MAX; lia].
    cbv [lit String.list_ascii_of_string format_text]. simpl. by rewrite app_nil_r.
  - apply (reserve_appends b _ _ 1); [done|lia|]. intros b' m' Hat' Hcap. by apply put_text_appends.
Qed.

Lemma append_chars_appends b s t m :
  buffer_at m0 b s m → (Z.of_nat (length s + 6 * length t) < TEXT_MAX)%Z →
  appends s (json_escaped t) (append_chars (Some b) t) m.
Proof.
  revert b s m. induction t as [|c t IH]; intros b s m Hat Hlt.
  - apply wp_ret. exists b, s. split_and!; [done|done|]. by rewrite app_nil_r.
  - simpl in Hlt. unfold json_escaped. rewrite fmap_cons. cbn [concat append_chars]. apply appends_seq.
    + apply append_char_appends; [done|lia].
    + intros b' m' Hat'. apply IH; [done|]. rewrite length_app. pose proof (json_escape_length c). lia.
Qed.

Lemma append_json_string_appends b s t m :
  buffer_at m0 b s m → (Z.of_nat (length s + 6 * length t + 2) < TEXT_MAX)%Z →
  appends s (json_string t) (json_buffer_append_json_string (Some b) (Some t)) m.
Proof.
  intros Hat Hlt. pose proof (json_escaped_length t). apply appends_seq.
  - apply append_appends; [done|simpl; lia].
  - intros b1 m1 Hat1. apply appends_seq.
    + apply append_chars_appends; [done|]. rewrite length_app. simpl. lia.
    + intros b2 m2 Hat2. apply append_appends; [done|]. rewrite !length_app. simpl. lia.
Qed.

(** ** Creating and releasing *)

Definition init_cap (n : Z) : Z := if decide (n = 0)%Z then 128%Z else n.

Lemma wp_buffer_init b0 n (Q : bool * option JsonBuffer → Mem → Prop) :
  bytes_bounded m0 → (0 ≤ n ≤ CAP_MAX)%Z →
  (∀ m', ¬ no_failure m0 → spent m0 m' → Q (false, Some (MkBuffer None 0 0)) m') →
  (∀ b m', buffer_at m0 b [] m' → Q (true, Some b) m') →
  wp (json_buffer_init (Some b0) n) Q m0.
Proof.
  intros Hb Hn Hno Hyes. cbn [json_buffer_init]. cbv zeta. fold (init_cap n).
  assert (0 < init_cap n ≤ CAP_MAX)%Z as Hc.
  { unfold init_cap, CAP_MAX in *. case_decide; lia. }
  apply wp_bind, wp_malloc_bytes.
  - intros Hm. apply wp_ret, Hno; [done|]. apply spent_spec. exists (m_next m0), (tail (m_env m0)).
    split_and!; [by destruct m0|apply env_tail_suffix|done].
  - set (m1 := set_next _ _). assert (block_added m0 (m_next m0) (replicate (Z.to_nat (init_cap n)) None) m1) as Hadd.
    { exists (Pos.succ (m_next m0)), (tail (m_env m0)). split_and!; [done| |lia|lia|apply env_tail_suffix|done].
      apply eq_None_not_Some. intros Hx%Hb. lia. }
    apply wp_bind. apply (wp_write_block _ _ 0 _ _ _ Hadd); [rewrite length_replicate; simpl; lia|].
    intros m2 H2. apply wp_ret, Hyes. eexists _, _. split_and!; [|exact H2| |].
    + rewrite length_overwrite by (rewrite length_replicate; simpl; lia). rewrite length_replicate. simpl. f_equal. lia.
    + exists (drop 1 (replicate (Z.to_nat (init_cap n)) None)). done.
    + rewrite length_overwrite by (rewrite length_replicate; simpl; lia). rewrite length_replicate. lia.
Qed.

Lemma block_added_free l blk m (Q : unit → Mem → Prop) :
  block_added m0 l blk m → (∀ m', spent m0 m' → Q tt m') → wp (free (T:=byte_block) (Some l)) Q m.
Proof.
  intros (n & e & -> & Hl & [Hn1 Hn2] & He & Hb) HQ.
  eapply (@wp_free _ heap_bytes); [apply lookup_insert_eq|]. apply HQ, spent_spec. exists n, e.
  split_and!; [|done|simpl; lia]. unfold set_env, set_next, set_bytes. simpl.
  rewrite delete_insert_id by done. by destruct m0.
Qed.

Lemma wp_buffer_destroy b s m (Q : option JsonBuffer → Mem → Prop) :
  buffer_at m0 b s m → (∀ m', spent m0 m' → Q (Some (MkBuffer None 0 0)) m') →
  wp (json_buffer_destroy (Some b)) Q m.
Proof.
  intros (l & blk & -> & Hadd & _) HQ. apply wp_bind. eapply block_added_free; [exact Hadd|].
  intros m' Hs. by apply wp_ret, HQ.
Qed.

Lemma spent_bytes m : spent m0 m → m_bytes m = m_bytes m0.
Proof. by intros (n & e & -> & _)%spent_spec. Qed.
End operations.

(** ** Bounded bodies *)

Definition BODY_MAX : Z := 288230376151711744. (* 2 ^ 58 *)

Lemma json_escape_nonempty c : 1 ≤ length (json_escape c).
Proof.
  apply Nat.leb_le. revert c. apply by_bytes. vm_compute. reflexivity.
Qed.

Lemma json_string_length s : length s + 2 ≤ length (json_string s).
Proof.
  unfold json_string, json_escaped. rewrite !length_app. simpl length.
  induction s as [|c s IH]; [simpl; lia|]. rewrite fmap_cons. cbn [concat]. rewrite length_app.
  pose proof (json_escape_nonempty c). simpl length. lia.
Qed.

(** [c] appends [t], as long as the whole stays below [BODY_MAX] bytes. *)
Definition emits (m0 : Mem) (s t : cstr) (c : buffer_call) (m : Mem) : Prop :=
  (Z.of_nat (length (s ++ t)) < BODY_MAX)%Z → appends m0 s t c m.

Section emits.
Context (m0 : Mem).

Lemma emits_seq s t1 t2 c k m :
  emits m0 s t1 c m → (∀ b' m', buffer_at m0 b' (s ++ t1) m' → emits m0 (s ++ t1) t2 (k (Some b')) m') →
  emits m0 s (t1 ++ t2) (and_then c k) m.
Proof.
  intros Hc Hk Hlt. rewrite (assoc_L (++)) in Hlt. apply appends_seq.
  - apply Hc. rewrite length_app in Hlt. lia.
  - intros b' m' Hat. by apply Hk.
Qed.

Lemma emits_text b s t m : buffer_at m0 b s m → emits m0 s t (json_buffer_append (Some b) (Some t)) m.
Proof. intros Hat Hlt. apply append_appends; [done|]. rewrite length_app in Hlt. unfold BODY_MAX, TEXT_MAX in *. lia. Qed.

Lemma emits_format b s fmt args t m : buffer_at m0 b s m → format_text fmt args = Some t →
  (Z.of_nat (length t) ≤ INT_MAX)%Z → emits m0 s t (json_buffer_appendf (Some b) (Some fmt) args) m.
Proof.
  intros Hat Hf Hint Hlt. apply appendf_appends; [done..| |done].
  rewrite length_app in Hlt. unfold BODY_MAX, TEXT_MAX in *. lia.
Qed.

Lemma emits_string b s t m :
  buffer_at m0 b s m → emits m0 s (json_string t) (json_buffer_append_json_string (Some b) (Some t)) m.
Proof.
  intros Hat Hlt. apply append_json_string_appends; [done|]. rewrite length_app in Hlt.
  pose proof (json_string_length t). unfold BODY_MAX, TEXT_MAX in *. lia.
Qed.

Lemma emits_nothing b s m : buffer_at m0 b s m → emits m0 s [] (mret (true, Some b)) m.
Proof. intros Hat _. exists b, s. split_and!; [done|done|]. by rewrite app_nil_r. Qed.
End emits.
