(* ===== verification/JsonValue.v ===== *)
(** JSON values, their compact text, and a reader of that text: reading what was
    printed gives the value back. *)
From stdpp Require Import base list gmap strings.
From Stdlib Require Import Ascii ZArith Lia.
From S2P Require Import Prelude Memory CLib CLibProofs BPTree Table TableMem Bytes Json JsonProofs.

Inductive json :=
  | JBool (b : bool)
  | JNum (z : Z)
  | JStr (s : cstr)
  | JArr (items : list json)
  | JObj (members : list (cstr * json)).

(** ** Printing *)

Fixpoint separated (ts : list cstr) : cstr :=
  match ts with
  | [] => []
  | [t] => t
  | t :: ts' => t ++ [","%char] ++ separated ts'
  end.

Fixpoint print_json (j : json) : cstr :=
  match j with
  | JBool true => lit "true"
  | JBool false => lit "false"
  | JNum z => print_dec z
  | JStr s => json_string s
  | JArr items => lit "[" ++ separated (map print_json items) ++ lit "]"
  | JObj members =>
      lit "{" ++ separated (map (λ kv, json_string kv.1 ++ lit ":" ++ print_json kv.2) members) ++ lit "}"
  end.

(** ** Reading *)

Definition hex_value (c : ascii) : option Z :=
  if decide (48 ≤ code c ≤ 57)%Z then Some (code c - 48)%Z
  else if decide (97 ≤ code c ≤ 102)%Z then Some (code c - 87)%Z else None.

(** The byte an escape stands for: [u] and four digits below 256, or a letter. *)
Definition unescape (e : ascii) : option ascii :=
  if decide (e = backslash ∨ e = dquote) then Some e
  else if decide (e = "b"%char) then Some (ascii_of_N 8)
  else if decide (e = "f"%char) then Some (ascii_of_N 12)
  else if decide (e = "n"%char) then Some (ascii_of_N 10)
  else if decide (e = "r"%char) then Some (ascii_of_N 13)
  else if decide (e = "t"%char) then Some (ascii_of_N 9)
  else None.

Definition hex_byte (h1 h2 h3 h4 : ascii) : option ascii :=
  a ← hex_value h1; b ← hex_value h2; c ← hex_value h3; d ← hex_value h4;
  if decide (a = 0 ∧ b = 0)%Z then Some (ascii_of_N (Z.to_N (16 * c + d))) else None.

(** The rest of a string literal after its opening quote. *)
Fixpoint parse_chars (s : cstr) : option (cstr * cstr) :=
  match s with
  | [] => None
  | c :: s1 =>
      if decide (c = dquote) then Some ([], s1)
      else if decide (c = backslash) then
        match s1 with
        | [] => None
        | e :: s2 =>
            if decide (e = "u"%char) then
              match s2 with
              | h1 :: h2 :: h3 :: h4 :: s3 =>
                  x ← hex_byte h1 h2 h3 h4; '(t, rest) ← parse_chars s3; Some (x :: t, rest)
              | _ => None
              end
            else x ← unescape e; '(t, rest) ← parse_chars s2; Some (x :: t, rest)
        end
      else if decide (code c < 32)%Z then None
      else '(t, rest) ← parse_chars s1; Some (c :: t, rest)
  end.

(** A number: no leading zeros. *)
Definition parse_number (s : cstr) : option (Z * cstr) :=
  let '(neg, s1) := match s with
                    | c :: s' => if decide (c = "-"%char) then (true, s') else (false, s)
                    | [] => (false, [])
                    end in
  let '(v, seen, rest) := scan_digits s1 0 false in
  if negb seen || bool_decide (cur s1 = "0"%char ∧ length rest + 1 < length s1) then None
  else Some (if neg then - v else v, rest)%Z.

Definition after (t s : cstr) : option cstr :=
  if decide (take (length t) s = t) then Some (drop (length t) s) else None.

Fixpoint parse_value (fuel : nat) (s : cstr) {struct fuel} : option (json * cstr) :=
  match fuel with
  | O => None
  | S fuel' =>
      let c := cur s in
      if decide (c = dquote) then '(t, rest) ← parse_chars (tail s); Some (JStr t, rest)
      else if decide (c = "["%char) then
        match after (lit "]") (tail s) with
        | Some rest => Some (JArr [], rest)
        | None => '(vs, rest) ← parse_items fuel' (tail s); Some (JArr vs, rest)
        end
      else if decide (c = "{"%char) then
        match after (lit "}") (tail s) with
        | Some rest => Some (JObj [], rest)
        | None => '(kvs, rest) ← parse_members fuel' (tail s); Some (JObj kvs, rest)
        end
      else
        match after (lit "true") s, after (lit "false") s with
        | Some rest, _ => Some (JBool true, rest)
        | None, Some rest => Some (JBool false, rest)
        | None, None => '(z, rest) ← parse_number s; Some (JNum z, rest)
        end
  end
with parse_items (fuel : nat) (s : cstr) {struct fuel} : option (list json * cstr) :=
  match fuel with
  | O => None
  | S fuel' =>
      '(v, s1) ← parse_value fuel' s;
      match after (lit ",") s1, after (lit "]") s1 with
      | Some s2, _ => '(vs, rest) ← parse_items fuel' s2; Some (v :: vs, rest)
      | None, Some rest => Some ([v], rest)
      | None, None => None
      end
  end
with parse_members (fuel : nat) (s : cstr) {struct fuel} : option (list (cstr * json) * cstr) :=
  match fuel with
  | O => None
  | S fuel' =>
      s0 ← after [dquote] s; '(k, s1) ← parse_chars s0; s2 ← after (lit ":") s1;
      '(v, s3) ← parse_value fuel' s2;
      match after (lit ",") s3, after (lit "}") s3 with
      | Some s4, _ => '(kvs, rest) ← parse_members fuel' s4; Some ((k, v) :: kvs, rest)
      | None, Some rest => Some ([(k, v)], rest)
      | None, None => None
      end
  end.

(** A whole text: every turn of the reader consumes a byte. *)
Definition read_json (s : cstr) : option json :=
  match parse_value (S (length s)) s with Some (j, []) => Some j | _ => None end.

Example read_sample :
  read_json (dq "{'ok':true,'rows':[{'id':1,'name':'A\nB'},{}],'n':-70}") =
    Some (JObj [(lit "ok", JBool true);
                (lit "rows", JArr [JObj [(lit "id", JNum 1); (lit "name", JStr (lit "A" ++ [newline] ++ lit "B"))]; JObj []]);
                (lit "n", JNum (-70))]).
Proof. vm_compute. reflexivity. Qed.

(** ** Strings *)

Lemma code_ascii c n : code c = Z.of_N n → c = ascii_of_N n.
Proof. unfold code. intros H%N2Z.inj. by rewrite <- H, ascii_N_embedding. Qed.

Lemma hex_byte_print c : (code c < 32)%Z →
  ∃ h1 h2 h3 h4, print_hex4 (code c) = [h1; h2; h3; h4] ∧ hex_byte h1 h2 h3 h4 = Some c.
Proof.
  intros H. apply Z.ltb_lt in H. revert H.
  assert ((code c <? 32)%Z → match print_hex4 (code c) with
    | [h1; h2; h3; h4] => hex_byte h1 h2 h3 h4 = Some c | _ => False end) as Hall.
  { revert c. assert (∀ c, implb (code c <? 32)%Z (match print_hex4 (code c) with
      | [h1; h2; h3; h4] => bool_decide (hex_byte h1 h2 h3 h4 = Some c) | _ => false end) = true) as Hc
      by (apply by_bytes; vm_compute; reflexivity).
    intros c Hlt. specialize (Hc c). destruct (code c <? 32)%Z; [|done]. simpl in Hc.
    destruct (print_hex4 (code c)) as [|h1 [|h2 [|h3 [|h4 []]]]]; try done. by apply bool_decide_eq_true in Hc. }
  intros Hlt. rewrite Hlt in Hall. specialize (Hall I).
  destruct (print_hex4 (code c)) as [|h1 [|h2 [|h3 [|h4 []]]]]; try done. by exists h1, h2, h3, h4.
Qed.

Lemma parse_escape e x s t rest : e ≠ "u"%char → unescape e = Some x →
  parse_chars s = Some (t, rest) → parse_chars (backslash :: e :: s) = Some (x :: t, rest).
Proof.
  intros He Hx Hs. cbn [parse_chars]. rewrite (decide_False (P:=backslash = dquote)), decide_True by done.
  rewrite decide_False by done. by rewrite Hx, Hs.
Qed.

Lemma parse_chars_escape c s t rest :
  parse_chars s = Some (t, rest) → parse_chars (json_escape c ++ s) = Some (c :: t, rest).
Proof.
  intros H. unfold json_escape.
  case_decide; [subst; by apply parse_escape|]. case_decide; [subst; by apply parse_escape|].
  case_decide as H8; [rewrite (code_ascii c 8 H8); by apply parse_escape|].
  case_decide as H12; [rewrite (code_ascii c 12 H12); by apply parse_escape|].
  case_decide as H10; [rewrite (code_ascii c 10 H10); by apply parse_escape|].
  case_decide as H13; [rewrite (code_ascii c 13 H13); by apply parse_escape|].
  case_decide as H9; [rewrite (code_ascii c 9 H9); by apply parse_escape|].
  case_decide as Hctl.
  - destruct (hex_byte_print c Hctl) as (h1 & h2 & h3 & h4 & -> & Hx).
    change (parse_chars (backslash :: "u"%char :: h1 :: h2 :: h3 :: h4 :: s) = Some (c :: t, rest)).
    cbn [parse_chars]. rewrite (decide_False (P:=backslash = dquote)), !decide_True by done. by rewrite Hx, H.
  - cbn [app parse_chars]. rewrite !decide_False by done. by rewrite H.
Qed.

Lemma parse_chars_escaped t rest : parse_chars (json_escaped t ++ dquote :: rest) = Some (t, rest).
Proof.
  induction t as [|c t IH]; [done|]. unfold json_escaped. rewrite fmap_cons. cbn [concat].
  rewrite <- (assoc_L (++)). by apply parse_chars_escape.
Qed.

(** ** Numbers *)

Lemma digit_zero d : (0 ≤ d < 10)%Z → digit d = "0"%char → d = 0%Z.
Proof. intros Hd H. assert (code (digit d) = 48)%Z as Hc by (by rewrite H). rewrite code_digit in Hc by done. lia. Qed.

Lemma dec_digits_head f : ∀ n acc, (0 < n < 10 ^ Z.of_nat f)%Z →
  cur (dec_digits f n acc) ≠ "0"%char.
Proof.
  induction f as [|f IH]; intros n acc Hn; [simpl in Hn; lia|]. cbn [dec_digits].
  pose proof (Z.mod_pos_bound n 10 ltac:(lia)) as Hmod. pose proof (Z.div_mod n 10 ltac:(lia)) as Hdiv.
  case_decide as Hq.
  - simpl. intros H%digit_zero; lia.
  - apply IH. replace (Z.of_nat (S f)) with (Z.of_nat f + 1)%Z in Hn by lia.
    rewrite Z.pow_add_r in Hn by lia. pose proof (Z.div_pos n 10 ltac:(lia) ltac:(lia)).
    split; [lia|]. apply Z.div_lt_upper_bound; lia.
Qed.

Lemma digits_then n ds rest : is_digits ds → ds ≠ [] → num_value ds = n → isdigit (cur rest) = false →
  scan_digits (ds ++ rest) 0 false = (n, true, rest).
Proof.
  intros Hd Hne <- Hr. rewrite scan_digits_app by done. rewrite bool_decide_eq_true_2 by done. done.
Qed.

Lemma parse_number_print z rest :
  (- 10 ^ 20 < z < 10 ^ 20)%Z → isdigit (cur rest) = false → parse_number (print_dec z ++ rest) = Some (z, rest).
Proof.
  intros Hz Hr. remember (Z.abs z) as n eqn:Hn.
  destruct (dec_digits_spec 20 n []) as (ds & Hds & Hne & Hdig & Hval & _); [simpl Z.of_nat; lia|done|].
  rewrite app_nil_r in Hds. destruct ds as [|x ds]; [done|].
  assert (bool_decide (x = "0"%char ∧ length rest + 1 < length ((x :: ds) ++ rest)) = false) as Hlead.
  { apply bool_decide_eq_false. intros [-> Hlen]. rewrite length_app in Hlen. simpl in Hlen.
    destruct (decide (n = 0)%Z) as [H0|Hpos].
    - rewrite H0 in Hds. injection Hds as <-. simpl in Hlen. lia.
    - pose proof (dec_digits_head 20 n []) as Hh. rewrite Hds in Hh. apply Hh; [simpl Z.of_nat; lia|done]. }
  assert (x ≠ "-"%char) as Hx.
  { apply Forall_cons in Hdig as [Hx _]. by apply digit_not_sign. }
  unfold print_dec, parse_number. destruct (decide (z < 0)%Z) as [Hneg|Hneg].
  - replace (- z)%Z with n by lia. rewrite Hds. cbn [app]. rewrite decide_True by done.
    change (x :: ds ++ rest) with ((x :: ds) ++ rest). rewrite (digits_then n) by done.
    change (cur ((x :: ds) ++ rest)) with x. rewrite Hlead. simpl. do 2 f_equal. lia.
  - assert (z = n) as Hzn by lia. rewrite Hzn, Hds. cbn [app]. rewrite decide_False by done.
    change (x :: ds ++ rest) with ((x :: ds) ++ rest). rewrite (digits_then n) by done.
    change (cur ((x :: ds) ++ rest)) with x. rewrite Hlead. done.
Qed.

(** ** Values *)

Fixpoint json_size (j : json) : nat :=
  match j with
  | JBool _ | JNum _ | JStr _ => 1
  | JArr items => S (sum_list (map (λ v, S (json_size v)) items))
  | JObj members => S (sum_list (map (λ kv, S (json_size kv.2)) members))
  end.

(** The numbers of a value have at most 20 digits. *)
Fixpoint json_ok (j : json) : Prop :=
  match j with
  | JBool _ | JStr _ => True
  | JNum z => (- 10 ^ 20 < z < 10 ^ 20)%Z
  | JArr items => foldr (λ v P, json_ok v ∧ P) True items
  | JObj members => foldr (λ kv P, json_ok kv.2 ∧ P) True members
  end.

Lemma json_ind' (P : json → Prop) :
  (∀ b, P (JBool b)) → (∀ z, P (JNum z)) → (∀ s, P (JStr s)) →
  (∀ items, Forall P items → P (JArr items)) →
  (∀ members, Forall (λ kv, P kv.2) members → P (JObj members)) → ∀ j, P j.
Proof.
  intros Hb Hn Hs Ha Ho. fix IH 1. intros [b|z|s|items|members]; [apply Hb|apply Hn|apply Hs| |].
  - apply Ha. induction items as [|v items IHl]; constructor; [apply IH|exact IHl].
  - apply Ho. induction members as [|[k v] members IHl]; constructor; [apply IH|exact IHl].
Qed.

(** What may follow a value: no digit, so that a number ends. *)
Definition stops (rest : cstr) : Prop := isdigit (cur rest) = false.

Lemma after_app t s : after t (t ++ s) = Some s.
Proof. unfold after. rewrite take_app_length, drop_app_length. by rewrite decide_True. Qed.

Lemma after_other t c s : cur t ≠ c → t ≠ [] → after t (c :: s) = None.
Proof. intros Hc Ht. destruct t as [|x t]; [done|]. unfold after. simpl in *. rewrite decide_False; congruence. Qed.

(** What a value starts with. *)
Definition value_head (c : ascii) : Prop :=
  isdigit c = true ∨ c ∈ [dquote; "["%char; "{"%char; "-"%char; "t"%char; "f"%char].

Lemma print_json_head j : json_ok j → ∃ c s, print_json j = c :: s ∧ value_head c.
Proof.
  unfold value_head. destruct j as [[]|z|s|items|members]; simpl; intros Hok.
  1,2,4,5,6: by eexists _, _; split; [reflexivity|right; set_solver].
  destruct (print_dec_numeral z Hok) as ([|x ds] & Hne & Hd & [[-> _]|[-> _]]); [done..| |].
  - exists x, ds. split; [done|left]. by apply Forall_cons in Hd as [? _].
  - eexists _, _. split; [reflexivity|right; set_solver].
Qed.

Lemma value_head_not c d : value_head c → isdigit d = false →
  d ∉ [dquote; "["%char; "{"%char; "-"%char; "t"%char; "f"%char] → c ≠ d.
Proof. intros [H|H] Hd Hn ->; [congruence|done]. Qed.

Lemma parse_value_number n z rest :
  (- 10 ^ 20 < z < 10 ^ 20)%Z → stops rest → parse_value (S n) (print_dec z ++ rest) = Some (JNum z, rest).
Proof.
  intros Hz Hr. pose proof (parse_number_print z rest Hz Hr) as Hp.
  destruct (print_json_head (JNum z) Hz) as (c & s & Heq & Hc). simpl in Heq. rewrite Heq in *.
  assert (isdigit c = true ∨ c = "-"%char) as Hc'.
  { destruct (print_dec_numeral z Hz) as ([|x ds] & Hne & Hd & [[Hx _]|[Hx _]]); [done..| |];
      rewrite Hx in Heq; injection Heq as <- <-; [left|by right]. by apply Forall_cons in Hd as [? _]. }
  assert (∀ d, d ∈ [dquote; "["%char; "{"%char; "t"%char; "f"%char] → c ≠ d) as Hne.
  { intros d Hd ->. destruct Hc' as [H| ->]; [|set_solver].
    repeat (apply elem_of_cons in Hd as [->|Hd]; [by vm_compute in H|]). by apply elem_of_nil in Hd. }
  assert ("t"%char ≠ c) as Ht by (apply not_eq_sym, Hne; set_solver).
  assert ("f"%char ≠ c) as Hf by (apply not_eq_sym, Hne; set_solver).
  cbn [parse_value]. change (cur ((c :: s) ++ rest)) with c.
  rewrite (decide_False (P:=c = dquote)), (decide_False (P:=c = "["%char)), (decide_False (P:=c = "{"%char))
    by (apply Hne; set_solver).
  change ((c :: s) ++ rest) with (c :: (s ++ rest)) in *.
  rewrite (after_other (lit "true") c _ Ht), (after_other (lit "false") c _ Hf) by done. by rewrite Hp.
Qed.

Definition reads (v : json) : Prop :=
  ∀ n rest, json_size v ≤ n → stops rest → parse_value n (print_json v ++ rest) = Some (v, rest).

Lemma separated_cons t t' ts : separated (t :: t' :: ts) = t ++ [","%char] ++ separated (t' :: ts).
Proof. done. Qed.

Lemma parse_items_print items rest : items ≠ [] → Forall reads items →
  ∀ n, sum_list (map (λ v, S (json_size v)) items) ≤ n →
  parse_items n (separated (map print_json items) ++ lit "]" ++ rest) = Some (items, rest).
Proof.
  intros Hne Hall. induction Hall as [|v items Hv Hall IH]; [done|]. intros n Hn. simpl in Hn.
  destruct n as [|n]; [lia|]. cbn [parse_items]. destruct items as [|v' items].
  - cbn [map separated]. rewrite Hv by (lia || done). cbn [mbind option_bind]. rewrite after_app. done.
  - cbn [map]. rewrite separated_cons, <- !(assoc_L (++)). rewrite Hv by (simpl in *; lia || done).
    cbn [mbind option_bind]. change [","%char] with (lit ","). rewrite after_app.
    change (print_json v' :: map print_json items) with (map print_json (v' :: items)).
    by rewrite IH by (simpl in *; lia || done).
Qed.

Definition print_member (kv : cstr * json) : cstr := json_string kv.1 ++ lit ":" ++ print_json kv.2.

Lemma parse_members_print members rest : members ≠ [] → Forall (λ kv, reads kv.2) members →
  ∀ n, sum_list (map (λ kv, S (json_size kv.2)) members) ≤ n →
  parse_members n (separated (map print_member members) ++ lit "}" ++ rest) = Some (members, rest).
Proof.
  intros Hne Hall. induction Hall as [|[k v] members Hv Hall IH]; [done|]. intros n Hn. simpl in Hn, Hv.
  destruct n as [|n]; [lia|]. cbn [parse_members].
  assert (∀ t ts, separated (t :: ts) = t ++ match ts with [] => [] | _ => [","%char] ++ separated ts end) as Hsep.
  { intros t [|t' ts]; [by rewrite app_nil_r|done]. }
  cbn [map]. rewrite Hsep. unfold print_member at 1, json_string. cbn [fst snd]. rewrite <- !(assoc_L (++)).
  rewrite (after_app [dquote]). cbn [mbind option_bind]. change ([dquote] ++ ?x) with (dquote :: x).
  rewrite parse_chars_escaped. cbn [mbind option_bind]. rewrite (after_app (lit ":")). cbn [mbind option_bind].
  destruct members as [|kv members].
  - cbn [map app]. rewrite Hv by (lia || done). cbn [mbind option_bind]. by rewrite after_app.
  - cbn [map]. rewrite <- (assoc_L (++)). rewrite Hv by (simpl in *; lia || done). cbn [mbind option_bind].
    change [","%char] with (lit ","). rewrite after_app.
    change (print_member kv :: map print_member members) with (map print_member (kv :: members)).
    by rewrite IH by (simpl in *; lia || done).
Qed.

Lemma foldr_and_Forall {A} (P : A → Prop) l : foldr (λ x Q, P x ∧ Q) True l → Forall P l.
Proof. induction l as [|x l IH]; simpl; [constructor|]. intros [? ?]. constructor; auto. Qed.

Lemma Forall_impl_2 {A} (P Q : A → Prop) l : Forall (λ x, P x → Q x) l → Forall P l → Forall Q l.
Proof. intros HPQ. induction HPQ; intros HP; inversion HP; constructor; auto. Qed.

Lemma json_reads j : json_ok j → reads j.
Proof.
  induction j as [b|z|s|items IH|members IH] using json_ind'; intros Hok n rest Hn Hr;
    (destruct n as [|n]; [simpl in Hn; lia|]).
  - by destruct b.
  - by apply parse_value_number.
  - change (print_json (JStr s) ++ rest) with (dquote :: (json_escaped s ++ [dquote]) ++ rest).
    rewrite <- (assoc_L (++)). cbn [parse_value cur tail]. rewrite decide_True by done.
    change ([dquote] ++ rest) with (dquote :: rest). by rewrite parse_chars_escaped.
  - apply foldr_and_Forall in Hok. simpl in Hn.
    assert (print_json (JArr items) ++ rest = "["%char :: separated (map print_json items) ++ lit "]" ++ rest) as ->.
    { cbn [print_json]. by rewrite <- !(assoc_L (++)). }
    cbn [parse_value cur tail]. rewrite decide_False, decide_True by done. destruct items as [|v items]; [done|].
    assert (∃ c s, separated (map print_json (v :: items)) ++ lit "]" ++ rest = c :: s ∧ value_head c) as (c & s & Heq & Hc).
    { apply Forall_cons in Hok as [Hv _]. destruct (print_json_head v Hv) as (c & s & Hp & Hc).
      destruct items as [|v' items]; cbn [map separated]; rewrite Hp; eauto. }
    pose proof (parse_items_print (v :: items) rest ltac:(done) (Forall_impl_2 _ _ _ IH Hok) n) as Hp.
    rewrite Heq in *. rewrite after_other; [rewrite Hp; [done|simpl in *; lia]| |done].
    apply not_eq_sym, value_head_not; [done|done|set_solver].
  - apply foldr_and_Forall in Hok. simpl in Hn.
    assert (print_json (JObj members) ++ rest = "{"%char :: separated (map print_member members) ++ lit "}" ++ rest) as ->.
    { cbn [print_json]. by rewrite <- !(assoc_L (++)). }
    cbn [parse_value cur tail]. rewrite !decide_False, decide_True by done. destruct members as [|[k v] members]; [done|].
    assert (∃ s, separated (map print_member ((k, v) :: members)) ++ lit "}" ++ rest = dquote :: s) as [s Heq].
    { destruct members as [|kv members]; cbn [map separated]; unfold print_member at 1, json_string; simpl; eauto. }
    pose proof (parse_members_print ((k, v) :: members) rest ltac:(done)
      (Forall_impl_2 (λ kv, json_ok kv.2) (λ kv, reads kv.2) _ IH Hok) n) as Hp.
    rewrite Heq in *. rewrite after_other by done. rewrite Hp; [done|simpl in *; lia].
Qed.

(** Every value has at least as many bytes as parts, so the bound of [read_json]
    is enough. *)
Lemma separated_length {A} (f : A → cstr) (size : A → nat) l :
  Forall (λ x, size x ≤ length (f x)) l →
  sum_list (map (λ x, S (size x)) l) ≤ S (length (separated (map f l))).
Proof.
  intros Hall. induction Hall as [|x l Hx Hall IH]; [simpl; lia|].
  destruct l as [|y l]; [simpl in *; lia|]. cbn [map] in *. rewrite separated_cons, length_app.
  rewrite length_app. change (length [","%char]) with 1. set (n := length _) in *. unfold sum_list in *. simpl in *. lia.
Qed.

Lemma json_size_length j : json_ok j → json_size j ≤ length (print_json j).
Proof.
  induction j as [b|z|s|items IH|members IH] using json_ind'; intros Hok.
  - destruct b; simpl; lia.
  - destruct (print_json_head _ Hok) as (c & s & -> & _). simpl. lia.
  - simpl. lia.
  - apply foldr_and_Forall in Hok.
    pose proof (separated_length print_json json_size items (Forall_impl_2 _ _ _ IH Hok)).
    cbn [json_size print_json]. rewrite !length_app. simpl length. lia.
  - apply foldr_and_Forall in Hok.
    assert (Forall (λ kv, json_size kv.2 ≤ length (print_member kv)) members) as Hall.
    { eapply Forall_impl; [exact (Forall_impl_2 (λ kv, json_ok kv.2) _ _ IH Hok)|]. intros [k v] Hkv.
      unfold print_member. rewrite !length_app. simpl in *. lia. }
    pose proof (separated_length print_member (λ kv, json_size kv.2) members Hall).
    cbn [json_size print_json]. rewrite !length_app. fold print_member. simpl length. unfold print_member in *. lia.
Qed.

Lemma read_print j : json_ok j → read_json (print_json j) = Some j.
Proof.
  intros Hok. unfold read_json.
  pose proof (json_reads j Hok (S (length (print_json j))) []) as H. rewrite app_nil_r in H.
  rewrite H; [done| |done]. pose proof (json_size_length j Hok). lia.
Qed.

(** ** The bytes of a text *)

Definition clean (s : cstr) : Prop := Forall (λ c, 32 ≤ code c)%Z s.

Lemma json_escape_clean c : clean (json_escape c).
Proof.
  assert (forallb (λ x, 32 <=? code x)%Z (json_escape c) = true) as H.
  { revert c. apply by_bytes. vm_compute. reflexivity. }
  apply Forall_forall. intros x Hx. rewrite forallb_forall in H. apply Z.leb_le, H. by apply list_elem_of_In.
Qed.

Lemma json_string_clean s : clean (json_string s).
Proof.
  unfold clean, json_string, json_escaped. rewrite !Forall_app. split_and!; try (repeat constructor; discriminate).
  induction s as [|c s IH]; [constructor|]. rewrite fmap_cons. cbn [concat]. apply Forall_app.
  split; [apply json_escape_clean|done].
Qed.

Lemma print_dec_clean z : clean (print_dec z).
Proof.
  assert (∀ f n acc, (0 ≤ n)%Z → clean acc → clean (dec_digits f n acc)) as Hd.
  { intros f. induction f as [|f IH]; intros n acc Hn Ha; cbn [dec_digits]; [done|].
    pose proof (Z.mod_pos_bound n 10 ltac:(lia)) as Hm.
    assert (clean (digit (n mod 10) :: acc)) as Hc by (constructor; [rewrite code_digit by done; lia|done]).
    case_decide; [done|]. apply IH; [apply Z.div_pos; lia|done]. }
  unfold print_dec. case_decide; [constructor; [done|]|]; apply Hd; (lia || constructor).
Qed.

Lemma separated_clean ts : Forall clean ts → clean (separated ts).
Proof.
  intros Hall. induction Hall as [|t ts Ht Hall IH]; [constructor|]. destruct ts as [|t' ts]; [done|].
  rewrite separated_cons. repeat (apply Forall_app; split); [done|repeat constructor; discriminate|done].
Qed.

(** Printed JSON has no control character, so it is a C string on one line. *)
Lemma print_json_clean j : clean (print_json j).
Proof.
  induction j as [b|z|s|items IH|members IH] using json_ind'; cbn [print_json].
  - destruct b; repeat constructor; discriminate.
  - apply print_dec_clean.
  - apply json_string_clean.
  - repeat (apply Forall_app; split); [repeat constructor; discriminate| |repeat constructor; discriminate].
    apply separated_clean, Forall_map. done.
  - repeat (apply Forall_app; split); [repeat constructor; discriminate| |repeat constructor; discriminate].
    apply separated_clean, Forall_map. eapply Forall_impl; [exact IH|]. intros [k v] Hv.
    apply Forall_app; split; [apply json_string_clean|]. apply Forall_app; split; [repeat constructor; discriminate|done].
Qed.

Lemma clean_no_nul s : clean s → NUL ∉ s.
Proof. intros Hs Hin. unfold clean in Hs. rewrite Forall_forall in Hs. by apply Hs in Hin. Qed.
