(* ===== verification/Api.v ===== *)
(** The query API of [server/api.c]: it executes the text of a request and
    builds the JSON body of its response. *)
From stdpp Require Import base list gmap strings.
From Stdlib Require Import Ascii ZArith Lia.
From S2P Require Import Prelude Memory CLib BPTree Table Sql Bytes Json.

Record ApiResult := MkApi { http_status : Z; body : ptr }.

Definition api_action_name (action : SQLAction) : cstr :=
  match action with
  | SQL_ACTION_INSERT => lit "insert"
  | SQL_ACTION_SELECT_ROWS => lit "select"
  | SQL_ACTION_NONE => lit "none"
  end.

Definition api_status_name (status : SQLStatus) : cstr :=
  match status with
  | SQL_STATUS_SYNTAX_ERROR => lit "syntax_error"
  | SQL_STATUS_QUERY_ERROR => lit "query_error"
  | SQL_STATUS_NOT_FOUND => lit "not_found"
  | SQL_STATUS_ERROR => lit "internal_error"
  | SQL_STATUS_EXIT => lit "exit_not_supported"
  | SQL_STATUS_OK => lit "ok"
  end.

Definition api_append_record (buffer : option JsonBuffer) (row : ptr) : buffer_call :=
  r ← load_record row;
  and_then (json_buffer_appendf buffer (Some (dq "{'id':%d,'name':")) [FInt (rec_id r)]) (λ buffer,
  and_then (json_buffer_append_json_string buffer (Some (rec_name r))) (λ buffer,
  json_buffer_appendf buffer (Some (dq ",'age':%d}")) [FInt (rec_age r)])).

(** One turn of the loop over the rows. *)
Definition append_row (res : SQLResult) (index : nat) (buffer : option JsonBuffer) : buffer_call :=
  and_then (if decide (0 < index) then json_buffer_append buffer (Some (lit ",")) else mret (true, buffer)) (λ buffer,
  row ← array_get (records (res_rows res)) index;
  api_append_record buffer row).

Definition append_rows (res : SQLResult) (buffer : option JsonBuffer) : buffer_call :=
  r ← for_until 0 (count (res_rows res)) (λ index buffer,
        r ← append_row res index buffer;
        mret (if (r.1 : bool) then inl r.2 else inr r.2)) buffer;
  match r with
  | inl buffer => mret (true, buffer)
  | inr buffer => mret (false, buffer)
  end.

Definition api_build_success_response (res : SQLResult) (buffer : option JsonBuffer) : buffer_call :=
  and_then (json_buffer_append buffer (Some (dq "{'ok':true,'action':"))) (λ buffer,
  and_then (json_buffer_append_json_string buffer (Some (api_action_name (action res)))) (λ buffer,
  if decide (action res = SQL_ACTION_INSERT) then
    json_buffer_appendf buffer (Some (dq ",'inserted_id':%d,'row_count':%zu}"))
      [FInt (inserted_id res); FSize (Z.of_nat (count (res_rows res)))]
  else
    and_then (json_buffer_appendf buffer (Some (dq ",'row_count':%zu,'rows':["))
                [FSize (Z.of_nat (count (res_rows res)))]) (λ buffer,
    and_then (append_rows res buffer) (λ buffer,
    json_buffer_append buffer (Some (lit "]}")))))).

Definition api_build_error_response (res : SQLResult) (buffer : option JsonBuffer) : buffer_call :=
  and_then (json_buffer_append buffer (Some (dq "{'ok':false,'status':"))) (λ buffer,
  and_then (json_buffer_append_json_string buffer (Some (api_status_name (Sql.status res)))) (λ buffer,
  and_then (json_buffer_appendf buffer (Some (dq ",'error_code':%d,'sql_state':")) [FInt (error_code res)]) (λ buffer,
  and_then (json_buffer_append_json_string buffer (Some (sql_state res))) (λ buffer,
  and_then (json_buffer_append buffer (Some (dq ",'message':"))) (λ buffer,
  and_then (json_buffer_append_json_string buffer (Some
      (if decide (error_message res ≠ []) then error_message res else lit "Unknown SQL error"))) (λ buffer,
  json_buffer_append buffer (Some (lit "}")))))))).

Definition internal_error_body : cstr :=
  dq "{'ok':false,'status':'internal_error','message':'Internal database error'}".
Definition exit_not_supported_body : cstr :=
  dq "{'ok':false,'status':'exit_not_supported','message':'EXIT and QUIT are not supported over HTTP'}".

(** An uninitialised [JsonBuffer] on the stack: [json_buffer_init] sets every
    field before any is read. *)
Definition stack_buffer : option JsonBuffer := Some (MkBuffer None 0 0).

(** The end of every branch: [if (!ok) {...} result->body = ...]. *)
Definition api_finish (status : Z) (ok : bool) (buffer : option JsonBuffer) : prog Mem (bool * option ApiResult) :=
  if negb ok then
    json_buffer_destroy buffer;;
    mret (false, Some (MkApi status None))
  else
    r ← json_buffer_detach buffer;
    json_buffer_destroy r.2;;
    mret (bool_decide (r.1 ≠ None), Some (MkApi status r.1)).

(** What [api_handle_query] sets in [result] before anything else. *)
Definition api_failed : option ApiResult := Some (MkApi 500 None).

(** Its branch for a text that is no statement. *)
Definition api_reply_refused (parse_result : SQLParseResult) : prog Mem (bool * option ApiResult) :=
  r ← json_buffer_init stack_buffer 256;
  if negb r.1 then mret (false, api_failed)
  else if decide (p_status parse_result = SQL_STATUS_ERROR) then
    r ← json_buffer_append r.2 (Some internal_error_body);
    api_finish 500 r.1 r.2
  else
    let error_result :=
      MkSQLResult (p_status parse_result) SQL_ACTION_NONE None no_results 0
        (p_error_code parse_result)
        (snprintf SQL_SQLSTATE_SIZE (p_sql_state parse_result))
        (snprintf SQL_ERROR_MESSAGE_SIZE (p_error_message parse_result)) in
    r ← api_build_error_response error_result r.2;
    api_finish 200 r.1 r.2.

(** Its branch for [EXIT] and [QUIT]. *)
Definition api_reply_exit : prog Mem (bool * option ApiResult) :=
  r ← json_buffer_init stack_buffer 256;
  if negb r.1 then mret (false, api_failed)
  else
    r ← json_buffer_append r.2 (Some exit_not_supported_body);
    api_finish 400 r.1 r.2.

(** What follows the execution of a statement. *)
Definition api_reply_result (sql_result : SQLResult) : prog Mem (bool * option ApiResult) :=
  r ← json_buffer_init stack_buffer 256;
  if negb r.1 then
    sql_result_destroy sql_result;; mret (false, api_failed)
  else if decide (Sql.status sql_result = SQL_STATUS_OK ∨ Sql.status sql_result = SQL_STATUS_NOT_FOUND) then
    r ← api_build_success_response sql_result r.2;
    sql_result_destroy sql_result;;
    api_finish 200 r.1 r.2
  else if decide (Sql.status sql_result = SQL_STATUS_ERROR) then
    r ← json_buffer_append r.2 (Some internal_error_body);
    sql_result_destroy sql_result;;
    api_finish 500 r.1 r.2
  else
    r ← api_build_error_response sql_result r.2;
    sql_result_destroy sql_result;;
    api_finish 200 r.1 r.2.

Definition api_handle_query (table : ptr) (sql : option cstr) (result : option ApiResult) :
    prog Mem (bool * option ApiResult) :=
  match result with
  | None => mret (false, None)
  | Some _ =>
      match table, sql with
      | Some _, Some sql =>
          let parse_result := sql_parse (Some sql) in
          if negb (parsed parse_result) then api_reply_refused parse_result
          else if decide (cmd_type (command parse_result) = SQL_COMMAND_EXIT) then api_reply_exit
          else
            sql_result ← sql_execute_plan table (Some (command parse_result));
            api_reply_result sql_result
      | _, _ => mret (false, api_failed)
      end
  end.

Definition api_result_destroy (result : option ApiResult) : prog Mem (option ApiResult) :=
  match result with
  | None => mret None
  | Some r => free (T:=byte_block) (body r);; mret (Some (MkApi 0 None))
  end.
