(* ===== verification/ApiSpec.v ===== *)
(** The contract of server/api.h: the body of a response is the JSON text of
    what SQL replied, the status code says how it ended, and all that is left in
    memory is the table and that body. *)
From stdpp Require Import base list gmap sorting strings.
From Stdlib Require Import Ascii ZArith Lia.
From S2P Require Import Prelude Memory CLib CLibProofs BPTree Index Table TableMem TableRep TableCollect TableQueries TableUpdate TableLife TableSpec Sql SqlLex SqlGrammar SqlErrors SqlSpec RowTypes Quiet Bytes Json JsonProofs JsonValue Api.

(** ** The specification *)

Definition key (s : string) (v : json) : cstr * json := (lit s, v).

Definition record_json (r : record) : json :=
  JObj [key "id" (JNum (rec_id r)); key "name" (JStr (rec_name r)); key "age" (JNum (rec_age r))].

Definition success_json (rep : sql_reply) : json :=
  if decide (rp_action rep = SQL_ACTION_INSERT) then
    JObj [key "ok" (JBool true); key "action" (JStr (lit "insert"));
          key "inserted_id" (JNum (rp_inserted rep)); key "row_count" (JNum (Z.of_nat (rp_count rep)))]
  else
    JObj [key "ok" (JBool true); key "action" (JStr (api_action_name (rp_action rep)));
          key "row_count" (JNum (Z.of_nat (rp_count rep))); key "rows" (JArr (map record_json (rp_rows rep)))].

Definition error_json (rep : sql_reply) : json :=
  JObj [key "ok" (JBool false); key "status" (JStr (api_status_name (rp_status rep)));
        key "error_code" (JNum (rp_code rep)); key "sql_state" (JStr (rp_state rep));
        key "message" (JStr (if decide (rp_message rep ≠ []) then rp_message rep else lit "Unknown SQL error"))].

Definition message_json (status message : string) : json :=
  JObj [key "ok" (JBool false); key "status" (JStr (lit status)); key "message" (JStr (lit message))].

Definition reply_json (rep : sql_reply) : json :=
  match rp_status rep with
  | SQL_STATUS_OK | SQL_STATUS_NOT_FOUND => success_json rep
  | SQL_STATUS_EXIT => message_json "exit_not_supported" "EXIT and QUIT are not supported over HTTP"
  | SQL_STATUS_ERROR => message_json "internal_error" "Internal database error"
  | SQL_STATUS_SYNTAX_ERROR | SQL_STATUS_QUERY_ERROR => error_json rep
  end.

Definition reply_code (rep : sql_reply) : Z :=
  match rp_status rep with SQL_STATUS_EXIT => 400 | SQL_STATUS_ERROR => 500 | _ => 200 end.

(** ** The printed forms *)

Lemma format_id z : format_text (dq "{'id':%d,'name':") [FInt z] = Some (dq "{'id':" ++ print_dec z ++ dq ",'name':").
Proof. reflexivity. Qed.
Lemma format_age z : format_text (dq ",'age':%d}") [FInt z] = Some (dq ",'age':" ++ print_dec z ++ lit "}").
Proof. reflexivity. Qed.
Lemma format_inserted z n : format_text (dq ",'inserted_id':%d,'row_count':%zu}") [FInt z; FSize n] =
  Some (dq ",'inserted_id':" ++ print_dec z ++ dq ",'row_count':" ++ print_dec n ++ lit "}").
Proof. reflexivity. Qed.
Lemma format_rows n : format_text (dq ",'row_count':%zu,'rows':[") [FSize n] =
  Some (dq ",'row_count':" ++ print_dec n ++ dq ",'rows':[").
Proof. reflexivity. Qed.
Lemma format_code z : format_text (dq ",'error_code':%d,'sql_state':") [FInt z] =
  Some (dq ",'error_code':" ++ print_dec z ++ dq ",'sql_state':").
Proof. reflexivity. Qed.

Lemma dec_digits_length f : ∀ n acc, length (dec_digits f n acc) ≤ f + length acc.
Proof.
  induction f as [|f IH]; intros n acc; cbn [dec_digits]; [lia|]. case_decide; [simpl; lia|].
  etrans; [apply IH|simpl; lia].
Qed.

Lemma print_dec_length z : length (print_dec z) ≤ 21.
Proof.
  unfold print_dec.
  assert (∀ n, length (dec_digits 20 n []) ≤ 20) as H by (intros n; apply dec_digits_length).
  case_decide; [cbn [length]; specialize (H (- z)%Z)|specialize (H z)]; lia.
Qed.

Ltac short_text := rewrite ?length_app;
  repeat match goal with |- context [print_dec ?z] =>
    pose proof (print_dec_length z); generalize dependent (print_dec z); intros end;
  unfold INT_MAX; simpl length; lia.

Lemma record_text r : print_json (record_json r) =
  (dq "{'id':" ++ print_dec (rec_id r) ++ dq ",'name':") ++ json_string (rec_name r) ++
  (dq ",'age':" ++ print_dec (rec_age r) ++ lit "}").
Proof. unfold record_json. cbn [print_json map separated key fst snd]. rewrite <- !(assoc_L (++)). reflexivity. Qed.

Lemma insert_text id n : print_json (JObj [key "ok" (JBool true); key "action" (JStr (lit "insert"));
    key "inserted_id" (JNum id); key "row_count" (JNum n)]) =
  dq "{'ok':true,'action':" ++ json_string (lit "insert") ++
  (dq ",'inserted_id':" ++ print_dec id ++ dq ",'row_count':" ++ print_dec n ++ lit "}").
Proof. cbn [print_json map separated key fst snd]. rewrite <- !(assoc_L (++)). reflexivity. Qed.

Lemma rows_text act n items : print_json (JObj [key "ok" (JBool true); key "action" (JStr act);
    key "row_count" (JNum n); key "rows" (JArr items)]) =
  dq "{'ok':true,'action':" ++ json_string act ++ (dq ",'row_count':" ++ print_dec n ++ dq ",'rows':[") ++
  separated (map print_json items) ++ lit "]}".
Proof. cbn [print_json map separated key fst snd]. rewrite <- !(assoc_L (++)). reflexivity. Qed.

Lemma error_text rep : print_json (error_json rep) =
  dq "{'ok':false,'status':" ++ json_string (api_status_name (rp_status rep)) ++
  (dq ",'error_code':" ++ print_dec (rp_code rep) ++ dq ",'sql_state':") ++ json_string (rp_state rep) ++
  dq ",'message':" ++
  json_string (if decide (rp_message rep ≠ []) then rp_message rep else lit "Unknown SQL error") ++ lit "}".
Proof. unfold error_json. cbn [print_json map separated key fst snd]. rewrite <- !(assoc_L (++)). reflexivity. Qed.

Lemma separated_snoc ts t : separated (ts ++ [t]) = match ts with [] => t | _ => separated ts ++ lit "," ++ t end.
Proof.
  induction ts as [|u ts IH]; [done|]. destruct ts as [|v ts]; [done|].
  change ((u :: v :: ts) ++ [t]) with (u :: v :: (ts ++ [t])). rewrite separated_cons.
  change (v :: ts ++ [t]) with ((v :: ts) ++ [t]). rewrite IH, separated_cons. by rewrite <- !(assoc_L (++)).
Qed.

Section build.
Context (m0 : Mem).

Lemma buffer_at_recs b s m : buffer_at m0 b s m → m_recs m = m_recs m0.
Proof. by intros (l & blk & _ & (n & e & -> & _) & _). Qed.

Lemma emits_record b s l r m : buffer_at m0 b s m → m_recs m0 !! l = Some r →
  emits m0 s (print_json (record_json r)) (api_append_record (Some b) (Some l)) m.
Proof.
  intros Hat Hl Hlt. apply wp_bind. eapply wp_load_record; [by erewrite buffer_at_recs|].
  revert Hlt. rewrite record_text. apply emits_seq.
  - apply emits_format; [done|apply format_id|short_text].
  - intros b1 m1 H1. apply emits_seq; [by apply emits_string|].
    intros b2 m2 H2. apply emits_format; [done|apply format_age|short_text].
Qed.

(** The rows of a result that [M] holds. *)
Context (res : SQLResult) (M : Mem) (cap : nat) (rws : list row).
Context (Hgrow : growing M (res_rows res) cap (row_ptrs rws) m0) (Hrows : rows_in M rws).

Lemma growing_block l blk m :
  block_added m0 l blk m → growing (set_bytes (<[l := blk]> (m_bytes m0)) M) (res_rows res) cap (row_ptrs rws) m.
Proof.
  destruct Hgrow as (n & arr & e & -> & He & Hn & Hc & Hle & Hlen & Htake & Ha).
  intros (n' & e' & -> & Hl & [Hn1 Hn2] & He' & Hb). exists n', arr, e'.
  split_and!; [by destruct (records (res_rows res))|by etrans|simpl in *; lia|done..|].
  destruct (records (res_rows res)); [|done]. destruct Ha. split; [done|simpl in *; lia].
Qed.

Lemma buffer_get_row b s m j r (Q : ptr → Mem → Prop) :
  buffer_at m0 b s m → rws !! j = Some r → Q (Some r.1) m → wp (array_get (records (res_rows res)) j) Q m.
Proof.
  intros (l & blk & _ & Hadd & _) Hj HQ. eapply growing_get; [by apply growing_block| |done].
  unfold row_ptrs. by rewrite list_lookup_fmap, Hj.
Qed.

Definition row_texts (rs : list row) : list cstr := map (λ r, print_json (record_json r.2)) rs.

Lemma emits_row b s j r m : buffer_at m0 b s m → rws !! j = Some r →
  emits m0 s (if decide (0 < j) then lit "," ++ print_json (record_json r.2) else print_json (record_json r.2))
    (append_row res j (Some b)) m.
Proof.
  intros Hat Hj. assert (m_recs m0 !! r.1 = Some r.2) as Hr.
  { rewrite (growing_recs _ _ _ _ _ Hgrow). unfold rows_in in Hrows. rewrite Forall_forall in Hrows.
    by apply list_elem_of_lookup_2, Hrows in Hj. }
  unfold append_row. case_decide as Hpos.
  - apply emits_seq; [by apply emits_text|]. intros b1 m1 H1 Hlt. apply wp_bind.
    eapply buffer_get_row; [exact H1|exact Hj|]. by apply emits_record.
  - change (print_json (record_json r.2)) with ([] ++ print_json (record_json r.2)).
    apply emits_seq; [by apply emits_nothing|]. intros b1 m1 H1 Hlt. apply wp_bind.
    eapply buffer_get_row; [exact H1|exact Hj|]. by apply emits_record.
Qed.

Lemma row_texts_snoc j r : rws !! j = Some r →
  separated (row_texts (take (S j) rws)) = separated (row_texts (take j rws)) ++
    (if decide (0 < j) then lit "," ++ print_json (record_json r.2) else print_json (record_json r.2)).
Proof.
  intros Hj. unfold row_texts. rewrite (take_S_r _ _ r), map_app by done. cbn [map]. rewrite separated_snoc.
  destruct j as [|j]; [done|]. rewrite decide_True by lia.
  destruct rws as [|x rs]; [done|]. done.
Qed.

Lemma emits_rows b s m : buffer_at m0 b s m →
  emits m0 s (separated (row_texts rws)) (append_rows res (Some b)) m.
Proof.
  intros Hat Hlt. unfold append_rows.
  assert (count (res_rows res) = length rws) as -> by (by eapply growing_count).
  apply wp_bind. eapply wp_mono; [|apply (wp_for_until _ _ _
    (λ j ob m', ∃ b', ob = Some b' ∧ buffer_at m0 b' (s ++ separated (row_texts (take j rws))) m')
    (λ ob m', ∃ b' s', ob = Some b' ∧ buffer_at m0 b' s' m' ∧ ¬ no_failure m0 ∧ s `prefix_of` s')); [lia| |]].
  - intros [ob|ob] m'.
    + intros (b' & -> & H). rewrite firstn_all in H. apply wp_ret. eexists _, _. by split_and!.
    + intros (b' & s' & -> & H & Hm & Hp). apply wp_ret. exists b', s'. by split_and!.
  - exists b. split; [done|]. by rewrite app_nil_r.
  - intros j ob m1 [_ Hj] (b1 & -> & H1). destruct (lookup_lt_is_Some_2 rws j Hj) as [r Hr].
    wp_call (apply (emits_row b1 _ j r m1 H1 Hr)).
    + intros [[] ob] m2 (b2 & s2 & Hob & H2 & Hs2); apply wp_ret; cbn [fst snd] in Hob, Hs2 |- *.
      * exists b2. split; [done|]. by rewrite (row_texts_snoc j r), (assoc_L (++)), <- Hs2.
      * destruct Hs2 as [Hm [k ->]]. eexists b2, _. split; [done|]. split; [exact H2|]. split; [done|].
        rewrite <- (assoc_L (++)). by apply prefix_app_r.
    + rewrite <- (assoc_L (++)), <- (row_texts_snoc j r) by done.
      rewrite length_app in *. assert (length (separated (row_texts (take (S j) rws))) ≤ length (separated (row_texts rws))) as Hle; [|lia].
      clear. generalize (S j). intros n. unfold row_texts. rewrite <- firstn_map. generalize (map (λ r : row, print_json (record_json r.2)) rws).
      intros ts. revert n. induction ts as [|t ts IH]; intros [|n]; [simpl; lia..|]. cbn [take].
      destruct ts as [|t' ts]; [by rewrite take_nil|]. destruct n as [|n]; cbn [take]; rewrite ?separated_cons, ?length_app; [simpl; lia|].
      specialize (IH (S n)). cbn [take] in IH. lia.
Qed.

Lemma emits_success rep b s m : buffer_at m0 b s m → rp_rows rep = rws.*2 →
  action res = SQL_ACTION_SELECT_ROWS → rp_action rep = SQL_ACTION_SELECT_ROWS → count (res_rows res) = rp_count rep →
  emits m0 s (print_json (success_json rep)) (api_build_success_response res (Some b)) m.
Proof.
  intros Hat Hrs Hact Hact' Hcount. unfold success_json, api_build_success_response. rewrite Hact, Hact'.
  rewrite !decide_False by done. rewrite rows_text, Hrs. apply emits_seq; [by apply emits_text|]. intros b1 m1 H1.
  apply emits_seq; [by apply emits_string|]. intros b2 m2 H2. rewrite Hcount.
  apply emits_seq; [apply emits_format; [done|apply format_rows|short_text]|]. intros b3 m3 H3.
  assert (map print_json (map record_json rws.*2) = row_texts rws) as ->.
  { clear. generalize rws. intros l. unfold row_texts. induction l as [|x l IH]; [done|].
    rewrite fmap_cons. cbn [map]. by rewrite IH. }
  apply emits_seq; [by apply emits_rows|]. intros b4 m4 H4. by apply emits_text.
Qed.
End build.

Lemma emits_insert m0 res rep b s m : buffer_at m0 b s m →
  action res = SQL_ACTION_INSERT → rp_action rep = SQL_ACTION_INSERT →
  inserted_id res = rp_inserted rep → count (res_rows res) = rp_count rep →
  emits m0 s (print_json (success_json rep)) (api_build_success_response res (Some b)) m.
Proof.
  intros Hat Hact Hact' Hid Hcount. unfold success_json, api_build_success_response. rewrite Hact, Hact'.
  rewrite !decide_True by done. rewrite insert_text. apply emits_seq; [by apply emits_text|]. intros b1 m1 H1.
  apply emits_seq; [by apply emits_string|]. intros b2 m2 H2. rewrite Hid, Hcount.
  apply emits_format; [done|apply format_inserted|short_text].
Qed.

Lemma emits_error m0 res rep b s m : buffer_at m0 b s m →
  Sql.status res = rp_status rep → error_code res = rp_code rep → sql_state res = rp_state rep →
  error_message res = rp_message rep →
  emits m0 s (print_json (error_json rep)) (api_build_error_response res (Some b)) m.
Proof.
  intros Hat Hst Hcode Hstate Hmsg. unfold api_build_error_response. rewrite Hst, Hcode, Hstate, Hmsg, error_text.
  apply emits_seq; [by apply emits_text|]. intros b1 m1 H1.
  apply emits_seq; [by apply emits_string|]. intros b2 m2 H2.
  apply emits_seq; [apply emits_format; [done|apply format_code|short_text]|]. intros b3 m3 H3.
  apply emits_seq; [by apply emits_string|]. intros b4 m4 H4.
  apply emits_seq; [by apply emits_text|]. intros b5 m5 H5.
  apply emits_seq; [by apply emits_string|]. intros b6 m6 H6. by apply emits_text.
Qed.

(** ** Handling a query *)

(** [m] is [base] and a block that holds the C string [s]. *)
Definition body_at (base : Mem) (l : loc) (s : cstr) (m : Mem) : Prop :=
  ∃ blk, block_added base l blk m ∧ holds_text s blk.

Definition api_done (base : Mem) (status : Z) (text : cstr) (r : bool * option ApiResult) (m : Mem) : Prop :=
  ∃ l, r = (true, Some (MkApi status (Some l))) ∧ body_at base l text m.

(** A call that ran out of memory: no body, and nothing left behind. *)
Definition api_gave_up (base : Mem) (r : bool * option ApiResult) (m : Mem) : Prop :=
  ∃ status, r = (false, Some (MkApi status None)) ∧ ¬ no_failure base ∧ spent base m.

Lemma finish_done m0 b s m st : buffer_at m0 b s m → wp (api_finish st true (Some b)) (api_done m0 st s) m.
Proof.
  intros (l & blk & -> & Hadd & Ht & _). apply wp_bind, wp_ret, wp_bind, wp_bind. cbn [snd json_buffer_detach].
  apply wp_ret, wp_ret, wp_ret. exists l. split; [done|]. by exists blk.
Qed.

Lemma finish_gave_up m0 b s m st : ¬ no_failure m0 → buffer_at m0 b s m →
  wp (api_finish st false (Some b)) (api_gave_up m0) m.
Proof.
  intros Hm Hat. apply wp_bind. eapply wp_buffer_destroy; [exact Hat|]. intros m' Hs. apply wp_ret. by exists st.
Qed.

(** A body built without touching the table. *)
Lemma build_body m0 st text (c : option JsonBuffer → buffer_call) :
  bytes_bounded m0 → (Z.of_nat (length text) < BODY_MAX)%Z →
  (∀ b m, buffer_at m0 b [] m → emits m0 [] text (c (Some b)) m) →
  wp (r ← json_buffer_init stack_buffer 256;
      if negb r.1 then mret (false, Some (MkApi 500 None))
      else r ← c r.2; api_finish st r.1 r.2)
    (λ r m, api_done m0 st text r m ∨ api_gave_up m0 r m) m0.
Proof.
  intros Hb Hlt Hc. apply wp_bind. apply wp_buffer_init; [done|unfold CAP_MAX; lia| |].
  - intros m Hm Hs. apply wp_ret. right. by exists 500%Z.
  - intros b m Hat. cbn [fst snd negb]. wp_call (by apply Hc).
    intros [[] ob] m1 (b1 & s1 & Hob & Hat1 & Hs1); cbn [fst snd] in *; subst ob.
    + subst s1. eapply wp_mono; [|by apply finish_done]. by left.
    + eapply wp_mono; [|apply (finish_gave_up m0 b1 s1); [apply Hs1|done]]. by right.
Qed.

Section api.
Context {KI : KeyIndex}.

Lemma inv_set_bytes tb st t fps m0 m h : table_inv tb st t fps m0 m → table_inv tb st t fps m0 (set_bytes h m).
Proof.
  intros Hinv. destruct Hinv as [? ? ? ? ? ? ? ? ? Hbs ? ? ? ? ? ? ?]. split; try done.
  intros i b rws fp Hb Hr Hf. destruct (Hbs i b rws fp Hb Hr Hf) as [Hk Hat].
  split; [done|]. by eapply bucket_at_frame.
Qed.

Lemma holds_set_bytes tb db m0 m h : holds tb db m0 m → holds tb db m0 (set_bytes h m).
Proof.
  intros (st & (t & fps & Hinv) & Hdb & Hn & Hm). exists st. split_and!; [|done|done|done].
  exists t, fps. by apply inv_set_bytes.
Qed.

(** ** The reply to an executed statement *)

Lemma block_added_same m l blk m' : block_added m l blk m' →
  m_recs m' = m_recs m ∧ m_out m' = m_out m ∧ (m_next m ≤ m_next m')%positive ∧ m_env m' `suffix_of` m_env m.
Proof. intros (n & e & -> & _ & [Hn _] & He & _). done. Qed.

(** Releasing the result while the body is in memory. *)
Lemma destroy_under_body B r rep m1 b s m (Q : SQLResult → Mem → Prop) :
  result_in B r rep m1 → buffer_at m1 b s m →
  (∀ r' base m', spent B base → (m_next m1 ≤ m_next base)%positive → buffer_at base b s m' → Q r' m') →
  wp (sql_result_destroy r) Q m.
Proof.
  intros Hres (l & blk & Hbuf & Hadd & Ht & Hcap) HQ. destruct (result_in_same _ _ _ _ Hres) as (Hb1 & Ho1 & He1 & Hn1).
  destruct (block_added_same _ _ _ _ Hadd) as (_ & _ & Hn & _).
  assert (wp (sql_result_destroy r) (λ _ m', ∃ n e, m' = set_env e (set_next n (set_bytes (m_bytes m) B)) ∧
    e `suffix_of` m_env B) m) as Hwp.
  { destruct Hres as [rws cap m1 Hab Hin Hg Hr|x y Hx ->|st code state message ->].
    - apply wp_bind. eapply growing_free; [|by eapply growing_block|]; [exact Hab|].
      intros m' (n & e & -> & He & _)%spent_spec. apply wp_ret. exists n, e. split; [|done].
      destruct Hadd as (n' & e' & -> & _). unfold set_env, set_next, set_bytes. simpl. by rewrite Hb1.
    - apply wp_bind, wp_ret. destruct Hadd as (n & e & -> & _ & _ & He & _). exists n, e. by destruct B.
    - apply wp_bind, wp_ret. destruct Hadd as (n & e & -> & _ & _ & He & _). exists n, e. by destruct B. }
  eapply wp_mono; [|apply wp_quiet; [apply quiet_result_destroy|exact Hwp]].
  intros r' m' [(_ & _ & Hn') (n & e & -> & He)]. simpl in Hn'.
  apply (HQ r' (set_env e (set_next n B))); [apply spent_spec; exists n, e; split_and!; [done|done|lia]|simpl; lia|].
  exists l, blk. split_and!; [done| |done|done].
  destruct Hadd as (n' & e' & -> & Hl & [Hn2 Hn3] & He' & Hbd). simpl in *. exists n, e. rewrite Hb1 in *.
  split_and!; [done|done|simpl; lia|lia|done|]. intros x Hx. simpl in *. rewrite <- Hb1 in Hx. apply Hbd in Hx. lia.
Qed.

(** Any step that appends, when no library call fails. *)
Lemma emits_ok m0 s t c m (Q : bool * option JsonBuffer → Mem → Prop) :
  no_failure m0 → (Z.of_nat (length (s ++ t)) < BODY_MAX)%Z → emits m0 s t c m →
  (∀ b m', buffer_at m0 b (s ++ t) m' → Q (true, Some b) m') → wp c Q m.
Proof.
  intros Hm Hlt Hc HQ. eapply wp_mono; [|by apply Hc].
  intros [[] ob] m' (b & s' & Hob & Hat & Hs); cbn [fst snd] in *; subst ob; [|by destruct Hs].
  subst s'. by apply HQ.
Qed.

(** What the reply to a result leaves: the memory without the rows, and the body. *)
Definition replied (B m1 : Mem) (status : Z) (text : cstr) (r : bool * option ApiResult) (m' : Mem) : Prop :=
  ∃ base, spent B base ∧ (m_next m1 ≤ m_next base)%positive ∧ api_done base status text r m'.

Lemma reply_with B r rep m1 st text (build : option JsonBuffer → buffer_call) :
  no_failure m1 → (Z.of_nat (length text) < BODY_MAX)%Z →
  result_in B r rep m1 → (∀ b m2, buffer_at m1 b [] m2 → emits m1 [] text (build (Some b)) m2) →
  ∀ b m2, buffer_at m1 b [] m2 →
  wp (r2 ← build (Some b); sql_result_destroy r;; api_finish st r2.1 r2.2) (replied B m1 st text) m2.
Proof.
  intros Hm Hlt Hres Hbuild b m2 Hbuf. apply wp_bind.
  eapply emits_ok; [exact Hm| |by apply Hbuild|]; [done|].
  intros b3 m3 H3. apply wp_bind. eapply destroy_under_body; [exact Hres|exact H3|].
  intros r' base m4 Hs Hn H4. eapply wp_mono; [|by apply finish_done]. intros r2 m5 Hdone. by exists base.
Qed.

Lemma reply_refines B r rep m1 :
  no_failure B → bytes_bounded m1 → (Z.of_nat (length (print_json (reply_json rep))) < BODY_MAX)%Z →
  result_in B r rep m1 →
  (∃ x, rep = insert_reply x) ∨ (∃ rs, rep = rows_reply rs) ∨ rep = plain_reply SQL_STATUS_ERROR →
  wp (api_reply_result r) (replied B m1 (reply_code rep) (print_json (reply_json rep))) m1.
Proof.
  intros Hm Hb Hlt Hres Hrep. destruct (result_in_same _ _ _ _ Hres) as (Hb1 & Ho1 & He1 & Hn1).
  assert (no_failure m1) as Hm1 by (by eapply suffix_no_failure).
  apply wp_bind. apply wp_buffer_init; [done|unfold CAP_MAX; lia| |].
  { intros m' Hno. by destruct Hno. }
  intros b m2 Hbuf. cbn [fst snd negb].
  destruct Hrep as [[x ->]|[[rs ->]| ->]]; inversion Hres as [rws cap M1 Hab Hin Hg Hr Hreq|l y Hx Hr Hreq|s code state message Hr Hreq]; subst.
  - rewrite decide_True by (simpl; by left). eapply reply_with; [done..|exact Hres| |exact Hbuf].
    intros b' m' Hb'. change (reply_json (insert_reply x)) with (success_json (insert_reply x)).
    by apply emits_insert.
  - assert (Sql.status r = SQL_STATUS_OK ∨ Sql.status r = SQL_STATUS_NOT_FOUND) as Hst.
    { rewrite Hr. simpl. destruct (rws.*2); [by right|by left]. }
    rewrite decide_True by done.
    assert (reply_code (rows_reply rws.*2) = 200%Z) as -> by (unfold reply_code, rows_reply; simpl; by destruct (rws.*2)).
    assert (reply_json (rows_reply rws.*2) = success_json (rows_reply rws.*2)) as Hj
      by (unfold reply_json, rows_reply; simpl; by destruct (rws.*2)).
    rewrite Hj in *. eapply reply_with; [done..|exact Hres| |exact Hbuf].
    intros b' m' Hb'. eapply emits_success; [exact Hg|exact Hin|exact Hb'|done|by rewrite Hr|done|].
    rewrite (growing_count _ _ _ _ _ Hg). simpl. by rewrite length_fmap.
  - simpl. eapply (reply_with _ _ _ _ _ _ (λ b, json_buffer_append b (Some internal_error_body)));
      [done..|exact Hres| |exact Hbuf].
    intros b' m' Hb'. by apply emits_text.
Qed.

Lemma calm_bounded m m' : calm m m' → bytes_bounded m → bytes_bounded m'.
Proof. intros (_ & Hb & Hn) Hm l Hl. rewrite Hb in Hl. apply Hm in Hl. lia. Qed.

(** What a call leaves: the table with the new records, and the body. *)
Definition answered (tb : loc) (db : list record) (m0 m : Mem) (status : Z) (text : cstr)
    (r : bool * option ApiResult) (m' : Mem) : Prop :=
  ∃ base, holds tb db m0 base ∧ bytes_bounded base ∧ calm m base ∧ api_done base status text r m'.

Lemma execute_answers tb db m0 m r rep m1 :
  calm m m1 → bytes_bounded m → (Z.of_nat (length (print_json (reply_json rep))) < BODY_MAX)%Z →
  result_at tb db m0 r rep m1 →
  (∃ x, rep = insert_reply x) ∨ (∃ rs, rep = rows_reply rs) ∨ rep = plain_reply SQL_STATUS_ERROR →
  wp (api_reply_result r) (answered tb db m0 m (reply_code rep) (print_json (reply_json rep))) m1.
Proof.
  intros Hcalm Hb Hlt Hat Hrep. pose proof (calm_bounded _ _ Hcalm Hb) as Hb1.
  destruct (result_at_in _ _ _ _ _ _ Hat) as (B & Hh & Hres).
  destruct (result_in_same _ _ _ _ Hres) as (Hbytes & Hout & _ & _). destruct Hcalm as (Hc1 & Hc2 & Hc3).
  eapply wp_mono; [|apply (reply_refines B r rep m1); [by destruct Hh as (? & ? & ? & ? & ?)|done..]].
  intros r' m' (base & Hs & Hn & Hdone). exists base. pose proof (spent_bytes _ _ Hs) as Hsb.
  assert (m_out base = m_out B) as Hso by (by apply spent_spec in Hs as (n & e & -> & _)).
  assert (calm m base) as Hcb by (split_and!; [congruence|congruence|lia]).
  split_and!; [by eapply holds_spent|by eapply calm_bounded|apply Hcb..|done].
Qed.

Definition spec_api (text : cstr) (db : list record) : Z * cstr * list record :=
  let '(rep, db') := spec_sql text db in (reply_code rep, print_json (reply_json rep), db').

(** A text that reaches the table: an accepted statement other than [EXIT]. *)
Definition executes (text : cstr) : Prop :=
  parsed (sql_parse (Some text)) = true ∧ cmd_type (command (sql_parse (Some text))) ≠ SQL_COMMAND_EXIT.
#[export] Instance executes_dec text : Decision (executes text) := _.

(** The other texts are answered from the parser alone, whatever memory does. *)
Lemma refused_answers tb text r0 db m :
  ¬ executes text → bytes_bounded m → (Z.of_nat (length (spec_api text db).1.2) < BODY_MAX)%Z →
  wp (api_handle_query (Some tb) (Some text) (Some r0))
    (λ r m', api_done m (spec_api text db).1.1 (spec_api text db).1.2 r m' ∨ api_gave_up m r m') m.
Proof.
  intros Hno Hb Hlt. unfold executes in Hno. unfold api_handle_query, api_reply_refused, api_reply_exit, api_failed. cbv zeta. unfold spec_api, spec_sql in *.
  destruct (parse_settled text) as [Hp|Hr].
  - rewrite Hp in *. cbn [negb]. assert (cmd_type (command (sql_parse (Some text))) = SQL_COMMAND_EXIT) as Hexit.
    { destruct (decide (cmd_type (command (sql_parse (Some text))) = SQL_COMMAND_EXIT)); naive_solver. }
    unfold spec_command in *. rewrite Hexit in *. rewrite decide_True by done.
    apply (build_body m 400 exit_not_supported_body (λ b, json_buffer_append b (Some exit_not_supported_body)));
      [done|done|]. intros b m' Hat. by apply emits_text.
  - destruct (refused_fits _ Hr) as [Hf1 Hf2].
    assert (parsed (sql_parse (Some text)) = false) as Hp by by destruct Hr.
    assert (p_status (sql_parse (Some text)) = SQL_STATUS_SYNTAX_ERROR ∨
            p_status (sql_parse (Some text)) = SQL_STATUS_QUERY_ERROR) as Hs by (destruct Hr; auto).
    rewrite Hp in *. cbn [negb].
    destruct (decide (p_status (sql_parse (Some text)) = SQL_STATUS_ERROR)) as [He|_]; [destruct Hs; congruence|].
    rewrite Hf1, Hf2.
    remember (refused_reply (sql_parse (Some text))) as rep eqn:Hrep.
    assert (reply_code rep = 200%Z ∧ reply_json rep = error_json rep) as [Hc Hj].
    { subst rep. unfold reply_code, reply_json. cbn [rp_status refused_reply]. by destruct Hs as [-> | ->]. }
    rewrite Hc, Hj in *. eapply (build_body m 200 _ (api_build_error_response _)); [done|done|].
    intros b m' Hat. subst rep. by apply emits_error.
Qed.

Lemma api_refines tb db m0 m text r0 :
  holds tb db m0 m → bytes_bounded m → (Z.of_nat (length db) + 1 < INT_MAX)%Z →
  (Z.of_nat (length (spec_api text db).1.2) < BODY_MAX)%Z →
  wp (api_handle_query (Some tb) (Some text) (Some r0))
    (answered tb (spec_api text db).2 m0 m (spec_api text db).1.1 (spec_api text db).1.2) m.
Proof.
  intros Hh Hb Hids Hlt. destruct (decide (executes text)) as [[Hp Hexit]|Hno]; last first.
  { eapply wp_mono; [|by apply (refused_answers tb text r0 db)].
    assert (no_failure m) as Hm by (by destruct Hh as (? & ? & ? & ? & ?)).
    intros r m' [Hd|(st & _ & Hf & _)]; [|done]. exists m. split_and!; try done.
    unfold spec_api, spec_sql, executes in *. destruct (parsed (sql_parse (Some text))) eqn:Hp; [|done].
    unfold spec_command. destruct (decide (cmd_type (command (sql_parse (Some text))) = SQL_COMMAND_EXIT)) as [->|]; [done|naive_solver]. }
  unfold api_handle_query. cbv zeta. unfold spec_api, spec_sql in *. rewrite Hp in *. cbn [negb].
  rewrite decide_False by done. apply wp_bind.
  eapply wp_mono; [|apply wp_quiet; [apply quiet_execute_plan|by apply (plan_refines tb db m0 m)]].
  intros r m1 [Hcalm Hat]. destruct (spec_command (command (sql_parse (Some text))) db) as [rep db'] eqn:E.
  cbn [fst snd] in *. apply execute_answers; [done..|].
  unfold spec_command in E. destruct (cmd_type (command (sql_parse (Some text)))); simplify_eq; eauto.
Qed.
End api.

(** ** Reading a body back *)

Definition in_range (z : Z) : Prop := (- 10 ^ 20 < z < 10 ^ 20)%Z.

Lemma is_int_range z : is_int z → in_range z.
Proof. unfold is_int, in_range, INT_MIN, INT_MAX. lia. Qed.

Lemma record_json_ok r : record_typed r → json_ok (record_json r).
Proof. intros [[Hid _] Hage _ _]. simpl. split_and!; try done; by apply is_int_range. Qed.

Lemma records_json_ok rs : Forall record_typed rs → json_ok (JArr (map record_json rs)).
Proof. intros Hall. induction Hall as [|r rs Hr Hall IH]; simpl; [done|]. by split; [apply record_json_ok|]. Qed.

Lemma spec_reply_ok text db : db_typed db → (Z.of_nat (length db) + 1 < INT_MAX)%Z →
  json_ok (reply_json (spec_sql text db).1).
Proof.
  intros [Hall _] Hlt. unfold INT_MAX in Hlt.
  assert (∀ rs, Forall record_typed rs → length rs ≤ length db → json_ok (reply_json (rows_reply rs))) as Hrows.
  { intros rs Hrs Hle. pose proof (records_json_ok rs Hrs) as Harr.
    destruct rs as [|r rs]; [by vm_compute|].
    change (json_ok (success_json (rows_reply (r :: rs)))).
    unfold success_json. cbn [rp_action rows_reply]. rewrite decide_False by done.
    cbn [json_ok foldr key snd rp_count rp_rows rows_reply]. split_and!; try done; simpl length in *; lia. }
  unfold spec_sql. destruct (parse_settled text) as [Hp|Hr].
  - rewrite Hp. unfold spec_command. cbn [fst].
    assert (∀ test : record → bool, json_ok (reply_json (rows_reply (filter (λ r, test r = true) db)))) as Hf.
    { intros test. apply Hrows; [|apply length_filter].
      apply Forall_forall. intros r [_ Hr]%list_elem_of_filter. rewrite Forall_forall in Hall. by apply Hall. }
    generalize (command (sql_parse (Some text))) as c. intros c.
    destruct (cmd_type c); cbn [fst]; try exact (Hf (command_test c)); [by vm_compute| |by vm_compute].
    change (json_ok (success_json (insert_reply (next_record (cmd_name c) (int_value c) db)))). unfold success_json, insert_reply. cbn [rp_action].
    rewrite decide_True by done. cbn [json_ok foldr key snd rp_count rp_inserted next_record rec_id]. split_and!; try done; lia.
  - assert (parsed (sql_parse (Some text)) = false) as -> by by destruct Hr. cbn [fst].
    destruct Hr as [near _ _ _ Hs Hcode _ _|col clause _ _ _ _ _ Hs Hcode _ _];
      unfold reply_json; cbn [rp_status refused_reply]; rewrite Hs; unfold error_json;
      cbn [json_ok foldr key snd rp_code refused_reply]; rewrite Hcode; split_and!; try done; lia.
Qed.

Lemma spec_body_reads text db : db_typed db → (Z.of_nat (length db) + 1 < INT_MAX)%Z →
  read_json (spec_api text db).1.2 = Some (reply_json (spec_sql text db).1).
Proof.
  intros Hdb Hlt. pose proof (spec_reply_ok text db Hdb Hlt) as Hok. unfold spec_api.
  destruct (spec_sql text db) as [rep db']. by apply read_print.
Qed.

Lemma spec_body_clean text db : clean (spec_api text db).1.2.
Proof. unfold spec_api. destruct (spec_sql text db) as [rep db']. apply print_json_clean. Qed.

(** A client reads the body as a C string. *)
Lemma read_body m0 l s m (Q : cstr → Mem → Prop) :
  body_at m0 l s m → NUL ∉ s → Q s m → wp (read_string (Some l)) Q m.
Proof.
  intros (blk & Hadd & rest & ->) Hs HQ. apply wp_bind. eapply wp_load; [by eapply block_added_lookup|].
  rewrite block_string_spec by done. by apply wp_ret.
Qed.

Lemma destroy_body m0 l s m st (Q : option ApiResult → Mem → Prop) :
  body_at m0 l s m → (∀ m', spent m0 m' → Q (Some (MkApi 0 None)) m') →
  wp (api_result_destroy (Some (MkApi st (Some l)))) Q m.
Proof.
  intros (blk & Hadd & _) HQ. apply wp_bind. eapply block_added_free; [exact Hadd|]. intros m' Hs. by apply wp_ret, HQ.
Qed.
