(* ===== verification/ApiActs.v ===== *)
(** Executing a request while other threads use the table, too: [sql_execute_plan]
    of [sql_processor/sql.c] and [api_handle_query] of [server/api.c] over the
    actions of the table.  What they do besides calling the table uses the
    thread's own data only. *)
From stdpp Require Import base list gmap sorting strings.
From Stdlib Require Import Ascii ZArith Lia.
From S2P Require Import Prelude Memory CLib BPTree Table TableSpec Actions TableActs TableActsAlone Sql SqlSpec Quiet Bytes Json Api.

(** ** The code *)

Definition sql_execute_insert_acts (table : ptr) (command : SQLCommand) : table_act SQLResult :=
  let result := sql_make_result SQL_STATUS_ERROR SQL_ACTION_NONE in
  match table with
  | None => mret result
  | Some _ =>
      if decide (cmd_type command ≠ SQL_COMMAND_INSERT) then mret result
      else
        record ← insert_acts table (Some (cmd_name command)) (int_value command);
        match record with
        | None => mret result
        | Some _ =>
            r ← atomic Local (load_record record);
            mret (MkSQLResult SQL_STATUS_OK SQL_ACTION_INSERT record (MkResults None 1) (rec_id r) 0 [] [])
        end
  end.

Definition sql_execute_select_acts (table : ptr) (command : SQLCommand) : table_act SQLResult :=
  let result := sql_make_result SQL_STATUS_ERROR SQL_ACTION_NONE in
  match table with
  | None => mret result
  | Some _ =>
      found ← (match cmd_type command with
               | SQL_COMMAND_SELECT_ALL => r ← collect_all_acts table (res_rows result); mret (Some r)
               | SQL_COMMAND_SELECT_BY_ID =>
                   r ← id_condition_acts table (comparison command) (int_value command) (res_rows result);
                   mret (Some r)
               | SQL_COMMAND_SELECT_BY_NAME =>
                   r ← name_matches_acts table (Some (text_value command)) (res_rows result);
                   mret (Some r)
               | SQL_COMMAND_SELECT_BY_AGE =>
                   r ← age_condition_acts table (comparison command) (int_value command) (res_rows result);
                   mret (Some r)
               | _ => mret None
               end);
      match found with
      | None => mret result
      | Some (false, rs) => mret (with_rows_result rs result)
      | Some (true, rs) =>
          first ← atomic Local (if decide (0 < count rs) then array_get (records rs) 0 else mret None);
          mret (MkSQLResult (if decide (count rs = 0) then SQL_STATUS_NOT_FOUND else SQL_STATUS_OK)
                  SQL_ACTION_SELECT_ROWS first rs 0 0 [] [])
      end
  end.

Definition sql_execute_plan_acts (table : ptr) (command : option SQLCommand) : table_act SQLResult :=
  match command with
  | None => mret (sql_make_result SQL_STATUS_ERROR SQL_ACTION_NONE)
  | Some command =>
      match cmd_type command with
      | SQL_COMMAND_INSERT => sql_execute_insert_acts table command
      | SQL_COMMAND_SELECT_ALL | SQL_COMMAND_SELECT_BY_ID
      | SQL_COMMAND_SELECT_BY_NAME | SQL_COMMAND_SELECT_BY_AGE => sql_execute_select_acts table command
      | SQL_COMMAND_EXIT => mret (sql_make_result SQL_STATUS_EXIT SQL_ACTION_NONE)
      | SQL_COMMAND_NONE => mret (sql_make_result SQL_STATUS_ERROR SQL_ACTION_NONE)
      end
  end.

Definition api_handle_query_acts (table : ptr) (sql : option cstr) (result : option ApiResult) :
    table_act (bool * option ApiResult) :=
  match result with
  | None => mret (false, None)
  | Some _ =>
      match table, sql with
      | Some _, Some sql =>
          let parse_result := sql_parse (Some sql) in
          if negb (parsed parse_result) then atomic Local (api_reply_refused parse_result)
          else if decide (cmd_type (command parse_result) = SQL_COMMAND_EXIT) then atomic Local api_reply_exit
          else
            sql_result ← sql_execute_plan_acts table (Some (command parse_result));
            atomic Local (api_reply_result sql_result)
      | _, _ => mret (false, api_failed)
      end
  end.

(** ** One thread alone *)

Lemma run_bind_ret {A B} (p : table_act A) (f : A → B) (c : prog Mem A) s :
  run_act p s = c s → run_act (r ← p; mret (f r)) s = (r ← c; mret (f r)) s.
Proof. intros Hp. by apply run_bind_same. Qed.

Lemma insert_plan_alone table c s : run_act (sql_execute_insert_acts table c) s = sql_execute_insert_plan table c s.
Proof.
  destruct table as [tb|]; [|done]. unfold sql_execute_insert_acts, sql_execute_insert_plan. case_decide; [done|].
  apply run_bind_same; [apply insert_alone|]. intros [l|] s1; [|done]. by same_step.
Qed.

Lemma select_plan_alone table c s : run_act (sql_execute_select_acts table c) s = sql_execute_select_plan table c s.
Proof.
  destruct table as [tb|]; [|done]. unfold sql_execute_select_acts, sql_execute_select_plan. apply run_bind_same.
  - destruct (cmd_type c); try done; apply run_bind_ret;
      [apply collect_all_alone|apply id_condition_alone|apply name_matches_alone|apply age_condition_alone].
  - intros [[[] rs]|] s1; [by same_step|done..].
Qed.

Lemma plan_alone table c s : run_act (sql_execute_plan_acts table c) s = sql_execute_plan table c s.
Proof.
  destruct c as [c|]; [|done]. unfold sql_execute_plan_acts, sql_execute_plan.
  destruct (cmd_type c); try done; [apply insert_plan_alone|apply select_plan_alone..].
Qed.

Lemma query_alone table sql result s : run_act (api_handle_query_acts table sql result) s = api_handle_query table sql result s.
Proof.
  destruct result as [r0|], table as [tb|], sql as [sql|]; try done. unfold api_handle_query_acts, api_handle_query. cbv zeta.
  destruct (negb _); [apply run_atomic_last|]. case_decide; [apply run_atomic_last|].
  apply run_bind_same; [apply plan_alone|]. intros r s1. apply run_atomic_last.
Qed.

(** ** The rest of the memory *)

Abbreviation calm_acts p := (act_all (Acc := access) calm p).

Lemma calm_atomic {X} acc (c : prog Mem X) : quiet c → calm_acts (atomic acc c).
Proof. intros Hc. apply act_all_atomic. exact Hc. Qed.

Lemma quiet_read_next_id t : quiet (read_next_id t).
Proof. quiet_by read_next_id. Qed.
Lemma quiet_store_record t i id name age : quiet (store_record t i id name age).
Proof. quiet_by store_record. Qed.
Lemma quiet_bucket_size t i : quiet (bucket_size t i).
Proof. quiet_by bucket_size. Qed.
Lemma quiet_collect_row t i j rs cap : quiet (collect_row t i j rs cap).
Proof. quiet_by collect_row. Qed.
#[export] Hint Resolve quiet_read_next_id quiet_store_record quiet_bucket_size quiet_collect_row : quiet.

(** Goes through a program of actions. *)
Ltac calm_step :=
  first
    [ apply act_all_ret
    | apply act_all_bind; [|intros ?]
    | match goal with |- act_all _ (atomic _ _) => apply calm_atomic; repeat quiet_step end
    | apply act_all_until; intros ? ?
    | match goal with |- act_all _ (match ?x with _ => _ end) => destruct x end ].
Ltac calm_by d := unfold d; cbv zeta; repeat calm_step.

Lemma calm_insert t name age : calm_acts (insert_acts t name age).
Proof. calm_by insert_acts. Qed.
Lemma calm_find_by_id t id : calm_acts (find_by_id_acts t id).
Proof. calm_by find_by_id_acts. Qed.
Lemma calm_collect_bucket t i rs cap : calm_acts (collect_bucket_acts t i rs cap).
Proof. calm_by collect_bucket_acts. Qed.
Lemma calm_collect_all t rs : calm_acts (collect_all_acts t rs).
Proof. unfold collect_all_acts, collect_turn. repeat (apply calm_collect_bucket || calm_step). Qed.
Lemma calm_name_matches t name rs : calm_acts (name_matches_acts t name rs).
Proof. unfold name_matches_acts. repeat (apply calm_collect_all || calm_step). Qed.
Lemma calm_id_condition t c id rs : calm_acts (id_condition_acts t c id rs).
Proof. unfold id_condition_acts. repeat (apply calm_find_by_id || apply calm_collect_all || calm_step). Qed.
Lemma calm_age_condition t c age rs : calm_acts (age_condition_acts t c age rs).
Proof. unfold age_condition_acts. repeat (apply calm_collect_all || calm_step). Qed.

Lemma calm_plan t c : calm_acts (sql_execute_plan_acts t c).
Proof.
  unfold sql_execute_plan_acts, sql_execute_insert_acts, sql_execute_select_acts. cbv zeta.
  repeat (apply calm_insert || apply calm_collect_all || apply calm_name_matches || apply calm_id_condition ||
    apply calm_age_condition || calm_step).
Qed.
