(* ===== verification/ApiActsSpec.v ===== *)
(** What executing a statement gives while other threads use the table, too: the
    result of one call of the table, whose records are in the memory until the
    reply has been written. *)
From stdpp Require Import base list gmap sorting strings.
From Stdlib Require Import Ascii ZArith Lia.
From S2P Require Import Prelude Memory CLib BPTree Index Table TableMem TableRep TableCollect TableQueries TableUpdate TableLife TableSpec Actions TableActs TableActsInv TableActsSteps TableActsInsert TableActsArrays TableActsLookups TableActsCollect TableActsSpec Sql SqlLex SqlGrammar SqlErrors SqlSpec Bytes Json JsonProofs JsonValue Api ApiSpec ApiActs.

(** ** Statements and calls *)

(** The call of the table that a statement makes. *)
Definition command_request (c : SQLCommand) : option request :=
  match cmd_type c with
  | SQL_COMMAND_INSERT => Some (Q_insert (cmd_name c) (int_value c))
  | SQL_COMMAND_SELECT_ALL => Some Q_all
  | SQL_COMMAND_SELECT_BY_ID => Some (Q_by_id (comparison c) (int_value c))
  | SQL_COMMAND_SELECT_BY_NAME => Some (Q_by_name (text_value c))
  | SQL_COMMAND_SELECT_BY_AGE => Some (Q_by_age (comparison c) (int_value c))
  | SQL_COMMAND_EXIT | SQL_COMMAND_NONE => None
  end.

(** What SQL replies when the table replied [rep]. *)
Definition reply_of (rep : reply) : sql_reply :=
  match rep with
  | OneRow (Some r) => insert_reply r
  | Rows rs => rows_reply rs
  | _ => plain_reply SQL_STATUS_ERROR
  end.

(** The text's call of the table, if it reaches the table. *)
Definition text_request (text : cstr) : option request :=
  let p := sql_parse (Some text) in if parsed p then command_request (command p) else None.

(** [rep] is what the text is answered by call [x], made between the moments [b]
    and [e]; [D] has the records with the calls that stored them. *)
Definition sql_answer (D : list (record * place)) (x : place) (b e : nat) (text : cstr) (rep : sql_reply) : Prop :=
  match text_request text with
  | Some q => ∃ r, answer D x b e q r ∧ rep = reply_of r
  | None => rep = (spec_sql text []).1
  end.

Lemma sql_answer_later D D' x b e e' text rep :
  D `prefix_of` D' → e ≤ length D → e ≤ e' → sql_answer D x b e text rep → sql_answer D' x b e' text rep.
Proof.
  unfold sql_answer. intros Hp He Hee. destruct (text_request text) as [q|]; [|done].
  intros (rep0 & Ha & ->). exists rep0. split; [by eapply answer_later|done].
Qed.

Lemma sql_answer_earlier D x b b' e text rep : b' ≤ b → sql_answer D x b e text rep → sql_answer D x b' e text rep.
Proof.
  unfold sql_answer. intros Hb. destruct (text_request text) as [q|]; [|done].
  intros (rep0 & Ha & ->). exists rep0. split; [by eapply answer_earlier|done].
Qed.

Section spec.
Context {KI : KeyIndex}.
Context (tb : loc) (base : Mem).
Abbreviation P := (table_protocol tb base).
Abbreviation agree := (agree tb base).

(** ** Results in memory *)

(** [r] is a result of thread [i] that reads [rep]. *)
Inductive result_of (i : nat) (r : SQLResult) (g : ghost) : sql_reply → Prop :=
  | RO_rows rws cap :
      owns_array i (res_rows r) cap (row_ptrs rws) g → rws ⊆ log_rows g →
      r = MkSQLResult (rp_status (rows_reply rws.*2)) SQL_ACTION_SELECT_ROWS (first_row rws) (res_rows r) 0 0 [] [] →
      result_of i r g (rows_reply rws.*2)
  | RO_insert l x :
      owns_none i g → (l, x) ∈ log_rows g →
      r = MkSQLResult SQL_STATUS_OK SQL_ACTION_INSERT (Some l) (MkResults None 1) (rec_id x) 0 [] [] →
      result_of i r g (insert_reply x)
  | RO_error :
      owns_none i g → r = sql_make_result SQL_STATUS_ERROR SQL_ACTION_NONE → result_of i r g (plain_reply SQL_STATUS_ERROR).

Lemma log_rows_in g m : agree g m → ∀ r, r ∈ log_rows g → m_recs m !! r.1 = Some r.2.
Proof. intros Hag r. pose proof (ag_rows_in _ _ _ _ Hag) as H. unfold rows_in in H. rewrite Forall_forall in H. apply H. Qed.

(** Without the array of the result the memory agrees with what the others see. *)
Lemma result_of_in i r g rep m :
  agree g m → result_of i r g rep →
  ∃ B, agree (without (records (res_rows r)) g) B ∧ result_in B r rep m.
Proof.
  intros Hag [rws cap Ho Hsub Hr|l x Ho Hx Hr|Ho Hr].
  - destruct (agree_hide _ _ _ _ _ _ _ _ Hag Ho) as [HagB Hg]. exists (mem_without (records (res_rows r)) m).
    split; [done|]. eapply RI_rows; [apply mem_bounded_arrays; by eapply ag_bounded| |exact Hg|done].
    apply Forall_forall. intros x Hx%Hsub. eapply log_rows_in; [exact HagB|].
    unfold log_rows in *. by destruct (without_log (records (res_rows r)) g) as (-> & _).
  - exists m. subst r. split; [done|]. apply RI_insert with (l := l); [|done]. by apply (log_rows_in g m Hag (l, x)).
  - exists m. subst r. split; [done|]. by apply RI_plain.
Qed.

(** ** The first row *)

Lemma wpc_first_row i rs cap rws (Q : ptr → ghost → Prop) g :
  owns_array i rs cap (row_ptrs rws) g →
  (∀ g2, going i g g2 → owns_array i rs cap (row_ptrs rws) g2 → Q (first_row rws) g2) →
  wpc P i (atomic Local (if decide (0 < count rs) then array_get (records rs) 0 else mret None)) Q g.
Proof.
  intros Ho HQ. eapply wpc_with_array; [done|exact Ho|]. intros g1 mB m Hr Hag Hg.
  rewrite (growing_count _ _ _ _ _ Hg).
  assert (∀ p, p = first_row rws → ∃ rs' cap' ps', growing mB rs' cap' ps' m ∧
    ∀ g2, same_shared g1 g2 → owns_array i rs' cap' ps' g2 → Q p g2) as Hdone.
  { intros p ->. exists rs, cap, (row_ptrs rws). split; [exact Hg|]. intros g2 Hs Ho2. apply HQ; [by eapply shared_going|done]. }
  destruct rws as [|x rws].
  - rewrite decide_False by (simpl; lia). by apply wp_ret, Hdone.
  - rewrite decide_True by (simpl; lia). eapply growing_get; [exact Hg|done|]. by apply Hdone.
Qed.

Lemma wpc_load_record i l x (Q : record → ghost → Prop) g :
  (l, x) ∈ log_rows g → (∀ g1, relies i g g1 → Q x g1) → wpc P i (atomic Local (load_record (Some l))) Q g.
Proof.
  intros Hin HQ. apply wpc_atomic; [done|]. intros g1 m Hr Hag. eapply wp_load_record.
  - apply (log_rows_in g1 m Hag (l, x)). eapply log_rows_later; [apply Hr|done].
  - exists g1. split_and!; [done|apply guar_refl|by apply HQ].
Qed.

(** ** Executing a statement *)

(** What a call that goes on, or has returned, has done. *)
Record called (i : nat) (k : nat * request) (g g' : ghost) : Prop := {
  cl_log : g_log g `prefix_of` g_log g';
  cl_locks : g_locks g' !! i = None;
  cl_stages k' : k' ≠ k → g_stages g' !! (i, k') = g_stages g !! (i, k');
  cl_stage id : g_stages g' !! (i, k) ≠ Some (Took id)
}.

Lemma called_relies i k g g1 g2 : called i k g g1 → relies i g1 g2 → called i k g g2.
Proof.
  intros [Hl Hk Hs Ht] Hr. split.
  - etrans; [exact Hl|apply Hr].
  - by rewrite (ry_locks _ _ _ Hr).
  - intros k' Hk'. rewrite (ry_stages _ _ _ Hr). by apply Hs.
  - intros id. rewrite (ry_stages _ _ _ Hr). apply Ht.
Qed.

Lemma going_called i k g g' : idle i g → going i g g' → called i k g g'.
Proof.
  intros (Hk & _ & Ht) [Hl Hk' Hs]. split; [done|by rewrite Hk'|intros; apply Hs|intros id; rewrite Hs; apply Ht].
Qed.

Lemma called_refl i k g : idle i g → called i k g g.
Proof. intros Hi. by apply going_called, going_refl. Qed.

Section plan.
Context (i : nat) (k : nat * request) (Q : SQLResult → ghost → Prop) (g : ghost).
Context (Hidle : idle i g) (Hstage : g_stages g !! (i, k) = Some Waiting).
Context (HQ : ∀ r rep g', called i k g g' →
  answer (entries g') (i, k) (length (g_log g)) (length (g_log g')) k.2 rep → result_of i r g' (reply_of rep) → Q r g').

Lemma wpc_insert_plan c : command_request c = Some k.2 → cmd_type c = SQL_COMMAND_INSERT → wpc P i (sql_execute_insert_acts (Some tb) c) Q g.
Proof using Hidle Hstage HQ.
  intros Hq Hc. unfold command_request in Hq. rewrite Hc in Hq. injection Hq as Hq.
  unfold sql_execute_insert_acts. rewrite decide_False by naive_solver. destruct Hidle as (Hk & Ho & _).
  apply wpc_bind, (wpc_insert _ _ _ k _ _); [done|done|by symmetry|].
  intros l r g1 Hp1 Hk1 Hname Hage (n & Hn & Hlog) Hst1 Hs1.
  assert ((l, r) ∈ log_rows g1) as Hin.
  { apply list_elem_of_lookup_2 in Hlog. by apply (list_elem_of_fmap_2 fst) in Hlog. }
  apply wpc_bind, (wpc_load_record _ _ _ _ _ Hin). intros g2 H2. apply wpc_ret.
  assert (called i k g g1) as Hc1 by (split; [apply Hp1|done|done|done]).
  apply (HQ _ (OneRow (Some r))); [by eapply called_relies| |].
  - rewrite <- Hq. exists n, r. pose proof (prefix_length _ _ (ry_log _ _ _ H2)). pose proof (lookup_lt_Some _ _ _ Hlog).
    split_and!; [done|lia| |done|done|done]. unfold entries. rewrite list_lookup_fmap.
    by rewrite (prefix_lookup_place _ _ _ _ (ry_log _ _ _ H2) Hlog).
  - apply RO_insert with (l := l); [|by eapply log_rows_later; [apply H2|]|done].
    eapply owns_progress; [exact Ho|]. eapply progress_trans; [exact Hp1|by apply relies_progress].
Qed.

(** What follows a search. *)
Lemma wpc_select_tail rs cap rws g1 :
  going i g g1 → owns_array i rs cap (row_ptrs rws) g1 → rws ⊆ log_rows g1 →
  (∀ g2, going i g1 g2 → answer (entries g2) (i, k) (length (g_log g)) (length (g_log g2)) k.2 (Rows rws.*2)) →
  wpc P i (first ← atomic Local (if decide (0 < count rs) then array_get (records rs) 0 else mret None);
           mret (MkSQLResult (if decide (count rs = 0) then SQL_STATUS_NOT_FOUND else SQL_STATUS_OK)
                   SQL_ACTION_SELECT_ROWS first rs 0 0 [] [])) Q g1.
Proof using Hidle HQ.
  intros Hg1 Ho1 Hsub Hans. apply wpc_bind. eapply wpc_first_row; [exact Ho1|]. intros g2 Hg2 Ho2. apply wpc_ret.
  apply (HQ _ (Rows rws.*2)); [by eapply going_called, going_trans|by apply Hans|].
  eapply RO_rows; [exact Ho2| |].
  - intros x Hx%Hsub. eapply log_rows_later; [apply Hg2|done].
  - simpl. f_equal. pose proof (oa_count _ _ _ _ _ Ho2) as Hc. rewrite Hc. by destruct rws.
Qed.

(** After a scan that keeps the rows with [test]. *)
Lemma wpc_scan_tail test cs rs cap g1 :
  collected i g g1 cs → owns_array i rs cap (row_ptrs (filter (test_row test) (collection cs g1))) g1 →
  (∀ D b e L, snapshot D.*1 b e L → answer D (i, k) b e k.2 (Rows (filter (λ r, test r = true) L))) →
  wpc P i (first ← atomic Local (if decide (0 < count rs) then array_get (records rs) 0 else mret None);
           mret (MkSQLResult (if decide (count rs = 0) then SQL_STATUS_NOT_FOUND else SQL_STATUS_OK)
                   SQL_ACTION_SELECT_ROWS first rs 0 0 [] [])) Q g1.
Proof using Hidle HQ.
  intros Hc1 Ho1 Hans. eapply wpc_select_tail; [apply Hc1|exact Ho1|by eapply filtered_rows|].
  intros g2 Hg2. pose proof (collected_later _ _ _ _ _ Hc1 Hg2) as Hc2. rewrite filter_records.
  assert ((collection cs g1).*2 = (collection cs g2).*2) as ->.
  { unfold collection. by rewrite <- (gathered_later cs g g1 g2) by (apply Hc1 || apply Hg2). }
  apply Hans. by apply (collected_snapshot i).
Qed.

Lemma wpc_select_plan c : command_request c = Some k.2 → cmd_type c ≠ SQL_COMMAND_INSERT → wpc P i (sql_execute_select_acts (Some tb) c) Q g.
Proof using Hidle HQ.
  intros Hq Hc. unfold command_request in Hq. unfold sql_execute_select_acts. cbv zeta.
  assert (∀ D b e L, snapshot D.*1 b e L → k.2 = Q_all → answer D (i, k) b e k.2 (Rows (filter (λ r, true = true) L))) as Hall.
  { intros D b e L HL ->. exists L. split; [done|]. by rewrite filter_all. }
  destruct (cmd_type c) eqn:Ec; try done; injection Hq as Hq; apply wpc_bind, wpc_bind.
  - destruct Hidle as (Hk & Ho & _). apply wpc_collect_all; [done|done|]. intros cs rs cap g1 Hc1 Ho1. apply wpc_ret.
    eapply (wpc_scan_tail (λ _, true) cs); [done|by rewrite filter_all|]. intros D b e L HL. by apply Hall.
  - destruct (decide (comparison c = TABLE_COMPARISON_EQ)) as [Heq|Hne].
    + rewrite Heq. apply wpc_one; [done|]. intros n rs cap g1 Hg1 Hn Ho1. apply wpc_ret.
      eapply wpc_select_tail; [done|exact Ho1|intros r; apply found_in_log|]. intros g2 Hg2.
      pose proof (prefix_length _ _ (go_log _ _ _ Hg2)). rewrite <- Hq. unfold answer. rewrite decide_True by done.
      exists n. split; [lia|]. by rewrite <- (found_later _ n g1 g2), found_records by (apply Hg2 || lia).
    + unfold id_condition_acts. rewrite decide_False by done. apply wpc_select; [done|]. intros cs rs cap g1 Hc1 Ho1. apply wpc_ret.
      eapply (wpc_scan_tail (λ r, table_compare_int (rec_id r) (comparison c) (int_value c))); [exact Hc1|exact Ho1|].
      intros D b e L HL. rewrite <- Hq. simpl. rewrite decide_False by done. by exists L.
  - apply wpc_select; [done|]. intros cs rs cap g1 Hc1 Ho1. apply wpc_ret.
    eapply (wpc_scan_tail (λ r, bool_decide (rec_name r = text_value c))); [exact Hc1|exact Ho1|].
    intros D b e L HL. rewrite <- Hq. by exists L.
  - apply wpc_select; [done|]. intros cs rs cap g1 Hc1 Ho1. apply wpc_ret.
    eapply (wpc_scan_tail (λ r, table_compare_int (rec_age r) (comparison c) (int_value c))); [exact Hc1|exact Ho1|].
    intros D b e L HL. rewrite <- Hq. by exists L.
Qed.

Lemma wpc_plan c : command_request c = Some k.2 → wpc P i (sql_execute_plan_acts (Some tb) (Some c)) Q g.
Proof using Hidle Hstage HQ.
  intros Hq. unfold sql_execute_plan_acts.
  destruct (decide (cmd_type c = SQL_COMMAND_INSERT)) as [Hc|Hc].
  - rewrite Hc. by apply wpc_insert_plan.
  - pose proof (wpc_select_plan c Hq Hc) as Hsel. unfold command_request in Hq. by destruct (cmd_type c).
Qed.
End plan.
End spec.
