(* ===== verification/Http.v ===== *)
(** HTTP over a socket, [server/http.c]: reading a request and sending a
    response.  The socket is a sequence of what [recv] and [send] will meet, the
    bytes sent so far, and the timeouts that were set. *)
From stdpp Require Import base list gmap strings.
From Stdlib Require Import Ascii ZArith Lia.
From S2P Require Import Prelude Memory CLib Bytes.

Definition HTTP_MAX_METHOD_SIZE : nat := 16.
Definition HTTP_MAX_PATH_SIZE : nat := 64.
Definition HTTP_MAX_VERSION_SIZE : nat := 16.
Definition HTTP_MAX_BODY_SIZE : nat := Z.to_nat 4096.
Definition HTTP_MAX_REQUEST_SIZE : nat := Z.to_nat 8192.
#[global] Arguments HTTP_MAX_BODY_SIZE : simpl never.
#[global] Arguments HTTP_MAX_REQUEST_SIZE : simpl never.

(** ** Sockets *)

Inductive errno := ENONE | EINTR | EAGAIN | EOTHER.
#[export] Instance errno_eq_dec : EqDecision errno.
Proof. solve_decision. Defined.

(** What [recv] meets: bytes the peer sent, a signal, a peer that sends nothing
    and does not close, or an error; no bytes, and the end of the list, are the
    end of the stream. *)
Inductive recv_event :=
  | RecvData (bs : cstr)
  | RecvIntr
  | RecvSilent
  | RecvError.

(** What [send] meets: room for some bytes, a signal, a peer that takes nothing
    and does not close, a peer that has closed, or another error; after the list
    there is room for everything. *)
Inductive send_event :=
  | SendRoom (n : nat)
  | SendIntr
  | SendStuck
  | SendBroken
  | SendError.

#[export] Instance recv_event_eq_dec : EqDecision recv_event.
Proof. solve_decision. Defined.
#[export] Instance send_event_eq_dec : EqDecision send_event.
Proof. solve_decision. Defined.

(** [c_rcvtimeo] and [c_sndtimeo] are the options [SO_RCVTIMEO] and
    [SO_SNDTIMEO], in seconds; 0, as on a new socket, is no timeout. *)
Record Conn := MkConn {
  c_recv : list recv_event;
  c_send : list send_event;
  c_out : cstr;
  c_errno : errno;
  c_rcvtimeo : Z;
  c_sndtimeo : Z
}.

(** A new socket that will meet this. *)
Definition new_conn (evs : list recv_event) (sends : list send_event) : Conn := MkConn evs sends [] ENONE 0 0.

Definition set_recv (evs : list recv_event) (c : Conn) : Conn :=
  MkConn evs (c_send c) (c_out c) (c_errno c) (c_rcvtimeo c) (c_sndtimeo c).
Definition set_send (evs : list send_event) (c : Conn) : Conn :=
  MkConn (c_recv c) evs (c_out c) (c_errno c) (c_rcvtimeo c) (c_sndtimeo c).
Definition set_sent (out : cstr) (c : Conn) : Conn :=
  MkConn (c_recv c) (c_send c) out (c_errno c) (c_rcvtimeo c) (c_sndtimeo c).
Definition set_errno (e : errno) (c : Conn) : Conn :=
  MkConn (c_recv c) (c_send c) (c_out c) e (c_rcvtimeo c) (c_sndtimeo c).
Definition set_rcvtimeo (t : Z) (c : Conn) : Conn :=
  MkConn (c_recv c) (c_send c) (c_out c) (c_errno c) t (c_sndtimeo c).
Definition set_sndtimeo (t : Z) (c : Conn) : Conn :=
  MkConn (c_recv c) (c_send c) (c_out c) (c_errno c) (c_rcvtimeo c) t.

(** [recv(fd, buffer, n, 0)]: the result and the bytes it stored.  While the peer
    is silent it waits, until the timeout if there is one. *)
Definition recv (n : nat) : prog Conn (Z * cstr) := λ c,
  match c_recv c with
  | [] => Ok ((0%Z, []), c)
  | RecvData bs :: evs =>
      Ok ((Z.of_nat (length (take n bs)), take n bs),
          set_recv (if decide (n < length bs) then RecvData (drop n bs) :: evs else evs) c)
  | RecvIntr :: evs => Ok (((-1)%Z, []), set_errno EINTR (set_recv evs c))
  | RecvSilent :: evs =>
      if decide (c_rcvtimeo c = 0)%Z then Blocked else Ok (((-1)%Z, []), set_errno EAGAIN (set_recv evs c))
  | RecvError :: evs => Ok (((-1)%Z, []), set_errno EOTHER (set_recv evs c))
  end.

(** [send(fd, data, length, flags)].  On a connection that the peer has closed it
    raises [SIGPIPE], which the program leaves at its default, the end of the
    process; with [MSG_NOSIGNAL] the call would only fail. *)
Definition MSG_NOSIGNAL : Z := 16384.

Definition send (data : cstr) (flags : Z) : prog Conn Z := λ c,
  match c_send c with
  | [] => Ok (Z.of_nat (length data), set_sent (c_out c ++ data) c)
  | SendRoom n :: evs =>
      Ok (Z.of_nat (length (take n data)), set_sent (c_out c ++ take n data) (set_send evs c))
  | SendIntr :: evs => Ok ((-1)%Z, set_errno EINTR (set_send evs c))
  | SendStuck :: evs =>
      if decide (c_sndtimeo c = 0)%Z then Blocked else Ok ((-1)%Z, set_errno EAGAIN (set_send evs c))
  | SendBroken :: evs =>
      if decide (Z.land flags MSG_NOSIGNAL = 0)%Z then Killed else Ok ((-1)%Z, set_errno EOTHER (set_send evs c))
  | SendError :: evs => Ok ((-1)%Z, set_errno EOTHER (set_send evs c))
  end.

(** The calls of [recv] that the events allow before the stream ends: a bound
    on the turns of a loop that receives. *)
Fixpoint recv_turns (evs : list recv_event) : nat :=
  match evs with
  | [] => 0
  | RecvData bs :: evs' => S (length bs + recv_turns evs')
  | _ :: evs' => S (recv_turns evs')
  end.

(** ** Buffers *)

(** Bytes written into an array of [char], and read from it. *)
Definition put_bytes {St} (buffer : byte_block) (off : nat) (bs : cstr) : prog St byte_block :=
  if decide (off + length bs ≤ length buffer) then mret (overwrite off bs buffer) else ub.

Fixpoint all_written (blk : byte_block) : option cstr :=
  match blk with
  | [] => Some []
  | Some c :: blk' => cons c <$> all_written blk'
  | None :: _ => None
  end.
Definition get_bytes {St} (buffer : byte_block) (off n : nat) : prog St cstr :=
  if decide (off + n ≤ length buffer) then
    match all_written (take n (drop off buffer)) with Some bs => mret bs | None => ub end
  else ub.
Definition get_string {St} (buffer : byte_block) : prog St cstr :=
  match block_string buffer with Some s => mret s | None => ub end.

(** ** Text *)

Definition crlf : cstr := [carriage_return; newline].
Definition is_crlf (c : ascii) : bool := bool_decide (c = carriage_return ∨ c = newline).

(** [strstr(s, CRLF)]: what precedes the first one and what follows it. *)
Fixpoint strstr_crlf (s : cstr) : option (cstr * cstr) :=
  match s with
  | [] => None
  | c :: s' =>
      if decide (c = carriage_return ∧ cur s' = newline) then Some ([], tail s')
      else '(before, after) ← strstr_crlf s'; Some (c :: before, after)
  end.

(** [%ns]: spaces, then at most [n] other characters. *)
Fixpoint take_word (n : nat) (s : cstr) : cstr * cstr :=
  match n, s with
  | S n', c :: s' => if isspace c then ([], s) else let '(w, rest) := take_word n' s' in (c :: w, rest)
  | _, _ => ([], s)
  end.
Definition scan_word (n : nat) (s : cstr) : option (cstr * cstr) :=
  match take_word n (skip_space s) with ([], _) => None | r => Some r end.

(** [strtok_r(s, CRLF, &save)]: a token and the rest. *)
Fixpoint skip_delims (s : cstr) : cstr :=
  match s with c :: s' => if is_crlf c then skip_delims s' else s | [] => [] end.
Fixpoint take_token (s : cstr) : cstr * cstr :=
  match s with
  | c :: s' => if is_crlf c then ([], s') else let '(t, rest) := take_token s' in (c :: t, rest)
  | [] => ([], [])
  end.
Definition strtok_r (s : cstr) : option (cstr * cstr) :=
  match skip_delims s with [] => None | s' => Some (take_token s') end.

(** [strchr(line, ':')]: what precedes it and what follows it. *)
Fixpoint strchr_colon (s : cstr) : option (cstr * cstr) :=
  match s with
  | [] => None
  | c :: s' =>
      if decide (c = ":"%char) then Some ([], s')
      else '(before, after) ← strchr_colon s'; Some (c :: before, after)
  end.

(** ** Requests *)

Record HttpRequest := MkRequest {
  method : cstr;
  path : cstr;
  version : cstr;
  content_length : Z;
  req_body : list ascii
}.

Definition zero_request : HttpRequest := MkRequest [] [] [] 0 (replicate (HTTP_MAX_BODY_SIZE + 1) NUL).

(** The two results an error goes to: [*error_status], and the [size] bytes of
    [error_message]; either pointer may be null. *)
Record http_error := MkError { error_status : option Z; error_message : option (nat * cstr) }.

Definition set_error (error_message : option (nat * cstr)) (message : cstr) : option (nat * cstr) :=
  match error_message with
  | None => None
  | Some (size, old) => if decide (size = 0) then Some (size, old) else Some (size, snprintf size message)
  end.

(** [if (error_status != NULL) *error_status = status; set_error(...);] *)
Definition report (status : Z) (message : string) (e : http_error) : http_error :=
  MkError (match error_status e with None => None | Some _ => Some status end)
    (set_error (error_message e) (lit message)).

(** [buffer[index..index+3]] is CR LF CR LF. *)
Definition header_ends_at (buffer : byte_block) (index : nat) : prog Conn bool :=
  c0 ← tget buffer index;
  if negb (bool_decide (c0 = carriage_return)) then mret false
  else
    c1 ← tget buffer (index + 1);
    if negb (bool_decide (c1 = newline)) then mret false
    else
      c2 ← tget buffer (index + 2);
      if negb (bool_decide (c2 = carriage_return)) then mret false
      else
        c3 ← tget buffer (index + 3);
        mret (bool_decide (c3 = newline)).

(** One turn of the loop; the state is the buffer, how much of it is used, and
    the index of the end of the header, 0 until it is found. *)
Definition header_step (buffer_size : nat) (l : byte_block * nat * nat) :
    prog Conn (byte_block * nat * nat + Z * (byte_block * nat * nat)) :=
  let '(buffer, used, header_end) := l in
  if decide (header_end ≠ 0) then mret (inr (1%Z, l))
  else if decide (used = buffer_size) then mret (inr (0%Z, l))
  else
    r ← recv (buffer_size - used);
    let '(n, bs) := r in
    if decide (n < 0)%Z then
      e ← gets c_errno;
      if decide (e = EINTR) then mret (inl l)
      else if decide (e = EAGAIN) then mret (inr ((-1)%Z, l))
      else mret (inr (0%Z, l))
    else if decide (n = 0)%Z then mret (inr (0%Z, l))
    else
      buffer ← put_bytes buffer used bs;
      let used := used + length bs in
      found ← for_until 0 (used - 3) (λ index _,
        b ← header_ends_at buffer index;
        mret (if (b : bool) then inr index else inl tt)) tt;
      match found with
      | inr index => mret (inr (1%Z, (buffer, used, index)))
      | inl _ => mret (inl (buffer, used, header_end))
      end.

Definition read_until_header_end (buffer : byte_block) (buffer_size used header_end : nat) :
    prog Conn (Z * (byte_block * nat * nat)) :=
  turns ← gets (λ c, recv_turns (c_recv c));
  while_loop (S turns) (header_step buffer_size) (buffer, used, header_end).

(** [sscanf(line, [%15s %63s %15s], ...)]: its result, -1 when the line ends
    before the first word, and the request with the words it read. *)
Definition sscanf_request_line (line : cstr) (r : HttpRequest) : Z * HttpRequest :=
  match scan_word (HTTP_MAX_METHOD_SIZE - 1) line with
  | None => (-1, r)%Z
  | Some (w1, s1) =>
      let r := MkRequest w1 (path r) (version r) (content_length r) (req_body r) in
      match scan_word (HTTP_MAX_PATH_SIZE - 1) s1 with
      | None => (1, r)%Z
      | Some (w2, s2) =>
          let r := MkRequest (method r) w2 (version r) (content_length r) (req_body r) in
          match scan_word (HTTP_MAX_VERSION_SIZE - 1) s2 with
          | None => (2, r)%Z
          | Some (w3, _) => (3, MkRequest (method r) (path r) w3 (content_length r) (req_body r))%Z
          end
      end
  end.

(** One turn of the loop over the header lines: the rest of the text, the
    content length, and whether one was seen.  It ends with an error message or
    with the last two. *)
Definition header_line_step (l : cstr * Z * bool) : prog Conn (cstr * Z * bool + (string + Z * bool)) :=
  let '(saveptr, content_length, saw_content_length) := l in
  match strtok_r saveptr with
  | None => mret (inr (inr (content_length, saw_content_length)))
  | Some (line, saveptr) =>
      if decide (cur line = NUL) then mret (inl (saveptr, content_length, saw_content_length))
      else
        match strchr_colon line with
        | None => mret (inr (inl "Malformed HTTP header"%string))
        | Some (line, colon) =>
            let colon := skip_space colon in
            if strcaseeq line (lit "Content-Length") then
              let '(parsed, end_ptr) := strtoul colon in
              if decide (length end_ptr = length colon ∨ end_ptr ≠ []) then
                mret (inr (inl "Invalid Content-Length"%string))
              else mret (inl (saveptr, parsed, true))
            else mret (inl (saveptr, content_length, saw_content_length))
        end
  end.

Definition set_req_body (b : list ascii) (r : HttpRequest) : HttpRequest :=
  MkRequest (method r) (path r) (version r) (content_length r) b.
Definition set_content_length (n : Z) (r : HttpRequest) : HttpRequest :=
  MkRequest (method r) (path r) (version r) n (req_body r).

(** [request->body[off..] = bs] *)
Definition put_body (off : nat) (bs : cstr) (r : HttpRequest) : prog Conn HttpRequest :=
  if decide (off + length bs ≤ length (req_body r))
  then mret (set_req_body (take off (req_body r) ++ bs ++ drop (off + length bs) (req_body r)) r)
  else ub.

(** One turn of the loop that receives the rest of the body. *)
Definition body_step (content_length : nat) (l : HttpRequest * nat) :
    prog Conn (HttpRequest * nat + HttpRequest * option (Z * string)) :=
  let '(request, body_available) := l in
  if decide (body_available < content_length) then
    r ← recv (content_length - body_available);
    let '(n, bs) := r in
    if decide (n < 0)%Z then
      e ← gets c_errno;
      if decide (e = EINTR) then mret (inl l)
      else if decide (e = EAGAIN) then mret (inr (request, Some (408%Z, "Request timed out"%string)))
      else mret (inr (request, Some (400%Z, "Failed to read request body"%string)))
    else if decide (n = 0)%Z then mret (inr (request, Some (400%Z, "Incomplete request body"%string)))
    else
      request ← put_body body_available bs request;
      mret (inl (request, body_available + length bs))
  else mret (inr (request, None)).

Definition http_read_request (request : option HttpRequest) (e : http_error) :
    prog Conn (Z * option HttpRequest * http_error) :=
  match request with
  | None => mret ((-1)%Z, None, report 500 "Internal request error" e)
  | Some _ =>
      let request := zero_request in
      r ← read_until_header_end (replicate HTTP_MAX_REQUEST_SIZE None) HTTP_MAX_REQUEST_SIZE 0 0;
      let '(header_read_result, (buffer, used, header_end)) := r in
      if decide (header_read_result ≤ 0)%Z then
        err ← gets c_errno;
        if decide (header_read_result < 0 ∧ err = EAGAIN)%Z
        then mret ((-1)%Z, Some request, report 408 "Request timed out" e)
        else mret ((-1)%Z, Some request, report 400 "Malformed HTTP request" e)
      else
        buffer ← tset buffer header_end NUL;
        text ← get_string buffer;
        match strstr_crlf text with
        | None => mret ((-1)%Z, Some request, report 400 "Malformed HTTP request line" e)
        | Some (line, headers) =>
            let '(n, request) := sscanf_request_line line request in
            if decide (n ≠ 3)%Z then mret ((-1)%Z, Some request, report 400 "Malformed HTTP request line" e)
            else if decide (method request ≠ lit "POST") then
              mret ((-1)%Z, Some request, report 405 "Only POST is supported" e)
            else if decide (path request ≠ lit "/query") then
              mret ((-1)%Z, Some request, report 404 "Only /query is supported" e)
            else
              r ← while_loop (S (length headers)) header_line_step (headers, 0%Z, false);
              match r with
              | inl message => mret ((-1)%Z, Some request, report 400 message e)
              | inr (content_length, saw_content_length) =>
                  if negb saw_content_length then
                    mret ((-1)%Z, Some request, report 400 "Missing Content-Length" e)
                  else if decide (Z.of_nat HTTP_MAX_BODY_SIZE < content_length)%Z then
                    mret ((-1)%Z, Some request, report 413 "Request body is too large" e)
                  else
                    let request := set_content_length content_length request in
                    let length := Z.to_nat content_length in
                    let body_offset := header_end + 4 in
                    let body_available := (if decide (body_offset < used) then used - body_offset else 0) in
                    let body_available := (if decide (length < body_available) then length else body_available) in
                    request ← (if decide (0 < body_available) then
                                 bs ← get_bytes buffer body_offset body_available; put_body 0 bs request
                               else mret request);
                    turns ← gets (λ c, recv_turns (c_recv c));
                    r ← while_loop (S turns) (body_step length) (request, body_available);
                    match r with
                    | (request, Some (status, message)) => mret ((-1)%Z, Some request, report status message e)
                    | (request, None) =>
                        request ← put_body length [NUL] request;
                        mret (0%Z, Some request, e)
                    end
              end
        end
  end.

(** ** Responses *)

(** The bytes still to send; [sent] is what precedes them. *)
Definition send_step (data : cstr) : prog Conn (cstr + bool) :=
  if decide (0 < length data) then
    n ← send data 0;
    if decide (n < 0)%Z then
      e ← gets c_errno;
      if decide (e = EINTR) then mret (inl data) else mret (inr false)
    else if decide (n = 0)%Z then mret (inr false)
    else mret (inl (drop (Z.to_nat n) data))
  else mret (inr true).

(** Each turn uses up an event or, after the last, sends everything. *)
Definition send_all (data : cstr) : prog Conn bool :=
  turns ← gets (λ c, length (c_send c));
  while_loop (S (S turns)) send_step data.

Definition http_status_reason (status_code : Z) : cstr :=
  if decide (status_code = 200)%Z then lit "OK"
  else if decide (status_code = 400)%Z then lit "Bad Request"
  else if decide (status_code = 404)%Z then lit "Not Found"
  else if decide (status_code = 405)%Z then lit "Method Not Allowed"
  else if decide (status_code = 408)%Z then lit "Request Timeout"
  else if decide (status_code = 413)%Z then lit "Payload Too Large"
  else if decide (status_code = 500)%Z then lit "Internal Server Error"
  else if decide (status_code = 503)%Z then lit "Service Unavailable"
  else lit "OK".

Definition response_format : cstr :=
  lit "HTTP/1.1 %d %s" ++ crlf ++ lit "Content-Type: %s" ++ crlf ++ lit "Content-Length: %zu" ++ crlf ++
  lit "Connection: close" ++ crlf ++ crlf.

(** [header] has 512 bytes; a longer one is not sent. *)
Definition http_send_response (status_code : Z) (content_type body : option cstr) : prog Conn bool :=
  let body := default [] body in
  let content_type := default (lit "text/plain; charset=utf-8") content_type in
  match format_text response_format
          [FInt status_code; FString (http_status_reason status_code); FString content_type;
           FSize (Z.of_nat (length body))] with
  | None => ub
  | Some header =>
      if decide (512 ≤ length header) then mret false
      else
        ok ← send_all header;
        if negb ok then mret false else send_all body
  end.
