(* ===== verification/HttpSpec.v ===== *)
(** Reading a request depends only on the bytes the peer sent before the stream
    ended, and on how it ended: not on how the network cut them into chunks, nor
    on signals.  What a request means, as a function of these. *)
From stdpp Require Import base list gmap strings.
From Stdlib Require Import Ascii ZArith Lia.
From S2P Require Import Prelude Memory CLib CLibProofs BPTree Table Sql SqlLex Repl Bytes Http.

(** ** The specification *)

Inductive ending := EndClosed | EndTimeout | EndFailed.
#[export] Instance ending_eq_dec : EqDecision ending.
Proof. solve_decision. Defined.

(** The bytes before the stream ends, and how it ends. *)
Fixpoint stream (evs : list recv_event) : cstr * ending :=
  match evs with
  | [] | RecvData [] :: _ => ([], EndClosed)
  | RecvData bs :: evs' => let '(raw, e) := stream evs' in (bs ++ raw, e)
  | RecvIntr :: evs' => stream evs'
  | RecvSilent :: _ => ([], EndTimeout)
  | RecvError :: _ => ([], EndFailed)
  end.

Definition header_end_mark : cstr := crlf ++ crlf.

(** The index of the first CR LF CR LF. *)
Fixpoint find_end (s : cstr) : option nat :=
  match s with
  | [] => None
  | c :: s' => if decide (take 4 s = header_end_mark) then Some 0 else S <$> find_end s'
  end.

(** The non-empty lines of a header, [acc] being the start of the first. *)
Fixpoint lines_from (acc s : cstr) : list cstr :=
  match s with
  | [] => match acc with [] => [] | _ => [acc] end
  | c :: s' =>
      if is_crlf c then match acc with [] => lines_from [] s' | _ => acc :: lines_from [] s' end
      else lines_from (acc ++ [c]) s'
  end.
Definition header_lines : cstr → list cstr := lines_from [].

(** The value of the last Content-Length line: [None] if there is none. *)
Fixpoint read_content_length (lines : list cstr) (acc : option Z) : string + option Z :=
  match lines with
  | [] => inr acc
  | line :: lines' =>
      match strchr_colon line with
      | None => inl "Malformed HTTP header"%string
      | Some (name, value) =>
          if strcaseeq name (lit "Content-Length") then
            let '(n, rest) := strtoul (skip_space value) in
            if decide (length rest = length (skip_space value) ∨ rest ≠ []) then inl "Invalid Content-Length"%string
            else read_content_length lines' (Some n)
          else read_content_length lines' acc
      end
  end.

(** The head of a request: an error, or the version and the length of the body. *)
Definition read_head (text : cstr) : Z * string + cstr * nat :=
  match strstr_crlf text with
  | None => inl (400%Z, "Malformed HTTP request line"%string)
  | Some (line, headers) =>
      let '(n, r) := sscanf_request_line line zero_request in
      if decide (n ≠ 3)%Z then inl (400%Z, "Malformed HTTP request line"%string)
      else if decide (method r ≠ lit "POST") then inl (405%Z, "Only POST is supported"%string)
      else if decide (path r ≠ lit "/query") then inl (404%Z, "Only /query is supported"%string)
      else
        match read_content_length (header_lines headers) None with
        | inl message => inl (400%Z, message)
        | inr None => inl (400%Z, "Missing Content-Length"%string)
        | inr (Some n) =>
            if decide (Z.of_nat HTTP_MAX_BODY_SIZE < n)%Z then inl (413%Z, "Request body is too large"%string)
            else inr (version r, Z.to_nat n)
        end
  end.

Inductive http_outcome :=
  | Refused (status : Z) (message : string)
  | Accepted (version body : cstr).

Definition http_spec (raw : cstr) (e : ending) : http_outcome :=
  match find_end (take HTTP_MAX_REQUEST_SIZE raw) with
  | None =>
      if decide (length raw < HTTP_MAX_REQUEST_SIZE ∧ e = EndTimeout)
      then Refused 408 "Request timed out"
      else Refused 400 "Malformed HTTP request"
  | Some i =>
      match read_head (c_string (take i raw)) with
      | inl (status, message) => Refused status message
      | inr (version, n) =>
          let rest := drop (i + 4) raw in
          if decide (n ≤ length rest) then Accepted version (take n rest)
          else match e with
               | EndClosed => Refused 400 "Incomplete request body"
               | EndTimeout => Refused 408 "Request timed out"
               | EndFailed => Refused 400 "Failed to read request body"
               end
      end
  end.

(** The request a call returns for a body. *)
Definition request_of (version body : cstr) : HttpRequest :=
  MkRequest (lit "POST") (lit "/query") version (Z.of_nat (length body))
    (body ++ replicate (HTTP_MAX_BODY_SIZE + 1 - length body) NUL).

Definition delivers (o : http_outcome) (e : http_error) (r : Z * option HttpRequest * http_error) : Prop :=
  match o with
  | Accepted version body => r = (0%Z, Some (request_of version body), e)
  | Refused status message => r.1.1 = (-1)%Z ∧ r.2 = report status message e
  end.

(** ** Finding the end of the header *)

Definition ends_at (s : cstr) (i : nat) : Prop := take 4 (drop i s) = header_end_mark.

Lemma find_end_Some s i : find_end s = Some i → ends_at s i ∧ ∀ j, j < i → ¬ ends_at s j.
Proof.
  revert i. induction s as [|c s IH]; intros i; [done|]. cbn [find_end]. case_decide as H0.
  - intros [= <-]. split; [done|lia].
  - destruct (find_end s) as [k|]; [|done]. intros [= <-]. destruct (IH k eq_refl) as [He Hj].
    split; [done|]. intros [|j] Hlt; [done|]. apply Hj. lia.
Qed.

Lemma find_end_None s i : find_end s = None → ¬ ends_at s i.
Proof.
  revert i. induction s as [|c s IH]; intros i; [by unfold ends_at; rewrite drop_nil|]. cbn [find_end].
  case_decide as H0; [done|]. destruct (find_end s) as [k|]; [done|]. intros _. destruct i as [|i]; [done|]. by apply IH.
Qed.

Lemma find_end_iff s i : ends_at s i → (∀ j, j < i → ¬ ends_at s j) → find_end s = Some i.
Proof.
  intros He Hj. destruct (find_end s) as [k|] eqn:E; [|by eapply find_end_None in E].
  apply find_end_Some in E as [Hk Hk']. destruct (decide (i < k)); [by destruct (Hk' i)|].
  destruct (decide (k < i)); [by destruct (Hj k)|]. f_equal. lia.
Qed.

Lemma ends_at_length s i : ends_at s i → i + 4 ≤ length s.
Proof.
  intros H. apply (f_equal length) in H. rewrite length_take, length_drop in H.
  change (length header_end_mark) with 4 in H. lia.
Qed.

Lemma ends_at_app s t i : i + 4 ≤ length s → ends_at (s ++ t) i ↔ ends_at s i.
Proof.
  intros H. unfold ends_at. rewrite drop_app_le by lia. rewrite take_app_le by (rewrite length_drop; lia). done.
Qed.

Lemma find_end_app s t i : find_end s = Some i → find_end (s ++ t) = Some i.
Proof.
  intros [He Hj]%find_end_Some. pose proof (ends_at_length _ _ He). apply find_end_iff.
  - by apply ends_at_app.
  - intros j Hlt. rewrite ends_at_app by lia. by apply Hj.
Qed.

(** ** Receiving *)

(** The peer leaves the server waiting, and no timeout ends the wait: while it
    reads, before the request is complete; and while it writes. *)
Definition silent (c : Conn) : Prop :=
  c_rcvtimeo c = 0%Z ∧ http_spec (stream (c_recv c)).1 (stream (c_recv c)).2 = Refused 408 "Request timed out".
Definition stuck (c : Conn) : Prop := c_sndtimeo c = 0%Z ∧ SendStuck ∈ c_send c.
(** The peer closes before it has read everything. *)
Definition broken (c : Conn) : Prop := SendBroken ∈ c_send c.

(** Both timeouts are set. *)
Definition timed (c : Conn) : Prop := c_rcvtimeo c ≠ 0%Z ∧ c_sndtimeo c ≠ 0%Z.

Lemma timed_never_waits c : timed c → ¬ silent c ∧ ¬ stuck c.
Proof. intros [? ?]. by split; intros [? _]. Qed.

(** What receiving leaves alone. *)
Record quiet_recv (c c' : Conn) : Prop := {
  qr_out : c_out c' = c_out c;
  qr_send : c_send c' = c_send c;
  qr_rcvtimeo : c_rcvtimeo c' = c_rcvtimeo c;
  qr_sndtimeo : c_sndtimeo c' = c_sndtimeo c
}.

#[export] Instance quiet_recv_preorder : PreOrder quiet_recv.
Proof. split; [done|]. intros c1 c2 c3 [] []. split; congruence. Qed.

Lemma quiet_keeps_send c c' : quiet_recv c c' → (broken c' → broken c) ∧ (stuck c' → stuck c) ∧ (timed c → timed c').
Proof.
  intros [_ Hs Hr Ht]. unfold broken, stuck, timed. rewrite Hs, Hr, Ht. auto.
Qed.

(** [c'] is [c] after a call of [recv] that left [raw] and [e] to come. *)
Definition received (c : Conn) (raw : cstr) (e : ending) (c' : Conn) : Prop :=
  quiet_recv c c' ∧ stream (c_recv c') = (raw, e) ∧ recv_turns (c_recv c') < recv_turns (c_recv c).

Lemma wp_recv {B : Prop} n c raw e (Q : Z * cstr → Conn → Prop) :
  stream (c_recv c) = (raw, e) → 0 < n →
  (∀ bs rest c', bs ≠ [] → length bs ≤ n → raw = bs ++ rest → received c rest e c' →
     Q (Z.of_nat (length bs), bs) c') →
  (∀ c', c_errno c' = EINTR → received c raw e c' → Q ((-1)%Z, []) c') →
  (∀ c', raw = [] → e = EndClosed → quiet_recv c c' → Q (0%Z, []) c') →
  (∀ c' err, raw = [] → e ≠ EndClosed → quiet_recv c c' → c_errno c' = err → err ≠ EINTR →
     (err = EAGAIN ↔ e = EndTimeout) → Q ((-1)%Z, []) c') →
  (raw = [] → e = EndTimeout → c_rcvtimeo c = 0%Z → B) →
  wpx False B (recv n) Q c.
Proof.
  intros Hs Hn Hdata Hintr Hclose Hfail Hwait. unfold wpx, recv. destruct (c_recv c) as [|ev evs] eqn:E.
  { injection Hs as <- <-. by apply Hclose. }
  destruct ev as [bs| | |]; cbn [stream] in Hs.
  - destruct bs as [|x bs]; [injection Hs as <- <-; rewrite take_nil; by apply Hclose|].
    destruct (stream evs) as [raw' e'] eqn:Es. injection Hs as <- <-.
    apply (Hdata _ (drop n (x :: bs) ++ raw')).
    + by destruct n; [lia|].
    + rewrite length_take. lia.
    + by rewrite (assoc_L (++)), take_drop.
    + split; [done|]. cbn [c_recv set_recv]. rewrite E. case_decide as Hlen.
      * destruct (drop n (x :: bs)) as [|y ys] eqn:Ed; apply (f_equal length) in Ed; rewrite length_drop in Ed;
          [simpl in *; lia|]. split; [cbn [stream]; by rewrite Es|]. simpl in *. lia.
      * rewrite drop_ge by lia. split; [done|]. simpl. lia.
  - apply Hintr; [done|]. split; [done|]. cbn [c_recv set_recv set_errno]. rewrite E. split; [done|]. simpl. lia.
  - injection Hs as <- <-. case_decide; [by apply Hwait|by eapply Hfail].
  - injection Hs as <- <-. by eapply Hfail.
Qed.

(** ** The buffer *)

(** A buffer whose first bytes are [data] and whose others were never written. *)
Definition filled (size : nat) (data : cstr) : byte_block :=
  (Some <$> data) ++ replicate (size - length data) None.

Lemma wp_put_bytes {K B} size data bs (Q : byte_block → Conn → Prop) c :
  length data + length bs ≤ size → Q (filled size (data ++ bs)) c →
  wpx K B (put_bytes (filled size data) (length data) bs) Q c.
Proof.
  intros Hle HQ. unfold put_bytes.
  rewrite decide_True by (unfold filled; rewrite length_app, length_fmap, length_replicate; lia).
  apply wp_ret. revert HQ. unfold overwrite, filled.
  rewrite take_app_length' by by rewrite length_fmap.
  rewrite drop_app, drop_ge by (rewrite length_fmap; lia). rewrite length_fmap, drop_replicate, fmap_app, length_app.
  rewrite <- (assoc_L (++)). simpl. by replace (size - length data - (length data + length bs - length data)) with
    (size - (length data + length bs)) by lia.
Qed.

Lemma filled_lookup size data i x : data !! i = Some x → filled size data !! i = Some (Some x).
Proof. intros H. unfold filled. rewrite lookup_app_l by (rewrite length_fmap; by eapply lookup_lt_Some). by rewrite list_lookup_fmap, H. Qed.

Lemma take_4 (s : cstr) i a b c d :
  s !! i = Some a → s !! (i + 1) = Some b → s !! (i + 2) = Some c → s !! (i + 3) = Some d →
  take 4 (drop i s) = [a; b; c; d].
Proof.
  intros Ha Hb Hc Hd. replace (i + 1) with (S i) in Hb by lia. replace (i + 2) with (S (S i)) in Hc by lia.
  replace (i + 3) with (S (S (S i))) in Hd by lia.
  rewrite (drop_S s a i Ha), (drop_S s b (S i) Hb), (drop_S s c (S (S i)) Hc), (drop_S s d (S (S (S i))) Hd). done.
Qed.

Lemma wp_header_ends {K B} size data i (Q : bool → Conn → Prop) c :
  i + 3 < length data → (∀ b, (b = true ↔ ends_at data i) → Q b c) →
  wpx K B (header_ends_at (filled size data) i) Q c.
Proof.
  intros Hi HQ.
  destruct (lookup_lt_is_Some_2 data i) as [x0 H0]; [lia|].
  destruct (lookup_lt_is_Some_2 data (i + 1)) as [x1 H1]; [lia|].
  destruct (lookup_lt_is_Some_2 data (i + 2)) as [x2 H2]; [lia|].
  destruct (lookup_lt_is_Some_2 data (i + 3)) as [x3 H3]; [lia|].
  unfold ends_at in HQ. rewrite (take_4 _ _ _ _ _ _ H0 H1 H2 H3) in HQ. unfold header_ends_at.
  apply wp_bind. eapply wp_tget; [by apply filled_lookup|]. case_bool_decide as E0; cbn [negb].
  2: { apply wp_ret, HQ. split; [done|]. by intros [= ? ?]. }
  apply wp_bind. eapply wp_tget; [by apply filled_lookup|]. case_bool_decide as E1; cbn [negb].
  2: { apply wp_ret, HQ. split; [done|]. by intros [= ? ?]. }
  apply wp_bind. eapply wp_tget; [by apply filled_lookup|]. case_bool_decide as E2; cbn [negb].
  2: { apply wp_ret, HQ. split; [done|]. by intros [= ? ?]. }
  apply wp_bind. eapply wp_tget; [by apply filled_lookup|]. apply wp_ret, HQ.
  rewrite bool_decide_eq_true. subst. split; [by intros ->|by intros [= ->]].
Qed.

(** The search of the loop is [find_end]. *)
Lemma wp_search {K B} size data (Q : unit + nat → Conn → Prop) c :
  (find_end data = None → Q (inl tt) c) → (∀ i, find_end data = Some i → Q (inr i) c) →
  wpx K B (for_until 0 (length data - 3) (λ index _,
        b ← header_ends_at (filled size data) index;
        mret (if (b : bool) then inr index else inl tt)) tt) Q c.
Proof.
  intros Hnone Hsome. eapply wp_mono; [|apply (wp_for_until _ _ _
    (λ i _ s, s = c ∧ ∀ j, j < i → ¬ ends_at data j)
    (λ i s, s = c ∧ find_end data = Some i)); [lia|split; [done|lia]|]].
  - intros [[]|i] s; [intros [-> H]|intros [-> H]; by apply Hsome].
    apply Hnone. destruct (find_end data) as [k|] eqn:E; [|done].
    apply find_end_Some in E as [He _]. pose proof (ends_at_length _ _ He). destruct (H k); [lia|done].
  - intros i [] s [_ Hi] [-> Hj]. apply wp_bind, wp_header_ends; [lia|]. intros [] Hb; apply wp_ret.
    + split; [done|]. apply find_end_iff; [by apply Hb|done].
    + split; [done|]. intros j Hlt. destruct (decide (j = i)) as [->|]; [|apply Hj; lia].
      intros He. by apply Hb in He.
Qed.

(** ** The header *)

Section header.
Context (size : nat) (c : Conn) (raw : cstr) (e : ending) (Hstream : stream (c_recv c) = (raw, e)).

Definition reading (l : byte_block * nat * nat) (c' : Conn) : Prop :=
  ∃ data rest, l = (filled size data, length data, 0) ∧ raw = data ++ rest ∧ length data ≤ size ∧
    find_end data = None ∧ quiet_recv c c' ∧ stream (c_recv c') = (rest, e).

Definition header_read (r : Z * (byte_block * nat * nat)) (c' : Conn) : Prop :=
  quiet_recv c c' ∧
  ((∃ data rest i, r = (1%Z, (filled size data, length data, i)) ∧ raw = data ++ rest ∧ length data ≤ size ∧
      find_end data = Some i ∧ stream (c_recv c') = (rest, e)) ∨
   (find_end (take size raw) = None ∧ (r.1 ≤ 0)%Z ∧
      ((r.1 < 0)%Z ∧ c_errno c' = EAGAIN ↔ length raw < size ∧ e = EndTimeout))).

(** Nothing ends the wait for the rest of the header. *)
Definition header_waits : Prop :=
  c_rcvtimeo c = 0%Z ∧ e = EndTimeout ∧ find_end (take size raw) = None ∧ length raw < size.

Lemma header_step_ok l c1 :
  reading l c1 →
  wpx False header_waits (header_step size l) (λ r c2, match r with
    | inl l' => reading l' c2 ∧ recv_turns (c_recv c2) < recv_turns (c_recv c1)
    | inr r => header_read r c2
    end) c1.
Proof.
  intros (data & rest & -> & Hraw & Hle & Hend & Hq & Hs). unfold header_step. rewrite decide_False by lia.
  case_decide as Hfull.
  { apply wp_ret. split; [done|]. right. rewrite Hraw, take_app_le, take_ge by lia. simpl.
    split_and!; [done|done|]. rewrite length_app. intuition lia. }
  apply wp_bind. eapply wp_recv; [exact Hs|lia| | | | |].
  - intros bs rest' c2 Hne Hlen -> (Hq2 & Hs2 & Hturns).
    assert (quiet_recv c c2) as Hqc by (by etrans).
    assert (0 < length bs) by (destruct bs; [done|simpl; lia]).
    rewrite !decide_False by lia. apply wp_bind, wp_put_bytes; [lia|]. cbv zeta. rewrite <- length_app.
    apply wp_bind, wp_search.
    + intros Hn. apply wp_ret. split; [|done]. exists (data ++ bs), rest'.
      split_and!; [done|by rewrite <- (assoc_L (++))|rewrite length_app; lia|done|exact Hqc|done].
    + intros i Hi. apply wp_ret. split; [done|]. left. exists (data ++ bs), rest', i.
      split_and!; [done|by rewrite <- (assoc_L (++))|rewrite length_app; lia|done|done].
  - intros c2 Herr (Hq2 & Hs2 & Hturns). rewrite decide_True by lia. apply wp_bind, wp_gets.
    rewrite decide_True by done. apply wp_ret. split; [|done]. exists data, rest.
    assert (quiet_recv c c2) as Hqc by (by etrans). split_and!; [done|done|done|done|exact Hqc|done].
  - intros c2 -> He Hq2. rewrite decide_False, decide_True by lia. apply wp_ret.
    split; [by etrans|]. right. rewrite app_nil_r in Hraw. subst data. rewrite take_ge by lia. simpl.
    split_and!; [done|done|]. subst e. split; [lia|by intros [_ ?]].
  - intros c2 err -> He Hq2 Herr Hne Hiff. rewrite decide_True by lia. apply wp_bind, wp_gets. rewrite Herr.
    rewrite decide_False by done. rewrite app_nil_r in Hraw. subst data.
    case_decide as Hag; apply wp_ret; (split; [by etrans|right]); rewrite take_ge by lia; simpl; rewrite Herr;
      (split_and!; [done|lia|]).
    + split; [|intros [_ ?]; split; [lia|done]]. intros _. split; [lia|by apply Hiff].
    + split; [lia|]. intros [_ ?]. exfalso. by apply Hag, Hiff.
  - intros -> He Ht. rewrite app_nil_r in Hraw. subst data. split_and!; [by rewrite <- (qr_rcvtimeo _ _ Hq)|done|by rewrite take_ge by lia|lia].
Qed.

Lemma read_header_ok : wpx False header_waits (read_until_header_end (replicate size None) size 0 0) header_read c.
Proof.
  apply wp_bind, wp_gets.
  apply (wp_while _ _ reading (λ _ s, recv_turns (c_recv s))); [|lia|intros; by apply header_step_ok].
  exists [], raw. split_and!; [by unfold filled; rewrite Nat.sub_0_r|done|simpl; lia|done|done|done].
Qed.
End header.

(** ** The text of the header *)

Lemma filled_set size data i x : i < length data → <[i := Some x]> (filled size data) = filled size (<[i := x]> data).
Proof.
  intros Hi. unfold filled. rewrite insert_app_l by (by rewrite length_fmap).
  by rewrite list_fmap_insert, length_insert.
Qed.

Lemma c_string_set data i : i < length data → c_string (<[i := NUL]> data) = c_string (take i data).
Proof.
  revert i. induction data as [|x data IH]; intros i Hi; [simpl in Hi; lia|]. destruct i as [|i]; [done|].
  simpl. case_decide; [done|]. rewrite IH by (simpl in Hi; lia). done.
Qed.

Lemma filled_string data rest : NUL ∈ data → block_string ((Some <$> data) ++ rest) = Some (c_string data).
Proof.
  induction data as [|x data IH]; intros Hin; [by apply elem_of_nil in Hin|].
  rewrite fmap_cons, <- app_comm_cons. cbn [block_string c_string]. case_decide as Hx; [done|].
  apply elem_of_cons in Hin as [?|Hin]; [congruence|]. by rewrite IH.
Qed.

Lemma c_string_no_nul s : NUL ∉ c_string s.
Proof.
  induction s as [|x s IH]; [by apply not_elem_of_nil|]. cbn [c_string]. case_decide; [by apply not_elem_of_nil|].
  by apply not_elem_of_cons.
Qed.

Lemma all_written_some bs : all_written (Some <$> bs) = Some bs.
Proof. induction bs as [|x bs IH]; [done|]. rewrite fmap_cons. cbn [all_written]. by rewrite IH. Qed.

Lemma wp_get_bytes {K B St} size data off n (Q : cstr → St → Prop) c :
  off + n ≤ length data → Q (take n (drop off data)) c → wpx K B (get_bytes (filled size data) off n) Q c.
Proof.
  intros Hle HQ. unfold get_bytes.
  rewrite decide_True by (unfold filled; rewrite length_app, length_fmap, length_replicate; lia).
  assert (take n (drop off (filled size data)) = Some <$> take n (drop off data)) as ->.
  { unfold filled. rewrite drop_app_le by (rewrite length_fmap; lia).
    rewrite take_app_le by (rewrite length_drop, length_fmap; lia).
    by rewrite fmap_take, fmap_drop. }
  rewrite all_written_some. by apply wp_ret.
Qed.

Lemma wp_header_text {K B St} size data i (Q : cstr → St → Prop) c :
  i < length data → Q (c_string (take i data)) c → wpx K B (get_string (filled size (<[i := NUL]> data))) Q c.
Proof.
  intros Hi HQ. unfold get_string, filled. rewrite filled_string, c_string_set by
    first [done|apply (list_elem_of_lookup_2 _ i), list_lookup_insert_eq; done].
  by apply wp_ret.
Qed.

(** ** The header lines *)

Lemma lines_skip s : lines_from [] s = lines_from [] (skip_delims s).
Proof. induction s as [|c s IH]; [done|]. cbn [skip_delims lines_from]. by destruct (is_crlf c) eqn:E; [|cbn [lines_from]; rewrite E]. Qed.

Lemma lines_token s acc t rest : take_token s = (t, rest) → acc ++ t ≠ [] → lines_from acc s = (acc ++ t) :: lines_from [] rest.
Proof.
  revert acc t. induction s as [|c s IH]; intros acc t; cbn [take_token lines_from].
  - intros [= <- <-]. rewrite app_nil_r. by destruct acc.
  - destruct (is_crlf c) eqn:E.
    + intros [= <- <-]. rewrite app_nil_r. by destruct acc.
    + destruct (take_token s) as [t' rest'] eqn:Et. intros [= <- <-] Hne.
      rewrite (IH _ t'); [by rewrite <- (assoc_L (++))|done|]. by destruct acc.
Qed.

Lemma take_token_split s t rest : take_token s = (t, rest) → ∃ sep, s = t ++ sep ++ rest ∧ Forall (λ c, is_crlf c = true) sep.
Proof.
  revert t. induction s as [|c s IH]; intros t; cbn [take_token].
  - intros [= <- <-]. by exists [].
  - destruct (is_crlf c) eqn:E.
    + intros [= <- <-]. exists [c]. by repeat constructor.
    + destruct (take_token s) as [t' rest'] eqn:Et. intros [= <- <-].
      destruct (IH t' eq_refl) as (sep & -> & Hsep). by exists sep.
Qed.

Lemma skip_delims_split s : ∃ sep, s = sep ++ skip_delims s ∧ is_crlf (cur (skip_delims s)) = false.
Proof.
  induction s as [|c s (sep & Hs & Hc)]; [by exists []|]. cbn [skip_delims]. destruct (is_crlf c) eqn:E; [|by exists []].
  exists (c :: sep). split; [by rewrite Hs at 1|done].
Qed.

Lemma strtok_none s : strtok_r s = None → header_lines s = [].
Proof. unfold strtok_r, header_lines. rewrite lines_skip. by destruct (skip_delims s). Qed.

Lemma strtok_some s t rest : strtok_r s = Some (t, rest) →
  header_lines s = t :: header_lines rest ∧ t ≠ [] ∧ length rest < length s ∧ ((NUL ∉ s) → (NUL ∉ t) ∧ (NUL ∉ rest)).
Proof.
  unfold strtok_r, header_lines. rewrite lines_skip. destruct (skip_delims_split s) as (sep & Hs & Hc).
  destruct (skip_delims s) as [|c s'] eqn:E; [done|]. intros Ht%(inj Some). simpl in Hc.
  assert (t ≠ []) as Hne.
  { revert Ht. cbn [take_token]. rewrite Hc. destruct (take_token s') as [t' r']. by intros [= <- <-]. }
  pose proof (take_token_split _ _ _ Ht) as (sep' & Heq & _). rewrite (lines_token _ _ t rest) by done.
  split_and!; [done|done| |].
  - rewrite Hs, Heq, !length_app. destruct t; [done|simpl; lia].
  - rewrite Hs, Heq. rewrite !not_elem_of_app. tauto.
Qed.

Definition line_acc (n : Z) (saw : bool) : option Z := if saw then Some n else None.

Lemma header_lines_ok {K B} headers (c : Conn) (Q : string + Z * bool → Conn → Prop) :
  NUL ∉ headers →
  (∀ msg, read_content_length (header_lines headers) None = inl msg → Q (inl msg) c) →
  (∀ n saw, read_content_length (header_lines headers) None = inr (line_acc n saw) → Q (inr (n, saw)) c) →
  wpx K B (while_loop (S (length headers)) header_line_step (headers, 0%Z, false)) Q c.
Proof.
  intros Hnul Herr Hok. set (total := read_content_length (header_lines headers) None) in *.
  apply (wp_while _ _ (λ '(s, n, saw) c', c' = c ∧ (NUL ∉ s) ∧ read_content_length (header_lines s) (line_acc n saw) = total)
    (λ '(s, _, _) _, length s)); [done|lia|].
  intros [[s n] saw] c' (-> & Hs & Htotal). unfold header_line_step.
  destruct (strtok_r s) as [[line rest]|] eqn:E; last first.
  { apply strtok_none in E. rewrite E in Htotal. apply wp_ret, Hok. by rewrite <- Htotal. }
  apply strtok_some in E as (Hlines & Hne & Hlt & Hn). destruct (Hn Hs) as [Hnl Hnr].
  rewrite Hlines in Htotal. cbn [read_content_length] in Htotal.
  rewrite decide_False. 2: { destruct line as [|x line]; [done|]. apply not_elem_of_cons in Hnl as [? _]. simpl. congruence. }
  destruct (strchr_colon line) as [[name value]|]; [|by apply wp_ret, Herr].
  cbv zeta. destruct (strcaseeq name (lit "Content-Length")); [|by apply wp_ret].
  destruct (strtoul (skip_space value)) as [v rest'] eqn:Ev. case_decide; [by apply wp_ret, Herr|].
  by apply wp_ret.
Qed.

(** ** The body *)

Definition with_body (rq : HttpRequest) (got : cstr) : HttpRequest :=
  set_req_body (got ++ replicate (HTTP_MAX_BODY_SIZE + 1 - length got) NUL) rq.

Lemma wp_put_body {K B} rq got bs (Q : HttpRequest → Conn → Prop) c :
  length got + length bs ≤ HTTP_MAX_BODY_SIZE → Q (with_body rq (got ++ bs)) c →
  wpx K B (put_body (length got) bs (with_body rq got)) Q c.
Proof.
  intros Hle HQ. unfold put_body. cbn [req_body with_body set_req_body].
  rewrite decide_True by (rewrite length_app, length_replicate; lia).
  apply wp_ret. revert HQ. unfold with_body, set_req_body. cbn [method path version content_length req_body].
  rewrite take_app_length, drop_app, drop_ge by lia. rewrite drop_replicate, length_app. cbn [app].
  rewrite <- (assoc_L (++)).
  by replace (HTTP_MAX_BODY_SIZE + 1 - length got - (length got + length bs - length got))
    with (HTTP_MAX_BODY_SIZE + 1 - (length got + length bs)) by lia.
Qed.

(** The terminating NUL is there already. *)
Lemma wp_put_nul {K B} rq got (Q : HttpRequest → Conn → Prop) c :
  length got ≤ HTTP_MAX_BODY_SIZE → Q (with_body rq got) c → wpx K B (put_body (length got) [NUL] (with_body rq got)) Q c.
Proof.
  intros Hle HQ. unfold put_body. cbn [req_body with_body set_req_body]. change (length [NUL]) with 1.
  rewrite decide_True by (rewrite length_app, length_replicate; lia).
  apply wp_ret. revert HQ. unfold with_body, set_req_body. cbn [method path version content_length req_body].
  rewrite take_app_length, drop_app, drop_ge by lia. rewrite drop_replicate.
  replace (length got + 1 - length got) with 1 by lia.
  replace (HTTP_MAX_BODY_SIZE + 1 - length got) with (S (HTTP_MAX_BODY_SIZE - length got)) by lia.
  cbn [replicate app]. by replace (S (HTTP_MAX_BODY_SIZE - length got) - 1) with (HTTP_MAX_BODY_SIZE - length got) by lia.
Qed.

Definition short_body (e : ending) : Z * string :=
  match e with
  | EndClosed => (400%Z, "Incomplete request body"%string)
  | EndTimeout => (408%Z, "Request timed out"%string)
  | EndFailed => (400%Z, "Failed to read request body"%string)
  end.

Section body.
Context (rq : HttpRequest) (n : nat) (Hn : n ≤ HTTP_MAX_BODY_SIZE) (avail : cstr) (e : ending).

(** [got] has been stored and [rest] is to come. *)
Definition body_state (got rest : cstr) : Prop :=
  length got ≤ n ∧ (length got < n → avail = got ++ rest) ∧ (length got = n → n ≤ length avail ∧ got = take n avail).

Lemma body_loop_ok got rest c :
  stream (c_recv c) = (rest, e) → body_state got rest →
  wpx False (c_rcvtimeo c = 0%Z ∧ e = EndTimeout ∧ length avail < n) (while_loop (S (recv_turns (c_recv c))) (body_step n) (with_body rq got, length got))
    (λ r c', quiet_recv c c' ∧
       if decide (n ≤ length avail) then r = (with_body rq (take n avail), None)
       else ∃ rq', r = (rq', Some (short_body e))) c.
Proof.
  intros Hs Hst. eapply (wp_while _ _ (λ l c', ∃ got rest, l = (with_body rq got, length got) ∧
    quiet_recv c c' ∧ stream (c_recv c') = (rest, e) ∧ body_state got rest) (λ _ s, recv_turns (c_recv s)));
    [by exists got, rest|lia|].
  clear got rest Hs Hst. intros l c1 (got & rest & -> & Hq & Hs & Hle & Hmore & Hdone).
  unfold body_step. case_decide as Hlt; last first.
  { apply wp_ret. split; [done|]. destruct Hdone as [Hl Hg]; [lia|]. rewrite decide_True by done. by rewrite <- Hg. }
  specialize (Hmore Hlt). apply wp_bind. eapply wp_recv; [exact Hs|lia| | | | |].
  - intros bs rest' c2 Hne Hlen -> (Hq2 & Hs2 & Hturns). rewrite !decide_False by (destruct bs; [done|simpl; lia]).
    apply wp_bind, wp_put_body; [lia|]. apply wp_ret. split; [|done].
    exists (got ++ bs), rest'. split_and!; [by rewrite length_app|by etrans|done|].
    unfold body_state. rewrite length_app. split_and!; [lia|intros _; by rewrite <- (assoc_L (++))|].
    intros Heq. rewrite Hmore, !length_app. split; [lia|].
    rewrite (assoc_L (++)), take_app_le, take_ge by (rewrite length_app; lia). done.
  - intros c2 Herr (Hq2 & Hs2 & Hturns). rewrite decide_True by lia. apply wp_bind, wp_gets.
    rewrite decide_True by done. apply wp_ret. split; [|done]. exists got, rest.
    split_and!; [done|by etrans|done|done]. 
  - intros c2 -> He Hq2. rewrite decide_False, decide_True by lia. apply wp_ret. split; [by etrans|].
    rewrite app_nil_r in Hmore. rewrite Hmore. rewrite decide_False by lia. eexists. by rewrite He.
  - intros c2 err -> He Hq2 Herr Hnintr Hiff. rewrite decide_True by lia. apply wp_bind, wp_gets. rewrite Herr.
    rewrite (decide_False (P := err = EINTR)) by done. rewrite app_nil_r in Hmore. rewrite Hmore.
    case_decide as Hag; apply wp_ret; (split; [by etrans|]); rewrite decide_False by lia; eexists.
    + by rewrite (proj1 Hiff Hag).
    + destruct e; [done|exfalso; by apply Hag, Hiff|done].
  - intros -> He Ht. rewrite app_nil_r in Hmore. subst got. split_and!; [by rewrite <- (qr_rcvtimeo _ _ Hq)|done|done].
Qed.
End body.

(** ** The whole request *)

Lemma strstr_split s a b : strstr_crlf s = Some (a, b) → s = a ++ crlf ++ b.
Proof.
  revert a b. induction s as [|c s IH]; intros a b; [done|]. cbn [strstr_crlf]. case_decide as H.
  - intros [= <- <-]. destruct H as [-> H]. destruct s as [|d s]; [done|]. simpl in H. by subst.
  - destruct (strstr_crlf s) as [[a' b']|]; [|done]. simpl. intros [= <- <-]. by rewrite (IH a' b').
Qed.

Lemma drop_set data i k : i < k → drop k (<[i := NUL]> data) = drop k data.
Proof. intros H. by rewrite drop_insert_lt. Qed.

Lemma sscanf_keeps_body line r n r' : sscanf_request_line line r = (n, r') →
  content_length r' = content_length r ∧ req_body r' = req_body r.
Proof.
  unfold sscanf_request_line. destruct (scan_word _ line) as [[w1 s1]|]; [|by intros [= <- <-]].
  cbv zeta. destruct (scan_word _ s1) as [[w2 s2]|]; [|by intros [= <- <-]].
  destruct (scan_word _ s2) as [[w3 s3]|]; by intros [= <- <-].
Qed.

Lemma scan_digits_nonneg s : ∀ acc seen, (0 ≤ acc)%Z → (0 ≤ (scan_digits s acc seen).1.1)%Z.
Proof.
  induction s as [|c s IH]; intros acc seen Ha; [done|]. cbn [scan_digits].
  destruct (isdigit c) eqn:E; [|done]. apply IH. unfold isdigit in E. apply bool_decide_eq_true in E.
  unfold digit_value. lia.
Qed.

Lemma strtoul_range s : (0 ≤ (strtoul s).1 ≤ ULONG_MAX)%Z.
Proof.
  unfold strtoul. destruct (scan_sign (skip_space s)) as [neg s1].
  pose proof (scan_digits_nonneg s1 0 false ltac:(done)) as Hv.
  destruct (scan_digits s1 0 false) as [[v seen] rest]. unfold ULONG_MAX in *. simpl in Hv.
  destruct seen; [|simpl; lia]. case_decide; [simpl; lia|]. destruct neg; simpl; [|lia].
  pose proof (Z.mod_pos_bound (- v) (18446744073709551615 + 1) ltac:(lia)). lia.
Qed.

Lemma content_length_range lines acc n :
  read_content_length lines acc = inr (Some n) → (∀ k, acc = Some k → 0 ≤ k)%Z → (0 ≤ n)%Z.
Proof.
  revert acc. induction lines as [|line lines IH]; intros acc; cbn [read_content_length].
  - intros [= ->] H. by apply H.
  - destruct (strchr_colon line) as [[name value]|]; [|done]. destruct (strcaseeq _ _); [|apply IH].
    destruct (strtoul (skip_space value)) as [v rest] eqn:E. case_decide; [done|].
    intros Hr _. eapply IH; [exact Hr|]. intros k [= <-]. pose proof (strtoul_range (skip_space value)) as H'.
    rewrite E in H'. apply H'.
Qed.

(** The state of the body after the bytes that came with the header. *)
Lemma first_body n data rest i raw :
  raw = data ++ rest → i + 4 ≤ length data →
  let had := length data - (i + 4) in
  let k := if decide (n < had) then n else had in
  body_state n (drop (i + 4) raw) (take k (drop (i + 4) data)) rest ∧ length (take k (drop (i + 4) data)) = k.
Proof.
  intros -> Hi had k.
  assert (length (take k (drop (i + 4) data)) = k) as Hk.
  { rewrite length_take, length_drop. unfold k, had. case_decide; lia. }
  split; [|done]. unfold body_state. rewrite Hk, drop_app_le by lia. unfold k, had. case_decide as Hlt.
  - split_and!; [lia|lia|]. intros _. rewrite length_app, length_drop. split; [lia|].
    by rewrite take_app_le by (rewrite length_drop; lia).
  - rewrite (take_ge (drop (i + 4) data)) by (rewrite length_drop; lia). split_and!; [lia|done|].
    intros <-. rewrite length_app, length_drop. split; [lia|].
    by rewrite take_app_le, take_ge by (rewrite length_drop; lia).
Qed.

Lemma http_read_ok r0 er c raw e :
  stream (c_recv c) = (raw, e) →
  wpx False (silent c) (http_read_request (Some r0) er) (λ r c', quiet_recv c c' ∧ delivers (http_spec raw e) er r) c.
Proof.
  intros Hs. unfold http_read_request. cbv zeta. apply wp_bind.
  eapply (wp_weaken False (header_waits HTTP_MAX_REQUEST_SIZE c raw e)); [done| |].
  { intros (Ht & -> & Hnone & Hlen). split; [done|]. unfold http_spec. rewrite Hs. cbn [fst snd]. by rewrite Hnone, decide_True. }
  eapply wp_mono; [|by apply (read_header_ok HTTP_MAX_REQUEST_SIZE)].
  intros [res [[buffer used] header_end]] c1 [Hq [(data & rest & i & [= -> -> -> ->] & Hraw & Hle & Hend & Hs1)|(Hend & Hres & Htime)]].
  2: { unfold http_spec. rewrite Hend. cbn [fst] in *. rewrite decide_True by done. apply wp_bind, wp_gets.
    rewrite (decide_ext _ _ _ _ Htime). case_decide; apply wp_ret; by split. }
  assert (find_end (take HTTP_MAX_REQUEST_SIZE raw) = Some i) as Hfind.
  { rewrite Hraw, take_app_ge by done. by apply find_end_app. }
  pose proof (find_end_Some _ _ Hend) as [Hat _]. apply ends_at_length in Hat.
  assert (take i raw = take i data) as Htake by (rewrite Hraw; by rewrite take_app_le by lia).
  unfold http_spec. rewrite Hfind, Htake. rewrite decide_False by lia.
  apply wp_bind, wp_aset; [unfold filled; rewrite length_app, length_fmap; lia|]. rewrite filled_set by lia.
  apply wp_bind, wp_header_text; [lia|]. unfold read_head.
  destruct (strstr_crlf (c_string (take i data))) as [[line headers]|] eqn:Estr; [|by apply wp_ret].
  destruct (sscanf_request_line line zero_request) as [k rq] eqn:Escan.
  destruct (sscanf_keeps_body _ _ _ _ Escan) as [Hcl Hbody].
  case_decide as H3; [by apply wp_ret|]. case_decide as Hpost; [by apply wp_ret|]. case_decide as Hpath; [by apply wp_ret|].
  assert (NUL ∉ headers) as Hnul.
  { apply strstr_split in Estr. intros Hin. apply (c_string_no_nul (take i data)). rewrite Estr, !elem_of_app. tauto. }
  apply wp_bind, header_lines_ok; [done| |].
  { intros msg ->. by apply wp_ret. }
  intros n saw Hlines. rewrite Hlines. destruct saw; cbn [line_acc negb] in *; [|by apply wp_ret].
  pose proof (content_length_range _ _ n Hlines) as Hpos.
  case_decide as Hbig; [by apply wp_ret|]. cbv zeta.
  assert (read_head (c_string (take i data)) = inr (version rq, Z.to_nat n)) as Hhead.
  { unfold read_head. rewrite Estr, Escan, (decide_False _ _ (λ H, H H3)), (decide_False _ _ (λ H, H Hpost)), (decide_False _ _ (λ H, H Hpath)).
    by rewrite Hlines, (decide_False _ _ Hbig). }
  set (rq' := set_content_length n rq). set (len := Z.to_nat n).
  assert (len ≤ HTTP_MAX_BODY_SIZE) as Hlen by (unfold len; lia).
  assert ((if decide (i + 4 < length data) then length data - (i + 4) else 0) = length data - (i + 4)) as ->
    by (case_decide; lia).
  destruct (first_body len data rest i raw Hraw Hat) as [Hstate Hk]. cbv zeta in Hstate, Hk.
  set (avail := if decide (len < length data - (i + 4)) then len else length data - (i + 4)) in *.
  assert (rq' = with_body rq' []) as Hrq.
  { unfold rq', with_body, set_req_body, set_content_length. cbn [method path version content_length req_body app].
    rewrite Hbody. change (length (@nil ascii)) with 0. by rewrite Nat.sub_0_r. }
  apply wp_bind. eapply (wp_mono _ (λ r c', r = with_body rq' (take avail (drop (i + 4) data)) ∧ c' = c1)).
  2: { case_decide as Hsome.
    - apply wp_bind, wp_get_bytes; [rewrite length_insert; unfold avail; case_decide; lia|].
      rewrite drop_set by lia. rewrite Hrq at 1. apply (wp_put_body rq' []); [|done].
      change (length (@nil ascii)) with 0. rewrite Hk. unfold avail. case_decide; lia.
    - apply wp_ret. split; [|done]. rewrite Hrq at 1. f_equal. replace avail with 0 by lia. done. }
  intros r c2 [-> ->]. apply wp_bind, wp_gets, wp_bind.
  pose proof (body_loop_ok rq' len Hlen (drop (i + 4) raw) e _ _ _ Hs1 Hstate) as Hloop. rewrite Hk in Hloop.
  eapply wp_weaken; [intros Hx; exact Hx| |eapply wp_mono; [|exact Hloop]].
  { intros (Ht & -> & Hshort). split; [by rewrite <- (qr_rcvtimeo _ _ Hq)|]. unfold http_spec. rewrite Hs. cbn [fst snd].
    rewrite Hfind, Htake, Hhead. rewrite decide_False by lia. done. }
  intros [rq2 o] c3 [Hq3 Hres]. case_decide as Hfit.
  - injection Hres as -> ->. apply wp_bind.
    assert (length (take len (drop (i + 4) raw)) = len) as Hl by (rewrite length_take; lia).
    rewrite <- Hl at 1. apply wp_put_nul; [by rewrite Hl|]. apply wp_ret. split; [by etrans|].
    cbn [delivers]. do 2 f_equal. unfold with_body, set_req_body, request_of, rq', set_content_length.
    cbn [method path version content_length]. rewrite Hpost, Hpath, Hl.
    f_equal. unfold len. rewrite Z2Nat.id by (apply Hpos; done). done.
  - destruct Hres as [rq3 [= -> ->]]. destruct e; apply wp_ret; (split; [by etrans|done]).
Qed.
