(* ===== verification/HttpText.v ===== *)
(** The texts of requests and responses: what a client sends is read back as its
    method, path and body, and what the server sends is read back as its status
    and body. *)
From stdpp Require Import base list gmap strings.
From Stdlib Require Import Ascii ZArith Lia.
From S2P Require Import Prelude Memory CLib CLibProofs BPTree Table Sql SqlLex Repl TableMem Bytes Json JsonProofs JsonValue Api ApiSpec Http HttpSpec.

(** ** Lines *)

(** A line of a header: not empty, and no CR, LF or NUL in it. *)
Definition line_ok (l : cstr) : Prop :=
  l ≠ [] ∧ (carriage_return ∉ l) ∧ (newline ∉ l) ∧ (NUL ∉ l).

Fixpoint joined (lines : list cstr) : cstr :=
  match lines with
  | [] => []
  | [l] => l
  | l :: lines' => l ++ crlf ++ joined lines'
  end.

Lemma joined_cons l l' ls : joined (l :: l' :: ls) = l ++ crlf ++ joined (l' :: ls).
Proof. done. Qed.

Lemma find_end_skip l s : carriage_return ∉ l → find_end (l ++ s) = Nat.add (length l) <$> find_end s.
Proof.
  induction l as [|c l IH]; intros Hl.
  - simpl. by destruct (find_end s).
  - apply not_elem_of_cons in Hl as [Hc Hl]. rewrite <- app_comm_cons. cbn [find_end].
    rewrite decide_False by (intros [= ?]; congruence). rewrite IH by done. by destruct (find_end s).
Qed.

Lemma find_end_separator s : cur s ≠ carriage_return → find_end (crlf ++ s) = Nat.add 2 <$> find_end s.
Proof.
  intros Hs. unfold crlf. cbn [app find_end]. rewrite !decide_False; [by destruct (find_end s)| |].
  - done.
  - destruct s as [|x s]; [done|]. cbn [take]. intros [= ? _]. done.
Qed.

Lemma joined_head lines : Forall line_ok lines → lines ≠ [] → ∃ c s, joined lines = c :: s ∧ c ≠ carriage_return.
Proof.
  intros Hall Hne. destruct Hall as [|l ls (Hl & Hcr & _) _]; [done|]. destruct l as [|c l]; [done|].
  apply not_elem_of_cons in Hcr as [Hc _]. destruct ls as [|l' ls]; [by exists c, l|].
  rewrite joined_cons. by eexists c, _.
Qed.

Lemma find_end_joined lines body : Forall line_ok lines → lines ≠ [] →
  find_end (joined lines ++ header_end_mark ++ body) = Some (length (joined lines)).
Proof.
  intros Hall Hne. induction Hall as [|l ls (Hl & Hcr & Hlf & _) Hall IH]; [done|].
  destruct ls as [|l' ls].
  - cbn [joined]. rewrite find_end_skip by done. unfold header_end_mark at 1. rewrite <- (assoc_L (++)).
    unfold crlf. cbn [app find_end take]. rewrite decide_True by done. simpl. f_equal. lia.
  - rewrite joined_cons, <- !(assoc_L (++)), find_end_skip by done.
    destruct (joined_head (l' :: ls) Hall) as (c & s & Heq & Hc); [done|].
    rewrite find_end_separator by (rewrite Heq; exact Hc). rewrite IH by done. simpl.
    rewrite !length_app. done.
Qed.

Lemma strstr_line l s : carriage_return ∉ l → strstr_crlf (l ++ crlf ++ s) = Some (l, s).
Proof.
  induction l as [|c l IH]; intros Hl; [done|]. apply not_elem_of_cons in Hl as [Hc Hl].
  rewrite <- app_comm_cons. cbn [strstr_crlf]. rewrite decide_False by (intros [? _]; congruence). by rewrite IH.
Qed.

Lemma is_crlf_false c : c ≠ carriage_return → c ≠ newline → is_crlf c = false.
Proof. intros ??. apply bool_decide_eq_false. tauto. Qed.

Lemma lines_from_app l acc s : (carriage_return ∉ l) → (newline ∉ l) → lines_from acc (l ++ s) = lines_from (acc ++ l) s.
Proof.
  revert acc. induction l as [|c l IH]; intros acc Hcr Hlf; [by rewrite app_nil_r|].
  apply not_elem_of_cons in Hcr as [? ?], Hlf as [? ?]. rewrite <- app_comm_cons. cbn [lines_from].
  rewrite is_crlf_false by congruence. rewrite IH by done. by rewrite <- (assoc_L (++)).
Qed.

Lemma header_lines_joined lines : Forall line_ok lines → header_lines (joined lines) = lines.
Proof.
  intros Hall. unfold header_lines. induction Hall as [|l ls (Hl & Hcr & Hlf & _) Hall IH]; [done|].
  destruct ls as [|l' ls].
  - cbn [joined]. rewrite <- (app_nil_r l) at 1. rewrite lines_from_app by done. simpl. by destruct l.
  - rewrite joined_cons, lines_from_app by done. simpl ([] ++ l). unfold crlf. cbn [app lines_from].
    destruct l as [|c l]; [done|]. cbn [is_crlf]. by rewrite IH.
Qed.

Lemma c_string_id s : NUL ∉ s → c_string s = s.
Proof.
  induction s as [|c s IH]; intros Hs; [done|]. apply not_elem_of_cons in Hs as [Hc Hs]. cbn [c_string].
  rewrite decide_False by done. by rewrite IH.
Qed.

Lemma joined_no_nul lines : Forall line_ok lines → NUL ∉ joined lines.
Proof.
  intros Hall. induction Hall as [|l ls (_ & _ & _ & Hl) Hall IH]; [by apply not_elem_of_nil|].
  destruct ls as [|l' ls]; [done|]. rewrite joined_cons, !not_elem_of_app. split_and!; [done| |done].
  unfold crlf. rewrite !not_elem_of_cons. split_and!; [done|done|by apply not_elem_of_nil].
Qed.

(** ** Requests *)

Definition request_line : cstr := lit "POST /query HTTP/1.1".
Definition length_line (n : nat) : cstr := lit "Content-Length: " ++ print_dec (Z.of_nat n).

(** A header line that says nothing of the length. *)
Definition plain_line (l : cstr) : Prop :=
  line_ok l ∧ ∃ name value, strchr_colon l = Some (name, value) ∧ strcaseeq name (lit "Content-Length") = false.

(** What a client sends: its header lines around the length of the body. *)
Definition request_lines (before after : list cstr) (body : cstr) : list cstr :=
  request_line :: before ++ length_line (length body) :: after.
Definition request_text (before after : list cstr) (body : cstr) : cstr :=
  joined (request_lines before after body) ++ header_end_mark ++ body.

Lemma print_dec_digits n : (Z.of_nat n < 10 ^ 20)%Z →
  ∃ ds, print_dec (Z.of_nat n) = ds ∧ ds ≠ [] ∧ is_digits ds ∧ num_value ds = Z.of_nat n.
Proof.
  intros Hn. destruct (dec_digits_spec 20 (Z.of_nat n) []) as (ds & Hds & Hne & Hd & Hv & _); [simpl Z.of_nat at 2; lia|done|].
  rewrite app_nil_r in Hds. exists ds. split_and!; [|done..]. unfold print_dec. by rewrite decide_False by lia.
Qed.

Lemma skip_space_digits ds : is_digits ds → skip_space ds = ds.
Proof. intros Hd. destruct Hd as [|c ds Hc _]; [done|]. cbn [skip_space]. by rewrite digit_not_space. Qed.

Lemma strtoul_print n : (Z.of_nat n ≤ ULONG_MAX)%Z → strtoul (print_dec (Z.of_nat n)) = (Z.of_nat n, []).
Proof.
  intros Hn. unfold ULONG_MAX in Hn. destruct (print_dec_digits n ltac:(lia)) as (ds & -> & Hne & Hd & Hv).
  unfold strtoul. rewrite skip_space_digits by done. destruct ds as [|c ds]; [done|].
  pose proof Hd as [Hc _]%Forall_cons. destruct (digit_not_sign c Hc) as [Hm Hp]. cbn [scan_sign].
  rewrite !decide_False by done. rewrite <- (app_nil_r (c :: ds)). rewrite (digits_then (Z.of_nat n)) by done.
  rewrite decide_False by (unfold ULONG_MAX; lia). done.
Qed.

Lemma read_length_line n lines acc : (Z.of_nat n ≤ ULONG_MAX)%Z →
  read_content_length (length_line n :: lines) acc = read_content_length lines (Some (Z.of_nat n)).
Proof.
  intros Hn. cbn [read_content_length]. unfold length_line.
  assert (∀ d, strchr_colon (lit "Content-Length: " ++ d) = Some (lit "Content-Length", lit " " ++ d)) as -> by reflexivity.
  assert (strcaseeq (lit "Content-Length") (lit "Content-Length") = true) as -> by reflexivity.
  assert (skip_space (lit " " ++ print_dec (Z.of_nat n)) = print_dec (Z.of_nat n)) as ->.
  { unfold ULONG_MAX in Hn. destruct (print_dec_digits n ltac:(lia)) as (ds & -> & _ & Hd & _).
    change (skip_space ds = ds). by apply skip_space_digits. }
  rewrite strtoul_print by done. rewrite decide_False; [done|]. intros [H|H]; [|done].
  unfold ULONG_MAX in Hn. destruct (print_dec_digits n ltac:(lia)) as (ds & Hds & Hne & _). rewrite Hds in H. by destruct ds.
Qed.

Lemma read_plain_lines ls lines acc : Forall plain_line ls →
  read_content_length (ls ++ lines) acc = read_content_length lines acc.
Proof.
  intros Hall. induction Hall as [|l ls (_ & name & value & Hl & Hn) Hall IH]; [done|].
  rewrite <- app_comm_cons. cbn [read_content_length]. by rewrite Hl, Hn.
Qed.

Lemma lit_line_ok (s : string) : lit s ≠ [] → forallb (λ c, negb (is_crlf c) && negb (bool_decide (c = NUL))) (lit s) = true → line_ok (lit s).
Proof.
  intros Hne H. rewrite forallb_forall in H. assert (∀ c, is_crlf c || bool_decide (c = NUL) = true → c ∉ lit s) as Hc.
  { intros c Hc Hin. apply list_elem_of_In, H in Hin. rewrite <- negb_orb, Hc in Hin. done. }
  split_and!; [done|by apply Hc..].
Qed.

Lemma line_ok_app l t : line_ok l → (carriage_return ∉ t) → (newline ∉ t) → (NUL ∉ t) → line_ok (l ++ t).
Proof. intros (Hne & ? & ? & ?) ???. unfold line_ok. rewrite !not_elem_of_app. split_and!; try done. by destruct l. Qed.

Lemma clean_not s c : clean s → (code c < 32)%Z → c ∉ s.
Proof. intros Hs Hc Hin. unfold clean in Hs. rewrite Forall_forall in Hs. apply Hs in Hin. lia. Qed.

Lemma line_ok_clean l t : line_ok l → clean t → line_ok (l ++ t).
Proof. intros Hl Ht. apply line_ok_app; [done|by apply clean_not..]. Qed.

Lemma length_line_ok n : line_ok (length_line n).
Proof. apply line_ok_clean; [by apply lit_line_ok|apply print_dec_clean]. Qed.

Lemma request_lines_ok before after body : Forall plain_line before → Forall plain_line after →
  Forall line_ok (request_lines before after body).
Proof.
  intros Hb Ha. constructor; [by apply lit_line_ok|]. apply Forall_app. split.
  - eapply Forall_impl; [exact Hb|]. by intros l [? _].
  - constructor; [apply length_line_ok|]. eapply Forall_impl; [exact Ha|]. by intros l [? _].
Qed.

Lemma request_head before after body : Forall plain_line before → Forall plain_line after →
  length body ≤ HTTP_MAX_BODY_SIZE →
  read_head (joined (request_lines before after body)) = inr (lit "HTTP/1.1", length body).
Proof.
  intros Hb Ha Hlen. pose proof (request_lines_ok before after body Hb Ha) as Hok.
  unfold request_lines in *. apply Forall_cons in Hok as [Hrl Hok]. unfold read_head.
  assert (∃ l ls, before ++ length_line (length body) :: after = l :: ls) as (l & ls & Heq).
  { destruct before; by eexists _, _. }
  rewrite Heq, joined_cons, <- Heq in *. destruct Hrl as (_ & Hcr & _). rewrite strstr_line by done.
  assert (sscanf_request_line request_line zero_request =
    (3%Z, MkRequest (lit "POST") (lit "/query") (lit "HTTP/1.1") 0 (req_body zero_request))) as -> by reflexivity.
  rewrite !decide_False by (intros Hx; by apply Hx). rewrite header_lines_joined by done.
  assert (Z.of_nat (length body) ≤ Z.of_nat HTTP_MAX_BODY_SIZE)%Z as Hz by lia.
  assert (Z.of_nat HTTP_MAX_BODY_SIZE ≤ ULONG_MAX)%Z as Hmax by (unfold HTTP_MAX_BODY_SIZE, ULONG_MAX; lia).
  rewrite read_plain_lines, read_length_line by (done || lia). rewrite <- (app_nil_r after), read_plain_lines by done.
  cbn [read_content_length]. rewrite decide_False by lia. by rewrite Nat2Z.id.
Qed.

Lemma request_accepted before after body more e :
  Forall plain_line before → Forall plain_line after → length body ≤ HTTP_MAX_BODY_SIZE →
  length (joined (request_lines before after body)) + 4 ≤ HTTP_MAX_REQUEST_SIZE →
  http_spec (request_text before after body ++ more) e = Accepted (lit "HTTP/1.1") body.
Proof.
  intros Hb Ha Hlen Hfit. pose proof (request_lines_ok before after body Hb Ha) as Hok.
  pose proof (joined_no_nul _ Hok) as Hnul. unfold http_spec, request_text.
  set (head := joined (request_lines before after body)) in *. rewrite <- !(assoc_L (++)).
  assert (find_end (take HTTP_MAX_REQUEST_SIZE (head ++ header_end_mark ++ body ++ more)) = Some (length head)) as ->.
  { rewrite (assoc_L (++) head), take_app_ge by (rewrite length_app; change (length header_end_mark) with 4; lia).
    rewrite <- (assoc_L (++)). by apply find_end_joined. }
  rewrite take_app_length, c_string_id by done. unfold head at 1. rewrite request_head by done.
  assert (drop (length head + 4) (head ++ header_end_mark ++ body ++ more) = body ++ more) as ->.
  { rewrite <- drop_drop, drop_app_length. done. }
  rewrite decide_True by (rewrite length_app; lia). by rewrite take_app_length.
Qed.

(** ** Sending *)

(** No coming call of [send] fails, finds no room, waits or meets a closed peer. *)
Definition sends (ev : send_event) : Prop := ev ∉ [SendError; SendStuck; SendBroken; SendRoom 0].
Definition writable (c : Conn) : Prop := Forall sends (c_send c).

(** What sending leaves alone. *)
Record quiet_send (c c' : Conn) : Prop := {
  qs_recv : c_recv c' = c_recv c;
  qs_rcvtimeo : c_rcvtimeo c' = c_rcvtimeo c;
  qs_sndtimeo : c_sndtimeo c' = c_sndtimeo c;
  qs_send : c_send c' `suffix_of` c_send c
}.

#[export] Instance quiet_send_preorder : PreOrder quiet_send.
Proof. split; [done|]. intros c1 c2 c3 [] []. split; try congruence. by etrans. Qed.

Lemma suffix_elem {A} (x : A) l l' : l' `suffix_of` l → x ∈ l' → x ∈ l.
Proof. intros [k ->] ?. apply elem_of_app. by right. Qed.

Lemma quiet_stuck c c' : quiet_send c c' → stuck c' → stuck c.
Proof. intros [] [? ?]. split; [congruence|by eapply suffix_elem]. Qed.

Lemma quiet_broken c c' : quiet_send c c' → broken c' → broken c.
Proof. intros [] ?. by eapply suffix_elem. Qed.

Lemma wp_quiet_send {St A} c c' (p : prog St A) (Q : A → St → Prop) s :
  quiet_send c c' → wpx (broken c') (stuck c') p Q s → wpx (broken c) (stuck c) p Q s.
Proof. intros Hq. apply wp_weaken; [by apply quiet_broken|by apply quiet_stuck]. Qed.

(** [c'] is [c] after [k] of the bytes of [data] went out; all went out if the
    socket is writable. *)
Definition sent_some (c : Conn) (data : cstr) (ok : bool) (c' : Conn) : Prop :=
  ∃ k, k ≤ length data ∧ c_out c' = c_out c ++ take k data ∧ quiet_send c c' ∧ (ok = true ↔ k = length data) ∧
    (writable c → ok = true ∧ writable c').

(** One call: the peer takes some bytes, or a signal comes, or the call fails;
    or it does not return. *)
Lemma wp_send data c (Q : Z → Conn → Prop) :
  (∀ k c', k ≤ length data → c_out c' = c_out c ++ take k data → quiet_send c c' → (writable c → writable c' ∧ (data ≠ [] → k ≠ 0)) →
     (c_send c = [] ∧ k = length data ∨ length (c_send c') < length (c_send c)) → Q (Z.of_nat k) c') →
  (∀ c', c_out c' = c_out c → quiet_send c c' → c_errno c' = EINTR → (writable c → writable c') →
     length (c_send c') < length (c_send c) → Q (-1)%Z c') →
  (∀ c', c_out c' = c_out c → quiet_send c c' → c_errno c' ≠ EINTR → ¬ writable c → Q (-1)%Z c') →
  wpx (broken c) (stuck c) (send data 0) Q c.
Proof.
  intros Hroom Hintr Hfail. unfold wpx, send. destruct (c_send c) as [|ev evs] eqn:E.
  { apply Hroom; [done|by rewrite firstn_all|split; try done; by rewrite E| |by left].
    intros _. split; [unfold writable; cbn; by rewrite E|]. by destruct data. }
  assert (∀ f : Conn → Conn, (∀ c, c_recv (f c) = c_recv c ∧ c_rcvtimeo (f c) = c_rcvtimeo c ∧ c_sndtimeo (f c) = c_sndtimeo c ∧
    c_send (f c) = c_send c) → quiet_send c (f (set_send evs c))) as Hq.
  { intros f Hf. destruct (Hf (set_send evs c)) as (? & ? & ? & Hs). split; try done. rewrite E, Hs. by apply suffix_cons_r. }
  assert (writable c → sends ev ∧ Forall sends evs) as Hw.
  { unfold writable. rewrite E. by intros [? ?]%Forall_cons. }
  destruct ev as [n| | | |].
  - rewrite length_take. apply Hroom; [lia| | | |right; cbn; lia].
    + cbn. destruct (decide (n ≤ length data)); [by rewrite Nat.min_l by lia|by rewrite Nat.min_r, !take_ge by lia].
    + by apply (Hq (set_sent _)).
    + intros [Hn Hr]%Hw. split; [done|]. intros Hd. destruct data; [done|]. destruct n; [|simpl; lia]. unfold sends in Hn. set_solver.
  - by apply Hintr; [|apply (Hq (set_errno _))| |intros [_ ?]%Hw|cbn; lia].
  - case_decide.
    + split; [done|]. rewrite E. set_solver.
    + apply Hfail; [done|by apply (Hq (set_errno _))|done|]. intros [Hn _]%Hw. unfold sends in Hn. set_solver.
  - rewrite decide_True by done. unfold broken. rewrite E. set_solver.
  - apply Hfail; [done|by apply (Hq (set_errno _))|done|]. intros [Hn _]%Hw. unfold sends in Hn. set_solver.
Qed.

(** It returns unless the peer closes, and unless it waits with no timeout. *)
Lemma send_all_ok data c : wpx (broken c) (stuck c) (send_all data) (λ ok c', sent_some c data ok c') c.
Proof.
  apply wp_bind, wp_gets.
  apply (wp_while _ _ (λ rest c', ∃ gone, data = gone ++ rest ∧ c_out c' = c_out c ++ gone ∧ quiet_send c c' ∧
      (writable c → writable c'))
    (λ rest s, length (c_send s) + match rest with [] => 0 | _ => 1 end)).
  { exists []. by rewrite app_nil_r. }
  { destruct data; lia. }
  intros rest c1 (gone & -> & Hout & Hq & Hwr). unfold send_step. case_decide as Hlen; last first.
  { apply wp_ret. exists (length (gone ++ rest)). destruct rest; [|simpl in Hlen; lia].
    rewrite firstn_all, app_nil_r. by split_and!; auto. }
  assert (∀ c2 : Conn, c_out c2 = c_out c1 → quiet_send c1 c2 → ¬ writable c1 → sent_some c (gone ++ rest) false c2) as Hfail.
  { intros c2 Ho Hq2 Hn. exists (length gone). rewrite take_app_length, Ho, length_app.
    split; [lia|]. split; [done|]. split; [by etrans|]. split; [split; [done|lia]|]. intros Hw. by apply Hwr in Hw. }
  apply wp_bind. eapply wp_quiet_send; [done|]. apply wp_send.
  - intros k c2 Hk Ho Hq2 Hw Hless. rewrite decide_False by lia. case_decide as H0; apply wp_ret.
    + replace k with 0 in * by lia. apply Hfail; [by rewrite app_nil_r in Ho|done|].
      intros [_ Hne]%Hw. apply Hne; [|done]. intros ->. simpl in Hlen. lia.
    + rewrite Nat2Z.id. split.
      * exists (gone ++ take k rest). rewrite <- !(assoc_L (++)), take_drop. split; [done|].
        split; [by rewrite Ho, Hout, (assoc_L (++))|]. split; [by etrans|]. intros ?. by apply Hw, Hwr.
      * destruct Hless as [[E ->]|?].
        -- rewrite E, drop_ge by done. destruct Hq2 as [_ _ _ Hs]. rewrite E in Hs. apply suffix_nil_inv in Hs. rewrite Hs.
           destruct rest; simpl in *; lia.
        -- destruct (drop k rest), rest; simpl in *; lia.
  - intros c2 Ho Hq2 He Hw Hless. rewrite decide_True by lia. apply wp_bind, wp_gets. rewrite decide_True by done. apply wp_ret.
    split; [|lia]. exists gone. split_and!; [done|by rewrite Ho|by etrans|auto].
  - intros c2 Ho Hq2 He Hw. rewrite decide_True by lia. apply wp_bind, wp_gets. rewrite decide_False by done. by apply wp_ret, Hfail.
Qed.

(** ** Responses *)

Definition response_lines (st : Z) (ct : cstr) (n : nat) : list cstr :=
  [lit "HTTP/1.1 " ++ print_dec st ++ lit " " ++ http_status_reason st; lit "Content-Type: " ++ ct;
   length_line n; lit "Connection: close"].
Definition response_header (st : Z) (ct : cstr) (n : nat) : cstr := joined (response_lines st ct n) ++ header_end_mark.
Definition response_text (st : Z) (ct body : cstr) : cstr := response_header st ct (length body) ++ body.

Lemma response_format_text st ct n :
  format_text response_format [FInt st; FString (http_status_reason st); FString ct; FSize (Z.of_nat n)] =
    Some (response_header st ct n).
Proof.
  unfold response_header, response_lines, length_line. cbn [joined]. rewrite <- !(assoc_L (++)).
  generalize (http_status_reason st). intros reason. reflexivity.
Qed.

Lemma response_header_short st ct n : length ct ≤ 300 → length (response_header st ct n) < 512.
Proof.
  intros Hshort. unfold response_header, response_lines, length_line. cbn [joined]. rewrite !length_app.
  pose proof (print_dec_length st). pose proof (print_dec_length (Z.of_nat n)).
  assert (length (http_status_reason st) ≤ 21) as Hr by (unfold http_status_reason; repeat case_decide; vm_compute; lia).
  change (length crlf) with 2. change (length header_end_mark) with 4. change (length (lit "HTTP/1.1 ")) with 9.
  change (length (lit " ")) with 1. change (length (lit "Content-Type: ")) with 14.
  change (length (lit "Content-Length: ")) with 16. change (length (lit "Connection: close")) with 17. lia.
Qed.

(** A response is sent up to some byte, and wholly when the call says so. *)
Lemma send_response_ok st ct body c :
  length (response_header st ct (length body)) < 512 →
  wpx (broken c) (stuck c) (http_send_response st (Some ct) (Some body)) (λ ok c', sent_some c (response_text st ct body) ok c') c.
Proof.
  intros Hlen. unfold http_send_response. cbn [default from_option id]. rewrite response_format_text.
  rewrite decide_False by lia. unfold response_text. set (h := response_header st ct (length body)) in *.
  wp_call (apply send_all_ok). intros ok c1 (k & Hk & Hout & Hq & Hok & Hw1). destruct ok; cbn [negb].
  - assert (k = length h) as -> by by apply Hok. rewrite firstn_all in Hout.
    eapply wp_quiet_send; [done|].
    eapply wp_mono; [|apply send_all_ok]. intros ok2 c2 (k2 & Hk2 & Hout2 & Hq2 & Hok2 & Hw2).
    exists (length h + k2). rewrite length_app, Hout2, Hout. split; [lia|].
    split; [by rewrite take_app_add, <- (assoc_L (++))|]. split; [by etrans|]. split; [rewrite Hok2; lia|].
    intros Hw. by apply Hw2, Hw1.
  - apply wp_ret. exists k. rewrite length_app, take_app_le by done. split; [lia|]. split; [done|]. split; [done|].
    split; [|by intros Hw; apply Hw1].
    split; [done|]. intros ->. assert (length body = 0) by lia. exfalso.
    assert (false = true) by (apply Hok; lia). done.
Qed.

(** The first call of [send] for a peer that has closed. *)
Lemma respond_broken st ct body c rest :
  length (response_header st ct (length body)) < 512 → c_send c = SendBroken :: rest →
  http_send_response st (Some ct) (Some body) c = Killed.
Proof.
  intros Hlen Hs. unfold http_send_response. cbn [default from_option id]. rewrite response_format_text.
  rewrite decide_False by lia. set (h := response_header st ct (length body)) in *.
  assert (0 < length h) as Hpos by (unfold h, response_header; rewrite length_app; change (length header_end_mark) with 4; lia).
  assert (send_step h c = Killed) as Hstep.
  { unfold send_step. rewrite decide_True by done. unfold mbind, prog_bind, send. by rewrite Hs. }
  assert (send_all h c = Killed) as Hkill; [|unfold mbind, prog_bind; by rewrite Hkill].
  unfold send_all, gets. cbn [while_loop]. unfold mbind, prog_bind. by rewrite Hstep.
Qed.

(** What a client reads in a response. *)
Definition read_response (s : cstr) : option (Z * cstr) :=
  i ← find_end s;
  '(line, rest) ← strstr_crlf (take i s);
  t ← after (lit "HTTP/1.1 ") line;
  match read_content_length (header_lines rest) None with
  | inr (Some n) =>
      if decide (n = Z.of_nat (length (drop (i + 4) s))) then Some ((scan_digits t 0 false).1.1, drop (i + 4) s) else None
  | _ => None
  end.

Lemma reason_clean st : clean (http_status_reason st).
Proof.
  unfold http_status_reason. repeat case_decide;
    (apply Forall_forall; intros x Hx; apply Z.leb_le; revert x Hx; apply Forall_forall; vm_compute; repeat constructor).
Qed.

Lemma response_lines_ok st ct n : (carriage_return ∉ ct) → (newline ∉ ct) → (NUL ∉ ct) → Forall line_ok (response_lines st ct n).
Proof.
  intros Hcr Hlf Hnul.
  constructor; [|constructor; [|constructor; [apply length_line_ok|constructor; [by apply lit_line_ok|constructor]]]].
  - apply line_ok_clean; [by apply lit_line_ok|]. apply Forall_app. split; [apply print_dec_clean|].
    apply Forall_app. split; [by repeat constructor|apply reason_clean].
  - apply line_ok_app; [by apply lit_line_ok|done..].
Qed.

Lemma read_response_text st ct body : (0 ≤ st < 10 ^ 20)%Z → (carriage_return ∉ ct) → (newline ∉ ct) → (NUL ∉ ct) →
  (Z.of_nat (length body) ≤ ULONG_MAX)%Z →
  read_response (response_text st ct body) = Some (st, body).
Proof.
  intros Hst Hcr Hlf Hnul Hlen. pose proof (response_lines_ok st ct (length body) Hcr Hlf Hnul) as Hok.
  set (status := lit "HTTP/1.1 " ++ print_dec st ++ lit " " ++ http_status_reason st) in *.
  set (fields := [lit "Content-Type: " ++ ct; length_line (length body); lit "Connection: close"]).
  assert (joined (response_lines st ct (length body)) = status ++ crlf ++ joined fields) as Hj by done.
  assert (Forall line_ok fields) as Hfields by (by apply Forall_cons in Hok as [_ ?]).
  assert (carriage_return ∉ status) as Hc by (apply Forall_cons in Hok as [(_ & ? & _) _]; done).
  unfold read_response, response_text, response_header.
  set (h := joined (response_lines st ct (length body))) in *. rewrite <- !(assoc_L (++)).
  assert (find_end (h ++ header_end_mark ++ body) = Some (length h)) as -> by (by apply find_end_joined).
  cbn [mbind option_bind]. rewrite take_app_length, Hj, strstr_line by done. rewrite <- Hj. cbn [mbind option_bind].
  unfold status. rewrite after_app. cbn [mbind option_bind]. rewrite header_lines_joined by done.
  assert (read_content_length fields None = inr (Some (Z.of_nat (length body)))) as ->.
  { unfold fields. assert (∀ ls acc, read_content_length ((lit "Content-Type: " ++ ct) :: ls) acc = read_content_length ls acc) as -> by reflexivity.
    rewrite read_length_line by done. reflexivity. }
  assert (drop (length h + 4) (h ++ header_end_mark ++ body) = body) as ->.
  { rewrite <- drop_drop, drop_app_length. done. }
  rewrite decide_True by done. do 2 f_equal.
  destruct (print_dec_digits (Z.to_nat st)) as (ds & Hds & Hne & Hd & Hv); [lia|].
  rewrite Z2Nat.id in Hds, Hv by lia. by rewrite Hds, (digits_then st ds).
Qed.
