(* ===== verification/ThreadPool.v ===== *)
(** The thread pool of [server/thread_pool.c]: the pool, its workers and the
    thread that owns it, as a transition system whose steps are the accesses to
    the mutex, to the condition and to the job queue. *)
From stdpp Require Import base list gmap.
From Stdlib Require Import ZArith Lia.
From S2P Require Import Prelude.

(** ** State *)

Inductive thread := T_main | T_worker (i : nat).
#[export] Instance thread_eq_dec : EqDecision thread.
Proof. solve_decision. Defined.

(** The structure.  [jobs] is null or the array of descriptors; the mutex is
    [None] unless initialised, and else the thread that holds it, if any. *)
Record ThreadPool := MkPool {
  workers : bool;                   (* not null *)
  worker_count : nat;
  jobs : option (list Z);
  queue_capacity : nat;
  head : nat;
  tail : nat;
  size : nat;
  stop_requested : bool;
  mutex : option (option thread);
  cond : bool                       (* initialised *)
}.

(** Where a worker is in [thread_pool_worker_main]. *)
Inductive worker_pc :=
  | W_lock                  (* at [pthread_mutex_lock] *)
  | W_test                  (* holds the mutex, at the tests *)
  | W_before_wait           (* holds the mutex, has found nothing to do *)
  | W_wait                  (* in [pthread_cond_wait] *)
  | W_relock                (* woken, takes the mutex again *)
  | W_handle (fd : Z)       (* at the call of the handler *)
  | W_close (fd : Z)        (* at [close] *)
  | W_exit                  (* has returned *)
  | W_undefined.            (* has used something that is not there *)
#[export] Instance worker_pc_eq_dec : EqDecision worker_pc.
Proof. solve_decision. Defined.

(** What the owner does with the pool once it has one. *)
Inductive call := Submit (fd : Z) | Shutdown | Destroy.

(** Where the owner is. [in_destroy] is set when [thread_pool_shutdown] is called
    by [thread_pool_destroy]. *)
Inductive main_pc :=
  | M_init (worker_count queue_capacity : nat)
  | M_create (index : nat)
  | M_fail_broadcast (index : nat)
  | M_fail_join (index : nat)
  | M_fail_free
  | M_idle
  | M_submit_lock (fd : Z)
  | M_submit_put (fd : Z)
  | M_submit_signal
  | M_submit_unlock
  | M_stop_lock (in_destroy : bool)
  | M_stop_set (in_destroy : bool)
  | M_stop_broadcast (in_destroy : bool)
  | M_stop_unlock (in_destroy : bool)
  | M_join (index : nat)
  | M_free
  | M_end (created : bool)
  | M_undefined.
#[export] Instance main_pc_eq_dec : EqDecision main_pc.
Proof. solve_decision. Defined.

(** The whole: the pool, the threads, the calls to come, and which of the coming
    fallible library calls succeed (all, once the list is used up).  The last
    five fields record what happened: descriptors accepted and refused by
    [thread_pool_submit], and taken, handled and closed by the workers. *)
Record System := MkSystem {
  pool : ThreadPool;
  threads : list worker_pc;
  main : main_pc;
  script : list call;
  env : list bool;
  accepted : list Z;
  refused : list Z;
  taken : list Z;
  handled : list Z;
  closed : list Z
}.

Definition set_pool (p : ThreadPool) (s : System) : System :=
  MkSystem p (threads s) (main s) (script s) (env s) (accepted s) (refused s) (taken s) (handled s) (closed s).
Definition set_threads (ts : list worker_pc) (s : System) : System :=
  MkSystem (pool s) ts (main s) (script s) (env s) (accepted s) (refused s) (taken s) (handled s) (closed s).
Definition set_worker (i : nat) (w : worker_pc) (s : System) : System := set_threads (<[i := w]> (threads s)) s.
Definition set_main (pc : main_pc) (s : System) : System :=
  MkSystem (pool s) (threads s) pc (script s) (env s) (accepted s) (refused s) (taken s) (handled s) (closed s).
Definition set_script (cs : list call) (s : System) : System :=
  MkSystem (pool s) (threads s) (main s) cs (env s) (accepted s) (refused s) (taken s) (handled s) (closed s).
Definition set_env (e : list bool) (s : System) : System :=
  MkSystem (pool s) (threads s) (main s) (script s) e (accepted s) (refused s) (taken s) (handled s) (closed s).
Definition log_accepted (fd : Z) (s : System) : System :=
  MkSystem (pool s) (threads s) (main s) (script s) (env s) (accepted s ++ [fd]) (refused s) (taken s) (handled s) (closed s).
Definition log_refused (fd : Z) (s : System) : System :=
  MkSystem (pool s) (threads s) (main s) (script s) (env s) (accepted s) (refused s ++ [fd]) (taken s) (handled s) (closed s).
Definition log_taken (fd : Z) (s : System) : System :=
  MkSystem (pool s) (threads s) (main s) (script s) (env s) (accepted s) (refused s) (taken s ++ [fd]) (handled s) (closed s).
Definition log_handled (fd : Z) (s : System) : System :=
  MkSystem (pool s) (threads s) (main s) (script s) (env s) (accepted s) (refused s) (taken s) (handled s ++ [fd]) (closed s).
Definition log_closed (fd : Z) (s : System) : System :=
  MkSystem (pool s) (threads s) (main s) (script s) (env s) (accepted s) (refused s) (taken s) (handled s) (closed s ++ [fd]).

Definition with_mutex (m : option (option thread)) (p : ThreadPool) : ThreadPool :=
  MkPool (workers p) (worker_count p) (jobs p) (queue_capacity p) (head p) (tail p) (size p) (stop_requested p) m (cond p).
Definition with_stop (b : bool) (p : ThreadPool) : ThreadPool :=
  MkPool (workers p) (worker_count p) (jobs p) (queue_capacity p) (head p) (tail p) (size p) b (mutex p) (cond p).
Definition with_queue (js : list Z) (h t n : nat) (p : ThreadPool) : ThreadPool :=
  MkPool (workers p) (worker_count p) (Some js) (queue_capacity p) h t n (stop_requested p) (mutex p) (cond p).

Definition unlock (s : System) : System := set_pool (with_mutex (Some None) (pool s)) s.

(** The mutex for [t]: [None] when it is held, [Some None] when there is none. *)
Definition lock (t : thread) (s : System) : option (option System) :=
  match mutex (pool s) with
  | None => Some None
  | Some None => Some (Some (set_pool (with_mutex (Some (Some t)) (pool s)) s))
  | Some (Some _) => None
  end.

(** ** The queue *)

(** [client_fd = jobs[head]; head = (head + 1) % queue_capacity; size--] *)
Definition take_job (p : ThreadPool) : option (Z * ThreadPool) :=
  js ← jobs p;
  fd ← js !! head p;
  if decide (queue_capacity p = 0) then None
  else Some (fd, with_queue js ((head p + 1) mod queue_capacity p) (tail p) (size p - 1) p).

(** [jobs[tail].client_fd = fd; tail = (tail + 1) % queue_capacity; size++] *)
Definition put_job (fd : Z) (p : ThreadPool) : option ThreadPool :=
  js ← jobs p;
  if decide (tail p < length js ∧ queue_capacity p ≠ 0)
  then Some (with_queue (<[tail p := fd]> js) (head p) ((tail p + 1) mod queue_capacity p) (size p + 1) p)
  else None.

(** ** Workers *)

(** The next step of worker [i]: [None] when it cannot move. *)
Definition thread_pool_worker_main (i : nat) (s : System) : option System :=
  w ← threads s !! i;
  match w with
  | W_lock | W_relock =>
      r ← lock (T_worker i) s;
      match r with
      | Some s' => Some (set_worker i W_test s')
      | None => Some (set_worker i W_undefined s)
      end
  | W_test =>
      if negb (stop_requested (pool s)) && bool_decide (size (pool s) = 0) then
        Some (set_worker i W_before_wait s)
      else if stop_requested (pool s) && bool_decide (size (pool s) = 0) then
        Some (set_worker i W_exit (unlock s))
      else
        match take_job (pool s) with
        | Some (fd, p) => Some (set_worker i (W_handle fd) (log_taken fd (unlock (set_pool p s))))
        | None => Some (set_worker i W_undefined s)
        end
  | W_before_wait => Some (set_worker i W_wait (unlock s))
  | W_wait => None
  | W_handle fd => Some (set_worker i (W_close fd) (log_handled fd s))
  | W_close fd => Some (set_worker i W_lock (log_closed fd s))
  | W_exit | W_undefined => None
  end.

(** [pthread_cond_signal] wakes one of the workers that wait, [waiter], if any
    does; [pthread_cond_broadcast] wakes them all. *)
Definition cond_signal (waiter : option nat) (s : System) : option System :=
  match waiter with
  | Some i => if decide (threads s !! i = Some W_wait) then Some (set_worker i W_relock s) else None
  | None => if decide (W_wait ∈ threads s) then None else Some s
  end.
Definition cond_broadcast (s : System) : System :=
  set_threads ((λ w, if decide (w = W_wait) then W_relock else w) <$> threads s) s.

(** ** The owner *)

Definition next_result (s : System) : bool * System :=
  match env s with [] => (true, s) | b :: e => (b, set_env e s) end.

Definition no_pool : ThreadPool := MkPool false 0 None 0 0 0 0 false None false.

(** [thread_pool_init], up to the creation of the workers: the two arrays, the
    mutex and the condition. *)
Definition init_start (wc cap : nat) (s : System) : System :=
  if decide (wc = 0 ∨ cap = 0) then set_main (M_end false) s
  else
    let '(ok1, s) := next_result s in
    let '(ok2, s) := next_result s in
    if negb (ok1 && ok2) then set_main (M_end false) s
    else
      let p := MkPool true wc (Some (replicate cap 0%Z)) cap 0 0 0 false None false in
      let '(ok3, s) := next_result s in
      if negb ok3 then set_main (M_end false) s
      else
        let '(ok4, s) := next_result s in
        if negb ok4 then set_main (M_end false) s
        else
          set_main (M_create 0) (set_pool
            (MkPool true wc (jobs p) cap 0 0 0 false (Some None) true) s).

Definition thread_pool_init (s : System) : option System :=
  match main s with
  | M_init wc cap => Some (init_start wc cap s)
  | M_create index =>
      if decide (index < worker_count (pool s)) then
        let '(ok, s) := next_result s in
        if (ok : bool) then Some (set_main (M_create (S index)) (set_threads (threads s ++ [W_lock]) s))
        else Some (set_main (M_fail_broadcast index) (set_pool (with_stop true (pool s)) s))
      else Some (set_main M_idle s)
  | M_fail_broadcast index => Some (set_main (M_fail_join index) (cond_broadcast s))
  | M_fail_join index =>
      match index with
      | O => Some (set_main M_fail_free s)
      | S index' =>
          match threads s !! index' with
          | None => Some (set_main M_undefined s)
          | Some W_exit => Some (set_main (M_fail_join index') s)
          | Some _ => None
          end
      end
  | M_fail_free => Some (set_main (M_end false) (set_pool no_pool s))
  | _ => None
  end.

Definition thread_pool_submit (waiter : option nat) (s : System) : option System :=
  match main s with
  | M_submit_lock fd =>
      r ← lock T_main s;
      match r with Some s' => Some (set_main (M_submit_put fd) s') | None => Some (set_main M_undefined s) end
  | M_submit_put fd =>
      if negb (stop_requested (pool s)) && bool_decide (size (pool s) < queue_capacity (pool s)) then
        match put_job fd (pool s) with
        | Some p => Some (set_main M_submit_signal (log_accepted fd (set_pool p s)))
        | None => Some (set_main M_undefined s)
        end
      else Some (set_main M_submit_unlock (log_refused fd s))
  | M_submit_signal => set_main M_submit_unlock <$> cond_signal waiter s
  | M_submit_unlock => Some (set_main M_idle (unlock s))
  | _ => None
  end.

Definition thread_pool_shutdown (s : System) : option System :=
  match main s with
  | M_stop_lock d =>
      if negb (workers (pool s)) then Some (set_main M_idle s)
      else
        r ← lock T_main s;
        match r with Some s' => Some (set_main (M_stop_set d) s') | None => Some (set_main M_undefined s) end
  | M_stop_set d => Some (set_main (M_stop_broadcast d) (set_pool (with_stop true (pool s)) s))
  | M_stop_broadcast d => Some (set_main (M_stop_unlock d) (cond_broadcast s))
  | M_stop_unlock d => Some (set_main (if (d : bool) then M_join 0 else M_idle) (unlock s))
  | _ => None
  end.

(** The joins and the release of [thread_pool_destroy]. *)
Definition thread_pool_destroy (s : System) : option System :=
  match main s with
  | M_join index =>
      if decide (index < worker_count (pool s)) then
        match threads s !! index with
        | None => Some (set_main M_undefined s)
        | Some W_exit => Some (set_main (M_join (S index)) s)
        | Some _ => None
        end
      else Some (set_main M_free s)
  | M_free => Some (set_main (M_end true) (set_pool no_pool s))
  | _ => None
  end.

(** The owner's next step; idle, it starts its next call. *)
Definition main_step (waiter : option nat) (s : System) : option System :=
  match main s with
  | M_idle =>
      match script s with
      | [] => None
      | Submit fd :: cs => Some (set_main (M_submit_lock fd) (set_script cs s))
      | Shutdown :: cs => Some (set_main (M_stop_lock false) (set_script cs s))
      | Destroy :: cs => Some (set_main (M_stop_lock true) (set_script cs s))
      end
  | M_init _ _ | M_create _ | M_fail_broadcast _ | M_fail_join _ | M_fail_free => thread_pool_init s
  | M_submit_lock _ | M_submit_put _ | M_submit_signal | M_submit_unlock => thread_pool_submit waiter s
  | M_stop_lock _ | M_stop_set _ | M_stop_broadcast _ | M_stop_unlock _ => thread_pool_shutdown s
  | M_join _ | M_free => thread_pool_destroy s
  | M_end _ | M_undefined => None
  end.

(** ** Runs *)

(** Which thread moves; a worker that waits may also wake for no reason. *)
Inductive event := Ev_main (waiter : option nat) | Ev_worker (i : nat) | Ev_spurious (i : nat).

Definition step (ev : event) (s : System) : option System :=
  match ev with
  | Ev_main waiter => main_step waiter s
  | Ev_worker i => thread_pool_worker_main i s
  | Ev_spurious i => if decide (threads s !! i = Some W_wait) then Some (set_worker i W_relock s) else None
  end.

Fixpoint run (evs : list event) (s : System) : option System :=
  match evs with [] => Some s | ev :: evs' => s' ← step ev s; run evs' s' end.

Definition start (wc cap : nat) (calls : list call) (results : list bool) : System :=
  MkSystem no_pool [] (M_init wc cap) calls results [] [] [] [] [].

Definition reachable (wc cap : nat) (calls : list call) (results : list bool) (s : System) : Prop :=
  ∃ evs, run evs (start wc cap calls results) = Some s.
