(* ===== verification/ThreadPoolInv.v ===== *)
(** The steps of the thread pool as a relation, and mutual exclusion. *)
From stdpp Require Import base list gmap.
From Stdlib Require Import ZArith Lia.
From S2P Require Import Prelude ThreadPool.

(** ** Steps as a relation *)

(** The steps of worker [i], one rule for each branch of its code. *)
Inductive worker_moves (i : nat) (s : System) : System → Prop :=
  | WM_lock w : threads s !! i = Some w → w = W_lock ∨ w = W_relock → mutex (pool s) = Some None →
      worker_moves i s (set_worker i W_test (set_pool (with_mutex (Some (Some (T_worker i))) (pool s)) s))
  | WM_nothing : threads s !! i = Some W_test → stop_requested (pool s) = false → size (pool s) = 0 →
      worker_moves i s (set_worker i W_before_wait s)
  | WM_exit : threads s !! i = Some W_test → stop_requested (pool s) = true → size (pool s) = 0 →
      worker_moves i s (set_worker i W_exit (unlock s))
  | WM_take fd p : threads s !! i = Some W_test → size (pool s) ≠ 0 → take_job (pool s) = Some (fd, p) →
      worker_moves i s (set_worker i (W_handle fd) (log_taken fd (unlock (set_pool p s))))
  | WM_wait : threads s !! i = Some W_before_wait → worker_moves i s (set_worker i W_wait (unlock s))
  | WM_handle fd : threads s !! i = Some (W_handle fd) →
      worker_moves i s (set_worker i (W_close fd) (log_handled fd s))
  | WM_close fd : threads s !! i = Some (W_close fd) →
      worker_moves i s (set_worker i W_lock (log_closed fd s))
  | WM_wake : threads s !! i = Some W_wait → worker_moves i s (set_worker i W_relock s)
  | WM_no_mutex w : threads s !! i = Some w → w = W_lock ∨ w = W_relock → mutex (pool s) = None →
      worker_moves i s (set_worker i W_undefined s)
  | WM_no_job : threads s !! i = Some W_test → size (pool s) ≠ 0 → take_job (pool s) = None →
      worker_moves i s (set_worker i W_undefined s).

(** The steps of the owner. *)
Inductive main_moves (s : System) : System → Prop :=
  | MM_init wc cap : main s = M_init wc cap → main_moves s (init_start wc cap s)
  | MM_create k e : main s = M_create k → k < worker_count (pool s) →
      main_moves s (set_main (M_create (S k)) (set_threads (threads s ++ [W_lock]) (set_env e s)))
  | MM_create_fails k e : main s = M_create k → k < worker_count (pool s) →
      main_moves s (set_main (M_fail_broadcast k) (set_pool (with_stop true (pool s)) (set_env e s)))
  | MM_created k : main s = M_create k → worker_count (pool s) ≤ k → main_moves s (set_main M_idle s)
  | MM_fail_broadcast k : main s = M_fail_broadcast k → main_moves s (set_main (M_fail_join k) (cond_broadcast s))
  | MM_fail_join k : main s = M_fail_join (S k) → threads s !! k = Some W_exit →
      main_moves s (set_main (M_fail_join k) s)
  | MM_fail_joined : main s = M_fail_join 0 → main_moves s (set_main M_fail_free s)
  | MM_fail_free : main s = M_fail_free → main_moves s (set_main (M_end false) (set_pool no_pool s))
  | MM_submit fd cs : main s = M_idle → script s = Submit fd :: cs →
      main_moves s (set_main (M_submit_lock fd) (set_script cs s))
  | MM_stop (d : bool) cs : main s = M_idle → script s = (if d then Destroy else Shutdown) :: cs →
      main_moves s (set_main (M_stop_lock d) (set_script cs s))
  | MM_submit_lock fd : main s = M_submit_lock fd → mutex (pool s) = Some None →
      main_moves s (set_main (M_submit_put fd) (set_pool (with_mutex (Some (Some T_main)) (pool s)) s))
  | MM_put fd p : main s = M_submit_put fd → stop_requested (pool s) = false →
      size (pool s) < queue_capacity (pool s) → put_job fd (pool s) = Some p →
      main_moves s (set_main M_submit_signal (log_accepted fd (set_pool p s)))
  | MM_refuse fd : main s = M_submit_put fd →
      stop_requested (pool s) = true ∨ queue_capacity (pool s) ≤ size (pool s) →
      main_moves s (set_main M_submit_unlock (log_refused fd s))
  | MM_signal i : main s = M_submit_signal → threads s !! i = Some W_wait →
      main_moves s (set_main M_submit_unlock (set_worker i W_relock s))
  | MM_signal_none : main s = M_submit_signal → (W_wait ∉ threads s) → main_moves s (set_main M_submit_unlock s)
  | MM_submit_unlock : main s = M_submit_unlock → main_moves s (set_main M_idle (unlock s))
  | MM_stop_none d : main s = M_stop_lock d → workers (pool s) = false → main_moves s (set_main M_idle s)
  | MM_stop_lock d : main s = M_stop_lock d → mutex (pool s) = Some None →
      main_moves s (set_main (M_stop_set d) (set_pool (with_mutex (Some (Some T_main)) (pool s)) s))
  | MM_stop_set d : main s = M_stop_set d →
      main_moves s (set_main (M_stop_broadcast d) (set_pool (with_stop true (pool s)) s))
  | MM_stop_broadcast d : main s = M_stop_broadcast d → main_moves s (set_main (M_stop_unlock d) (cond_broadcast s))
  | MM_stop_unlock (d : bool) : main s = M_stop_unlock d →
      main_moves s (set_main (if d then M_join 0 else M_idle) (unlock s))
  | MM_join k : main s = M_join k → k < worker_count (pool s) → threads s !! k = Some W_exit →
      main_moves s (set_main (M_join (S k)) s)
  | MM_joined k : main s = M_join k → worker_count (pool s) ≤ k → main_moves s (set_main M_free s)
  | MM_free : main s = M_free → main_moves s (set_main (M_end true) (set_pool no_pool s))
  | MM_no_mutex : (∃ fd, main s = M_submit_lock fd) ∨ (∃ d, main s = M_stop_lock d) → mutex (pool s) = None →
      main_moves s (set_main M_undefined s)
  | MM_no_queue fd : main s = M_submit_put fd → size (pool s) < queue_capacity (pool s) →
      put_job fd (pool s) = None → main_moves s (set_main M_undefined s)
  | MM_no_thread k : main s = M_fail_join (S k) ∨ main s = M_join k ∧ k < worker_count (pool s) →
      threads s !! k = None → main_moves s (set_main M_undefined s).

(** A case for each rule. *)
Ltac main_cases Hm :=
  destruct Hm as [wc cap Em|k e Em Hk|k e Em Hk|k Em Hk|k Em|k Em Hx|Em|Em|fd cs Em Es|d cs Em Es|fd Em Hmx|fd p Em Hs Hz Hp
    |fd Em Hs|i Em Hi|Em Hi|Em|d Em Hnw|d Em Hmx|d Em|d Em|d Em|k Em Hk Hx|k Em Hk|Em|Em Hmx|fd Em Hz Hp|k Em Hx].
Ltac worker_cases Hm :=
  destruct Hm as [w Hw Hor Hmx|Hw Hs Hz|Hw Hs Hz|fd p Hw Hz Ht|Hw|fd Hw|fd Hw|Hw|w Hw Hor Hmx|Hw Hz Ht].

Inductive moves (s : System) : System → Prop :=
  | Moves_worker i s' : worker_moves i s s' → moves s s'
  | Moves_main s' : main_moves s s' → moves s s'.

Lemma worker_step_moves i s s' : thread_pool_worker_main i s = Some s' → worker_moves i s s'.
Proof.
  unfold thread_pool_worker_main. destruct (threads s !! i) as [w|] eqn:Ew; [|done]. cbn [mbind option_bind].
  assert (∀ w, threads s !! i = Some w → w = W_lock ∨ w = W_relock →
    (lock (T_worker i) s ≫= λ r : option System, match r with
      | Some s' => Some (set_worker i W_test s') | None => Some (set_worker i W_undefined s) end) = Some s' →
    worker_moves i s s') as Hlock.
  { intros w' Hw' Hor. unfold lock. destruct (mutex (pool s)) as [[t|]|] eqn:Em; [done|intros [= <-]|intros [= <-]].
    - by eapply WM_lock.
    - by eapply WM_no_mutex. }
  destruct w; try done; try (intros [= <-]).
  - apply (Hlock W_lock); auto.
  - destruct (stop_requested (pool s)) eqn:Es, (decide (size (pool s) = 0)) as [Hz|Hz];
      [rewrite (bool_decide_eq_true_2 (size (pool s) = 0)) by done|rewrite (bool_decide_eq_false_2 (size (pool s) = 0)) by done
      |rewrite (bool_decide_eq_true_2 (size (pool s) = 0)) by done|rewrite (bool_decide_eq_false_2 (size (pool s) = 0)) by done]; simpl.
    + intros [= <-]. by apply WM_exit.
    + destruct (take_job (pool s)) as [[fd p]|] eqn:Et; intros [= <-]; [by apply WM_take|by apply WM_no_job].
    + intros [= <-]. by apply WM_nothing.
    + destruct (take_job (pool s)) as [[fd p]|] eqn:Et; intros [= <-]; [by apply WM_take|by apply WM_no_job].
  - by apply WM_wait.
  - apply (Hlock W_relock); auto.
  - by apply WM_handle.
  - by apply WM_close.
Qed.

Lemma next_result_env s b s1 : next_result s = (b, s1) → ∃ e, s1 = set_env e s.
Proof.
  unfold next_result. destruct (env s) as [|b' e'] eqn:Ee; intros [= <- <-]; [exists []; rewrite <- Ee; by destruct s|by exists e'].
Qed.

Lemma main_step_moves waiter s s' : main_step waiter s = Some s' → main_moves s s'.
Proof.
  unfold main_step, thread_pool_init, thread_pool_submit, thread_pool_shutdown, thread_pool_destroy, lock.
  destruct (main s) eqn:Em; try done.
  - intros [= <-]. by apply MM_init.
  - case_decide; [|intros [= <-]; eapply MM_created; [done|lia]].
    destruct (next_result s) as [[] s1] eqn:En; intros [= <-]; destruct (next_result_env _ _ _ En) as [e ->];
      [by apply (MM_create s _ e)|by apply (MM_create_fails s _ e)].
  - intros [= <-]. by apply MM_fail_broadcast.
  - destruct index as [|k]; [intros [= <-]; by apply MM_fail_joined|].
    destruct (threads s !! k) as [w|] eqn:Ew; [|intros [= <-]; eapply MM_no_thread; [by left|done]].
    destruct w; try done. intros [= <-]. by apply MM_fail_join.
  - intros [= <-]. by apply MM_fail_free.
  - destruct (script s) as [|[fd| |] cs] eqn:Es; intros [= <-]; [by apply MM_submit|by apply (MM_stop s false)|by apply (MM_stop s true)].
  - destruct (mutex (pool s)) as [[t|]|] eqn:Emx; cbn [mbind option_bind]; [done|intros [= <-]; by apply MM_submit_lock|].
    intros [= <-]. apply MM_no_mutex; eauto.
  - destruct (stop_requested (pool s)) eqn:Es; cbn [negb andb].
    { intros [= <-]. eapply MM_refuse; [done|by left]. }
    case_bool_decide as Hsz.
    + destruct (put_job fd (pool s)) as [p|] eqn:Ep; intros [= <-]; [by eapply MM_put|by eapply MM_no_queue].
    + intros [= <-]. eapply MM_refuse; [done|right; lia].
  - unfold cond_signal. destruct waiter as [i|]; case_decide as Hw; cbn [fmap option_fmap option_map]; try done; intros [= <-];
      [by apply MM_signal|by apply MM_signal_none].
  - intros [= <-]. by apply MM_submit_unlock.
  - destruct (workers (pool s)) eqn:Ewk; cbn [negb]; [|intros [= <-]; by eapply MM_stop_none].
    destruct (mutex (pool s)) as [[t|]|] eqn:Emx; cbn [mbind option_bind]; [done|intros [= <-]; by apply MM_stop_lock|].
    intros [= <-]. apply MM_no_mutex; eauto.
  - intros [= <-]. by apply MM_stop_set.
  - intros [= <-]. by apply MM_stop_broadcast.
  - intros [= <-]. by apply MM_stop_unlock.
  - case_decide as Hk; [|intros [= <-]; eapply MM_joined; [done|lia]].
    destruct (threads s !! index) as [w|] eqn:Ew; [|intros [= <-]; eapply MM_no_thread; [by right|done]].
    destruct w; try done. intros [= <-]. by apply MM_join.
  - intros [= <-]. by apply MM_free.
Qed.

Lemma step_moves ev s s' : step ev s = Some s' → moves s s'.
Proof.
  destruct ev as [waiter|i|i]; simpl; intros H.
  - apply Moves_main. by eapply main_step_moves.
  - eapply Moves_worker. by eapply worker_step_moves.
  - case_decide as Hw; [|done]. injection H as <-. eapply Moves_worker. by apply WM_wake.
Qed.

(** ** Mutual exclusion *)

(** Between the start of [thread_pool_init] and the end. *)
Definition live (pc : main_pc) : bool :=
  match pc with M_init _ _ | M_end _ | M_undefined => false | _ => true end.

Definition main_holds (pc : main_pc) : bool :=
  match pc with
  | M_submit_put _ | M_submit_signal | M_submit_unlock | M_stop_set _ | M_stop_broadcast _ | M_stop_unlock _ => true
  | _ => false
  end.
Definition worker_holds (w : worker_pc) : bool := match w with W_test | W_before_wait => true | _ => false end.

(** Whether the code of [t] is between a lock and an unlock. *)
Definition holds_mutex (t : thread) (s : System) : bool :=
  match t with
  | T_main => main_holds (main s)
  | T_worker i => match threads s !! i with Some w => worker_holds w | None => false end
  end.

(** The mutex is held by the one thread that is in a critical section. *)
Definition excl (s : System) : Prop :=
  if live (main s) then ∃ h, mutex (pool s) = Some h ∧ ∀ t, holds_mutex t s = true ↔ h = Some t
  else ∀ wc cap, main s = M_init wc cap → threads s = [].

Lemma holds_set_worker j i w s : i < length (threads s) →
  holds_mutex (T_worker j) (set_worker i w s) = if decide (i = j) then worker_holds w else holds_mutex (T_worker j) s.
Proof.
  intros Hi. unfold holds_mutex, set_worker, set_threads. cbn [threads]. case_decide as Hij.
  - subst j. by rewrite list_lookup_insert_eq.
  - by rewrite list_lookup_insert_ne.
Qed.

(** A worker's step that moves the mutex from [h] to [h']. *)
Lemma excl_worker i w0 w s p s' h' :
  excl s → threads s !! i = Some w0 → live (main s) = true →
  threads s' = <[i := w]> (threads s) → main s' = main s → pool s' = p → mutex p = Some h' →
  (∀ h, mutex (pool s) = Some h → (worker_holds w0 = true ↔ h = Some (T_worker i)) →
     (worker_holds w = true ↔ h' = Some (T_worker i)) ∧ ∀ t, t ≠ T_worker i → h' = Some t ↔ h = Some t) →
  excl s'.
Proof.
  unfold excl. intros Hex Hi Hlive Hts Hmain Hp Hmx Hh. rewrite Hmain, Hlive in *. rewrite Hp.
  destruct Hex as (h & Hm & Hiff). exists h'. split; [done|].
  destruct (Hh h Hm) as [Hw Ht].
  { specialize (Hiff (T_worker i)). unfold holds_mutex in Hiff. by rewrite Hi in Hiff. }
  assert (i < length (threads s)) as Hlt by by eapply lookup_lt_Some.
  intros [|j].
  - rewrite (Ht T_main), <- Hiff by done. unfold holds_mutex. by rewrite Hmain.
  - destruct (decide (j = i)) as [->|Hne].
    + unfold holds_mutex. by rewrite Hts, list_lookup_insert_eq by done.
    + rewrite (Ht (T_worker j)), <- Hiff by congruence. unfold holds_mutex. by rewrite Hts, list_lookup_insert_ne by congruence.
Qed.

Lemma excl_same i w0 w s s' :
  excl s → threads s !! i = Some w0 → worker_holds w0 = worker_holds w →
  threads s' = <[i := w]> (threads s) → main s' = main s → mutex (pool s') = mutex (pool s) → excl s'.
Proof.
  intros Hex Hi Hw Hts Hm Hmx. destruct (live (main s)) eqn:Hl.
  - pose proof Hex as Hex'. unfold excl in Hex'. rewrite Hl in Hex'. destruct Hex' as (h & Hh & _).
    eapply (excl_worker i w0 w s (pool s') s' h); [done..|congruence|]. intros h0 Hh0 Hiff.
    rewrite Hh in Hh0. injection Hh0 as <-. by rewrite <- Hw.
  - unfold excl in *. rewrite Hm, Hl in *. intros wc cap Hi'. rewrite Hts, (Hex wc cap Hi'). done.
Qed.

Lemma take_job_mutex p fd p' : take_job p = Some (fd, p') →
  mutex p' = mutex p ∧ stop_requested p' = stop_requested p ∧ worker_count p' = worker_count p ∧
  queue_capacity p' = queue_capacity p ∧ workers p' = workers p ∧ size p' = size p - 1.
Proof.
  unfold take_job. destruct (jobs p) as [js|]; [|done]. cbn [mbind option_bind].
  destruct (js !! head p) as [x|]; [|done]. cbn [mbind option_bind]. case_decide; [done|]. by intros [= <- <-].
Qed.

Lemma put_job_mutex fd p p' : put_job fd p = Some p' →
  mutex p' = mutex p ∧ stop_requested p' = stop_requested p ∧ worker_count p' = worker_count p ∧
  queue_capacity p' = queue_capacity p ∧ workers p' = workers p ∧ size p' = S (size p).
Proof.
  unfold put_job. destruct (jobs p) as [js|]; [|done]. cbn [mbind option_bind]. case_decide; [|done].
  intros [= <-]. split_and!; try done. simpl. lia.
Qed.

(** Nothing undefined has happened. *)
Definition defined (s : System) : Prop := (∀ i, threads s !! i ≠ Some W_undefined) ∧ main s ≠ M_undefined.

Lemma worker_moves_excl i s s' :
  live (main s) = true → worker_moves i s s' → defined s' → excl s → excl s'.
Proof.
  intros Hl Hm [Hdef _] Hex.
  assert (∀ w0, threads s !! i = Some w0 → (<[i := W_undefined]> (threads s)) !! i = Some W_undefined) as Hbad.
  { intros w0 Hw. by apply list_lookup_insert_eq, lookup_lt_is_Some; eauto. }
  worker_cases Hm.
  - eapply (excl_worker i w W_test s _ _ (Some (T_worker i))); [exact Hex|exact Hw|done..|].
    rewrite Hmx. intros h [= <-] _. split; [done|]. intros t Hne. split; [congruence|done].
  - by eapply (excl_same i W_test W_before_wait s).
  - eapply (excl_worker i W_test W_exit s _ _ None); [exact Hex|exact Hw|done..|].
    intros h Hh [Hi _]. specialize (Hi eq_refl). subst h. split; [done|]. intros t Hne. split; [done|congruence].
  - eapply (excl_worker i W_test (W_handle fd) s _ _ None); [exact Hex|exact Hw|done..|].
    intros h Hh [Hi _]. specialize (Hi eq_refl). subst h. split; [done|]. intros t Hne. split; [done|congruence].
  - eapply (excl_worker i W_before_wait W_wait s _ _ None); [exact Hex|exact Hw|done..|].
    intros h Hh [Hi _]. specialize (Hi eq_refl). subst h. split; [done|]. intros t Hne. split; [done|congruence].
  - by eapply (excl_same i (W_handle fd) (W_close fd) s).
  - by eapply (excl_same i (W_close fd) W_lock s).
  - by eapply (excl_same i W_wait W_relock s).
  - destruct (Hdef i). by eapply Hbad.
  - destruct (Hdef i). by eapply Hbad.
Qed.

(** The steps of the owner: [set_main] and possibly the mutex. *)
Lemma excl_main s s' h h' :
  excl s → live (main s) = true → threads s' = threads s → mutex (pool s) = Some h → mutex (pool s') = Some h' →
  ((main_holds (main s) = true ↔ h = Some T_main) → (main_holds (main s') = true ↔ h' = Some T_main)) →
  (∀ i, h' = Some (T_worker i) ↔ h = Some (T_worker i)) → live (main s') = true → excl s'.
Proof.
  unfold excl. intros Hex Hl Hts Hm Hm' Hmain Hw Hl'. rewrite Hl', Hl in *. destruct Hex as (h0 & Hh0 & Hiff).
  rewrite Hm in Hh0. injection Hh0 as <-. exists h'. split; [done|]. intros [|i].
  - apply Hmain. exact (Hiff T_main).
  - rewrite Hw, <- Hiff. unfold holds_mutex. by rewrite Hts.
Qed.

Lemma excl_main_same s s' :
  excl s → live (main s) = true → threads s' = threads s → mutex (pool s') = mutex (pool s) →
  main_holds (main s') = main_holds (main s) → live (main s') = true → excl s'.
Proof.
  intros Hex Hl Hts Hm Hh Hl'. pose proof Hex as Hex'. unfold excl in Hex'. rewrite Hl in Hex'.
  destruct Hex' as (h & Hmx & _). eapply (excl_main s s' h h); [done..|congruence| | |done]; rewrite ?Hh; done.
Qed.

(** Waking workers moves nobody in or out of a critical section. *)
Lemma excl_wake s s' :
  excl s → live (main s) = true → mutex (pool s') = mutex (pool s) →
  (∀ i, match threads s' !! i with Some w => worker_holds w | None => false end =
        match threads s !! i with Some w => worker_holds w | None => false end) →
  main_holds (main s') = main_holds (main s) → live (main s') = true → excl s'.
Proof.
  unfold excl. intros Hex Hl Hmx Hts Hm Hl'. rewrite Hl', Hl in *. destruct Hex as (h & Hh & Hiff).
  exists h. split; [congruence|]. intros t. rewrite <- Hiff. destruct t as [|i]; unfold holds_mutex; [by rewrite Hm|by rewrite Hts].
Qed.

Lemma broadcast_holds s i :
  match threads (cond_broadcast s) !! i with Some w => worker_holds w | None => false end =
  match threads s !! i with Some w => worker_holds w | None => false end.
Proof.
  unfold cond_broadcast, set_threads. cbn [threads]. rewrite list_lookup_fmap.
  destruct (threads s !! i) as [w|]; [|done]. cbn [fmap option_fmap option_map]. by case_decide; subst.
Qed.

Lemma set_worker_holds s i w0 w j : threads s !! i = Some w0 → worker_holds w0 = worker_holds w →
  match threads (set_worker i w s) !! j with Some w => worker_holds w | None => false end =
  match threads s !! j with Some w => worker_holds w | None => false end.
Proof.
  intros Hi Hw. unfold set_worker, set_threads. cbn [threads]. destruct (decide (i = j)) as [<-|Hne].
  - rewrite list_lookup_insert_eq by by eapply lookup_lt_Some. by rewrite Hi.
  - by rewrite list_lookup_insert_ne.
Qed.

Lemma main_moves_excl s s' : main_moves s s' → defined s' → excl s → excl s'.
Proof.
  intros Hm [_ Hdef] Hex.
  main_cases Hm; try done.
  - unfold excl in Hex. rewrite Em in Hex. cbn [live] in Hex. specialize (Hex wc cap eq_refl). unfold init_start.
    case_decide; [done|]. destruct (next_result s) as [b1 s1] eqn:E1. destruct (next_result s1) as [b2 s2] eqn:E2.
    case_match; [done|]. destruct (next_result s2) as [b3 s3] eqn:E3. destruct b3; cbn [negb]; [|done].
    destruct (next_result s3) as [b4 s4] eqn:E4. destruct b4; cbn [negb]; [|done].
    apply next_result_env in E1 as [? ->], E2 as [? ->], E3 as [? ->], E4 as [? ->].
    unfold excl. cbn. exists None. split; [done|]. intros [|i]; cbn; [done|]. rewrite Hex. done.
  - pose proof Hex as Hex'. unfold excl in Hex'. rewrite Em in Hex'. destruct Hex' as (h & Hh & Hiff).
    unfold excl. cbn [main set_main live]. exists h. split; [done|]. intros [|i]; rewrite <- Hiff; unfold holds_mutex; cbn.
    + by rewrite Em.
    + destruct (decide (i < length (threads s))) as [Hlt|Hge].
      * by rewrite lookup_app_l.
      * rewrite lookup_app_r, (lookup_ge_None_2 (threads s)) by lia. by destruct (i - length (threads s)) as [|[|]].
  - apply (excl_main_same s); rewrite ?Em; done.
  - apply (excl_main_same s); rewrite ?Em; done.
  - apply (excl_wake s); rewrite ?Em; [done..|apply broadcast_holds|done|done].
  - apply (excl_main_same s); rewrite ?Em; done.
  - apply (excl_main_same s); rewrite ?Em; done.
  - apply (excl_main_same s); rewrite ?Em; done.
  - apply (excl_main_same s); rewrite ?Em; done.
  - apply (excl_main s _ None (Some T_main)); rewrite ?Em; done.
  - apply (excl_main_same s); rewrite ?Em; try done. exact (proj1 (put_job_mutex _ _ _ Hp)).
  - apply (excl_main_same s); rewrite ?Em; done.
  - apply (excl_wake s); rewrite ?Em; [done..| |done|done]. intros j. by eapply set_worker_holds.
  - apply (excl_main_same s); rewrite ?Em; done.
  - pose proof Hex as Hex'. unfold excl in Hex'. rewrite Em in Hex'. destruct Hex' as (h & Hh & Hiff).
    assert (h = Some T_main) as -> by (apply Hiff; unfold holds_mutex; by rewrite Em).
    apply (excl_main s _ (Some T_main) None); rewrite ?Em; done.
  - apply (excl_main_same s); rewrite ?Em; done.
  - apply (excl_main s _ None (Some T_main)); rewrite ?Em; done.
  - apply (excl_main_same s); rewrite ?Em; done.
  - apply (excl_wake s); rewrite ?Em; [done..|apply broadcast_holds|done|done].
  - pose proof Hex as Hex'. unfold excl in Hex'. rewrite Em in Hex'. destruct Hex' as (h & Hh & Hiff).
    assert (h = Some T_main) as -> by (apply Hiff; unfold holds_mutex; by rewrite Em).
    apply (excl_main s _ (Some T_main) None); rewrite ?Em; try done; by destruct d.
  - apply (excl_main_same s); rewrite ?Em; done.
  - apply (excl_main_same s); rewrite ?Em; done.
Qed.
