(* ===== verification/ThreadPoolSafe.v ===== *)
(** What holds in every state the thread pool can reach: the array of jobs is a
    queue, the threads are as many as were created, and nothing undefined is
    used: no missing mutex, job or thread. *)
From stdpp Require Import base list gmap.
From Stdlib Require Import ZArith Lia.
From S2P Require Import Prelude ThreadPool ThreadPoolInv.

(** ** The ring buffer *)

(** The [n] descriptors from place [h] on, around the array. *)
Definition queued (js : list Z) (h n : nat) : list Z := (λ k, js !!! ((h + k) mod length js)) <$> seq 0 n.

Lemma ring_mod c x : x < 2 * c → x mod c = if decide (x < c) then x else x - c.
Proof.
  intros Hx. case_decide as Hlt; [by apply Nat.mod_small|].
  replace x with (x - c + 1 * c) at 1 by lia. rewrite Nat.Div0.mod_add. apply Nat.mod_small. lia.
Qed.

Lemma ring_mod_ne c h k n : h < c → k < n → n < c → (h + k) mod c ≠ (h + n) mod c.
Proof. intros. rewrite !ring_mod by lia. repeat case_decide; lia. Qed.

Lemma queued_take js h n : 0 < length js → h < length js → n ≠ 0 →
  ∃ fd, js !! h = Some fd ∧ queued js h n = fd :: queued js ((h + 1) mod length js) (n - 1).
Proof.
  intros Hpos Hh Hn. destruct n as [|m]; [done|]. destruct (lookup_lt_is_Some_2 js h Hh) as [fd Hfd].
  exists fd. split; [done|]. unfold queued. cbn [seq fmap list_fmap]. f_equal.
  - rewrite Nat.add_0_r, Nat.mod_small by done. by apply list_lookup_total_correct.
  - rewrite Nat.sub_succ, Nat.sub_0_r, <- fmap_S_seq, <- list_fmap_compose. apply list_fmap_ext. intros i k _. cbn.
    rewrite Nat.Div0.add_mod_idemp_l. do 2 f_equal. lia.
Qed.

Lemma queued_put js h n fd : h < length js → n < length js →
  queued (<[(h + n) mod length js := fd]> js) h (n + 1) = queued js h n ++ [fd].
Proof.
  intros Hh Hn. unfold queued. rewrite length_insert, seq_app, fmap_app. cbn [seq fmap list_fmap]. f_equal.
  - apply list_fmap_ext. intros i k Hk%lookup_seq. rewrite list_lookup_total_insert_ne; [done|].
    apply not_eq_sym, ring_mod_ne; lia.
  - rewrite Nat.add_0_l, list_lookup_total_insert_eq; [done|]. apply Nat.mod_upper_bound. lia.
Qed.

(** The array in use is a queue: what was accepted and not yet taken, in order. *)
Record ring_pool (p : ThreadPool) (queue : list Z) : Prop := MkRing {
  ring_jobs : ∃ js, jobs p = Some js ∧ length js = queue_capacity p ∧ queue = queued js (head p) (size p);
  ring_head : head p < queue_capacity p;
  ring_size : size p ≤ queue_capacity p;
  ring_tail : tail p = (head p + size p) mod queue_capacity p
}.

Lemma ring_length p q : ring_pool p q → length q = size p.
Proof. intros [(js & _ & _ & ->) _ _ _]. unfold queued. by rewrite length_fmap, length_seq. Qed.

Lemma ring_take p q : ring_pool p q → size p ≠ 0 →
  ∃ fd q' p', q = fd :: q' ∧ take_job p = Some (fd, p') ∧ ring_pool p' q'.
Proof.
  intros [(js & Hjs & Hlen & ->) Hh Hsz Ht] Hn.
  destruct (queued_take js (head p) (size p)) as (fd & Hfd & Hq); [lia|lia|done|].
  unfold take_job. rewrite Hjs, Hq. cbn [mbind option_bind]. rewrite Hfd. cbn [mbind option_bind]. case_decide; [lia|].
  eexists _, _, _. split_and!; [done..|]. split; cbn; [exists js; by rewrite <- Hlen|apply Nat.mod_upper_bound; lia|lia|].
  rewrite Ht, Nat.Div0.add_mod_idemp_l. f_equal. lia.
Qed.

Lemma ring_put fd p q : ring_pool p q → size p < queue_capacity p →
  ∃ p', put_job fd p = Some p' ∧ ring_pool p' (q ++ [fd]).
Proof.
  intros [(js & Hjs & Hlen & ->) Hh Hsz Ht] Hlt. unfold put_job. rewrite Hjs. cbn [mbind option_bind].
  assert (tail p < length js) as Htl by (rewrite Ht, Hlen; apply Nat.mod_upper_bound; lia).
  rewrite decide_True by lia. eexists. split; [done|].
  split; cbn [jobs queue_capacity head tail size with_queue]; [|done|lia|].
  - eexists. split_and!; [done|by rewrite length_insert|].
    rewrite Ht, <- Hlen, queued_put; [done|lia|lia].
  - rewrite Ht, Nat.Div0.add_mod_idemp_l. f_equal. lia.
Qed.

Lemma ring_new cap m c : cap ≠ 0 → ring_pool (MkPool true 1 (Some (replicate cap 0%Z)) cap 0 0 0 false m c) [].
Proof. intros Hc. split; cbn; [eexists; by rewrite length_replicate|lia|lia|by rewrite Nat.Div0.mod_0_l]. Qed.

(** Only the queue matters to the ring. *)
Lemma ring_same p p' q :
  jobs p' = jobs p → queue_capacity p' = queue_capacity p → head p' = head p → tail p' = tail p → size p' = size p →
  ring_pool p q → ring_pool p' q.
Proof. intros Hj Hc Hh Ht Hs [Hjs H1 H2 H3]. split; rewrite ?Hj, ?Hc, ?Hh, ?Ht, ?Hs; done. Qed.

(** While the pool exists, it has its workers' array and its queue, and the
    queue holds what was accepted and not taken. *)
Definition ring (s : System) : Prop :=
  live (main s) = true →
  workers (pool s) = true ∧ worker_count (pool s) ≠ 0 ∧ ∃ q, ring_pool (pool s) q ∧ accepted s = taken s ++ q.

(** ** Frames *)

(** A step of worker [i] moves that worker, which has not returned, and leaves
    the owner and what does not change under the mutex alone. *)
Lemma worker_moves_frame i s s' : worker_moves i s s' →
  ∃ w0 w, threads s !! i = Some w0 ∧ w0 ≠ W_exit ∧ threads s' = <[i := w]> (threads s) ∧
    main s' = main s ∧ script s' = script s ∧ accepted s' = accepted s ∧
    worker_count (pool s') = worker_count (pool s) ∧ workers (pool s') = workers (pool s) ∧
    queue_capacity (pool s') = queue_capacity (pool s) ∧ stop_requested (pool s') = stop_requested (pool s).
Proof.
  intros Hm. worker_cases Hm; try destruct Hor as [->| ->];
    eexists _, _; try (split_and!; [exact Hw|done..]).
  destruct (take_job_mutex _ _ _ Ht) as (? & ? & ? & ? & ? & ?). split_and!; [exact Hw|done..].
Qed.

Lemma init_start_cases wc cap s :
  (∃ e, init_start wc cap s = set_main (M_end false) (set_env e s)) ∨
  (wc ≠ 0 ∧ cap ≠ 0 ∧ ∃ e, init_start wc cap s = set_main (M_create 0)
     (set_pool (MkPool true wc (Some (replicate cap 0%Z)) cap 0 0 0 false (Some None) true) (set_env e s))).
Proof.
  unfold init_start. case_decide as Hc.
  { left. exists (env s). by destruct s. }
  destruct (next_result s) as [b1 s1] eqn:E1, (next_result_env _ _ _ E1) as [e1 ->].
  destruct (next_result (set_env e1 s)) as [b2 s2] eqn:E2, (next_result_env _ _ _ E2) as [e2 ->].
  case_match; [left; by exists e2|].
  destruct (next_result (set_env e2 (set_env e1 s))) as [b3 s3] eqn:E3, (next_result_env _ _ _ E3) as [e3 ->].
  destruct b3; cbn [negb]; [|left; by exists e3].
  destruct (next_result (set_env e3 (set_env e2 (set_env e1 s)))) as [b4 s4] eqn:E4, (next_result_env _ _ _ E4) as [e4 ->].
  destruct b4; cbn [negb]; [|left; by exists e4].
  right. split_and!; [lia|lia|by exists e4].
Qed.

(** ** The ring through the steps *)

(** Nothing has been accepted, and so nothing taken, before the owner is idle, or
    when [thread_pool_init] has failed. *)
Definition fresh (s : System) : Prop :=
  match main s with
  | M_init _ _ | M_create _ | M_fail_broadcast _ | M_fail_join _ | M_fail_free | M_end false => accepted s = [] ∧ taken s = []
  | _ => True
  end.

Lemma worker_moves_ring i s s' : worker_moves i s s' → live (main s) = true → ring s → ring s'.
Proof.
  intros Hm Hl Hr _. destruct (Hr Hl) as (Hwk & Hwc & q & Hq & Hacc).
  destruct (worker_moves_frame i s s' Hm) as (_ & _ & _ & _ & _ & _ & _ & Ha & Hwc' & Hwk' & _ & _).
  rewrite Ha, Hwc', Hwk'. split_and!; [done..|]. clear Ha Hwc' Hwk'.
  worker_cases Hm; try destruct Hor as [->| ->];
    try (exists q; split; [eapply (ring_same (pool s)); done|done]).
  destruct (ring_take (pool s) q Hq Hz) as (fd' & q' & p' & -> & Ht' & Hq').
  rewrite Ht in Ht'. injection Ht' as <- <-. exists q'. split; [by eapply (ring_same p)|].
  cbn. by rewrite <- app_assoc.
Qed.

Lemma main_moves_ring s s' : main_moves s s' → fresh s → ring s → ring s'.
Proof.
  intros Hm Hf Hr.
  main_cases Hm; try done;
    try (unfold ring in *; rewrite Em in Hr; intros _; destruct (Hr eq_refl) as (Hwk & Hwc & q & Hq & Hacc); split_and!;
      [done|done|exists q; split; [by eapply (ring_same (pool s))|done]]).
  - destruct (init_start_cases wc cap s) as [[e ->]|(Hwc & Hcap & e & ->)]; [done|].
    intros _. cbn. split_and!; [done|done|]. exists []. split; [eapply ring_same; [..|by apply (ring_new cap None true)]; done|].
    unfold fresh in Hf. rewrite Em in Hf. destruct Hf as [-> ->]. done.
  - unfold ring in *. rewrite Em in Hr. intros _. destruct (Hr eq_refl) as (Hwk & Hwc & q & Hq & Hacc).
    destruct (ring_put fd (pool s) q Hq Hz) as (p' & Hp' & Hq'). rewrite Hp in Hp'. injection Hp' as <-.
    destruct (put_job_mutex _ _ _ Hp) as (_ & _ & Hwc' & _ & Hwk' & _). cbn. rewrite Hwc', Hwk'. split_and!; [done..|].
    exists (q ++ [fd]). split; [done|]. by rewrite Hacc, app_assoc.
Qed.

Lemma worker_moves_fresh i s s' : worker_moves i s s' → live (main s) = true → ring s → fresh s → fresh s'.
Proof.
  intros Hm Hl Hr Hf. destruct (worker_moves_frame i s s' Hm) as (_ & _ & _ & _ & _ & Em' & _ & Ha & _).
  unfold fresh in *. rewrite Em', Ha.
  assert (accepted s = [] ∧ taken s = [] → accepted s = [] ∧ taken s' = []) as Hstep; [|by destruct (main s) as [| | | | | | | | | | | | | | | |[]|]; auto].
  intros [Hacc Htk]. split; [done|].
  worker_cases Hm; try done.
  destruct (Hr Hl) as (_ & _ & q & Hq & Hacc'). rewrite Hacc, Htk in Hacc'.
  destruct (ring_take (pool s) q Hq Hz) as (fd' & q' & _ & -> & _). done.
Qed.

Lemma main_moves_fresh s s' : main_moves s s' → fresh s → fresh s'.
Proof.
  intros Hm Hf. unfold fresh in *.
  main_cases Hm;
    rewrite ?Em in Hf; try done.
  - destruct (init_start_cases wc cap s) as [[e ->]|(_ & _ & e & ->)]; done.
  - by destruct d.
Qed.

(** ** The threads *)

(** Every thread has returned; those below, or from, [k] have. *)
Definition all_exited (s : System) : Prop := ∀ i w, threads s !! i = Some w → w = W_exit.

(** How many threads there are at each point of the owner's code, and which of
    them it has joined. *)
Definition counts (s : System) : Prop :=
  match main s with
  | M_init _ _ => threads s = []
  | M_create k | M_fail_broadcast k => length (threads s) = k ∧ k ≤ worker_count (pool s)
  | M_fail_join k => k ≤ length (threads s) ∧ ∀ i w, k ≤ i → threads s !! i = Some w → w = W_exit
  | M_fail_free | M_free | M_end _ => all_exited s
  | M_join k => length (threads s) = worker_count (pool s) ∧ k ≤ worker_count (pool s) ∧
      ∀ i w, i < k → threads s !! i = Some w → w = W_exit
  | M_undefined => True
  | _ => length (threads s) = worker_count (pool s)
  end.

(** Threads only move while the pool exists. *)
Lemma worker_moves_live i s s' : worker_moves i s s' → counts s → defined s → live (main s) = true.
Proof.
  intros Hm Hc [_ Hd]. destruct (worker_moves_frame i s s' Hm) as (w0 & _ & Hi & Hne & _).
  unfold counts in Hc. destruct (main s); try done.
  - by rewrite Hc in Hi.
  - destruct Hne. by eapply Hc.
Qed.

Lemma worker_moves_counts i s s' : worker_moves i s s' → counts s → counts s'.
Proof.
  intros Hm Hc. destruct (worker_moves_frame i s s' Hm) as (w0 & w & Hi & Hne & Hts & Em & _ & _ & Hwc & _).
  assert (∀ P : nat → Prop, (∀ j v, P j → threads s !! j = Some v → v = W_exit) →
    ∀ j v, P j → threads s' !! j = Some v → v = W_exit) as Hexit.
  { intros P HP j v Hj. rewrite Hts. destruct (decide (i = j)) as [<-|Hij].
    - destruct Hne. by eapply HP.
    - rewrite list_lookup_insert_ne by done. by apply HP. }
  assert (length (threads s') = length (threads s)) as Hlen by (by rewrite Hts, length_insert).
  assert (all_exited s → all_exited s') as Hall.
  { intros Ha j v Hj. apply (Hexit (λ _, True) (λ j v _, Ha j v) j v I Hj). }
  unfold counts in *. rewrite Em, Hwc, ?Hlen. destruct (main s); try done; try (by apply Hall).
  - rewrite Hts, Hc. done.
  - destruct Hc as [Hle Hx]. split; [done|]. intros j v. apply (Hexit (λ j, index ≤ j) Hx).
  - destruct Hc as (Hle & Hk & Hx). split_and!; [done..|]. intros j v. apply (Hexit (λ j, j < index) Hx).
Qed.

Lemma main_moves_counts s s' : main_moves s s' → ring s → counts s → counts s'.
Proof.
  intros Hm Hr Hc. unfold counts in *.
  main_cases Hm;
    rewrite ?Em in Hc; unfold cond_broadcast, set_worker; cbn [main set_main set_pool set_threads set_env threads pool]; try done.
  - destruct (init_start_cases wc cap s) as [[e ->]|(_ & _ & e & ->)]; cbn.
    + intros i w. cbn. rewrite Hc. done.
    + rewrite Hc. cbn. lia.
  - rewrite length_app. cbn. lia.
  - lia.
  - rewrite length_fmap. destruct Hc as [Hl _]. split; [lia|]. intros i w Hi Hw%lookup_lt_Some. rewrite length_fmap in Hw. lia.
  - destruct Hc as [Hl Hc]. split; [lia|]. intros i w Hi Hw. destruct (decide (i = k)) as [->|]; [congruence|].
    apply (Hc i w); [lia|done].
  - intros i w. apply Hc. lia.
  - destruct (put_job_mutex _ _ _ Hp) as (_ & _ & Hwc & _). cbn. by rewrite Hwc.
  - rewrite length_insert. done.
  - by rewrite length_fmap.
  - destruct d; [split_and!; [done|lia|intros; lia]|done].
  - destruct Hc as (Hl & Hle & Hc). split_and!; [done|lia|]. intros i w Hi Hw.
    destruct (decide (i = k)) as [->|]; [congruence|]. apply (Hc i w); [lia|done].
  - destruct Hc as (Hl & Hle & Hc). intros i w Hw. apply (Hc i w); [|done]. apply lookup_lt_Some in Hw. cbn in Hw. lia.
Qed.

(** ** Nothing undefined *)

Lemma excl_mutex s : excl s → live (main s) = true → ∃ h, mutex (pool s) = Some h.
Proof. unfold excl. intros He Hl. rewrite Hl in He. destruct He as (h & Hh & _). by exists h. Qed.

Lemma worker_moves_defined i s s' :
  worker_moves i s s' → live (main s) = true → excl s → ring s → defined s → defined s'.
Proof.
  intros Hm Hl He Hr [Hd Hmain]. destruct (worker_moves_frame i s s' Hm) as (_ & _ & _ & _ & _ & Em' & _).
  split; [|by rewrite Em'].
  destruct (excl_mutex s He Hl) as [h Hh]. destruct (Hr Hl) as (_ & _ & q & Hq & _).
  assert (∀ j w, w ≠ W_undefined → (<[i := w]> (threads s)) !! j ≠ Some W_undefined) as Hset.
  { intros j w Hw Hj. apply list_lookup_insert_Some in Hj as [(_ & Hx & _)|[_ Hj]]; [by destruct Hw|by apply (Hd j)]. }
  worker_cases Hm;
    try (intros j; by apply Hset).
  - congruence.
  - destruct (ring_take (pool s) q Hq Hz) as (? & ? & ? & _ & ? & _). congruence.
Qed.

Lemma main_moves_defined s s' : main_moves s s' → excl s → ring s → counts s → defined s → defined s'.
Proof.
  intros Hm He Hr Hc [Hd Hmain].
  assert (∀ k, threads s !! k = None → length (threads s) ≤ k) as Hnone by (intros k; apply lookup_ge_None_1).
  main_cases Hm;
    try (split; [exact Hd|done]).
  - destruct (init_start_cases wc cap s) as [[e ->]|(_ & _ & e & ->)]; split; [exact Hd|done|exact Hd|done].
  - split; [|done]. intros i [Hi|[_ Hi]]%lookup_app_Some; [by apply (Hd i)|].
    by destruct (i - length (threads s)) as [|[|]].
  - split; [|done]. intros i Hi. cbn in Hi. apply list_lookup_fmap_Some in Hi as (w & Hx & Hw). case_decide; [done|].
    subst w. by apply (Hd i).
  - split; [|done]. intros j Hj. cbn in Hj. apply list_lookup_insert_Some in Hj as [(_ & Hx & _)|[_ Hj]]; [done|by apply (Hd j)].
  - split; [|done]. intros i Hi. cbn in Hi. apply list_lookup_fmap_Some in Hi as (w & Hx & Hw). case_decide; [done|].
    subst w. by apply (Hd i).
  - split; [exact Hd|by destruct d].
  - destruct (excl_mutex s He) as [h Hh]; [|congruence]. by destruct Em as [[? Em]|[? Em]]; rewrite Em.
  - unfold ring in Hr. rewrite Em in Hr. destruct (Hr eq_refl) as (_ & _ & q & Hq & _).
    destruct (ring_put fd (pool s) q Hq Hz) as (? & ? & _). congruence.
  - apply Hnone in Hx. unfold counts in Hc. destruct Em as [Em|[Em Hk]]; rewrite Em in Hc; lia.
Qed.

(** ** The invariant *)

Record safe (s : System) : Prop := MkSafe {
  safe_excl : excl s;
  safe_ring : ring s;
  safe_fresh : fresh s;
  safe_counts : counts s;
  safe_defined : defined s
}.

Lemma safe_start wc cap calls results : safe (start wc cap calls results).
Proof. split; done. Qed.

Lemma moves_safe s s' : moves s s' → safe s → safe s'.
Proof.
  intros [i s1 Hm|s1 Hm] [He Hr Hf Hc Hd].
  - assert (live (main s) = true) as Hl by by eapply worker_moves_live.
    assert (defined s1) by by eapply worker_moves_defined.
    split; [by eapply worker_moves_excl|by eapply worker_moves_ring|by eapply worker_moves_fresh|by eapply worker_moves_counts|done].
  - assert (defined s1) by by eapply main_moves_defined.
    split; [by eapply main_moves_excl|by eapply main_moves_ring|by eapply main_moves_fresh|by eapply main_moves_counts|done].
Qed.

(** What every step preserves holds in every reachable state. *)
Lemma reachable_invariant (P : System → Prop) wc cap calls results s :
  reachable wc cap calls results s → P (start wc cap calls results) →
  (∀ s s', moves s s' → safe s → P s → P s') → P s.
Proof.
  intros [evs Hrun] Hstart Hstep.
  cut (∀ evs s0, safe s0 → P s0 → run evs s0 = Some s → P s).
  { intros H. eapply (H evs); [apply safe_start|exact Hstart|exact Hrun]. }
  clear evs Hrun. induction evs as [|ev evs IH]; intros s0 Hs Hp; cbn [run].
  - by intros [= <-].
  - destruct (step ev s0) as [s1|] eqn:E; [|done]. cbn [mbind option_bind]. apply step_moves in E.
    apply IH; [by eapply moves_safe|by eapply Hstep].
Qed.

Lemma reachable_safe wc cap calls results s : reachable wc cap calls results s → safe s.
Proof. intros Hr. eapply (reachable_invariant safe); [done|apply safe_start|intros ?? Hm _; by apply moves_safe]. Qed.
