(* ===== verification/ThreadPoolRuns.v ===== *)
(** Where the runs of the thread pool lead: every descriptor taken is handled and
    closed once, no wake-up is lost, nobody blocks for ever unless the creation
    of a worker failed, and runs are of bounded length. *)
From stdpp Require Import base list gmap.
From Stdlib Require Import ZArith Lia.
From S2P Require Import Prelude ThreadPool ThreadPoolInv ThreadPoolSafe.

(** ** Every descriptor is accounted for *)

Definition in_flight (w : worker_pc) : list Z := match w with W_handle fd | W_close fd => [fd] | _ => [] end.
Definition closing (w : worker_pc) : list Z := match w with W_close fd => [fd] | _ => [] end.

(** What was taken has been closed or is with a worker, what was handled has
    been closed or is about to be. *)
Definition accounts (s : System) : Prop :=
  taken s ≡ₚ closed s ++ (threads s ≫= in_flight) ∧ handled s ≡ₚ closed s ++ (threads s ≫= closing).

Lemma bind_insert {A B} (f : A → list B) (l : list A) i w0 w : l !! i = Some w0 →
  (<[i := w]> l ≫= f) ++ f w0 ≡ₚ (l ≫= f) ++ f w.
Proof.
  revert i. induction l as [|x l IH]; intros [|i]; cbn; try done.
  - intros [= ->]. solve_Permutation.
  - intros Hi. rewrite <- !app_assoc. by rewrite (IH i Hi).
Qed.

Lemma bind_insert_same {A B} (f : A → list B) (l : list A) i w0 w : l !! i = Some w0 → f w0 = f w →
  (<[i := w]> l ≫= f) ≡ₚ (l ≫= f).
Proof. intros Hi Hf. eapply Permutation_app_inv_r. rewrite (bind_insert f l i w0 w Hi), Hf. done. Qed.

Lemma bind_broadcast {B} (f : worker_pc → list B) s : f W_wait = f W_relock →
  threads (cond_broadcast s) ≫= f = threads s ≫= f.
Proof.
  intros Hf. unfold cond_broadcast, set_threads. cbn [threads]. induction (threads s) as [|w l IH]; [done|]. cbn.
  f_equal; [by case_decide; subst|exact IH].
Qed.

Lemma worker_moves_accounts i s s' : worker_moves i s s' → accounts s → accounts s'.
Proof.
  intros Hm [Htaken Hhandled]. unfold accounts.
  worker_cases Hm; try destruct Hor as [->| ->];
    cbn [taken closed handled threads set_worker set_threads log_taken log_handled log_closed unlock set_pool];
    try (by rewrite !(bind_insert_same _ _ _ _ _ Hw)).
  - rewrite (bind_insert_same closing _ _ _ (W_handle fd) Hw) by done. split; [|done].
    rewrite Htaken. pose proof (bind_insert in_flight _ _ _ (W_handle fd) Hw) as Hb. cbn in Hb. rewrite app_nil_r in Hb.
    rewrite Hb. by rewrite app_assoc.
  - rewrite (bind_insert_same in_flight _ _ _ (W_close fd) Hw) by done. split; [done|].
    rewrite Hhandled. pose proof (bind_insert closing _ _ _ (W_close fd) Hw) as Hb. cbn in Hb. rewrite app_nil_r in Hb.
    rewrite Hb. by rewrite app_assoc.
  - pose proof (bind_insert in_flight _ _ _ W_lock Hw) as Hb. pose proof (bind_insert closing _ _ _ W_lock Hw) as Hc.
    cbn in Hb, Hc. rewrite app_nil_r in Hb, Hc. rewrite Htaken, Hhandled, <- Hb, <- Hc. split; solve_Permutation.
Qed.

Lemma main_moves_accounts s s' : main_moves s s' → counts s → accounts s → accounts s'.
Proof.
  intros Hm Hcnt Ha. pose proof Ha as [Ht Hh]. unfold accounts in *.
  main_cases Hm;
    try exact Ha.
  - destruct (init_start_cases wc cap s) as [[e ->]|(_ & _ & e & ->)]; exact Ha.
  - cbn [taken closed handled threads set_main set_threads set_env]. rewrite !bind_app. cbn. by rewrite !app_nil_r.
  - cbn [taken closed handled set_main cond_broadcast set_threads].
    change (threads (set_main (M_fail_join k) (cond_broadcast s))) with (threads (cond_broadcast s)).
    by rewrite !bind_broadcast.
  - cbn [taken closed handled threads set_main set_worker set_threads]. by rewrite !(bind_insert_same _ _ _ _ _ Hi).
  - change (threads (set_main (M_stop_unlock d) (cond_broadcast s))) with (threads (cond_broadcast s)).
    by rewrite !bind_broadcast.
Qed.

(** ** Stopping *)

Definition failing (pc : main_pc) : bool :=
  match pc with M_fail_broadcast _ | M_fail_join _ | M_fail_free => true | _ => false end.
(** After a stop has been asked for. *)
Definition stopping (pc : main_pc) : bool :=
  match pc with
  | M_fail_broadcast _ | M_fail_join _ | M_fail_free | M_stop_broadcast _ | M_stop_unlock _ | M_join _ | M_free => true
  | _ => false
  end.
Definition at_broadcast (pc : main_pc) : bool := match pc with M_stop_broadcast _ => true | _ => false end.

Record stop_facts (s : System) : Prop := MkStop {
  stop_set : stopping (main s) = true → stop_requested (pool s) = true;
  (* a worker returns only when it is asked to stop and nothing is queued *)
  stop_exit : W_exit ∈ threads s → stop_requested (pool s) = true ∧ size (pool s) = 0;
  (* a worker about to wait has seen the queue empty *)
  stop_before : W_before_wait ∈ threads s → size (pool s) = 0;
  (* once asked to stop, unless by a failed [thread_pool_init], no worker goes to wait ... *)
  stop_awake : failing (main s) = false → stop_requested (pool s) = true → (W_before_wait ∉ threads s);
  (* ... and, past the broadcast, none waits *)
  stop_woken : failing (main s) = false → at_broadcast (main s) = false → stop_requested (pool s) = true →
    (W_wait ∉ threads s)
}.

Definition stops (s : System) : Prop := live (main s) = true → stop_facts s.

Lemma insert_other {A} (l : list A) i w v : v ≠ w → v ∈ <[i := w]> l → v ∈ l.
Proof. intros Hne Hv. apply list_elem_of_lookup in Hv as [j Hj]. apply list_lookup_insert_Some in Hj as [(_ & <- & _)|[_ Hj]];
  [done|by eapply list_elem_of_lookup_2]. Qed.

(** One critical section at a time. *)
Lemma excl_unique s t t' : excl s → live (main s) = true → holds_mutex t s = true → holds_mutex t' s = true → t = t'.
Proof.
  unfold excl. intros He Hl. rewrite Hl in He. destruct He as (h & _ & Hiff).
  intros H1%Hiff H2%Hiff. congruence.
Qed.

Lemma no_before_wait s t : excl s → live (main s) = true → holds_mutex t s = true →
  (∀ i, t = T_worker i → threads s !! i = Some W_test) → (W_before_wait ∉ threads s).
Proof.
  intros He Hl Ht Hw Hin. apply list_elem_of_lookup in Hin as [j Hj].
  assert (t = T_worker j) as -> by (eapply excl_unique; [done..|]; unfold holds_mutex; by rewrite Hj).
  specialize (Hw j eq_refl). congruence.
Qed.

Lemma worker_moves_stops i s s' : worker_moves i s s' → live (main s) = true → excl s → stops s → stops s'.
Proof.
  intros Hm Hl He Hst _. destruct (Hst Hl) as [Hset Hexit Hbefore Hawake Hwoken].
  destruct (worker_moves_frame i s s' Hm) as (_ & _ & _ & _ & _ & Em & _ & _ & _ & _ & _ & Hstop).
  split; rewrite ?Em, ?Hstop; try done.
  - worker_cases Hm; intros Hin;
      try done; try (apply insert_other in Hin; [|done]); try by apply Hexit.
    + exfalso. by apply Hz, Hexit.
  - worker_cases Hm; intros Hin;
      try done; try (apply insert_other in Hin; [|done]); try by apply Hbefore.
    exfalso. by apply Hz, Hbefore.
  - intros Hf Hreq Hin. specialize (Hawake Hf Hreq). apply Hawake.
    worker_cases Hm;
      try (by apply insert_other in Hin). congruence.
  - intros Hf Hb Hreq Hin. specialize (Hawake Hf Hreq). specialize (Hwoken Hf Hb Hreq).
    worker_cases Hm;
      try (by apply insert_other in Hin). apply Hawake. by eapply list_elem_of_lookup_2.
Qed.

Lemma broadcast_in s w : w ∈ threads (cond_broadcast s) → w ≠ W_wait ∧ (w = W_relock ∨ w ∈ threads s).
Proof.
  unfold cond_broadcast. cbn. intros (v & -> & Hv)%list_elem_of_fmap. case_decide; [split; [done|by left]|split; [done|by right]].
Qed.

Lemma main_moves_stops s s' : main_moves s s' → excl s → counts s → stops s → stops s'.
Proof.
  intros Hm He Hcnt Hst. unfold stops in *.
  main_cases Hm; try done;
    try (rewrite Em in Hst; intros _; destruct (Hst eq_refl) as [Hset Hexit Hbefore Hawake Hwoken]; rewrite Em in *);
    try (split; cbn; done).
  - destruct (init_start_cases wc cap s) as [[e ->]|(_ & _ & e & ->)]; [done|]. intros _.
    unfold counts in Hcnt. rewrite Em in Hcnt. split; cbn; rewrite ?Hcnt; try done; by intros ?%elem_of_nil.
  - assert (∀ w, w ≠ W_lock → w ∈ threads s ++ [W_lock] → w ∈ threads s) as Hin.
    { intros w Hw [?|?%list_elem_of_singleton]%elem_of_app; done. }
    split; cbn; try done; intros; repeat (match goal with H : _ ∈ _ ++ _ |- _ => apply Hin in H; [|done] end); try auto.
    + intros Hb%Hin; [|done]. by apply Hawake in Hb.
    + intros Hb%Hin; [|done]. by apply Hwoken in Hb.
  - split; cbn -[cond_broadcast]; try done. by intros [_ Hz]%Hexit.
  - split; cbn; try done; intros [Hne [Hx|Hin]]%broadcast_in; try done; auto.
  - destruct (put_job_mutex _ _ _ Hp) as (_ & Hs' & _). split; cbn; try done; rewrite ?Hs', ?Hs; try done.
    + intros Hin%Hexit. destruct Hin. congruence.
    + intros Hin. exfalso. revert Hin. apply (no_before_wait s T_main He); [by rewrite Em|cbn; by rewrite Em|done].
  - split; cbn; try done.
    + intros Hin%insert_other; [by apply Hexit|done].
    + intros Hin%insert_other; [by apply Hbefore|done].
    + intros Hf Hs Hin%insert_other; [by apply Hawake in Hin|done].
    + intros Hf Hb Hs Hin%insert_other; [by apply Hwoken in Hin|done].
  - split; cbn; try done; [by intros [_ Hz]%Hexit|].
    intros _ _. apply (no_before_wait s T_main He); [by rewrite Em|cbn; by rewrite Em|done].
  - split; cbn; try done.
    + intros [_ [Hx|Hin]]%broadcast_in; [done|by apply Hexit].
    + intros [_ [Hx|Hin]]%broadcast_in; [done|by apply Hbefore].
    + intros Hf Hs [_ [Hx|Hin]]%broadcast_in; [done|by apply Hawake in Hin].
    + intros _ _ _ [Hne _]%broadcast_in. done.
  - destruct d; split; cbn; done.
Qed.

(** ** No wake-up is lost *)

Definition active (w : worker_pc) : bool :=
  match w with W_wait | W_before_wait | W_exit | W_undefined => false | _ => true end.

(** If something is queued, and its signal has been given, some worker is on its
    way to the queue. *)
Definition not_lost (s : System) : Prop :=
  live (main s) = true → size (pool s) ≠ 0 → main s ≠ M_submit_signal → ∃ i w, threads s !! i = Some w ∧ active w = true.

Lemma active_set s i w0 w : threads s !! i = Some w0 → active w = true →
  ∃ j v, <[i := w]> (threads s) !! j = Some v ∧ active v = true.
Proof. intros Hi Hw. exists i, w. split; [|done]. apply list_lookup_insert_eq. by eapply lookup_lt_Some. Qed.

Lemma worker_moves_not_lost i s s' : worker_moves i s s' → live (main s) = true → defined s' → stops s →
  not_lost s → not_lost s'.
Proof.
  intros Hm Hl [Hd _] Hst Hnl _. destruct (Hst Hl) as [_ _ Hbefore _ _]. specialize (Hnl Hl).
  worker_cases Hm; intros Hsz Hsig;
    try (by eapply active_set); try done.
  - destruct Hsz. apply Hbefore. by eapply list_elem_of_lookup_2.
  - destruct (Hd i). cbn. by eapply list_lookup_insert_eq, lookup_lt_Some.
  - destruct (Hd i). cbn. by eapply list_lookup_insert_eq, lookup_lt_Some.
Qed.

Lemma main_moves_not_lost s s' :
  main_moves s s' → ring s → counts s → defined s → stops s → not_lost s → not_lost s'.
Proof.
  intros Hm Hr Hc [Hd _] Hst Hnl. unfold not_lost, stops in *.
  main_cases Hm; try done;
    try (rewrite Em in *; specialize (Hnl eq_refl); intros _ Hsz _; cbn in Hsz; by apply (Hnl Hsz)).
  - destruct (init_start_cases wc cap s) as [[e ->]|(_ & _ & e & ->)]; [done|]. by intros _ [].
  - rewrite Em in *. intros _ Hsz _. destruct (Hnl eq_refl Hsz) as (i & w & Hi & Hw); [done|].
    exists i, w. split; [|done]. cbn. by apply lookup_app_l_Some.
  - rewrite Em in *. intros _ Hsz _. destruct (Hnl eq_refl Hsz) as (i & w & Hi & Hw); [done|].
    exists i, w. split; [|done]. cbn. rewrite list_lookup_fmap, Hi. cbn. case_decide; [by subst|done].
  - rewrite Em in *. intros _ Hsz _. cbn. by eapply active_set.
  - rewrite Em in *. intros _ Hsz _. cbn in *. destruct (Hst eq_refl) as [_ Hexit Hbefore _ _].
    unfold counts in Hc. rewrite Em in Hc. unfold ring in Hr. rewrite Em in Hr. destruct (Hr eq_refl) as (_ & Hwc & _).
    destruct (lookup_lt_is_Some_2 (threads s) 0) as [w Hw]; [lia|]. exists 0, w. split; [done|].
    pose proof (list_elem_of_lookup_2 _ _ _ Hw) as Hin. destruct w; try done.
    + by apply Hbefore in Hin.
    + by apply Hexit in Hin as [_ ?].
    + by apply Hd in Hw.
  - rewrite Em in *. intros _ Hsz _. destruct (Hnl eq_refl Hsz) as (i & w & Hi & Hw); [done|].
    exists i, w. split; [|done]. cbn. rewrite list_lookup_fmap, Hi. cbn. case_decide; [by subst|done].
Qed.

(** ** At the end *)

(** When [thread_pool_destroy] has joined every worker, the queue was empty. *)
Definition drained (s : System) : Prop :=
  match main s with M_free | M_end true => accepted s = taken s | _ => True end.

Lemma worker_moves_drained i s s' : worker_moves i s s' → counts s → drained s → drained s'.
Proof.
  intros Hm Hc Hdr. destruct (worker_moves_frame i s s' Hm) as (w0 & w & Hi & Hne & _ & Em & _).
  unfold drained, counts in *. rewrite Em. destruct (main s) as [| | | | | | | | | | | | | | | |[]|]; try done; by apply Hc in Hi.
Qed.

Lemma main_moves_drained s s' : main_moves s s' → ring s → counts s → stops s → drained s → drained s'.
Proof.
  intros Hm Hr Hc Hst Hdr. unfold drained in *.
  main_cases Hm;
    rewrite ?Em in *; try done.
  - by destruct (init_start_cases wc cap s) as [[e ->]|(_ & _ & e & ->)].
  - by destruct d.
  - unfold ring, counts, stops in *. rewrite Em in *. destruct (Hr eq_refl) as (_ & Hwc & q & Hq & Hacc).
    destruct (Hst eq_refl) as [_ Hexit _ _ _]. destruct Hc as (Hl & Hle & Hc).
    destruct (lookup_lt_is_Some_2 (threads s) 0) as [w Hw]; [lia|].
    assert (w = W_exit) as -> by (apply (Hc 0); [lia|done]).
    destruct Hexit as [_ Hz]; [by eapply list_elem_of_lookup_2|].
    apply ring_length in Hq. cbn. rewrite Hacc. destruct q; [by rewrite app_nil_r|]. cbn in Hq. lia.
Qed.

(** ** All together *)

Record sound (s : System) : Prop := MkSound {
  sound_safe : safe s;
  sound_accounts : accounts s;
  sound_stops : stops s;
  sound_not_lost : not_lost s;
  sound_drained : drained s
}.

Lemma moves_sound s s' : moves s s' → sound s → sound s'.
Proof.
  intros Hm [Hs Ha Hst Hnl Hdr]. pose proof (moves_safe s s' Hm Hs) as Hs'. destruct Hs as [He Hr Hf Hc Hd].
  destruct Hm as [i s1 Hm|s1 Hm].
  - assert (live (main s) = true) as Hl by by eapply worker_moves_live.
    split; [done|by eapply worker_moves_accounts|by eapply worker_moves_stops| |by eapply worker_moves_drained].
    eapply worker_moves_not_lost; [done..|by apply Hs'|done|done].
  - split; [done|by eapply main_moves_accounts|by eapply main_moves_stops|by eapply main_moves_not_lost|by eapply main_moves_drained].
Qed.

Lemma reachable_sound wc cap calls results s : reachable wc cap calls results s → sound s.
Proof.
  intros Hr. eapply (reachable_invariant sound); [done| |intros ?? Hm _; by apply moves_sound].
  split; [apply safe_start|split; done|done|done|done].
Qed.
