(* ===== verification/ThreadPoolLive.v ===== *)
(** The thread pool makes progress: where it cannot move it has nothing left to
    do, and it moves only so many times. *)
From stdpp Require Import base list gmap.
From Stdlib Require Import ZArith Lia.
From S2P Require Import Prelude ThreadPool ThreadPoolInv ThreadPoolSafe ThreadPoolRuns.

(** ** Progress *)

(** No thread can move, unless a worker wakes for no reason. *)
Definition stuck (s : System) : Prop :=
  (∀ waiter, step (Ev_main waiter) s = None) ∧ ∀ i, step (Ev_worker i) s = None.

(** The owner has no call to make, and the workers have nothing to do. *)
Definition at_rest (s : System) : Prop :=
  main s = M_idle ∧ script s = [] ∧ size (pool s) = 0 ∧ ∀ i w, threads s !! i = Some w → w = W_wait ∨ w = W_exit.

Lemma worker_stuck i s w : thread_pool_worker_main i s = None → threads s !! i = Some w → w ≠ W_undefined →
  mutex (pool s) ≠ None →
  w = W_wait ∨ w = W_exit ∨ ((w = W_lock ∨ w = W_relock) ∧ ∃ t, mutex (pool s) = Some (Some t)).
Proof.
  unfold thread_pool_worker_main, lock. intros Hst Hw Hne Hmx. rewrite Hw in Hst. cbn [mbind option_bind] in Hst.
  destruct w; try done; try (by left); try (by right; left).
  - right; right. destruct (mutex (pool s)) as [[t|]|]; try done. split; [by left|by exists t].
  - repeat case_match; done.
  - right; right. destruct (mutex (pool s)) as [[t|]|]; try done. split; [by right|by exists t].
Qed.

(** When no worker can move, none is in a critical section. *)
Lemma stuck_workers s : safe s → live (main s) = true → (∀ i, thread_pool_worker_main i s = None) →
  main_holds (main s) = false →
  mutex (pool s) = Some None ∧ ∀ i w, threads s !! i = Some w → w = W_wait ∨ w = W_exit.
Proof.
  intros [He _ _ _ [Hd _]] Hl Hst Hmain. pose proof He as He'. unfold excl in He'. rewrite Hl in He'.
  destruct He' as (h & Hh & Hiff).
  assert (h = None) as ->.
  { destruct h as [t|]; [|done]. exfalso. assert (holds_mutex t s = true) as Ht by by apply Hiff.
    destruct t as [|i]; cbn in Ht; [congruence|]. destruct (threads s !! i) as [w|] eqn:Ew; [|done].
    destruct (worker_stuck i s w (Hst i) Ew) as [->|[->|[[->| ->] _]]]; try done; [|congruence].
    intros ->. by apply (Hd i). }
  split; [done|]. intros i w Hw.
  destruct (worker_stuck i s w (Hst i) Hw) as [?|[?|[_ [t Ht]]]]; [|congruence|by left|by right|congruence].
  intros ->. by apply (Hd i).
Qed.

Lemma stuck_cases s : sound s → failing (main s) = false → stuck s →
  (∃ created, main s = M_end created) ∨ at_rest s.
Proof.
  intros [Hs _ Hst Hnl _] Hf [Hmain Hwork]. cbn [step] in *.
  destruct (main_holds (main s)) eqn:Hh.
  { pose proof (Hmain None) as Hn. unfold main_step, thread_pool_submit, thread_pool_shutdown in Hn.
    destruct (main s) eqn:Em; try done; rewrite ?Em in Hn; try done.
    - repeat case_match; done.
    - exfalso. destruct (decide (W_wait ∈ threads s)) as [Hin|Hin].
      + apply list_elem_of_lookup in Hin as [i Hi]. specialize (Hmain (Some i)).
        unfold main_step, thread_pool_submit, cond_signal in Hmain. rewrite Em, decide_True in Hmain by done. done.
      + unfold cond_signal in Hn. rewrite decide_False in Hn by done. done. }
  destruct (main s) as [wc cap|k|k|k| | |fd|fd| | |d|d|d|d|k| |b|] eqn:Em; try done;
    pose proof (Hmain None) as Hn; unfold main_step, thread_pool_init, thread_pool_submit, thread_pool_shutdown, thread_pool_destroy, lock in Hn;
    rewrite Em in Hn; try done;
    try (destruct (stuck_workers s Hs) as [Hmx Hw]; [by rewrite Em|exact Hwork|by rewrite Em|]).
  - exfalso. repeat case_match; done.
  - right. split; [done|]. destruct (script s) as [|[]] eqn:Ecs; try done. split_and!; [done| |done].
    destruct (decide (size (pool s) = 0)) as [|Hsz]; [done|]. exfalso.
    destruct Hnl as (i & w & Hi & Ha); [by rewrite Em|done|by rewrite Em|]. by destruct (Hw i w Hi) as [-> | ->].
  - by rewrite Hmx in Hn.
  - rewrite Hmx in Hn. by destruct (workers (pool s)).
  - exfalso. destruct (decide (k < worker_count (pool s))) as [Hk|]; [|done].
    destruct Hs as [_ _ _ Hc _]. unfold counts in Hc. rewrite Em in Hc. destruct Hc as (Hlen & _ & _).
    destruct (lookup_lt_is_Some_2 (threads s) k) as [w Hk']; [lia|]. rewrite Hk' in Hn.
    destruct (Hw k w Hk') as [->| ->]; [|done].
    unfold stops in Hst. rewrite Em in Hst. destruct (Hst eq_refl) as [Hset _ _ _ Hwoken].
    rewrite Em in *. apply Hwoken; [done..|by apply Hset|by eapply list_elem_of_lookup_2].
  - by left; exists b.
  - destruct Hs as [_ _ _ _ [_ Hd]]. by rewrite Em in Hd.
Qed.

(** When everything has returned, everything accepted has been handled and closed. *)
Lemma ended_closed s created : sound s → main s = M_end created →
  all_exited s ∧ closed s ≡ₚ accepted s ∧ handled s ≡ₚ accepted s.
Proof.
  intros [[_ _ Hfr Hc _] [Ht Hh] _ _ Hdr] Em. unfold counts, drained, fresh in *. rewrite Em in *.
  assert (accepted s = taken s) as Hacc by (destruct created; [done|by destruct Hfr as [-> ->]]).
  assert (∀ f : worker_pc → list Z, f W_exit = [] → threads s ≫= f = []) as Hnone.
  { intros f Hf. unfold all_exited in Hc. clear - Hc Hf. induction (threads s) as [|w l IH]; [done|]. cbn.
    rewrite (Hc 0 w eq_refl), Hf. apply IH. intros i v. apply (Hc (S i)). }
  rewrite Hnone, app_nil_r in Ht by done. rewrite Hnone, app_nil_r in Hh by done.
  rewrite Hacc, Ht. split_and!; [done..|]. by rewrite Hh.
Qed.

(** At rest, too. *)
Lemma rest_closed s : sound s → at_rest s → closed s ≡ₚ accepted s ∧ handled s ≡ₚ accepted s.
Proof.
  intros [[_ Hr _ _ _] [Ht Hh] _ _ _] (Em & _ & Hsz & Hw). unfold ring in Hr. rewrite Em in Hr.
  destruct (Hr eq_refl) as (_ & _ & q & Hq & Hacc). apply ring_length in Hq. rewrite Hsz in Hq.
  apply nil_length_inv in Hq. subst q. rewrite app_nil_r in Hacc.
  assert (∀ f : worker_pc → list Z, f W_exit = [] → f W_wait = [] → threads s ≫= f = []) as Hnone.
  { intros f Hf Hf'. clear - Hw Hf Hf'. induction (threads s) as [|w l IH]; [done|]. cbn.
    replace (f w) with (@nil Z) by (by destruct (Hw 0 w eq_refl) as [->| ->]).
    apply IH. intros i v. apply (Hw (S i)). }
  rewrite Hnone, app_nil_r in Ht by done. rewrite Hnone, app_nil_r in Hh by done.
  rewrite Hacc, Ht. split; [done|]. by rewrite Hh.
Qed.

(** ** Bounded runs *)

(** What is left to do for a worker, if nothing is queued and nobody wakes it; for
    a call; and for the owner, with [n] workers. *)
Definition worker_cost (w : worker_pc) : nat :=
  match w with
  | W_lock | W_relock => 3 | W_test => 2 | W_before_wait => 1 | W_wait | W_exit | W_undefined => 0
  | W_handle _ => 5 | W_close _ => 4
  end.
Definition call_cost (n : nat) (c : call) : nat := match c with Submit _ => 12 | Shutdown | Destroy => 4 * n + 8 end.
Definition main_cost (n : nat) (pc : main_pc) : nat :=
  match pc with
  | M_init _ _ => 8 * n + 5
  | M_create k => 4 * (n - k) + 4 * n + 4
  | M_fail_broadcast _ => 4 * n + 3
  | M_fail_join k => k + 2
  | M_fail_free => 1
  | M_idle => 0
  | M_submit_lock _ => 11
  | M_submit_put _ => 10
  | M_submit_signal => 5
  | M_submit_unlock => 1
  | M_stop_lock _ => 4 * n + 7
  | M_stop_set _ => 4 * n + 6
  | M_stop_broadcast _ => 4 * n + 5
  | M_stop_unlock _ => n + 4
  | M_join k => n - k + 2
  | M_free => 1
  | M_end _ | M_undefined => 0
  end.

Definition cost (n : nat) (s : System) : nat :=
  main_cost n (main s) + sum_list_with (call_cost n) (script s) + 4 * size (pool s) + sum_list_with worker_cost (threads s).

(** The number of steps a run can take, wake-ups for no reason apart. *)
Definition run_bound (wc : nat) (calls : list call) : nat := 8 * wc + 5 + sum_list_with (call_cost wc) calls.

Definition is_spurious (ev : event) : bool := match ev with Ev_spurious _ => true | _ => false end.
Definition spurious (evs : list event) : nat := sum_list_with (λ ev, if is_spurious ev then 1 else 0) evs.

(** The number of workers. *)
Definition sized (n : nat) (s : System) : Prop :=
  (∀ wc cap, main s = M_init wc cap → wc = n ∧ size (pool s) = 0 ∧ threads s = []) ∧
  (live (main s) = true → worker_count (pool s) = n) ∧ length (threads s) ≤ n.

Lemma sum_insert {A} (f : A → nat) (l : list A) i w0 w : l !! i = Some w0 →
  sum_list_with f (<[i := w]> l) + f w0 = sum_list_with f l + f w.
Proof. revert i. induction l as [|x l IH]; intros [|i]; cbn; try done; [intros [= ->]; lia|].
  intros Hi%IH. change (f x + sum_list_with f (<[i:=w]> l) + f w0 = f x + sum_list_with f l + f w). lia.
Qed.

Lemma sum_broadcast s : sum_list_with worker_cost (threads (cond_broadcast s)) ≤
  sum_list_with worker_cost (threads s) + 3 * length (threads s).
Proof.
  unfold cond_broadcast. cbn [threads set_threads]. induction (threads s) as [|w l IH]; cbn -[Nat.mul] in *; [done|].
  case_decide; cbn [worker_cost]; lia.
Qed.

Lemma worker_moves_cost n i s s' : worker_moves i s s' → live (main s) = true → ring s → defined s' →
  cost n s' + 1 ≤ cost n s + (if decide (threads s !! i = Some W_wait) then 4 else 0).
Proof.
  intros Hm Hl Hr [Hd _]. unfold cost.
  worker_cases Hm; try destruct Hor as [->| ->]; rewrite Hw;
    try (by destruct (Hd i); cbn; eapply list_lookup_insert_eq, lookup_lt_Some);
    cbn [main script pool threads set_worker set_threads set_pool unlock log_taken log_handled log_closed with_mutex size];
    match goal with |- context [<[_ := ?w']> _] => pose proof (sum_insert worker_cost _ _ _ w' Hw) as Hsum end;
    cbn [worker_cost] in Hsum; try (rewrite decide_False by done; lia); try (rewrite decide_True by done; lia).
  destruct (take_job_mutex _ _ _ Ht) as (_ & _ & _ & _ & _ & Hs). rewrite decide_False by done. lia.
Qed.

Lemma main_moves_cost n s s' : main_moves s s' → sized n s → counts s → defined s' → cost n s' + 1 ≤ cost n s.
Proof.
  intros Hm (Hinit & Hwc & Hlen) Hc [_ Hd]. unfold cost.
  main_cases Hm; try done.
  all: rewrite Em in *; try specialize (Hwc eq_refl); try (cbn -[Nat.mul]; lia).
  - destruct (Hinit wc cap eq_refl) as (-> & Hz & Hts).
    destruct (init_start_cases n cap s) as [[e ->]|(_ & _ & e & ->)]; cbn -[Nat.mul]; rewrite ?Hts; cbn -[Nat.mul]; lia.
  - cbn -[Nat.mul]. rewrite sum_list_with_app. cbn -[Nat.mul]. lia.
  - pose proof (sum_broadcast s). cbn -[Nat.mul cond_broadcast]. unfold counts in Hc. rewrite Em in Hc.
    change (size (pool (cond_broadcast s))) with (size (pool s)). change (script (cond_broadcast s)) with (script s). lia.
  - cbn -[Nat.mul]. rewrite Es. cbn -[Nat.mul]. lia.
  - cbn -[Nat.mul]. rewrite Es. destruct d; cbn -[Nat.mul]; lia.
  - destruct (put_job_mutex _ _ _ Hp) as (_ & _ & _ & _ & _ & Hsz). cbn -[Nat.mul]. lia.
  - cbn -[Nat.mul]. pose proof (sum_insert worker_cost _ _ _ W_relock Hi) as Hsum. cbn [worker_cost] in Hsum. lia.
  - pose proof (sum_broadcast s). cbn -[Nat.mul cond_broadcast].
    change (size (pool (cond_broadcast s))) with (size (pool s)). change (script (cond_broadcast s)) with (script s). lia.
  - destruct d; cbn -[Nat.mul]; lia.
Qed.

Lemma moves_sized n s s' : moves s s' → safe s → sized n s → sized n s'.
Proof.
  intros Hm [_ _ _ Hc Hd] (Hinit & Hwc & Hlen). destruct Hm as [i s' Hm|s' Hm].
  - assert (live (main s) = true) as Hl by by eapply worker_moves_live.
    destruct (worker_moves_frame i s s' Hm) as (w0 & w & _ & _ & Hts & Em & _ & _ & Hw & _).
    split_and!; rewrite ?Em, ?Hw, ?Hts, ?length_insert; [|done..]. intros wc cap Ei. by rewrite Ei in Hl.
  - unfold counts in Hc. unfold sized, cond_broadcast, set_worker.
    main_cases Hm;
      try (rewrite Em in *); cbn in *; try done; try specialize (Hwc eq_refl).
    + destruct (Hinit wc cap eq_refl) as (-> & Hz & Hts).
      by destruct (init_start_cases n cap s) as [[e ->]|(_ & _ & e & ->)].
    + rewrite length_app. cbn. split_and!; [done..|]. lia.
    + rewrite length_fmap. done.
    + destruct (put_job_mutex _ _ _ Hp) as (_ & _ & -> & _). done.
    + by rewrite length_insert.
    + by rewrite length_fmap.
    + by destruct d.
Qed.

Lemma step_cost n ev s s' : safe s → sized n s → step ev s = Some s' →
  cost n s' + 1 ≤ cost n s + (if is_spurious ev then 4 else 0).
Proof.
  intros Hs Hsz Hstep. pose proof (moves_safe s s' (step_moves ev s s' Hstep) Hs) as [_ _ _ _ Hd'].
  destruct Hs as [_ Hr _ Hc Hd]. destruct ev as [waiter|i|i]; cbn [step is_spurious] in *.
  - apply main_step_moves in Hstep. pose proof (main_moves_cost n s s' Hstep Hsz Hc Hd'). lia.
  - assert (threads s !! i ≠ Some W_wait) as Hne by (intros Hw; unfold thread_pool_worker_main in Hstep; by rewrite Hw in Hstep).
    apply worker_step_moves in Hstep. pose proof (worker_moves_live i s s' Hstep Hc Hd) as Hl.
    pose proof (worker_moves_cost n i s s' Hstep Hl Hr Hd') as Hcost. by rewrite decide_False in Hcost.
  - case_decide as Hw; [|done]. injection Hstep as <-.
    assert (worker_moves i s (set_worker i W_relock s)) as Hm by by apply WM_wake.
    pose proof (worker_moves_cost n i s _ Hm (worker_moves_live i s _ Hm Hc Hd) Hr Hd') as Hcost. by rewrite decide_True in Hcost.
Qed.

Lemma run_cost n evs s s' : safe s → sized n s → run evs s = Some s' →
  length evs + cost n s' ≤ cost n s + 4 * spurious evs.
Proof.
  revert s. induction evs as [|ev evs IH]; intros s Hs Hsz; cbn [run].
  - intros [= <-]. cbn. lia.
  - destruct (step ev s) as [s1|] eqn:E; [|done]. cbn [mbind option_bind]. intros Hrun.
    pose proof (step_cost n ev s s1 Hs Hsz E) as Hcost. apply step_moves in E.
    specialize (IH s1 (moves_safe s s1 E Hs) (moves_sized n s s1 E Hs Hsz) Hrun).
    unfold spurious in *. cbn -[Nat.mul]. destruct (is_spurious ev); lia.
Qed.

Lemma start_sized wc cap calls results : sized wc (start wc cap calls results).
Proof. split_and!; cbn; [|done|lia]. by intros wc' cap' [= -> _]. Qed.

Lemma start_cost wc cap calls results : cost wc (start wc cap calls results) = run_bound wc calls.
Proof. unfold cost, run_bound, start. cbn -[Nat.mul]. lia. Qed.

(** ** Corollaries *)

(** A critical section is entered only while the pool exists. *)
Lemma safe_holds_live s t : safe s → holds_mutex t s = true → live (main s) = true.
Proof.
  intros [_ _ _ Hc [_ Hd]] Ht. unfold counts in Hc. destruct t as [|i]; cbn in Ht; [by destruct (main s)|].
  destruct (threads s !! i) as [w|] eqn:Ew; [|done].
  destruct (main s); try done; [by rewrite Hc in Ew|by rewrite (Hc i w Ew) in Ht].
Qed.
