(* ===== verification/ThreadPoolTheorems.v ===== *)
(** What the thread pool guarantees: the queue is first in, first out and within
    bounds, no critical section is shared, every accepted descriptor is handled
    and closed exactly once, nobody blocks for ever once [thread_pool_init] has
    succeeded, runs are bounded; and a failed creation can block the owner. *)
From stdpp Require Import base list gmap.
From Stdlib Require Import ZArith Lia.
From S2P Require Import Prelude ThreadPool ThreadPoolInv ThreadPoolSafe ThreadPoolRuns ThreadPoolLive.

(** A run of two workers with a queue of one: the first worker waits, is woken
    for 7, takes it, and later takes 8, too; the pool is destroyed. *)
Definition demo_calls : list call := [Submit 7%Z; Submit 8%Z; Destroy].
Definition owner_steps (n : nat) : list event := replicate n (Ev_main None).
Definition demo_start : list event :=
  owner_steps 4 ++ replicate 3 (Ev_worker 0) ++ owner_steps 3 ++ [Ev_main (Some 0)] ++ owner_steps 1.
Definition demo_middle : list event := replicate 2 (Ev_worker 0) ++ owner_steps 5.
Definition demo_end : list event :=
  owner_steps 5 ++ replicate 8 (Ev_worker 0) ++ replicate 2 (Ev_worker 1) ++ owner_steps 4.
Definition demo_run (evs : list event) : System := default (start 2 1 demo_calls []) (run evs (start 2 1 demo_calls [])).

Lemma demo_reachable evs : run evs (start 2 1 demo_calls []) ≠ None → reachable 2 1 demo_calls [] (demo_run evs).
Proof. intros H. exists evs. unfold demo_run. by destruct (run evs _). Qed.

(** C16: The array of jobs is a bounded queue, first in, first out: what
    [thread_pool_submit] accepted is, in order, what workers have taken followed by
    the [size] descriptors the array holds from [head] on, around its end; [size]
    never exceeds the capacity, and [tail] is the place after the last. *)
Theorem queue_is_fifo (wc cap : nat) (calls : list call) (results : list bool) (s : System)
  (Hr : reachable wc cap calls results s) (Hl : live (main s) = true) :
  ∃ js, jobs (pool s) = Some js ∧ length js = queue_capacity (pool s) ∧
    accepted s = taken s ++ queued js (head (pool s)) (size (pool s)) ∧
    size (pool s) ≤ queue_capacity (pool s) ∧ head (pool s) < queue_capacity (pool s) ∧
    tail (pool s) = (head (pool s) + size (pool s)) mod queue_capacity (pool s).
Proof.
  destruct (safe_ring s (reachable_safe _ _ _ _ _ Hr) Hl) as (_ & _ & q & [(js & Hjs & Hlen & ->) Hh Hs Ht] & Hacc).
  exists js. split_and!; done.
Qed.

Lemma queue_is_fifo_witness :
  let s := demo_run (demo_start ++ demo_middle) in
  accepted s = [7%Z; 8%Z] ∧ taken s = [7%Z] ∧ ∃ js, jobs (pool s) = Some js ∧ accepted s = taken s ++ queued js (head (pool s)) (size (pool s)).
Proof.
  split; [by vm_compute|]. split; [by vm_compute|].
  destruct (queue_is_fifo 2 1 demo_calls [] (demo_run (demo_start ++ demo_middle))) as (js & Hjs & _ & Hacc & _);
    [by apply demo_reachable; vm_compute|by vm_compute|by exists js].
Defined.

(** C18: No two threads are ever between a lock and an unlock at once, and no thread
    ever uses a mutex that is not initialised, a job that is not in the array or a
    worker that was not created. *)
Theorem mutual_exclusion (wc cap : nat) (calls : list call) (results : list bool) (s : System)
  (Hr : reachable wc cap calls results s) :
  defined s ∧ ∀ t t', holds_mutex t s = true → holds_mutex t' s = true → t = t'.
Proof.
  pose proof (reachable_safe _ _ _ _ _ Hr) as Hs. split; [apply Hs|]. intros t t' Ht Ht'.
  eapply excl_unique; [apply Hs| |done|done]. by eapply safe_holds_live.
Qed.

Lemma mutual_exclusion_witness :
  let s := demo_run (demo_start ++ [Ev_worker 0]) in
  holds_mutex (T_worker 0) s = true ∧ holds_mutex T_main s = false ∧ defined s.
Proof.
  split; [by vm_compute|]. split; [by vm_compute|].
  apply (mutual_exclusion 2 1 demo_calls []). by apply demo_reachable; vm_compute.
Defined.

(** C14: Every descriptor that was accepted is handled once and closed once: at any time,
    what workers took is what they closed and what they hold, what was handled is what they closed and what they are
    about to close; and when [thread_pool_destroy] returns, or [thread_pool_init] fails, every worker has
    returned, and the descriptors handled and closed are those accepted. *)
Theorem handled_and_closed_once (wc cap : nat) (calls : list call) (results : list bool) (s : System)
  (Hr : reachable wc cap calls results s) :
  accounts s ∧ (∀ created, main s = M_end created → all_exited s ∧ closed s ≡ₚ accepted s ∧ handled s ≡ₚ accepted s).
Proof. pose proof (reachable_sound _ _ _ _ _ Hr) as Hs. split; [apply Hs|].
  intros created. by apply ended_closed.
Qed.

Lemma handled_and_closed_once_witness :
  let s := demo_run (demo_start ++ demo_middle ++ demo_end) in
  main s = M_end true ∧ accepted s = [7%Z; 8%Z] ∧ closed s ≡ₚ accepted s ∧ handled s ≡ₚ accepted s.
Proof.
  assert (main (demo_run (demo_start ++ demo_middle ++ demo_end)) = M_end true) as Hend by by vm_compute.
  split; [exact Hend|]. split; [by vm_compute|].
  refine (proj2 (proj2 (handled_and_closed_once 2 1 demo_calls [] _ _) true Hend)). by apply demo_reachable; vm_compute.
Defined.

(** C15: No deadlock and no lost wake-up: unless a worker could not be created, where no
    thread can move the owner has finished, or is idle without a call to make, and
    then every accepted descriptor has been handled and closed. *)
Theorem never_stuck (wc cap : nat) (calls : list call) (results : list bool) (s : System)
  (Hr : reachable wc cap calls results s) (Hf : failing (main s) = false) (Hst : stuck s) :
  ((∃ created, main s = M_end created) ∨ at_rest s) ∧ closed s ≡ₚ accepted s ∧ handled s ≡ₚ accepted s.
Proof.
  pose proof (reachable_sound _ _ _ _ _ Hr) as Hs. destruct (stuck_cases s Hs Hf Hst) as [[created Hend]|Hrest].
  - split; [by eauto|]. by apply (ended_closed s created).
  - split; [by right|]. by apply rest_closed.
Qed.

Lemma never_stuck_witness :
  let s := demo_run (demo_start ++ demo_middle ++ demo_end) in at_rest s ∨ ∃ created, main s = M_end created ∧ closed s ≡ₚ accepted s.
Proof.
  right. exists true. split; [by vm_compute|].
  refine (proj1 (proj2 (never_stuck 2 1 demo_calls [] (demo_run (demo_start ++ demo_middle ++ demo_end)) _ _ _)));
    [by apply demo_reachable; vm_compute|by vm_compute|].
  split; [by intros waiter; vm_compute|]. by intros [|[|i]]; vm_compute.
Defined.

(** C17: Runs end: apart from wake-ups for no reason, of which each costs at most
    four steps, a run of a pool takes no more steps than a bound that depends on
    the number of workers and on the calls alone. *)
Theorem runs_are_bounded (wc cap : nat) (calls : list call) (results : list bool) (evs : list event) (s : System)
  (Hrun : run evs (start wc cap calls results) = Some s) :
  length evs ≤ run_bound wc calls + 4 * spurious evs.
Proof.
  pose proof (run_cost wc evs _ s (safe_start wc cap calls results) (start_sized wc cap calls results) Hrun) as Hcost.
  rewrite start_cost in Hcost. lia.
Qed.

Lemma runs_are_bounded_witness : length (demo_start ++ demo_middle ++ demo_end) ≤ 61.
Proof.
  assert (run (demo_start ++ demo_middle ++ demo_end) (start 2 1 demo_calls []) = Some (demo_run (demo_start ++ demo_middle ++ demo_end))) as Hrun
    by by vm_compute.
  exact (runs_are_bounded 2 1 demo_calls [] _ _ Hrun).
Defined.

(** C40: [thread_pool_init] can block for ever when a worker cannot be created: it
    sets [stop_requested] without the mutex, so that a worker that has seen it
    unset, and has not begun to wait, waits after the broadcast, and is never
    woken while the owner joins it. *)
Theorem failed_creation_can_block :
  ∃ evs s, run evs (start 2 1 [] [true; true; true; true; true; false]) = Some s ∧ spurious evs = 0 ∧
    main s = M_fail_join 1 ∧ threads s = [W_wait] ∧ stop_requested (pool s) = true ∧ stuck s.
Proof.
  exists (owner_steps 2 ++ replicate 2 (Ev_worker 0) ++ owner_steps 2 ++ [Ev_worker 0]). eexists.
  split; [by vm_compute|]. split_and!; [by vm_compute..|]. split; [done|]. by intros [|i].
Qed.
