(* ===== verification/Server.v ===== *)
(** The server of [server/server.c] and its [main] of [server_main.c]: handling
    a client, the accept loop, creation and destruction, the command line; and
    the whole process, whose steps are those of the thread pool and of the
    thread that runs [main], and the actions of the handlers that run in the
    workers. *)
From stdpp Require Import base list gmap strings.
From Stdlib Require Import Ascii ZArith Lia.
From S2P Require Import ThreadPool Prelude Memory CLib BPTree Table Actions TableActs Sql Repl Bytes Json Api ApiActs Http.

(** ** The world *)

(** The memory, the open connections, and what was sent on those closed. *)
Record World := MkWorld {
  w_mem : Mem;
  w_conns : gmap Z Conn;
  w_closed : list (Z * cstr)
}.

Definition with_mem (m : Mem) (w : World) : World := MkWorld m (w_conns w) (w_closed w).
Definition with_conns (cs : gmap Z Conn) (w : World) : World := MkWorld (w_mem w) cs (w_closed w).

Definition on_mem {A} (c : prog Mem A) : prog World A := λ w,
  match c (w_mem w) with
  | Ok (a, m) => Ok (a, with_mem m w)
  | UB => UB | Blocked => Blocked | Killed => Killed | NoFuel => NoFuel
  end.

(** Reading from and writing to a descriptor that is not open is counted as
    undefined, although the calls would fail: the descriptor may by then be
    another connection's. *)
Definition on_conn {A} (fd : Z) (c : prog Conn A) : prog World A := λ w,
  match w_conns w !! fd with
  | None => UB
  | Some x =>
      match c x with
      | Ok (a, x') => Ok (a, with_conns (<[fd := x']> (w_conns w)) w)
      | UB => UB | Blocked => Blocked | Killed => Killed | NoFuel => NoFuel
      end
  end.

Definition close (fd : Z) : prog World unit := λ w,
  match w_conns w !! fd with
  | None => UB
  | Some x => Ok (tt, MkWorld (w_mem w) (delete fd (w_conns w)) (w_closed w ++ [(fd, c_out x)]))
  end.

(** ** Handling a client *)

(** Every call that fails is followed by the release of the buffer. *)
Definition server_build_error_body (status message : cstr) : prog Mem ptr :=
  r ← json_buffer_init stack_buffer 128;
  if negb r.1 then mret None
  else
    r ← and_then (json_buffer_append r.2 (Some (dq "{'ok':false,'status':"))) (λ buffer,
        and_then (json_buffer_append_json_string buffer (Some status)) (λ buffer,
        and_then (json_buffer_append buffer (Some (dq ",'message':"))) (λ buffer,
        and_then (json_buffer_append_json_string buffer (Some message)) (λ buffer,
        json_buffer_append buffer (Some (lit "}"))))));
    if negb r.1 then json_buffer_destroy r.2;; mret None
    else r ← json_buffer_detach r.2; mret r.1.

Definition server_http_error_status_name (status_code : Z) : cstr :=
  if decide (status_code = 404)%Z then lit "not_found"
  else if decide (status_code = 405)%Z then lit "method_not_allowed"
  else if decide (status_code = 408)%Z then lit "request_timeout"
  else if decide (status_code = 413)%Z then lit "payload_too_large"
  else if decide (status_code = 500)%Z then lit "internal_error"
  else if decide (status_code = 503)%Z then lit "queue_full"
  else lit "bad_request".

Definition json_type : cstr := lit "application/json; charset=utf-8".

(** [body = server_build_error_body(...); if (body != NULL) { send; free }] *)
Definition send_error (fd status_code : Z) (status message : cstr) : prog World unit :=
  body ← on_mem (server_build_error_body status message);
  match body with
  | None => mret tt
  | Some _ =>
      text ← on_mem (read_string body);
      on_conn fd (http_send_response status_code (Some json_type) (Some text));;
      on_mem (free (T:=byte_block) body)
  end.

Definition server_handle_client (table : ptr) (client_fd : Z) : prog World unit :=
  r ← on_conn client_fd (http_read_request (Some zero_request) (MkError (Some 400%Z) (Some (128, []))));
  let '(read_result, request, e) := r in
  if decide (read_result ≠ 0)%Z then
    let error_status := default 400%Z (error_status e) in
    let error_message := (match Http.error_message e with Some (_, s) => s | None => [] end) in
    send_error client_fd error_status (server_http_error_status_name error_status)
      (if decide (error_message ≠ []) then error_message else lit "Bad request")
  else
    match request with
    | None => ub
    | Some request =>
        r ← on_mem (api_handle_query table (Some (c_string (req_body request))) (Some (MkApi 0 None)));
        match r with
        | (true, Some api_result) =>
            text ← on_mem (read_string (body api_result));
            on_conn client_fd (http_send_response (http_status api_result) (Some json_type) (Some text));;
            on_mem (api_result_destroy (Some api_result));;
            mret tt
        | _ => send_error client_fd 500 (lit "internal_error") (lit "Failed to execute SQL")
        end
    end.

(** ** Handling a client while others are handled *)

Abbreviation world_act := (act access World).

(** A program of the memory, in the world. *)
Fixpoint on_mem_acts {A} (p : table_act A) : world_act A :=
  match p with
  | Done a => Done a
  | Act acc c k => Act acc (on_mem c) (λ x, on_mem_acts (k x))
  end.

(** The connection, the buffers and the text of a response are the thread's own. *)
Definition send_error_acts (fd status_code : Z) (status message : cstr) : world_act unit :=
  body ← atomic Local (on_mem (server_build_error_body status message));
  match body with
  | None => mret tt
  | Some _ =>
      text ← atomic Local (on_mem (read_string body));
      atomic Local (on_conn fd (http_send_response status_code (Some json_type) (Some text)));;
      atomic Local (on_mem (free (T:=byte_block) body))
  end.

Definition server_handle_client_acts (table : ptr) (client_fd : Z) : world_act unit :=
  r ← atomic Local (on_conn client_fd (http_read_request (Some zero_request) (MkError (Some 400%Z) (Some (128, [])))));
  let '(read_result, request, e) := r in
  if decide (read_result ≠ 0)%Z then
    let error_status := default 400%Z (error_status e) in
    let error_message := (match Http.error_message e with Some (_, s) => s | None => [] end) in
    send_error_acts client_fd error_status (server_http_error_status_name error_status)
      (if decide (error_message ≠ []) then error_message else lit "Bad request")
  else
    match request with
    | None => atomic Local ub
    | Some request =>
        r ← on_mem_acts (api_handle_query_acts table (Some (c_string (req_body request))) (Some (MkApi 0 None)));
        match r with
        | (true, Some api_result) =>
            text ← atomic Local (on_mem (read_string (body api_result)));
            atomic Local (on_conn client_fd (http_send_response (http_status api_result) (Some json_type) (Some text)));;
            atomic Local (on_mem (api_result_destroy (Some api_result)));;
            mret tt
        | _ => send_error_acts client_fd 500 (lit "internal_error") (lit "Failed to execute SQL")
        end
    end.

(** A handler that runs in a worker: its descriptor, the connection as the
    handler got it, how many descriptors had been taken before, how many rows
    were stored when it began, and the actions to come. *)
Record handling := Handling {
  h_fd : Z;
  h_conn : Conn;
  h_number : nat;
  h_begin : nat;
  h_todo : world_act unit
}.

(** A handler that has returned: its worker, what the handler was given, and how
    many rows were stored when it began and when it returned. *)
Record service := Service {
  s_worker : nat;
  s_fd : Z;
  s_conn : Conn;
  s_number : nat;
  s_begin : nat;
  s_end : nat
}.

(** ** The server *)

Record ServerConfig := MkConfig { port : Z; worker_count : Z; queue_capacity : Z; backlog : Z }.

Record Server := MkServer {
  listen_fd : Z;
  table : ptr;
  server_pool : System;
  config : ServerConfig;
  initialized : bool
}.

(** What [accept] meets. *)
Inductive accept_event :=
  | AcceptConn (fd : Z) (c : Conn)   (* a connection, on a descriptor that is free *)
  | AcceptIntr                       (* [EINTR] *)
  | AcceptError.

(** What the main thread does when its call of the thread pool returns. *)
Inductive continuation :=
  | K_init
  | K_create_failed
  | K_submit (fd : Z) (accepted_before : nat)
  | K_shutdown
  | K_destroy.

(** Where the main thread is. *)
Inductive server_pc :=
  | S_main (args : list cstr)        (* in [main], before [server_create] *)
  | S_call (k : continuation)        (* in a function of thread_pool.h *)
  | S_listen                         (* in [server_create], after [thread_pool_init] *)
  | S_run                            (* at the loop condition of [server_run] *)
  | S_accept                         (* at [accept] *)
  | S_destroy                        (* at [server_destroy] *)
  | S_end (code : Z)                 (* [main] has returned *)
  | S_undefined.

(** The process: the server once it exists, the world, the main thread, the flag
    [g_shutdown_requested], the connections to come, and what the coming system
    calls ([sigaction], [socket], [bind], [listen], [setsockopt]) and the coming
    calls of [thread_pool_init] return; after the lists they succeed.  [handlers]
    has the handlers that run, by worker, [served] records those that have
    returned, [listening] has the open sockets that are no connections, and
    [killed] says that a signal has ended the process. *)
Record State := MkState {
  server : option Server;
  world : World;
  pc : server_pc;
  g_shutdown_requested : bool;
  network : list accept_event;
  sys_results : list Z;
  pool_results : list bool;
  handlers : gmap nat handling;
  served : list service;
  listening : list Z;
  killed : bool
}.

Definition set_server (sv : option Server) (st : State) : State :=
  MkState sv (world st) (pc st) (g_shutdown_requested st) (network st) (sys_results st) (pool_results st) (handlers st) (served st) (listening st) (killed st).
Definition set_world (w : World) (st : State) : State :=
  MkState (server st) w (pc st) (g_shutdown_requested st) (network st) (sys_results st) (pool_results st) (handlers st) (served st) (listening st) (killed st).
Definition set_pc (p : server_pc) (st : State) : State :=
  MkState (server st) (world st) p (g_shutdown_requested st) (network st) (sys_results st) (pool_results st) (handlers st) (served st) (listening st) (killed st).
Definition set_shutdown (st : State) : State :=
  MkState (server st) (world st) (pc st) true (network st) (sys_results st) (pool_results st) (handlers st) (served st) (listening st) (killed st).
Definition set_network (l : list accept_event) (st : State) : State :=
  MkState (server st) (world st) (pc st) (g_shutdown_requested st) l (sys_results st) (pool_results st) (handlers st) (served st) (listening st) (killed st).
Definition set_results (l : list Z) (st : State) : State :=
  MkState (server st) (world st) (pc st) (g_shutdown_requested st) (network st) l (pool_results st) (handlers st) (served st) (listening st) (killed st).
Definition set_handlers (hs : gmap nat handling) (st : State) : State :=
  MkState (server st) (world st) (pc st) (g_shutdown_requested st) (network st) (sys_results st) (pool_results st) hs (served st) (listening st) (killed st).
Definition log_served (x : service) (st : State) : State :=
  MkState (server st) (world st) (pc st) (g_shutdown_requested st) (network st) (sys_results st) (pool_results st) (handlers st) (served st ++ [x]) (listening st) (killed st).
Definition set_listening (l : list Z) (st : State) : State :=
  MkState (server st) (world st) (pc st) (g_shutdown_requested st) (network st) (sys_results st) (pool_results st) (handlers st) (served st) l (killed st).
Definition kill (st : State) : State :=
  MkState (server st) (world st) (pc st) (g_shutdown_requested st) (network st) (sys_results st) (pool_results st) (handlers st) (served st) (listening st) true.

Definition with_pool (p : System) (sv : Server) : Server :=
  MkServer (listen_fd sv) (table sv) p (config sv) (initialized sv).
Definition set_pool_of (sv : Server) (p : System) (st : State) : State := set_server (Some (with_pool p sv)) st.

(** Runs sequential code of the main thread; the process is over if it is undefined
    or a signal ends it, and nothing has changed yet while it waits. *)
Definition exec {A} (c : prog World A) (st : State) (k : A → State → State) : State :=
  match c (world st) with
  | Ok (a, w) => k a (set_world w st)
  | Blocked => st
  | Killed => kill st
  | _ => set_pc S_undefined st
  end.

(** The result of the next system call. *)
Definition sys_call (success : Z) (st : State) : Z * State :=
  match sys_results st with [] => (success, st) | z :: l => (z, set_results l st) end.

(** ** Creation *)

(** [socket] gives descriptor 3 when nothing else is said. *)
Definition open_socket (st : State) : Z * State :=
  let '(fd, st) := sys_call 3 st in (fd, if decide (fd < 0)%Z then st else set_listening (listening st ++ [fd]) st).

(** [close] of a socket that is no connection; of one that is not open, it is
    counted as undefined. *)
Definition close_socket (fd : Z) (st : State) : State :=
  if decide (fd ∈ listening st) then set_listening (filter (λ fd', fd' ≠ fd) (listening st)) st else set_pc S_undefined st.

(** The result of the [setsockopt] between is not looked at. *)
Definition server_make_listen_socket (st : State) : Z * State :=
  let '(listen_fd, st) := open_socket st in
  if decide (listen_fd < 0)%Z then ((-1)%Z, st)
  else
    let '(r, st) := sys_call 0 st in
    if decide (r < 0)%Z then ((-1)%Z, close_socket listen_fd st)
    else
      let '(r, st) := sys_call 0 st in
      if decide (r < 0)%Z then ((-1)%Z, close_socket listen_fd st) else (listen_fd, st).

(** Begins a call of the thread pool. *)
Definition call_pool (sv : Server) (c : call) (k : continuation) (st : State) : State :=
  set_pc (S_call k) (set_pool_of sv (ThreadPool.set_script [c] (server_pool sv)) st).

(** [server_create] up to the call of [thread_pool_init]; [calloc] of the
    server is the first of the library calls. *)
Definition server_create (cfg : ServerConfig) (st : State) : State :=
  exec (on_mem lib_call) st (λ ok st,
    if negb ok then set_pc (S_end 1) st
    else exec (on_mem table_create) st (λ table st,
      match table with
      | None => set_pc (S_end 1) st
      | Some _ =>
          set_pc (S_call K_init) (set_server (Some (MkServer (-1) table
            (start (Z.to_nat (worker_count cfg)) (Z.to_nat (queue_capacity cfg)) [] (pool_results st)) cfg false)) st)
      end)).

(** Its end, when the thread pool is there. *)
Definition server_create_finish (sv : Server) (st : State) : State :=
  let '(fd, st) := server_make_listen_socket st in
  if decide (fd < 0)%Z then
    call_pool (MkServer fd (table sv) (server_pool sv) (config sv) (initialized sv)) Destroy K_create_failed st
  else set_pc S_run (set_server (Some (MkServer fd (table sv) (server_pool sv) (config sv) true)) st).

(** The release of the table and of the server. *)
Definition server_release (sv : Server) (code : Z) (st : State) : State :=
  exec (on_mem (table_destroy (table sv))) st (λ _ st, set_pc (S_end code) (set_server None st)).

(** ** The accept loop *)

Definition HTTP_SOCKET_IO_TIMEOUT_SECONDS : Z := 5.

(** [setsockopt] of the option that [set_option] sets. *)
Definition setsockopt (fd : Z) (set_option : Conn → Conn) (st : State) : Z * State :=
  let '(r, st) := sys_call 0 st in
  (r, if decide (r = 0)%Z then set_world (with_conns (alter set_option fd (w_conns (world st))) (world st)) st else st).

Definition server_set_client_socket_timeouts (client_fd : Z) (st : State) : bool * State :=
  let timeout := HTTP_SOCKET_IO_TIMEOUT_SECONDS in
  let '(r1, st) := setsockopt client_fd (set_rcvtimeo timeout) st in
  if decide (r1 ≠ 0)%Z then (false, st)
  else
    let '(r2, st) := setsockopt client_fd (set_sndtimeo timeout) st in
    if decide (r2 ≠ 0)%Z then (false, st) else (true, st).

(** The descriptor may be given to a new connection. *)
Definition fd_free (fd : Z) (sv : Server) (w : World) : Prop := (0 ≤ fd)%Z ∧ fd ≠ listen_fd sv ∧ w_conns w !! fd = None.
#[export] Instance fd_free_dec fd sv w : Decision (fd_free fd sv w) := _.

Definition server_run_accept (sv : Server) (st : State) : option State :=
  match network st with
  | [] => None
  | AcceptIntr :: l => Some (set_pc S_run (set_network l st))
  | AcceptError :: l => Some (call_pool sv Shutdown K_shutdown (set_network l st))
  | AcceptConn fd c :: l =>
      if decide (fd_free fd sv (world st)) then
        let st := set_world (with_conns (<[fd := c]> (w_conns (world st))) (world st)) (set_network l st) in
        let '(ok, st) := server_set_client_socket_timeouts fd st in
        if negb ok then Some (exec (close fd) st (λ _ st, set_pc S_run st))
        else Some (call_pool sv (Submit fd) (K_submit fd (length (accepted (server_pool sv)))) st)
      else None
  end.

(** After [thread_pool_submit]. *)
Definition server_run_submitted (sv : Server) (fd : Z) (accepted_before : nat) (st : State) : State :=
  if decide (length (accepted (server_pool sv)) = accepted_before) then
    exec (send_error fd 503 (lit "queue_full") (lit "Server is busy");; close fd) st (λ _ st, set_pc S_run st)
  else set_pc S_run st.

Definition server_run (sv : Server) (st : State) : option State :=
  match pc st with
  | S_run =>
      if negb (initialized sv) then Some (set_pc S_destroy st)
      else if g_shutdown_requested st then Some (call_pool sv Shutdown K_shutdown st)
      else Some (set_pc S_accept st)
  | S_accept => server_run_accept sv st
  | S_call (K_submit fd before) => Some (server_run_submitted sv fd before st)
  | S_call K_shutdown => Some (set_pc S_destroy st)
  | _ => None
  end.

(** [server_destroy]: the pool, the listening socket, the table and the server. *)
Definition server_destroy (sv : Server) (st : State) : option State :=
  match pc st with
  | S_destroy => Some (call_pool sv Destroy K_destroy st)
  | S_call K_destroy =>
      Some (server_release sv 0 (if decide (0 ≤ listen_fd sv)%Z then close_socket (listen_fd sv) st else st))
  | _ => None
  end.

(** ** The command line *)

(** [strtoul], and what [main] accepts of its result. *)
Definition parse_argument (arg : cstr) (limit : Z) : option Z :=
  let '(v, end_ptr) := strtoul arg in
  if decide (length end_ptr = length arg ∨ end_ptr ≠ [] ∨ v = 0 ∨ limit < v)%Z then None else Some v.

Definition parse_port (args : list cstr) : option Z :=
  match args with arg :: _ => parse_argument arg 65535 | [] => Some 8080%Z end.

Definition parse_optional (args : list cstr) (i : nat) (default limit : Z) : option Z :=
  match args !! i with Some arg => parse_argument arg limit | None => Some default end.

(** [args] are the arguments after the name of the program.  The port is kept in
    an [unsigned short], the backlog in an [int]. *)
Definition parse_config (port : Z) (args : list cstr) : option ServerConfig :=
  workers ← parse_optional args 1 4 ULONG_MAX;
  capacity ← parse_optional args 2 16 ULONG_MAX;
  backlog ← parse_optional args 3 32 128;
  Some (MkConfig (port mod 65536) workers capacity (to_int backlog)).

(** [SIGINT] and [SIGTERM]; [SIGPIPE] keeps its default, to end the process. *)
Definition install_signal_handlers (st : State) : bool * State :=
  let '(r1, st) := sys_call 0 st in
  if decide (r1 ≠ 0)%Z then (false, st)
  else let '(r2, st) := sys_call 0 st in (bool_decide (r2 = 0)%Z, st).

Definition server_main (args : list cstr) (st : State) : State :=
  match parse_port args with
  | None => set_pc (S_end 1) st
  | Some port =>
      let '(ok, st) := install_signal_handlers st in
      if negb ok then set_pc (S_end 1) st
      else
        match parse_config port args with
        | None => set_pc (S_end 1) st
        | Some config => server_create config st
        end
  end.

(** ** The process *)

(** Whether the call of the thread pool has returned. *)
Definition returned (p : System) : bool :=
  match main p with
  | M_idle => bool_decide (script p = [])
  | M_end _ => true
  | _ => false
  end.

(** What follows a call that has returned. *)
Definition after_call (k : continuation) (sv : Server) (st : State) : option State :=
  match k with
  | K_init =>
      match main (server_pool sv) with
      | M_end _ => Some (server_release sv 1 st)
      | _ => Some (set_pc S_listen st)
      end
  | K_create_failed => Some (server_release sv 1 st)
  | K_submit _ _ | K_shutdown => server_run sv st
  | K_destroy => server_destroy sv st
  end.

(** The next step of the main thread. *)
Definition server_main_step (waiter : option nat) (st : State) : option State :=
  match pc st, server st with
  | S_main args, _ => Some (server_main args st)
  | S_call k, Some sv =>
      if returned (server_pool sv) then after_call k sv st
      else p ← main_step waiter (server_pool sv); Some (set_pool_of sv p st)
  | S_listen, Some sv => Some (server_create_finish sv st)
  | S_run, Some sv | S_accept, Some sv => server_run sv st
  | S_destroy, Some sv => server_destroy sv st
  | S_end _, _ | S_undefined, _ => None
  | _, None => Some (set_pc S_undefined st)
  end.

(** [server_handle_client] is called for the descriptor a worker has taken. *)
Definition call_handler (i : nat) (fd : Z) (sv : Server) (st : State) : State :=
  match w_conns (world st) !! fd with
  | None => set_pc S_undefined st
  | Some c =>
      let h := Handling fd c (length (taken (server_pool sv))) (stored_rows (table sv) (w_mem (world st)))
                 (server_handle_client_acts (table sv) fd) in
      set_handlers (<[i := h]> (handlers st)) st
  end.

(** The next step of a handler: an action, or it returns.  It has none while it
    waits for a lock. *)
Definition server_handler_step (i : nat) (h : handling) (sv : Server) (st : State) : option State :=
  match h_todo h with
  | Done _ =>
      p ← thread_pool_worker_main i (server_pool sv);
      let s := Service i (h_fd h) (h_conn h) (h_number h) (h_begin h) (stored_rows (table sv) (w_mem (world st))) in
      Some (log_served s (set_handlers (delete i (handlers st)) (set_pool_of sv p st)))
  | Act _ c k =>
      match c (world st) with
      | Ok (x, w) =>
          let h' := Handling (h_fd h) (h_conn h) (h_number h) (h_begin h) (k x) in
          Some (set_handlers (<[i := h']> (handlers st)) (set_world w st))
      | Blocked => None
      | Killed => Some (kill st)
      | _ => Some (set_pc S_undefined st)
      end
  end.

(** The next step of worker [i]: of its handler while it runs one, else a step of
    the pool, which may call the handler or [close]. *)
Definition server_worker_step (i : nat) (st : State) : option State :=
  sv ← server st;
  match handlers st !! i with
  | Some h => server_handler_step i h sv st
  | None =>
      p ← thread_pool_worker_main i (server_pool sv);
      let st' := set_pool_of sv p st in
      match threads (server_pool sv) !! i, threads p !! i with
      | Some (W_close fd), _ => Some (exec (close fd) st' (λ _ st, st))
      | _, Some (W_handle fd) => Some (call_handler i fd sv st')
      | _, _ => Some st'
      end
  end.

Inductive server_event :=
  | Sv_main (waiter : option nat)
  | Sv_worker (i : nat)
  | Sv_spurious (i : nat)
  | Sv_signal.

(** [handle_signal] may run at any time after [main] has begun; before its
    installation the signal would end the process. *)
Definition handle_signal (st : State) : option State :=
  match pc st with
  | S_main _ | S_end _ | S_undefined => None
  | _ => Some (set_shutdown st)
  end.

(** A process that a signal has ended has no more steps. *)
Definition server_step (ev : server_event) (st : State) : option State :=
  if killed st then None else
  match ev with
  | Sv_main waiter => server_main_step waiter st
  | Sv_worker i => server_worker_step i st
  | Sv_spurious i => sv ← server st; p ← step (Ev_spurious i) (server_pool sv); Some (set_pool_of sv p st)
  | Sv_signal => handle_signal st
  end.

Fixpoint server_execute (evs : list server_event) (st : State) : option State :=
  match evs with [] => Some st | ev :: evs' => st' ← server_step ev st; server_execute evs' st' end.

Definition process (args : list cstr) (mem : Mem) (net : list accept_event) (results : list Z) (pool : list bool) : State :=
  MkState None (MkWorld mem ∅ []) (S_main args) false net results pool ∅ [] [] false.
