(* ===== verification/ServerPool.v ===== *)
(** The descriptors the thread pool holds for the server, and the calls the main
    thread makes of it, step by step. *)
From stdpp Require Import base list gmap strings.
From Stdlib Require Import ZArith Lia.
From S2P Require Import ThreadPool ThreadPoolInv ThreadPoolSafe ThreadPoolRuns ThreadPoolLive Server.

(** ** What the pool holds *)

(** Accepted and not yet taken; and with a worker. *)
Definition waiting (p : System) : list Z := drop (length (taken p)) (accepted p).
Definition held (p : System) : list Z := waiting p ++ (threads p ≫= in_flight).
Definition answered_fds (p : System) : list Z := threads p ≫= closing.

(** Nobody but [fd] and its worker notices. *)
Definition same_held (p p' : System) : Prop :=
  held p' ≡ₚ held p ∧ answered_fds p' ≡ₚ answered_fds p ∧ length (handled p') = length (handled p).

Lemma ring_waiting p : ring p → live (main p) = true → accepted p = taken p ++ waiting p ∧ length (waiting p) = size (pool p).
Proof.
  intros Hr Hl. destruct (Hr Hl) as (_ & _ & q & Hq & Hacc). unfold waiting. rewrite Hacc, drop_app_length.
  split; [done|]. by apply ring_length.
Qed.

Lemma main_moves_held s s' : main_moves s s' →
  same_held s s' ∧ accepted s' = accepted s ∨
  ∃ fd, main s = M_submit_put fd ∧ main s' = M_submit_signal ∧ script s' = script s ∧ accepted s' = accepted s ++ [fd] ∧
    (length (taken s) ≤ length (accepted s) → held s' ≡ₚ fd :: held s) ∧ answered_fds s' = answered_fds s ∧
    length (handled s') = length (handled s).
Proof.
  intros Hm. unfold same_held, held, waiting, answered_fds. main_cases Hm; try (by left).
  - left. destruct (init_start_cases wc cap s) as [[e ->]|(_ & _ & e & ->)]; done.
  - left. cbn. rewrite !bind_app. cbn. by rewrite !app_nil_r.
  - left. split; [|done]. cbn [taken accepted handled set_main cond_broadcast set_threads].
    change (threads (set_main (M_fail_join k) (cond_broadcast s))) with (threads (cond_broadcast s)).
    by rewrite !bind_broadcast.
  - right. exists fd. cbn. split_and!; try done. intros Hle. rewrite drop_app_le by done. solve_Permutation.
  - left. cbn. by rewrite !(bind_insert_same _ _ _ _ _ Hi).
  - left. split; [|done]. cbn [taken accepted handled set_main cond_broadcast set_threads].
    change (threads (set_main (M_stop_unlock d) (cond_broadcast s))) with (threads (cond_broadcast s)).
    by rewrite !bind_broadcast.
Qed.

Lemma sound_taken p : sound p → length (taken p) ≤ length (accepted p).
Proof.
  intros [[_ Hr Hf Hc [_ Hd]] _ _ _ Hdr]. destruct (live (main p)) eqn:Hl.
  - destruct (ring_waiting p Hr Hl) as [Hacc _]. rewrite Hacc, length_app. lia.
  - unfold fresh, drained in *. destruct (main p) as [| | | | | | | | | | | | | | | |[]|]; try done.
    + by destruct Hf as [-> ->].
    + by rewrite Hdr.
    + by destruct Hf as [-> ->].
Qed.

Lemma sound_handled p : sound p → length (handled p) ≤ length (accepted p).
Proof.
  intros Hs. pose proof (sound_taken p Hs). destruct Hs as [_ [Ht Hh] _ _ _].
  apply Permutation_length in Ht, Hh. rewrite length_app in Ht, Hh.
  assert (length (threads p ≫= closing) ≤ length (threads p ≫= in_flight)) as Hle.
  { clear. induction (threads p) as [|w l IH]; [done|]. rewrite !bind_cons, !length_app.
    assert (length (closing w) ≤ length (in_flight w)) by (destruct w; cbn; lia). lia. }
  lia.
Qed.

(** The same workers handle the same descriptors. *)
Definition same_serving (p p' : System) : Prop :=
  taken p' = taken p ∧ ∀ i fd, threads p' !! i = Some (W_handle fd) ↔ threads p !! i = Some (W_handle fd).

Lemma set_worker_serving i w0 w p : threads p !! i = Some w0 → (∀ fd, w0 ≠ W_handle fd ∧ w ≠ W_handle fd) →
  ∀ j fd, <[i := w]> (threads p) !! j = Some (W_handle fd) ↔ threads p !! j = Some (W_handle fd).
Proof.
  intros Hi Hw j fd. destruct (Hw fd) as [H0 H1]. destruct (decide (i = j)) as [<-|Hne].
  - rewrite list_lookup_insert_eq by by eapply lookup_lt_Some. rewrite Hi. split; congruence.
  - by rewrite list_lookup_insert_ne.
Qed.

Lemma broadcast_serving p i fd : threads (cond_broadcast p) !! i = Some (W_handle fd) ↔ threads p !! i = Some (W_handle fd).
Proof.
  unfold cond_broadcast, set_threads. cbn [threads]. rewrite list_lookup_fmap.
  destruct (threads p !! i) as [w|]; [|done]. cbn [fmap option_fmap option_map]. case_decide; [subst; split; congruence|done].
Qed.

Lemma main_moves_serving s s' : main_moves s s' → same_serving s s'.
Proof.
  intros Hm. unfold same_serving. main_cases Hm; try done.
  - destruct (init_start_cases wc cap s) as [[e ->]|(_ & _ & e & ->)]; done.
  - split; [done|]. intros i fd. cbn. rewrite lookup_app. destruct (threads s !! i) as [w|] eqn:Hi; [done|].
    split; [|done]. destruct (i - length (threads s)) as [|j]; [done|by destruct j].
  - split; [done|]. apply broadcast_serving.
  - split; [done|]. cbn. intros j fd. by eapply set_worker_serving.
  - split; [done|]. apply broadcast_serving.
Qed.

(** A worker takes a descriptor, or begins no handling. *)
Lemma worker_serving i s s' : thread_pool_worker_main i s = Some s' →
  (∃ fd, threads s !! i = Some W_test ∧ threads s' = <[i := W_handle fd]> (threads s) ∧ taken s' = taken s ++ [fd]) ∨
  (taken s' = taken s ∧ ∃ w, threads s' = <[i := w]> (threads s) ∧ ∀ fd, w ≠ W_handle fd).
Proof.
  intros Hm%worker_step_moves. worker_cases Hm; try (right; split; [done|]; eexists; by split). left. by exists fd.
Qed.

(** A worker's step, by where it was. *)
Lemma worker_held i p p' w : thread_pool_worker_main i p = Some p' → sound p → threads p !! i = Some w →
  match w with
  | W_handle fd => held p' ≡ₚ held p ∧ answered_fds p' ≡ₚ fd :: answered_fds p ∧ length (handled p') = S (length (handled p))
  | W_close fd => held p ≡ₚ fd :: held p' ∧ answered_fds p ≡ₚ fd :: answered_fds p' ∧ length (handled p') = length (handled p)
  | _ => same_held p p'
  end.
Proof.
  intros Hstep Hs Hw. pose proof (worker_step_moves i p p' Hstep) as Hm.
  assert (live (main p) = true) as Hl by (eapply worker_moves_live; [exact Hm|apply Hs|apply Hs]).
  pose proof (ring_waiting p (safe_ring p (sound_safe p Hs)) Hl) as [Hacc _].
  unfold same_held, held, answered_fds.
  destruct Hm as [w' Hw' [->| ->] _|Hw' _ _|Hw' _ _|fd q Hw' Hz Ht|Hw'|fd Hw'|fd Hw'|Hw'|w' Hw' [->| ->] _|Hw' _ _];
    rewrite Hw in Hw'; injection Hw' as ->;
    unfold waiting; cbn [taken accepted handled threads set_worker set_threads log_taken log_handled log_closed unlock set_pool];
    try (by rewrite !(bind_insert_same _ _ _ _ _ Hw)).
  - rewrite (bind_insert_same closing _ _ _ (W_handle fd) Hw) by done. split_and!; [|done|done].
    pose proof (bind_insert in_flight _ _ _ (W_handle fd) Hw) as Hb. cbn in Hb. rewrite app_nil_r in Hb. rewrite Hb.
    destruct (safe_ring p (sound_safe p Hs) Hl) as (_ & _ & qs & Hq & Hacc').
    destruct (ring_take (pool p) qs Hq Hz) as (fd' & qs' & p2 & -> & Ht' & _). rewrite Ht in Ht'. injection Ht' as <- <-.
    assert (drop (length (taken p ++ [fd])) (accepted p) = qs') as ->.
    { rewrite Hacc'. change (fd :: qs') with ([fd] ++ qs'). rewrite (assoc_L (++)). apply drop_app_length. }
    rewrite Hacc', drop_app_length. solve_Permutation.
  - rewrite (bind_insert_same in_flight _ _ _ (W_close fd) Hw) by done. split_and!; [done| |rewrite length_app; simpl; lia].
    pose proof (bind_insert closing _ _ _ (W_close fd) Hw) as Hb. cbn in Hb. rewrite app_nil_r in Hb. rewrite Hb. solve_Permutation.
  - pose proof (bind_insert in_flight _ _ _ W_lock Hw) as Hb. pose proof (bind_insert closing _ _ _ W_lock Hw) as Hc.
    cbn in Hb, Hc. rewrite app_nil_r in Hb, Hc. rewrite <- Hb, <- Hc. split_and!; [solve_Permutation..|done].
Qed.

Lemma spurious_held i p p' : step (Ev_spurious i) p = Some p' → same_held p p'.
Proof.
  cbn. case_decide as Hw; [|done]. intros [= <-]. unfold same_held, held, answered_fds, waiting. cbn.
  by rewrite !(bind_insert_same _ _ _ _ _ Hw).
Qed.

(** A descriptor that a worker is to handle is held once and not answered yet. *)
Lemma handle_not_answered i p fd : threads p !! i = Some (W_handle fd) → NoDup (held p) → fd ∈ held p ∧ (fd ∉ answered_fds p).
Proof.
  intros Hi [_ [_ Hnd]]%NoDup_app. pose proof (bind_insert in_flight _ _ _ W_lock Hi) as Hb. cbn in Hb. rewrite app_nil_r in Hb.
  assert (fd ∈ threads p ≫= in_flight) as Hin by (rewrite <- Hb; set_solver).
  split; [unfold held; set_solver|]. unfold answered_fds. rewrite <- Hb in Hnd. apply NoDup_app in Hnd as (_ & Hno & _).
  rewrite <- (bind_insert_same closing _ _ _ W_lock Hi) by done. intros Hc. apply (Hno fd); [|set_solver].
  revert Hc. generalize (<[i:=W_lock]> (threads p)). intros ts. rewrite !list_elem_of_bind. intros (w & Hw & Hwin).
  exists w. split; [|done]. destruct w; set_solver.
Qed.

Lemma handle_unique p i j fd : threads p !! i = Some (W_handle fd) → threads p !! j = Some (W_handle fd) → NoDup (held p) → i = j.
Proof.
  intros Hi Hj [_ [_ Hnd]]%NoDup_app. destruct (decide (i = j)) as [|Hne]; [done|exfalso].
  pose proof (bind_insert in_flight _ _ _ W_lock Hi) as Hb. cbn in Hb. rewrite app_nil_r in Hb. rewrite <- Hb in Hnd.
  apply NoDup_app in Hnd as (_ & Hno & _). apply (Hno fd); [|set_solver]. apply list_elem_of_bind.
  exists (W_handle fd). split; [set_solver|]. apply (list_elem_of_lookup_2 _ j). by rewrite list_lookup_insert_ne.
Qed.

Lemma answered_held p fd : fd ∈ answered_fds p → fd ∈ held p.
Proof.
  unfold held, answered_fds. rewrite elem_of_app, !list_elem_of_bind. intros (w & Hw & Hin). right.
  exists w. split; [|done]. destruct w; set_solver.
Qed.

Lemma close_answered i p fd : threads p !! i = Some (W_close fd) → fd ∈ held p ∧ fd ∈ answered_fds p.
Proof.
  intros Hi%list_elem_of_lookup_2. assert (fd ∈ answered_fds p) as Hin; [|by split; [apply answered_held|]].
  unfold answered_fds. rewrite list_elem_of_bind. exists (W_close fd). split; [set_solver|done].
Qed.

(** A worker takes a descriptor; and it has answered it. *)
Lemma take_descriptor i fd p p' :
  thread_pool_worker_main i p = Some p' → sound p → NoDup (held p) → threads p' !! i = Some (W_handle fd) →
  (∀ j, threads p !! j ≠ Some (W_handle fd)) ∧ threads p' = <[i := W_handle fd]> (threads p) ∧ i < length (threads p) ∧
  taken p' = taken p ++ [fd] ∧ same_held p p' ∧ fd ∈ held p ∧ fd ∉ answered_fds p.
Proof.
  intros Hstep Hs Hnd Hi'. destruct (worker_serving _ _ _ Hstep) as [(fd0 & Hi & Hts & Htk)|(_ & w1 & Hts & Hw1)].
  2:{ rewrite Hts in Hi'. apply list_lookup_insert_Some in Hi' as [(_ & -> & _)|[? Hi']]; [by destruct (Hw1 fd)|done]. }
  pose proof (lookup_lt_Some _ _ _ Hi) as Hlt.
  assert (fd0 = fd) as -> by (rewrite Hts, list_lookup_insert_eq in Hi' by done; congruence).
  destruct (worker_held i _ _ _ Hstep Hs Hi) as (Hh & Ha & Hn). rewrite <- Hh in Hnd.
  destruct (handle_not_answered i _ fd Hi' Hnd) as [Hheld Hna]. rewrite Hh in Hheld. rewrite Ha in Hna.
  split_and!; try done. intros j Hj. assert (i ≠ j) as Hne by (intros <-; congruence).
  apply Hne. eapply handle_unique; [exact Hi'| |exact Hnd]. by rewrite Hts, list_lookup_insert_ne.
Qed.

Lemma return_descriptor i fd p p' :
  thread_pool_worker_main i p = Some p' → sound p → NoDup (held p) → threads p !! i = Some (W_handle fd) →
  ∃ w, threads p' = <[i := w]> (threads p) ∧ (∀ fd', w ≠ W_handle fd') ∧ i < length (threads p) ∧
    taken p' = taken p ∧ held p' ≡ₚ held p ∧ answered_fds p' ≡ₚ fd :: answered_fds p ∧ fd ∉ answered_fds p.
Proof.
  intros Hstep Hs Hnd Hi. destruct (worker_held i _ _ _ Hstep Hs Hi) as (Hh & Ha & _).
  destruct (handle_not_answered i _ fd Hi Hnd) as [_ Hna].
  destruct (worker_serving _ _ _ Hstep) as [(fd0 & Hi' & _)|(Htk & w1 & Hts & Hw1)]; [congruence|].
  exists w1. split_and!; try done. by eapply lookup_lt_Some.
Qed.

(** When every worker has returned and nothing waits, nothing is held. *)
Lemma ended_held p created : sound p → main p = M_end created → held p = [].
Proof.
  intros [[_ _ Hf Hc _] _ _ _ Hdr] Em. unfold counts, drained, fresh in *. rewrite Em in *.
  assert (accepted p = taken p) as Hacc by (destruct created; [done|by destruct Hf as [-> ->]]).
  unfold held, waiting. rewrite Hacc, drop_all. cbn. unfold all_exited in Hc. clear - Hc.
  induction (threads p) as [|w l IH]; [done|]. cbn. rewrite (Hc 0 w eq_refl). apply IH. intros i v. apply (Hc (S i)).
Qed.

Lemma sound_set_script cs p : sound p → sound (set_script cs p).
Proof.
  intros [[He Hr Hf Hc Hd] Ha Hst Hnl Hdr]. split; [split; [exact He|exact Hr|exact Hf|exact Hc|exact Hd]|exact Ha| |exact Hnl|exact Hdr].
  intros Hl. destruct (Hst Hl) as [H1 H2 H3 H4 H5]. split; [exact H1|exact H2|exact H3|exact H4|exact H5].
Qed.

Lemma sound_start wc cap calls results : sound (start wc cap calls results).
Proof. apply (reachable_sound wc cap calls results). by exists []. Qed.

(** ** The calls of the main thread *)

(** Where the owner of the pool can be while the main thread is at [c]. *)
Definition call_ok (c : server_pc) (p : System) : Prop :=
  match c with
  | S_call K_init =>
      script p = [] ∧ accepted p = [] ∧
      match main p with
      | M_init _ _ | M_create _ | M_fail_broadcast _ | M_fail_join _ | M_fail_free | M_idle | M_end _ => True
      | _ => False
      end
  | S_call (K_submit fd a) =>
      match main p with
      | M_idle => script p = [] ∨ script p = [Submit fd] ∧ length (accepted p) = a
      | M_submit_lock fd' | M_submit_put fd' => script p = [] ∧ fd' = fd ∧ length (accepted p) = a
      | M_submit_signal | M_submit_unlock => script p = []
      | _ => False
      end
  | S_call K_shutdown =>
      match main p with
      | M_idle => script p = [] ∨ script p = [Shutdown]
      | M_stop_lock d | M_stop_set d | M_stop_broadcast d | M_stop_unlock d => script p = [] ∧ d = false
      | _ => False
      end
  | S_call K_destroy | S_call K_create_failed =>
      match main p with
      | M_idle => script p = [Destroy]
      | M_stop_lock d | M_stop_set d | M_stop_broadcast d | M_stop_unlock d => script p = [] ∧ d = true
      | M_join _ | M_free | M_end _ => True
      | _ => False
      end
  | S_listen | S_run | S_accept | S_destroy => main p = M_idle ∧ script p = []
  | _ => False
  end.

Lemma main_moves_call_ok c s s' : main_moves s s' → sound s → call_ok (S_call c) s → call_ok (S_call c) s'.
Proof.
  intros Hm [Hsafe _ _ _ _] Hc. pose proof (safe_defined s' (moves_safe s s' (Moves_main s s' Hm) Hsafe)) as [_ Hdef].
  assert (live (main s) = true → workers (pool s) = true) as Hwk by (intros Hl; apply (safe_ring s Hsafe Hl)).
  clear Hsafe. unfold call_ok in *.
  main_cases Hm; try (rewrite Em in *; destruct c; cbn in *; try done; destruct_and?; simplify_eq; by auto 6).
  - destruct (init_start_cases wc cap s) as [[e ->]|(_ & _ & e & ->)]; rewrite Em in *; destruct c; cbn in *; try done;
      destruct_and?; by split_and!.
  - rewrite Em, Es in Hc. destruct c; cbn in *; destruct_and?; try done; destruct_or?; destruct_and?; by simplify_eq.
  - rewrite Em, Es in Hc. destruct c, d; cbn in *; destruct_and?; try done; destruct_or?; destruct_and?; by simplify_eq.
  - rewrite Em in *. specialize (Hwk eq_refl). congruence.
  - by destruct Hdef.
  - by destruct Hdef.
Qed.

Lemma worker_moves_call_ok i k p p' : worker_moves i p p' → call_ok k p → call_ok k p'.
Proof.
  intros Hm. destruct (worker_moves_frame i p p' Hm) as (_ & _ & _ & _ & _ & Em & Es & Ea & _).
  unfold call_ok. by rewrite Em, Es, Ea.
Qed.
