(* ===== verification/ServerSpec.v ===== *)
(** What a client of the server gets: one response, which is the JSON reply of
    the statement it sent or the error its request has, whatever the table
    holds; nothing else in memory changes. *)
From stdpp Require Import base list gmap sorting strings.
From Stdlib Require Import Ascii ZArith Lia.
From S2P Require Import ThreadPool Prelude Memory CLib CLibProofs BPTree Index Table TableMem TableRep TableCollect TableQueries TableUpdate TableLife TableSpec Sql SqlLex SqlGrammar SqlErrors SqlSpec RowTypes Quiet Repl Bytes Json JsonProofs JsonValue Api ApiSpec Http HttpSpec HttpText Server.

(** ** The size of a body *)

Lemma json_string_bound s : length (json_string s) ≤ 6 * length s + 2.
Proof. unfold json_string. rewrite !length_app. pose proof (json_escaped_length s). simpl length. lia. Qed.

Lemma separated_bound ts n : Forall (λ t, length t ≤ n) ts → length (separated ts) ≤ (n + 1) * length ts.
Proof.
  intros Hall. induction Hall as [|t ts Ht Hall IH]; [simpl; lia|]. destruct ts as [|u ts]; [simpl; lia|].
  rewrite separated_cons, !length_app. cbn [length] in *. lia.
Qed.

(** The name is within its array. *)
Definition name_fits (r : record) : Prop := length (rec_name r) < RECORD_NAME_SIZE.

Lemma record_json_bound r : name_fits r → length (print_json (record_json r)) ≤ 500.
Proof.
  unfold name_fits, RECORD_NAME_SIZE. intros Hname. rewrite record_text, !length_app.
  pose proof (json_string_bound (rec_name r)). pose proof (print_dec_length (rec_id r)). pose proof (print_dec_length (rec_age r)).
  change (length (dq "{'id':")) with 6. change (length (dq ",'name':")) with 8. change (length (dq ",'age':")) with 7.
  change (length (lit "}")) with 1. lia.
Qed.

Lemma rows_json_bound rs act n : Forall name_fits rs → length (json_string act) ≤ 20 →
  length (print_json (JObj [key "ok" (JBool true); key "action" (JStr act); key "row_count" (JNum n);
    key "rows" (JArr (map record_json rs))])) ≤ 100 + 501 * length rs.
Proof.
  intros Hall Hact. rewrite rows_text, !length_app. pose proof (print_dec_length n).
  assert (length (separated (map print_json (map record_json rs))) ≤ 501 * length rs) as Hsep.
  { rewrite <- (length_map record_json rs), <- (length_map print_json (map record_json rs)).
    etrans; [apply (separated_bound _ 500)|lia]. rewrite map_map. apply Forall_forall. intros t (r & -> & Hr)%list_elem_of_fmap.
    rewrite Forall_forall in Hall. by apply record_json_bound, Hall. }
  change (length (dq "{'ok':true,'action':")) with 20. change (length (dq ",'row_count':")) with 13.
  change (length (dq ",'rows':[")) with 9. change (length (lit "]}")) with 2. lia.
Qed.

Lemma refused_json_bound p : refused p → length (print_json (error_json (refused_reply p))) ≤ 2000.
Proof.
  intros Hr. destruct (refused_fits p Hr) as [Hs Hm]. rewrite error_text, !length_app. cbn [rp_status rp_code rp_state rp_message refused_reply].
  pose proof (print_dec_length (p_error_code p)). pose proof (json_string_bound (p_sql_state p)).
  assert (length (p_sql_state p) ≤ 5) by (rewrite <- Hs; unfold snprintf; rewrite length_take; unfold SQL_SQLSTATE_SIZE; lia).
  assert (length (if decide (p_error_message p ≠ []) then p_error_message p else lit "Unknown SQL error") ≤ 255) as Hlen.
  { case_decide; [|simpl; lia]. rewrite <- Hm. unfold snprintf. rewrite length_take. unfold SQL_ERROR_MESSAGE_SIZE. lia. }
  pose proof (json_string_bound (if decide (p_error_message p ≠ []) then p_error_message p else lit "Unknown SQL error")).
  assert (length (json_string (api_status_name (p_status p))) ≤ 30) by (by destruct (p_status p); vm_compute; lia).
  change (length (dq "{'ok':false,'status':")) with 21. change (length (dq ",'error_code':")) with 14.
  change (length (dq ",'sql_state':")) with 13. change (length (dq ",'message':")) with 11. change (length (lit "}")) with 1. lia.
Qed.

(** The bodies of the replies. *)
Definition reply_length (rep : sql_reply) : nat := length (print_json (reply_json rep)).

Lemma rows_reply_length rs : Forall name_fits rs → reply_length (rows_reply rs) ≤ 2100 + 501 * length rs.
Proof.
  intros Hall. unfold reply_length. assert (reply_json (rows_reply rs) = success_json (rows_reply rs)) as -> by by destruct rs.
  unfold success_json. cbn [rp_action rows_reply]. rewrite decide_False by done.
  etrans; [apply rows_json_bound; [done|vm_compute; lia]|]. cbn [rp_rows rows_reply]. lia.
Qed.

Lemma insert_reply_length x : reply_length (insert_reply x) ≤ 2100.
Proof.
  change (length (print_json (success_json (insert_reply x))) ≤ 2100).
  unfold success_json. cbn [rp_action insert_reply rp_inserted rp_count]. rewrite decide_True, insert_text, !length_app by done.
  pose proof (print_dec_length (rec_id x)). pose proof (print_dec_length (Z.of_nat 1)).
  change (length (dq "{'ok':true,'action':")) with 20. change (length (json_string (lit "insert"))) with 8.
  change (length (dq ",'inserted_id':")) with 15. change (length (dq ",'row_count':")) with 13. change (length (lit "}")) with 1. lia.
Qed.

Lemma plain_reply_length st : st = SQL_STATUS_EXIT ∨ st = SQL_STATUS_ERROR → reply_length (plain_reply st) ≤ 2100.
Proof. intros [-> | ->]; apply Nat.leb_le; vm_compute; reflexivity. Qed.

(** The reply to a text that is refused, or accepted and does not reach the table. *)
Lemma other_reply_length text db :
  (∀ c, parsed (sql_parse (Some text)) = true → command (sql_parse (Some text)) = c →
     cmd_type c = SQL_COMMAND_EXIT ∨ cmd_type c = SQL_COMMAND_NONE) →
  reply_length (spec_sql text db).1 ≤ 2100.
Proof.
  intros Hc. unfold spec_sql. destruct (parse_settled text) as [Hp|Hr].
  - rewrite Hp. unfold spec_command. destruct (Hc _ Hp eq_refl) as [-> | ->]; apply plain_reply_length; auto.
  - assert (parsed (sql_parse (Some text)) = false) as -> by by destruct Hr. cbn [fst]. unfold reply_length.
    assert (reply_json (refused_reply (sql_parse (Some text))) = error_json (refused_reply (sql_parse (Some text)))) as ->.
    { unfold reply_json. cbn [rp_status refused_reply]. by destruct Hr as [near _ _ _ -> _ _ _|col clause _ _ _ _ _ -> _ _ _]. }
    pose proof (refused_json_bound _ Hr). lia.
Qed.

Lemma spec_reply_length text db : db_typed db → reply_length (spec_sql text db).1 ≤ 2100 + 501 * length db.
Proof.
  intros [Hall _].
  assert (∀ test : record → bool, reply_length (rows_reply (filter (λ r, test r = true) db)) ≤ 2100 + 501 * length db) as Hrows.
  { intros test. pose proof (length_filter (λ r, test r = true) db) as Hf. etrans; [apply rows_reply_length|lia].
    apply Forall_forall. intros r [_ Hr]%list_elem_of_filter. rewrite Forall_forall in Hall. by destruct (Hall r Hr). }
  destruct (decide (parsed (sql_parse (Some text)) = true)) as [Hp|Hp].
  2:{ etrans; [apply other_reply_length; by intros c ?|lia]. }
  unfold spec_sql. rewrite Hp. unfold spec_command. generalize (command (sql_parse (Some text))) as c. intros c.
  destruct (cmd_type c); try exact (Hrows (command_test c)).
  - etrans; [apply plain_reply_length; auto|lia].
  - etrans; [apply insert_reply_length|lia].
  - etrans; [apply plain_reply_length; auto|lia].
Qed.

(** No body comes near the bound of the JSON buffer. *)
Lemma body_small n (db : nat) : n ≤ 2100 + 501 * db → (Z.of_nat db ≤ INT_MAX)%Z → (Z.of_nat n < BODY_MAX)%Z.
Proof. unfold INT_MAX, BODY_MAX. lia. Qed.

Lemma spec_body_small text db : db_typed db → (Z.of_nat (length db) + 1 < INT_MAX)%Z →
  (Z.of_nat (length (spec_api text db).1.2) < BODY_MAX)%Z.
Proof.
  intros Hty Hlt. eapply (body_small _ (length db)); [|lia]. unfold spec_api.
  pose proof (spec_reply_length text db Hty) as H. by destruct (spec_sql text db).
Qed.

(** ** The response to a request *)

Definition refusal_json (status message : cstr) : json :=
  JObj [key "ok" (JBool false); key "status" (JStr status); key "message" (JStr message)].

Definition refusal_body (status message : cstr) : cstr := print_json (refusal_json status message).

(** The status and the body of the response to the bytes [raw], and the records
    afterwards. *)
Definition spec_response (raw : cstr) (e : ending) (db : list record) : Z * cstr * list record :=
  match http_spec raw e with
  | Refused status message => (status, refusal_body (server_http_error_status_name status) (lit message), db)
  | Accepted _ body => spec_api (c_string body) db
  end.

(** What goes out: the response, or a part of it if the peer does not take it all. *)
Definition delivered (c : Conn) (data : cstr) (c' : Conn) : Prop :=
  ∃ k, k ≤ length data ∧ c_out c' = c_out c ++ take k data ∧ (writable c → k = length data).

Lemma sent_delivered c c1 data ok c' : quiet_recv c c1 → sent_some c1 data ok c' → delivered c data c'.
Proof.
  intros [Ho Hs _ _] (k & Hk & Hout & _ & Hok & Hw). exists k. split_and!; [done|by rewrite <- Ho|].
  intros Hwr. apply Hok, Hw. unfold writable. by rewrite Hs.
Qed.

(** All that can be wrong with a request. *)
Definition refusals : list (Z * string) :=
  [(400, "Malformed HTTP request"); (400, "Malformed HTTP request line"); (400, "Malformed HTTP header");
   (400, "Invalid Content-Length"); (400, "Missing Content-Length"); (400, "Incomplete request body");
   (400, "Failed to read request body"); (404, "Only /query is supported"); (405, "Only POST is supported");
   (408, "Request timed out"); (413, "Request body is too large")]%Z%string.

Lemma content_length_refusals lines acc message :
  read_content_length lines acc = inl message → (400%Z, message) ∈ refusals.
Proof.
  revert acc. unfold refusals. induction lines as [|line lines IH]; intros acc; cbn [read_content_length]; [done|].
  destruct (strchr_colon line) as [[name value]|]; [|intros [= <-]; set_solver]. destruct (strcaseeq _ _); [|apply IH].
  destruct (strtoul _) as [n rest]. case_decide; [intros [= <-]; set_solver|apply IH].
Qed.

Lemma http_spec_refusals raw e status message : http_spec raw e = Refused status message → (status, message) ∈ refusals.
Proof.
  unfold http_spec. destruct (find_end _) as [i|].
  - destruct (read_head _) as [[s msg]|[v n]] eqn:Eh.
    + intros [= <- <-]. revert Eh. unfold read_head. destruct (strstr_crlf _) as [[line headers]|]; [|intros [= <- <-]; set_solver].
      destruct (sscanf_request_line line zero_request) as [n r].
      repeat (case_decide; [intros [= <- <-]; set_solver|]).
      destruct (read_content_length (header_lines headers) None) as [m|[k|]] eqn:E.
      * intros [= <- <-]. by eapply content_length_refusals.
      * case_decide; [intros [= <- <-]; set_solver|done].
      * intros [= <- <-]. set_solver.
    + case_decide; [done|]. destruct e; intros [= <- <-]; set_solver.
  - case_decide; intros [= <- <-]; set_solver.
Qed.

(** Each is reported whole, and its body is short. *)
Lemma refusals_fit status message : (status, message) ∈ refusals →
  snprintf 128 (lit message) = lit message ∧ lit message ≠ [] ∧
  (Z.of_nat (length (refusal_body (server_http_error_status_name status) (lit message))) < BODY_MAX)%Z.
Proof.
  intros Hin. assert (forallb (λ p : Z * string, bool_decide (snprintf 128 (lit p.2) = lit p.2) && negb (bool_decide (lit p.2 = [])) &&
    bool_decide (Z.of_nat (length (refusal_body (server_http_error_status_name p.1) (lit p.2))) < BODY_MAX)%Z) refusals = true) as Hall
    by (vm_compute; reflexivity).
  rewrite forallb_forall in Hall. specialize (Hall (status, message)). cbn [fst snd] in Hall.
  rewrite !andb_true_iff, negb_true_iff, bool_decide_eq_true, bool_decide_eq_false in Hall.
  rewrite (bool_decide_eq_true (Z.of_nat _ < _)%Z) in Hall.
  destruct Hall as [[? ?] ?]; [by apply list_elem_of_In|done].
Qed.

(** ** Sequential code in the world *)

Lemma wp_on_mem {K B A} (c : prog Mem A) (Q : A → World → Prop) w :
  wpx K B c (λ a m, Q a (with_mem m w)) (w_mem w) → wpx K B (on_mem c) Q w.
Proof. unfold wpx, on_mem. by destruct (c (w_mem w)) as [[a m]| | | |]. Qed.

Lemma wp_on_conn {K B A} fd (c : prog Conn A) x (Q : A → World → Prop) w :
  w_conns w !! fd = Some x → wpx K B c (λ a x', Q a (with_conns (<[fd := x']> (w_conns w)) w)) x → wpx K B (on_conn fd c) Q w.
Proof. unfold wpx, on_conn. intros ->. by destruct (c x) as [[a x']| | | |]. Qed.

Lemma error_body_text status message : refusal_body status message =
  dq "{'ok':false,'status':" ++ json_string status ++ dq ",'message':" ++ json_string message ++ lit "}".
Proof. unfold refusal_body, refusal_json. cbn [print_json map separated key fst snd]. rewrite <- !(assoc_L (++)). reflexivity. Qed.

Lemma error_body_built m0 status message :
  bytes_bounded m0 → (Z.of_nat (length (refusal_body status message)) < BODY_MAX)%Z →
  wp (server_build_error_body status message) (λ p m,
    (∃ l, p = Some l ∧ body_at m0 l (refusal_body status message) m) ∨ p = None ∧ ¬ no_failure m0 ∧ spent m0 m) m0.
Proof.
  intros Hb Hlt. apply wp_bind. apply wp_buffer_init; [done|unfold CAP_MAX; lia| |].
  - intros m Hm Hs. apply wp_ret. by right.
  - intros b m Hat. cbn [fst snd negb]. apply wp_bind.
    assert (emits m0 [] (refusal_body status message)
      (and_then (json_buffer_append (Some b) (Some (dq "{'ok':false,'status':"))) (λ buffer,
       and_then (json_buffer_append_json_string buffer (Some status)) (λ buffer,
       and_then (json_buffer_append buffer (Some (dq ",'message':"))) (λ buffer,
       and_then (json_buffer_append_json_string buffer (Some message)) (λ buffer,
       json_buffer_append buffer (Some (lit "}"))))))) m) as Hemit.
    { rewrite error_body_text. apply emits_seq; [by apply emits_text|]. intros b1 m1 H1.
      apply emits_seq; [by apply emits_string|]. intros b2 m2 H2.
      apply emits_seq; [by apply emits_text|]. intros b3 m3 H3.
      apply emits_seq; [by apply emits_string|]. intros b4 m4 H4. by apply emits_text. }
    eapply wp_mono; [|by apply Hemit].
    intros [[] ob] m1 (b1 & s1 & Hob & Hat1 & Hs1); cbn [fst snd negb] in *; subst ob.
    + subst s1. apply wp_bind, wp_ret, wp_ret. left. destruct Hat1 as (l & blk & -> & Hadd & Ht & _).
      exists l. split; [done|]. by exists blk.
    + apply wp_bind. eapply wp_buffer_destroy; [exact Hat1|]. intros m2 Hs2. apply wp_ret. right. by destruct Hs1.
Qed.

Lemma body_free m0 l s m (Q : unit → Mem → Prop) :
  body_at m0 l s m → (∀ m', spent m0 m' → Q tt m') → wp (free (T:=byte_block) (Some l)) Q m.
Proof. intros (blk & Hadd & _) HQ. by eapply block_added_free. Qed.

Lemma refusal_clean status message : NUL ∉ refusal_body status message.
Proof. apply clean_no_nul, print_json_clean. Qed.

(** An error is answered, or memory ran out and nothing is sent; either way memory
    is as before; unless the peer has closed or lets the sender wait. *)
Lemma send_error_ok fd st status message w c :
  w_conns w !! fd = Some c → bytes_bounded (w_mem w) →
  (Z.of_nat (length (refusal_body status message)) < BODY_MAX)%Z →
  wpx (broken c) (stuck c) (send_error fd st status message) (λ _ w', spent (w_mem w) (w_mem w') ∧ w_closed w' = w_closed w ∧
    ∃ c', w_conns w' = <[fd := c']> (w_conns w) ∧
      ((∃ ok, sent_some c (response_text st json_type (refusal_body status message)) ok c') ∨
       ¬ no_failure (w_mem w) ∧ c' = c)) w.
Proof.
  intros Hc Hb Hlt. apply wp_bind, wp_on_mem, wp_allow. eapply wp_mono; [|by apply error_body_built].
  intros p m [(l & -> & Hat)|(-> & Hm & Hs)].
  - apply wp_bind, wp_on_mem, wp_allow. eapply read_body; [exact Hat|apply refusal_clean|].
    apply wp_bind. eapply wp_on_conn; [exact Hc|]. eapply wp_mono; [|apply send_response_ok, response_header_short; vm_compute; lia].
    intros ok c' Hsent. apply wp_on_mem, wp_allow. eapply body_free; [exact Hat|]. intros m' Hs. cbn.
    split_and!; [done|done|]. exists c'. split; [done|]. left. by exists ok.
  - apply wp_ret. cbn. split_and!; [done|done|]. exists c. split; [by rewrite insert_id|]. by right.
Qed.

Section server.
Context {KI : KeyIndex}.

(** The table and the text blocks of a memory the server serves from. *)
Definition serving (tb : loc) (db : list record) (m0 m : Mem) : Prop := holds tb db m0 m ∧ bytes_bounded m ∧ db_typed db.

Lemma serving_spent tb db m0 m m' : serving tb db m0 m → spent m m' → serving tb db m0 m'.
Proof.
  intros (Hh & Hb & Hty) Hs. split_and!; [by eapply holds_spent| |done].
  intros l Hl. apply spent_spec in Hs as (n & e & -> & _ & Hn). simpl in *. apply Hb in Hl. lia.
Qed.

Lemma holds_no_failure tb db m0 m : holds tb db m0 m → no_failure m.
Proof. by intros (? & ? & ? & ? & ?). Qed.

Lemma c_string_padded s n : c_string (s ++ replicate n NUL) = c_string s.
Proof. induction s as [|c s IH]; simpl; [by destruct n|]. case_decide; [done|]. by rewrite IH. Qed.

Lemma spec_api_db text db : (spec_api text db).2 = (spec_sql text db).2.
Proof. unfold spec_api. by destruct (spec_sql text db). Qed.

Lemma spec_response_typed raw e db :
  db_typed db → (Z.of_nat (length db) + 1 < INT_MAX)%Z → db_typed (spec_response raw e db).2.
Proof.
  intros Hty Hlt. unfold spec_response. destruct (http_spec raw e); [done|]. rewrite spec_api_db.
  apply spec_sql_typed; [done|done|apply c_string_no_nul].
Qed.

(** A handled client: the table is that of the specification, the connection got
    its response, and everything else is as before. *)
Definition handled_client (tb : loc) (db : list record) (m0 : Mem) (fd : Z) (c : Conn) (raw : cstr) (e : ending) (w w' : World) : Prop :=
  serving tb (spec_response raw e db).2 m0 (w_mem w') ∧ m_bytes (w_mem w') = m_bytes (w_mem w) ∧ w_closed w' = w_closed w ∧
  ∃ c', w_conns w' = <[fd := c']> (w_conns w) ∧
    delivered c (response_text (spec_response raw e db).1.1 json_type (spec_response raw e db).1.2) c'.

Lemma handle_client_ok tb db m0 w fd c raw e :
  w_conns w !! fd = Some c → stream (c_recv c) = (raw, e) → serving tb db m0 (w_mem w) →
  (Z.of_nat (length db) + 1 < INT_MAX)%Z →
  wpx (broken c) (silent c ∨ stuck c) (server_handle_client (Some tb) fd) (λ _ w', handled_client tb db m0 fd c raw e w w') w.
Proof.
  intros Hc Hraw Hsv Hlt. pose proof Hsv as (Hh & Hb & Hty). pose proof (spec_response_typed raw e db Hty Hlt) as Hty'.
  unfold server_handle_client, handled_client, spec_response in *.
  apply wp_bind. eapply wp_on_conn; [exact Hc|]. eapply (wp_weaken False (silent c)); [done|by left|]. eapply wp_mono; [|by apply http_read_ok].
  intros [[res rq] er] c1 [Hq Hd].
  set (w1 := with_conns (<[fd := c1]> (w_conns w)) w).
  assert (∀ A (p : prog World A) Q w, wpx (broken c1) (stuck c1) p Q w → wpx (broken c) (silent c ∨ stuck c) p Q w) as Hweak.
  { intros A p Q w'. apply wp_weaken; [apply (quiet_keeps_send _ _ Hq)|right; by apply (quiet_keeps_send _ _ Hq)]. }
  assert (w_conns w1 !! fd = Some c1) as Hc1 by apply lookup_insert_eq.
  destruct (http_spec raw e) as [status message|version text] eqn:Espec; cbn [delivers fst snd] in Hd.
  - destruct Hd as [-> ->]. rewrite decide_True by done.
    destruct (refusals_fit status message) as (Hfit & Hne & Hsmall); [by eapply http_spec_refusals|].
    cbn [report error_status Http.error_message default from_option id set_error]. rewrite (decide_False (P := 128 = 0)) by done.
    rewrite Hfit, decide_True by done. apply Hweak. eapply wp_mono; [|by eapply (send_error_ok fd _ _ _ w1 c1)].
    intros _ w' (Hspent & Hcl & c' & Hconns & Hout). cbn [w_mem w1 with_conns] in Hspent, Hout.
    split_and!; [by eapply serving_spent|by eapply spent_bytes|done|]. exists c'. split; [by rewrite Hconns; simpl; rewrite insert_insert_eq|].
    destruct Hout as [[ok Hsent]|[Hm _]]; [by eapply sent_delivered|]. destruct Hm. by eapply holds_no_failure.
  - injection Hd as -> -> ->. rewrite decide_False by (intros Hx; by apply Hx). cbn [request_of req_body]. rewrite c_string_padded.
    apply wp_bind, wp_on_mem, wp_allow. eapply wp_mono; [|apply (api_refines tb db m0 (w_mem w) (c_string text)); [done..|by apply spec_body_small]].
    intros r m1 (base & Hh1 & Hb1 & (_ & Hbb & _) & l & -> & Hat).
    pose proof (spec_body_clean (c_string text) db) as Hclean.
    apply wp_bind, wp_on_mem, wp_allow. cbn [w_mem with_mem body]. eapply read_body; [exact Hat|by apply clean_no_nul|].
    apply Hweak, wp_bind. eapply wp_on_conn; [exact Hc1|]. eapply wp_mono; [|apply send_response_ok, response_header_short; vm_compute; lia].
    intros ok c' Hsent. apply wp_bind, wp_on_mem, wp_allow. eapply destroy_body; [exact Hat|]. intros m2 Hs2. apply wp_ret. cbn.
    split_and!; [|by rewrite (spent_bytes _ _ Hs2)|done|].
    + eapply serving_spent; [|exact Hs2]. by split_and!.
    + exists c'. split; [by rewrite insert_insert_eq|]. by eapply sent_delivered.
Qed.
End server.
