(* ===== verification/ServerActs.v ===== *)
(** The handler of the server cut into actions: alone it does what the sequential
    handler does, and it touches no connection but its own. *)
From stdpp Require Import base list gmap sorting strings.
From Stdlib Require Import Ascii ZArith Lia.
From S2P Require Import ThreadPool Prelude Memory CLib CLibProofs BPTree Index Table TableMem TableRep TableCollect TableQueries TableUpdate TableLife TableSpec Actions TableActs TableActsAlone TableActsInv TableActsSteps TableActsInsert TableActsArrays TableActsLookups TableActsCollect TableActsSpec Sql SqlLex SqlGrammar SqlErrors SqlSpec RowTypes Quiet Repl Bytes Json JsonProofs JsonValue Api ApiSpec ApiActs ApiActsSpec Http HttpSpec HttpText Server ServerSpec.

(** ** One handler alone *)

Lemma on_mem_bind {A B} (c : prog Mem A) (k : A → prog Mem B) w : on_mem (c ≫= k) w = (on_mem c ≫= λ a, on_mem (k a)) w.
Proof. unfold on_mem, mbind, prog_bind. by destruct (c (w_mem w)) as [[a m]| | | |]. Qed.

Lemma on_mem_alone {A} (p : table_act A) w : run_act (on_mem_acts p) w = on_mem (run_act p) w.
Proof.
  revert w. induction p as [a|acc X c k IH]; intros w; cbn [on_mem_acts run_act]; [by destruct w|].
  rewrite on_mem_bind. by apply bind_same.
Qed.

Lemma send_error_alone fd st status message w :
  run_act (send_error_acts fd st status message) w = send_error fd st status message w.
Proof.
  unfold send_error_acts, send_error. rewrite run_bind. apply bind_same; [apply run_atomic_last|].
  intros [l|] w1; [|done]. rewrite run_bind. apply bind_same; [apply run_atomic_last|]. intros text w2.
  rewrite run_bind. apply bind_same; [apply run_atomic_last|]. intros ok w3. apply run_atomic_last.
Qed.

Lemma handler_alone table fd w : run_act (server_handle_client_acts table fd) w = server_handle_client table fd w.
Proof.
  unfold server_handle_client_acts, server_handle_client. rewrite run_bind. apply bind_same; [apply run_atomic_last|].
  intros [[res rq] er] w1. case_decide; [apply send_error_alone|]. destruct rq as [rq|]; [|apply run_atomic_last].
  rewrite run_bind. apply bind_same.
  - rewrite on_mem_alone. unfold on_mem. by rewrite query_alone.
  - intros [[] [r|]] w2; try apply send_error_alone. rewrite run_bind. apply bind_same; [apply run_atomic_last|]. intros text w3.
    rewrite run_bind. apply bind_same; [apply run_atomic_last|]. intros ok w4. rewrite run_bind.
    apply bind_same; [apply run_atomic_last|]. by intros [].
Qed.

(** ** What a handler does to the connections of others *)

Definition touches (fd : Z) (w w' : World) : Prop :=
  w_closed w' = w_closed w ∧ (∀ fd', fd' ≠ fd → w_conns w' !! fd' = w_conns w !! fd') ∧
  (is_Some (w_conns w' !! fd) ↔ is_Some (w_conns w !! fd)).

Abbreviation touching fd p := (act_all (Acc := access) (touches fd) p).

Lemma touches_mem {X} fd acc (c : prog Mem X) : touching fd (atomic acc (on_mem c)).
Proof. apply act_all_atomic. intros w x w'. unfold on_mem. destruct (c (w_mem w)) as [[y m]| | | |]; [|done..]. by intros [= <- <-]. Qed.

Lemma touches_conn {X} fd acc (c : prog Conn X) : touching fd (atomic acc (on_conn fd c)).
Proof.
  apply act_all_atomic. intros w x w'. unfold on_conn. destruct (w_conns w !! fd) as [y|] eqn:Hy; [|done].
  destruct (c y) as [[z y']| | | |]; [|done..]. intros [= <- <-]. split_and!; cbn; [done|intros; by apply lookup_insert_ne|].
  rewrite lookup_insert_eq, Hy. by split; eauto.
Qed.

Lemma touches_acts {A} fd (p : table_act A) : touching fd (on_mem_acts p).
Proof.
  induction p as [a|acc X c k IH]; cbn [on_mem_acts]; [done|]. split; [|apply IH].
  apply (touches_mem fd acc c).
Qed.

Lemma touches_error fd st status message : touching fd (send_error_acts fd st status message).
Proof.
  apply act_all_bind; [apply touches_mem|]. intros [l|]; [|done]. apply act_all_bind; [apply touches_mem|]. intros text.
  apply act_all_bind; [apply touches_conn|]. intros _. apply touches_mem.
Qed.

Lemma handler_touches table fd : touching fd (server_handle_client_acts table fd).
Proof.
  apply act_all_bind; [apply touches_conn|]. intros [[res rq] er]. case_decide; [apply touches_error|].
  destruct rq as [rq|]; [|by apply act_all_atomic]. apply act_all_bind; [apply touches_acts|].
  intros [[] [r|]]; try apply touches_error. apply act_all_bind; [apply touches_mem|]. intros text.
  apply act_all_bind; [apply touches_conn|]. intros ok. apply act_all_bind; [apply touches_mem|]. done.
Qed.
