(* ===== verification/ServerActsInv.v ===== *)
(** What handlers that run at the same time agree on: the table is shared, a
    connection and the text of a response belong to one of them; and the rules of
    their actions. *)
From stdpp Require Import base list gmap sorting strings.
From Stdlib Require Import Ascii ZArith Lia.
From S2P Require Import ThreadPool Prelude Memory CLib CLibProofs BPTree Index Table TableMem TableRep TableCollect TableQueries TableUpdate TableLife TableSpec Actions TableActs TableActsAlone TableActsInv TableActsSteps TableActsInsert TableActsArrays TableActsLookups TableActsCollect TableActsSpec Sql SqlLex SqlGrammar SqlErrors SqlSpec RowTypes Quiet Repl Bytes Json JsonProofs JsonValue Api ApiSpec ApiActs ApiActsSpec Http HttpSpec HttpText Server ServerSpec ServerActs.

(** ** Maps whose entries have owners *)

Section owned.
Context {K V : Type} `{Countable K}.
Implicit Types m : gmap K (nat * V).

(** Owner [i] notices no difference. *)
Definition own_part (i : nat) m m' : Prop := ∀ k v, m !! k = Some (i, v) ↔ m' !! k = Some (i, v).

Lemma own_part_refl i m : own_part i m m.
Proof. done. Qed.
Lemma own_part_trans i m1 m2 m3 : own_part i m1 m2 → own_part i m2 m3 → own_part i m1 m3.
Proof. intros H1 H2 k v. by rewrite (H1 k v). Qed.

Lemma own_part_insert i j m k v : j ≠ i → (∀ j' v', m !! k = Some (j', v') → j' ≠ j) → own_part j m (<[k := (i, v)]> m).
Proof.
  intros Hj Hk k' v'. destruct (decide (k = k')) as [<-|Hne].
  - rewrite lookup_insert_eq. split; [by intros ?%Hk|intros [= <- _]; done].
  - by rewrite lookup_insert_ne.
Qed.

Lemma own_part_delete j m k : (∀ v', m !! k ≠ Some (j, v')) → own_part j m (delete k m).
Proof.
  intros Hk k' v'. destruct (decide (k = k')) as [<-|Hne].
  - rewrite lookup_delete_eq. split; [by intros ?%Hk|done].
  - by rewrite lookup_delete_ne.
Qed.
End owned.

(** ** The protocol *)

(** What is shared: the table; the texts in memory and the open connections, with
    the thread each belongs to. *)
Record shared := Shared {
  sh_table : ghost;
  sh_blocks : gmap loc (nat * byte_block);
  sh_conns : gmap Z (nat * Conn)
}.

Section protocol.
Context {KI : KeyIndex}.
Context (tb : loc) (boot : Mem).
Abbreviation T := (table_protocol tb boot).
Abbreviation agree := (agree tb boot).

Record world_agree (g : shared) (w : World) : Prop := {
  wa_table : agree (sh_table g) (w_mem w);
  wa_bytes : m_bytes (w_mem w) = (snd <$> sh_blocks g) ∪ m_bytes boot;
  wa_fresh l v : sh_blocks g !! l = Some v → m_bytes boot !! l = None;
  wa_bounded : bytes_bounded (w_mem w);
  wa_conns : snd <$> sh_conns g = w_conns w
}.

Record world_relies (i : nat) (g g' : shared) : Prop := {
  wr_table : relies i (sh_table g) (sh_table g');
  wr_blocks : own_part i (sh_blocks g) (sh_blocks g');
  wr_conns : own_part i (sh_conns g) (sh_conns g')
}.

Lemma world_relies_refl i g : world_relies i g g.
Proof. split; [apply relies_refl|done|done]. Qed.
Lemma world_relies_trans i g1 g2 g3 : world_relies i g1 g2 → world_relies i g2 g3 → world_relies i g1 g3.
Proof. intros [] []. split; [by eapply relies_trans|by eapply own_part_trans..]. Qed.

Definition world_may_use (a : access) (i : nat) (g : shared) : Prop := may_use a i (sh_table g).
Definition world_may_wait (i : nat) (g : shared) : Prop := may_wait i (sh_table g).

(** The peer of a connection of the thread closes before it has read everything. *)
Definition world_dies (i : nat) (g : shared) : Prop := ∃ fd x, sh_conns g !! fd = Some (i, x) ∧ broken x.

Lemma world_may_use_stable a i g g' : world_may_use a i g → world_relies i g g' → world_may_use a i g'.
Proof. intros Ha []. by eapply may_use_stable. Qed.

Definition world_promise (g g' : shared) : Prop := same_calls (sh_table g) (sh_table g').

Lemma world_promise_refl g : world_promise g g.
Proof. done. Qed.

Definition world_protocol : protocol access World shared := {|
  inv := world_agree; rely := world_relies; promise := world_promise; allowed := world_may_use; waits := world_may_wait; dies := world_dies;
  rely_refl := world_relies_refl; rely_trans := world_relies_trans;
  promise_refl := world_promise_refl; allowed_stable := world_may_use_stable
|}.
Abbreviation W := world_protocol.

(** ** From the table to the world *)

Lemma table_guar i g t2 : guar T i (sh_table g) t2 → guar W i g (Shared t2 (sh_blocks g) (sh_conns g)).
Proof. intros [Hg Hp]. split; [|done]. intros j Hj. split; [by apply Hg|done|done]. Qed.

(** A program of the table alone. *)
Lemma wpc_on_mem_acts {A} i (p : table_act A) Q g :
  calm_acts p → wpc T i p Q (sh_table g) →
  wpc W i (on_mem_acts p)
    (λ a g', own_part i (sh_blocks g) (sh_blocks g') ∧ own_part i (sh_conns g) (sh_conns g') ∧ Q a (sh_table g')) g.
Proof.
  revert g. induction p as [a|acc X c k IH]; intros g Hcalm Hp; [done|].
  destruct Hcalm as [Hc Hk], Hp as [Ha Hp]. split; [done|]. intros g1 w Hr Hw.
  specialize (Hp (sh_table g1) (w_mem w) (wr_table _ _ _ Hr) (wa_table _ _ Hw)). unfold on_mem.
  destruct (c (w_mem w)) as [[x m']| | | |] eqn:E; [|done..]. destruct Hp as (t2 & Hag & Hg & Hp).
  pose proof (Hc _ _ _ E) as Hm. exists (Shared t2 (sh_blocks g1) (sh_conns g1)). split_and!; [|by apply table_guar|].
  - destruct Hw as [_ Hb Hf Hbd Hcn]. split; cbn [w_mem w_conns with_mem sh_table sh_blocks sh_conns]; try done.
    + rewrite <- Hb. apply Hm.
    + by eapply calm_bounded.
  - eapply wpc_mono; [apply (IH x (Shared t2 (sh_blocks g1) (sh_conns g1))); [apply Hk|exact Hp]|].
    intros a g' (Hbl & Hcn & HQ). destruct Hr as [_ Hbl' Hcn']. split_and!; [by eapply own_part_trans..|done].
Qed.

Lemma wpc_on_mem_bind {A B} i (p : table_act A) (k : A → table_act B) Q g :
  wpc W i (on_mem_acts p) (λ a g', wpc W i (on_mem_acts (k a)) Q g') g → wpc W i (on_mem_acts (p ≫= k)) Q g.
Proof.
  revert g. induction p as [a|acc X c k' IH]; intros g Hp; [done|].
  change (wpc W i (Act acc (on_mem c) (λ x, on_mem_acts (k' x ≫= k))) Q g).
  destruct Hp as [Ha Hp]. split; [done|]. intros g1 w Hr Hw. specialize (Hp g1 w Hr Hw).
  destruct (on_mem c w) as [[x w']| | | |]; [|done..]. destruct Hp as (g2 & Hw2 & Hg & Hp). exists g2.
  split_and!; [done|done|]. by apply IH.
Qed.

(** ** The rules of actions *)

Lemma wpc_local {X} i (c : prog World X) (Q : X → shared → Prop) g :
  (∀ g1 w, world_relies i g g1 → world_agree g1 w → wpx (world_dies i g1) False c (λ x w', ∃ g2, world_agree g2 w' ∧ guar W i g1 g2 ∧ Q x g2) w) →
  wpc W i (atomic Local c) Q g.
Proof.
  intros H. split; [done|]. intros g1 w Hr Hw. specialize (H g1 w Hr Hw). unfold wpx in H. by destruct (c w) as [[x w']| | | |].
Qed.

(** The thread's own connection. *)
Definition put_conn (i : nat) (fd : Z) (x : Conn) (g : shared) : shared :=
  Shared (sh_table g) (sh_blocks g) (<[fd := (i, x)]> (sh_conns g)).

Lemma wpc_on_conn {X} i fd x (c : prog Conn X) (Q : X → shared → Prop) g :
  sh_conns g !! fd = Some (i, x) →
  wpx (broken x) False c (λ a x', ∀ g1, world_relies i g g1 → Q a (put_conn i fd x' g1)) x → wpc W i (atomic Local (on_conn fd c)) Q g.
Proof.
  intros Hx Hc. apply wpc_local. intros g1 w Hr Hw. apply (wr_conns _ _ _ Hr) in Hx.
  eapply wp_on_conn; [by rewrite <- (wa_conns _ _ Hw), lookup_fmap, Hx|].
  eapply (wp_weaken (broken x) False); [by exists fd, x|done|]. eapply wp_mono; [|exact Hc]. intros a x' HQ.
  exists (put_conn i fd x' g1). destruct Hw as [Ht Hb Hf Hbd Hcn]. split_and!; [split; try done| |by apply HQ].
  - cbn. by rewrite fmap_insert, Hcn.
  - split; [|done]. intros j Hj. split; [apply relies_refl|done|]. apply own_part_insert; [done|]. intros j' v' H. congruence.
Qed.

(** *** Texts *)

(** The one text of thread [i] is [s], at [l]; and it has none. *)
Definition has_text (i : nat) (l : loc) (s : cstr) (g : shared) : Prop :=
  ∃ blk, holds_text s blk ∧ ∀ l' blk', sh_blocks g !! l' = Some (i, blk') ↔ l' = l ∧ blk' = blk.
Definition no_text (i : nat) (g : shared) : Prop := ∀ l blk, sh_blocks g !! l ≠ Some (i, blk).

Lemma has_text_own i l s g g' : own_part i (sh_blocks g) (sh_blocks g') → has_text i l s g → has_text i l s g'.
Proof. intros Ho (blk & Hs & Hb). exists blk. split; [done|]. intros l' blk'. by rewrite <- (Ho l' blk'). Qed.
Lemma no_text_own i g g' : own_part i (sh_blocks g) (sh_blocks g') → no_text i g → no_text i g'.
Proof. intros Ho Hn l blk. rewrite <- (Ho l blk). apply Hn. Qed.

Lemma agree_spent g m m' : agree g m → spent m m' → agree g m'.
Proof.
  intros Hag Hs. assert (with_garrays (g_arrays g) g = g) as <- by by destruct g.
  apply spent_spec in Hs as (n & e & -> & He & Hn). eapply agree_garrays; [exact Hag| |done|apply Hag|].
  - eapply inv_spent; [apply Hag|]. apply spent_spec. by exists n, e.
  - eapply suffix_no_failure; [exact He|apply Hag].
Qed.

Lemma agree_set_bytes g m h : agree g m → agree g (set_bytes h m).
Proof.
  intros Hag. assert (with_garrays (g_arrays g) g = g) as <- by by destruct g.
  eapply agree_garrays; [exact Hag| |done|apply Hag|apply Hag].
  exact (inv_set_bytes _ _ _ _ _ _ h (ag_table _ _ _ _ Hag)).
Qed.

Lemma block_spent B l blk m : block_added B l blk m →
  spent (set_bytes (<[l := blk]> (m_bytes B)) B) m ∧ m_bytes m = <[l := blk]> (m_bytes B) ∧ bytes_bounded m.
Proof.
  intros (n & e & -> & _ & [Hn Hl] & He & Hb). split_and!; [apply spent_spec; by exists n, e|done|].
  intros x. cbn. intros [y [[<- _]|[_ Hy]]%lookup_insert_Some]; [done|]. assert (x < m_next B)%positive by (apply Hb; eauto). lia.
Qed.

Lemma agree_block g B l blk m : agree g B → block_added B l blk m → agree g m.
Proof. intros Hag Hb. eapply agree_spent; [|by apply (block_spent _ _ _ _ Hb)]. by apply agree_set_bytes. Qed.

(** An action that leaves a new text of its thread. *)
Lemma wpc_builds {X} i s (c : prog Mem X) (Q : X → shared → Prop) g :
  no_text i g →
  (∀ t1 m, relies i (sh_table g) t1 → agree t1 m → bytes_bounded m →
     wp c (λ x m', ∃ t2 B l, agree t2 B ∧ guar T i t1 t2 ∧ m_bytes B = m_bytes m ∧ body_at B l s m' ∧
       ∀ g2, sh_table g2 = t2 → own_part i (sh_conns g) (sh_conns g2) → has_text i l s g2 → Q x g2) m) →
  wpc W i (atomic Local (on_mem c)) Q g.
Proof.
  intros Hno Hc. apply wpc_local. intros g1 w [Hrt Hrb Hrc] [Ht Hb Hf Hbd Hcn]. apply wp_on_mem, wp_allow.
  eapply wp_mono; [|by apply Hc]. intros x m' (t2 & B & l & Hag & Hg & HB & (blk & Hadd & Hs) & HQ).
  destruct (block_spent _ _ _ _ Hadd) as (_ & Hm' & Hbd').
  assert (sh_blocks g1 !! l = None ∧ m_bytes boot !! l = None) as [Hl Hlb].
  { destruct Hadd as (_ & _ & _ & Hl & _). rewrite HB, Hb in Hl. apply lookup_union_None in Hl as [Hl ?].
    rewrite lookup_fmap in Hl. by destruct (sh_blocks g1 !! l). }
  exists (Shared t2 (<[l := (i, blk)]> (sh_blocks g1)) (sh_conns g1)). split_and!.
  - split; cbn [sh_table sh_blocks sh_conns w_mem w_conns with_mem]; try done.
    + by eapply agree_block.
    + by rewrite Hm', HB, Hb, fmap_insert, insert_union_l.
    + intros l' v [[<- _]|[_ Hv]]%lookup_insert_Some; [done|by eapply Hf].
  - split; [|apply Hg]. intros j Hj. split; [by apply Hg| |done]. apply own_part_insert; [done|]. intros j' v H. congruence.
  - apply HQ; [done|done|]. exists blk. split; [done|]. intros l' blk'. cbn. split.
    + intros [[<- [= <-]]|[_ Hl']]%lookup_insert_Some; [done|]. apply Hrb in Hl'. by apply Hno in Hl'.
    + intros [-> ->]. apply lookup_insert_eq.
Qed.

Lemma has_text_at i l s g w : has_text i l s g → world_agree g w →
  ∃ blk, m_bytes (w_mem w) !! l = Some blk ∧ sh_blocks g !! l = Some (i, blk) ∧ holds_text s blk.
Proof.
  intros (blk & Hs & Hb) Hw. assert (sh_blocks g !! l = Some (i, blk)) as Hl by (by apply Hb). exists blk.
  split_and!; [|done|done]. rewrite (wa_bytes _ _ Hw). apply lookup_union_Some_l. by rewrite lookup_fmap, Hl.
Qed.

(** A text in memory, next to the memory without it. *)
Lemma body_now l s blk m : m_bytes m !! l = Some blk → holds_text s blk → bytes_bounded m →
  body_at (set_bytes (delete l (m_bytes m)) m) l s m.
Proof.
  intros Hl Hs Hb. exists blk. split; [|done]. exists (m_next m), (m_env m). cbn. rewrite insert_delete_id by done.
  split_and!; [by destruct m|apply lookup_delete_eq|done|by apply Hb; eauto|done|].
  intros x [y Hy]. cbn in Hy |- *. apply lookup_delete_Some in Hy as [_ Hy]. apply Hb. eauto.
Qed.

Lemma wpc_read_text i l s (Q : cstr → shared → Prop) g :
  has_text i l s g → NUL ∉ s → (∀ g1, world_relies i g g1 → Q s g1) →
  wpc W i (atomic Local (on_mem (read_string (Some l)))) Q g.
Proof.
  intros Hl Hs HQ. apply wpc_local. intros g1 w Hr Hw. pose proof (has_text_own _ _ _ _ _ (wr_blocks _ _ _ Hr) Hl) as Hl1.
  destruct (has_text_at _ _ _ _ _ Hl1 Hw) as (blk & Hm & _ & Ht). apply wp_on_mem, wp_allow.
  eapply read_body; [apply (body_now _ _ _ _ Hm Ht), Hw|done|]. exists g1. split_and!; [|apply guar_refl|by apply HQ].
  destruct Hw. by split.
Qed.

(** An action that releases the text of its thread. *)
Lemma wpc_releases {X} i l s (c : prog Mem X) (Q : X → shared → Prop) g :
  has_text i l s g →
  (∀ B m, body_at B l s m → wp c (λ x m', spent B m' ∧
     ∀ g1 g2, world_relies i g g1 → sh_table g2 = sh_table g1 → sh_conns g2 = sh_conns g1 → no_text i g2 → Q x g2) m) →
  wpc W i (atomic Local (on_mem c)) Q g.
Proof.
  intros Hl Hc. apply wpc_local. intros g1 w Hr Hw. pose proof (has_text_own _ _ _ _ _ (wr_blocks _ _ _ Hr) Hl) as Hl1.
  destruct (has_text_at _ _ _ _ _ Hl1 Hw) as (blk & Hm & Hg1 & Ht). apply wp_on_mem, wp_allow. destruct Hw as [Hta Hb Hf Hbd Hcn].
  eapply wp_mono; [|apply Hc, (body_now _ _ _ _ Hm Ht Hbd)]. intros x m' [Hs HQ].
  exists (Shared (sh_table g1) (delete l (sh_blocks g1)) (sh_conns g1)). split_and!.
  - apply spent_spec in Hs as (n & e & -> & He & Hn). cbn in He, Hn. split; cbn [sh_table sh_blocks sh_conns w_mem w_conns with_mem]; try done.
    + eapply agree_spent; [exact (agree_set_bytes _ _ (delete l (m_bytes (w_mem w))) Hta)|]. apply spent_spec. by exists n, e.
    + cbn. rewrite Hb, delete_union, fmap_delete. rewrite (delete_id (m_bytes boot)); [done|]. by eapply Hf.
    + intros l' v [_ Hv]%lookup_delete_Some. by eapply Hf.
    + intros l' [y Hy]. cbn in Hy |- *. apply lookup_delete_Some in Hy as [_ Hy]. assert (l' < m_next (w_mem w))%positive by (apply Hbd; eauto). lia.
  - split; [|done]. intros j Hj. split; [apply relies_refl| |done]. apply own_part_delete. intros v. congruence.
  - eapply HQ; [exact Hr|done|done|]. intros l' blk' Hl'. cbn in Hl'.
    apply lookup_delete_Some in Hl' as [Hne Hl']. destruct Hl1 as (blk1 & _ & Hiff).
    by apply Hiff in Hl' as [-> _].
Qed.
End protocol.
