(* ===== verification/ServerActsSpec.v ===== *)
(** What a client gets when other clients are served at the same time: the
    response that its request has when its call of the table is answered as
    TableActsSpec.v says. *)
From stdpp Require Import base list gmap sorting strings.
From Stdlib Require Import Ascii ZArith Lia.
From S2P Require Import ThreadPool Prelude Memory CLib CLibProofs BPTree Index Table TableMem TableRep TableCollect TableQueries TableUpdate TableLife TableSpec Actions TableActs TableActsAlone TableActsInv TableActsSteps TableActsInsert TableActsArrays TableActsLookups TableActsCollect TableActsSpec TableActsRuns TableActsEnds Sql SqlLex SqlGrammar SqlErrors SqlSpec RowTypes Quiet Repl Bytes Json JsonProofs JsonValue Api ApiSpec ApiActs ApiActsSpec Http HttpSpec HttpText Server ServerSpec ServerActs ServerActsInv.

(** ** Sizes *)

Lemma snapshot_rows D b e L : snapshot D b e L → length L ≤ length D ∧ ∀ r, r ∈ L → r ∈ D.
Proof.
  intros (cs & _ & _ & _ & HL & Hids).
  assert (∀ r, r ∈ L → r ∈ D) as Hin.
  { intros r Hr. rewrite HL, list_elem_of_In, in_concat in Hr. destruct Hr as (l & Hl & Hr).
    apply list_elem_of_In, elem_of_lookup_imap in Hl as (j & c & -> & _). apply list_elem_of_In in Hr.
    apply list_elem_of_filter in Hr as [_ Hr]. rewrite <- (take_drop c D). apply elem_of_app. by left. }
  split; [|done]. apply submseteq_length, NoDup_submseteq; [|done].
  eapply NoDup_fmap_1, sorted_NoDup_lt, Hids.
Qed.

Lemma find_first_in test db r : find_first test db = Some r → r ∈ db.
Proof. intros H%head_Some_elem_of%list_elem_of_filter. apply H. Qed.

(** The rows of an answer are among the records. *)
Lemma answer_rows D x b e q rs :
  answer D x b e q (Rows rs) → length rs ≤ S (length D) ∧ ∀ r, r ∈ rs → r ∈ D.*1.
Proof.
  assert (∀ test, (∃ L, snapshot D.*1 b e L ∧ Rows rs = Rows (filter (λ r, test r = true) L)) →
    length rs ≤ S (length D) ∧ ∀ r, r ∈ rs → r ∈ D.*1) as Hscan.
  { intros test (L & [Hl Hin]%snapshot_rows & [= ->]). rewrite length_fmap in Hl.
    pose proof (length_filter (λ r, test r = true) L). split; [lia|]. intros r [_ Hr]%list_elem_of_filter. by apply Hin. }
  destruct q; simpl; try (by intros (? & ? & ? & ? & [=] & _)); try (by intros (? & ? & [=])).
  - apply (Hscan (λ r, bool_decide (rec_name r = name))).
  - case_decide; [|apply (Hscan (λ r, table_compare_int (rec_id r) c id))].
    intros (n & _ & [= ->]). destruct (find_first _ _) as [r|] eqn:Hr; simpl; [|by split; [lia|intros r ?%elem_of_nil]].
    split; [lia|]. intros r' ->%list_elem_of_singleton. apply find_first_in in Hr.
    rewrite <- (take_drop n D.*1). apply elem_of_app. by left.
  - apply (Hscan (λ r, table_compare_int (rec_age r) c age)).
  - intros (L & [Hl Hin]%snapshot_rows & [= ->]). rewrite length_fmap in Hl. split; [lia|done].
Qed.

Lemma sql_answer_length D x b e text rep :
  Forall name_fits D.*1 → sql_answer D x b e text rep → reply_length rep ≤ 2100 + 501 * S (length D).
Proof.
  intros Hall. unfold sql_answer, text_request. destruct (parsed (sql_parse (Some text))) eqn:Hp.
  - destruct (command_request (command (sql_parse (Some text)))) as [q|] eqn:Hq.
    + intros (r & Ha & ->). destruct r as [[r|]|rs|n t|]; cbn [reply_of]; try (etrans; [apply plain_reply_length; auto|lia]).
      * etrans; [apply insert_reply_length|lia].
      * destruct (answer_rows _ _ _ _ _ _ Ha) as [Hl Hin]. etrans; [apply rows_reply_length|lia].
        apply Forall_forall. intros r Hr. rewrite Forall_forall in Hall. by apply Hall, Hin.
    + intros ->. etrans; [apply other_reply_length|lia]. intros c _ <-. unfold command_request in Hq.
      destruct (cmd_type _); by auto.
  - intros ->. etrans; [apply other_reply_length|lia]. intros c Hc. congruence.
Qed.

(** ** The response to a request *)

(** The call of the table that the request on [c] makes. *)
Definition conn_request (c : Conn) : option request :=
  match http_spec (stream (c_recv c)).1 (stream (c_recv c)).2 with
  | Refused _ _ => None
  | Accepted _ body => text_request (c_string body)
  end.

(** The call made by worker [i] for the descriptor number [n]; where there is none
    the name is not used. *)
Definition place_of (i n : nat) (c : Conn) : place := (i, (n, default Q_all (conn_request c))).

(** The status and the body that the request on [c] is answered between the
    moments [b] and [e] by the call [x]; [D] has the records with the calls that
    stored them. *)
Definition response_to (D : list (record * place)) (x : place) (b e : nat) (c : Conn) (status : Z) (body : cstr) : Prop :=
  match http_spec (stream (c_recv c)).1 (stream (c_recv c)).2 with
  | Refused st message => status = st ∧ body = refusal_body (server_http_error_status_name st) (lit message)
  | Accepted _ text => ∃ rep, sql_answer D x b e (c_string text) rep ∧ status = reply_code rep ∧ body = print_json (reply_json rep)
  end.

Lemma response_to_later D D' x b e e' c status body :
  D `prefix_of` D' → e ≤ length D → e ≤ e' → response_to D x b e c status body → response_to D' x b e' c status body.
Proof.
  unfold response_to. intros Hp He Hee. destruct (http_spec _ _); [done|]. intros (rep & Ha & H). exists rep.
  split; [by eapply sql_answer_later|done].
Qed.

Section spec.
Context {KI : KeyIndex}.
Context (tb : loc) (boot : Mem).
Abbreviation T := (table_protocol tb boot).
Abbreviation agree := (agree tb boot).
Abbreviation W := (world_protocol tb boot).

Lemma agree_names g m : agree g m → Forall name_fits (entries g).*1 ∧ (Z.of_nat (length (entries g)) < INT_MAX)%Z.
Proof.
  intros Hag. split.
  - rewrite entries_records. apply Forall_forall. intros r ([l r'] & -> & Hr)%list_elem_of_fmap.
    unfold log_rows in Hr. apply list_elem_of_fmap in Hr as ([? x] & [= <-] & Hx).
    destruct (ag_calls _ _ _ _ Hag _ _ Hx) as (name & age & _ & Hn & _). unfold name_fits. cbn in *. rewrite Hn.
    unfold strncpy. rewrite length_take. unfold RECORD_NAME_SIZE. lia.
  - rewrite length_entries. eapply Z.le_lt_trans; [|apply (ag_total _ _ _ _ Hag)].
    apply inj_le. rewrite <- (length_fmap snd (g_log g)), <- size_dom.
    rewrite <- (size_list_to_set (C := gset place)) by apply Hag. apply subseteq_size.
    intros x [[r y] [-> Hr]]%elem_of_list_to_set%list_elem_of_fmap. apply elem_of_dom.
    exists (Stored (row_id r)). by apply (ag_log _ _ _ _ Hag).
Qed.

(** ** Executing a request *)

(** What a handler keeps while it goes on. *)
Record keeps (i : nat) (k : nat * request) (g g' : shared) : Prop := {
  ks_called : called i k (sh_table g) (sh_table g');
  ks_array : owns_none i (sh_table g');
  ks_conns : own_part i (sh_conns g) (sh_conns g')
}.

Lemma keeps_relies i k g g1 g2 : keeps i k g g1 → world_relies i g1 g2 → keeps i k g g2.
Proof.
  intros [Hc Ha Hn] [Ht _ Hr]. split; [by eapply called_relies|by eapply owns_progress, relies_progress|by eapply own_part_trans].
Qed.

Lemma keeps_refl i k g : idle i (sh_table g) → keeps i k g g.
Proof. intros Hi. split; [by apply called_refl|apply Hi|done]. Qed.

Lemma result_relies i r t t' rep : result_of i r t rep → relies i t t' → result_of i r t' rep.
Proof.
  intros [rws cap Ho Hsub Hr|l x Ho Hx Hr|Ho Hr] Hrel.
  - eapply RO_rows; [by eapply owns_progress, relies_progress| |done].
    intros x Hx%Hsub. eapply log_rows_later; [apply Hrel|done].
  - eapply RO_insert; [by eapply owns_progress, relies_progress| |done]. eapply log_rows_later; [apply Hrel|done].
  - apply RO_error; [by eapply owns_progress, relies_progress|done].
Qed.

(** The array of a result is gone when the reply is written. *)
Lemma without_result i r t rep : result_of i r t rep →
  owns_none i (without (records (res_rows r)) t) ∧ guar T i t (without (records (res_rows r)) t).
Proof.
  intros Hres.
  assert (match records (res_rows r) with
    | None => ∀ a arr, g_arrays t !! a ≠ Some (i, arr)
    | Some a => ∃ arr, ∀ a' arr', g_arrays t !! a' = Some (i, arr') ↔ a' = a ∧ arr' = arr
    end) as Ha.
  { destruct Hres as [rws cap [_ _ Ho] _ _|l x [_ _ [_ Ho]] _ ->|[_ _ [_ Ho]] ->]; [|exact Ho..].
    destruct (records (res_rows r)); [|apply Ho]. destruct Ho as (arr & Ho & _). by exists arr. }
  destruct (records (res_rows r)) as [a|]; cbn [without]; [|by split; [split|apply guar_refl]].
  destruct Ha as (arr & Ha). assert (g_arrays t !! a = Some (i, arr)) as Hga by by apply Ha. split.
  - split; [done|done|]. split; [done|]. intros a' arr' Hx. cbn in Hx.
    apply lookup_delete_Some in Hx as [Hne Hx]. by apply Ha in Hx as [-> _].
  - split; [|done]. intros j Hj. split; try done. intros a' arr'. cbn. rewrite lookup_delete_Some. split; [|by intros [_ ?]].
    intros Hx. split; [|done]. intros <-. congruence.
Qed.

Lemma without_kept p t : g_log (without p t) = g_log t ∧ g_locks (without p t) = g_locks t ∧ g_stages (without p t) = g_stages t.
Proof. by destruct p. Qed.

(** The reply to a result. *)
Lemma wpc_reply_result i r rep (Q : bool * option ApiResult → shared → Prop) g :
  no_text i g → result_of i r (sh_table g) rep →
  (∀ t1 m, relies i (sh_table g) t1 → agree t1 m → (Z.of_nat (reply_length rep) < BODY_MAX)%Z) →
  (∀ l g', going i (sh_table g) (sh_table g') → owns_none i (sh_table g') → own_part i (sh_conns g) (sh_conns g') →
     has_text i l (print_json (reply_json rep)) g' → Q (true, Some (MkApi (reply_code rep) (Some l))) g') →
  wpc W i (atomic Local (on_mem (api_reply_result r))) Q g.
Proof.
  intros Hno Hres Hlt HQ. apply (wpc_builds _ _ _ (print_json (reply_json rep))); [done|]. intros t1 m Hr Hag Hb.
  pose proof (result_relies _ _ _ _ _ Hres Hr) as Hres1. destruct (without_result _ _ _ _ Hres1) as [Hnone Hguar].
  destruct (result_of_in _ _ _ _ _ _ _ Hag Hres1) as (B & HagB & Hin).
  assert ((∃ x, rep = insert_reply x) ∨ (∃ rs, rep = rows_reply rs) ∨ rep = plain_reply SQL_STATUS_ERROR) as Hrep
    by (destruct Hres; eauto).
  eapply wp_mono; [|apply (reply_refines B r rep m); [apply HagB|done|by eapply Hlt|done..]].
  intros out m' (base & Hs & _ & l & -> & Hat). exists (without (records (res_rows r)) t1), base, l.
  split_and!; [by eapply agree_spent|done| |done|].
  - rewrite (spent_bytes _ _ Hs). symmetry. by apply (result_in_same _ _ _ _ Hin).
  - intros g2 Ht Hc Htext. apply HQ; [|by rewrite Ht|done|done].
    destruct (without_kept (records (res_rows r)) t1) as (El & Ek & Es).
    eapply going_trans; [by apply relies_going|]. rewrite Ht. split; [by rewrite El|by rewrite Ek|intros; by rewrite Es].
Qed.

Lemma called_going i k t t1 t2 : called i k t t1 → going i t1 t2 → called i k t t2.
Proof.
  intros [Hl Hk Hs Ht] [Gl Gk Gs]. split; [by etrans|by rewrite Gk|intros; rewrite Gs; by apply Hs|intros; rewrite Gs; apply Ht].
Qed.

Lemma sql_answer_small t m x b e text rep :
  agree t m → sql_answer (entries t) x b e text rep → (Z.of_nat (reply_length rep) < BODY_MAX)%Z.
Proof.
  intros Hag Ha. destruct (agree_names t m Hag) as [Hfit Hlen].
  eapply body_small; [by eapply sql_answer_length|lia].
Qed.

(** A text that does not reach the table. *)
Lemma query_other text r0 : ¬ executes text →
  api_handle_query_acts (Some tb) (Some text) (Some r0) = atomic Local (api_handle_query (Some tb) (Some text) (Some r0)).
Proof.
  unfold executes, api_handle_query_acts, api_handle_query. cbv zeta. intros Hno.
  destruct (parsed (sql_parse (Some text))); cbn [negb]; [|done]. case_decide as Hexit; [done|]. by destruct Hno.
Qed.

Lemma other_request text : ¬ executes text → text_request text = None.
Proof.
  unfold executes, text_request, command_request. destruct (parsed _); [|done].
  destruct (cmd_type _); try done; intros Hno; exfalso; by apply Hno.
Qed.

Section query.
Context (i : nat) (k : nat * request) (text : cstr) (r0 : ApiResult) (Q : bool * option ApiResult → shared → Prop) (g : shared).
Context (Hidle : idle i (sh_table g)) (Hno : no_text i g) (Hstage : g_stages (sh_table g) !! (i, k) = Some Waiting).
Context (Hk : ∀ q, text_request text = Some q → k.2 = q).
Context (HQ : ∀ l rep g', keeps i k g g' →
  sql_answer (entries (sh_table g')) (i, k) (length (g_log (sh_table g))) (length (g_log (sh_table g'))) text rep →
  has_text i l (print_json (reply_json rep)) g' → Q (true, Some (MkApi (reply_code rep) (Some l))) g').

Lemma wpc_query_other : ¬ executes text →
  wpc W i (on_mem_acts (api_handle_query_acts (Some tb) (Some text) (Some r0))) Q g.
Proof using Hidle Hno HQ.
  intros Hex. rewrite query_other by done. pose proof (other_request text Hex) as Hreq.
  assert (∀ D b e, sql_answer D (i, k) b e text (spec_sql text []).1) as Hans.
  { intros D b e. unfold sql_answer. by rewrite Hreq. }
  apply (wpc_builds _ _ _ (print_json (reply_json (spec_sql text []).1))); [done|]. intros t1 m Hr Hag Hb.
  pose proof (refused_answers tb text r0 [] m Hex Hb) as Hwp. unfold spec_api in Hwp.
  pose proof (sql_answer_small t1 m _ 0 0 text _ Hag (Hans _ _ _)) as Hlt. unfold reply_length in Hlt.
  destruct (spec_sql text []) as [rep db]. cbn [fst snd] in *.
  eapply wp_mono; [|by apply Hwp]. intros out m' [(l & -> & Hat)|(st & _ & Hf & _)]; [|by destruct Hf; apply Hag].
  exists t1, m, l. split_and!; [done|apply guar_refl|done|done|]. intros g2 Ht Hc Htext.
  pose proof (relies_going _ _ _ Hr) as Hgo. apply HQ; [|apply Hans|done]. rewrite <- Ht in *. split; [by apply going_called| |done].
  eapply owns_progress; [apply Hidle|by apply relies_progress].
Qed.

Lemma wpc_query_plan : executes text →
  wpc T i (sql_execute_plan_acts (Some tb) (Some (command (sql_parse (Some text)))))
    (λ r t, ∃ rep, called i k (sh_table g) t ∧ result_of i r t rep ∧
       sql_answer (entries t) (i, k) (length (g_log (sh_table g))) (length (g_log t)) text rep) (sh_table g).
Proof using Hidle Hstage Hk.
  clear HQ Q. intros [Hp Hexit]. unfold sql_answer, text_request in *. rewrite Hp in *.
  destruct (command_request (command (sql_parse (Some text)))) as [q|] eqn:Hq.
  - apply (wpc_plan tb boot i k _ _ Hidle Hstage); [|by rewrite (Hk q)]. intros r rep t Hc Ha Hres.
    exists (reply_of rep). rewrite (Hk q eq_refl) in Ha. split_and!; [done|done|]. by exists rep.
  - assert (cmd_type (command (sql_parse (Some text))) = SQL_COMMAND_NONE) as Hnone.
    { unfold command_request in Hq. by destruct (cmd_type _). }
    unfold sql_execute_plan_acts. rewrite Hnone. apply wpc_ret. exists (plain_reply SQL_STATUS_ERROR).
    split_and!; [by apply called_refl|by apply RO_error; [apply Hidle|]|].
    unfold spec_sql, spec_command. by rewrite Hp, Hnone.
Qed.

Lemma wpc_query : wpc W i (on_mem_acts (api_handle_query_acts (Some tb) (Some text) (Some r0))) Q g.
Proof using Hidle Hno Hstage Hk HQ.
  destruct (decide (executes text)) as [Hex|Hex]; [|by apply wpc_query_other].
  pose proof (wpc_query_plan Hex) as Hplan. destruct Hex as [Hp Hexit].
  unfold api_handle_query_acts. cbv zeta. rewrite Hp. cbn [negb]. rewrite decide_False by done.
  apply wpc_on_mem_bind. eapply wpc_mono; [apply wpc_on_mem_acts; [apply calm_plan|exact Hplan]|].
  intros r g1 (Hbl & Hcn & rep & Hc & Hres & Ha).
  apply (wpc_reply_result _ _ rep); [by eapply no_text_own|done| |].
  - intros t1 m Hr Hag. eapply (sql_answer_small t1 m); [done|]. eapply sql_answer_later; [..|exact Ha].
    + apply entries_prefix, Hr.
    + by rewrite length_entries.
    + apply prefix_length, Hr.
  - intros l g2 Hgo Ho Hcn2 Htext. apply HQ; [|eapply sql_answer_later; [..|exact Ha]|done].
    + split; [by eapply called_going|done|by eapply own_part_trans].
    + apply entries_prefix, Hgo.
    + by rewrite length_entries.
    + apply prefix_length, Hgo.
Qed.
End query.

(** ** A handler *)

(** The one connection of thread [i] is that of [fd], in the state [x]. *)
Definition has_conn (i : nat) (fd : Z) (x : Conn) (g : shared) : Prop :=
  ∀ fd' x', sh_conns g !! fd' = Some (i, x') ↔ fd' = fd ∧ x' = x.

Lemma has_conn_own i fd x g g' : own_part i (sh_conns g) (sh_conns g') → has_conn i fd x g → has_conn i fd x g'.
Proof. intros Ho Hc fd' x'. by rewrite <- (Ho fd' x'). Qed.

Lemma has_conn_put i fd x x' g : has_conn i fd x g → has_conn i fd x' (put_conn i fd x' g).
Proof.
  intros Hc fd' y. cbn. split.
  - intros [[<- [= <-]]|[Hne Hy]]%lookup_insert_Some; [done|]. by apply Hc in Hy as [-> _].
  - intros [-> ->]. apply lookup_insert_eq.
Qed.

(** The handler of thread [i] goes on; its connection was [c] when it began in [g0]. *)
Record handling_at (i : nat) (k : nat * request) (fd : Z) (x : Conn) (g0 g : shared) : Prop := {
  ha_called : called i k (sh_table g0) (sh_table g);
  ha_array : owns_none i (sh_table g);
  ha_conn : has_conn i fd x g
}.

(** It has the text of its response. *)
Record responding (i : nat) (k : nat * request) (fd : Z) (c x : Conn) (l : loc) (status : Z) (s : cstr) (g0 g : shared) : Prop := {
  rs_at : handling_at i k fd x g0 g;
  rs_text : has_text i l s g;
  rs_response : response_to (entries (sh_table g)) (i, k) (length (g_log (sh_table g0))) (length (g_log (sh_table g))) c status s
}.

(** It has sent it. *)
Record handled (i : nat) (k : nat * request) (fd : Z) (c : Conn) (g0 g : shared) : Prop := {
  hd_text : no_text i g;
  hd_out : ∃ x status s, handling_at i k fd x g0 g ∧
    response_to (entries (sh_table g)) (i, k) (length (g_log (sh_table g0))) (length (g_log (sh_table g))) c status s ∧
    delivered c (response_text status json_type s) x
}.

Lemma handling_at_relies i k fd x g0 g g' : handling_at i k fd x g0 g → world_relies i g g' → handling_at i k fd x g0 g'.
Proof.
  intros [Hc Ha Hx] [Ht _ Hr]. split; [by eapply called_relies|by eapply owns_progress, relies_progress|by eapply has_conn_own].
Qed.

Lemma response_grows t t' x b c status s :
  g_log t `prefix_of` g_log t' → response_to (entries t) x b (length (g_log t)) c status s →
  response_to (entries t') x b (length (g_log t')) c status s.
Proof. intros Hp. apply response_to_later; [by apply entries_prefix|by rewrite length_entries|by apply prefix_length]. Qed.

Lemma responding_relies i k fd c x l status s g0 g g' :
  responding i k fd c x l status s g0 g → world_relies i g g' → responding i k fd c x l status s g0 g'.
Proof.
  intros [Hat Ht Hs] Hr. split; [by eapply handling_at_relies|eapply has_text_own; [apply Hr|done]|].
  eapply response_grows; [apply Hr|done].
Qed.

Lemma handled_relies i k fd c g0 g g' : handled i k fd c g0 g → world_relies i g g' → handled i k fd c g0 g'.
Proof.
  intros [Hn (x & status & s & Hat & Hs & Hd)] Hr. split; [eapply no_text_own; [apply Hr|done]|].
  exists x, status, s. split_and!; [by eapply handling_at_relies|eapply response_grows; [apply Hr|done]|done].
Qed.

Section handler.
Context (i : nat) (k : nat * request) (fd : Z) (c : Conn) (g0 : shared) (Htimed : timed c).

(** Sending the text and releasing it. *)
Lemma wpc_respond l status s x (release : world_act unit) g :
  responding i k fd c x l status s g0 g → NUL ∉ s → quiet_recv c x →
  (∀ x' g', responding i k fd c x' l status s g0 g' → delivered c (response_text status json_type s) x' →
     wpc W i release (λ _ g2, handled i k fd c g0 g2) g') →
  wpc W i (text ← atomic Local (on_mem (read_string (Some l)));
           atomic Local (on_conn fd (http_send_response status (Some json_type) (Some text)));; release)
    (λ _ g2, handled i k fd c g0 g2) g.
Proof.
  intros Hres Hs Hq Hrel. apply wpc_bind. eapply wpc_read_text; [apply Hres|done|]. intros g1 Hr1.
  pose proof (responding_relies _ _ _ _ _ _ _ _ _ _ _ Hres Hr1) as Hres1.
  apply wpc_bind. apply wpc_on_conn with (x := x); [by apply (ha_conn _ _ _ _ _ _ (rs_at _ _ _ _ _ _ _ _ _ _ Hres1))|].
  eapply (wp_weaken (broken x) (stuck x)); [done|by apply timed_never_waits, (quiet_keeps_send _ _ Hq)|].
  eapply wp_mono; [|apply send_response_ok, response_header_short; vm_compute; lia].
  intros ok x' Hsent g2 Hr2. apply (Hrel x'); [|by eapply sent_delivered].
  destruct (responding_relies _ _ _ _ _ _ _ _ _ _ _ Hres1 Hr2) as [[Hc Ha Hx] Ht Hr].
  split; [split; [done|done|by eapply has_conn_put]|done|done].
Qed.

(** The release of the text. *)
Lemma wpc_handled {X} l status s x (release : prog Mem X) g :
  responding i k fd c x l status s g0 g → delivered c (response_text status json_type s) x →
  (∀ B m (R : Mem → Prop), body_at B l s m → (∀ m', spent B m' → R m') → wp release (λ _, R) m) →
  wpc W i (atomic Local (on_mem release)) (λ _ g2, handled i k fd c g0 g2) g.
Proof.
  intros Hres Hd Hrel. apply (wpc_releases _ _ _ l s); [apply Hres|]. intros B m Hat. eapply Hrel; [exact Hat|].
  intros m' Hs. split; [done|]. intros g1 g2 Hr Et Ec Hno.
  pose proof (responding_relies _ _ _ _ _ _ _ _ _ _ _ Hres Hr) as [[Hc Ha Hx] _ Hans].
  split; [done|]. exists x, status, s. rewrite Et. split_and!; [|done|done]. split; rewrite ?Et; [done..|].
  intros fd' x'. rewrite Ec. apply Hx.
Qed.

(** A request that is refused. *)
Lemma wpc_send_error status message x g :
  handling_at i k fd x g0 g → no_text i g →
  (∀ D y b e, response_to D y b e c status (refusal_body (server_http_error_status_name status) message)) →
  (Z.of_nat (length (refusal_body (server_http_error_status_name status) message)) < BODY_MAX)%Z →
  quiet_recv c x →
  wpc W i (send_error_acts fd status (server_http_error_status_name status) message) (λ _ g2, handled i k fd c g0 g2) g.
Proof.
  intros Hat Hno Hans Hlt Hq. set (s := refusal_body _ _) in *. unfold send_error_acts. apply wpc_bind.
  apply (wpc_builds _ _ _ s); [done|]. intros t1 m Hr Hag Hb.
  eapply wp_mono; [|by apply error_body_built].
  intros p m' [(l & -> & Hbody)|(_ & Hf & _)]; [|by destruct Hf; apply Hag].
  exists t1, m, l. split_and!; [done|apply guar_refl|done|done|]. intros g2 Ht Hc Htext.
  assert (responding i k fd c x l status s g0 g2) as Hres.
  { destruct Hat as [Hcl Ha Hx]. split; [split|done|apply Hans].
    - rewrite Ht. by eapply called_relies.
    - rewrite Ht. by eapply owns_progress, relies_progress.
    - by eapply has_conn_own. }
  apply (wpc_respond l status s x); [done|apply refusal_clean|done|].
  intros x' g' Hres' Hd. apply (wpc_handled l status s x'); [done|done|].
  intros B m0 R Hb' HR. by eapply body_free.
Qed.

(** The whole handler. *)
Lemma wpc_handler :
  idle i (sh_table g0) → no_text i g0 → has_conn i fd c g0 → g_stages (sh_table g0) !! (i, k) = Some Waiting →
  k.2 = default Q_all (conn_request c) →
  wpc W i (server_handle_client_acts (Some tb) fd) (λ _ g2, handled i k fd c g0 g2) g0.
Proof.
  intros Hidle Hno Hconn Hstage Hk. destruct (stream (c_recv c)) as [raw e] eqn:Hraw.
  assert (handling_at i k fd c g0 g0) as Hat0 by (split; [by apply called_refl|apply Hidle|done]).
  unfold server_handle_client_acts. apply wpc_bind. apply wpc_on_conn with (x := c); [by apply Hconn|].
  eapply (wp_weaken False (silent c)); [done|by apply timed_never_waits|].
  eapply wp_mono; [|by apply http_read_ok]. intros [[res rq] er] c1 [Hq Hd] g1 Hr1.
  set (g2 := put_conn i fd c1 g1).
  assert (idle i (sh_table g2)) as Hidle2 by (eapply idle_relies; [exact Hidle|apply Hr1]).
  assert (no_text i g2) as Hno2 by (eapply no_text_own; [apply (wr_blocks _ _ _ Hr1)|done]).
  assert (handling_at i k fd c1 g0 g2) as Hat2.
  { destruct (handling_at_relies _ _ _ _ _ _ _ Hat0 Hr1) as [Hc Ha Hx]. split; [done|done|by eapply has_conn_put]. }
  assert (g_stages (sh_table g2) !! (i, k) = Some Waiting) as Hstage2.
  { cbn. by rewrite (ry_stages _ _ _ (wr_table _ _ _ Hr1)). }
  assert (http_spec (stream (c_recv c)).1 (stream (c_recv c)).2 = http_spec raw e) as Hspec by (by rewrite Hraw).
  unfold conn_request in Hk. rewrite Hspec in Hk.
  destruct (http_spec raw e) as [status message|version text] eqn:Espec; cbn [delivers fst snd] in Hd.
  - destruct Hd as [-> ->]. rewrite decide_True by done.
    destruct (refusals_fit status message) as (Hfit & Hne & Hsmall); [by eapply http_spec_refusals|].
    cbn [report error_status Http.error_message default from_option id set_error]. rewrite (decide_False (P := 128 = 0)) by done.
    rewrite Hfit, decide_True by done. apply (wpc_send_error _ _ c1); [done|done| |done|done].
    intros D y b e'. unfold response_to. by rewrite Hspec.
  - injection Hd as -> -> ->. rewrite decide_False by (intros Hx; by apply Hx). cbn [request_of req_body]. rewrite c_string_padded.
    apply wpc_bind. apply (wpc_query i k (c_string text)); [done|done|done| |].
    { intros q Hq0. by rewrite Hk, Hq0. }
    intros l rep g3 [Hc3 Ha3 Hn3] Hans Htext.
    assert (responding i k fd c c1 l (reply_code rep) (print_json (reply_json rep)) g0 g3) as Hres.
    { destruct Hat2 as [Hc2 Ha2 Hx2]. pose proof (wr_table _ _ _ Hr1) as Hrt. split; [split|done|].
      - destruct Hc3 as [Hl3 Hk3 Hs3 Ht3]. split; [|done| |done].
        + etrans; [apply Hrt|exact Hl3].
        + intros k' Hne. rewrite Hs3 by done. apply (ry_stages _ _ _ Hrt).
      - done.
      - by eapply has_conn_own.
      - unfold response_to. rewrite Hspec. exists rep. split; [|done]. eapply sql_answer_earlier; [|exact Hans]. apply prefix_length, Hrt. }
    cbn [body http_status]. apply (wpc_respond l (reply_code rep) (print_json (reply_json rep)) c1); [done|apply clean_no_nul, print_json_clean|done|].
    intros x' g' Hres' Hd. apply wpc_bind. eapply wpc_mono; [apply (wpc_handled l (reply_code rep) (print_json (reply_json rep)) x'); [exact Hres'|exact Hd|]|].
    + intros B m R Hb HR. eapply destroy_body; [exact Hb|]. by intros m' Hm'; apply HR.
    + intros o g4 Hh. by apply wpc_ret.
Qed.
End handler.
End spec.
