(* ===== verification/ServerAlive.v ===== *)
(** What is true of the server while it exists, its handlers interleaved at the
    table: one order of the records explains every response, and every open
    connection is the business of exactly one thread; the steps of the main
    thread and of the workers between two handlers keep it. *)
From stdpp Require Import base list gmap sorting strings.
From Stdlib Require Import Ascii ZArith Lia.
From S2P Require Import ThreadPool ThreadPoolInv ThreadPoolSafe ThreadPoolRuns ThreadPoolLive Prelude Memory CLib CLibProofs BPTree Index Table TableMem TableRep TableCollect TableQueries TableUpdate TableLife TableSpec Actions TableActs TableActsAlone TableActsInv TableActsSteps TableActsInsert TableActsArrays TableActsLookups TableActsCollect TableActsSpec TableActsRuns TableActsEnds Sql SqlLex SqlGrammar SqlErrors SqlSpec RowTypes Quiet Repl Bytes Json JsonProofs JsonValue Api ApiSpec ApiActs ApiActsSpec Http HttpSpec HttpText Server ServerSpec ServerActs ServerActsInv ServerActsSpec ServerPool.

(** ** What clients see *)

(** One client alone: the records after its request, and the response. *)
Definition serve (db : list record) (x : Z * Conn) : list record :=
  (spec_response (stream (c_recv x.2)).1 (stream (c_recv x.2)).2 db).2.
Definition answer_alone (c : Conn) (db : list record) : cstr :=
  let r := spec_response (stream (c_recv c)).1 (stream (c_recv c)).2 db in response_text r.1.1 json_type r.1.2.

Definition busy_text : cstr := response_text 503 json_type (refusal_body (lit "queue_full") (lit "Server is busy")).

(** The call of the table that a service made; in the table's protocol the main
    thread is thread 0 and worker [i] is thread [S i]. *)
Definition service_place (s : service) : place := place_of (S (s_worker s)) (s_number s) (s_conn s).

(** [out] is the response to the request that [s] handled, or a part of it if the
    peer did not take it all. *)
Definition serviced (D : list (record * place)) (s : service) (out : cstr) : Prop :=
  ∃ status body k, response_to D (service_place s) (s_begin s) (s_end s) (s_conn s) status body ∧
    out = take k (response_text status json_type body) ∧
    (writable (s_conn s) → k = length (response_text status json_type body)).

(** A connection that was closed unserved got the text of [queue_full], or a part
    of it, perhaps nothing. *)
Definition closed_ok (D : list (record * place)) (srv : list service) (cl : list (Z * cstr)) : Prop :=
  ∀ fd out, (fd, out) ∈ cl → (∃ k, out = take k busy_text) ∨ ∃ s, s ∈ srv ∧ s_fd s = fd ∧ serviced D s out.

Lemma serviced_later D D' s out : D `prefix_of` D' → s_end s ≤ length D → serviced D s out → serviced D' s out.
Proof.
  intros Hp He (st & body & k & Hr & Hout). exists st, body, k. split; [|done]. by eapply response_to_later.
Qed.

Lemma closed_ok_later D D' srv srv' cl :
  D `prefix_of` D' → Forall (λ s, s_end s ≤ length D) srv → srv ⊆ srv' → closed_ok D srv cl → closed_ok D' srv' cl.
Proof.
  intros Hp He Hsub H fd out Hin. destruct (H fd out Hin) as [?|(s & Hs & Hfd & Hok)]; [by left|right].
  exists s. split_and!; [by apply Hsub|done|]. rewrite Forall_forall in He. eapply serviced_later; [done|by apply He|done].
Qed.

Lemma closed_ok_snoc D srv cl fd out : closed_ok D srv cl →
  ((∃ k, out = take k busy_text) ∨ ∃ s, s ∈ srv ∧ s_fd s = fd ∧ serviced D s out) → closed_ok D srv (cl ++ [(fd, out)]).
Proof.
  intros Hcl Hout fd' out' [Hin|Hin]%elem_of_app; [by apply Hcl|]. apply list_elem_of_singleton in Hin. by injection Hin as -> ->.
Qed.

(** ** Numbers *)

(** The number of a handler is the place of its descriptor in the order [tk] in
    which the descriptors were taken. *)
Record numbered (hs : gmap nat handling) (srv : list service) (tk : list Z) : Prop := {
  nb_handler i h : hs !! i = Some h → tk !! h_number h = Some (h_fd h);
  nb_service s : s ∈ srv → tk !! s_number s = Some (s_fd s);
  nb_handlers i j h h' : hs !! i = Some h → hs !! j = Some h' → h_number h = h_number h' → i = j;
  nb_apart i h s : hs !! i = Some h → s ∈ srv → h_number h ≠ s_number s;
  nb_services : NoDup (s_number <$> srv)
}.

Lemma numbered_call hs srv tk i h :
  numbered hs srv tk → hs !! i = None → h_number h = length tk → numbered (<[i := h]> hs) srv (tk ++ [h_fd h]).
Proof.
  intros [Hh Hs Hi Ha Hn] Hnone Hnum.
  assert (∀ j h', hs !! j = Some h' → h_number h' < length tk) as Hlt by (intros j h' Hj; by eapply lookup_lt_Some, Hh).
  assert (∀ s, s ∈ srv → s_number s < length tk) as Hlt' by (intros s Hin; by eapply lookup_lt_Some, Hs).
  split.
  - intros j h' [[<- <-]|[_ Hj]]%lookup_insert_Some; [rewrite Hnum; by apply list_lookup_middle|]. by eapply lookup_app_l_Some, Hh.
  - intros s Hin. by eapply lookup_app_l_Some, Hs.
  - intros j j' h1 h2 [[<- <-]|[_ Hj]]%lookup_insert_Some [[<- <-]|[_ Hj']]%lookup_insert_Some Heq; [done|..].
    + apply Hlt in Hj'. lia.
    + apply Hlt in Hj. lia.
    + by eapply Hi.
  - intros j h' s [[<- <-]|[_ Hj]]%lookup_insert_Some Hin; [|by eapply Ha]. apply Hlt' in Hin. lia.
  - done.
Qed.

Lemma numbered_act hs srv tk i h h' :
  numbered hs srv tk → hs !! i = Some h → h_number h' = h_number h → h_fd h' = h_fd h → numbered (<[i := h']> hs) srv tk.
Proof.
  intros [Hh Hs Hi Ha Hn] Hih En Ef. split.
  - intros j h1 [[<- <-]|[_ Hj]]%lookup_insert_Some; [rewrite En, Ef; by eapply Hh|by eapply Hh].
  - done.
  - intros j j' h1 h2 [[<- <-]|[_ Hj]]%lookup_insert_Some [[<- <-]|[_ Hj']]%lookup_insert_Some Heq; [done|..].
    + rewrite En in Heq. by eapply Hi.
    + rewrite En in Heq. by eapply Hi.
    + by eapply Hi.
  - intros j h1 s [[<- <-]|[_ Hj]]%lookup_insert_Some Hin; [rewrite En|]; by eapply Ha.
  - done.
Qed.

Lemma numbered_return hs srv tk i h s :
  numbered hs srv tk → hs !! i = Some h → s_number s = h_number h → s_fd s = h_fd h → numbered (delete i hs) (srv ++ [s]) tk.
Proof.
  intros [Hh Hs Hi Ha Hn] Hih En Ef. split.
  - intros j h1 [_ Hj]%lookup_delete_Some. by eapply Hh.
  - intros s' [Hin| ->%list_elem_of_singleton]%elem_of_app; [by apply Hs|]. rewrite En, Ef. by eapply Hh.
  - intros j j' h1 h2 [_ Hj]%lookup_delete_Some [_ Hj']%lookup_delete_Some. by eapply Hi.
  - intros j h1 s' [Hne Hj]%lookup_delete_Some [Hin| ->%list_elem_of_singleton]%elem_of_app; [by eapply Ha|].
    rewrite En. intros Heq. apply Hne. by eapply Hi.
  - rewrite fmap_app. apply NoDup_app. split_and!; [done| |apply NoDup_singleton].
    intros n (s' & -> & Hin)%list_elem_of_fmap Heq%list_elem_of_singleton. rewrite En in Heq. by eapply Ha.
Qed.

(** ** Descriptors *)

(** The descriptor that is neither queued nor with a worker. *)
Definition pending (c : server_pc) (p : System) : list Z :=
  match c with
  | S_call (K_submit fd a) => if decide (length (accepted p) = a) then [fd] else []
  | _ => []
  end.
Definition owned (c : server_pc) (p : System) : list Z := pending c p ++ held p.

(** Whose a connection is: a running handler's, or the main thread's, with which
    we count those that are queued or to be closed. *)
Definition owner_ok (hs : gmap nat handling) (fd : Z) (j : nat) : Prop :=
  match j with
  | O => ∀ i h, hs !! i = Some h → h_fd h ≠ fd
  | S i => ∃ h, hs !! i = Some h ∧ h_fd h = fd
  end.

Section runs.
Context {KI : KeyIndex} (boot : Mem) (limit : nat).

Section table.
Context (tb : loc).
Abbreviation W := (world_protocol tb boot).

(** *** One handler *)

(** Its call of the table. *)
Definition handler_call (h : handling) : nat * request := (h_number h, default Q_all (conn_request (h_conn h))).

(** A handler of thread [j] goes by the rules since it began. *)
Definition runs (j : nat) (h : handling) (g : shared) : Prop :=
  ∃ g0, h_begin h = length (g_log (sh_table g0)) ∧ c_out (h_conn h) = [] ∧ touching (h_fd h) (h_todo h) ∧ idle j (sh_table g0) ∧
    wpc W j (h_todo h) (λ _ g2, handled j (handler_call h) (h_fd h) (h_conn h) g0 g2) g.

(** A thread without a handler has nothing. *)
Definition rests (j : nat) (g : shared) : Prop := idle j (sh_table g) ∧ no_text j g.

Lemma runs_relies j h g g' : runs j h g → world_relies j g g' → runs j h g'.
Proof.
  intros (g0 & Hb & Ho & Ht & Hi & Hp) Hr. exists g0. split_and!; [done..|]. eapply wpc_rely; [|exact Hp|exact Hr].
  intros u g1 g2. apply handled_relies.
Qed.

Lemma rests_relies j g g' : rests j g → world_relies j g g' → rests j g'.
Proof. intros [Hi Hn] Hr. split; [by eapply idle_relies, Hr|by eapply no_text_own; [apply Hr|]]. Qed.

(** The handlers that run are those of the workers that handle a descriptor, and
    each goes by the rules. *)
Record crew (hs : gmap nat handling) (ts : list worker_pc) (g : shared) : Prop := {
  cr_handler i h : hs !! i = Some h → ts !! i = Some (W_handle (h_fd h));
  cr_busy i fd : ts !! i = Some (W_handle fd) → is_Some (hs !! i);
  cr_runs i h : hs !! i = Some h → runs (S i) h g;
  cr_rests j : (∀ i, j = S i → hs !! i = None) → rests j g
}.

Lemma crew_same hs ts ts' g g' :
  crew hs ts g → (∀ i fd, ts' !! i = Some (W_handle fd) ↔ ts !! i = Some (W_handle fd)) →
  (∀ j, j ≠ 0 → world_relies j g g') → rests 0 g' → crew hs ts' g'.
Proof.
  intros [Hh Hb Hr Hn] Hts Hrel H0. split.
  - intros i h Hi. by apply Hts, Hh.
  - intros i fd Hi. by eapply Hb, Hts.
  - intros i h Hi. eapply runs_relies; [by apply Hr|by apply Hrel].
  - intros [|j] Hj; [done|]. eapply rests_relies; [by apply Hn|by apply Hrel].
Qed.

(** One worker goes on. *)
Lemma crew_step i w hs hs' ts g g' :
  crew hs ts g → i < length ts → (∀ j, j ≠ i → hs' !! j = hs !! j) →
  (∀ j, j ≠ S i → j ≠ 0 → world_relies j g g') → rests 0 g' →
  match hs' !! i with
  | Some h => w = W_handle (h_fd h) ∧ runs (S i) h g'
  | None => (∀ fd, w ≠ W_handle fd) ∧ rests (S i) g'
  end → crew hs' (<[i := w]> ts) g'.
Proof.
  intros [Hh Hb Hr Hn] Hi Hhs Hrel H0 Hself. split.
  - intros j h Hj. destruct (decide (i = j)) as [<-|Hne].
    + rewrite Hj in Hself. destruct Hself as [-> _]. by apply list_lookup_insert_eq.
    + rewrite list_lookup_insert_ne by done. apply Hh. by rewrite <- Hhs.
  - intros j fd Hj. destruct (decide (i = j)) as [<-|Hne].
    + rewrite list_lookup_insert_eq in Hj by done. injection Hj as ->. destruct (hs' !! i); [eauto|]. by destruct Hself as [Hself _], (Hself fd).
    + rewrite list_lookup_insert_ne in Hj by done. rewrite Hhs by done. by eapply Hb.
  - intros j h Hj. destruct (decide (i = j)) as [<-|Hne]; [rewrite Hj in Hself; apply Hself|].
    rewrite Hhs in Hj by done. eapply runs_relies; [by apply Hr|apply Hrel; congruence].
  - intros [|j] Hj; [done|]. specialize (Hj j eq_refl). destruct (decide (i = j)) as [<-|Hne]; [rewrite Hj in Hself; apply Hself|].
    eapply rests_relies; [apply Hn; intros j' [= <-]; by rewrite <- Hhs|apply Hrel; congruence].
Qed.

(** *** The invariant *)

(** What became of a service. *)
Definition service_ok (g : shared) (cl : list (Z * cstr)) (ans : list Z) (s : service) : Prop :=
  s_end s ≤ length (entries (sh_table g)) ∧
  ∃ out, serviced (entries (sh_table g)) s out ∧
    ((s_fd s, out) ∈ cl ∨ ∃ x, sh_conns g !! s_fd s = Some (0, x) ∧ c_out x = out ∧ s_fd s ∈ ans).

(** A connection of the main thread has got its response; or nothing, and its
    timeouts are set. *)
Definition conn_ok (g : shared) (srv : list service) (ans : list Z) (fd : Z) (x : Conn) : Prop :=
  if decide (fd ∈ ans) then ∃ s, s ∈ srv ∧ s_fd s = fd ∧ serviced (entries (sh_table g)) s (c_out x)
  else c_out x = [] ∧ timed x.

(** The server exists; the main thread is at [c], [n] connections may yet come. *)
Record alive (c : server_pc) (sv : Server) (w : World) (hs : gmap nat handling) (srv : list service) (n : nat) (g : shared) : Prop := MkAlive {
  al_table : table sv = Some tb;
  al_world : world_agree tb boot g w;
  al_sound : sound (server_pool sv);
  al_call : call_ok c (server_pool sv);
  al_crew : crew hs (threads (server_pool sv)) g;
  al_nodup : NoDup (owned c (server_pool sv));
  al_open fd : is_Some (w_conns w !! fd) ↔ fd ∈ owned c (server_pool sv);
  al_owner fd j x : sh_conns g !! fd = Some (j, x) → owner_ok hs fd j;
  al_out fd x : sh_conns g !! fd = Some (0, x) → conn_ok g srv (answered_fds (server_pool sv)) fd x;
  al_served : Forall (service_ok g (w_closed w) (answered_fds (server_pool sv))) srv;
  al_closed : closed_ok (entries (sh_table g)) srv (w_closed w);
  al_numbers : numbered hs srv (taken (server_pool sv));
  al_stages x : x ∈ dom (g_stages (sh_table g)) →
    (∃ i h, hs !! i = Some h ∧ x = (S i, handler_call h)) ∨ ∃ s, s ∈ srv ∧ x = service_place s;
  al_size : base.size (g_stages (sh_table g)) = length (taken (server_pool sv));
  al_count : length (accepted (server_pool sv)) + length (pending c (server_pool sv)) + n ≤ limit
}.

Implicit Types (c : server_pc) (sv : Server) (w : World) (hs : gmap nat handling) (srv : list service) (n : nat) (g : shared).

(** *** What stays true *)

Lemma ends_known g cl ans srv : Forall (service_ok g cl ans) srv → Forall (λ s, s_end s ≤ length (entries (sh_table g))) srv.
Proof. intros H. eapply Forall_impl; [exact H|]. by intros s [He _]. Qed.

Lemma conn_ok_later g g' cl ans0 srv srv' ans ans' fd x :
  entries (sh_table g) `prefix_of` entries (sh_table g') → Forall (service_ok g cl ans0) srv → srv ⊆ srv' → (fd ∈ ans' ↔ fd ∈ ans) →
  conn_ok g srv ans fd x → conn_ok g' srv' ans' fd x.
Proof.
  intros Hp He%ends_known Hsub Hiff. unfold conn_ok. rewrite (decide_ext _ _ _ _ Hiff). case_decide; [|done].
  intros (s & Hs & Hfd & Hok). exists s. split_and!; [by apply Hsub|done|]. rewrite Forall_forall in He.
  eapply serviced_later; [done|by apply He|done].
Qed.

Lemma service_ok_later g g' cl ans ans' s :
  entries (sh_table g) `prefix_of` entries (sh_table g') →
  (∀ fd x, fd ∈ ans → sh_conns g !! fd = Some (0, x) → fd ∈ ans' ∧ sh_conns g' !! fd = Some (0, x)) →
  service_ok g cl ans s → service_ok g' cl ans' s.
Proof using Type.
  intros Hp Hc [He (out & Hs & Hor)]. split; [pose proof (prefix_length _ _ Hp); lia|]. exists out.
  split; [by eapply serviced_later|]. destruct Hor as [?|(x & Hx & Ho & Ha)]; [by left|right].
  exists x. destruct (Hc _ _ Ha Hx). done.
Qed.

(** *** Steps of the main thread *)

Lemma conn_ok_ext g g' srv ans ans' fd x :
  sh_table g' = sh_table g → (fd ∈ ans' ↔ fd ∈ ans) → conn_ok g srv ans fd x → conn_ok g' srv ans' fd x.
Proof. unfold conn_ok. intros -> Hiff. by rewrite (decide_ext _ _ _ _ Hiff). Qed.

Lemma bytes_spent m m' : spent m m' → bytes_bounded m → bytes_bounded m'.
Proof. intros (k & e & -> & _ & Hk)%spent_spec Hb l Hl. simpl in *. apply Hb in Hl. lia. Qed.

Lemma world_agree_main g w w' cs :
  world_agree tb boot g w → spent (w_mem w) (w_mem w') → snd <$> cs = w_conns w' →
  world_agree tb boot (Shared (sh_table g) (sh_blocks g) cs) w'.
Proof.
  intros [Ht Hb Hf Hbd _] Hs Hcs. split; cbn; [by eapply agree_spent| |done|by eapply bytes_spent|done].
  by rewrite (spent_bytes _ _ Hs).
Qed.

(** It may change its connections and spend memory. *)
Lemma alive_main c sv w hs srv n g c' sv' w' n' cs :
  alive c sv w hs srv n g → table sv' = table sv → sound (server_pool sv') → call_ok c' (server_pool sv') →
  same_serving (server_pool sv) (server_pool sv') →
  spent (w_mem w) (w_mem w') → snd <$> cs = w_conns w' → (∀ i, own_part (S i) (sh_conns g) cs) →
  NoDup (owned c' (server_pool sv')) → (∀ fd, is_Some (w_conns w' !! fd) ↔ fd ∈ owned c' (server_pool sv')) →
  (∀ fd x, cs !! fd = Some (0, x) → owner_ok hs fd 0 ∧ conn_ok g srv (answered_fds (server_pool sv')) fd x) →
  Forall (service_ok (Shared (sh_table g) (sh_blocks g) cs) (w_closed w') (answered_fds (server_pool sv'))) srv →
  closed_ok (entries (sh_table g)) srv (w_closed w') →
  length (accepted (server_pool sv')) + length (pending c' (server_pool sv')) + n' ≤ limit →
  alive c' sv' w' hs srv n' (Shared (sh_table g) (sh_blocks g) cs).
Proof.
  intros Hal Ht Hs Hc [Htk Hsrv] Hspent Hcs Hpart Hnd Ho H0 Hserved Hclosed Hcount.
  pose proof Hal as [? Hw _ _ Hcr _ _ Hown _ _ _ Hnum Hst Hsz _].
  assert (∀ j, j ≠ 0 → world_relies j g (Shared (sh_table g) (sh_blocks g) cs)) as Hrel.
  { intros [|j] Hj; [done|]. split; [apply relies_refl|done|apply Hpart]. }
  split; rewrite ?Htk; try done.
  - congruence.
  - by eapply world_agree_main.
  - eapply crew_same; [exact Hcr|done|done|]. by apply (cr_rests _ _ _ Hcr).
  - intros fd [|i] x Hx; [by eapply H0|]. cbn in Hx. apply Hpart in Hx. by eapply Hown.
  - intros fd x Hx. eapply conn_ok_ext; [done|done|by apply H0].
Qed.

Lemma service_ok_ext g cl ans ans' s : (∀ fd, fd ∈ ans' ↔ fd ∈ ans) → service_ok g cl ans s → service_ok g cl ans' s.
Proof.
  intros Hiff [He (out & Hs & Hor)]. split; [done|]. exists out. split; [done|]. destruct Hor as [?|(x & ? & ? & ?)]; [by left|right].
  exists x. by rewrite Hiff.
Qed.

(** Steps that only move descriptors between the threads. *)
Lemma alive_same c sv w hs srv n g c' sv' n' :
  alive c sv w hs srv n g → table sv' = table sv → sound (server_pool sv') → call_ok c' (server_pool sv') →
  same_serving (server_pool sv) (server_pool sv') →
  owned c' (server_pool sv') ≡ₚ owned c (server_pool sv) →
  answered_fds (server_pool sv') ≡ₚ answered_fds (server_pool sv) →
  length (accepted (server_pool sv')) + length (pending c' (server_pool sv')) + n' ≤
    length (accepted (server_pool sv)) + length (pending c (server_pool sv)) + n →
  alive c' sv' w hs srv n' g.
Proof.
  intros Hal Ht Hs Hc Hsame Hown Hans Hcount. pose proof Hal as [_ Hw _ _ _ Hnd Ho Hownr Hout Hsrv Hcl _ _ _ Hcnt].
  assert (g = Shared (sh_table g) (sh_blocks g) (sh_conns g)) as Hg by by destruct g. rewrite Hg.
  eapply (alive_main _ _ w); [exact Hal|done|done|done|done|apply spent_refl|apply Hw|done|by rewrite Hown|..].
  - intros fd. by rewrite Hown.
  - intros fd x Hx. split; [by eapply (Hownr fd 0)|]. eapply conn_ok_ext; [done|by rewrite Hans|by apply Hout].
  - rewrite <- Hg. eapply Forall_impl; [exact Hsrv|]. intros s. apply service_ok_ext. intros fd. by rewrite Hans.
  - done.
  - lia.
Qed.

Lemma pool_step_alive k sv w hs srv n g waiter p' :
  alive (S_call k) sv w hs srv n g → main_step waiter (server_pool sv) = Some p' → alive (S_call k) (with_pool p' sv) w hs srv n g.
Proof.
  intros Hal Hstep. apply main_step_moves in Hstep. pose proof (al_sound _ _ _ _ _ _ _ Hal) as Hs. pose proof (al_call _ _ _ _ _ _ _ Hal) as Hc.
  pose proof (moves_sound _ _ (Moves_main _ _ Hstep) Hs) as Hs'. pose proof (main_moves_call_ok k _ _ Hstep Hs Hc) as Hc'.
  pose proof (main_moves_serving _ _ Hstep) as Hsame.
  destruct (main_moves_held _ _ Hstep) as [[(Hh & Ha & Hn) Hacc]|(fd & Em & Em' & _ & Hacc & Hh & Ha & Hn)].
  - assert (pending (S_call k) p' = pending (S_call k) (server_pool sv)) as Hp by (unfold pending; by rewrite Hacc).
    eapply alive_same; [exact Hal|done|exact Hs'|exact Hc'|exact Hsame| |exact Ha|]; cbn [server_pool with_pool].
    + unfold owned. by rewrite Hp, Hh.
    + by rewrite Hp, Hacc.
  - unfold call_ok in Hc. rewrite Em in Hc. destruct k as [| |fd' a| |]; try done; try (by destruct Hc as (_ & _ & [])).
    destruct Hc as (_ & <- & Hlen).
    assert (pending (S_call (K_submit fd a)) (server_pool sv) = [fd]) as Hp by (cbn; by rewrite decide_True).
    assert (pending (S_call (K_submit fd a)) p' = []) as Hp'.
    { cbn. rewrite decide_False; [done|]. rewrite Hacc, length_app. simpl. lia. }
    eapply alive_same; [exact Hal|done|exact Hs'|exact Hc'|exact Hsame| |cbn [server_pool with_pool]; by rewrite Ha|]; cbn [server_pool with_pool].
    + unfold owned. rewrite Hp, Hp'. cbn. apply Hh. by apply sound_taken.
    + rewrite Hp, Hp', Hacc, length_app. simpl. lia.
Qed.

Lemma alive_idle c sv w hs srv n g : alive c sv w hs srv n g → c = S_listen ∨ c = S_run ∨ c = S_accept ∨ c = S_destroy →
  main (server_pool sv) = M_idle ∧ script (server_pool sv) = [] ∧ pending c (server_pool sv) = [].
Proof. intros Hal. pose proof (al_call _ _ _ _ _ _ _ Hal) as Hc. intros [->|[->|[->| ->]]]; by destruct Hc. Qed.

(** A call of the pool that takes no descriptor. *)
Lemma call_alive c sv sv' w hs srv n g cmd k n' :
  alive c sv w hs srv n g → main (server_pool sv) = M_idle → pending c (server_pool sv) = [] →
  (cmd = Shutdown ∧ k = K_shutdown ∨ cmd = Destroy ∧ (k = K_destroy ∨ k = K_create_failed)) →
  table sv' = table sv → server_pool sv' = server_pool sv → n' ≤ n →
  alive (S_call k) (with_pool (set_script [cmd] (server_pool sv')) sv') w hs srv n' g.
Proof.
  intros Hal Em Hp Hk Ht Hsp Hn.
  eapply alive_same; [exact Hal|done|apply sound_set_script; rewrite Hsp; apply Hal| |cbn; by rewrite Hsp| |cbn; by rewrite Hsp|];
    cbn [server_pool with_pool]; rewrite Hsp.
  - destruct Hk as [[-> ->]|[-> [-> | ->]]]; cbn; rewrite Em; auto.
  - unfold owned. rewrite Hp. by destruct Hk as [[-> ->]|[-> [-> | ->]]].
  - rewrite Hp. destruct Hk as [[-> ->]|[-> [-> | ->]]]; cbn; lia.
Qed.

(** Going on to a place where the pool is idle. *)
Lemma idle_alive c sv sv' w hs srv n g c' n' :
  alive c sv w hs srv n g → main (server_pool sv) = M_idle → script (server_pool sv) = [] → pending c (server_pool sv) = [] →
  c' = S_listen ∨ c' = S_run ∨ c' = S_accept ∨ c' = S_destroy → table sv' = table sv → server_pool sv' = server_pool sv → n' ≤ n →
  alive c' sv' w hs srv n' g.
Proof.
  intros Hal Em Es Hp Hc' Ht Hsp Hn.
  assert (pending c' (server_pool sv') = []) as Hp' by by destruct Hc' as [->|[->|[->| ->]]].
  eapply alive_same; [exact Hal|done|rewrite Hsp; apply Hal| |by rewrite Hsp| |by rewrite Hsp|]; rewrite ?Hsp.
  - by destruct Hc' as [->|[->|[->| ->]]].
  - unfold owned. by rewrite <- Hsp, Hp', Hsp, Hp.
  - rewrite <- Hsp at 2. rewrite Hp', Hp. cbn. lia.
Qed.

(** *** The accept loop *)

Lemma busy_small : (Z.of_nat (length (refusal_body (lit "queue_full") (lit "Server is busy"))) < BODY_MAX)%Z.
Proof. vm_compute. reflexivity. Qed.

Lemma close_ok fd w x (Q : unit → World → Prop) :
  w_conns w !! fd = Some x → Q tt (MkWorld (w_mem w) (delete fd (w_conns w)) (w_closed w ++ [(fd, c_out x)])) → wp (close fd) Q w.
Proof. unfold wpx, close. by intros ->. Qed.

(** The main thread's own connection. *)
Lemma main_conn c sv w hs srv n g fd x : alive c sv w hs srv n g → w_conns w !! fd = Some x →
  (∀ i, threads (server_pool sv) !! i ≠ Some (W_handle fd)) → sh_conns g !! fd = Some (0, x).
Proof.
  intros Hal Hx Hno. rewrite <- (wa_conns _ _ _ _ (al_world _ _ _ _ _ _ _ Hal)), lookup_fmap in Hx.
  destruct (sh_conns g !! fd) as [[[|i] y]|] eqn:Hfd; cbn in Hx; simplify_eq; [done|].
  destruct (al_owner _ _ _ _ _ _ _ Hal _ _ _ Hfd) as (h & Hi & <-). by apply (cr_handler _ _ _ (al_crew _ _ _ _ _ _ _ Hal)), Hno in Hi.
Qed.

Lemma not_handled p i fd : fd ∉ held p → threads p !! i ≠ Some (W_handle fd).
Proof.
  intros Hfd Hi. apply Hfd. unfold held. apply elem_of_app. right. apply list_elem_of_bind.
  exists (W_handle fd). split; [set_solver|by eapply list_elem_of_lookup_2].
Qed.

Lemma own_part_main i fd x y (cs : gmap Z (nat * Conn)) : cs !! fd = Some (0, x) → own_part (S i) cs (<[fd := (0, y)]> cs).
Proof. intros Hx. apply own_part_insert; [done|]. intros j' v' H. by simplify_eq. Qed.

(** A service keeps what it had when a connection that was not answered goes. *)
Lemma service_ok_other g cs cl cl' ans fd s :
  service_ok g cl ans s → fd ∉ ans → (∀ e, e ∈ cl → e ∈ cl') → (∀ fd', fd' ≠ fd → cs !! fd' = sh_conns g !! fd') →
  service_ok (Shared (sh_table g) (sh_blocks g) cs) cl' ans s.
Proof.
  intros [He (out & Hs & Hor)] Hfd Hcl Hcs. split; [done|]. exists out. split; [done|].
  destruct Hor as [?|(x & Hx & Ho & Hans)]; [left; by apply Hcl|right]. exists x. cbn.
  rewrite Hcs by (intros Heq; apply Hfd; by rewrite <- Heq). done.
Qed.

(** The descriptor whose submission was refused gets the busy response and is
    closed, unless its peer has closed it first and the process ends. *)
Lemma refuse_busy fd a sv w hs srv n g :
  alive (S_call (K_submit fd a)) sv w hs srv n g → main (server_pool sv) = M_idle → script (server_pool sv) = [] →
  length (accepted (server_pool sv)) = a →
  wpx (∃ x, w_conns w !! fd = Some x ∧ broken x) False (send_error fd 503 (lit "queue_full") (lit "Server is busy");; close fd)
    (λ _ w', ∃ g', alive S_run sv w' hs srv n g') w.
Proof.
  intros Hal Em Es Ha. pose proof Hal as [_ Hw _ _ _ Hnd Ho Hownr Hout Hsrv Hcl _ _ _ Hcnt].
  assert (pending (S_call (K_submit fd a)) (server_pool sv) = [fd]) as Hp by (cbn; by rewrite decide_True).
  unfold owned in Hnd, Ho. rewrite Hp in Hnd, Ho. cbn [app] in Hnd, Ho.
  apply NoDup_cons in Hnd as [Hfd Hnd].
  destruct (proj2 (Ho fd)) as [x Hx]; [set_solver|].
  pose proof (main_conn _ _ _ _ _ _ _ _ _ Hal Hx (λ i, not_handled _ i _ Hfd)) as Hgx.
  assert (fd ∉ answered_fds (server_pool sv)) as Hna by (intros Hin; by apply Hfd, answered_held).
  pose proof (Hout fd x Hgx) as Hok. unfold conn_ok in Hok. rewrite decide_False in Hok by done. destruct Hok as [Hx0 Htimed].
  apply wp_bind. eapply (wp_weaken (broken x) (stuck x)); [by exists x|by apply timed_never_waits|].
  eapply wp_mono; [|apply (send_error_ok fd 503 _ _ w x Hx); [apply Hw|apply busy_small]].
  intros _ w' (Hspent & Hclosed & c' & Hconns & Hsent).
  assert (∃ k, c_out c' = take k busy_text) as Hbusy.
  { destruct Hsent as [(ok & k & _ & Hk & _)|[_ ->]]; [exists k; by rewrite Hk, Hx0|by exists 0]. }
  apply wp_allow. eapply close_ok; [rewrite Hconns; apply lookup_insert_eq|]. exists (Shared (sh_table g) (sh_blocks g) (delete fd (sh_conns g))).
  eapply alive_main; [exact Hal|done|apply Hal|done|done|exact Hspent|..]; cbn [w_conns w_closed]; rewrite ?Hconns, ?delete_insert_eq, ?Hclosed.
  - by rewrite fmap_delete, (wa_conns _ _ _ _ Hw).
  - intros i. apply own_part_delete. intros v. congruence.
  - done.
  - unfold owned. cbn. intros fd'. destruct (decide (fd = fd')) as [<-|Hne].
    + rewrite lookup_delete_eq. split; [by intros [? ?]|done].
    + rewrite lookup_delete_ne by done. rewrite (Ho fd'). set_solver.
  - intros fd' x' [_ Hx']%lookup_delete_Some. split; [by eapply (Hownr fd' 0)|by apply Hout].
  - eapply Forall_impl; [exact Hsrv|]. intros s Hs. eapply service_ok_other; [exact Hs|exact Hna|set_solver|].
    intros fd' Hne. by apply lookup_delete_ne.
  - apply closed_ok_snoc; [done|by left].
  - rewrite Hp in Hcnt. cbn in *. lia.
Qed.

(** A new connection, once its timeouts are set. *)
Lemma accept_alive fd x sv w hs srv n g :
  alive S_accept sv w hs srv (S n) g → fd_free fd sv w → c_out x = [] → timed x →
  alive (S_call (K_submit fd (length (accepted (server_pool sv)))))
    (with_pool (set_script [Submit fd] (server_pool sv)) sv) (with_conns (<[fd := x]> (w_conns w)) w) hs srv n
    (put_conn 0 fd x g).
Proof.
  intros Hal (_ & _ & Hnone) Hx0 Htimed. destruct (alive_idle _ _ _ _ _ _ _ Hal) as (Em & Es & _); [auto|].
  pose proof Hal as [_ Hw Hs _ [Hhs _ _ _] Hnd Ho Hownr Hout Hsrv Hcl _ _ _ Hcnt]. unfold owned in *. cbn [pending app] in Hnd, Ho, Hcnt.
  assert (fd ∉ held (server_pool sv)) as Hfd.
  { intros Hin. apply Ho in Hin as [? ?]. congruence. }
  assert (fd ∉ answered_fds (server_pool sv)) as Hna by (intros Hin; by apply Hfd, answered_held).
  assert (sh_conns g !! fd = None) as Hgfd.
  { rewrite <- (wa_conns _ _ _ _ Hw), lookup_fmap in Hnone. by destruct (sh_conns g !! fd). }
  unfold put_conn. eapply alive_main; [exact Hal|done|by apply sound_set_script| |done|apply spent_refl|..]; cbn [server_pool with_pool w_conns w_closed with_conns].
  - cbn. rewrite Em. by right.
  - by rewrite fmap_insert, (wa_conns _ _ _ _ Hw).
  - intros i. apply own_part_insert; [done|]. congruence.
  - unfold owned. cbn [pending accepted set_script]. rewrite decide_True by done. cbn. by apply NoDup_cons.
  - intros fd'. unfold owned. cbn [pending accepted set_script]. rewrite decide_True by done. cbn [app].
    change (held (set_script [Submit fd] (server_pool sv))) with (held (server_pool sv)).
    rewrite elem_of_cons, <- (Ho fd'). destruct (decide (fd = fd')) as [<-|Hne].
    + rewrite lookup_insert_eq. split; [by left|eauto].
    + rewrite lookup_insert_ne by done. naive_solver.
  - change (answered_fds (set_script [Submit fd] (server_pool sv))) with (answered_fds (server_pool sv)).
    intros fd' x' [[<- [= <-]]|[_ Hx']]%lookup_insert_Some; [|split; [by eapply (Hownr fd' 0)|by apply Hout]]. split.
    + intros i h Hi <-. apply Hhs in Hi. by eapply not_handled.
    + unfold conn_ok. by rewrite decide_False.
  - change (answered_fds (set_script [Submit fd] (server_pool sv))) with (answered_fds (server_pool sv)).
    eapply Forall_impl; [exact Hsrv|]. intros s Hs'. eapply service_ok_other; [exact Hs'|exact Hna|done|].
    intros fd' Hne. by apply lookup_insert_ne.
  - done.
  - cbn [pending accepted set_script]. rewrite decide_True by done. cbn. lia.
Qed.

(** *** Steps of the workers *)

(** Steps of the pool that begin or end no handling. *)
Lemma worker_alive i c sv w hs srv n g p' :
  alive c sv w hs srv n g → thread_pool_worker_main i (server_pool sv) = Some p' →
  (∀ fd, threads (server_pool sv) !! i ≠ Some (W_handle fd) ∧ threads (server_pool sv) !! i ≠ Some (W_close fd)) →
  (∀ fd, threads p' !! i ≠ Some (W_handle fd)) → alive c (with_pool p' sv) w hs srv n g.
Proof.
  intros Hal Hstep Hno Hno'. pose proof (worker_step_moves _ _ _ Hstep) as Hm. pose proof (al_sound _ _ _ _ _ _ _ Hal) as Hs.
  destruct (worker_moves_frame _ _ _ Hm) as (w0 & _ & Hi & _ & _ & Em & Es & Ea & _).
  assert (same_held (server_pool sv) p') as (Hh & Ha & Hn).
  { pose proof (worker_held i _ _ w0 Hstep Hs Hi) as Hw.
    destruct w0; try exact Hw; [by destruct (Hno fd) as [[] _]|by destruct (Hno fd) as [_ []]]. }
  assert (same_serving (server_pool sv) p') as Hsame.
  { destruct (worker_serving _ _ _ Hstep) as [(fd & _ & Hts & _)|(Htk & w1 & Hts & Hw1)].
    - destruct (Hno' fd). rewrite Hts. apply list_lookup_insert_eq. by eapply lookup_lt_Some.
    - split; [done|]. rewrite Hts. eapply set_worker_serving; [exact Hi|]. intros fd. split; [|done].
      intros ->. by destruct (Hno fd) as [[] _]. }
  assert (pending c p' = pending c (server_pool sv)) as Hp by (unfold pending; by rewrite Ea).
  eapply alive_same; [exact Hal|done|eapply moves_sound; [by eapply Moves_worker|done]|eapply worker_moves_call_ok; [exact Hm|apply Hal]|exact Hsame| |exact Ha|];
    cbn [server_pool with_pool].
  - unfold owned. by rewrite Hp, Hh.
  - by rewrite Hp, Ea.
Qed.

Lemma spurious_alive i c sv w hs srv n g p' :
  alive c sv w hs srv n g → step (Ev_spurious i) (server_pool sv) = Some p' → alive c (with_pool p' sv) w hs srv n g.
Proof.
  intros Hal Hstep. pose proof (spurious_held _ _ _ Hstep) as (Hh & Ha & Hn). pose proof (step_moves _ _ _ Hstep) as Hm.
  cbn in Hstep. case_decide as Hw; [|done]. injection Hstep as <-.
  assert (worker_moves i (server_pool sv) (set_worker i W_relock (server_pool sv))) as Hwm by by apply WM_wake.
  eapply alive_same; [exact Hal|done|by eapply moves_sound; [|apply Hal]|eapply worker_moves_call_ok; [exact Hwm|apply Hal]| | |exact Ha|];
    cbn [server_pool with_pool].
  - split; [done|]. cbn. by eapply set_worker_serving.
  - unfold owned. by rewrite Hh.
  - done.
Qed.

(** A worker closes the connection it has answered. *)
Lemma worker_close_alive i fd c sv w hs srv n g p' :
  alive c sv w hs srv n g → thread_pool_worker_main i (server_pool sv) = Some p' →
  threads (server_pool sv) !! i = Some (W_close fd) →
  wp (close fd) (λ _ w', ∃ g', alive c (with_pool p' sv) w' hs srv n g') w.
Proof.
  intros Hal Hstep Hi. pose proof Hal as [_ Hw Hs Hc _ Hnd Ho Hownr Hout Hsrv Hcl _ _ _ Hcnt].
  pose proof (worker_held i _ _ _ Hstep Hs Hi) as (Hh & Ha & Hn). pose proof (worker_step_moves _ _ _ Hstep) as Hm.
  destruct (worker_moves_frame _ _ _ Hm) as (_ & _ & _ & _ & _ & _ & _ & Hacc & _).
  destruct (close_answered i _ fd Hi) as [Hheld Hans].
  destruct (proj2 (Ho fd)) as [x Hx]; [unfold owned; set_solver|].
  assert (same_serving (server_pool sv) p') as Hsame.
  { destruct (worker_serving _ _ _ Hstep) as [(fd' & Ht & _)|(Htk & w1 & Hts & Hw1)]; [congruence|].
    split; [done|]. rewrite Hts. by eapply set_worker_serving. }
  assert (pending c p' = pending c (server_pool sv)) as Hp by (unfold pending; by rewrite Hacc).
  assert (owned c (server_pool sv) ≡ₚ fd :: owned c p') as Hown.
  { unfold owned. rewrite Hp, Hh. solve_Permutation. }
  assert (NoDup (fd :: owned c p')) as Hnd' by by rewrite <- Hown.
  apply NoDup_cons in Hnd' as [Hfd Hnd'].
  assert (∀ fd', fd' ≠ fd → fd' ∈ answered_fds p' ↔ fd' ∈ answered_fds (server_pool sv)) as Hans'.
  { intros fd' Hne. rewrite Ha, elem_of_cons. split; [by right|by intros [->|?]]. }
  assert (fd ∉ answered_fds p') as Hna' by (intros Hin; apply Hfd; unfold owned; rewrite elem_of_app; right; by apply answered_held).
  assert (sh_conns g !! fd = Some (0, x)) as Hgx.
  { eapply main_conn; [exact Hal|exact Hx|]. intros j Hj.
    destruct (handle_not_answered j _ fd Hj) as [_ Hno]; [|done]. by apply NoDup_app in Hnd as (_ & _ & ?). }
  eapply close_ok; [exact Hx|]. exists (Shared (sh_table g) (sh_blocks g) (delete fd (sh_conns g))).
  eapply alive_main; [exact Hal|done|by eapply moves_sound; [eapply Moves_worker|]|by eapply worker_moves_call_ok|exact Hsame|apply spent_refl|..];
    cbn [server_pool with_pool w_conns w_closed].
  - by rewrite fmap_delete, (wa_conns _ _ _ _ Hw).
  - intros j. apply own_part_delete. intros v. congruence.
  - done.
  - intros fd'. rewrite lookup_delete_is_Some, (Ho fd'), Hown. set_solver.
  - intros fd' x' [Hne Hx']%lookup_delete_Some. split; [by eapply (Hownr fd' 0)|].
    eapply conn_ok_ext; [done|by apply Hans'|by apply Hout].
  - eapply Forall_impl; [exact Hsrv|]. intros s [He (out & Hs' & Hor)]. split; [done|]. exists out. split; [done|].
    destruct Hor as [Hin|(y & Hy & Hyo & Hya)]; [left; apply elem_of_app; by left|].
    destruct (decide (s_fd s = fd)) as [Heq|Hne].
    + left. apply elem_of_app. right. rewrite Heq in *. apply list_elem_of_singleton. congruence.
    + right. exists y. cbn. rewrite lookup_delete_ne, Hans' by done. done.
  - apply closed_ok_snoc; [done|right]. pose proof (Hout fd x Hgx) as Hok. unfold conn_ok in Hok. by rewrite decide_True in Hok.
  - by rewrite Hp, Hacc.
Qed.
End table.
End runs.
