(* ===== verification/ServerHandlers.v ===== *)
(** The steps of the handlers: a worker takes a descriptor and calls the handler,
    an action of it, its return. *)
From stdpp Require Import base list gmap sorting strings.
From Stdlib Require Import Ascii ZArith Lia.
From S2P Require Import ThreadPool ThreadPoolInv ThreadPoolSafe ThreadPoolRuns ThreadPoolLive Prelude Memory CLib CLibProofs BPTree Index Table TableMem TableRep TableCollect TableQueries TableUpdate TableLife TableSpec Actions TableActs TableActsAlone TableActsInv TableActsSteps TableActsInsert TableActsArrays TableActsLookups TableActsCollect TableActsSpec TableActsRuns TableActsEnds Sql SqlLex SqlGrammar SqlErrors SqlSpec RowTypes Quiet Repl Bytes Json JsonProofs JsonValue Api ApiSpec ApiActs ApiActsSpec Http HttpSpec HttpText Server ServerSpec ServerActs ServerActsInv ServerActsSpec ServerPool ServerAlive.

Section handlers.
Context {KI : KeyIndex} (boot : Mem) (limit : nat).
Context (tb : loc).
Abbreviation W := (world_protocol tb boot).
Abbreviation alive := (alive boot limit tb).
Implicit Types (c : server_pc) (sv : Server) (w : World) (hs : gmap nat handling) (srv : list service) (n : nat) (g : shared).

(** *** A call *)

(** The call [x] of the table is made. *)
Definition call_table (x : place) (t : ghost) : ghost :=
  Ghost (g_log t) (g_table t) (g_fps t) (g_locks t) (g_arrays t) (<[x := Waiting]> (g_stages t)).

Lemma call_agree t m x :
  agree tb boot t m → g_stages t !! x = None → (Z.of_nat (S (base.size (g_stages t))) < INT_MAX)%Z →
  agree tb boot (call_table x t) m.
Proof.
  intros [Ht Hl He Hb Hnd Hlog Hst Hid Hinj Hc Htot Hcalls Hm] Hx Hlt. split; cbn [call_table g_log g_table g_fps g_locks g_arrays g_stages]; try done.
  - intros r y Hr%Hlog. rewrite lookup_insert_ne; [done|]. intros <-. congruence.
  - intros y id [[_ ?]|[_ Hy]]%lookup_insert_Some; [done|by apply Hst].
  - intros y s id [[_ <-]|[_ Hy]]%lookup_insert_Some; [done|by eapply Hid].
  - intros y y' s s' id [[_ <-]|[_ Hy]]%lookup_insert_Some [[_ <-]|[_ Hy']]%lookup_insert_Some; try done. by eapply Hinj.
  - rewrite map_filter_insert_False by (by intros [? ?]). by rewrite delete_id.
  - by rewrite map_size_insert_None.
Qed.

Lemma call_relies i j k t : j ≠ i → relies j t (call_table (i, k) t).
Proof. intros Hj. split; try done. intros k'. cbn. rewrite lookup_insert_ne; [done|]. intros [= ?]. congruence. Qed.

Lemma call_idle i j k t : idle j t → idle j (call_table (i, k) t).
Proof.
  intros (Hk & [] & Hst). split; [done|split; [by split|]]. intros k' id. cbn.
  destruct (decide ((i, k) = (j, k'))) as [<-|Hne]; [by rewrite lookup_insert_eq|]. rewrite lookup_insert_ne by done. apply Hst.
Qed.

Lemma call_dom t x y : y ∈ dom (g_stages (call_table x t)) ↔ y = x ∨ y ∈ dom (g_stages t).
Proof. cbn. by rewrite dom_insert, elem_of_union, elem_of_singleton. Qed.

(** The handler [h] of worker [i] begins. *)
Definition called_handler (i : nat) (h : handling) (g : shared) : shared :=
  Shared (call_table (S i, handler_call h) (sh_table g)) (sh_blocks g) (<[h_fd h := (S i, h_conn h)]> (sh_conns g)).

Lemma begin_agree i h g w :
  world_agree tb boot g w → g_stages (sh_table g) !! (S i, handler_call h) = None →
  (Z.of_nat (S (base.size (g_stages (sh_table g)))) < INT_MAX)%Z → w_conns w !! h_fd h = Some (h_conn h) →
  world_agree tb boot (called_handler i h g) w.
Proof.
  intros [Hag Hb Hf Hbd Hcn] Hx Hlt Hc. split; cbn; [by apply call_agree|done|done|done|].
  rewrite fmap_insert, Hcn. by rewrite insert_id.
Qed.

Lemma begin_runs i h g :
  rests (S i) g → (∀ fd' x', sh_conns g !! fd' ≠ Some (S i, x')) → h_begin h = length (g_log (sh_table g)) →
  c_out (h_conn h) = [] → timed (h_conn h) → h_todo h = server_handle_client_acts (Some tb) (h_fd h) → runs boot tb (S i) h (called_handler i h g).
Proof.
  intros [Hidle Htext] Hno Hb Ho Htm Htd. assert (idle (S i) (sh_table (called_handler i h g))) as Hidle2 by by apply call_idle.
  exists (called_handler i h g). rewrite Htd. split_and!; [done|done|apply handler_touches|exact Hidle2|].
  apply wpc_handler; [exact Htm|exact Hidle2|done| |apply lookup_insert_eq|done].
  intros fd' x'. cbn. split; [|intros [-> ->]; apply lookup_insert_eq].
  intros [[<- [= <-]]|[_ Hx]]%lookup_insert_Some; [done|]. by apply Hno in Hx.
Qed.

Lemma new_call i h hs srv tk (t : ghost) :
  numbered hs srv tk → hs !! i = None → h_number h = length tk →
  (∀ x, x ∈ dom (g_stages t) → (∃ j h', hs !! j = Some h' ∧ x = (S j, handler_call h')) ∨ ∃ s, s ∈ srv ∧ x = service_place s) →
  g_stages t !! (S i, handler_call h) = None.
Proof.
  intros Hnum Hnone Hn Hst. apply not_elem_of_dom. intros [(j & h' & Hj & Heq)|(s & Hin & Heq)]%Hst.
  - apply (f_equal fst) in Heq. cbn [fst] in Heq. apply Nat.succ_inj in Heq as <-. congruence.
  - apply (f_equal (λ x, x.2.1)) in Heq. cbn in Heq. apply (nb_service _ _ _ Hnum), lookup_lt_Some in Hin. lia.
Qed.

(** *** The steps *)

(** A worker takes a descriptor and calls the handler. *)
Lemma take_alive i fd x h c sv w hs srv n g p' :
  (Z.of_nat limit + 1 < INT_MAX)%Z → alive c sv w hs srv n g → thread_pool_worker_main i (server_pool sv) = Some p' → hs !! i = None →
  threads p' !! i = Some (W_handle fd) → w_conns w !! fd = Some x →
  h = Handling fd x (length (taken (server_pool sv))) (stored_rows (Some tb) (w_mem w)) (server_handle_client_acts (Some tb) fd) →
  ∃ g', alive c (with_pool p' sv) w (<[i := h]> hs) srv n g'.
Proof.
  intros Hlimit Hal Hstep Hnone Hi' Hx Eh.
  pose proof Hal as [Ht Hw Hs Hc Hcr Hnd Ho Hownr Hout Hsrv Hcl Hnum Hst Hsz Hcnt].
  pose proof (worker_step_moves _ _ _ Hstep) as Hm. pose proof (sound_taken _ Hs) as Htaken.
  destruct (worker_moves_frame _ _ _ Hm) as (_ & _ & _ & _ & _ & _ & _ & Hacc & _).
  destruct (take_descriptor i fd _ _ Hstep Hs) as (Hno & Hts & Hlt & Htk & (Hh & Ha & _) & Hheld & Hna); [by apply NoDup_app in Hnd as (_ & _ & ?)|done|].
  pose proof (main_conn _ _ _ _ _ _ _ _ _ _ _ _ Hal Hx Hno) as Hgx.
  assert (c_out x = [] ∧ timed x) as [Hx0 Htimed] by (pose proof (Hout fd x Hgx) as Hok; unfold conn_ok in Hok; by rewrite decide_False in Hok).
  assert (h_fd h = fd ∧ h_conn h = x ∧ h_number h = length (taken (server_pool sv)) ∧
    h_begin h = length (g_log (sh_table g)) ∧ h_todo h = server_handle_client_acts (Some tb) fd) as (<- & <- & Hn & Hbg & Htd).
  { rewrite Eh. split_and!; [done..| |done]. apply (ag_stored_rows _ _ _ _ (wa_table _ _ _ _ Hw)). }
  clear Eh. pose proof (new_call _ _ _ _ _ _ Hnum Hnone Hn Hst) as Hfresh. exists (called_handler i h g).
  assert (pending c p' = pending c (server_pool sv)) as Hp by (unfold pending; by rewrite Hacc).
  split; cbn [server_pool with_pool table]; rewrite ?Htk; try done.
  - apply begin_agree; [done|done| |done]. rewrite Hsz. unfold INT_MAX in *. lia.
  - by eapply moves_sound; [eapply Moves_worker|].
  - by eapply worker_moves_call_ok.
  - rewrite Hts. eapply crew_step; [exact Hcr|done|intros j Hj; by apply lookup_insert_ne| | |].
    + intros j Hj Hj0. split; [by apply call_relies|done|]. apply own_part_insert; [done|]. congruence.
    + destruct (cr_rests _ _ _ _ _ Hcr 0) as [? ?]; [done|]. split; [by apply call_idle|done].
    + rewrite lookup_insert_eq. split; [done|]. apply begin_runs; [|intros fd' x' Hx'|done..].
      * apply (cr_rests _ _ _ _ _ Hcr). by intros j [= <-].
      * apply Hownr in Hx' as (h' & Hj & _). congruence.
  - unfold owned. by rewrite Hp, Hh.
  - intros fd'. unfold owned. rewrite Hp, Hh. apply Ho.
  - cbn [called_handler sh_conns]. intros fd' j y [[<- [= <- <-]]|[Hne Hy]]%lookup_insert_Some; [exists h; by rewrite lookup_insert_eq|].
    pose proof (Hownr _ _ _ Hy) as Hok. destruct j as [|j].
    + intros i' h' [[<- <-]|[_ Hi2]]%lookup_insert_Some; [done|by eapply Hok].
    + destruct Hok as (h' & Hj & Hfd'). exists h'. rewrite lookup_insert_ne; [done|]. congruence.
  - cbn [called_handler sh_conns]. intros fd' y [[_ [=]]|[Hne Hy]]%lookup_insert_Some. eapply (conn_ok_later g); [done|exact Hsrv|done|by rewrite Ha|by apply Hout].
  - eapply Forall_impl; [exact Hsrv|]. intros s Hs'. eapply service_ok_later; [..|exact Hs']; [done|]. intros fd' y Hans Hy. rewrite Ha.
    split; [done|]. cbn. rewrite lookup_insert_ne; [done|]. by intros <-.
  - by apply (numbered_call _ _ _ _ h).
  - intros y [->|Hy]%call_dom; [left; exists i, h; by rewrite lookup_insert_eq|].
    destruct (Hst y Hy) as [(j & h' & Hj & ->)|?]; [left|by right]. exists j, h'. rewrite lookup_insert_ne; [done|]. congruence.
  - cbn. rewrite map_size_insert_None by done. rewrite Hsz, length_app. simpl. lia.
  - by rewrite Hp, Hacc.
Qed.
(** The connections after an action of worker [i]. *)
Lemma act_owner i h c sv w w' hs srv n g g2 :
  alive c sv w hs srv n g → hs !! i = Some h → touches (h_fd h) w w' → world_agree tb boot g2 w' → guar W (S i) g g2 →
  ∀ fd j x, sh_conns g2 !! fd = Some (j, x) → owner_ok hs fd j.
Proof.
  intros Hal Hi (_ & Hother & _) Hw2 [Hg _] fd j x Hx. destruct (decide (j = S i)) as [->|Hne].
  2:{ apply (wr_conns _ _ _ (Hg j Hne)) in Hx. by eapply (al_owner _ _ _ _ _ _ _ _ _ _ Hal). }
  exists h. split; [done|]. destruct (decide (h_fd h = fd)) as [|Hfd]; [done|exfalso].
  specialize (Hother fd (not_eq_sym Hfd)).
  rewrite <- (wa_conns _ _ _ _ Hw2), <- (wa_conns _ _ _ _ (al_world _ _ _ _ _ _ _ _ _ _ Hal)), !lookup_fmap, Hx in Hother.
  destruct (sh_conns g !! fd) as [[j y]|] eqn:Hy; [|done].
  destruct (decide (j = S i)) as [->|Hj].
  - destruct (al_owner _ _ _ _ _ _ _ _ _ _ Hal _ _ _ Hy) as (h' & Hi' & Hfd'). congruence.
  - apply (wr_conns _ _ _ (Hg j Hj)) in Hy. congruence.
Qed.

(** A handler does one action. *)
Lemma act_alive i h acc X (c0 : prog World X) k c sv w hs srv n g :
  alive c sv w hs srv n g → hs !! i = Some h → h_todo h = Act acc c0 k →
  match c0 w with
  | Ok (x, w') => ∃ g', alive c sv w' (<[i := Handling (h_fd h) (h_conn h) (h_number h) (h_begin h) (k x)]> hs) srv n g'
  | Blocked => may_wait (S i) (sh_table g)
  | Killed => ∃ fd x, w_conns w !! fd = Some x ∧ broken x
  | _ => False
  end.
Proof.
  intros Hal Hi Htd. pose proof Hal as [Ht Hw Hs Hc Hcr Hnd Ho _ Hout Hsrv Hcl Hnum Hst Hsz Hcnt].
  destruct (cr_runs _ _ _ _ _ Hcr i h Hi) as (g0 & Hb & Hc0 & Htch & Hidle & Hp). rewrite Htd in Htch, Hp.
  destruct Hp as [_ Hp]. specialize (Hp g w (world_relies_refl _ _) Hw). destruct Htch as [Htch Hk].
  destruct (c0 w) as [[x w']| | | |] eqn:E; [|done|done| |done].
  2: { destruct Hp as (fd & x & Hx & Hbr). exists fd, x. split; [|done]. by rewrite <- (wa_conns _ _ _ _ Hw), lookup_fmap, Hx. }
  destruct Hp as (g2 & Hw2 & Hg & Hp). apply Htch in E as Htw.
  pose proof (act_owner _ _ _ _ _ _ _ _ _ _ _ Hal Hi Htw Hw2 Hg) as Hownr. pose proof Hg as [Hrel Hsame].
  destruct Htw as (Hclosed & Hother & Hsome).
  set (h' := Handling _ _ _ _ _). exists g2.
  assert (entries (sh_table g) `prefix_of` entries (sh_table g2)) as Hpre by (apply entries_prefix, (wr_table 0), Hrel; lia).
  split; rewrite ?Hclosed; try done.
  - rewrite <- (list_insert_id _ _ _ (cr_handler _ _ _ _ _ Hcr i h Hi)).
    eapply crew_step; [exact Hcr|eapply lookup_lt_Some, (cr_handler _ _ _ _ _ Hcr), Hi|intros j Hj; by apply lookup_insert_ne| | |].
    + intros j Hj _. by apply Hrel.
    + eapply rests_relies; [by apply (cr_rests _ _ _ _ _ Hcr)|by apply Hrel].
    + rewrite lookup_insert_eq. split; [done|]. exists g0. split_and!; [done|done|apply Hk|exact Hidle|exact Hp].
  - intros fd. rewrite <- (Ho fd). destruct (decide (fd = h_fd h)) as [->|Hne]; [done|by rewrite Hother].
  - intros fd j y Hy%Hownr. destruct j as [|j].
    + intros i' h1 [[<- <-]|[_ Hi']]%lookup_insert_Some; [by eapply (Hy i h)|by eapply Hy].
    + destruct Hy as (h1 & Hj & Hfd). destruct (decide (i = j)) as [<-|Hne].
      * exists h'. rewrite lookup_insert_eq. split; [done|]. cbn. congruence.
      * exists h1. by rewrite lookup_insert_ne.
  - intros fd y Hy. apply (wr_conns 0 _ _ (Hrel 0 (Nat.neq_0_succ i))) in Hy.
    eapply (conn_ok_later g); [done|exact Hsrv|done|done|by apply Hout].
  - eapply Forall_impl; [exact Hsrv|]. intros s Hs'. eapply service_ok_later; [..|exact Hs']; [done|]. intros fd y Hans Hy.
    split; [done|]. by apply (wr_conns 0 _ _ (Hrel 0 (Nat.neq_0_succ i))).
  - eapply closed_ok_later; [done|by eapply ends_known|done|done].
  - by eapply numbered_act.
  - intros y Hy. unfold world_protocol, promise, world_promise, same_calls in Hsame. rewrite Hsame in Hy.
    destruct (Hst y Hy) as [(j & h1 & Hj & ->)|?]; [left|by right]. destruct (decide (i = j)) as [<-|Hne].
    + exists i, h'. rewrite lookup_insert_eq. split; [done|]. by assert (h1 = h) as -> by congruence.
    + exists j, h1. by rewrite lookup_insert_ne.
  - rewrite <- Hsz, <- !size_dom. by rewrite Hsame.
Qed.

(** A handler returns. *)
Lemma return_alive i h u s c sv w hs srv n g p' :
  alive c sv w hs srv n g → hs !! i = Some h → h_todo h = Done u → thread_pool_worker_main i (server_pool sv) = Some p' →
  s = Service i (h_fd h) (h_conn h) (h_number h) (h_begin h) (stored_rows (Some tb) (w_mem w)) →
  ∃ g', alive c (with_pool p' sv) w (delete i hs) (srv ++ [s]) n g'.
Proof.
  intros Hal Hi Htd Hstep Es. pose proof Hal as [Ht Hw Hs Hc Hcr Hnd Ho Hownr Hout Hsrv Hcl Hnum Hst Hsz Hcnt].
  pose proof (worker_step_moves _ _ _ Hstep) as Hm. pose proof (cr_handler _ _ _ _ _ Hcr i h Hi) as Hts0.
  destruct (worker_moves_frame _ _ _ Hm) as (_ & _ & _ & _ & _ & _ & _ & Hacc & _).
  destruct (return_descriptor i (h_fd h) _ _ Hstep Hs) as (w1 & Hts & Hw1 & Hlt & Htk & Hh & Ha & Hna); [by apply NoDup_app in Hnd as (_ & _ & ?)|done|].
  destruct (cr_runs _ _ _ _ _ Hcr i h Hi) as (g0 & Hb & Hc0 & _ & (_ & _ & Htook) & Hp). rewrite Htd in Hp.
  destruct Hp as [Htext (x & status & body & [[Hlog Hlk Hstg Hst0] Hown Hconn] & Hres & k & _ & Hxo & Hwr)]. rewrite Hc0 in Hxo.
  assert (sh_conns g !! h_fd h = Some (S i, x)) as Hgx by by apply Hconn.
  assert (s_fd s = h_fd h ∧ s_number s = h_number h ∧ service_place s = (S i, handler_call h) ∧ s_begin s = h_begin h ∧
    s_end s = length (g_log (sh_table g)) ∧ s_conn s = h_conn h) as (Ef & En & Ep & Eb & Ee & Ec).
  { rewrite Es. split_and!; try done. apply (ag_stored_rows _ _ _ _ (wa_table _ _ _ _ Hw)). }
  clear Es. assert (serviced (entries (sh_table g)) s (c_out x)) as Hserved.
  { exists status, body, k. unfold serviced. rewrite Ep, Eb, Ee, Ec, Hb. by split_and!. }
  exists (put_conn 0 (h_fd h) x g).
  assert (pending c p' = pending c (server_pool sv)) as Hpd by (unfold pending; by rewrite Hacc).
  assert (∀ fd, fd ≠ h_fd h → fd ∈ answered_fds p' ↔ fd ∈ answered_fds (server_pool sv)) as Hans.
  { intros fd Hne. rewrite Ha, elem_of_cons. naive_solver. }
  split; cbn [server_pool with_pool table]; rewrite ?Htk; try done.
  - destruct Hw as [Hag Hbl Hf Hbd Hcn]. split; cbn; [done..|]. rewrite fmap_insert, insert_id; [done|]. by rewrite lookup_fmap, Hgx.
  - by eapply moves_sound; [eapply Moves_worker|].
  - by eapply worker_moves_call_ok.
  - rewrite Hts. eapply crew_step; [exact Hcr|done|intros j Hj; by apply lookup_delete_ne| | |].
    + intros j Hj Hj0. split; [apply relies_refl|done|]. apply own_part_insert; [done|]. congruence.
    + destruct (cr_rests _ _ _ _ _ Hcr 0) as [? ?]; [done|]. by split.
    + rewrite lookup_delete_eq. split; [done|]. split; [|done]. split_and!; [done|done|]. intros k' id.
      destruct (decide (k' = handler_call h)) as [->|Hne]; [apply Hst0|]. cbn. rewrite Hstg by done. apply Htook.
  - unfold owned. by rewrite Hpd, Hh.
  - intros fd'. unfold owned. rewrite Hpd, Hh. apply Ho.
  - cbn [put_conn sh_conns]. intros fd' j y [[<- [= <- <-]]|[Hne Hy]]%lookup_insert_Some.
    + intros j h' [Hj Hj']%lookup_delete_Some Hfd. apply Hj. eapply handle_unique; [exact Hts0| |by apply NoDup_app in Hnd as (_ & _ & ?)].
      rewrite <- Hfd. by apply (cr_handler _ _ _ _ _ Hcr).
    + pose proof (Hownr _ _ _ Hy) as Hok. destruct j as [|j].
      * intros j h' [_ Hj']%lookup_delete_Some. by eapply Hok.
      * destruct Hok as (h' & Hj & Hfd'). exists h'. rewrite lookup_delete_ne; [done|]. congruence.
  - cbn [put_conn sh_conns]. intros fd' y [[<- [= <-]]|[Hne Hy]]%lookup_insert_Some.
    + unfold conn_ok. rewrite decide_True by (rewrite Ha; by apply elem_of_cons; left). exists s. split_and!; [set_solver|done|done].
    + eapply (conn_ok_later g); [done|exact Hsrv|set_solver|by apply Hans|by apply Hout].
  - apply Forall_app. split.
    + eapply Forall_impl; [exact Hsrv|]. intros s' Hs'. eapply service_ok_later; [..|exact Hs']; [done|]. intros fd y Hfd Hy.
      assert (fd ≠ h_fd h) as Hne by congruence. rewrite Hans by done. split; [done|]. cbn. by rewrite lookup_insert_ne.
    + constructor; [|done]. split; [cbn; rewrite Ee; by rewrite length_entries|]. exists (c_out x). split; [done|]. right.
      exists x. rewrite Ef, Ha. cbn. rewrite lookup_insert_eq. split_and!; [done|done|by apply elem_of_cons; left].
  - eapply closed_ok_later; [..|exact Hcl]; [done|by eapply ends_known|set_solver].
  - by eapply numbered_return.
  - intros y [(j & h' & Hj & ->)|(s' & Hs' & ->)]%Hst; [|right; exists s'; set_solver].
    destruct (decide (i = j)) as [<-|Hne]; [|left; exists j, h'; by rewrite lookup_delete_ne].
    right. exists s. assert (h' = h) as -> by congruence. split; [set_solver|done].
  - by rewrite Hpd, Hacc.
Qed.
End handlers.
