(* ===== verification/ServerRuns.v ===== *)
(** The server as a whole, its handlers interleaved at the table: what is true in
    every state it can reach. *)
From stdpp Require Import base list gmap sorting strings.
From Stdlib Require Import Ascii ZArith Lia.
From S2P Require Import ThreadPool ThreadPoolInv ThreadPoolSafe ThreadPoolRuns ThreadPoolLive Prelude Memory CLib CLibProofs BPTree Index Table TableMem TableRep TableCollect TableQueries TableUpdate TableLife TableSpec Actions TableActs TableActsAlone TableActsInv TableActsSteps TableActsInsert TableActsArrays TableActsLookups TableActsCollect TableActsSpec TableActsRuns TableActsEnds Sql SqlLex SqlGrammar SqlErrors SqlSpec RowTypes Quiet Repl Bytes Json JsonProofs JsonValue Api ApiSpec ApiActs ApiActsSpec Http HttpSpec HttpText Server ServerSpec ServerActs ServerActsInv ServerActsSpec ServerPool ServerAlive ServerHandlers.

Section runs.
Context {KI : KeyIndex} (boot : Mem) (limit : nat).
Context (Hbounded : mem_bounded boot) (Hfree : no_failure boot) (Hbytes : bytes_bounded boot).
Context (Hlimit : (Z.of_nat limit + 1 < INT_MAX)%Z).
Abbreviation alive := (alive boot limit).

(** ** The invariant *)

Definition fresh_network (net : list accept_event) : Prop := ∀ fd c, AcceptConn fd c ∈ net → c_out c = [].

(** One order [D] of the records, with the calls that stored them, explains what
    the clients saw. *)
Record explained (st : State) (D : list (record * place)) : Prop := {
  ex_calls : NoDup D.*2;
  ex_call x : x ∈ D.*2 →
    (∃ i h, handlers st !! i = Some h ∧ x = (S i, handler_call h)) ∨ ∃ s, s ∈ served st ∧ x = service_place s;
  ex_numbers : NoDup (s_number <$> served st);
  ex_served s : s ∈ served st → s_end s ≤ length D ∧ ∃ out, serviced D s out ∧
    ((s_fd s, out) ∈ w_closed (world st) ∨ ∃ x, w_conns (world st) !! s_fd s = Some x ∧ c_out x = out);
  ex_closed : closed_ok D (served st) (w_closed (world st))
}.

(** The open sockets that are no connections, while the server exists: the
    listening socket, from the end of [server_create] on. *)
Definition listening_ok (c : server_pc) (sv : Server) (l : list Z) : Prop :=
  match c with
  | S_call K_init | S_listen | S_call K_create_failed => l = []
  | _ => (0 ≤ listen_fd sv)%Z ∧ l = [listen_fd sv]
  end.

(** A signal ends the process only when the peer of an open connection has closed. *)
Definition killed_ok (st : State) : Prop := killed st = true → ∃ fd x, w_conns (world st) !! fd = Some x ∧ broken x.

Lemma not_killed st : killed st = false → killed_ok st.
Proof. intros E Hk. congruence. Qed.

Definition inv (st : State) : Prop :=
  (fresh_network (network st) ∧ killed_ok st) ∧
  match server st with
  | Some sv => listening_ok (pc st) sv (listening st) ∧ ∃ tb g, alive tb (pc st) sv (world st) (handlers st) (served st) (length (network st)) g
  | None =>
      (listening st = [] ∧ w_conns (world st) = ∅) ∧ handlers st = ∅ ∧
      ((∃ args, pc st = S_main args ∧ w_mem (world st) = boot ∧ served st = [] ∧ w_closed (world st) = [] ∧
          length (network st) ≤ limit) ∨
       (∃ code D, pc st = S_end code ∧ same_heaps boot (w_mem (world st)) ∧ m_bytes (w_mem (world st)) = m_bytes boot ∧
          explained st D))
  end.

Lemma entries_places g : (entries g).*2 = (g_log g).*2.
Proof. unfold entries. by rewrite <- list_fmap_compose. Qed.

Lemma alive_explained tb c sv st n g :
  alive tb c sv (world st) (handlers st) (served st) n g → explained st (entries (sh_table g)).
Proof.
  intros [_ Hw _ _ _ _ _ _ _ Hsrv Hcl Hnum Hst _ _]. pose proof (wa_table _ _ _ _ Hw) as Hag. split.
  - rewrite entries_places. apply Hag.
  - intros x Hx. apply Hst, elem_of_dom. rewrite entries_places in Hx. apply list_elem_of_fmap in Hx as ([r y] & -> & Hr).
    apply (ag_log _ _ _ _ Hag) in Hr. eauto.
  - apply Hnum.
  - intros s Hs. rewrite Forall_forall in Hsrv. destruct (Hsrv s Hs) as [He (out & Hok & Hor)]. split; [done|]. exists out.
    split; [done|]. destruct Hor as [?|(x & Hx & Ho & _)]; [by left|right]. exists x.
    by rewrite <- (wa_conns _ _ _ _ Hw), lookup_fmap, Hx.
  - exact Hcl.
Qed.

Lemma nothing_explained st : handlers st = ∅ → served st = [] → w_closed (world st) = [] → explained st [].
Proof.
  intros Hh Hs Hcl. split; rewrite ?Hs, ?Hcl; cbn; try apply NoDup_nil_2; by intros ? ?%elem_of_nil || by intros ? ? ?%elem_of_nil.
Qed.

Lemma inv_explained st : inv st → ∃ D, explained st D.
Proof.
  intros [_ Hst]. destruct (server st) as [sv|].
  - destruct Hst as (_ & tb & g & Hal). eexists. by eapply alive_explained.
  - destruct Hst as (_ & Hh & [(args & _ & _ & Hs & Hcl & _)|(code & D & _ & _ & _ & Hex)]); [|by exists D].
    exists []. by apply nothing_explained.
Qed.

Lemma exec_ends {A} (K : Prop) (c : prog World A) st (k : A → State → State) (Q : A → World → Prop) (P : State → Prop) :
  wpx K False c Q (world st) → (K → P (kill st)) → (∀ a w, Q a w → P (k a (set_world w st))) → P (exec c st k).
Proof. unfold wpx, exec. destruct (c (world st)) as [[a w]| | | |]; auto; done. Qed.

Lemma exec_ok {A} (c : prog World A) st (k : A → State → State) (Q : A → World → Prop) (P : State → Prop) :
  wp c Q (world st) → (∀ a w, Q a w → P (k a (set_world w st))) → P (exec c st k).
Proof. intros Hc. by apply (exec_ends False _ _ _ _ _ Hc). Qed.

(** ** Creation and release *)

Lemma sys_call_results z st r st' : sys_call z st = (r, st') → ∃ l, st' = set_results l st.
Proof.
  unfold sys_call. destruct (sys_results st) as [|x l] eqn:E; intros [= <- <-]; [exists []; rewrite <- E; by destruct st|by exists l].
Qed.

(** The timeouts of a new connection are set, or a call fails. *)
Lemma setsockopt_sets fd f x st r st' : setsockopt fd f st = (r, st') → w_conns (world st) !! fd = Some x →
  ∃ l x', st' = set_results l (set_world (with_conns (<[fd := x']> (w_conns (world st))) (world st)) st) ∧
    (r = 0%Z → x' = f x) ∧ (r ≠ 0%Z → x' = x).
Proof.
  unfold setsockopt. destruct (sys_call 0 st) as [r1 s1] eqn:E1, (sys_call_results _ _ _ _ E1) as [l ->]. intros [= <- <-] Hx.
  exists l. case_decide; [exists (f x)|exists x]; (split; [|done]).
  - unfold with_conns. rewrite <- (alter_alt_Some _ _ _ _ Hx). by destruct st.
  - rewrite insert_id by done. by destruct st as [? []].
Qed.

Lemma timeouts_set fd x st ok st' : server_set_client_socket_timeouts fd st = (ok, st') → w_conns (world st) !! fd = Some x →
  ∃ l x', st' = set_results l (set_world (with_conns (<[fd := x']> (w_conns (world st))) (world st)) st) ∧
    c_out x' = c_out x ∧ (ok = true → timed x').
Proof.
  unfold server_set_client_socket_timeouts. intros E Hx. cbv zeta in E. destruct (setsockopt fd _ st) as [r1 s1] eqn:E1.
  destruct (setsockopt_sets _ _ _ _ _ _ E1 Hx) as (l1 & x1 & -> & H1 & H1'). destruct (decide (r1 ≠ 0%Z)) as [Hr1|Hr1].
  { injection E as <- <-. exists l1, x1. split_and!; [done|by rewrite H1'|done]. }
  destruct (setsockopt fd _ (set_results _ _)) as [r2 s2] eqn:E2.
  destruct (setsockopt_sets _ _ _ _ _ _ E2 (lookup_insert_eq _ _ _)) as (l2 & x2 & -> & H2 & H2').
  assert (x1 = set_rcvtimeo HTTP_SOCKET_IO_TIMEOUT_SECONDS x) as -> by (apply H1; lia).
  exists l2, x2. destruct (decide (r2 ≠ 0%Z)) as [Hr2|Hr2]; injection E as <- <-;
    cbn [world set_results set_world with_conns w_conns]; rewrite insert_insert_eq; (split; [done|]).
  - by rewrite H2'.
  - by rewrite H2 by lia.
Qed.

Lemma close_last fd st : listening st = [fd] → close_socket fd st = set_listening [] st.
Proof.
  intros E. unfold close_socket. rewrite E, decide_True by (by apply elem_of_cons; left).
  by rewrite filter_cons_False by (by intros Hx).
Qed.

Lemma listen_results st fd st' : listening st = [] → server_make_listen_socket st = (fd, st') →
  ∃ l, st' = set_results l (set_listening (if decide (fd < 0)%Z then [] else [fd]) st).
Proof.
  intros Hnone. unfold server_make_listen_socket, open_socket.
  destruct (sys_call 3 st) as [r1 s1] eqn:E1, (sys_call_results _ _ _ _ E1) as [l1 ->].
  case_decide as H1; [intros [= <- <-]; exists l1; rewrite decide_True, <- Hnone by done; by destruct st|].
  cbn [listening set_results]. rewrite Hnone. cbn [app]. set (s1 := set_listening [r1] (set_results l1 st)).
  assert (∀ l, close_socket r1 (set_results l s1) = set_results l (set_listening [] st)) as Hclose.
  { intros l. by rewrite close_last. }
  destruct (sys_call 0 s1) as [r2 s2] eqn:E2, (sys_call_results _ _ _ _ E2) as [l2 ->].
  case_decide; [intros [= <- <-]; rewrite Hclose; by exists l2|].
  destruct (sys_call 0 (set_results l2 s1)) as [r3 s3] eqn:E3, (sys_call_results _ _ _ _ E3) as [l3 ->].
  case_decide; intros [= <- <-]; [exists l3; by rewrite <- Hclose|exists l3; by rewrite decide_False].
Qed.

Lemma signal_handlers_results st ok st' : install_signal_handlers st = (ok, st') → ∃ l, st' = set_results l st.
Proof.
  unfold install_signal_handlers. destruct (sys_call 0 st) as [r1 s1] eqn:E1, (sys_call_results _ _ _ _ E1) as [l1 ->].
  case_decide; [intros [= <- <-]; by exists l1|].
  destruct (sys_call 0 (set_results l1 st)) as [r2 s2] eqn:E2, (sys_call_results _ _ _ _ E2) as [l2 ->]. intros [= <- <-]. by exists l2.
Qed.

(** While no handler runs, the table is that of the records in the order of their ids. *)
Lemma quiet_table tb c sv w srv n g : alive tb c sv w ∅ srv n g →
  (∀ i, idle i (sh_table g)) ∧ m_bytes (w_mem w) = m_bytes boot.
Proof using Type.
  intros Hal. pose proof (cr_rests _ _ _ _ _ (al_crew _ _ _ _ _ _ _ _ _ _ Hal)) as Hrest. split; [intros i; by apply Hrest|].
  rewrite (wa_bytes _ _ _ _ (al_world _ _ _ _ _ _ _ _ _ _ Hal)).
  assert (sh_blocks g = ∅) as ->; [|by rewrite fmap_empty, (left_id_L ∅ (∪))].
  apply map_empty. intros l. destruct (sh_blocks g !! l) as [[i blk]|] eqn:Hl; [|done].
  destruct (Hrest i) as [_ Hno]; [done|]. by apply Hno in Hl.
Qed.

Lemma no_handlers tb c sv w hs srv n g : alive tb c sv w hs srv n g → held (server_pool sv) = [] → hs = ∅.
Proof using Type.
  intros Hal Hheld. apply map_empty. intros i. destruct (hs !! i) as [h|] eqn:Hi; [|done].
  apply (cr_handler _ _ _ _ _ (al_crew _ _ _ _ _ _ _ _ _ _ Hal)) in Hi. apply not_handled in Hi; [done|].
  rewrite Hheld. by intros ?%elem_of_nil.
Qed.

Lemma release_inv tb c sv st code n g :
  alive tb c sv (world st) (handlers st) (served st) n g → pending c (server_pool sv) = [] → held (server_pool sv) = [] →
  fresh_network (network st) → listening st = [] → killed st = false → inv (server_release sv code st).
Proof using Type.
  intros Hal Hp Hheld Hnet Hl Hk. pose proof (alive_explained _ _ _ _ _ _ Hal) as Hex.
  pose proof (no_handlers _ _ _ _ _ _ _ _ Hal Hheld) as Hh. rewrite Hh in Hal. destruct (quiet_table _ _ _ _ _ _ _ Hal) as [Hidle Hb].
  pose proof (wa_table _ _ _ _ (al_world _ _ _ _ _ _ _ _ _ _ Hal)) as Hag.
  assert (w_conns (world st) = ∅) as Hconns.
  { apply map_empty. intros fd. apply eq_None_not_Some. intros Hsome%(al_open _ _ _ _ _ _ _ _ _ _ Hal). unfold owned in Hsome.
    rewrite Hp, Hheld in Hsome. by apply elem_of_nil in Hsome. }
  unfold server_release. rewrite (al_table _ _ _ _ _ _ _ _ _ _ Hal).
  eapply (exec_ok _ st _ (λ _ w', w_conns w' = w_conns (world st) ∧ w_closed w' = w_closed (world st) ∧
    same_heaps boot (w_mem w') ∧ m_bytes (w_mem w') = m_bytes boot)).
  - apply wp_on_mem. eapply wp_mono; [|apply wp_quiet; [apply quiet_table_destroy|by eapply destroy_refines_table, end_table]].
    intros _ m ((_ & Hmb & _) & Hsame & _). cbn. split_and!; [done..|congruence].
  - intros _ w' (Hcn & Hclosed & Hsame & Hbytes'). split; cbn; [by split; [|apply not_killed]|]. split_and!; [done|by rewrite Hcn|done|right].
    exists code, (entries (sh_table g)). split_and!; [done..|]. destruct Hex as [H1 H2 H3 H4 H5].
    split; cbn; rewrite ?Hcn, ?Hclosed; done.
Qed.

Lemma create_table_ok w : w_mem w = boot → wp (on_mem table_create) (λ p w', ∃ tb, p = Some tb ∧
  w_conns w' = w_conns w ∧ w_closed w' = w_closed w ∧ table_at tb empty_state boot (w_mem w') ∧ no_failure (w_mem w') ∧
  bytes_bounded (w_mem w') ∧ m_bytes (w_mem w') = m_bytes boot) w.
Proof using Hbounded Hfree Hbytes.
  intros Hw. apply wp_on_mem. rewrite Hw.
  assert (wp table_create (λ p m1, ∃ tb, p = Some tb ∧ table_at tb empty_state boot m1 ∧ no_failure m1) boot) as Hcreate.
  { apply create_refines; [done| |].
    - intros m' (_ & Hm' & _). by destruct Hm'.
    - intros tb m1 Hat _ Henv _. exists tb. split_and!; [done|done|by eapply suffix_no_failure]. }
  eapply wp_mono; [|apply wp_quiet; [apply quiet_table_create|exact Hcreate]].
  intros p m1 (Hcalm & tb & -> & Hat & Hf). exists tb. cbn. split_and!; [done..|by eapply calm_bounded|apply Hcalm].
Qed.

(** The server begins without connections, handlers and calls. *)
Lemma created_alive tb cfg pool_calls w n :
  table_at tb empty_state boot (w_mem w) → no_failure (w_mem w) → bytes_bounded (w_mem w) → m_bytes (w_mem w) = m_bytes boot →
  w_conns w = ∅ → w_closed w = [] → n ≤ limit →
  ∃ g, alive tb (S_call K_init) (MkServer (-1) (Some tb)
    (start (Z.to_nat (worker_count cfg)) (Z.to_nat (queue_capacity cfg)) [] pool_calls) cfg false) w ∅ [] n g.
Proof using Type.
  intros (t & fps & Hinv) Hf Hbd Hb Hconns Hcl Hn. exists (Shared (start_ghost [] t fps) ∅ ∅).
  split; cbn [table server_pool]; rewrite ?Hcl; try done.
  - split; cbn; [by apply start_agree|by rewrite fmap_empty, (left_id_L ∅ (∪))|done|done|by rewrite fmap_empty].
  - constructor.
  - intros fd. rewrite Hconns. split; [by intros [? ?]|intros H; by apply elem_of_nil in H].
  - by intros fd out ?%elem_of_nil.
  - split; try done; [by intros s ?%elem_of_nil|constructor].
Qed.

Lemma server_create_inv cfg st :
  w_mem (world st) = boot → w_conns (world st) = ∅ → server st = None → handlers st = ∅ → served st = [] → w_closed (world st) = [] →
  length (network st) ≤ limit → fresh_network (network st) → listening st = [] → killed st = false → inv (server_create cfg st).
Proof using Hbounded Hfree Hbytes.
  intros Hw Hconns Hserver Hhs Hsrv Hcl Hcnt Hnet Hl Hk. unfold server_create.
  eapply (exec_ok _ st _ (λ ok w', ok = true ∧ w' = world st)).
  { unfold wpx, on_mem, lib_call. rewrite Hw. unfold no_failure in Hfree. rewrite Hfree. split; [done|]. rewrite <- Hw. by destruct (world st). }
  intros ok w' [-> ->]. cbn [negb]. eapply exec_ok; [by apply create_table_ok|].
  intros p w1 (tb & -> & Hc1 & Hcl1 & Hat & Hf & Hbd & Hb). cbn [set_world world] in *.
  split; cbn; [by split; [|apply not_killed]|]. split; [done|]. rewrite Hhs, Hsrv. exists tb. apply created_alive; [done..| | |done]; congruence.
Qed.

Lemma same_heaps_refl m : same_heaps m m.
Proof. by split_and!. Qed.

Lemma server_main_inv args st :
  w_mem (world st) = boot → w_conns (world st) = ∅ → server st = None → handlers st = ∅ → served st = [] → w_closed (world st) = [] →
  length (network st) ≤ limit → fresh_network (network st) → listening st = [] → killed st = false → inv (server_main args st).
Proof using Hbounded Hfree Hbytes.
  intros Hw Hconns Hserver Hhs Hsrv Hcl Hcnt Hnet Hl Hk.
  assert (∀ l, inv (set_pc (S_end 1) (set_results l st))) as Hend.
  { intros l. split; cbn; [by split; [|apply not_killed]|]. rewrite Hserver. split_and!; [done..|]. right. exists 1%Z, []. rewrite Hw.
    split_and!; [done..|]. by apply nothing_explained. }
  unfold server_main. destruct (parse_port args) as [port|].
  2: { specialize (Hend (sys_results st)). by destruct st. }
  destruct (install_signal_handlers st) as [ok st1] eqn:E, (signal_handlers_results _ _ _ E) as [l ->].
  destruct ok; cbn [negb]; [|done]. destruct (parse_config port args) as [cfg|]; [|done].
  by apply server_create_inv.
Qed.

(** ** Every step *)

(** A step that leaves the server at [c]. *)
Lemma inv_alive tb c sv w hs srv net g st :
  alive tb c sv w hs srv (length net) g → fresh_network net → server st = Some sv → pc st = c → world st = w → handlers st = hs →
  served st = srv → network st = net → listening_ok c sv (listening st) → killed st = false → inv st.
Proof using Type.
  intros Hal Hnet Hs Hp Hw Hh Hsrv Hn Hl Hk. unfold inv, killed_ok. rewrite Hs, Hp, Hw, Hh, Hsrv, Hn, Hk.
  split; [done|]. split; [done|]. by exists tb, g.
Qed.

Lemma inv_killed st : inv st → (∃ fd x, w_conns (world st) !! fd = Some x ∧ broken x) → inv (kill st).
Proof using Type.
  intros [[Hnet _] Hst] Hb. split; [split; [done|by intros _]|]. cbn. destruct (server st); [done|].
  destruct Hst as (Hc & Hh & [(args & Hm)|(code & D & Hp & Hs & Hbs & [])]);
    (split; [done|split; [done|]]); [left; exists args; exact Hm|right]. exists code, D. by split_and!.
Qed.

Lemma returned_idle k p : call_ok (S_call k) p → returned p = true →
  main p = M_idle ∧ script p = [] ∨ ∃ created, main p = M_end created.
Proof using Type.
  unfold returned. destruct (main p); try done; intros _; [|by eauto]. intros H%bool_decide_eq_true. by left.
Qed.

Lemma fresh_network_cons ev net : fresh_network (ev :: net) → fresh_network net.
Proof using Type. intros H fd c Hin. apply (H fd c). by apply elem_of_cons; right. Qed.

(** A connection whose timeouts cannot be set is closed at once. *)
Lemma dropped_alive tb fd sv w hs srv n g :
  alive tb S_accept sv w hs srv (S n) g →
  alive tb S_run sv (MkWorld (w_mem w) (w_conns w) (w_closed w ++ [(fd, [])])) hs srv n g.
Proof using Type.
  intros Hal. pose proof Hal as [_ Hw Hs Hc _ Hnd Ho Hownr Hout Hsrv Hcl _ _ _ Hcnt].
  assert (g = Shared (sh_table g) (sh_blocks g) (sh_conns g)) as Hg by by destruct g. rewrite Hg.
  eapply (alive_main _ _ _ _ _ w); [exact Hal|done|done|exact Hc|done|apply spent_refl|apply Hw|done|exact Hnd|exact Ho|..].
  - intros fd' x Hx. split; [by eapply (Hownr fd' 0)|by apply Hout].
  - rewrite <- Hg. eapply Forall_impl; [exact Hsrv|]. intros s [He (out & Hok & Hor)]. split; [done|]. exists out. split; [done|].
    destruct Hor as [?|?]; [left; cbn; apply elem_of_app; by left|by right].
  - apply closed_ok_snoc; [done|left]. by exists 0.
  - cbn in Hcnt |- *. clear - Hcnt. lia.
Qed.

Lemma accept_inv tb sv g st st' :
  alive tb S_accept sv (world st) (handlers st) (served st) (length (network st)) g → server st = Some sv → pc st = S_accept →
  fresh_network (network st) → listening_ok S_accept sv (listening st) → killed st = false →
  server_run_accept sv st = Some st' → inv st'.
Proof.
  intros Hal Hserver Hpc Hnet Hl Hk. destruct (alive_idle _ _ _ _ _ _ _ _ _ _ Hal) as (Em & Es & Hp); [auto|].
  unfold server_run_accept. destruct (network st) as [|[fd x| |] net] eqn:En; [done|..].
  - case_decide as Hfd; [|done]. cbv zeta. pose proof (fresh_network_cons _ _ Hnet) as Hnet'.
    assert (c_out x = []) as Hx0 by (apply (Hnet fd x), elem_of_cons; by left).
    destruct (server_set_client_socket_timeouts _ _) as [ok s1] eqn:E.
    destruct (timeouts_set fd x _ _ _ E (lookup_insert_eq _ _ _)) as (l & x' & -> & Hx' & Htimed). rewrite Hx0 in Hx'.
    cbn [world set_world set_network set_results with_conns w_conns w_mem w_closed]. rewrite insert_insert_eq.
    destruct ok; cbn [negb]; intros [= <-].
    + eapply inv_alive; [apply (accept_alive _ _ _ fd x'); by auto|exact Hnet'|done..].
    + eapply (exec_ok _ _ _ (λ _ w', w' = MkWorld (w_mem (world st)) (w_conns (world st)) (w_closed (world st) ++ [(fd, [])]))).
      { eapply close_ok; [apply lookup_insert_eq|]. cbn. rewrite Hx', delete_insert_id; [done|by apply Hfd]. }
      intros _ w' ->. cbn. eapply (inv_alive tb S_run sv _ _ (served st) net); [by apply dropped_alive|exact Hnet'|done..].
  - intros [= <-]. eapply (inv_alive tb S_run sv _ _ _ net); [|by eapply fresh_network_cons|done..].
    eapply idle_alive; [exact Hal|done..|auto|done|done|simpl; lia].
  - intros [= <-]. eapply inv_alive; [|by eapply fresh_network_cons|done..].
    eapply call_alive; [exact Hal|done..|by left|done|done|cbn; lia].
Qed.

Lemma main_step_inv waiter st st' : server_main_step waiter st = Some st' → killed st = false → inv st → inv st'.
Proof.
  intros Hstep Hk Hinv. pose proof Hinv as ((Hnet & _) & Hst). unfold server_main_step in Hstep.
  destruct (server st) as [sv|] eqn:Hserver.
  2: { destruct Hst as ((Hl & Hconns) & Hh & [(args & Epc & Hw & Hsrv & Hcl & Hcnt)|(code & D & Epc & _)]); rewrite Epc in Hstep; [|done].
    injection Hstep as <-. by apply server_main_inv. }
  destruct Hst as (Hl & tb & g & Hal). pose proof Hal as [_ _ Hs Hc _ _ _ _ _ _ _ _ _ _ _].
  destruct (pc st) as [args|k| | | | |code|] eqn:Epc; try (by destruct Hc).
  - destruct (returned (server_pool sv)) eqn:Hret.
    2: { destruct (main_step waiter (server_pool sv)) as [p'|] eqn:E; [|done]. injection Hstep as <-.
      eapply inv_alive; [by eapply pool_step_alive|exact Hnet|done..]. }
    pose proof (returned_idle k _ Hc Hret) as Hidle.
    assert (∀ c' sv', c' = S_listen ∨ c' = S_run ∨ c' = S_accept ∨ c' = S_destroy → main (server_pool sv) = M_idle → script (server_pool sv) = [] →
      pending (pc st) (server_pool sv) = [] → table sv' = table sv → server_pool sv' = server_pool sv → listening_ok c' sv' (listening st) →
      inv (set_pc c' (set_server (Some sv') st))) as Hgo.
    { intros c' sv' Hc' Em Es Hp Ht Hsp Hl'. eapply inv_alive; [|exact Hnet|done..].
      rewrite Epc in Hp. eapply idle_alive; [exact Hal|done..]. }
    assert (∀ code' st0, (∃ created, main (server_pool sv) = M_end created) → pending (pc st) (server_pool sv) = [] →
      set_listening [] st = st0 → inv (server_release sv code' st0)) as Hrelease.
    { intros code' st0 [created Hend] Hp <-. rewrite Epc in Hp. eapply release_inv; [exact Hal|done|by eapply ended_held|done..]. }
    rewrite Epc in *. destruct st as [srv0 w0 pc0 sh net0 res0 pr0 hs0 served0 li0 ki0]; cbn [server pc listening killed] in *; subst srv0 pc0.
    destruct k as [| |fd a| |]; cbn [after_call server_run server_destroy pc] in Hstep.
    + destruct Hidle as [[Em Es]|[created Em]]; rewrite Em in Hstep; injection Hstep as <-.
      * by apply (Hgo S_listen sv); auto.
      * apply Hrelease; [by eauto|done|by rewrite <- Hl].
    + injection Hstep as <-. apply Hrelease; [|done|by rewrite <- Hl]. destruct Hidle as [[Em Es]|?]; [|done]. cbn in Hc. rewrite Em in Hc. congruence.
    + injection Hstep as <-. destruct Hidle as [[Em Es]|[created Em]]; [|cbn in Hc; by rewrite Em in Hc].
      unfold server_run_submitted. case_decide as Ha.
      * eapply exec_ends; [by eapply refuse_busy| |intros _ w' [g' Hal']; by eapply inv_alive].
        intros (x & Hx & Hb). apply inv_killed; [exact Hinv|by exists fd, x].
      * apply (Hgo S_run sv); auto. cbn. by rewrite decide_False.
    + injection Hstep as <-. destruct Hidle as [[Em Es]|[created Em]]; [|cbn in Hc; by rewrite Em in Hc].
      apply (Hgo S_destroy sv); auto.
    + injection Hstep as <-. destruct Hl as [Hfd Hl]. apply Hrelease; [|done|by rewrite decide_True, close_last].
      destruct Hidle as [[Em Es]|?]; [|done]. cbn in Hc. rewrite Em in Hc. congruence.
  - injection Hstep as <-. destruct (alive_idle _ _ _ _ _ _ _ _ _ _ Hal) as (Em & Es & Hp); [auto|]. unfold server_create_finish.
    destruct (server_make_listen_socket st) as [fd s1] eqn:E, (listen_results _ _ _ Hl E) as [l ->]. case_decide.
    + eapply inv_alive; [|exact Hnet|done..]. eapply call_alive; [exact Hal|done..|right; by auto|done|done|done].
    + eapply inv_alive; [|exact Hnet|done..|cbn; split; [lia|done]|done]. eapply idle_alive; [exact Hal|done..|auto|done|done|done].
  - unfold server_run in Hstep. rewrite Epc in Hstep. destruct (alive_idle _ _ _ _ _ _ _ _ _ _ Hal) as (Em & Es & Hp); [auto|].
    destruct (initialized sv); cbn [negb] in Hstep; [destruct (g_shutdown_requested st)|]; injection Hstep as <-.
    + eapply inv_alive; [|exact Hnet|done..]. eapply call_alive; [exact Hal|done..|by left|done|done|done].
    + eapply inv_alive; [|exact Hnet|done..]. eapply idle_alive; [exact Hal|done..|auto|done|done|done].
    + eapply inv_alive; [|exact Hnet|done..]. eapply idle_alive; [exact Hal|done..|auto|done|done|done].
  - unfold server_run in Hstep. rewrite Epc in Hstep. by eapply accept_inv.
  - unfold server_destroy in Hstep. rewrite Epc in Hstep. injection Hstep as <-.
    destruct (alive_idle _ _ _ _ _ _ _ _ _ _ Hal) as (Em & Es & Hp); [auto|].
    eapply inv_alive; [|exact Hnet|done..]. eapply call_alive; [exact Hal|done..|right; by auto|done|done|done].
Qed.

Lemma handler_step_inv tb i h sv g st st' :
  alive tb (pc st) sv (world st) (handlers st) (served st) (length (network st)) g → server st = Some sv → inv st → killed st = false →
  handlers st !! i = Some h → server_handler_step i h sv st = Some st' → inv st'.
Proof using Type.
  intros Hal Hserver Hinv Hk Hi. pose proof Hinv as ((Hnet & _) & Hst). rewrite Hserver in Hst. destruct Hst as [Hl _]. unfold server_handler_step. destruct (h_todo h) as [u|acc X c k] eqn:Htd.
  - destruct (thread_pool_worker_main i (server_pool sv)) as [p'|] eqn:E; [|done]. cbn [mbind option_bind]. intros [= <-].
    rewrite (al_table _ _ _ _ _ _ _ _ _ _ Hal).
    edestruct return_alive as [g' Hal']; [exact Hal|exact Hi|exact Htd|exact E|reflexivity|by eapply inv_alive].
  - epose proof (act_alive _ _ _ _ _ _ _ _ _ _ _ _ _ _ _ _ Hal Hi Htd) as Hact.
    destruct (c (world st)) as [[x w']| | | |]; [|done|done| |done].
    + destruct Hact as [g' Hal']. intros [= <-]. by eapply inv_alive.
    + intros [= <-]. by apply inv_killed.
Qed.

Lemma worker_step_inv i st st' : server_worker_step i st = Some st' → killed st = false → inv st → inv st'.
Proof.
  intros Hstep Hk Hinv. pose proof Hinv as ((Hnet & _) & Hst). unfold server_worker_step in Hstep.
  destruct (server st) as [sv|] eqn:Hserver; [|done]. cbn [mbind option_bind] in Hstep. destruct Hst as (Hl & tb & g & Hal).
  destruct (handlers st !! i) as [h|] eqn:Hi; [by eapply handler_step_inv|].
  destruct (thread_pool_worker_main i (server_pool sv)) as [p'|] eqn:E; [|done]. cbn [mbind option_bind] in Hstep.
  pose proof (al_crew _ _ _ _ _ _ _ _ _ _ Hal) as Hcr.
  assert (∀ fd, threads (server_pool sv) !! i ≠ Some (W_handle fd)) as Hno.
  { intros fd Hfd. destruct (cr_busy _ _ _ _ _ Hcr _ _ Hfd). congruence. }
  assert ((∀ fd, threads (server_pool sv) !! i ≠ Some (W_close fd)) → match threads p' !! i with
    | Some (W_handle fd) => Some (call_handler i fd sv (set_pool_of sv p' st)) | _ => Some (set_pool_of sv p' st) end = Some st' → inv st') as Hplain.
  { intros Hno2. destruct (threads p' !! i) as [[| | | | |fd|fd| |]|] eqn:Ei'; intros [= <-];
      try (eapply inv_alive; [eapply worker_alive; [exact Hal|exact E|by split|congruence]|exact Hnet|done..]).
    unfold call_handler. cbn [world set_pool_of set_server]. rewrite (al_table _ _ _ _ _ _ _ _ _ _ Hal).
    assert (is_Some (w_conns (world st) !! fd)) as [x Hx].
    { apply (al_open _ _ _ _ _ _ _ _ _ _ Hal). unfold owned. apply elem_of_app. right.
      apply (take_descriptor i fd _ _ E); [apply Hal| |done]. by apply (NoDup_app (pending (pc st) (server_pool sv))), Hal. }
    rewrite Hx. edestruct take_alive as [g' Hal']; [exact Hlimit|exact Hal|exact E|exact Hi|exact Ei'|exact Hx|reflexivity|by eapply inv_alive]. }
  destruct (threads (server_pool sv) !! i) as [[| | | | |fd|fd| |]|] eqn:Ew; try (by apply Hplain).
  injection Hstep as <-. pose proof (worker_close_alive _ _ _ i fd _ sv _ _ _ _ _ p' Hal E Ew) as Hwp.
  eapply exec_ok; [exact Hwp|]. intros _ w' [g' Hal']. by eapply inv_alive.
Qed.

Lemma step_inv ev st st' : server_step ev st = Some st' → inv st → inv st'.
Proof.
  unfold server_step. destruct (killed st) eqn:Hk; [done|]. destruct ev as [waiter|i|i|].
  - intros Hstep. by eapply main_step_inv.
  - intros Hstep. by eapply worker_step_inv.
  - intros Hstep ((Hnet & _) & Hst). destruct (server st) as [sv|]; [|done]. cbn [mbind option_bind] in Hstep.
    destruct (step (Ev_spurious i) (server_pool sv)) as [p'|] eqn:E; [|done]. injection Hstep as <-. destruct Hst as (Hl & tb & g & Hal).
    eapply inv_alive; [by eapply spurious_alive|exact Hnet|done..].
  - unfold handle_signal. intros Hstep ((Hnet & _) & Hst). destruct (server st) as [sv|] eqn:Hserver.
    + destruct Hst as (Hl & tb & g & Hal). destruct (pc st) eqn:E; try done; injection Hstep as <-; eapply inv_alive; try done; by rewrite E in Hl |- *.
    + destruct Hst as (_ & _ & [(? & E & _)|(? & ? & E & _)]); by rewrite E in Hstep.
Qed.

Lemma execute_inv evs st st' : server_execute evs st = Some st' → inv st → inv st'.
Proof.
  revert st. induction evs as [|ev evs IH]; intros st; cbn [server_execute]; [by intros [= <-]|].
  destruct (server_step ev st) as [s1|] eqn:E; [|done]. cbn [mbind option_bind]. intros Hrun Hinv.
  eapply IH; [exact Hrun|by eapply step_inv].
Qed.

Lemma process_inv args net results pool_calls :
  fresh_network net → length net ≤ limit → inv (process args boot net results pool_calls).
Proof using Type.
  intros Hnet Hcnt. split; cbn; [done|]. split; [done|]. split; [done|]. left. by exists args.
Qed.

Lemma inv_defined st : inv st → pc st ≠ S_undefined.
Proof using Type.
  intros (_ & Hst). destruct (server st) as [sv|].
  - destruct Hst as (_ & tb & g & Hal). pose proof (al_call _ _ _ _ _ _ _ _ _ _ Hal) as Hc. intros E. by rewrite E in Hc.
  - destruct Hst as (_ & _ & [(? & -> & _)|(? & ? & -> & _)]); done.
Qed.
End runs.
