(* ===== verification/ServerLive.v ===== *)
(** The handlers that run: they never race for the table, one of them can always
    go on, and all of them return, unless a signal ends the process first. *)
From stdpp Require Import base list gmap sorting strings fin_maps.
From Stdlib Require Import Ascii ZArith Lia Wellfounded.
From S2P Require Import ThreadPool ThreadPoolInv ThreadPoolSafe ThreadPoolRuns ThreadPoolLive Prelude Memory CLib CLibProofs BPTree Index Table TableMem TableRep TableCollect TableQueries TableUpdate TableLife TableSpec Actions TableActs TableActsAlone TableActsInv TableActsSteps TableActsInsert TableActsArrays TableActsLookups TableActsCollect TableActsSpec TableActsRuns TableActsEnds Sql SqlLex SqlGrammar SqlErrors SqlSpec RowTypes Quiet Repl Bytes Json JsonProofs JsonValue Api ApiSpec ApiActs ApiActsSpec Http HttpSpec HttpText Server ServerSpec ServerActs ServerActsInv ServerActsSpec ServerPool ServerAlive ServerHandlers ServerRuns.

(** ** One entry of a map goes down *)

Definition less_entry {A} (R : A → A → Prop) (m' m : gmap nat A) : Prop :=
  ∃ i x, m !! i = Some x ∧ (m' = delete i m ∨ ∃ x', R x' x ∧ m' = <[i := x']> m).

Definition less_option {A} (R : A → A → Prop) (o' o : option A) : Prop :=
  match o, o' with
  | Some x, Some x' => R x' x
  | Some _, None => True
  | None, _ => False
  end.

Lemma less_option_wf {A} (R : A → A → Prop) : well_founded R → well_founded (less_option R).
Proof.
  intros HR. assert (Acc (less_option R) None) as Hnone by by constructor.
  intros [x|]; [|done]. induction (HR x) as [x _ IH]. constructor. intros [x'|] Hless; [by apply IH|done].
Qed.

Definition entries_below {A} (n : nat) (m : gmap nat A) : list (option A) := (λ i, m !! i) <$> seq 0 n.

Lemma entries_below_set {A} n (m m' : gmap nat A) i o :
  i < n → m' !! i = o → (∀ j, j ≠ i → m' !! j = m !! j) → entries_below n m' = <[i := o]> (entries_below n m).
Proof.
  intros Hi Ho Hm. apply list_eq. intros j. unfold entries_below. rewrite list_lookup_fmap.
  destruct (decide (i = j)) as [<-|Hne].
  - rewrite list_lookup_insert_eq by by rewrite length_fmap, length_seq. by rewrite lookup_seq_lt, <- Ho.
  - rewrite list_lookup_insert_ne, list_lookup_fmap by done. destruct (seq 0 n !! j) as [k|] eqn:Hk; [|done].
    apply lookup_seq in Hk as [-> _]. simpl. by rewrite Hm.
Qed.

Lemma less_entry_wf {A} (R : A → A → Prop) : well_founded R → well_founded (less_entry R).
Proof.
  intros HR m. assert (∃ n, ∀ i x, m !! i = Some x → i < n) as [n Hn].
  { induction m as [|i x m _ [n Hn]] using map_ind; [by exists 0|]. exists (S i `max` n). intros j y [[<- _]|[_ Hj%Hn]]%lookup_insert_Some; lia. }
  remember (entries_below n m) as l eqn:Hl. revert m Hl Hn.
  induction (one_less_wf _ (less_option_wf _ HR) l) as [l _ IH]. intros m -> Hn. constructor.
  intros m' (i & x & Hi & Hm'). pose proof (Hn i x Hi) as Hlt.
  assert (∃ o, m' !! i = o ∧ less_option R o (Some x) ∧ ∀ j, j ≠ i → m' !! j = m !! j) as (o & Ho & Hless & Hother).
  { destruct Hm' as [->|(x' & Hx' & ->)]; [exists None; rewrite lookup_delete_eq|exists (Some x'); rewrite lookup_insert_eq];
      (split_and!; [done..|]); intros j Hj; [by apply lookup_delete_ne|by apply lookup_insert_ne]. }
  eapply IH; [|done|].
  - exists i, (Some x), o. split_and!; [|done|by apply entries_below_set].
    unfold entries_below. rewrite list_lookup_fmap, lookup_seq_lt by done. simpl. by rewrite Hi.
  - intros j y Hj. destruct (decide (j = i)) as [->|Hne]; [done|]. rewrite Hother in Hj by done. by eapply Hn.
Qed.

(** ** Steps of the handlers *)

(** [st'] is a step of a handler after [st]. *)
Definition next_handled (st' st : State) : Prop := ∃ i h, handlers st !! i = Some h ∧ server_step (Sv_worker i) st = Some st'.

Definition todos (st : State) : gmap nat (world_act unit) := h_todo <$> handlers st.

(** The service that a handler becomes. *)
Definition becomes (i : nat) (h : handling) (s : service) : Prop :=
  s_worker s = i ∧ s_fd s = h_fd h ∧ s_conn s = h_conn h ∧ s_number s = h_number h ∧ s_begin s = h_begin h.

(** The handlers of [st] go on or have returned. *)
Definition carried (st st' : State) : Prop :=
  served st ⊆ served st' ∧
  ∀ i h, handlers st !! i = Some h →
    (∃ k, handlers st' !! i = Some (Handling (h_fd h) (h_conn h) (h_number h) (h_begin h) k)) ∨ ∃ s, s ∈ served st' ∧ becomes i h s.

Lemma carried_refl st : carried st st.
Proof. split; [done|]. intros i h Hi. left. exists (h_todo h). by destruct h. Qed.

Lemma carried_trans st1 st2 st3 : carried st1 st2 → carried st2 st3 → carried st1 st3.
Proof.
  intros [H1 C1] [H2 C2]. split; [by etrans|]. intros i h Hi. destruct (C1 i h Hi) as [[k Hk]|(s & Hs & Hb)].
  - destruct (C2 _ _ Hk) as [[k' Hk']|(s & Hs & Hb)]; [left; by exists k'|right; by exists s].
  - right. exists s. split; [by apply H2|done].
Qed.

Lemma handler_step_less i h st st' :
  handlers st !! i = Some h → server_worker_step i st = Some st' → pc st' ≠ S_undefined →
  (less_entry next_act (todos st') (todos st) ∨ killed st' = true) ∧ carried st st'.
Proof.
  unfold server_worker_step, server_handler_step, todos. intros Hi Hstep Hpc.
  destruct (server st) as [sv|]; [|done]. cbn [mbind option_bind] in Hstep. rewrite Hi in Hstep.
  destruct (h_todo h) as [u|acc X c k] eqn:Htd.
  - destruct (thread_pool_worker_main i (server_pool sv)) as [p'|]; [|done]. injection Hstep as <-. split; cbn.
    + left. exists i, (h_todo h). split; [by rewrite lookup_fmap, Hi|left]. by rewrite fmap_delete.
    + split; [set_solver|]. intros j hj Hj. cbn. destruct (decide (i = j)) as [<-|Hne].
      * right. eexists. split; [apply elem_of_app; right; by left|]. by assert (hj = h) as -> by congruence.
      * left. exists (h_todo hj). rewrite lookup_delete_ne by done. rewrite Hj. by destruct hj.
  - destruct (c (world st)) as [[x w]| | | |] eqn:Hc; [|by injection Hstep as <-|done| |by injection Hstep as <-].
    2: { injection Hstep as <-. split; [by right|apply (carried_refl st)]. }
    injection Hstep as <-. split; cbn.
    + left. exists i, (h_todo h). split; [by rewrite lookup_fmap, Hi|right]. exists (k x). rewrite fmap_insert. split; [|done].
      rewrite Htd. by exists x, (world st), w.
    + split; [done|]. intros j hj Hj. left. cbn. destruct (decide (i = j)) as [<-|Hne].
      * exists (k x). rewrite lookup_insert_eq. by assert (hj = h) as -> by congruence.
      * exists (h_todo hj). rewrite lookup_insert_ne by done. rewrite Hj. by destruct hj.
Qed.

Section live.
Context {KI : KeyIndex} (boot : Mem) (limit : nat).
Context (Hbounded : mem_bounded boot) (Hfree : no_failure boot) (Hbytes : bytes_bounded boot).
Context (Hlimit : (Z.of_nat limit + 1 < INT_MAX)%Z).
Abbreviation inv := (inv boot limit).

Lemma handlers_alive st : inv st → handlers st ≠ ∅ →
  ∃ sv tb g, server st = Some sv ∧ alive boot limit tb (pc st) sv (world st) (handlers st) (served st) (length (network st)) g.
Proof using Type.
  intros [_ Hst] Hne. destruct (server st) as [sv|]; [|by destruct Hst as (_ & Hh & _)].
  destruct Hst as (_ & tb & g & Hal). by exists sv, tb, g.
Qed.

(** A handler that has no step waits for a lock that another thread has. *)
Lemma stuck_waits tb sv st g i h :
  server st = Some sv → alive boot limit tb (pc st) sv (world st) (handlers st) (served st) (length (network st)) g →
  handlers st !! i = Some h → server_worker_step i st = None → may_wait (S i) (sh_table g).
Proof using Type.
  intros Hsv Hal Hi Hstep. unfold server_worker_step, server_handler_step in Hstep. rewrite Hsv in Hstep.
  cbn [mbind option_bind] in Hstep. rewrite Hi in Hstep. destruct (h_todo h) as [u|acc X c k] eqn:Htd.
  - pose proof (cr_handler _ _ _ _ _ (al_crew _ _ _ _ _ _ _ _ _ _ Hal) i h Hi) as Hts.
    unfold thread_pool_worker_main in Hstep. by rewrite Hts in Hstep.
  - pose proof (act_alive _ _ _ _ _ _ _ _ _ _ _ _ _ _ _ _ Hal Hi Htd) as Hact. by destruct (c (world st)) as [[x w]| | | |].
Qed.

Lemma handlers_go st : inv st → killed st = false → handlers st ≠ ∅ → ∃ st', next_handled st' st.
Proof using Type.
  intros Hinv Hk Hne. destruct (handlers_alive st Hinv Hne) as (sv & tb & g & Hsv & Hal).
  assert (∀ i h st', handlers st !! i = Some h → server_worker_step i st = Some st' → ∃ st', next_handled st' st) as Hgo.
  { intros i h st' Hi Hstep. exists st', i, h. split; [done|]. unfold server_step. by rewrite Hk. }
  apply map_choose in Hne as (i & h & Hi).
  destruct (server_worker_step i st) as [st'|] eqn:E; [by eapply Hgo|].
  destruct (stuck_waits _ _ _ _ _ _ Hsv Hal Hi E) as (_ & j & _ & [hold Hj]).
  destruct (handlers st !! Nat.pred j) as [h'|] eqn:Hi'.
  - assert (j = S (Nat.pred j)) as Hjs.
    { destruct j; [|done]. destruct (cr_rests _ _ _ _ _ (al_crew _ _ _ _ _ _ _ _ _ _ Hal) 0) as [[Hk0 _] _]; [done|congruence]. }
    destruct (server_worker_step (Nat.pred j) st) as [st'|] eqn:E'; [by eapply Hgo|].
    destruct (stuck_waits _ _ _ _ _ _ Hsv Hal Hi' E') as [Hk0 _]. rewrite <- Hjs in Hk0. congruence.
  - destruct (cr_rests _ _ _ _ _ (al_crew _ _ _ _ _ _ _ _ _ _ Hal) j) as [[Hk0 _] _]; [by intros j' ->|congruence].
Qed.

Lemma next_handled_inv st st' : inv st → next_handled st' st →
  inv st' ∧ (less_entry next_act (todos st') (todos st) ∨ killed st' = true) ∧ carried st st'.
Proof.
  intros Hinv (i & h & Hi & Hstep). assert (inv st') as Hinv' by by eapply step_inv.
  split; [done|]. unfold server_step in Hstep. destruct (killed st); [done|].
  eapply handler_step_less; [exact Hi|exact Hstep|by eapply inv_defined].
Qed.

Lemma killed_ends st : killed st = true → ∀ ev, server_step ev st = None.
Proof using Type. unfold server_step. by intros ->. Qed.

Lemma handlers_end st : inv st → Acc next_handled st.
Proof.
  intros Hinv. remember (todos st) as m eqn:Hm. revert st Hm Hinv.
  induction (less_entry_wf _ next_act_wf m) as [m _ IH]. intros st -> Hinv. constructor. intros st' Hnext.
  destruct (next_handled_inv _ _ Hinv Hnext) as (Hinv' & [Hless|Hk] & _); [by eapply IH|].
  constructor. intros st2 (i & h & _ & Hstep). by rewrite killed_ends in Hstep.
Qed.

(** Let the handlers go on: all of them return, unless the process ends. *)
Lemma handlers_return st : inv st →
  ∃ ws st', server_execute (Sv_worker <$> ws) st = Some st' ∧ (killed st' = true ∨ handlers st' = ∅) ∧ inv st' ∧ carried st st'.
Proof.
  intros Hinv. induction (handlers_end st Hinv) as [st _ IH].
  destruct (killed st) eqn:Hk; [by exists [], st; split_and!; auto using carried_refl|].
  destruct (decide (handlers st = ∅)) as [He|Hne]; [by exists [], st; split_and!; auto using carried_refl|].
  destruct (handlers_go st Hinv Hk Hne) as [st1 Hnext]. destruct (next_handled_inv _ _ Hinv Hnext) as (Hinv1 & _ & Hc).
  destruct (IH st1 Hnext Hinv1) as (ws & st' & Hrun & He & Hinv' & Hc'). destruct Hnext as (i & h & _ & Hstep).
  exists (i :: ws), st'. cbn [fmap list_fmap server_execute]. rewrite Hstep. split_and!; [done..|by eapply carried_trans].
Qed.

(** The data that a handler is about to use. *)
Definition handler_access (h : handling) : option access := match h_todo h with Act acc _ _ => Some acc | Done _ => None end.

Lemma handlers_exclude st i j h h' a b :
  inv st → i ≠ j → handlers st !! i = Some h → handlers st !! j = Some h' →
  handler_access h = Some a → handler_access h' = Some b → ¬ conflict a b.
Proof using Type.
  intros Hinv Hne Hi Hj Ha Hb. assert (handlers st ≠ ∅) as Hnone by (intros E; by rewrite E in Hi).
  destruct (handlers_alive st Hinv Hnone) as (sv & tb & g & _ & Hal).
  assert (∀ i h a, handlers st !! i = Some h → handler_access h = Some a → may_use a (S i) (sh_table g)) as Huse.
  { intros k x c Hk Hc. destruct (cr_runs _ _ _ _ _ (al_crew _ _ _ _ _ _ _ _ _ _ Hal) k x Hk) as (g0 & _ & _ & _ & _ & Hp).
    unfold handler_access in Hc. destruct (h_todo x); [done|]. injection Hc as <-. apply Hp. }
  eapply (may_use_exclusive _ _ _ _ (S i) (S j)); [apply (al_world _ _ _ _ _ _ _ _ _ _ Hal)|lia|by eapply Huse|by eapply Huse].
Qed.
End live.
