(* ===== verification/BPTreeTheorems.v ===== *)
(** What is proved of the B+ tree: it is a finite map for whole client
    programs, one insertion keeps every structural invariant, a lookup visits
    logarithmically many nodes, the leaf chain lists the entries in order, and
    what an allocation failure does in the middle of a split. *)
From stdpp Require Import base list gmap sorting.
From Stdlib Require Import ZArith Lia.
From S2P Require Import Prelude Memory BPTree BTree BTreeTheory BPTreeRep BPTreeOps BPTreeProofs Index BPTreeIndex BPTreeInstance TableRep TableLife.

(** ** Clients of an index *)

Inductive index_op := Put (k : Z) (v : ptr) | Get (k : Z).
Inductive index_reply := Stored (b : bool) | Found (v : ptr).

Definition run_index_op (tr : ptr) (o : index_op) : prog Mem index_reply :=
  match o with
  | Put k v => b ← bptree_insert tr k v; mret (Stored b)
  | Get k => v ← bptree_search tr k; mret (Found v)
  end.
Fixpoint run_index_ops (tr : ptr) (os : list index_op) : prog Mem (list index_reply) :=
  match os with
  | [] => mret []
  | o :: os' => r ← run_index_op tr o; rs ← run_index_ops tr os'; mret (r :: rs)
  end.
Definition run_index (os : list index_op) : prog Mem (list index_reply) :=
  tr ← bptree_create;
  rs ← run_index_ops tr os;
  bptree_destroy tr;;
  mret rs.

(** A key keeps the first value it is given. *)
Definition spec_index_op (o : index_op) (mp : gmap Z ptr) : index_reply * gmap Z ptr :=
  match o with
  | Put k v => match mp !! k with Some _ => (Stored false, mp) | None => (Stored true, <[k := v]> mp) end
  | Get k => (Found (default None (mp !! k)), mp)
  end.
Fixpoint spec_index_ops (os : list index_op) (mp : gmap Z ptr) : list index_reply :=
  match os with
  | [] => []
  | o :: os' => let '(r, mp') := spec_index_op o mp in r :: spec_index_ops os' mp'
  end.

(** The map that the operations leave. *)
Definition spec_index_map (os : list index_op) (mp : gmap Z ptr) : gmap Z ptr :=
  foldl (λ mp o, (spec_index_op o mp).2) mp os.

(** The index [tr] holds [mp]; apart from its nodes the memory is [m0]. *)
Definition index_ok (tr : loc) (mp : gmap Z ptr) (m0 m : Mem) : Prop :=
  ∃ F, bptree_at tr mp F m ∧ nodes_bounded m ∧ no_failure m ∧ nodes_only m0 m ∧
    (∀ x, x ∈ F → (m_next m0 ≤ x)%positive) ∧ (∀ x, x ∉ F → m_nodes m !! x = m_nodes m0 !! x) ∧
    (∀ x, x ≠ tr → m_trees m !! x = m_trees m0 !! x) ∧ (m_next m0 ≤ m_next m)%positive.

Lemma nodes_only_trans m1 m2 m3 : nodes_only m1 m2 → nodes_only m2 m3 → nodes_only m1 m3.
Proof. intros (? & ? & ? & ? & ?) (? & ? & ? & ? & ?). unfold nodes_only. split_and!; congruence. Qed.

Lemma index_op_refines tr mp m0 m o :
  index_ok tr mp m0 m →
  wp (run_index_op (Some tr) o)
    (λ r m', r = (spec_index_op o mp).1 ∧ index_ok tr (spec_index_op o mp).2 m0 m') m.
Proof.
  intros (F & Hat & Hb & Hm & Honly & HF & Hfr & Htr & Hle). destruct o as [k v|k]; apply wp_bind.
  - eapply wp_mono; [|by eapply bptree_at_insert]. intros b m'. simpl. destruct (mp !! k) as [v'|] eqn:Hk.
    + intros [-> ->]. apply wp_ret. split; [done|]. by exists F.
    + intros (-> & Honly' & Hb' & Hle' & Htr' & F' & Hat' & Hsub & Hnew & Hfr'). apply wp_ret. split; [done|].
      exists F'. pose proof (nodes_only_trans _ _ _ Honly Honly') as Honly2. split_and!; try done; try apply Honly2.
      * unfold no_failure in *. by destruct Honly' as (_ & _ & _ & -> & _).
      * intros x [?|?]%Hnew; [by apply HF|lia].
      * intros x Hx. rewrite Hfr' by done. apply Hfr. by intros ?%Hsub.
      * intros x Hx. rewrite Htr' by done. by apply Htr.
      * lia.
  - eapply wp_mono; [|by eapply bptree_at_search]. intros v m' [-> ->]. apply wp_ret. split; [done|]. by exists F.
Qed.

Lemma index_ops_refine tr m0 os : ∀ mp m,
  index_ok tr mp m0 m →
  wp (run_index_ops (Some tr) os) (λ rs m', rs = spec_index_ops os mp ∧ index_ok tr (spec_index_map os mp) m0 m') m.
Proof.
  induction os as [|o os IH]; intros mp m Hok; simpl; [by apply wp_ret|].
  wp_call (by apply index_op_refines). intros r m' [-> Hok'].
  wp_call (by apply IH). intros rs m2 [-> H2]. apply wp_ret.
  by destruct (spec_index_op o mp).
Qed.

Lemma index_create_ok m : mem_bounded m → no_failure m →
  wp bptree_create (λ p m', ∃ tr, p = Some tr ∧ m_trees m !! tr = None ∧ index_ok tr ∅ m m') m.
Proof.
  intros Hbounded Hmemory. eapply wp_mono; [|apply bptree_at_create]. intros p m1.
  assert (next_call m = true ∧ env_tail m = m) as [-> Henv].
  { unfold no_failure, next_call, env_tail in *. rewrite Hmemory. split; [done|]. destruct m; simpl in *. by subst. }
  rewrite Henv. intros (-> & -> & Hat). exists (m_next m). split; [done|].
  pose proof (Hbounded (m_next m) ltac:(lia)) as Hcell. unfold cell, no_cell in Hcell. split; [congruence|].
  exists []. split_and!; try done.
  - intros x Hx. apply (mem_bounded_nodes m Hbounded) in Hx. simpl. lia.
  - intros x Hx. set_solver.
  - intros x Hx. simpl. by rewrite lookup_insert_ne.
  - simpl. lia.
Qed.

(** C13: the B+ tree is a finite map: any sequence of insertions and lookups on
    a fresh tree gives the replies of a map from keys to the first value stored
    under them, within the bounds of the loops, and destroying the tree leaves
    every heap as it was. *)
Theorem bptree_is_a_map (os : list index_op) (m : Mem)
    (Hbounded : mem_bounded m) (Hmemory : no_failure m) :
  wp (run_index os) (λ rs m', rs = spec_index_ops os ∅ ∧ same_heaps m m') m.
Proof.
  wp_call (by apply index_create_ok). intros p m1 (tr & -> & Htr0 & Hok).
  wp_call (by apply index_ops_refine).
  intros rs m2 (-> & F & Hat2 & Hb2 & Hm2 & (H1 & H2 & H3 & H4 & H5) & HF & Hfr & Htr & Hle).
  wp_call (by eapply bptree_at_destroy). intros u m3 ->. apply wp_ret. split; [done|].
  unfold same_heaps. simpl. split_and!; try done.
  - apply map_eq. intros x. rewrite lookup_drop_heap. case_decide as Hx; [|by rewrite Hfr].
    apply HF in Hx. apply Hbounded in Hx. unfold cell, no_cell in Hx. congruence.
  - apply map_eq. intros x. destruct (decide (x = tr)) as [->|Hx].
    + rewrite lookup_delete_eq. congruence.
    + rewrite lookup_delete_ne by done. by apply Htr.
Qed.

Lemma bptree_is_a_map_witness :
  let os := [Put 5 (Some 7); Put 1 (Some 8); Put 5 None; Get 5; Get 2]%positive in
  spec_index_ops os ∅ = [Stored true; Stored true; Stored false; Found (Some 7); Found None]%positive ∧
  wp (run_index os) (λ rs m', rs = spec_index_ops os ∅ ∧ same_heaps (mem_init []) m') (mem_init []).
Proof. split; [reflexivity|]. apply (bptree_is_a_map _ (mem_init [])); [intros x _; reflexivity|reflexivity]. Defined.

(** A tree of one leaf, to instantiate the theorems below. *)
Definition leaf_mem : Mem :=
  set_next 3%positive
    (set_trees {[ 1%positive := MkBPTree (Some 2%positive) ]}
      (set_nodes {[ 2%positive := MkNode true 2 [5; 9; 0]%Z [Some 7%positive; Some 8%positive; None]
                                    (replicate BPTREE_ORDER None) None None ]} (mem_init []))).
Definition leaf_tree : tree := Leaf 2%positive [(5%Z, Some 7%positive); (9%Z, Some 8%positive)].

Lemma leaf_tree_at : tree_at 1%positive (Some leaf_tree) leaf_mem.
Proof.
  split; [reflexivity|]. split_and!.
  - eexists. split; [reflexivity|]. unfold leaf_node, node_wf. split_and!; reflexivity.
  - apply NoDup_singleton.
  - unfold sorted_tree, ranks_sorted. simpl. repeat constructor; lia.
  - exists 0. simpl. unfold BPTREE_MAX_KEYS, BPTREE_ORDER. lia.
Qed.

Lemma leaf_mem_bounded : nodes_bounded leaf_mem.
Proof.
  intros l [n Hn]. unfold leaf_mem in *. simpl in *. apply lookup_singleton_Some in Hn as [<- _]. lia.
Qed.

(** C29: one insertion keeps every structural invariant of the B+ tree: the
    nodes still represent a balanced search tree with one to three keys per
    node, correct parent pointers and an intact leaf chain; its entries gain
    exactly the new pair, a present key is refused with the memory unchanged,
    and no memory outside the tree is touched. *)
Theorem insert_keeps_tree (tr : loc) (ot : option tree) (k : Z) (v : ptr) (m : Mem)
    (Htree : tree_at tr ot m) (Hbounded : nodes_bounded m) (Hmemory : no_failure m) :
  wp (bptree_insert (Some tr) k v) (λ b m',
    ∃ ot', tree_at tr ot' m' ∧ nodes_bounded m' ∧ nodes_only m m' ∧
      b = bool_decide (opt_map ot !! k = None) ∧
      opt_map ot' = (if b then <[k := v]> (opt_map ot) else opt_map ot) ∧ (b = false → m' = m) ∧
      (∀ x, x ∉ opt_locs ot' → m_nodes m' !! x = m_nodes m !! x) ∧
      (∀ x, x ∈ opt_locs ot' → x ∈ opt_locs ot ∨ (m_next m ≤ x)%positive)) m.
Proof.
  eapply wp_mono; [|by apply insert_refines]. intros b m'.
  destruct (opt_insert k v ot (m_next m)) as [[t' fresh']|] eqn:Hins.
  - intros [-> H]. destruct (inserted_tree _ _ _ _ _ _ _ _ Htree Hbounded Hins H) as (Hk & Hat & Hmap & Hb & _ & Hlocs).
    destruct H as (_ & _ & _ & Honly & Hfr). exists (Some t').
    split_and!; try done; by rewrite bool_decide_eq_true_2.
  - intros [-> ->]. destruct (opt_insert_present _ _ _ _ _ Htree Hins) as [w Hw]. exists ot.
    split_and!; try done; [by rewrite bool_decide_eq_false_2 by congruence|]. auto.
Qed.

Lemma insert_keeps_tree_witness :
  tree_at 1%positive (Some leaf_tree) leaf_mem ∧
  wp (bptree_insert (Some 1%positive) 6 None) (λ b _, b = true) leaf_mem.
Proof.
  split; [exact leaf_tree_at|].
  refine (wp_mono _ _ _ _ _ (insert_keeps_tree _ _ 6 None _ leaf_tree_at leaf_mem_bounded eq_refl)).
  intros b m' (ot' & _ & _ & _ & -> & _). reflexivity.
Defined.

(** C30: a lookup descends at most [log2 n] levels in a tree of [n] entries:
    the walk from the root to the leaf of a key, run with that many turns and
    one, already finds the leaf that [bptree_find_leaf] returns. *)
Theorem find_leaf_logarithmic (tr : loc) (t : tree) (key : Z) (m : Mem) (Htree : tree_at tr (Some t) m) :
  wp (while_loop (S (Nat.log2 (size (tree_map t)))) (find_leaf_step key) (Some (root_loc t)))
    (λ leaf m', m' = m ∧ bptree_find_leaf (Some tr) key m = Ok (leaf, m)) m.
Proof.
  destruct Htree as [Ht (Hrep & Hnd & Hs & h & Hb)].
  assert (h < S (Nat.log2 (size (tree_map t)))) as Hh.
  { pose proof (Nat.log2_le_mono _ _ (height_log h t Hb Hs)) as H. rewrite Nat.log2_pow2 in H; lia. }
  eapply wp_mono; [|apply (walk_down key t m _ h t []); [done|done|done|done|exact Hh]].
  intros p m' [-> ->]. split; [done|].
  pose proof (find_leaf_refines tr key t h m Ht Hrep Hnd Hb) as (p & m' & Hp & -> & ->)%wp_ok. done.
Qed.

Lemma find_leaf_logarithmic_witness :
  tree_at 1%positive (Some leaf_tree) leaf_mem ∧
  bptree_find_leaf (Some 1%positive) 9 leaf_mem = Ok (Some 2%positive, leaf_mem).
Proof.
  split; [exact leaf_tree_at|].
  pose proof (find_leaf_logarithmic _ _ 9 _ leaf_tree_at) as (p & m' & Hp & _ & Hq)%wp_ok.
  rewrite Hq. vm_compute in Hq. injection Hq as <-. reflexivity.
Defined.

(** ** The leaf chain *)

(** The leaf that the first children of the nodes lead to. *)
Fixpoint leftmost (N : gmap loc BPTreeNode) (fuel : nat) (p : ptr) : ptr :=
  match p with
  | None => None
  | Some l =>
      match fuel, N !! l with
      | S fuel', Some n => if is_leaf n then Some l else leftmost N fuel' (mjoin (children n !! 0))
      | _, _ => None
      end
  end.

(** The entries met by following [next] from a leaf to the end. *)
Fixpoint chain (N : gmap loc BPTreeNode) (fuel : nat) (p : ptr) : option (list (Z * ptr)) :=
  match p with
  | None => Some []
  | Some l =>
      match fuel, N !! l with
      | S fuel', Some n =>
          if is_leaf n then
            rest ← chain N fuel' (next n);
            Some (zip (take (num_keys n) (keys n)) (take (num_keys n) (values n)) ++ rest)
          else None
      | _, _ => None
      end
  end.

Fixpoint leaves (t : tree) : nat :=
  match t with Leaf _ _ => 1 | Node _ _ ts => sum_list (map leaves ts) end.

Lemma chain_more N rest : ∀ fuel k p, chain N fuel p = Some rest → chain N (k + fuel) p = Some rest.
Proof.
  intros fuel. revert rest. induction fuel as [|fuel IH]; intros rest k p H.
  { destruct p; [done|]. by destruct (k + 0). }
  destruct p as [l|]; [|by destruct (k + S fuel)].
  rewrite Nat.add_succ_r. cbn [chain] in *. destruct (N !! l) as [n|]; [|done]. destruct (is_leaf n); [|done].
  destruct (chain N fuel (next n)) as [r|] eqn:E; [|done]. by rewrite (IH _ k _ E).
Qed.

Lemma chain_tree N t : ∀ h par nx fuel rest,
  bal h t → rep N par nx t → chain N fuel nx = Some rest →
  chain N (leaves t + fuel) (Some (first_leaf t)) = Some (entries (flat t) ++ rest).
Proof.
  induction t as [l kvs|l ks ts IH] using tree_ind'; intros h par nx fuel rest Hb Hrep Hc.
  - destruct Hrep as (n & Hn & Hl & _ & Hnk & Hks & Hvs & _ & Hnx). cbn [leaves first_leaf Nat.add chain].
    rewrite Hn, Hl, Hnx, Hc. simpl. rewrite Hks, Hvs, zip_fst_snd. by rewrite entries_entry.
  - destruct h as [|h]; [done|]. destruct Hb as (_ & Hlen & Hall). apply rep_node in Hrep as [_ Hts].
    assert (∀ ks', ts ≠ [] → chain N (sum_list (map leaves ts) + fuel) (next_of ts nx) =
      Some (entries (inter ks' (map flat ts)) ++ rest)) as H.
    { clear Hlen. induction IH as [|t ts Ht IH IH']; intros ks' Hne; [done|]. destruct Hts as [Hrep Hts].
      apply Forall_cons in Hall as [Hbt Hall]. cbn [map sum_list inter next_of].
      rewrite entries_app, <- (assoc_L (++)). rewrite <- Nat.add_assoc.
      assert (∀ ks'', chain N (sum_list (map leaves ts) + fuel) (next_of ts nx) =
        Some (entries (inter ks'' (map flat ts)) ++ rest)) as Hrest.
      { intros ks''. destruct ts as [|t' ts]; [by apply chain_more with (k := 0)|]. by apply IH'. }
      destruct ks' as [|k ks'].
      - eapply Ht; [exact Hbt|exact Hrep|]. apply Hrest.
      - change (entries (Sep k :: inter ks' (map flat ts))) with (entries (inter ks' (map flat ts))).
        eapply Ht; [exact Hbt|exact Hrep|]. apply Hrest. }
    destruct ts as [|t ts]; [done|]. by apply (H ks).
Qed.

Lemma leftmost_tree N h : ∀ t par nx fuel, bal h t → rep N par nx t → h < fuel →
  leftmost N fuel (Some (root_loc t)) = Some (first_leaf t).
Proof.
  induction h as [|h IH]; intros [l kvs|l ks ts] par nx [|fuel] Hb Hrep Hfuel; try done; try lia; cbn [leftmost root_loc].
  - destruct Hrep as (n & -> & -> & _). done.
  - destruct Hb as (_ & Hlen & Hall). apply rep_node in Hrep as [(n & -> & -> & _ & _ & _ & Hcs & _) Hts].
    destruct ts as [|t ts]; [done|]. apply Forall_cons in Hall as [Hbt _]. destruct Hts as [Ht _].
    assert (children n !! 0 = Some (Some (root_loc t))) as ->.
    { by destruct (children n); [|injection Hcs as -> _]. }
    exact (IH t _ _ fuel Hbt Ht ltac:(lia)).
Qed.

Lemma leaves_locs t : leaves t ≤ length (locs t).
Proof.
  induction t as [l kvs|l ks ts IH] using tree_ind'; simpl; [done|].
  induction IH as [|t ts Ht IH IH']; simpl; [lia|]. rewrite length_app. lia.
Qed.

Lemma entries_sorted its : ranks_sorted its → StronglySorted Z.lt (entries its).*1.
Proof.
  unfold ranks_sorted. induction its as [|i its IH]; [constructor|].
  rewrite fmap_cons. intros H. inversion H as [|? ? Hs Hall]; subst. destruct i as [k|k v]; [by apply IH|].
  constructor; [by apply IH|]. rewrite Forall_forall in *. intros k' ([k2 v'] & -> & Hin)%list_elem_of_fmap.
  apply elem_of_entries in Hin. specialize (Hall (rank (Entry k2 v'))). simpl in Hall.
  assert (2 * k + 1 < 2 * k2 + 1)%Z; [|simpl; lia]. apply Hall. apply list_elem_of_fmap. by exists (Entry k2 v').
Qed.

(** What a walk over the leaves of the tree [p] meets. *)
Definition listed (p : ptr) (m : Mem) : option (list (Z * ptr)) :=
  t ← (tr ← p; m_trees m !! tr);
  chain (m_nodes m) (walk_bound m) (leftmost (m_nodes m) (walk_bound m) (root t)).

Lemma tree_listed tr ot m : tree_at tr ot m →
  ∃ kvs, listed (Some tr) m = Some kvs ∧ StronglySorted Z.lt kvs.*1 ∧ list_to_map kvs = opt_map ot.
Proof.
  intros [Ht Hot]. unfold listed. cbn [mbind option_bind]. rewrite Ht. cbn [mbind option_bind root]. destruct ot as [t|].
  2: { exists []. by repeat constructor. }
  destruct Hot as (Hrep & Hnd & Hs & h & Hb). exists (entries (flat t)). split_and!; [|by apply entries_sorted|done].
  pose proof (bal_height h t Hb). pose proof (leaves_locs t). pose proof (locs_size _ _ _ _ Hrep Hnd). unfold walk_bound.
  cbn [fmap option_fmap option_map]. rewrite (leftmost_tree _ h t None None) by (done || lia).
  pose proof (chain_tree _ _ _ _ _ 0 [] Hb Hrep eq_refl) as Hc. rewrite app_nil_r in Hc.
  apply (chain_more _ _ _ (S (size (m_nodes m)) - (leaves t + 0))) in Hc.
  by replace (S (size (m_nodes m)) - (leaves t + 0) + (leaves t + 0)) with (S (size (m_nodes m))) in Hc by lia.
Qed.

(** C31: after any sequence of insertions and lookups on a fresh tree, with all
    its splits, a walk from the root down the first children to a leaf and from
    there along [next] meets every entry of the map that the insertions make,
    each once and in increasing order of their keys. *)
Theorem leaf_chain_sorted (os : list index_op) (m : Mem) (Hbounded : mem_bounded m) (Hmemory : no_failure m) :
  wp (tr ← bptree_create; run_index_ops tr os;; mret tr) (λ tr m', ∃ kvs, listed tr m' = Some kvs ∧
    StronglySorted Z.lt kvs.*1 ∧ list_to_map kvs = spec_index_map os ∅) m.
Proof.
  wp_call (by apply index_create_ok). intros p m1 (tr & -> & _ & Hok).
  wp_call (by apply index_ops_refine). intros rs m2 (_ & F & (ot & Hat & Hmap & _) & _). apply wp_ret.
  rewrite <- Hmap. by apply tree_listed.
Qed.

(** Twelve keys, which take a tree of three levels. *)
Definition sample_puts : list index_op := (λ k, Put k (Some (Z.to_pos k))) <$> [8; 3; 9; 1; 5; 7; 2; 6; 4; 12; 10; 11]%Z.

Lemma leaf_chain_sorted_witness :
  ∃ tr m kvs, (tr ← bptree_create; run_index_ops tr sample_puts;; mret tr) (mem_init []) = Ok (tr, m) ∧
    listed tr m = Some kvs ∧ kvs.*1 = [1; 2; 3; 4; 5; 6; 7; 8; 9; 10; 11; 12]%Z ∧
    StronglySorted Z.lt kvs.*1 ∧ list_to_map kvs = spec_index_map sample_puts ∅.
Proof.
  destruct (proj1 (wp_ok _ _ _) (leaf_chain_sorted sample_puts (mem_init []) ltac:(intros x _; reflexivity) eq_refl))
    as (tr & m & Hrun & kvs & Hl & Hs & Hm).
  exists tr, m, kvs. split; [exact Hrun|]. split; [exact Hl|]. split; [|split; [exact Hs|exact Hm]].
  vm_compute in Hrun. injection Hrun as <- <-. vm_compute in Hl. injection Hl as <-. reflexivity.
Defined.

(** ** Running out of memory in a split *)

(** Fills a leaf with the keys 1, 2, 3, inserts 4 with the allocation of the
    new root failing, looks 3 up, and destroys the tree. *)
Definition split_without_root : prog Mem (list bool * bool * ptr) :=
  tr ← bptree_create;
  b1 ← bptree_insert tr 1 (Some 11%positive);
  b2 ← bptree_insert tr 2 (Some 12%positive);
  b3 ← bptree_insert tr 3 (Some 13%positive);
  modify (set_env [true; false]);;
  b4 ← bptree_insert tr 4 (Some 14%positive);
  v ← bptree_search tr 3;
  bptree_destroy tr;;
  mret ([b1; b2; b3], b4, v).

(** When the allocation of the new root fails after a leaf was split,
    [bptree_insert] reports failure but the split is not undone: an entry that
    was stored before is lost, and its leaf is never freed. *)
Theorem split_failure_loses_entry :
  ∃ m', split_without_root (mem_init []) = Ok (([true; true; true], false, None), m') ∧
    size (m_nodes m') = 1.
Proof. eexists. split; [vm_compute; reflexivity|reflexivity]. Qed.
