(* ===== verification/TableTheorems.v ===== *)
(** What is proved of the users table, over the B+ tree of BPTree.v: a client
    cannot tell it from a list of records, and every failure of a library call
    the code anticipates leaves it as it was. *)
From stdpp Require Import base list gmap sorting strings.
From Stdlib Require Import Ascii ZArith Lia.
From S2P Require Import Prelude Memory CLib BPTree Index BPTreeInstance Table TableMem TableRep TableCollect TableQueries TableUpdate TableLife TableSpec.

(** ** A table to instantiate the theorems *)

Lemma set_env_inv `{KI : KeyIndex} tb st t fps m0 m e :
  table_inv tb st t fps m0 m → table_inv tb st t fps m0 (set_env e m).
Proof.
  intros [? ? ? ? ? ? ? ? ? Hbs ? ? ? ? ? ? ?]. split; try done.
  intros i b rws fp Hb Hr Hf. destruct (Hbs i b rws fp Hb Hr Hf) as [Hk Hat].
  split; [done|]. by eapply bucket_at_frame.
Qed.

Lemma holds_insert `{KI : KeyIndex} tb db m0 m name age :
  holds tb db m0 m → (Z.of_nat (length db) + 1 < INT_MAX)%Z →
  ∃ m', holds tb (db ++ [MkRecord (Z.of_nat (length db) + 1) (take (RECORD_NAME_SIZE - 1) name) age]) m0 m'.
Proof.
  intros Hh Hlt. pose proof (insert_op tb db m0 m name age Hh Hlt) as H.
  apply wp_ok in H as (r & m' & _ & _ & Hh'). by exists m'.
Qed.

Definition sample_rows : list record := [MkRecord 1 (lit "Ann") 31; MkRecord 2 (lit "Bob") 20].

Lemma create_holds `{KI : KeyIndex} m : mem_bounded m → no_failure m → ∃ tb m1, holds tb [] m m1.
Proof.
  intros Hb Hm. assert (wp table_create (λ p m1, ∃ tb, p = Some tb ∧ holds tb [] m m1) m) as Hc.
  { apply create_refines; [done| |].
    - intros m' (_ & Hm' & _). by destruct Hm'.
    - intros tb m1 Hat _ Henv _. exists tb. split; [done|]. exists empty_state.
      split_and!; [done|done|done|by eapply suffix_no_failure]. }
  apply wp_ok in Hc as (p & m1 & _ & tb & _ & Hh). eauto.
Qed.

Lemma sample_table : ∃ tb m, holds tb sample_rows (mem_init []) m.
Proof.
  destruct (create_holds (mem_init [])) as (tb & m1 & Hh); [by intros x _|done|]. exists tb.
  destruct (holds_insert _ _ _ _ (lit "Ann") 31 Hh) as [m2 Hh2]; [done|].
  by destruct (holds_insert _ _ _ _ (lit "Bob") 20 Hh2) as [m3 Hh3]; [|exists m3].
Qed.

(** The same with library calls to fail as [e] says. *)
Lemma sample_failing e :
  ∃ tb st m, table_at tb st (mem_init []) m ∧ m_env m = e ∧ st_next st = 3%Z ∧ db_of st = sample_rows.
Proof.
  destruct sample_table as (tb & m & st & (t & fps & Hinv) & Hdb & Hn & _). exists tb, st, (set_env e m).
  split_and!; [|done|by rewrite Hn|done]. exists t, fps. by apply set_env_inv.
Qed.

(** ** Theorems *)

(** C8: the life of a table: any sequence of calls of table.h on a fresh table
    gives the replies of an append-only list of records with ids 1, 2, 3, ...,
    through any splits of the sixteen indexes and growth of the arrays, and
    destroying the table leaves every heap as it was before its creation. *)
Theorem table_is_a_list (os : list op) (m : Mem)
    (Hbounded : mem_bounded m) (Hmemory : no_failure m) (Hids : (Z.of_nat (length os) + 1 ≤ INT_MAX)%Z) :
  wp (run_client os) (λ rs m', rs = spec_ops os [] ∧ same_heaps m m') m.
Proof. by apply client_refines. Qed.

Lemma table_is_a_list_witness :
  let os := [Insert (lit "Ann") 31; Insert (lit "Bob") 20; FindId 2; ByAge TABLE_COMPARISON_GT 25; CollectAll] in
  spec_ops os [] = [OneRow (Some (MkRecord 1 (lit "Ann") 31)); OneRow (Some (MkRecord 2 (lit "Bob") 20));
    OneRow (Some (MkRecord 2 (lit "Bob") 20)); Rows [MkRecord 1 (lit "Ann") 31]; Rows sample_rows] ∧
  wp (run_client os) (λ rs m', rs = spec_ops os [] ∧ same_heaps (mem_init []) m') (mem_init []).
Proof.
  split; [vm_compute; reflexivity|].
  apply (table_is_a_list _ (mem_init [])); [intros x _; reflexivity|reflexivity|vm_compute; discriminate].
Defined.

(** C32: an insertion in which any of the first three library calls fails (the
    id lock, the bucket lock, the growth of the row array or the allocation of
    the record) returns null with the rows untouched, at most one id being
    spent; otherwise the new row has the next id and the name cut to 63 bytes. *)
Theorem insert_all_or_nothing (tb : loc) (st : table_state) (m0 m : Mem) (name : cstr) (age : Z)
    (Htable : table_at tb st m0 m) (Hids : (st_next st < INT_MAX)%Z) (Hcalls : length (m_env m) ≤ 3) :
  wp (table_insert (Some tb) (Some name) age) (λ p m',
    match p with
    | Some l => table_at tb (add_row (l, MkRecord (st_next st) (take 63 name) age) (bump_id st)) m0 m'
    | None => ¬ no_failure m ∧ (table_at tb st m0 m' ∨ table_at tb (bump_id st) m0 m')
    end) m.
Proof.
  destruct Htable as (t & fps & Hinv). eapply insert_refines_table; [exact Hinv|done|done| |].
  - intros st' m' Hm [-> | ->] Hat _ _; auto.
  - intros l m' _ Hat _ _. exact Hat.
Qed.

Lemma insert_all_or_nothing_witness :
  ∃ tb st m, table_at tb st (mem_init []) m ∧ m_env m = [true; false] ∧
    wp (table_insert (Some tb) (Some (lit "Cid")) 5) (λ p m',
      match p with
      | Some l => table_at tb (add_row (l, MkRecord (st_next st) (lit "Cid") 5) (bump_id st)) (mem_init []) m'
      | None => ¬ no_failure m ∧ (table_at tb st (mem_init []) m' ∨ table_at tb (bump_id st) (mem_init []) m')
      end) m.
Proof.
  destruct (sample_failing [true; false]) as (tb & st & m & Hat & He & Hn & _). exists tb, st, m.
  split; [exact Hat|]. split; [exact He|].
  apply (insert_all_or_nothing tb st _ m (lit "Cid") 5 Hat); [rewrite Hn; reflexivity|rewrite He; simpl; lia].
Defined.

(** C33: creating a table either gives the empty table, apart from which memory
    is unchanged, or null after some library call failed, and then nothing is
    leaked: every heap is as before. *)
Theorem create_never_leaks (m : Mem) (Hbounded : mem_bounded m) :
  wp table_create (λ p m',
    match p with
    | Some tb => table_at tb empty_state m m'
    | None => ¬ no_failure m ∧ same_heaps m m'
    end) m.
Proof.
  apply create_refines; [done| |].
  - by intros m' (? & ? & _).
  - by intros tb m' Hat _ _ _.
Qed.

Lemma create_never_leaks_witness :
  let m := mem_init [true; true; true; true; true; true; false] in
  mem_bounded m ∧ ∃ m', table_create m = Ok (None, m') ∧ same_heaps m m'.
Proof.
  split; [intros x _; reflexivity|].
  destruct (proj1 (wp_ok table_create _ _) (create_never_leaks
    (mem_init [true; true; true; true; true; true; false]) (λ x _, eq_refl))) as (p & m' & Hrun & H).
  destruct p as [tb|].
  - exfalso. vm_compute in Hrun. discriminate.
  - exists m'. split; [exact Hrun|apply H].
Defined.

(** Destroying a table in any state gives back everything it owns and
    nothing else: the five heaps are those of the memory around it. *)
Theorem destroy_frees_everything (tb : loc) (st : table_state) (m0 m : Mem) (Htable : table_at tb st m0 m) :
  wp (table_destroy (Some tb)) (λ _ m', same_heaps m0 m' ∧ m_env m' = m_env m ∧ m_out m' = m_out m) m.
Proof. by apply (destroy_refines_table tb st). Qed.

Lemma destroy_frees_everything_witness :
  ∃ tb st m, table_at tb st (mem_init []) m ∧ db_of st = sample_rows ∧
    wp (table_destroy (Some tb)) (λ _ m', same_heaps (mem_init []) m') m.
Proof.
  destruct (sample_failing []) as (tb & st & m & Hat & _ & _ & Hdb). exists tb, st, m.
  split; [exact Hat|]. split; [exact Hdb|].
  refine (wp_mono _ _ _ _ _ (destroy_frees_everything tb st _ m Hat)). intros u m' [H _]. exact H.
Defined.

(** C34: [table_collect_all] collects every row in the order of the ids, and
    the searches by name and by age the rows that match, in that order; when a
    lock or an allocation fails they report it and leave no array behind. *)
Theorem searches_collect (tb : loc) (st : table_state) (m0 m : Mem) (name : cstr) (c : TableComparison)
    (age : Z) (Htable : table_at tb st m0 m) :
  wp (table_collect_all (Some tb) no_results) (collects (sorted_rows st) m) m ∧
  wp (table_find_by_name_matches (Some tb) (Some name) no_results)
    (collects (select (λ r, bool_decide (rec_name r = name)) st) m) m ∧
  wp (table_find_by_age_condition (Some tb) c age no_results)
    (collects (select (λ r, table_compare_int (rec_age r) c age) st) m) m ∧
  sorted_rows st ≡ₚ all_rows st ∧ StronglySorted Z.lt (row_id <$> sorted_rows st).
Proof.
  destruct Htable as (t & fps & Hinv). split_and!.
  - by eapply collect_all_collects.
  - by eapply name_matches_collects.
  - by eapply age_condition_collects.
  - apply sort_rows_perm.
  - by eapply sorted_ids.
Qed.

Lemma searches_collect_witness :
  ∃ tb st m, table_at tb st (mem_init []) m ∧ m_env m = [true; false] ∧
    wp (table_find_by_age_condition (Some tb) TABLE_COMPARISON_LT 30 no_results)
      (collects (select (λ r, table_compare_int (rec_age r) TABLE_COMPARISON_LT 30) st) m) m.
Proof.
  destruct (sample_failing [true; false]) as (tb & st & m & Hat & He & _ & _). exists tb, st, m.
  split; [exact Hat|]. split; [exact He|].
  apply (searches_collect tb st _ m [] TABLE_COMPARISON_LT 30 Hat).
Defined.

(** The lookup of an id through the B+ tree of its bucket and the scan of
    all buckets find the same row: the one with that id if there is one.
    Both leave memory as it was, and miss a row only if a lock failed. *)
Theorem find_and_scan_agree (tb : loc) (st : table_state) (m0 m : Mem) (id : Z) (Htable : table_at tb st m0 m) :
  wp (table_find_by_id (Some tb) id) (answers (find_id id st) m) m ∧
  wp (table_scan_by_id (Some tb) id) (answers (find_id id st) m) m ∧
  ∀ l, find_id id st = Some l ↔ ∃ r, (l, r) ∈ all_rows st ∧ rec_id r = id.
Proof.
  destruct Htable as (t & fps & Hinv). split_and!.
  - by eapply find_by_id_refines.
  - by eapply scan_by_id_refines.
  - intros l. unfold find_id, table_map. rewrite fmap_Some.
    pose proof (ti_ids _ _ _ _ _ _ Hinv) as Hnd. split.
    + intros ([l' r] & Hr%rows_map_lookup & ->); [|done]. destruct Hr. by exists r.
    + intros (r & Hr & Hid). exists (l, r). split; [|done]. by apply rows_map_lookup.
Qed.

Lemma find_and_scan_agree_witness :
  ∃ tb st m, table_at tb st (mem_init []) m ∧ db_of st = sample_rows ∧
    wp (table_scan_by_id (Some tb) 2) (answers (find_id 2 st) m) m.
Proof.
  destruct (sample_failing []) as (tb & st & m & Hat & _ & _ & Hdb). exists tb, st, m.
  split; [exact Hat|]. split; [exact Hdb|]. apply (find_and_scan_agree tb st _ m 2 Hat).
Defined.

(** When the lock of a bucket cannot be taken, a search by id reports
    success with no rows for [=], but failure for every other comparison. *)
Theorem id_search_hides_lock_failure (tb : loc) (st : table_state) (m0 m : Mem) (c : TableComparison) (id : Z)
    (Htable : table_at tb st m0 m) (Hlock : next_call m = false) :
  wp (table_find_by_id_condition (Some tb) c id no_results)
    (λ r _, r = (bool_decide (c = TABLE_COMPARISON_EQ), no_results)) m.
Proof.
  destruct Htable as (t & fps & Hinv).
  assert (∀ i, i < TABLE_BUCKET_COUNT →
    wp (pthread_rwlock_rdlock (Some tb) i) (λ b m', b = false ∧ m' = env_tail m) m) as Hrd.
  { intros i Hi. destruct (ti_bucket _ _ _ _ _ _ _ Hinv Hi) as (b & rws & fp & _ & _ & _ & Hb & Hk & _).
    eapply wp_rdlock; [exact Hb|exact Hk|]. by rewrite Hlock. }
  unfold table_find_by_id_condition. case_decide as Hc.
  - subst c. apply wp_bind, wp_bind. eapply wp_mono; [|apply Hrd, bucket_index_lt].
    intros b m' [-> ->]. by apply wp_ret, wp_ret.
  - rewrite bool_decide_eq_false_2 by done. apply wp_bind. unfold table_collect_all_sorted, for_until.
    change (TABLE_BUCKET_COUNT - 0) with 16. cbn [count_until]. apply wp_bind, wp_bind, wp_bind.
    eapply wp_mono; [|apply Hrd; unfold TABLE_BUCKET_COUNT; lia]. intros b m' [-> ->]. cbn [negb].
    unfold table_free_record_array. by apply wp_bind, wp_bind.
Qed.

Lemma id_search_hides_lock_failure_witness :
  ∃ tb st m, table_at tb st (mem_init []) m ∧ db_of st = sample_rows ∧ m_env m = [false] ∧
    wp (table_find_by_id_condition (Some tb) TABLE_COMPARISON_EQ 2 no_results) (λ r _, r = (true, no_results)) m.
Proof.
  destruct (sample_failing [false]) as (tb & st & m & Hat & He & _ & Hdb). exists tb, st, m.
  split; [exact Hat|]. split; [exact Hdb|]. split; [exact He|].
  apply (id_search_hides_lock_failure tb st _ m TABLE_COMPARISON_EQ 2 Hat). unfold next_call. by rewrite He.
Defined.

(** The bucket of an id is its residue modulo 16, also for the negative
    ids a client can ask for, although the remainder of C truncates. *)
Theorem bucket_index_residue (id : Z) :
  Z.of_nat (table_bucket_index_for_id id) = (id mod 16)%Z ∧ table_bucket_index_for_id id < TABLE_BUCKET_COUNT.
Proof.
  split; [|apply bucket_index_lt]. unfold table_bucket_index_for_id, c_rem.
  change (Z.of_nat TABLE_BUCKET_COUNT) with 16%Z.
  pose proof (Z.rem_bound_abs id 16 ltac:(lia)). pose proof (Z.quot_rem' id 16) as Hq.
  rewrite Z2Nat.id by (case_decide; lia). case_decide.
  - apply Z.mod_unique with (q := (id ÷ 16 - 1)%Z); lia.
  - apply Z.mod_unique with (q := (id ÷ 16)%Z); lia.
Qed.
