(* ===== verification/TableActsTheorems.v ===== *)
(** What is proved of threads that use a table at the same time, in any order of
    their steps: what their calls reply, what the table holds when they are
    done, that they end, and that the locks keep them apart. *)
From stdpp Require Import base list list_numbers gmap sorting strings.
From Stdlib Require Import Ascii ZArith Lia.
From S2P Require Import Prelude Memory CLib BPTree Index BPTreeInstance Table TableMem TableRep TableCollect TableQueries TableUpdate TableLife TableSpec Actions TableActs TableActsAlone TableActsInv TableActsSteps TableActsInsert TableActsArrays TableActsLookups TableActsCollect TableActsSpec TableActsRuns TableActsEnds.

(** ** Threads to instantiate the theorems *)

Definition sample_threads : list (list request) := [[Q_insert (lit "Ann") 31; Q_insert (lit "Bob") 20]; [Q_all]].

(** The second thread scans the buckets 0 and 1, then the first thread makes its
    two calls, then the scan goes on. *)
Definition overtaken : list nat := replicate 7 1 ++ replicate 22 0 ++ replicate 46 1.

Definition Ann := MkRecord 1 (lit "Ann") 31.
Definition Bob := MkRecord 2 (lit "Bob") 20.

Lemma create_fresh m0 : mem_bounded m0 → no_failure m0 →
  ∃ tb m, table_create m0 = Ok (Some tb, m) ∧ table_at tb empty_state m0 m ∧ no_failure m.
Proof.
  intros Hb Hm0.
  assert (wp table_create (λ p m, ∃ tb, p = Some tb ∧ table_at tb empty_state m0 m ∧ no_failure m) m0) as H.
  { apply create_refines; [done| |].
    - intros m' (_ & Hm' & _). by destruct Hm'.
    - intros tb m1 Hat _ Henv _. exists tb. split_and!; [done|done|by eapply suffix_no_failure]. }
  apply wp_ok in H as (p & m & Hc & tb & -> & Hat & Hm). by exists tb, m.
Qed.

Lemma fresh_table : ∃ tb m, table_create (mem_init []) = Ok (Some tb, m) ∧
  table_at tb empty_state (mem_init []) m ∧ no_failure m.
Proof. apply create_fresh; [by intros x _|done]. Qed.

(** Running [order] on a new table. *)
Definition scenario (order : list nat) (qss : list (list request)) : option threads_state :=
  match table_create (mem_init []) with
  | Ok (tb, m) => schedule tb order (start_threads qss m)
  | _ => None
  end.

Lemma scenario_run order qss s : scenario order qss = Some s → ∃ tb m,
  table_create (mem_init []) = Ok (Some tb, m) ∧ table_at tb empty_state (mem_init []) m ∧ no_failure m ∧
  schedule (Some tb) order (start_threads qss m) = Some s.
Proof.
  destruct fresh_table as (tb & m & Hc & Hat & Hm). intros Hs. exists tb, m.
  unfold scenario in Hs. rewrite Hc in Hs.
  split; [exact Hc|]. split; [exact Hat|]. split; [exact Hm|exact Hs].
Qed.

Lemma scenario_some order qss :
  (if scenario order qss is Some _ then true else false) = true → ∃ s, scenario order qss = Some s.
Proof. destruct (scenario order qss) as [s|]; [by exists s|done]. Qed.

Definition thread_finished (th : thread_state) : bool :=
  match todo th, running th with [], None => true | _, _ => false end.

Lemma finished_spec s : forallb thread_finished (t_threads s) = true → finished s.
Proof.
  intros H. apply Forall_forall. intros th Hth. rewrite forallb_forall in H. apply list_elem_of_In, H in Hth.
  destruct th as [[] []]; done.
Qed.

Lemma overtaken_run : ∃ s, scenario overtaken sample_threads = Some s ∧ finished s ∧
  t_done s = [Completed 0 1 (Q_insert (lit "Ann") 31) 0 (OneRow (Some Ann)) 1;
              Completed 0 0 (Q_insert (lit "Bob") 20) 1 (OneRow (Some Bob)) 2;
              Completed 1 0 Q_all 0 (Rows [Bob]) 2].
Proof.
  destruct (scenario_some overtaken sample_threads ltac:(vm_compute; reflexivity)) as [s Hs]. exists s. split; [exact Hs|].
  assert ((λ s, (forallb thread_finished (t_threads s), t_done s)) <$> scenario overtaken sample_threads =
    Some (true, [Completed 0 1 (Q_insert (lit "Ann") 31) 0 (OneRow (Some Ann)) 1;
                 Completed 0 0 (Q_insert (lit "Bob") 20) 1 (OneRow (Some Bob)) 2;
                 Completed 1 0 Q_all 0 (Rows [Bob]) 2])) as H by (vm_compute; reflexivity).
  rewrite Hs in H. injection H as Hf Hd. split; [by apply finished_spec|exact Hd].
Qed.

(** ** Theorems *)

(** C9: any number of threads call a new table in any interleaving of their
    steps: nothing undefined happens, and one list [D] of the records in the
    order in which they were stored, with the calls that stored them, explains
    all replies. No id and no call is in [D] twice, and each record is that of
    its call. Every call that has returned, in the program order of its thread,
    is answered: an insertion gives the record it put into [D] between its begin
    and its end; the search for one id gives what [D] has at one moment between
    its begin and its end; any other search gives what it finds bucket by
    bucket, each at such a moment, sorted by id. *)
Theorem threads_are_answered (tb : loc) (m0 m : Mem) (qss : list (list request)) (order : list nat) (s : threads_state)
    (Htable : table_at tb empty_state m0 m) (Hmemory : no_failure m) (Hids : (Z.of_nat (total qss) < INT_MAX)%Z)
    (Hrun : schedule (Some tb) order (start_threads qss m) = Some s) :
  t_undefined s = false ∧
  ∃ D : list (record * place),
    length D = stored_rows (Some tb) (t_mem s) ∧ NoDup D.*2 ∧ NoDup (rec_id <$> D.*1) ∧
    Forall (λ '(r, x), x ∈ places qss ∧ ∃ name age, x.2.2 = Q_insert name age ∧
      rec_name r = take 63 name ∧ rec_age r = age) D ∧
    Forall (λ c, c_end c ≤ length D ∧
      answer D (c_thread c, (c_place c, c_request c)) (c_begin c) (c_end c) (c_request c) (c_reply c)) (t_done s) ∧
    ∀ i qs, qss !! i = Some qs → calls_made i (t_done s) `prefix_of` labelled qs.
Proof.
  destruct (reached_ok tb m0 qss order m s Htable Hmemory Hids Hrun) as [g Hok].
  pose proof (to_agree _ _ _ _ _ Hok) as Hag. split; [apply Hok|]. exists (entries g). split_and!.
  - by rewrite length_entries, (ag_stored_rows _ _ _ _ Hag).
  - unfold entries. rewrite <- list_fmap_compose. apply Hag.
  - rewrite entries_records, <- list_fmap_compose. exact (ag_ids_NoDup _ _ _ _ Hag).
  - apply Forall_forall. intros [r x] ([[l r'] y] & [= -> ->] & Hin)%list_elem_of_fmap.
    split; [by eapply log_places|exact (ag_calls _ _ _ _ Hag _ _ Hin)].
  - eapply Forall_impl; [apply Hok|]. intros c [Hl Ha]. by rewrite length_entries.
  - intros i qs Hqs. destruct (lookup_lt_is_Some_2 (t_threads s) i) as [th Hth].
    { rewrite (to_length _ _ _ _ _ Hok). by eapply lookup_lt_Some. }
    rewrite <- (to_calls _ _ _ _ _ Hok i th qs Hth Hqs). by eexists.
Qed.

Lemma threads_are_answered_witness :
  ∃ tb m s, table_create (mem_init []) = Ok (Some tb, m) ∧
    schedule (Some tb) overtaken (start_threads sample_threads m) = Some s ∧ length (t_done s) = 3 ∧ t_undefined s = false.
Proof.
  destruct overtaken_run as (s & Hs & _ & Hd). destruct (scenario_run _ _ _ Hs) as (tb & m & Hc & Hat & Hm & Hrun).
  exists tb, m, s. split; [exact Hc|]. split; [exact Hrun|]. split; [rewrite Hd; reflexivity|].
  apply (threads_are_answered tb (mem_init []) m sample_threads overtaken s Hat Hm ltac:(vm_compute; reflexivity) Hrun).
Defined.

(** C10: when the threads are done, the table is the list of all records they
    inserted with the ids 1, 2, ..., n in this order: exactly one record per
    insertion, and every reply is explained by the order of storing. All calls
    were made, no lock is held, and destroying the table leaves every heap as it was before
    its creation: the searches left no array behind. *)
Theorem threads_leave_a_list (tb : loc) (m0 m : Mem) (qss : list (list request)) (order : list nat) (s : threads_state)
    (Htable : table_at tb empty_state m0 m) (Hmemory : no_failure m) (Hids : (Z.of_nat (total qss) < INT_MAX)%Z)
    (Hrun : schedule (Some tb) order (start_threads qss m) = Some s) (Hdone : finished s) :
  ∃ (D : list (record * place)) (db : list record),
    holds tb db m0 (t_mem s) ∧ db ≡ₚ D.*1 ∧ rec_id <$> db = seqZ 1 (Z.of_nat (length db)) ∧
    NoDup D.*2 ∧ (∀ x, x ∈ D.*2 ↔ x ∈ places qss ∧ ∃ name age, x.2.2 = Q_insert name age) ∧
    Forall (λ c, answer D (c_thread c, (c_place c, c_request c)) (c_begin c) (c_end c) (c_request c) (c_reply c)) (t_done s) ∧
    (∀ i qs, qss !! i = Some qs → calls_made i (t_done s) = labelled qs) ∧
    wp (table_destroy (Some tb)) (λ _ m', same_heaps m0 m') (t_mem s).
Proof.
  destruct (reached_ok tb m0 qss order m s Htable Hmemory Hids Hrun) as [g Hok].
  pose proof (to_agree _ _ _ _ _ Hok) as Hag. pose proof (all_idle _ _ _ _ _ Hok Hdone) as Hidle. pose proof (end_holds _ _ _ _ Hag Hidle) as Hh.
  exists (entries g), (db_of (state_of g)). split_and!.
  - exact Hh.
  - by eapply end_records.
  - by eapply holds_ids.
  - unfold entries. rewrite <- list_fmap_compose. apply Hag.
  - intros x. split; [|intros (Hx & name & age & Hq); by eapply end_inserted].
    intros ([r y] & -> & ([[l r'] z] & [= -> ->] & Hin)%list_elem_of_fmap)%list_elem_of_fmap.
    destruct (ag_calls _ _ _ _ Hag _ _ Hin) as (name & age & Hc & _).
    split; [by eapply log_places|by exists name, age].
  - eapply Forall_impl; [apply Hok|]. by intros c [_ Ha].
  - by eapply end_calls.
  - eapply wp_mono; [|by eapply destroy_refines_table, end_table]. by intros u m' [H _].
Qed.

Lemma threads_leave_a_list_witness :
  ∃ tb m s db, table_create (mem_init []) = Ok (Some tb, m) ∧
    schedule (Some tb) overtaken (start_threads sample_threads m) = Some s ∧ holds tb db (mem_init []) (t_mem s).
Proof.
  destruct overtaken_run as (s & Hs & Hf & _). destruct (scenario_run _ _ _ Hs) as (tb & m & Hc & Hat & Hm & Hrun).
  destruct (threads_leave_a_list tb (mem_init []) m sample_threads overtaken s Hat Hm ltac:(vm_compute; reflexivity) Hrun Hf)
    as (D & db & Hh & _).
  exists tb, m, s, db. split; [exact Hc|]. split; [exact Hrun|exact Hh].
Defined.

(** C11: the threads always come to an end: there is no infinite order of steps
    (on any table, in any state), and in every state they reach either all of
    them are done or one of them has a next step: no deadlock. *)
Theorem threads_finish (tb : loc) (m0 m : Mem) (qss : list (list request)) (order : list nat) (s : threads_state)
    (Htable : table_at tb empty_state m0 m) (Hmemory : no_failure m) (Hids : (Z.of_nat (total qss) < INT_MAX)%Z)
    (Hrun : schedule (Some tb) order (start_threads qss m) = Some s) :
  (∀ table, well_founded (next_state table)) ∧ (finished s ∨ ∃ i s', thread_step (Some tb) i s = Some s') ∧
  ∃ order' s', schedule (Some tb) (order ++ order') (start_threads qss m) = Some s' ∧ finished s'.
Proof.
  destruct (reached_ok tb m0 qss order m s Htable Hmemory Hids Hrun) as [g Hok].
  split; [exact next_state_wf|]. split; [by eapply goes_on|].
  destruct (can_finish _ _ _ g s Hok) as (order' & s' & Hs' & Hf). exists order', s'. by rewrite schedule_app, Hrun.
Qed.

Lemma threads_finish_witness :
  ∃ tb m, table_create (mem_init []) = Ok (Some tb, m) ∧
    ∃ order' s', schedule (Some tb) (replicate 7 1 ++ order') (start_threads sample_threads m) = Some s' ∧ finished s'.
Proof.
  destruct (scenario_some (replicate 7 1) sample_threads ltac:(vm_compute; reflexivity)) as [s Hs].
  destruct (scenario_run _ _ _ Hs) as (tb & m & Hc & Hat & Hm & Hrun). exists tb, m. split; [exact Hc|].
  apply (threads_finish tb (mem_init []) m sample_threads (replicate 7 1) s Hat Hm ltac:(vm_compute; reflexivity) Hrun).
Defined.

(** C12: the locks keep the threads apart: no two threads are ever both about to
    use the next id, or the same bucket where one of them changes it. *)
Theorem threads_never_race (tb : loc) (m0 m : Mem) (qss : list (list request)) (order : list nat) (s : threads_state)
    (i j : nat) (thi thj : thread_state) (a b : access)
    (Htable : table_at tb empty_state m0 m) (Hmemory : no_failure m) (Hids : (Z.of_nat (total qss) < INT_MAX)%Z)
    (Hrun : schedule (Some tb) order (start_threads qss m) = Some s) (Hij : i ≠ j)
    (Hi : t_threads s !! i = Some thi) (Hj : t_threads s !! j = Some thj)
    (Ha : next_access thi = Some a) (Hb : next_access thj = Some b) : ¬ conflict a b.
Proof.
  destruct (reached_ok tb m0 qss order m s Htable Hmemory Hids Hrun) as [g Hok].
  eapply may_use_exclusive; [apply Hok|exact Hij|by eapply next_allowed|by eapply next_allowed].
Qed.

Lemma threads_never_race_witness :
  ∃ tb m s ths, table_create (mem_init []) = Ok (Some tb, m) ∧
    schedule (Some tb) [0; 0; 0; 0; 0; 0; 1; 1] (start_threads sample_threads m) = Some s ∧
    t_threads s = ths ∧ next_access <$> ths = [Some (Writes 1); Some (Reads 0)] ∧ ¬ conflict (Writes 1) (Reads 0).
Proof.
  destruct (scenario_some [0; 0; 0; 0; 0; 0; 1; 1] sample_threads ltac:(vm_compute; reflexivity)) as [s Hs].
  assert ((λ s, next_access <$> t_threads s) <$> scenario [0; 0; 0; 0; 0; 0; 1; 1] sample_threads =
    Some [Some (Writes 1); Some (Reads 0)]) as H by (vm_compute; reflexivity).
  rewrite Hs in H. injection H as H. destruct (scenario_run _ _ _ Hs) as (tb & m & Hc & Hat & Hm & Hrun).
  exists tb, m, s, (t_threads s). split; [exact Hc|]. split; [exact Hrun|]. split; [reflexivity|]. split; [exact H|].
  destruct (t_threads s) as [|th0 [|th1 ths]] eqn:Hths; [discriminate H|discriminate H|]. injection H as H0 H1 _.
  apply (threads_never_race tb (mem_init []) m sample_threads _ s 0 1 th0 th1 (Writes 1) (Reads 0) Hat Hm
    ltac:(vm_compute; reflexivity) Hrun ltac:(lia)); [rewrite Hths; reflexivity|rewrite Hths; reflexivity|exact H0|exact H1].
Defined.

(** C19: what was inserted before a search began is found: when the call of an
    insertion returned before a call that looks for the id of its record, by
    the index or by the scan, this one gives the record; and a call for all
    records gives it among the others. *)
Theorem inserted_rows_are_seen (tb : loc) (m0 m : Mem) (qss : list (list request)) (order : list nat) (s : threads_state)
    (c c' : completed) (name : cstr) (age : Z)
    (Htable : table_at tb empty_state m0 m) (Hmemory : no_failure m) (Hids : (Z.of_nat (total qss) < INT_MAX)%Z)
    (Hrun : schedule (Some tb) order (start_threads qss m) = Some s)
    (Hc : c ∈ t_done s) (Hc' : c' ∈ t_done s) (Hinsert : c_request c = Q_insert name age)
    (Hbefore : c_end c ≤ c_begin c') :
  ∃ r, c_reply c = OneRow (Some r) ∧ rec_name r = take 63 name ∧ rec_age r = age ∧
    match c_request c' with
    | Q_find_id id | Q_scan_id id => id = rec_id r → c_reply c' = OneRow (Some r)
    | Q_all => ∃ L, c_reply c' = Rows L ∧ r ∈ L
    | _ => True
    end.
Proof.
  destruct (reached_ok tb m0 qss order m s Htable Hmemory Hids Hrun) as [g Hok].
  pose proof (to_agree _ _ _ _ _ Hok) as Hag. pose proof (to_done _ _ _ _ _ Hok) as Hdone. rewrite Forall_forall in Hdone.
  destruct (Hdone c Hc) as [_ Ha]. destruct (Hdone c' Hc') as [_ Ha']. rewrite Hinsert in Ha.
  destruct Ha as (n & r & Hn & Hr & Hrep & Hname & Hage). exists r. do 3 (split; [done|]).
  assert ((entries g).*1 !! n = Some r) as Hr1 by by rewrite list_lookup_fmap, Hr.
  assert (NoDup (rec_id <$> (entries g).*1)) as Hnd.
  { rewrite entries_records, <- list_fmap_compose. exact (ag_ids_NoDup _ _ _ _ Hag). }
  destruct (c_request c'); try done.
  - destruct Ha' as (k & Hk & ->). intros ->. by rewrite (search_has _ _ n) by (done || lia).
  - destruct Ha' as (k & Hk & ->). intros ->. by rewrite (search_has _ _ n) by (done || lia).
  - destruct Ha' as (L & HL & ->). exists L. split; [done|]. eapply (snapshot_has _ _ _ _ n); [done..|lia].
Qed.

(** The search of the second thread begins after the first insertion. *)
Definition in_turn : list nat := replicate 11 0 ++ replicate 6 1.

Lemma inserted_rows_are_seen_witness :
  ∃ s c c', scenario in_turn [[Q_insert (lit "Ann") 31]; [Q_find_id 1]] = Some s ∧
    t_done s = [c; c'] ∧ c_end c ≤ c_begin c' ∧ c_request c' = Q_find_id 1 ∧ c_reply c' = c_reply c.
Proof.
  set (qss := [[Q_insert (lit "Ann") 31]; [Q_find_id 1]]).
  destruct (scenario_some in_turn qss ltac:(vm_compute; reflexivity)) as [s Hs].
  assert (t_done <$> scenario in_turn qss = Some [Completed 0 0 (Q_insert (lit "Ann") 31) 0 (OneRow (Some Ann)) 1;
    Completed 1 0 (Q_find_id 1) 1 (OneRow (Some Ann)) 1]) as H by (vm_compute; reflexivity).
  rewrite Hs in H. injection H as H. destruct (scenario_run _ _ _ Hs) as (tb & m & _ & Hat & Hm & Hrun).
  exists s, (Completed 0 0 (Q_insert (lit "Ann") 31) 0 (OneRow (Some Ann)) 1),
    (Completed 1 0 (Q_find_id 1) 1 (OneRow (Some Ann)) 1).
  split; [exact Hs|]. split; [exact H|]. split; [simpl; lia|]. split; [reflexivity|].
  destruct (inserted_rows_are_seen tb (mem_init []) m qss in_turn s (Completed 0 0 (Q_insert (lit "Ann") 31) 0 (OneRow (Some Ann)) 1)
    (Completed 1 0 (Q_find_id 1) 1 (OneRow (Some Ann)) 1) (lit "Ann") 31 Hat Hm ltac:(vm_compute; reflexivity) Hrun)
    as (r & Hr & _ & _ & _); [rewrite H; left|rewrite H; right; left|reflexivity|simpl; lia|reflexivity].
Defined.

(** A scan is not a snapshot: here [table_collect_all] gives the second
    record alone, though the first one was stored before it by a call that had
    returned when the second began. *)
Theorem scan_is_no_snapshot :
  ∃ tb m s, table_create (mem_init []) = Ok (Some tb, m) ∧
    schedule (Some tb) overtaken (start_threads sample_threads m) = Some s ∧ finished s ∧
    t_done s = [Completed 0 1 (Q_insert (lit "Ann") 31) 0 (OneRow (Some Ann)) 1;
                Completed 0 0 (Q_insert (lit "Bob") 20) 1 (OneRow (Some Bob)) 2;
                Completed 1 0 Q_all 0 (Rows [Bob]) 2].
Proof.
  destruct overtaken_run as (s & Hs & Hf & Hd). destruct (scenario_run _ _ _ Hs) as (tb & m & Hc & _ & _ & Hrun).
  exists tb, m, s. split; [exact Hc|]. split; [exact Hrun|]. split; [exact Hf|exact Hd].
Qed.
