(* ===== verification/SqlTheorems.v ===== *)
(** What is proved of the SQL layer and of the interactive program. *)
From stdpp Require Import base list gmap sorting strings.
From Stdlib Require Import Ascii ZArith Lia.
From S2P Require Import Prelude Memory CLib CLibProofs BPTree Index BPTreeInstance Table TableMem TableRep TableCollect TableQueries TableUpdate TableLife TableSpec Sql SqlLex SqlGrammar SqlErrors SqlSpec Quiet Repl TableTheorems.

(** C7: executing any text against a table that holds a list of records
    reports, and does to that list, what its statement says: an insertion
    appends a record, a [SELECT] returns the matching records in the order of
    their ids, anything else changes nothing and reports its error; releasing
    the result leaves only the table. *)
Theorem execute_follows_specification (tb : loc) (db : list record) (m0 m : Mem) (text : cstr)
    (Htable : holds tb db m0 m) (Hids : (Z.of_nat (length db) + 1 < INT_MAX)%Z) :
  wp (run_sql (Some tb) text)
    (λ rep m1, rep = (spec_sql text db).1 ∧ holds tb (spec_sql text db).2 m0 m1) m.
Proof. by apply run_sql_refines. Qed.

Lemma execute_follows_specification_witness :
  ∃ tb m, holds tb sample_rows (mem_init []) m ∧
    wp (run_sql (Some tb) (lit "SELECT * FROM users WHERE age > 25;"))
      (λ rep _, rp_status rep = SQL_STATUS_OK ∧ rp_rows rep = [MkRecord 1 (lit "Ann") 31]) m.
Proof.
  destruct sample_table as (tb & m & Hh). exists tb, m. split; [exact Hh|].
  refine (wp_mono _ _ _ _ _ (execute_follows_specification tb _ _ m _ Hh eq_refl)).
  intros rep m' [-> _]. vm_compute. split; reflexivity.
Defined.

(** C25: [sql_parse] accepts exactly the statements of the grammar: [INSERT],
    [SELECT] with or without a [WHERE] clause, [EXIT] and [QUIT], in any case
    and with any spacing between the tokens, and gives each its command. *)
Theorem parser_accepts_the_grammar (s : cstr) (res : SQLParseResult) :
  sql_parse (Some s) = res ∧ parsed res = true ↔ statement s res.
Proof. apply statement_iff. Qed.

(** C26: a text that is no statement is refused with one of the two MySQL
    style reports: 1064 / 42000 with an excerpt of at most 63 bytes, or 1054 /
    42S22 with the unknown column; the message always fits its buffer, and no
    command is left behind. *)
Theorem parser_reports_errors (s : cstr) (Hno : parsed (sql_parse (Some s)) = false) :
  refused (sql_parse (Some s)) ∧ length (p_error_message (sql_parse (Some s))) < SQL_ERROR_MESSAGE_SIZE ∧
  sql_command_lock_mode (Some (command (sql_parse (Some s)))) = SQL_LOCK_NONE.
Proof.
  destruct (parse_settled s) as [H|H]; [congruence|]. pose proof (refused_message _ H) as [_ Hl].
  split_and!; [done|done|]. unfold sql_command_lock_mode. by destruct H as [? _ _ -> _ _ _ _|? ? _ _ _ _ -> _ _ _ _].
Qed.

Lemma parser_reports_errors_witness :
  parsed (sql_parse (Some (lit "SELECT salary FROM users"))) = false ∧
  refused (sql_parse (Some (lit "SELECT salary FROM users"))).
Proof. split; [reflexivity|]. apply (parser_reports_errors (lit "SELECT salary FROM users")). reflexivity. Defined.

(** C27: printing a command and parsing it gives the command back, for every
    insertion whose name has no quote and fits the record and whose age is an
    [int], and for every condition on such values. *)
Theorem parse_print (q : query) (Hok : query_ok q) : sql_parse (Some (print_query q)) = query_result q.
Proof. by apply statement_parsed, print_statement. Qed.

Lemma parse_print_witness :
  query_ok (QInsert (lit "Zoe") (-7)) ∧
  sql_parse (Some (lit "INSERT INTO users VALUES ('Zoe', -7);")) = query_result (QInsert (lit "Zoe") (-7)).
Proof.
  assert (query_ok (QInsert (lit "Zoe") (-7))) as Hok.
  { split; [|unfold is_int, INT_MIN, INT_MAX; lia]. split; [|vm_compute; lia].
    intros H. repeat (apply elem_of_cons in H as [H|H]; [discriminate|]). by apply elem_of_nil in H. }
  split; [exact Hok|]. exact (parse_print (QInsert (lit "Zoe") (-7)) Hok).
Defined.

(** The lock [sql_determine_lock_mode] chooses from the text of a
    statement is the one [sql_command_lock_mode] gives for its parsed command:
    write for [INSERT], read for [SELECT], none for the exit statements. *)
Theorem lock_modes_agree (s : cstr) (Hparsed : parsed (sql_parse (Some s)) = true) :
  sql_determine_lock_mode (Some s) = sql_command_lock_mode (Some (command (sql_parse (Some s)))).
Proof. by apply statement_lock, parsed_statement. Qed.

Lemma lock_modes_agree_witness :
  parsed (sql_parse (Some (lit "insert INTO Users values('a',1)"))) = true ∧
  sql_determine_lock_mode (Some (lit "insert INTO Users values('a',1)")) = SQL_LOCK_WRITE.
Proof. split; [reflexivity|]. rewrite (lock_modes_agree (lit "insert INTO Users values('a',1)") eq_refl). reflexivity. Defined.

(** A text that starts with a space and is not an exit statement is a
    syntax error, even if what follows the space is a statement: [sql_parse]
    skips leading spaces for [EXIT] and [QUIT] only. *)
Theorem leading_space_is_refused (s : cstr)
    (Hspace : isspace (cur s) = true) (Hexit : (match_exit (skip_space s)).1 = false) :
  parsed (sql_parse (Some s)) = false ∧ p_error_code (sql_parse (Some s)) = 1064%Z.
Proof. by rewrite (leading_space s Hspace Hexit). Qed.

Lemma leading_space_is_refused_witness :
  sql_determine_lock_mode (Some (lit " SELECT * FROM users")) = SQL_LOCK_READ ∧
  parsed (sql_parse (Some (lit "SELECT * FROM users"))) = true ∧
  parsed (sql_parse (Some (lit " SELECT * FROM users"))) = false.
Proof.
  split; [reflexivity|]. split; [reflexivity|].
  apply (leading_space_is_refused (lit " SELECT * FROM users")); reflexivity.
Defined.

Lemma int_of_value v : is_int (int_of v).
Proof. unfold int_of. apply to_int_is_int. Qed.

(** C39: an integer literal is clamped to [long] and then cut to [int], so a
    condition on an id outside the range of [int] selects another id. *)
Theorem literals_wrap (c : TableComparison) (v : Z) (Hv : (- 10 ^ 20 < v < 10 ^ 20)%Z) :
  sql_parse (Some (print_query (QWhere (CondId c v)))) = query_result (QWhere (CondId c (int_of v))) ∧
  is_int (int_of v).
Proof.
  split; [|apply int_of_value]. apply statement_parsed.
  apply (St_where _ users (lit " WHERE " ++ lit "id" ++ lit " " ++ comparison_text c ++ lit " " ++ print_dec v ++ lit ";"));
    [by apply select_head_text|].
  exists (lit " "), (lit "WHERE"), (lit " "), (lit " "), (lit " " ++ print_dec v ++ lit ";").
  split_and!; try done; try apply space_blank; try apply space_spaces; [left; apply space_spaces|by destruct c|].
  exists (lit " "), (print_dec v), v, (lit ";").
  split_and!; [done|apply space_spaces|by apply print_dec_numeral|done|done|apply semicolon_end].
Qed.

Lemma literals_wrap_witness :
  sql_parse (Some (lit "SELECT * FROM users WHERE id = 4294967297;")) =
    query_result (QWhere (CondId TABLE_COMPARISON_EQ 1)).
Proof. apply (literals_wrap TABLE_COMPARISON_EQ 4294967297). lia. Defined.

(** C28: the interactive program, run on any input, exits with 0 after the
    prompts and replies the specification lists, line by line of at most 255
    bytes, up to the end of the input or the first exit statement, and has then
    freed everything. *)
Theorem session_output (stdin : cstr) (m : Mem)
    (Hbounded : mem_bounded m) (Hmemory : no_failure m) (Hids : (Z.of_nat (length stdin) + 1 < INT_MAX)%Z) :
  wp (repl_main stdin) (λ code m', code = 0%Z ∧
    m_out m' = m_out m ++ banner ++ session (input_lines (length stdin) stdin) [] ∧ same_heaps m m') m.
Proof. by apply main_refines. Qed.

Definition sample_session : cstr :=
  concat (map line_of ["INSERT INTO users VALUES ('Ann', 31);"; "SELECT * FROM users WHERE id = 1;"; "QUIT"]).

Lemma session_output_witness :
  session (input_lines (length sample_session) sample_session) [] =
    lit "sql> " ++ line_of "Inserted row with id = 1" ++ lit "sql> " ++ line_of "id=1, name='Ann', age=31" ++ lit "sql> " ∧
  wp (repl_main sample_session) (λ code m', code = 0%Z ∧
    m_out m' = banner ++ session (input_lines (length sample_session) sample_session) [] ∧
    same_heaps (mem_init []) m') (mem_init []).
Proof.
  split; [vm_compute; reflexivity|].
  apply (session_output sample_session (mem_init [])); [intros x _; reflexivity|reflexivity|vm_compute; reflexivity].
Defined.
