(* ===== verification/ApiTheorems.v ===== *)
(** What is proved of the JSON buffer and of the query API. *)
From stdpp Require Import base list gmap sorting strings.
From Stdlib Require Import Ascii ZArith Lia.
From S2P Require Import Prelude Memory CLib CLibProofs BPTree Index BPTreeInstance Table TableMem TableRep TableCollect TableQueries TableUpdate TableLife TableSpec Sql SqlLex SqlGrammar SqlErrors SqlSpec RowTypes Quiet Bytes Json JsonProofs JsonValue Api ApiSpec TableTheorems.

(** ** Samples *)

(** An empty buffer of four bytes. *)
Definition sample_block : byte_block := [Some NUL; None; None; None].
Definition sample_memory (env : list bool) : Mem :=
  set_next 2 (set_bytes {[1%positive := sample_block]} (mem_init env)).
Definition sample_buffer : JsonBuffer := MkBuffer (Some 1%positive) 0 4.

Lemma mem_init_bytes env : bytes_bounded (mem_init env).
Proof. intros l Hl. apply is_Some_alt in Hl. done. Qed.

Lemma sample_buffer_at env : buffer_at (mem_init env) sample_buffer [] (sample_memory env).
Proof.
  exists 1%positive, sample_block. split_and!; [done| |by exists [None; None; None]|done].
  exists 2%positive, env. split_and!; [done|done|done|done|done|apply mem_init_bytes].
Qed.

Lemma sample_served : ∃ tb m, holds tb sample_rows (mem_init []) m ∧ bytes_bounded m.
Proof.
  destruct sample_table as (tb & m & Hh). exists tb, (set_bytes ∅ m).
  split; [by apply holds_set_bytes|]. intros l Hl. simpl in Hl. by destruct Hl.
Qed.

Lemma sample_rows_typed : db_typed sample_rows.
Proof.
  split.
  - repeat constructor; try (unfold is_int, INT_MIN, INT_MAX; simpl; lia);
      intros H; repeat (apply elem_of_cons in H as [H|H]; [discriminate|]); by apply elem_of_nil in H.
  - intros [|[|i]] r Hr; simplify_eq/=; done.
Qed.

(** ** The buffer *)

(** Appending a text as a JSON string to a buffer that holds [s] leaves
    [s] and the quoted, escaped text in it, NUL-terminated and within its
    capacity, growing the block as needed; if an allocation fails the call
    reports it and the buffer holds [s] and a part of the text.  Either way the
    blocks and structures of everyone else are as they were. *)
Theorem json_string_appended (m0 m : Mem) (b : JsonBuffer) (s t : cstr)
    (Hbuffer : buffer_at m0 b s m) (Hsize : (Z.of_nat (length s + 6 * length t + 2) < TEXT_MAX)%Z) :
  wp (json_buffer_append_json_string (Some b) (Some t)) (λ r m', ∃ b' s',
    r.2 = Some b' ∧ buffer_at m0 b' s' m' ∧
    if r.1 then s' = s ++ json_string t else ¬ no_failure m0 ∧ s `prefix_of` s') m.
Proof. by apply append_json_string_appends. Qed.

Lemma json_string_appended_witness :
  buffer_at (mem_init [true; false]) sample_buffer [] (sample_memory [true; false]) ∧
  wp (json_buffer_append_json_string (Some sample_buffer) (Some (lit "tab	quote'"))) (λ r m', ∃ b' s',
    r.2 = Some b' ∧ buffer_at (mem_init [true; false]) b' s' m' ∧
    if r.1 then s' = [] ++ json_string (lit "tab	quote'") else ¬ no_failure (mem_init [true; false]) ∧ [] `prefix_of` s')
    (sample_memory [true; false]).
Proof.
  split; [apply sample_buffer_at|].
  apply (json_string_appended (mem_init [true; false]) _ sample_buffer [] (lit "tab	quote'")); [apply sample_buffer_at|].
  vm_compute. reflexivity.
Defined.

(** C37: growing the capacity of a buffer ends: from any non-zero capacity the
    doubling loop reaches any size up to 2 ^ 62 without overflowing [size_t]
    and stops at a capacity of at most 2 ^ 63. *)
Theorem capacity_loop_ends (cap required : Z) (m : Mem)
    (Hcap : (0 < cap ≤ CAP_MAX)%Z) (Hrequired : (required ≤ TEXT_MAX)%Z) :
  wp (grow_capacity cap required) (λ c m', m' = m ∧ (cap ≤ c ≤ CAP_MAX)%Z ∧ (required ≤ c)%Z) m.
Proof. apply grow_capacity_spec; auto. Qed.

Lemma capacity_loop_ends_witness :
  wp (grow_capacity 128 5000) (λ c m', m' = mem_init [] ∧ (128 ≤ c ≤ CAP_MAX)%Z ∧ (5000 ≤ c)%Z) (mem_init []) ∧
  grow_capacity 128 5000 (mem_init []) = Ok (8192%Z, mem_init []).
Proof. split; [|vm_compute; reflexivity]. apply (capacity_loop_ends 128 5000); unfold CAP_MAX, TEXT_MAX; lia. Defined.

(** ** The API *)

(** What a client of the API does with a text: it reads the status and the body
    of the response and releases it. *)
Definition run_api (tb : ptr) (text : cstr) : prog Mem (option (Z * cstr)) :=
  r ← api_handle_query tb (Some text) (Some (MkApi 0 None));
  match r with
  | (true, Some res) =>
      s ← read_string (body res);
      api_result_destroy (Some res);;
      mret (Some (http_status res, s))
  | (_, res) => api_result_destroy res;; mret None
  end.

(** C6: the body of a response is JSON that reads back as the reply of the
    statement: the inserted id, the matching records in the order of their ids,
    or the error; it is one line without control characters; the status is 200
    for every statement, right or wrong, and 400 for [EXIT]; and once the
    response is released, memory holds the table and no text. *)
Theorem api_answers_in_json (tb : loc) (db : list record) (m0 m : Mem) (text : cstr)
    (Htable : holds tb db m0 m) (Hbytes : bytes_bounded m) (Htyped : db_typed db)
    (Hids : (Z.of_nat (length db) + 1 < INT_MAX)%Z) (Hsize : (Z.of_nat (length (spec_api text db).1.2) < BODY_MAX)%Z) :
  wp (run_api (Some tb) text) (λ r m', ∃ s,
    r = Some (reply_code (spec_sql text db).1, s) ∧ read_json s = Some (reply_json (spec_sql text db).1) ∧
    clean s ∧ holds tb (spec_sql text db).2 m0 m' ∧ m_bytes m' = m_bytes m) m.
Proof.
  wp_call (by apply (api_refines tb db m0 m text)).
  intros r m1 (base & Hh & Hb & (Ho & Hbb & Hn) & l & -> & Hat). pose proof (spec_body_clean text db) as Hclean.
  apply wp_bind. eapply read_body; [exact Hat|by apply clean_no_nul|]. apply wp_bind.
  eapply destroy_body; [exact Hat|]. intros m2 Hs. apply wp_ret. pose proof (spec_body_reads text db Htyped Hids) as Hread.
  assert (m_bytes m2 = m_bytes m) as Hm2 by (by rewrite (spent_bytes _ _ Hs)).
  eexists. split_and!; [|exact Hread|done| |done].
  - simpl. do 2 f_equal. unfold spec_api. by destruct (spec_sql text db).
  - assert ((spec_sql text db).2 = (spec_api text db).2) as -> by (unfold spec_api; by destruct (spec_sql text db)).
    by eapply holds_spent.
Qed.

Lemma api_answers_in_json_witness :
  ∃ tb m, holds tb sample_rows (mem_init []) m ∧
    wp (run_api (Some tb) (lit "SELECT * FROM users WHERE age > 25;")) (λ r _, ∃ s, r = Some (200%Z, s) ∧
      read_json s = Some (JObj [key "ok" (JBool true); key "action" (JStr (lit "select")); key "row_count" (JNum 1);
        key "rows" (JArr [record_json (MkRecord 1 (lit "Ann") 31)])])) m.
Proof.
  destruct sample_served as (tb & m & Hh & Hb). exists tb, m. split; [exact Hh|].
  refine (wp_mono _ _ _ _ _ (api_answers_in_json tb _ _ m (lit "SELECT * FROM users WHERE age > 25;") Hh Hb
    sample_rows_typed eq_refl _)); [|vm_compute; reflexivity].
  intros r m' (s & Hr & Hs & _). exists s. split; [rewrite Hr; reflexivity|]. rewrite Hs. vm_compute. reflexivity.
Defined.

(** C36: a text that is no statement, and an [EXIT], are answered from the
    parser alone: whichever allocations fail, the API either delivers the whole
    body or returns failure without one, and has then released everything; the
    table is not touched. *)
Theorem api_error_never_leaks (tb : ptr) (text : cstr) (m : Mem)
    (Htable : tb ≠ None) (Hrefused : ¬ executes text) (Hbytes : bytes_bounded m)
    (Hsize : (Z.of_nat (length (spec_api text []).1.2) < BODY_MAX)%Z) :
  wp (api_handle_query tb (Some text) (Some (MkApi 0 None)))
    (λ r m', api_done m (spec_api text []).1.1 (spec_api text []).1.2 r m' ∨ api_gave_up m r m') m.
Proof. destruct tb as [tb|]; [|done]. by apply refused_answers. Qed.

Lemma api_error_never_leaks_witness :
  ¬ executes (lit "DROP TABLE users") ∧
  wp (api_handle_query (Some 1%positive) (Some (lit "DROP TABLE users")) (Some (MkApi 0 None)))
    (λ r m', api_done (mem_init [true; false]) 200 (spec_api (lit "DROP TABLE users") []).1.2 r m' ∨
             api_gave_up (mem_init [true; false]) r m') (mem_init [true; false]).
Proof.
  assert (¬ executes (lit "DROP TABLE users")) as Hno by (intros [H _]; vm_compute in H; discriminate).
  split; [exact Hno|].
  apply (api_error_never_leaks (Some 1%positive) (lit "DROP TABLE users") (mem_init [true; false]));
    [done|exact Hno|apply mem_init_bytes|vm_compute; reflexivity].
Defined.

(** C35: the stored data keeps its types: whatever text is executed, every
    record of the table has [int] fields, the id of its position, and a name of
    at most 63 bytes without NUL. *)
Theorem rows_stay_typed (tb : loc) (db : list record) (m0 m : Mem) (text : cstr)
    (Htable : holds tb db m0 m) (Htyped : db_typed db) (Hids : (Z.of_nat (length db) + 1 < INT_MAX)%Z)
    (Htext : NUL ∉ text) :
  wp (run_sql (Some tb) text) (λ rep m', ∃ db', holds tb db' m0 m' ∧ db_typed db' ∧
    Forall record_typed (rp_rows rep)) m.
Proof.
  eapply wp_mono; [|by apply run_sql_refines]. intros rep m' [-> Hh]. eexists. split; [exact Hh|].
  split; [by apply spec_sql_typed|]. apply Forall_forall. intros r Hr%spec_sql_rows.
  destruct Htyped as [Hall _]. rewrite Forall_forall in Hall. by apply Hall.
Qed.

Lemma rows_stay_typed_witness :
  ∃ tb m, holds tb sample_rows (mem_init []) m ∧
    wp (run_sql (Some tb) (lit "INSERT INTO users VALUES ('Cho', 2147483648);"))
      (λ rep m', ∃ db', holds tb db' (mem_init []) m' ∧ db_typed db' ∧ Forall record_typed (rp_rows rep)) m.
Proof.
  destruct sample_table as (tb & m & Hh). exists tb, m. split; [exact Hh|].
  apply (rows_stay_typed tb _ _ m _ Hh sample_rows_typed); [vm_compute; reflexivity|].
  intros H. repeat (apply elem_of_cons in H as [H|H]; [discriminate|]). by apply elem_of_nil in H.
Defined.

(** ** Encoding *)

(** Whether a text is a sequence of whole UTF-8 characters: a byte below 128, or
    a leading byte and its one, two or three continuation bytes; [pending] is
    how many of these are still to come. *)
Fixpoint utf8 (pending : nat) (s : cstr) : bool :=
  match s with
  | [] => bool_decide (pending = 0)
  | c :: s' =>
      match pending with
      | S p => bool_decide (128 ≤ code c < 192)%Z && utf8 p s'
      | O =>
          if decide (code c < 128)%Z then utf8 0 s'
          else if decide (192 ≤ code c < 224)%Z then utf8 1 s'
          else if decide (224 ≤ code c < 240)%Z then utf8 2 s'
          else bool_decide (240 ≤ code c < 248)%Z && utf8 3 s'
      end
  end.

(** A Hangul syllable. *)
Definition syllable : cstr := [ascii_of_N 234; ascii_of_N 176; ascii_of_N 128].
Definition hangul_text : cstr := lit "x" ++ concat (replicate 21 syllable).

(** The excerpt of a syntax error is cut at 63 bytes, in the middle of a
    character if one is there, so the body of the response to a correct UTF-8
    text may be no UTF-8, although its media type declares it. *)
Theorem error_body_splits_characters :
  utf8 0 hangul_text = true ∧ utf8 0 (p_error_message (sql_parse (Some hangul_text))) = false ∧
  reply_code (spec_sql hangul_text []).1 = 200%Z ∧ utf8 0 (spec_api hangul_text []).1.2 = false.
Proof. vm_compute. split_and!; reflexivity. Qed.
