(* ===== verification/HttpTheorems.v ===== *)
(** What is proved of the HTTP layer. *)
From stdpp Require Import base list gmap sorting strings.
From Stdlib Require Import Ascii ZArith Lia.
From S2P Require Import Prelude Memory CLib CLibProofs BPTree Table Sql SqlLex Repl TableMem Bytes Json JsonProofs JsonValue Api ApiSpec Http HttpSpec HttpText.

Definition sample_error : http_error := MkError (Some 400%Z) (Some (128, [])).
Definition sample_body : cstr := lit "SELECT * FROM users;".
Definition sample_request : cstr := request_text [lit "Host: localhost"] [] sample_body.
(** The sample request in three chunks, with a signal between two of them. *)
Definition sample_conn : Conn :=
  new_conn [RecvData (take 7 sample_request); RecvIntr; RecvData (take 50 (drop 7 sample_request));
            RecvData (drop 57 sample_request)] [SendRoom 10; SendIntr].

(** Its peer takes the response. *)
Lemma sample_answers : ¬ stuck sample_conn ∧ ¬ broken sample_conn.
Proof. unfold stuck, broken, sample_conn. cbn [c_recv c_send new_conn]. set_solver. Qed.

Lemma sample_host : plain_line (lit "Host: localhost").
Proof. split; [by apply lit_line_ok|]. by eexists _, _. Qed.

(** C21: what a call returns depends only on the bytes that come before the
    stream ends and on how it ends, not on the chunks they come in nor on
    signals: it is the request, or the error, of [http_spec].  The call returns,
    unless the peer falls silent before the request is complete and no receive
    timeout is set; it never reads a byte that was not received nor writes
    outside its buffers, and it sends nothing. *)
Theorem request_reading_refines (r0 : HttpRequest) (er : http_error) (c : Conn) :
  wpx False (silent c) (http_read_request (Some r0) er) (λ r c',
    c_out c' = c_out c ∧ c_send c' = c_send c ∧
    delivers (http_spec (stream (c_recv c)).1 (stream (c_recv c)).2) er r) c.
Proof.
  destruct (stream (c_recv c)) as [raw e] eqn:E. eapply wp_mono; [|by apply http_read_ok].
  intros r c' [[Ho Hs _ _] Hd]. by split_and!.
Qed.

(** A request that does not time out is read, or refused, without waiting. *)
Lemma read_answered r0 er c raw e :
  stream (c_recv c) = (raw, e) → http_spec raw e ≠ Refused 408 "Request timed out" →
  wp (http_read_request (Some r0) er) (λ r c', quiet_recv c c' ∧ delivers (http_spec raw e) er r) c.
Proof.
  intros Hs Hno. eapply wp_total; [by apply http_read_ok|by intros []|]. intros [_ Hx]. apply Hno. by rewrite Hs in Hx.
Qed.

(** C22: a request for [/query] with a Content-Length line and any other header
    lines, at most 8192 bytes of header and at most 4096 of body, is read back as
    its body, however it is cut and whatever follows it. *)
Theorem request_roundtrip (before after : list cstr) (body more : cstr) (e : ending) (r0 : HttpRequest) (er : http_error) (c : Conn)
    (Hbefore : Forall plain_line before) (Hafter : Forall plain_line after)
    (Hbody : length body ≤ HTTP_MAX_BODY_SIZE)
    (Hhead : length (joined (request_lines before after body)) + 4 ≤ HTTP_MAX_REQUEST_SIZE)
    (Hstream : stream (c_recv c) = (request_text before after body ++ more, e)) :
  wp (http_read_request (Some r0) er) (λ r _, r = (0%Z, Some (request_of (lit "HTTP/1.1") body), er)) c.
Proof.
  assert (http_spec (request_text before after body ++ more) e = Accepted (lit "HTTP/1.1") body) as Hspec by by apply request_accepted.
  eapply wp_mono; [|by eapply read_answered; [exact Hstream|rewrite Hspec]]. intros r c' [_ Hd]. by rewrite Hspec in Hd.
Qed.

Lemma request_roundtrip_witness :
  stream (c_recv sample_conn) = (sample_request ++ [], EndClosed) ∧
  wp (http_read_request (Some zero_request) sample_error)
    (λ r _, r = (0%Z, Some (request_of (lit "HTTP/1.1") sample_body), sample_error)) sample_conn.
Proof.
  assert (stream (c_recv sample_conn) = (sample_request ++ [], EndClosed)) as Hs by (vm_compute; reflexivity).
  split; [exact Hs|].
  apply (request_roundtrip [lit "Host: localhost"] [] sample_body [] EndClosed); [|constructor| | |exact Hs].
  - constructor; [exact sample_host|constructor].
  - apply Nat.leb_le. vm_compute. reflexivity.
  - apply Nat.leb_le. vm_compute. reflexivity.
Defined.

(** The statuses of refused requests. *)
Definition request_errors : list Z := [400; 404; 405; 408; 413]%Z.

Lemma read_head_errors text status message : read_head text = inl (status, message) → status ∈ request_errors ∧ message ≠ ""%string.
Proof.
  assert (∀ lines acc msg, read_content_length lines acc = inl msg → msg ≠ ""%string) as Hlines.
  { intros lines. induction lines as [|line lines IH]; intros acc msg; cbn [read_content_length]; [done|].
    destruct (strchr_colon line) as [[name value]|]; [|by intros [= <-]]. destruct (strcaseeq _ _); [|apply IH].
    destruct (strtoul _) as [n rest]. case_decide; [by intros [= <-]|apply IH]. }
  unfold read_head, request_errors. destruct (strstr_crlf text) as [[line headers]|]; [|intros [= <- <-]; split; [set_solver|done]].
  destruct (sscanf_request_line line zero_request) as [n r].
  repeat (case_decide; [intros [= <- <-]; split; [set_solver|done]|]).
  destruct (read_content_length (header_lines headers) None) as [msg|[k|]] eqn:E.
  - intros [= <- <-]. split; [set_solver|by eapply Hlines].
  - case_decide; [intros [= <- <-]; split; [set_solver|done]|done].
  - intros [= <- <-]. split; [set_solver|done].
Qed.

(** C24: a request that is not accepted is answered for with one of five
    statuses, each with a reason phrase of its own, and a message that is not
    empty and fits its buffer: there is always something to report.  (A silent
    peer on a socket without a timeout is waited for.) *)
Theorem refusals_are_reported (r0 : HttpRequest) (size : nat) (old : cstr) (st : Z) (c : Conn) (Hsize : 1 < size) :
  wpx False (silent c) (http_read_request (Some r0) (MkError (Some st) (Some (size, old)))) (λ r _,
    r.1.1 = 0%Z ∨ r.1.1 = (-1)%Z ∧ ∃ status message, r.2 = MkError (Some status) (Some (size, message)) ∧
      status ∈ request_errors ∧ http_status_reason status ≠ lit "OK" ∧ message ≠ [] ∧ length message < size) c.
Proof.
  destruct (stream (c_recv c)) as [raw e] eqn:E. eapply wp_mono; [|by apply http_read_ok].
  intros r c' [_ Hd]. destruct (http_spec raw e) as [status message|v b] eqn:Espec; [|left; by rewrite Hd].
  right. destruct Hd as [-> ->]. split; [done|]. exists status, (snprintf size (lit message)).
  assert (status ∈ request_errors ∧ message ≠ ""%string) as [Hst Hmsg].
  { unfold http_spec in Espec. destruct (find_end _) as [i|].
    - destruct (read_head _) as [[s msg]|[v n]] eqn:Eh; [injection Espec as <- <-; by eapply read_head_errors|].
      case_decide; [done|]. unfold request_errors. destruct e; injection Espec as <- <-; split; (set_solver || done).
    - unfold request_errors. case_decide; injection Espec as <- <-; split; (set_solver || done). }
  unfold report, set_error. cbn. rewrite decide_False by lia. split_and!; [done|done| | |].
  - unfold request_errors in Hst. repeat (apply elem_of_cons in Hst as [->|Hst]; [done|]). by apply elem_of_nil in Hst.
  - unfold snprintf. destruct message as [|a message]; [done|]. destruct size as [|[|n]]; [lia|lia|done].
  - unfold snprintf. rewrite length_take. lia.
Qed.

Lemma refusals_are_reported_witness :
  wp (http_read_request (Some zero_request) sample_error) (λ r _,
    r.1.1 = 0%Z ∨ r.1.1 = (-1)%Z ∧ ∃ status message, r.2 = MkError (Some status) (Some (128, message)) ∧
      status ∈ request_errors ∧ http_status_reason status ≠ lit "OK" ∧ message ≠ [] ∧ length message < 128)
    (set_rcvtimeo 5 (new_conn [RecvData (lit "GET / HTTP/1.1" ++ crlf); RecvSilent] [])).
Proof.
  refine (wp_total _ _ _ _ _ (refusals_are_reported zero_request 128 [] 400 _ _) (λ H, H) _); [lia|]. by intros [? _].
Defined.

(** A length written as the negative number that [strtoul] turns into it. *)
Definition wrapped_line (n : nat) : cstr := lit "Content-Length: -" ++ print_dec (ULONG_MAX + 1 - Z.of_nat n).
Definition wrapped_request (body : cstr) : cstr :=
  joined [request_line; wrapped_line (length body)] ++ header_end_mark ++ body.

Lemma strtoul_negative n : 0 < n → (Z.of_nat n ≤ ULONG_MAX)%Z →
  strtoul ("-"%char :: print_dec (ULONG_MAX + 1 - Z.of_nat n)) = (Z.of_nat n, []).
Proof.
  intros Hn Hmax. unfold ULONG_MAX in *. set (k := (18446744073709551615 + 1 - Z.of_nat n)%Z).
  destruct (print_dec_digits (Z.to_nat k)) as (ds & Hds & Hne & Hd & Hv); [lia|].
  rewrite Z2Nat.id in Hds, Hv by lia. rewrite Hds. unfold strtoul. cbn [skip_space].
  change (isspace "-"%char) with false. cbn [scan_sign]. rewrite decide_True by done.
  rewrite <- (app_nil_r ds), (digits_then k ds) by done. unfold ULONG_MAX. rewrite decide_False by lia.
  f_equal. unfold k. replace (- (18446744073709551615 + 1 - Z.of_nat n))%Z with
    (Z.of_nat n + (-1) * (18446744073709551615 + 1))%Z by lia. rewrite Z.mod_add, Z.mod_small; lia.
Qed.

Lemma wrapped_line_ok n : line_ok (wrapped_line n).
Proof.
  unfold wrapped_line. generalize (ULONG_MAX + 1 - Z.of_nat n)%Z. intros z.
  apply line_ok_clean; [by apply lit_line_ok|apply print_dec_clean].
Qed.

Lemma wrapped_accepted body more e : 0 < length body ≤ HTTP_MAX_BODY_SIZE →
  http_spec (wrapped_request body ++ more) e = Accepted (lit "HTTP/1.1") body.
Proof.
  intros Hbody.
  set (n := length body) in *. assert (Z.of_nat n ≤ Z.of_nat HTTP_MAX_BODY_SIZE)%Z as Hz by lia.
  change (Z.of_nat HTTP_MAX_BODY_SIZE) with 4096%Z in Hz.
  assert (line_ok (wrapped_line n)) as Hline by apply wrapped_line_ok.
  set (head := joined [request_line; wrapped_line n]).
  assert (Forall line_ok [request_line; wrapped_line n]) as Hok
    by (constructor; [by apply lit_line_ok|constructor; [exact Hline|constructor]]).
  assert (length head + 4 ≤ HTTP_MAX_REQUEST_SIZE) as Hfit.
  { unfold head. rewrite joined_cons. cbn [joined]. unfold wrapped_line. rewrite !length_app.
    pose proof (print_dec_length (ULONG_MAX + 1 - Z.of_nat n)).
    change (length request_line) with 20. change (length crlf) with 2. change (length (lit "Content-Length: -")) with 17.
    unfold HTTP_MAX_REQUEST_SIZE. lia. }
  unfold http_spec, wrapped_request. fold n head. rewrite <- !(assoc_L (++)).
  assert (find_end (take HTTP_MAX_REQUEST_SIZE (head ++ header_end_mark ++ body ++ more)) = Some (length head)) as ->.
  { rewrite (assoc_L (++) head), take_app_ge by (rewrite length_app; change (length header_end_mark) with 4; lia).
    rewrite <- (assoc_L (++)). by apply find_end_joined. }
  rewrite take_app_length, c_string_id by by apply joined_no_nul.
  assert (read_head head = inr (lit "HTTP/1.1", n)) as ->.
  { unfold head, read_head. rewrite joined_cons, strstr_line by (by destruct (lit_line_ok "POST /query HTTP/1.1") as (_ & ? & _)).
    assert (sscanf_request_line request_line zero_request =
      (3%Z, MkRequest (lit "POST") (lit "/query") (lit "HTTP/1.1") 0 (req_body zero_request))) as -> by reflexivity.
    rewrite !decide_False by (intros Hx; by apply Hx). rewrite header_lines_joined by (by apply Forall_cons in Hok as [_ ?]).
    cbn [read_content_length]. unfold wrapped_line.
    assert (∀ d, strchr_colon (lit "Content-Length: -" ++ d) = Some (lit "Content-Length", lit " -" ++ d)) as -> by reflexivity.
    assert (strcaseeq (lit "Content-Length") (lit "Content-Length") = true) as -> by reflexivity.
    assert (∀ d, skip_space (lit " -" ++ d) = "-"%char :: d) as -> by reflexivity.
    rewrite strtoul_negative by (unfold ULONG_MAX; lia). rewrite !decide_False; [by rewrite Nat2Z.id| |].
    - change (Z.of_nat HTTP_MAX_BODY_SIZE) with 4096%Z. lia.
    - by intros [?|?]. }
  assert (drop (length head + 4) (head ++ header_end_mark ++ body ++ more) = body ++ more) as ->.
  { rewrite <- drop_drop, drop_app_length. done. }
  rewrite decide_True by (rewrite length_app; lia). unfold n. by rewrite take_app_length.
Qed.

(** A negative Content-Length is no error: [strtoul] accepts the sign and
    negates in [unsigned long], so the length 2 ^ 64 - n, with a minus before
    it, is read as n and the request is accepted. *)
Theorem negative_length_wraps (body more : cstr) (e : ending) (r0 : HttpRequest) (er : http_error) (c : Conn)
    (Hbody : 0 < length body ≤ HTTP_MAX_BODY_SIZE)
    (Hstream : stream (c_recv c) = (wrapped_request body ++ more, e)) :
  wp (http_read_request (Some r0) er) (λ r _, r = (0%Z, Some (request_of (lit "HTTP/1.1") body), er)) c.
Proof.
  assert (http_spec (wrapped_request body ++ more) e = Accepted (lit "HTTP/1.1") body) as Hspec by by apply wrapped_accepted.
  eapply wp_mono; [|by eapply read_answered; [exact Hstream|rewrite Hspec]]. intros r c' [_ Hd]. by rewrite Hspec in Hd.
Qed.

Lemma negative_length_wraps_witness :
  wrapped_line 4 = lit "Content-Length: -18446744073709551612" ∧
  wp (http_read_request (Some zero_request) sample_error)
    (λ r _, r = (0%Z, Some (request_of (lit "HTTP/1.1") (lit "EXIT")), sample_error))
    (new_conn [RecvData (wrapped_request (lit "EXIT"))] []).
Proof.
  split; [vm_compute; reflexivity|].
  apply (negative_length_wraps (lit "EXIT") [] EndClosed).
  - split; [apply Nat.ltb_lt; reflexivity|apply Nat.leb_le; vm_compute; reflexivity].
  - vm_compute. reflexivity.
Defined.

(** A request without header lines is a malformed request line, whatever
    its method and path: the terminator written at the end of the header hides
    the CR LF of the request line from [strstr]. *)
Theorem bare_request_is_malformed (line more : cstr) (e : ending) (r0 : HttpRequest) (er : http_error) (c : Conn)
    (Hline : line_ok line) (Hfit : length line + 4 ≤ HTTP_MAX_REQUEST_SIZE)
    (Hstream : stream (c_recv c) = (line ++ header_end_mark ++ more, e)) :
  wp (http_read_request (Some r0) er)
    (λ r _, r.1.1 = (-1)%Z ∧ r.2 = report 400 "Malformed HTTP request line" er) c.
Proof.
  assert (http_spec (line ++ header_end_mark ++ more) e = Refused 400 "Malformed HTTP request line") as Hspec.
  2: { eapply wp_mono; [|by eapply read_answered; [exact Hstream|rewrite Hspec]]. intros r c' [_ Hd]. by rewrite Hspec in Hd. }
  unfold http_spec.
  assert (find_end (take HTTP_MAX_REQUEST_SIZE (line ++ header_end_mark ++ more)) = Some (length line)) as ->.
  { rewrite (assoc_L (++) line), take_app_ge by (rewrite length_app; change (length header_end_mark) with 4; lia).
    rewrite <- (assoc_L (++)). apply (find_end_joined [line]); [by constructor|done]. }
  pose proof Hline as (_ & Hcr & _ & Hnul). rewrite take_app_length, c_string_id by done. unfold read_head.
  assert (strstr_crlf line = None) as ->; [|done]. clear -Hcr. induction line as [|c line IH]; [done|].
  apply not_elem_of_cons in Hcr as [Hc Hcr]. cbn [strstr_crlf]. rewrite decide_False by (intros [? _]; congruence).
  by rewrite IH.
Qed.

Lemma bare_request_is_malformed_witness :
  wp (http_read_request (Some zero_request) sample_error)
    (λ r _, r.1.1 = (-1)%Z ∧ r.2 = report 400 "Malformed HTTP request line" sample_error)
    (new_conn [RecvData (lit "GET /health HTTP/1.1" ++ header_end_mark)] []).
Proof.
  apply (bare_request_is_malformed (lit "GET /health HTTP/1.1") [] EndClosed);
    [by apply lit_line_ok|apply Nat.leb_le; vm_compute; reflexivity|vm_compute; reflexivity].
Defined.

(** C23: what a response call sends is a prefix of one text, all of it exactly
    when the call reports success, whatever the sizes [send] accepts and however
    often it is interrupted, and it does unless a call of [send] fails or accepts
    nothing; it returns unless the peer closes too early, or leaves it waiting
    with no timeout; and a client reads the status and the body back from that
    text, whose Content-Length is the length of the body. *)
Theorem response_roundtrip (st : Z) (ct body : cstr) (c : Conn)
    (Hst : (0 ≤ st < 1000)%Z) (Htype : line_ok ct) (Hshort : length ct ≤ 300) (Hbody : (Z.of_nat (length body) ≤ ULONG_MAX)%Z) :
  wpx (broken c) (stuck c) (http_send_response st (Some ct) (Some body)) (λ ok c', sent_some c (response_text st ct body) ok c') c ∧
  read_response (response_text st ct body) = Some (st, body).
Proof.
  destruct Htype as (_ & Hcr & Hlf & Hnul). split; [|by apply read_response_text; [lia|..]].
  by apply send_response_ok, response_header_short.
Qed.

Lemma response_roundtrip_witness :
  read_response (response_text 200 (lit "application/json; charset=utf-8") (lit "{}")) = Some (200%Z, lit "{}") ∧
  wp (http_send_response 200 (Some (lit "application/json; charset=utf-8")) (Some (lit "{}")))
    (λ ok c', sent_some sample_conn (response_text 200 (lit "application/json; charset=utf-8") (lit "{}")) ok c') sample_conn.
Proof.
  destruct (response_roundtrip 200 (lit "application/json; charset=utf-8") (lit "{}") sample_conn) as [Hs Hr];
    [lia|by apply lit_line_ok|apply Nat.leb_le; reflexivity|unfold ULONG_MAX; simpl; lia|]. split; [exact Hr|].
  destruct sample_answers as [Hk Hb]. exact (wp_total _ _ _ _ _ Hs Hb Hk).
Defined.
