(* ===== verification/ServerTheorems.v ===== *)
(** What is proved of the server: in any run of the process, its handlers
    interleaved, one order of the records explains what every client got; every
    handler returns, unless a signal ends the process, and no two race; nothing is
    open or allocated at the end; the command line is read within bounds; a client
    that closes early ends the server; and a request to stop can be missed. *)
From stdpp Require Import base list gmap sorting strings fin_maps.
From Stdlib Require Import Ascii ZArith Lia Wellfounded.
From S2P Require Import ThreadPool ThreadPoolInv ThreadPoolSafe ThreadPoolRuns ThreadPoolLive Prelude Memory CLib CLibProofs BPTree Index BPTreeInstance Table TableMem TableRep TableCollect TableQueries TableUpdate TableLife TableSpec Actions TableActs TableActsAlone TableActsInv TableActsSteps TableActsInsert TableActsArrays TableActsLookups TableActsCollect TableActsSpec TableActsRuns TableActsEnds Sql SqlLex SqlGrammar SqlErrors SqlSpec RowTypes Quiet Repl Bytes Json JsonProofs JsonValue Api ApiSpec ApiActs ApiActsSpec Http HttpSpec HttpText Server ServerSpec ServerActs ServerActsInv ServerActsSpec ServerPool ServerAlive ServerHandlers ServerRuns ServerLive TableTheorems ApiTheorems.

(** ** A sample run *)

(** A connection on which a client sends a statement and waits. *)
Definition client (text : string) : Conn :=
  new_conn [RecvData (request_text [lit "Host: localhost"] [] (lit text))] [].

(** Two workers and a queue of one: the first client is queued, the second is
    turned away, the third is served while the first one is, and an error of
    [accept] ends the server. *)
Definition sample_args : list cstr := [lit "8080"; lit "2"; lit "1"].
Definition sample_net : list accept_event :=
  [AcceptConn 5 (client "INSERT INTO users VALUES ('Ann', 31);"); AcceptIntr;
   AcceptConn 6 (client "SELECT * FROM users;"); AcceptConn 7 (client "SELECT * FROM users;"); AcceptError].
Definition sample_start : State := process sample_args (mem_init []) sample_net [] [].

(** Both handlers are in the table; both have returned and their connections are
    closed; [main] has returned. *)
Definition sample_shared : list server_event :=
  replicate 25 (Sv_main None) ++ replicate 2 (Sv_worker 0) ++ replicate 7 (Sv_main None) ++ replicate 2 (Sv_worker 1) ++
  replicate 6 (Sv_worker 0) ++ replicate 2 (Sv_worker 1).
Definition sample_served : list server_event := sample_shared ++ replicate 10 (Sv_worker 0) ++ replicate 59 (Sv_worker 1).
Definition sample_events : list server_event :=
  sample_served ++ replicate 14 (Sv_main None) ++ replicate 2 (Sv_worker 0) ++ replicate 2 (Sv_worker 1) ++ replicate 5 (Sv_main None).
Definition sample_state (evs : list server_event) : State := default sample_start (server_execute evs sample_start).

Lemma sample_executes evs : is_Some (server_execute evs sample_start) → server_execute evs sample_start = Some (sample_state evs).
Proof. intros [st Hst]. unfold sample_state. by rewrite Hst. Qed.

Ltac sample_runs := apply sample_executes, is_Some_alt; vm_compute; exact I.

Lemma sample_fresh : fresh_network sample_net.
Proof. intros fd c Hin. unfold sample_net in Hin. repeat (apply elem_of_cons in Hin as [[= -> ->]|Hin]; [done|]). set_solver. Qed.

Lemma empty_bounded : mem_bounded (mem_init []).
Proof. by intros x _. Qed.
Lemma empty_bytes : bytes_bounded (mem_init []).
Proof. intros l Hl. apply is_Some_alt in Hl. done. Qed.

(** ** Theorems *)

Section run.
Context (args : list cstr) (m : Mem) (net : list accept_event) (results : list Z) (pool_calls : list bool)
  (evs : list server_event) (st : State).
Context (Hbounded : mem_bounded m) (Hmemory : no_failure m) (Hbytes : bytes_bounded m)
  (Hnet : fresh_network net) (Hids : (Z.of_nat (length net) + 1 < INT_MAX)%Z)
  (Hrun : server_execute evs (process args m net results pool_calls) = Some st).

(** What any run of the process comes to. *)
Lemma run_inv : inv m (length net) st.
Proof using All. by eapply execute_inv, process_inv. Qed.
End run.

(** C1: however the threads interleave, the actions of the handlers among them,
    whatever the clients send and however the system calls of the sockets end,
    nothing undefined happens, and one list [D] of the records in the order in
    which they were stored, with the calls of handlers that stored them, no call
    twice, explains what every client saw. The response to a served request is
    the one it has in [D] between the moments at which its handler began and
    returned: a refusal; a parse error; the record inserted then; or the rows
    that its search finds, bucket by bucket, in what was stored by then. What
    was sent is this response (all of it, unless its peer stopped reading), or,
    on a connection closed unserved, the text of a full queue or a part of it.
    And when no handler runs, the table is the list of the records of [D].  (A
    run that [SIGPIPE] ended is one that went no further.) *)
Theorem requests_are_served (args : list cstr) (m : Mem) (net : list accept_event) (results : list Z) (pool_calls : list bool)
    (evs : list server_event) (st : State)
    (Hbounded : mem_bounded m) (Hmemory : no_failure m) (Hbytes : bytes_bounded m)
    (Hnet : fresh_network net) (Hids : (Z.of_nat (length net) + 1 < INT_MAX)%Z)
    (Hrun : server_execute evs (process args m net results pool_calls) = Some st) :
  pc st ≠ S_undefined ∧
  ∃ D : list (record * place), explained st D ∧
    ∀ sv, server st = Some sv →
      (∀ s, s ∈ served st → taken (server_pool sv) !! s_number s = Some (s_fd s)) ∧
      (handlers st = ∅ → ∃ tb db, table sv = Some tb ∧ holds tb db m (w_mem (world st)) ∧ db ≡ₚ D.*1).
Proof.
  assert (inv m (length net) st) as Hinv by by eapply run_inv. split; [by eapply inv_defined|].
  destruct (server st) as [sv|] eqn:Hsv; [|destruct (inv_explained _ _ _ Hinv) as [D HD]; by exists D].
  destruct Hinv as [_ Hst]. rewrite Hsv in Hst. destruct Hst as (_ & tb & g & Hal). exists (entries (sh_table g)).
  split; [by eapply alive_explained|]. intros sv' [= <-]. split; [apply (al_numbers _ _ _ _ _ _ _ _ _ _ Hal)|].
  intros Hnone. rewrite Hnone in Hal. destruct (quiet_table _ _ _ _ _ _ _ _ _ Hal) as [Hidle _].
  exists tb, (db_of (state_of (sh_table g))). split; [apply Hal|]. split; [|by eapply end_records].
  eapply end_holds; [apply (al_world _ _ _ _ _ _ _ _ _ _ Hal)|exact Hidle].
Qed.

Lemma requests_are_served_witness :
  let st := sample_state sample_served in
  w_closed (world st) =
    [(6%Z, busy_text);
     (5%Z, response_text 200 json_type (dq "{'ok':true,'action':'insert','inserted_id':1,'row_count':1}"));
     (7%Z, response_text 200 json_type (dq "{'ok':true,'action':'select','row_count':1,'rows':[{'id':1,'name':'Ann','age':31}]}"))] ∧
  (λ s, (s_fd s, s_begin s, s_end s)) <$> served st = [(5%Z, 0, 1); (7%Z, 0, 1)] ∧
  ∃ D, explained st D ∧ ∃ sv tb db, server st = Some sv ∧ table sv = Some tb ∧ holds tb db (mem_init []) (w_mem (world st)) ∧ db ≡ₚ D.*1.
Proof.
  assert (server_execute sample_served sample_start = Some (sample_state sample_served)) as Hrun by sample_runs.
  destruct (requests_are_served sample_args (mem_init []) sample_net [] [] sample_served (sample_state sample_served)
    empty_bounded eq_refl empty_bytes sample_fresh eq_refl Hrun) as (_ & D & HD & Hsv).
  split; [vm_compute; reflexivity|]. split; [vm_compute; reflexivity|]. exists D. split; [exact HD|].
  assert (is_Some (server (sample_state sample_served))) as [sv Hs] by (apply is_Some_alt; vm_compute; exact I).
  assert (handlers (sample_state sample_served) = ∅) as Hh by (vm_compute; reflexivity).
  destruct (Hsv sv Hs) as (_ & Htable). destruct (Htable Hh) as (tb & db & Ht & Hholds & Hp). exists sv, tb, db.
  split; [exact Hs|]. split; [exact Ht|]. split; [exact Hholds|exact Hp].
Defined.

(** C2: every open connection belongs to exactly one of the main thread, the
    queue and the workers, so that none is closed twice or used by two threads;
    and when [main] returns no handler runs, every connection and the listening
    socket are closed and the memory is as it was at the start. *)
Theorem nothing_is_left (args : list cstr) (m : Mem) (net : list accept_event) (results : list Z) (pool_calls : list bool)
    (evs : list server_event) (st : State)
    (Hbounded : mem_bounded m) (Hmemory : no_failure m) (Hbytes : bytes_bounded m)
    (Hnet : fresh_network net) (Hids : (Z.of_nat (length net) + 1 < INT_MAX)%Z)
    (Hrun : server_execute evs (process args m net results pool_calls) = Some st) :
  (∀ sv, server st = Some sv → NoDup (owned (pc st) (server_pool sv)) ∧
    (∀ fd, is_Some (w_conns (world st) !! fd) ↔ fd ∈ owned (pc st) (server_pool sv)) ∧
    ∀ i h, handlers st !! i = Some h → threads (server_pool sv) !! i = Some (W_handle (h_fd h))) ∧
  ∀ code, pc st = S_end code → handlers st = ∅ ∧ w_conns (world st) = ∅ ∧ listening st = [] ∧
    same_heaps m (w_mem (world st)) ∧ m_bytes (w_mem (world st)) = m_bytes m.
Proof.
  assert (inv m (length net) st) as (_ & Hst) by by eapply run_inv. destruct (server st) as [sv0|].
  - destruct Hst as (_ & tb & g & Hal). split.
    + intros sv [= <-]. split_and!; [apply Hal|apply Hal|apply (al_crew _ _ _ _ _ _ _ _ _ _ Hal)].
    + intros code E. pose proof (al_call _ _ _ _ _ _ _ _ _ _ Hal) as Hc. by rewrite E in Hc.
  - split; [done|]. intros code E. destruct Hst as ((Hl & Hconns) & Hh & [(args' & E' & _)|(code' & D & _ & Hs & Hb & _)]); [congruence|done].
Qed.

Lemma nothing_is_left_witness :
  let st := sample_state sample_events in
  pc st = S_end 0 ∧ length (w_closed (world st)) = 3 ∧ w_conns (world st) = ∅ ∧ listening st = [] ∧ same_heaps (mem_init []) (w_mem (world st)).
Proof.
  assert (server_execute sample_events sample_start = Some (sample_state sample_events)) as Hrun by sample_runs.
  destruct (nothing_is_left sample_args (mem_init []) sample_net [] [] sample_events (sample_state sample_events)
    empty_bounded eq_refl empty_bytes sample_fresh eq_refl Hrun) as [_ Hend].
  destruct (Hend 0%Z) as (_ & Hc & Hl & Hs & _); [vm_compute; reflexivity|].
  split; [vm_compute; reflexivity|]. split; [vm_compute; reflexivity|]. split; [exact Hc|]. split; [exact Hl|exact Hs].
Defined.

(** C3: every handler returns, whatever its client does: in any state the process
    reaches, if only the workers that run handlers go on, then in whatever order
    they do they come to an end; one of them can go on as long as one runs, so
    none waits for ever for a lock of the table, nor, since the timeouts of its
    socket are set, for a client that sends nothing or reads nothing; and when
    they are through every handler of that state has become a service, which
    explains what its client saw.  The one exception is a client that closes its
    connection too early: [SIGPIPE] may then end the process on the way. *)
Theorem handlers_finish (args : list cstr) (m : Mem) (net : list accept_event) (results : list Z) (pool_calls : list bool)
    (evs : list server_event) (st : State)
    (Hbounded : mem_bounded m) (Hmemory : no_failure m) (Hbytes : bytes_bounded m)
    (Hnet : fresh_network net) (Hids : (Z.of_nat (length net) + 1 < INT_MAX)%Z)
    (Hrun : server_execute evs (process args m net results pool_calls) = Some st) :
  Acc next_handled st ∧ (killed st = true ∨ handlers st = ∅ ∨ ∃ st', next_handled st' st) ∧
  ∃ ws st', server_execute (Sv_worker <$> ws) st = Some st' ∧
    (∀ i h, handlers st !! i = Some h →
       (∃ k, handlers st' !! i = Some (Handling (h_fd h) (h_conn h) (h_number h) (h_begin h) k)) ∨ ∃ s, s ∈ served st' ∧ becomes i h s) ∧
    (handlers st' = ∅ ∨ killed st' = true ∧ ∃ fd x, w_conns (world st') !! fd = Some x ∧ broken x).
Proof.
  assert (inv m (length net) st) as Hinv by by eapply run_inv. split; [by eapply handlers_end|]. split.
  { destruct (killed st) eqn:Hk; [by left|right]. destruct (decide (handlers st = ∅)) as [?|Hne]; [by left|right]. by eapply handlers_go. }
  destruct (handlers_return m (length net) Hbounded Hmemory Hbytes Hids st Hinv) as (ws & st' & Hws & He & [[_ Hkill] _] & _ & Hc).
  exists ws, st'. split_and!; [done|done|]. destruct He as [Hk|?]; [right|by left]. split; [done|]. by apply Hkill.
Qed.

(** A client that sends half a request and one that takes no byte of its response,
    neither of which ever closes. *)
Definition patient_net : list accept_event :=
  [AcceptConn 5 (new_conn [RecvData (lit "POST /query"); RecvSilent] [SendStuck]);
   AcceptConn 6 (new_conn (c_recv (client "SELECT * FROM users;")) [SendStuck])].
Definition patient_start : State := process sample_args (mem_init []) patient_net [] [].
(** Both handlers have begun. *)
Definition patient_events : list server_event :=
  replicate 15 (Sv_main None) ++ replicate 2 (Sv_worker 0) ++ replicate 7 (Sv_main None) ++ replicate 2 (Sv_worker 1).
Definition patient_state : State := default patient_start (server_execute patient_events patient_start).

Lemma patient_fresh : fresh_network patient_net.
Proof. intros fd c Hin. unfold patient_net in Hin. repeat (apply elem_of_cons in Hin as [[= -> ->]|Hin]; [done|]). set_solver. Qed.

Lemma handlers_finish_witness :
  let st := patient_state in
  base.size (handlers st) = 2 ∧ served st = [] ∧
  ∃ ws st', server_execute (Sv_worker <$> ws) st = Some st' ∧
    (handlers st' = ∅ ∨ killed st' = true ∧ ∃ fd x, w_conns (world st') !! fd = Some x ∧ broken x).
Proof.
  assert (server_execute patient_events patient_start = Some patient_state) as Hrun.
  { assert (is_Some (server_execute patient_events patient_start)) as [st Hst] by (apply is_Some_alt; vm_compute; exact I).
    unfold patient_state. rewrite Hst. reflexivity. }
  split; [vm_compute; reflexivity|]. split; [vm_compute; reflexivity|].
  destruct (handlers_finish sample_args (mem_init []) patient_net [] [] patient_events patient_state
    empty_bounded eq_refl empty_bytes patient_fresh eq_refl Hrun) as (_ & _ & ws & st' & Hws & _ & Hend).
  exists ws, st'. split; [exact Hws|exact Hend].
Defined.

(** C4: handlers that run at the same time never race: no two of them are ever
    both about to use the next id, or the same bucket of the table where one of
    them changes it. *)
Theorem handlers_never_race (args : list cstr) (m : Mem) (net : list accept_event) (results : list Z) (pool_calls : list bool)
    (evs : list server_event) (st : State) (i j : nat) (h h' : handling) (a b : access)
    (Hbounded : mem_bounded m) (Hmemory : no_failure m) (Hbytes : bytes_bounded m)
    (Hnet : fresh_network net) (Hids : (Z.of_nat (length net) + 1 < INT_MAX)%Z)
    (Hrun : server_execute evs (process args m net results pool_calls) = Some st) (Hij : i ≠ j)
    (Hi : handlers st !! i = Some h) (Hj : handlers st !! j = Some h')
    (Ha : handler_access h = Some a) (Hb : handler_access h' = Some b) : ¬ conflict a b.
Proof. by eapply (handlers_exclude m (length net) st i j); [eapply run_inv|..]. Qed.

Lemma accesses st i a : handlers st !! i ≫= handler_access = Some a → ∃ h, handlers st !! i = Some h ∧ handler_access h = Some a.
Proof. destruct (handlers st !! i) as [h|]; [by exists h|done]. Qed.

Lemma handlers_never_race_witness :
  ∃ h h', handlers (sample_state sample_shared) !! 0 = Some h ∧ handlers (sample_state sample_shared) !! 1 = Some h' ∧
    handler_access h = Some (Writes 1) ∧ handler_access h' = Some (Reads 0) ∧ ¬ conflict (Writes 1) (Reads 0).
Proof.
  assert (server_execute sample_shared sample_start = Some (sample_state sample_shared)) as Hrun by sample_runs.
  destruct (accesses (sample_state sample_shared) 0 (Writes 1) ltac:(vm_compute; reflexivity)) as (h & Hh & H0).
  destruct (accesses (sample_state sample_shared) 1 (Reads 0) ltac:(vm_compute; reflexivity)) as (h' & Hh' & H1).
  exists h, h'. split; [exact Hh|]. split; [exact Hh'|]. split; [exact H0|]. split; [exact H1|].
  apply (handlers_never_race sample_args (mem_init []) sample_net [] [] sample_shared (sample_state sample_shared) 0 1 h h'
    (Writes 1) (Reads 0) empty_bounded eq_refl empty_bytes sample_fresh eq_refl Hrun ltac:(lia) Hh Hh' H0 H1).
Defined.

(** C5: a handler that runs alone reads the request, executes it and sends the
    response: its actions are those of the sequential handler, what it sends is
    the response of the specification to the bytes that came in (all of it,
    unless the peer stops reading), the table changes as the statement says,
    and nothing else in memory is left changed, whatever the request is.  It
    returns, unless the peer closes before it has the response, or lets a socket
    without timeouts wait. *)
Theorem client_is_answered (tb : loc) (db : list record) (m0 : Mem) (w : World) (fd : Z) (c : Conn)
    (Htable : holds tb db m0 (w_mem w)) (Hbytes : bytes_bounded (w_mem w)) (Htyped : db_typed db)
    (Hids : (Z.of_nat (length db) + 1 < INT_MAX)%Z) (Hopen : w_conns w !! fd = Some c) :
  run_act (server_handle_client_acts (Some tb) fd) w = server_handle_client (Some tb) fd w ∧
  wpx (broken c) (silent c ∨ stuck c) (server_handle_client (Some tb) fd) (λ _ w',
    holds tb (serve db (fd, c)) m0 (w_mem w') ∧ m_bytes (w_mem w') = m_bytes (w_mem w) ∧ w_closed w' = w_closed w ∧
    ∃ c', w_conns w' = <[fd := c']> (w_conns w) ∧ delivered c (answer_alone c db) c') w.
Proof.
  split; [apply handler_alone|]. unfold serve, answer_alone. cbn [snd]. destruct (stream (c_recv c)) as [raw e] eqn:E.
  eapply wp_mono; [|by apply (handle_client_ok tb db m0 w fd c raw e)].
  intros _ w' ((Hh & _) & Hb & Hcl & Hout). by split_and!.
Qed.

Lemma client_is_answered_witness :
  ∃ tb w, holds tb sample_rows (mem_init []) (w_mem w) ∧
    answer_alone (client "SELECT * FROM users WHERE id = 1;") sample_rows =
      response_text 200 json_type (dq "{'ok':true,'action':'select','row_count':1,'rows':[{'id':1,'name':'Ann','age':31}]}") ∧
    wp (server_handle_client (Some tb) 9) (λ _ w', ∃ c', w_conns w' = {[9%Z := c']} ∧
      delivered (client "SELECT * FROM users WHERE id = 1;") (answer_alone (client "SELECT * FROM users WHERE id = 1;") sample_rows) c') w.
Proof.
  destruct ApiTheorems.sample_served as (tb & m & Hh & Hb).
  set (w := MkWorld m {[9%Z := client "SELECT * FROM users WHERE id = 1;"]} []). exists tb, w.
  split; [exact Hh|]. split; [vm_compute; reflexivity|].
  destruct (client_is_answered tb sample_rows (mem_init []) w 9 (client "SELECT * FROM users WHERE id = 1;") Hh Hb sample_rows_typed eq_refl)
    as [_ Hwp]; [apply lookup_singleton_eq|].
  refine (wp_mono _ _ _ _ _ (wp_total _ _ _ _ _ Hwp _ _)); [|unfold broken; cbn [c_send client new_conn]; set_solver|].
  2: { intros [[_ H]|[_ H]]; [|cbn [c_send client new_conn] in H; set_solver]. revert H. vm_compute. discriminate. }
  intros _ w' (_ & _ & _ & c' & Hc & Hout). exists c'. split; [|exact Hout]. rewrite Hc. apply insert_singleton_eq.
Defined.

(** ** The command line *)

(** C38: what [main] takes from its command line is within bounds: a port from 1
    to 65535, kept whole in an [unsigned short], at least one worker and one
    place in the queue, a backlog from 1 to 128; and a decimal number within
    the limit of its argument is taken as it is. *)
Theorem command_line_checked (args : list cstr) (p : Z) (cfg : ServerConfig)
    (Hport : parse_port args = Some p) (Hcfg : parse_config p args = Some cfg) :
  port cfg = p ∧ (1 ≤ port cfg ≤ 65535)%Z ∧ (1 ≤ worker_count cfg ≤ ULONG_MAX)%Z ∧
  (1 ≤ queue_capacity cfg ≤ ULONG_MAX)%Z ∧ (1 ≤ backlog cfg ≤ 128)%Z ∧
  ∀ n limit, 0 < n → (Z.of_nat n ≤ limit ≤ ULONG_MAX)%Z → parse_argument (print_dec (Z.of_nat n)) limit = Some (Z.of_nat n).
Proof.
  assert (∀ arg limit v, parse_argument arg limit = Some v → (1 ≤ v ≤ limit)%Z) as Harg.
  { intros arg limit v. unfold parse_argument. pose proof (strtoul_range arg) as Hr.
    destruct (strtoul arg) as [u rest]. cbn [fst] in Hr. case_decide; [done|]. intros [= <-]. lia. }
  assert (∀ i d limit v, (1 ≤ d ≤ limit)%Z → parse_optional args i d limit = Some v → (1 ≤ v ≤ limit)%Z) as Hopt.
  { intros i d limit v Hd. unfold parse_optional. destruct (args !! i); [apply Harg|by intros [= <-]]. }
  assert (1 ≤ p ≤ 65535)%Z as Hp.
  { unfold parse_port in Hport. destruct args as [|arg args']; [injection Hport as <-; lia|by apply Harg in Hport]. }
  unfold parse_config in Hcfg.
  destruct (parse_optional args 1 4 ULONG_MAX) as [workers|] eqn:E1; [|done]. apply Hopt in E1; [|unfold ULONG_MAX; lia].
  destruct (parse_optional args 2 16 ULONG_MAX) as [capacity|] eqn:E2; [|done]. apply Hopt in E2; [|unfold ULONG_MAX; lia].
  destruct (parse_optional args 3 32 128) as [bl|] eqn:E3; [|done]. apply Hopt in E3; [|lia].
  injection Hcfg as <-. cbn [port worker_count queue_capacity backlog]. rewrite Z.mod_small by lia.
  assert (to_int bl = bl) as -> by (unfold to_int; rewrite Z.mod_small by lia; lia).
  split_and!; try lia. intros n limit Hn Hl. unfold parse_argument. rewrite strtoul_print by lia. rewrite decide_False; [done|].
  intros [Hlen|[Hne|[Hz|Hlim]]]; [|done|lia|lia].
  destruct (print_dec_digits n) as (ds & Heq & Hds & _); [unfold ULONG_MAX in *; lia|].
  rewrite Heq in Hlen. by destruct ds.
Qed.

Lemma command_line_checked_witness :
  let args := [lit "8080"; lit "+8"; lit "64"] in
  parse_port args = Some 8080%Z ∧ parse_config 8080 args = Some (MkConfig 8080 8 64 32) ∧ (1 ≤ backlog (MkConfig 8080 8 64 32) ≤ 128)%Z ∧
  parse_port [lit "65536"] = None ∧ parse_port [lit "80x"] = None ∧ parse_port [[]] = None.
Proof.
  split; [vm_compute; reflexivity|]. split; [vm_compute; reflexivity|].
  split; [|split_and!; vm_compute; reflexivity].
  apply (command_line_checked [lit "8080"; lit "+8"; lit "64"] 8080); vm_compute; reflexivity.
Defined.

(** ** Findings *)

(** A negative argument is taken as the number that [strtoul] makes of it: -1 is
    a number of workers, and a large negative one a port. *)
Lemma negative_arguments_wrap :
  parse_config 8080 [lit "8080"; lit "-1"] = Some (MkConfig 8080 ULONG_MAX 16 32) ∧
  parse_port [lit "-18446744073709543536"] = Some 8080%Z.
Proof. split; vm_compute; reflexivity. Qed.

(** C20: nothing handles [SIGPIPE], and responses are sent with no flags: when a
    response is sent on a connection that its peer has closed, the whole process
    ends, with every other connection and all the records.  It is the only way
    in which a signal ends it: a process that was ended so has an open connection
    whose peer closed before it had read its response, and it has no more steps. *)
Theorem early_close_ends_server (args : list cstr) (m : Mem) (net : list accept_event) (results : list Z) (pool_calls : list bool)
    (evs : list server_event) (st : State)
    (Hbounded : mem_bounded m) (Hmemory : no_failure m) (Hbytes : bytes_bounded m)
    (Hnet : fresh_network net) (Hids : (Z.of_nat (length net) + 1 < INT_MAX)%Z)
    (Hrun : server_execute evs (process args m net results pool_calls) = Some st) :
  (∀ fd c rest status body, w_conns (world st) !! fd = Some c → c_send c = SendBroken :: rest →
     on_conn fd (http_send_response status (Some json_type) (Some body)) (world st) = Killed) ∧
  (killed st = true → (∃ fd x, w_conns (world st) !! fd = Some x ∧ broken x) ∧ ∀ ev, server_step ev st = None).
Proof.
  split.
  - intros fd c rest status body Hc Hs. unfold on_conn. rewrite Hc. rewrite (respond_broken _ _ _ _ rest); [done|apply response_header_short; vm_compute; lia|done].
  - assert (inv m (length net) st) as [[_ Hk] _] by by eapply run_inv. intros Hkilled. split; [by apply Hk|by apply killed_ends].
Qed.

(** The first client sends an insertion and closes at once; the second one's
    request is being handled. *)
Definition hasty_net : list accept_event :=
  [AcceptConn 5 (new_conn (c_recv (client "INSERT INTO users VALUES ('Ann', 31);")) [SendBroken]);
   AcceptConn 6 (client "SELECT * FROM users;")].
Definition hasty_start : State := process sample_args (mem_init []) hasty_net [] [].
Definition hasty_events : list server_event :=
  replicate 15 (Sv_main None) ++ replicate 2 (Sv_worker 0) ++ replicate 7 (Sv_main None) ++ replicate 2 (Sv_worker 1) ++ replicate 13 (Sv_worker 0).
Definition hasty_state : State := default hasty_start (server_execute hasty_events hasty_start).

Lemma hasty_fresh : fresh_network hasty_net.
Proof. intros fd c Hin. unfold hasty_net in Hin. repeat (apply elem_of_cons in Hin as [[= -> ->]|Hin]; [done|]). set_solver. Qed.

Lemma early_close_ends_server_witness :
  server_execute hasty_events hasty_start = Some hasty_state ∧ killed hasty_state = true ∧
  (c_out <$> w_conns (world hasty_state)) = {[5%Z := []; 6%Z := []]} ∧
  ((λ sv, stored_rows (table sv) (w_mem (world hasty_state))) <$> server hasty_state) = Some 1 ∧
  ∀ ev, server_step ev hasty_state = None.
Proof.
  assert (server_execute hasty_events hasty_start = Some hasty_state) as Hrun.
  { assert (is_Some (server_execute hasty_events hasty_start)) as [st Hst] by (apply is_Some_alt; vm_compute; exact I).
    unfold hasty_state. rewrite Hst. reflexivity. }
  assert (killed hasty_state = true) as Hk by (vm_compute; reflexivity).
  split; [exact Hrun|]. split; [exact Hk|]. split; [vm_compute; reflexivity|]. split; [vm_compute; reflexivity|].
  apply (early_close_ends_server sample_args (mem_init []) hasty_net [] [] hasty_events hasty_state
    empty_bounded eq_refl empty_bytes hasty_fresh eq_refl Hrun). exact Hk.
Defined.

(** A request to stop that comes between the test of the flag and [accept] is not
    noticed: the process waits until the next connection or signal. *)
Lemma shutdown_can_be_missed :
  ∃ st, server_execute (replicate 7 (Sv_main None) ++ replicate 3 (Sv_worker 0) ++ [Sv_signal])
      (process [lit "8080"; lit "1"; lit "1"] (mem_init []) [] [] []) = Some st ∧
    g_shutdown_requested st = true ∧ pc st = S_accept ∧
    (∀ waiter, server_step (Sv_main waiter) st = None) ∧ ∀ i, server_step (Sv_worker i) st = None.
Proof.
  eexists. split; [vm_compute; reflexivity|]. split; [reflexivity|]. split; [reflexivity|].
  split; [intros waiter; reflexivity|]. intros [|[|i]]; reflexivity.
Qed.
